(* ===== verification/_CoqProject ===== *)
-Q . S2P
Prelude.v
PoaConsensus.v
PoaP2P.v
ChainSpec.v
ChainSpecProps.v
Ordered.v
EngineBlocks.v
BlockBuffer.v
BufferClaims.v
InvalidHeaders.v
TreeState.v
TreeProps.v
TreeClaims.v
Forkchoice.v
EngineTree.v
EngineClaims.v
InMemory.v
InMemoryProps.v
EngineHandler.v
EngineOps.v
EngineMsgs.v
EngineLoop.v
EngineWp.v
EngineInv.v
EngineSample.v
EngineSafety.v
EngineAnswers.v
EngineInvalid.v
EnginePersist.v
TxIdentifier.v
TxState.v
TxErrors.v
BeaconConsensus.v
BeaconProps.v
BeaconClaims.v
PoaGenesis.v
TxTypes.v
EthTransaction.v
EthValidator.v
EthValidatorProps.v
BlobStore.v
PoolEvents.v
SubPoolSpec.v
ParkedPool.v
PendingPool.v
BestTxs.v
BestProps.v
BestWrap.v
BestClaims.v
BlobFee.v
BlobPool.v
AllTransactions.v
TxPool.v
TxPoolInv.v
TxPoolOps.v
TxPoolLimits.v
TxPoolProps.v
TxPoolBest.v
TxPoolRemoved.v
PoolInner.v
PoolInnerProps.v
PoolFacade.v
Maintain.v
MaintainProps.v
MaintainClaims.v
