(* ===== verification/Prelude.v ===== *)
(** * Pasifika PoA chain: a verification development

    The repository is the reth execution client with a small proof-of-authority
    layer ([pasifika-poa]).  This development models the proof-of-authority
    layer, the chain specification and the consensus rules that its node runs
    with, the transaction pool ([crates/transaction-pool]), which carries
    the state-changing logic a node runs between blocks, and the engine that
    follows the chain ([crates/engine/tree], [crates/chain-state]),
    and proves what makes them correct.

    ** The parts and where they are

    - [pasifika-poa/src/consensus.rs]: the registry of validators.
      [PoaConsensus.v], module [Consensus].  The vector behind the lock is the
      state; each method is a function on it.
    - [pasifika-poa/src/p2p.rs]: the table of peers and the enode URL.
      [PoaP2P.v], module [P2P].
    - [chainspec/src/spec.rs], [api.rs] and [ethereum/hardforks]: the forks of a chain
      in their order, the specification made of a genesis file, the builder and the
      fork identifier.  [ChainSpec.v], module [ChainSpecs], and [ChainSpecProps.v].
    - [consensus/consensus], [consensus/common] and [ethereum/consensus]: the rules
      for headers, blocks and results of execution, with the traits as classes.
      [BeaconConsensus.v], module [Beacon]; [BeaconProps.v] has the conditions the
      rules amount to and [BeaconClaims.v] the properties.
    - [pasifika-poa/src/genesis.rs]: the genesis of the PoA chain.  [PoaGenesis.v]
      has the genesis file as a record and what a chain on top of it looks like.
    - [transaction-pool/src/identifier.rs], [pool/size.rs]: identifiers of
      senders and transactions and the size tracker.  [TxIdentifier.v], module
      [Identifier].  A transaction identifier orders by sender and then nonce,
      so that a [BTreeMap] keeps the transactions of a sender together.
    - [pool/state.rs]: the flag byte of a transaction and the sub-pool it calls
      for.  [TxState.v], module [TxState].
    - [error.rs] and [primitives-traits/src/transaction/error.rs]: the errors of
      the pool and the decision whether to penalise the sender.  [TxErrors.v],
      module [TxErrors].
    - [config.rs], [ordering.rs], [validate/mod.rs], [traits.rs],
      [pool/update.rs]: the data the pool works on.  [TxTypes.v], module
      [TxTypes], and [EthTransaction.v], module [EthTx] (pooled Ethereum
      transactions with their cost and blob sidecar, outcomes of validation).
    - [validate/eth.rs]: the validator of incoming transactions, its fork tracker
      and its builder.  [EthValidator.v], module [Validator], has the checks in
      the order of the code; [EthValidatorProps.v] their properties.
    - [pool/parked.rs]: the base-fee and the queued pool.  [ParkedPool.v],
      module [Parked].
    - [pool/pending.rs]: the pending pool.  [PendingPool.v], module [Pending].
    - [pool/best.rs] and the functions of [pool/pending.rs] that make an iterator:
      the iterators over the best transactions.  [BestTxs.v], module [Best], has
      the trait as a class, the iterator over a snapshot of the pending pool and
      its wrappers (fees, filter, prioritised senders); [BestProps.v] and
      [BestWrap.v] prove the reference semantics and the laws of the trait
      ([BestLaws]); [BestClaims.v] states the properties.
    - [pool/blob.rs]: the blob pool and its fee distance in binary64.
      [BlobPool.v], module [BlobTxs], and [BlobFee.v], module [BlobFee].
    - [pool/txpool.rs], [AllTransactions]: every transaction with its state and
      the sub-pool recorded for it.  [AllTransactions.v], module [AllTxs].
    - [pool/txpool.rs], [TxPool]: the four sub-pools and the set of all
      transactions kept in step.  [TxPool.v], module [Pool], has the
      operations; [TxPoolInv.v], [TxPoolOps.v] and [TxPoolLimits.v] prove the
      invariant; [TxPoolProps.v] states the properties; [TxPoolRemoved.v] that
      removals report what they take; [TxPoolBest.v] has the iterators for a block
      and the queries.
    - [blobstore]: the interface of a blob store, the store in memory, the no-op
      store and the tracker of blobs in canonical blocks.  [BlobStore.v], module
      [BlobStore]; the class [BlobStoreLaws] says what the pool relies on.
    - [pool/events.rs], [pool/listener.rs]: events and the channels they are sent
      on.  [PoolEvents.v], module [PoolEvents]; a channel is its buffer, its
      capacity and whether the receiver was dropped.
    - [pool/mod.rs] and [lib.rs]: [PoolInner], which puts the validator, the blob
      store, the identifiers, the listeners and [TxPool] together, and [Pool].
      [PoolInner.v], module [Inner], has the operations, [PoolInnerProps.v] the
      invariant and [PoolFacade.v] the properties, for any blob store with
      [BlobStoreLaws].
    - [maintain.rs], with what it reads of [Chain]
      ([evm/execution-types/src/chain.rs]) and of [CanonStateNotification]
      ([chain-state/src/notifications.rs]): the loop that keeps the pool up to
      date with the chain.  [Maintain.v], module [Maintain], has the loop,
      [MaintainProps.v] the lemmas and [MaintainClaims.v] the properties.

    - [engine/tree/src/tree/block_buffer.rs]: blocks whose parent is missing.
      [BlockBuffer.v], module [Buffer], and [BufferClaims.v].
    - [engine/tree/src/tree/invalid_headers.rs]: the cache of invalid headers.
      [InvalidHeaders.v], over the class [LruMap].
    - [engine/tree/src/tree/state.rs]: the executed blocks in memory.  [TreeState.v], module
      [Tree]; [TreeProps.v] has the invariant and the removals, [TreeClaims.v] the
      walks, the reached states and the properties.
    - [engine/primitives/src/forkchoice.rs], [tree/persistence_state.rs]: [Forkchoice.v].
    - [engine/tree/src/tree/mod.rs]: the handler of the engine.  [EngineTree.v], module [Engine], has
      the chain to a new head, the reorg on disk and the blocks to write, with [EngineClaims.v].
      [EngineHandler.v], module [Handler], has the whole state, the messages ([engine.rs],
      [chain.rs], [engine/primitives]), events and errors, and the monad of its methods;
      [EngineOps.v] the answers about invalid blocks, the kinds of chains and the canonical chain;
      [EngineMsgs.v] the insertion of blocks, new payloads and forkchoice updates;
      [EngineLoop.v] downloaded blocks, backfill, persistence and the loop.  [EngineWp.v] has the
      rules for the monad, [EngineInv.v] the invariant and that every method keeps it,
      [EngineSample.v] a small node; [EngineSafety.v], [EngineAnswers.v], [EngineInvalid.v] and
      [EnginePersist.v] state the properties.
    - [chain-state/src/in_memory.rs], [chain_info.rs]: the canonical chain in memory.
      [InMemory.v] and, with the list it implements, [InMemoryProps.v].
      [EngineBlocks.v] has what these files share: blocks seen through the class
      [BlockTrait], indices by hash, walks along the parents.

    [Prelude.v] (this file) has machine integers, results, tactics and keyed
    vectors; [Ordered.v] has [BTreeMap] and [BTreeSet] iteration.

    How they interact: [TxPool] asks [AllTransactions] what an event changes and
    gets a list of moves between sub-pools, which it then carries out.
    [SubPoolSpec.v] states, as the class [SubPoolImpl], what the owner relies on
    of any sub-pool (seen as a finite map from identifier to transaction, adding
    inserts, removing deletes, neither panics); the three implementations are
    instances, and the proofs about [TxPool] only use the class.  [PoolInner]
    validates, creates identifiers, calls [TxPool] and then brings the blob store
    and the listeners up to date; its proofs use the lemmas on [TxPool], the
    specification of the validator and the laws of the store.  The maintenance
    loop only goes through the operations of [PoolInner], and the theorems about
    it let other users of the pool act between any two of its rounds.  The handler of
    the engine owns the tree state, the buffer, the cache of invalid headers, the tracker and
    the state in memory, and reads the database through look-ups by hash; the chain that it
    finds for a new head is what the state in memory is updated with.  It calls the payload validator
    and the consensus rules through the classes [EngineValidator] and [FullConsensus]; the class
    [ValidatorLaws] says that a validator answers about the block that it was given.  What it sends
    (events, answers, requests to the persistence task, payload jobs) is appended to lists of
    its state; what it receives are the arguments of a round.

    ** How the code is represented

    - A [u64] or [usize] is a [Z]; operations that can leave the range write the
      wrap-around of the release profile out ([wrap_u64]).  [U256] sums wrap.
    - A panic ([expect], [assert!], [unreachable!]) is [None] of an option type;
      a [Result] is [result].  Debug assertions, metrics and tracing are left out.
    - A [HashMap] or [BTreeMap] is a [gmap]; where the order of iteration matters
      it is the sorted list of entries ([bt_entries]).  A [BTreeSet] whose order
      is coarser than equality is a sorted list ([bset_insert]).
    - Values and types of the alloy and revm libraries are the classes
      [AlloyConstants], [AlloyTypes], [ValidatorConstants], [ChainTypes] and
      [BodyTypes] (hashes, roots, the base fee of EIP-1559); the effective
      tip of a transaction, computed by a library, is a parameter of the ordering.
    - What is behind a lock is state; asynchronous validation followed by
      insertion is one function.  The time of arrival is an argument.
    - The broadcast channel an iterator reads is the queue of messages it has not
      read yet.
    - The variables of the maintenance loop are a record; a round is [prepare],
      the code up to the [select!], followed by [select], the branch that was
      ready.  The state of the chain that a round reads is an argument.
    - A method of the handler is a function in a monad of state and errors; [None] is a panic or
      a walk that is out of fuel.  Other tasks may change the database between two rounds.
    - The order in which a [HashSet] is iterated is the class [HashOrder]; the database is a
      record of look-ups; a block state with a reference to the one below it is an
      inductive type.
    - Closures passed to collect transactions are represented by the list of what
      they are called with.

    ** Loops and fuel

    Loops whose recursion is not structural take fuel, and it is proved that the
    fuel given is enough: truncation of a sub-pool takes one more round than it
    has transactions; removing descendants takes one more than the pool has
    transactions; a call of an iterator takes at most [next_fuel] rounds, which
    counts what the iterator and its channel hold.  A walk from a block to its parents
    takes one more round than there are blocks, which is enough when no chain of
    parents is circular; the chains of the handler, which also lead through the
    database, take as many rounds as they are long.  The handler as a whole is run with fuel above the rank
    of every hash, where a block has a greater rank than its parent: then every round returns.  [discard_worst] is a [while]
    loop without a bound in the code, so its fuel is a parameter: enough fuel is
    proved to end it when the pending pool has exact indices, and a reachable pool
    is given on which no fuel is enough.

    ** What the theorems show

    - [TxPoolProps]: in every reachable pool the sub-pools partition the set of
      all transactions as recorded; the one case in which an operation panics; what adding, a new
      block, a base-fee change, removal and limit enforcement do to the set and
      to the sub-pools, exactly, with the limits and the price bumps as numbers.  Three theorems exhibit reachable pools in which
      the code does not do what it means to.
    - [Facade]: in every reachable state each transaction is filed under the
      identifier of its sender and the blob store has the sidecar of every blob
      transaction, but for a set of hashes ([LostBlobs]) whose sidecars users or the finalisation of
      blocks may delete while the transaction is pooled; a batch does what its answers say; only validated transactions
      enter; what peers are sent stays within the soft limit.
    - [MaintainClaims]: the invariant of the pool holds whatever the maintenance
      is told and whoever uses the pool in between; after a reorg no transaction of
      the new chain is in the pool and the pool goes by the accounts at the new tip ([pool_account]);
      an account that may be out of date is not forgotten until the pool goes by a newer one, and the rounds
      reload them all.  Three theorems exhibit runs that go wrong.
    - [BlobStore], [PoolEvents], [PoolRemoved]: size counters and look-ups of the
      store, finalised blobs, events up to the final one, removals as reported.
    - [BestClaims], [PoolBest]: the iterators return what a greedy reference
      semantics returns, the highest priority first ([ranked]), in nonce order per sender, respect the fees, the filter
      and the senders marked as invalid, and never hang; two theorems exhibit
      runs in which the order of nonces is broken.
    - [ValidatorProps]: a transaction is valid if and only if it meets a list of
      declarative conditions; batches are validated as single transactions are;
      the fork tracker follows the head; costs are exact.
    - [AllTxs]: the flags and cumulative costs after an insertion.
    - [Pending], [Parked], [BlobTxs]: consistency of the indices, exactness of
      the fee updates, order and termination of truncation.
    - [BlobFee], [TxState], [TxTypes], [Identifier]: arithmetic of the fee
      distance, flags against the numeric comparison, the replacement rule, the
      bijection of sender identifiers.
    - [BeaconClaims], [ChainSpecProps], [PoaGenesis]: an accepted header, range and block
      satisfies exactly the declarative rules; accepted ranges are chains within
      their bounds; the fork identifier is the one of EIP-6122; a specification
      has the forks its genesis file configures; on the PoA chain the base fee is
      zero until a block uses more than the target, and positive from then on, if the library computes
      the base fee of EIP-1559 ([eip1559]).
    - [BufferClaims], [InvalidHeaders]: the buffer stays consistent and within its limit, what is
      connected comes out parents first; a theorem exhibits a block that is lost when
      it is given twice.  Invalid headers are answered for 127 times and never made up.
    - [TreeClaims]: the maps of the tree agree in every reached state; what the removal of
      persisted blocks and of finalized sidechains leaves, exactly; descendants.  A theorem
      exhibits a sidechain that is not pruned.
    - [EngineClaims], [InMemoryProps], [Forkchoice]: the chain to a new head, the reorg on disk and the
      blocks to write are exact; the state in memory implements a list of linked blocks;
      what the tracker of forkchoice states remembers.
    - [EngineSafety]: whatever messages the handler of the engine receives, every round returns, its
      maps agree, the heads agree, and no blocks are saved during a backfill.  [EngineAnswers]: what
      the answers to a payload and to a forkchoice update mean.  [EngineInvalid]: descendants of
      invalid blocks are rejected and remembered.  [EnginePersist]: what is written is a chain without
      gaps; three theorems exhibit runs in which blocks are removed during a backfill, a block that is
      not on the chain is accepted as finalized, and downloaded blocks are lost.
    - [Consensus], [P2P]: reachability invariants and refinement of a set and of
      a finite map.

    The proofs about the pool assume that the 64-bit submission counters do not
    wrap around ([has_room]); each theorem says how much room its operation needs.

    ** Not modelled

    The blob store on disk, the backup of local transactions to a file (the last
    part of [maintain.rs]), the asynchronous tasks of [batcher.rs] and
    [validate/task.rs], metrics, the embedded specifications of public networks, of the engine the
    execution of payloads ([payload_validator.rs] and [payload_processor]) and the tasks around the handler,
    which run on threads and channels, and the rest of the execution client (networking, storage, trie, RPC). *)

From Stdlib Require Export ZArith Lia.
From stdpp Require Export sorting pretty.
From stdpp Require Export prelude fin_maps gmap strings numbers list.

Set Default Proof Using "Type".

(** ** Scope and notations *)

Declare Scope reth_scope.
Delimit Scope reth_scope with reth.
Open Scope Z_scope.

(** ** Machine integers

    A [w]-bit unsigned integer is a [Z]; the operations that can leave the
    range write the wrap-around of the release profile out. *)

Definition u64_modulus : Z := 2 ^ 64.
Definition u256_modulus : Z := 2 ^ 256.
Definition wrap_u64 (z : Z) : Z := z mod u64_modulus.
Definition wrap_u256 (z : Z) : Z := z mod u256_modulus.

(** [x as isize] of a 64-bit pattern: the signed reading of [z mod 2^64]. *)
Definition wrap_i64 (z : Z) : Z :=
  (z + 2 ^ 63) mod u64_modulus - 2 ^ 63.

Definition wrapping_add_u64 (a b : Z) : Z := wrap_u64 (a + b).
Definition saturating_add_u64 (a b : Z) : Z := Z.min (a + b) (u64_modulus - 1).
Definition saturating_sub_u64 (a b : Z) : Z := Z.max (a - b) 0.
Definition add_u256 (a b : Z) : Z := wrap_u256 (a + b).

Definition is_u64 (z : Z) : Prop := 0 <= z < u64_modulus.

Lemma wrap_u64_small z : is_u64 z -> wrap_u64 z = z.
Proof. unfold is_u64, wrap_u64. intros. by apply Z.mod_small. Qed.

Lemma wrap_u64_is_u64 z : is_u64 (wrap_u64 z).
Proof. apply Z.mod_pos_bound. reflexivity. Qed.

Lemma wrap_u64_wrap_i64 z : wrap_u64 (wrap_i64 z) = wrap_u64 z.
Proof.
  unfold wrap_u64, wrap_i64.
  rewrite Zminus_mod_idemp_l. f_equal. lia.
Qed.

Lemma wrap_u64_add_l a b : wrap_u64 (wrap_u64 a + b) = wrap_u64 (a + b).
Proof. unfold wrap_u64. by rewrite Zplus_mod_idemp_l. Qed.

Lemma wrap_u64_add_r a b : wrap_u64 (a + wrap_u64 b) = wrap_u64 (a + b).
Proof. unfold wrap_u64. by rewrite Zplus_mod_idemp_r. Qed.

Lemma wrap_u64_sub_l a b : wrap_u64 (wrap_u64 a - b) = wrap_u64 (a - b).
Proof. unfold wrap_u64. by rewrite Zminus_mod_idemp_l. Qed.

Lemma wrap_u64_sub_r a b : wrap_u64 (a - wrap_u64 b) = wrap_u64 (a - b).
Proof. unfold wrap_u64. by rewrite Zminus_mod_idemp_r. Qed.

(** ** Results

    [Result<T, E>] of the source. *)

Inductive result (T E : Type) : Type :=
| Ok (t : T)
| Err (e : E).
Arguments Ok {T E} t.
Arguments Err {T E} e.

Definition result_bind {T U E} (r : result T E) (f : T -> result U E) : result U E :=
  match r with
  | Ok t => f t
  | Err e => Err e
  end.

Notation "x <-? r ; k" := (result_bind r (fun x => k))
  (at level 100, r at next level, right associativity) : reth_scope.

Lemma result_bind_Ok {T U E} (r : result T E) (f : T -> result U E) u :
  result_bind r f = Ok u -> exists t, r = Ok t /\ f t = Ok u.
Proof. destruct r; simpl; naive_solver. Qed.

(** ** Tactics *)

(** Case analysis on the discriminee of a [match] or [if] of the goal or of
    a hypothesis, keeping the equation. *)
Ltac case_goal :=
  match goal with
  | |- context [match ?x with _ => _ end] => destruct x eqn:?
  end.
Ltac case_in H :=
  match type of H with
  | context [match ?x with _ => _ end] => destruct x eqn:?
  end.

(** Break every boolean test of the context into the proposition it decides. *)
Ltac bools :=
  repeat match goal with
  | H : bool_decide _ = true |- _ => apply bool_decide_eq_true in H
  | H : bool_decide _ = false |- _ => apply bool_decide_eq_false in H
  | H : (_ && _)%bool = true |- _ => apply andb_true_iff in H as [? ?]
  | H : (_ || _)%bool = false |- _ => apply orb_false_iff in H as [? ?]
  | H : negb _ = true |- _ => apply negb_true_iff in H
  | H : negb _ = false |- _ => apply negb_false_iff in H
  | H : (_ <? _) = true |- _ => apply Z.ltb_lt in H
  | H : (_ <? _) = false |- _ => apply Z.ltb_ge in H
  | H : (_ <=? _) = true |- _ => apply Z.leb_le in H
  | H : (_ <=? _) = false |- _ => apply Z.leb_gt in H
  | H : (_ =? _) = true |- _ => apply Z.eqb_eq in H
  | H : (_ =? _) = false |- _ => apply Z.eqb_neq in H
  end.

Create HintDb reth.

Lemma filter_all_true {A} (f : A -> bool) l :
  Forall (fun x => f x = true) l -> List.filter f l = l.
Proof. induction 1 as [|x l Hx _ IH]; simpl; [done|]. by rewrite Hx, IH. Qed.

Lemma list_filter_all {A} (P : A -> Prop) `{!forall x, Decision (P x)} (l : list A) : Forall P l -> filter P l = l.
Proof. induction 1 as [|x l Hx _ IH]; [done|]. rewrite filter_cons_True by done. by rewrite IH. Qed.

Lemma omap_ext_in {A B} (f g : A -> option B) (l : list A) :
  (forall x, x ∈ l -> f x = g x) -> omap f l = omap g l.
Proof.
  induction l as [|x l IH]; intros Hfg; [done|]. csimpl. rewrite (Hfg x) by set_solver.
  rewrite IH by set_solver. done.
Qed.

Lemma nodup_fmap_inj {A B} (f : A -> B) (l : list A) x y : NoDup (f <$> l) -> x ∈ l -> y ∈ l -> f x = f y -> x = y.
Proof.
  intros Hnd (i & Hi)%list_elem_of_lookup (j & Hj)%list_elem_of_lookup Hf.
  assert (i = j) as <-; [|congruence]. apply (NoDup_lookup (f <$> l) i j (f x)); [done|by rewrite list_lookup_fmap, Hi|].
  by rewrite list_lookup_fmap, Hj, Hf.
Qed.

Lemma last_cons_default {A} (x d : A) l : List.last (x :: l) d = List.last l x.
Proof.
  revert x d. induction l as [|y l IH]; intros x d; [done|].
  change (List.last (y :: l) d = List.last (y :: l) x). by rewrite !IH.
Qed.

(** ** Keyed vectors

    The PoA components keep a [Vec] searched by a key: [iter().any(..)],
    [iter_mut().find(..)], [push]. *)

Section keyed_vec.
Context {A K : Type} `{EqDecision K} (key : A -> K).
Implicit Types (l : list A) (k : K) (x : A).

Definition any_key k l : bool := existsb (fun x => bool_decide (key x = k)) l.

(** [if let Some(x) = l.iter_mut().find(|x| x.key == k) { *x = f(x) }]. *)
Fixpoint update_first k (f : A -> A) l : list A :=
  match l with
  | [] => []
  | x :: l => if bool_decide (key x = k) then f x :: l else x :: update_first k f l
  end.

Definition find_key k l : option A := List.find (fun x => bool_decide (key x = k)) l.

Lemma any_key_true k l : any_key k l = true <-> k ∈ key <$> l.
Proof.
  unfold any_key. rewrite existsb_exists, list_elem_of_fmap.
  setoid_rewrite bool_decide_eq_true. setoid_rewrite <- list_elem_of_In. naive_solver.
Qed.

Lemma any_key_false k l : any_key k l = false <-> k ∉ key <$> l.
Proof. rewrite <- any_key_true. destruct (any_key k l); naive_solver. Qed.

Lemma find_key_cons k x l :
  find_key k (x :: l) = if bool_decide (key x = k) then Some x else find_key k l.
Proof. reflexivity. Qed.

Lemma find_key_Some k l x : find_key k l = Some x -> x ∈ l /\ key x = k.
Proof.
  unfold find_key. intros [Hin Hk]%find_some. bools.
  split; [by apply list_elem_of_In|done].
Qed.

Lemma find_key_None k l : find_key k l = None <-> k ∉ key <$> l.
Proof.
  induction l as [|x l IH]; [set_solver|].
  rewrite find_key_cons, fmap_cons, not_elem_of_cons. case_bool_decide; naive_solver.
Qed.

Lemma find_key_NoDup l x : NoDup (key <$> l) -> x ∈ l -> find_key (key x) l = Some x.
Proof.
  induction l as [|y l IH]; [set_solver|].
  rewrite fmap_cons, NoDup_cons, find_key_cons.
  intros [Hy Hl] [->|Hx]%elem_of_cons; [by rewrite bool_decide_eq_true_2|].
  rewrite bool_decide_eq_false_2; [auto|].
  intros Heq. apply Hy. rewrite Heq. by apply list_elem_of_fmap_2.
Qed.

Lemma find_key_app k l1 l2 :
  find_key k (l1 ++ l2) = match find_key k l1 with Some x => Some x | None => find_key k l2 end.
Proof.
  induction l1 as [|x l1 IH]; [done|].
  rewrite <- app_comm_cons, !find_key_cons, IH. by case_bool_decide.
Qed.

Lemma update_first_keys k f l :
  (forall x, key (f x) = key x) -> key <$> update_first k f l = key <$> l.
Proof.
  intros Hf. induction l as [|x l IH]; [done|].
  simpl. case_bool_decide; csimpl; by rewrite ?Hf, ?IH.
Qed.

Lemma update_first_find k k' f l :
  (forall x, key (f x) = key x) ->
  find_key k' (update_first k f l) =
  if bool_decide (k' = k) then f <$> find_key k' l else find_key k' l.
Proof.
  intros Hf. induction l as [|x l IH].
  - by case_bool_decide.
  - simpl. destruct (decide (key x = k)) as [Hx|Hx].
    + rewrite bool_decide_eq_true_2 by done. rewrite !find_key_cons, Hf.
      repeat case_bool_decide; naive_solver.
    + rewrite (bool_decide_eq_false_2 (key x = k)) by done. rewrite !find_key_cons, IH.
      repeat case_bool_decide; naive_solver.
Qed.

Lemma update_first_Forall (P : A -> Prop) k f l :
  (forall x, P x -> P (f x)) -> Forall P l -> Forall P (update_first k f l).
Proof.
  intros Hf. induction 1; simpl; [constructor|]. case_bool_decide; constructor; auto.
Qed.

End keyed_vec.

Arguments find_key {A K} {_} key k l : simpl never.
Arguments any_key {A K} {_} key k l : simpl never.
