(* ===== verification/PoaConsensus.v ===== *)
(** * The PoA consensus engine

    [pasifika-poa/src/consensus.rs]: the validator registry shared between
    the nodes of the network, its queries, header validation and sealing.

    The registry is an [Arc<RwLock<Vec<Validator>>>].  Every method takes the
    lock once and does all its work under it, so a concurrent execution is a
    sequence of whole method calls: [poa_step] is one such call, [rtc
    poa_step] an arbitrary interleaving of the calls of all nodes. *)

From S2P Require Import Prelude.

Module Consensus.

(** ** Data *)

Abbreviation Address := Z (only parsing).

Record Validator := mkValidator {
  address : Address;
  node_id : string;
  active : bool;
}.

(** The engine is the content of its lock. *)
Record PoAConsensus := mkPoAConsensus { validators : list Validator }.

(** ** Operations *)

Definition new : PoAConsensus := mkPoAConsensus [].

Definition register_validator (self : PoAConsensus) (addr : Address) (id : string)
  : PoAConsensus * result unit string :=
  if existsb (fun v => bool_decide (address v = addr)) (validators self)
  then (self, Ok tt)
  else
    let validator := {| address := addr; node_id := id; active := true |} in
    (mkPoAConsensus (validators self ++ [validator]), Ok tt).

Definition get_validators (self : PoAConsensus) : list Validator :=
  List.filter active (validators self).

(** The header is accepted without being looked at. *)
Definition validate_header {Header : Type} (self : PoAConsensus) (_header : Header)
  : result unit string := Ok tt.

Definition is_validator (self : PoAConsensus) (addr : Address) : bool :=
  existsb (fun v => active v && bool_decide (address v = addr))%bool (validators self).

Definition validator_count (self : PoAConsensus) : nat :=
  length (List.filter active (validators self)).

(** The sealer holds the engine behind an [Arc]; sealing neither reads it nor
    changes the header, and answers [B256::ZERO]. *)
Record PoASealer := mkPoASealer { consensus : PoAConsensus }.

Definition seal_block {Header : Type} (self : PoASealer) (_header : Header)
  : Header * result Z string := (_header, Ok 0).

(** ** Executions *)

Inductive poa_step : PoAConsensus -> PoAConsensus -> Prop :=
| step_register self addr id :
    poa_step self (register_validator self addr id).1
| step_validate_header {Header} self (h : Header) r :
    validate_header self h = r -> poa_step self self
| step_read self : poa_step self self.

(** The state after a sequence of registrations. *)
Definition register_all (ops : list (Address * string)) : PoAConsensus :=
  foldl (fun s op => (register_validator s op.1 op.2).1) new ops.

(** ** Specification

    The registry is a set of addresses; the node id remembered for an address
    is the one it was first registered with. *)

Definition validator_set (self : PoAConsensus) : gset Address :=
  list_to_set (address <$> validators self).

Fixpoint first_registrations (seen : list Address) (ops : list (Address * string))
  : list (Address * string) :=
  match ops with
  | [] => []
  | (a, n) :: ops =>
      if decide (a ∈ seen) then first_registrations seen ops
      else (a, n) :: first_registrations (a :: seen) ops
  end.

Definition poa_inv (self : PoAConsensus) : Prop :=
  NoDup (address <$> validators self) /\ Forall (fun v => active v = true) (validators self).

(** ** Lemmas *)

Lemma register_cases self addr id :
  (addr ∈ address <$> validators self /\ (register_validator self addr id).1 = self) \/
  (addr ∉ address <$> validators self /\
   (register_validator self addr id).1 =
     mkPoAConsensus (validators self ++ [mkValidator addr id true])).
Proof.
  unfold register_validator.
  change (existsb _ _) with (any_key address addr (validators self)).
  destruct (any_key _ _ _) eqn:E; simpl.
  - left. by apply any_key_true in E.
  - right. by apply any_key_false in E.
Qed.

Lemma poa_inv_new : poa_inv new.
Proof. split; constructor. Qed.

Lemma poa_inv_register self addr id :
  poa_inv self -> poa_inv (register_validator self addr id).1.
Proof.
  intros [Hnd Hact].
  destruct (register_cases self addr id) as [[_ ->]|[Hna ->]]; [by split|].
  split; simpl.
  - rewrite fmap_app. apply NoDup_app. split; [done|].
    split; [set_solver|]. apply NoDup_singleton.
  - apply Forall_app_2; [done|]. by constructor.
Qed.

Lemma poa_inv_step s s' : poa_step s s' -> poa_inv s -> poa_inv s'.
Proof. destruct 1; auto using poa_inv_register. Qed.

Lemma poa_inv_reachable s s' : rtc poa_step s s' -> poa_inv s -> poa_inv s'.
Proof. induction 1; eauto using poa_inv_step. Qed.

Lemma active_filter s : poa_inv s -> List.filter active (validators s) = validators s.
Proof. intros [_ Hact]. by apply filter_all_true. Qed.

Lemma is_validator_set s a : poa_inv s -> is_validator s a = true <-> a ∈ validator_set s.
Proof.
  intros [_ Hact]. unfold is_validator, validator_set.
  rewrite existsb_exists, elem_of_list_to_set, list_elem_of_fmap.
  setoid_rewrite andb_true_iff. setoid_rewrite bool_decide_eq_true.
  setoid_rewrite <- list_elem_of_In. rewrite Forall_forall in Hact. naive_solver.
Qed.

Lemma validator_count_set s : poa_inv s -> validator_count s = size (validator_set s).
Proof.
  intros Hinv. unfold validator_count. rewrite active_filter by done.
  unfold validator_set. rewrite size_list_to_set by apply Hinv. by rewrite length_fmap.
Qed.

Lemma validator_set_register s a n :
  validator_set (register_validator s a n).1 = {[a]} ∪ validator_set s.
Proof.
  unfold validator_set.
  destruct (register_cases s a n) as [[Hin ->]|[_ ->]].
  - set_solver.
  - simpl. rewrite fmap_app. set_solver.
Qed.

Lemma register_all_app ops1 ops2 :
  register_all (ops1 ++ ops2) =
  foldl (fun s op => (register_validator s op.1 op.2).1) (register_all ops1) ops2.
Proof. apply foldl_app. Qed.

Lemma register_all_inv ops : poa_inv (register_all ops).
Proof.
  induction ops as [|op ops IH] using rev_ind; [apply poa_inv_new|].
  rewrite register_all_app. by apply poa_inv_register.
Qed.

Lemma register_all_set ops : validator_set (register_all ops) = list_to_set ops.*1.
Proof.
  induction ops as [|op ops IH] using rev_ind; [done|].
  rewrite register_all_app. simpl. rewrite validator_set_register, IH, fmap_app. set_solver.
Qed.

Lemma first_registrations_ext l l' ops :
  (forall x : Address, x ∈ l <-> x ∈ l') ->
  first_registrations l ops = first_registrations l' ops.
Proof.
  revert l l'. induction ops as [|[b m] ops IH]; intros l l' Hl; [done|].
  simpl. destruct (decide (b ∈ l)); destruct (decide (b ∈ l')); [auto|naive_solver..|].
  f_equal. apply IH. set_solver.
Qed.

Lemma register_fold s ops :
  validators (foldl (fun s op => (register_validator s op.1 op.2).1) s ops) =
  validators s ++
  ((fun op => mkValidator op.1 op.2 true) <$>
     first_registrations (address <$> validators s) ops).
Proof.
  revert s. induction ops as [|[a n] ops IH]; intros s; simpl; [by rewrite app_nil_r|].
  rewrite IH. destruct (register_cases s a n) as [[Hin ->]|[Hin ->]].
  - by rewrite decide_True by done.
  - rewrite decide_False by done. simpl. rewrite <- app_assoc. simpl. do 3 f_equal.
    rewrite fmap_app. simpl.
    apply first_registrations_ext. set_solver.
Qed.

(** ** Properties *)

(** Whatever interleaving of calls the nodes make, no address is ever
    registered twice and every registered validator is active. *)
Theorem poa_reachable_inv s :
  rtc poa_step new s ->
  NoDup (address <$> validators s) /\ Forall (fun v => active v = true) (validators s).
Proof. intros H. exact (poa_inv_reachable _ _ H poa_inv_new). Qed.

Lemma poa_reachable_inv_witness :
  let s := (register_validator (register_validator new 1 "node1").1 1 "node2").1 in
  NoDup (address <$> validators s) /\ Forall (fun v => active v = true) (validators s).
Proof.
  apply poa_reachable_inv.
  eapply rtc_l; [apply (step_register new 1 "node1")|].
  apply rtc_once, step_register.
Defined.

(** C39: the registry refines a set of addresses: after any sequence of
    registrations [is_validator] is membership in the set of registered
    addresses, [validator_count] is its cardinality and [get_validators]
    lists it without repetition. *)
Theorem poa_refines_set ops :
  let s := register_all ops in
  let registered : gset Address := list_to_set ops.*1 in
  (forall a, is_validator s a = true <-> a ∈ registered) /\
  validator_count s = size registered /\
  list_to_set (address <$> get_validators s) = registered /\
  NoDup (address <$> get_validators s).
Proof.
  intros s registered. subst registered.
  pose proof (register_all_inv ops) as Hinv.
  rewrite <- register_all_set. fold s in Hinv |- *. split_and!.
  - intros a. by apply is_validator_set.
  - by apply validator_count_set.
  - unfold get_validators. by rewrite active_filter.
  - unfold get_validators. rewrite active_filter by done. apply Hinv.
Qed.

Lemma poa_refines_set_witness :
  let ops := [(1, "a"); (2, "b"); (1, "c")] in
  (is_validator (register_all ops) 1 = true /\ is_validator (register_all ops) 3 = false) /\
  validator_count (register_all ops) = size (list_to_set [1; 2; 1] : gset Address).
Proof. split; [by vm_compute|]. apply (poa_refines_set [(1, "a"); (2, "b"); (1, "c")]). Defined.

(** The vector kept under the lock is exactly the list of first
    registrations, in the order of the calls: a later registration of the
    same address changes neither its node id nor its position. *)
Theorem register_all_first_wins ops :
  validators (register_all ops) =
  (fun op => mkValidator op.1 op.2 true) <$> first_registrations [] ops.
Proof. unfold register_all. by rewrite register_fold. Qed.

End Consensus.
