(* ===== verification/PoaP2P.v ===== *)
(** * P2P discovery of the PoA network

    [pasifika-poa/src/p2p.rs]: the table of known peers, the handlers of peer
    connection and disconnection, and the enode URL of a node.

    As in [PoaConsensus], the table is behind a lock.  Every method takes it once, except for [initialize], which
    takes it once for each bootnode to add it as a peer; so [p2p_step] is what is done under one lock, or a whole [initialize], and
    [rtc p2p_step] includes every interleaving of calls. *)

From Stdlib Require Import Ascii.
From S2P Require Import Prelude.

Module P2P.

(** ** Data *)

Record Peer := mkPeer {
  enode : string;
  address : option Z;
  connected : bool;
  is_validator : bool;
}.

Record P2PDiscovery := mkP2PDiscovery {
  peers : list Peer;
  bootnodes : list string;
}.

Definition set_peers (self : P2PDiscovery) (ps : list Peer) : P2PDiscovery :=
  mkP2PDiscovery ps (bootnodes self).

(** ** Operations *)

Definition new (bootnodes : list string) : P2PDiscovery := mkP2PDiscovery [] bootnodes.

Definition add_peer (self : P2PDiscovery) (e : string) (a : option Z) (v : bool)
  : P2PDiscovery * result unit string :=
  if existsb (fun p => bool_decide (enode p = e)) (peers self)
  then (self, Ok tt)
  else
    let peer := {| enode := e; address := a; connected := true; is_validator := v |} in
    (set_peers self (peers self ++ [peer]), Ok tt).

(** The loop over the bootnodes; [?] leaves it at the first error. *)
Fixpoint add_bootnodes (self : P2PDiscovery) (nodes : list string)
  : P2PDiscovery * result unit string :=
  match nodes with
  | [] => (self, Ok tt)
  | bootnode :: nodes =>
      match add_peer self bootnode None true with
      | (self, Ok _) => add_bootnodes self nodes
      | (self, Err e) => (self, Err e)
      end
  end.

Definition initialize (self : P2PDiscovery) : P2PDiscovery * result unit string :=
  add_bootnodes self (bootnodes self).

Definition get_peers (self : P2PDiscovery) : list Peer :=
  List.filter connected (peers self).

Definition get_validator_peers (self : P2PDiscovery) : list Peer :=
  List.filter (fun p => connected p && is_validator p)%bool (peers self).

Definition mark_as_validator (self : P2PDiscovery) (e : string)
  : P2PDiscovery * result unit string :=
  (set_peers self
     (update_first enode e
        (fun p => if negb (is_validator p)
                  then mkPeer (enode p) (address p) (connected p) true
                  else p)
        (peers self)), Ok tt).

Definition on_peer_connected (self : P2PDiscovery) (e : string)
  : P2PDiscovery * result unit string :=
  match add_peer self e None true with
  | (self, Ok _) => (self, Ok tt)
  | (self, Err err) => (self, Err err)
  end.

Definition on_peer_disconnected (self : P2PDiscovery) (e : string)
  : P2PDiscovery * result unit string :=
  (set_peers self
     (update_first enode e
        (fun p => mkPeer (enode p) (address p) false (is_validator p)) (peers self)), Ok tt).

Definition peer_count (self : P2PDiscovery) : nat :=
  length (List.filter connected (peers self)).

Definition validator_peer_count (self : P2PDiscovery) : nat :=
  length (List.filter (fun p => connected p && is_validator p)%bool (peers self)).

(** [format!("enode://{}@{}:{}?discport={}", node_id, ip, port, disc_port)]. *)
Definition build_enode (node_id ip : string) (port : Z) (discovery_port : option Z) : string :=
  let disc_port := default port discovery_port in
  "enode://" +:+ node_id +:+ "@" +:+ ip +:+ ":" +:+ pretty port +:+
  "?discport=" +:+ pretty disc_port.

(** ** Executions *)

Inductive p2p_step : P2PDiscovery -> P2PDiscovery -> Prop :=
| step_initialize self : p2p_step self (initialize self).1
| step_add_peer self e a v : p2p_step self (add_peer self e a v).1
| step_mark_as_validator self e : p2p_step self (mark_as_validator self e).1
| step_on_peer_connected self e : p2p_step self (on_peer_connected self e).1
| step_on_peer_disconnected self e : p2p_step self (on_peer_disconnected self e).1
| step_read self : p2p_step self self.

(** ** Specification

    The table as a finite map from enode to peer. *)

Definition peer_map (self : P2PDiscovery) : gmap string Peer :=
  list_to_map ((fun p => (enode p, p)) <$> peers self).

Definition spec_add (e : string) (a : option Z) (v : bool) (m : gmap string Peer)
  : gmap string Peer :=
  match m !! e with
  | Some _ => m
  | None => <[e := mkPeer e a true v]> m
  end.

Definition spec_mark (p : Peer) : Peer := mkPeer (enode p) (address p) (connected p) true.
Definition spec_disconnect (p : Peer) : Peer :=
  mkPeer (enode p) (address p) false (is_validator p).

Definition p2p_inv (self : P2PDiscovery) : Prop := NoDup (enode <$> peers self).

(** ** Lemmas on the table *)

Lemma add_peer_cases self e a v :
  (e ∈ enode <$> peers self /\ (add_peer self e a v).1 = self) \/
  (e ∉ enode <$> peers self /\
   (add_peer self e a v).1 = set_peers self (peers self ++ [mkPeer e a true v])).
Proof.
  unfold add_peer. change (existsb _ _) with (any_key enode e (peers self)).
  destruct (any_key _ _ _) eqn:E; simpl.
  - left. by apply any_key_true in E.
  - right. by apply any_key_false in E.
Qed.

Lemma add_peer_ok self e a v : (add_peer self e a v).2 = Ok tt.
Proof. unfold add_peer. by destruct (existsb _ _). Qed.

Lemma add_bootnodes_fold self nodes :
  add_bootnodes self nodes =
  (foldl (fun s b => (add_peer s b None true).1) self nodes, Ok tt).
Proof.
  revert self. induction nodes as [|b nodes IH]; intros self; simpl; [done|].
  pose proof (add_peer_ok self b None true).
  destruct (add_peer self b None true) as [s r]; simpl in *. subst r. apply IH.
Qed.

Lemma on_peer_connected_add self e : on_peer_connected self e = add_peer self e None true.
Proof.
  unfold on_peer_connected. pose proof (add_peer_ok self e None true).
  destruct (add_peer self e None true) as [s [[]|]]; naive_solver.
Qed.

Lemma p2p_inv_add self e a v : p2p_inv self -> p2p_inv (add_peer self e a v).1.
Proof.
  unfold p2p_inv. intros Hinv.
  destruct (add_peer_cases self e a v) as [[_ ->]|[Hna ->]]; [done|].
  simpl. rewrite fmap_app. apply NoDup_app. split; [done|].
  split; [set_solver|]. apply NoDup_singleton.
Qed.

Lemma p2p_inv_bootnodes self nodes : p2p_inv self -> p2p_inv (add_bootnodes self nodes).1.
Proof.
  rewrite add_bootnodes_fold. simpl. revert self.
  induction nodes as [|b nodes IH]; intros self Hinv; simpl; [done|].
  by apply IH, p2p_inv_add.
Qed.

Lemma mark_keys self e : enode <$> peers (mark_as_validator self e).1 = enode <$> peers self.
Proof. apply update_first_keys. intros p. by destruct (is_validator p). Qed.

Lemma disconnect_keys self e :
  enode <$> peers (on_peer_disconnected self e).1 = enode <$> peers self.
Proof. by apply update_first_keys. Qed.

Lemma p2p_inv_step s s' : p2p_step s s' -> p2p_inv s -> p2p_inv s'.
Proof.
  destruct 1; intros Hinv.
  - by apply p2p_inv_bootnodes.
  - by apply p2p_inv_add.
  - unfold p2p_inv. by rewrite mark_keys.
  - rewrite on_peer_connected_add. by apply p2p_inv_add.
  - unfold p2p_inv. by rewrite disconnect_keys.
  - done.
Qed.

Lemma p2p_inv_reachable s s' : rtc p2p_step s s' -> p2p_inv s -> p2p_inv s'.
Proof. induction 1; eauto using p2p_inv_step. Qed.

Lemma peer_map_find self e : p2p_inv self -> peer_map self !! e = find_key enode e (peers self).
Proof.
  intros Hinv. unfold peer_map, p2p_inv in *.
  induction (peers self) as [|p l IH]; [done|].
  rewrite fmap_cons, NoDup_cons in Hinv. destruct Hinv as [_ Hinv].
  rewrite fmap_cons, list_to_map_cons, lookup_insert, find_key_cons, (IH Hinv).
  repeat case_decide; case_bool_decide; naive_solver.
Qed.

Lemma peer_map_add self e a v :
  p2p_inv self -> peer_map (add_peer self e a v).1 = spec_add e a v (peer_map self).
Proof.
  intros Hinv. apply map_eq. intros e'.
  pose proof (p2p_inv_add self e a v Hinv) as Hinv'.
  unfold spec_add. rewrite !peer_map_find by done.
  destruct (add_peer_cases self e a v) as [[Hin ->]|[Hna ->]].
  - destruct (find_key enode e (peers self)) eqn:Hf; [by rewrite peer_map_find|].
    by apply find_key_None in Hf.
  - simpl. rewrite find_key_app, find_key_cons. simpl.
    rewrite (proj2 (find_key_None enode e (peers self))) by done.
    destruct (decide (e = e')) as [<-|Hne].
    + rewrite (proj2 (find_key_None enode e (peers self))) by done.
      rewrite bool_decide_eq_true_2 by done. by rewrite lookup_insert_eq.
    + rewrite lookup_insert_ne, peer_map_find, bool_decide_eq_false_2 by done.
      by destruct (find_key enode e' (peers self)).
Qed.

Lemma peer_map_update self e f :
  (forall p, enode (f p) = enode p) -> p2p_inv self ->
  peer_map (set_peers self (update_first enode e f (peers self))) = alter f e (peer_map self).
Proof.
  intros Hf Hinv. apply map_eq. intros e'.
  assert (p2p_inv (set_peers self (update_first enode e f (peers self)))) as Hinv'.
  { unfold p2p_inv. simpl. by rewrite update_first_keys. }
  rewrite peer_map_find by done. simpl. rewrite update_first_find by done.
  destruct (decide (e = e')) as [<-|Hne].
  - rewrite bool_decide_eq_true_2 by done. by rewrite lookup_alter_eq, peer_map_find.
  - rewrite bool_decide_eq_false_2 by done. by rewrite lookup_alter_ne, peer_map_find.
Qed.

Lemma peer_map_bootnodes self nodes :
  p2p_inv self ->
  peer_map (add_bootnodes self nodes).1 =
  foldl (fun m b => spec_add b None true m) (peer_map self) nodes.
Proof.
  rewrite add_bootnodes_fold. simpl. revert self.
  induction nodes as [|b nodes IH]; intros self Hinv; simpl; [done|].
  rewrite IH by by apply p2p_inv_add. by rewrite peer_map_add.
Qed.

(** Every peer of the table is a connected validator, and its enode is one of
    the bootnodes or was known before. *)
Lemma bootnodes_all nodes self :
  Forall (fun p => connected p = true /\ is_validator p = true) (peers self) ->
  Forall (fun p => connected p = true /\ is_validator p = true)
    (peers (add_bootnodes self nodes).1) /\
  (forall e, e ∈ enode <$> peers (add_bootnodes self nodes).1 <->
             e ∈ enode <$> peers self \/ e ∈ nodes).
Proof.
  rewrite add_bootnodes_fold. simpl. revert self.
  induction nodes as [|b nodes IH]; intros self Hall; simpl.
  { split; [done|]. set_solver. }
  destruct (IH (add_peer self b None true).1) as [H1 H2].
  - destruct (add_peer_cases self b None true) as [[_ ->]|[_ ->]]; [done|].
    apply Forall_app_2; [done|]. by repeat constructor.
  - split; [done|]. intros e. rewrite H2.
    destruct (add_peer_cases self b None true) as [[Hb ->]|[_ ->]]; [set_solver|].
    simpl. rewrite fmap_app. set_solver.
Qed.

(** ** What a step can do to a peer that is already known *)

Lemma find_add self e a v e' p :
  find_key enode e' (peers self) = Some p ->
  find_key enode e' (peers (add_peer self e a v).1) = Some p.
Proof.
  intros Hf. destruct (add_peer_cases self e a v) as [[_ ->]|[_ ->]]; [done|].
  simpl. by rewrite find_key_app, Hf.
Qed.

Lemma find_bootnodes self nodes e p :
  find_key enode e (peers self) = Some p ->
  find_key enode e (peers (add_bootnodes self nodes).1) = Some p.
Proof.
  rewrite add_bootnodes_fold. simpl. revert self.
  induction nodes as [|b nodes IH]; intros self Hf; simpl; [done|].
  by apply IH, find_add.
Qed.

(** A known peer keeps its enode and address, can only gain the validator
    flag and can only lose the connected flag. *)
Definition peer_evolves (p p' : Peer) : Prop :=
  enode p' = enode p /\ address p' = address p /\
  (is_validator p = true -> is_validator p' = true) /\
  (connected p' = true -> connected p = true).

Lemma peer_evolves_refl p : peer_evolves p p.
Proof. by unfold peer_evolves. Qed.

Lemma peer_evolves_trans p1 p2 p3 :
  peer_evolves p1 p2 -> peer_evolves p2 p3 -> peer_evolves p1 p3.
Proof. unfold peer_evolves. naive_solver congruence. Qed.

Lemma find_update_evolves self e f e' p :
  (forall p, peer_evolves p (f p)) ->
  find_key enode e' (peers self) = Some p ->
  exists p', find_key enode e' (update_first enode e f (peers self)) = Some p' /\
             peer_evolves p p'.
Proof.
  intros Hf Hp. rewrite update_first_find by apply Hf. rewrite Hp. simpl.
  case_bool_decide; eauto using peer_evolves_refl.
Qed.

Lemma step_evolves s s' e p :
  p2p_step s s' -> find_key enode e (peers s) = Some p ->
  exists p', find_key enode e (peers s') = Some p' /\ peer_evolves p p'.
Proof.
  destruct 1; intros Hf; eauto using peer_evolves_refl, find_bootnodes, find_add.
  - apply find_update_evolves; [|done].
    intros q. unfold peer_evolves. destruct (is_validator q) eqn:E; simpl; naive_solver.
  - rewrite on_peer_connected_add. eauto using peer_evolves_refl, find_add.
  - apply find_update_evolves; [|done]. intros q. unfold peer_evolves. simpl. naive_solver.
Qed.

Lemma steps_evolve s s' e p :
  rtc p2p_step s s' -> find_key enode e (peers s) = Some p ->
  exists p', find_key enode e (peers s') = Some p' /\ peer_evolves p p'.
Proof.
  intros Hsteps. revert p. induction Hsteps as [|s1 s2 s3 Hstep _ IH]; intros p Hf.
  - eauto using peer_evolves_refl.
  - destruct (step_evolves _ _ _ _ Hstep Hf) as (p1 & Hf1 & He1).
    destruct (IH _ Hf1) as (p2 & Hf2 & He2). eauto using peer_evolves_trans.
Qed.

(** ** Lemmas on the enode URL *)

Definition no_char (c : Ascii.ascii) (s : string) : Prop := c ∉ String.list_ascii_of_string s.

Lemma no_char_cons c x s : no_char c (String x s) <-> c <> x /\ no_char c s.
Proof. unfold no_char. simpl. rewrite not_elem_of_cons. done. Qed.

(** A separator that does not occur in the first parts is found at the same place. *)
Lemma split_at_char c (s1 s2 t1 t2 : string) :
  no_char c s1 -> no_char c s2 ->
  s1 +:+ String c t1 = s2 +:+ String c t2 -> s1 = s2 /\ t1 = t2.
Proof.
  revert s2. induction s1 as [|x s1 IH]; intros [|y s2]; simpl;
    rewrite ?no_char_cons; naive_solver.
Qed.

Lemma pretty_digit_char (x : N) : (x < 10)%N -> pretty_N_char x <> "?"%char.
Proof.
  intros Hx. destruct x as [|p]; [done|].
  do 4 (destruct p as [p|p|]; try done).
Qed.

Lemma pretty_N_go_no_question (x : N) s :
  no_char "?" s -> no_char "?" (pretty_N_go x s).
Proof.
  revert s. induction (N.lt_wf_0 x) as [x _ IH]; intros s Hs.
  destruct (decide (x = 0)%N) as [->|Hx]; [by rewrite pretty_N_go_0|].
  rewrite pretty_N_go_step by lia. apply IH.
  - apply N.div_lt; lia.
  - apply no_char_cons. split; [|done].
    intros Heq. by apply (pretty_digit_char (x mod 10)); [apply N.mod_lt|].
Qed.

Lemma pretty_Z_no_question (z : Z) : 0 <= z -> no_char "?" (pretty z).
Proof.
  intros Hz. destruct z as [|p|p]; [| |lia].
  - apply no_char_cons. split; [done|apply not_elem_of_nil].
  - apply (pretty_N_go_no_question (N.pos p) ""). apply not_elem_of_nil.
Qed.

(** ** Properties *)

(** The table has every peer of the map, once and under its enode, and no other. *)
Definition represents (s : P2PDiscovery) (m : gmap string Peer) : Prop :=
  NoDup (enode <$> peers s) /\ forall e p, m !! e = Some p <-> p ∈ peers s /\ enode p = e.

Lemma represents_map s m : represents s m <-> p2p_inv s /\ m = peer_map s.
Proof.
  assert (p2p_inv s -> forall e p, peer_map s !! e = Some p <-> p ∈ peers s /\ enode p = e) as Hmap.
  { intros Hinv e p. unfold peer_map. rewrite <- elem_of_list_to_map.
    - rewrite list_elem_of_fmap. split; [intros (q & [= -> ->] & Hq); done|intros [Hp <-]; by exists p].
    - by rewrite <- list_fmap_compose. }
  split.
  - intros [Hinv Hm]. split; [done|]. apply map_eq. intros e. apply option_eq. intros p. by rewrite Hm, Hmap.
  - intros [Hinv ->]. split; [done|]. by apply Hmap.
Qed.

Lemma represents_peers s m : represents s m -> peers s ≡ₚ (map_to_list m).*2.
Proof.
  intros [Hnd Hm]. apply NoDup_Permutation.
  - by eapply NoDup_fmap_1.
  - apply (NoDup_fmap_1 enode). replace (enode <$> (map_to_list m).*2) with (map_to_list m).*1; [apply NoDup_fst_map_to_list|].
    rewrite <- list_fmap_compose. apply list_fmap_ext. intros i [e p] Hi. simpl.
    apply list_elem_of_lookup_2, elem_of_map_to_list, Hm in Hi as [_ ->]. done.
  - intros p. rewrite list_elem_of_fmap. split.
    + intros Hp. exists (enode p, p). split; [done|]. by apply elem_of_map_to_list, Hm.
    + intros ([e q] & -> & Hq). by apply elem_of_map_to_list, Hm in Hq as [? _].
Qed.

(** A query lists the peers of the map that it is about. *)
Lemma represents_query s m (f : Peer -> bool) : represents s m ->
  (forall p, p ∈ List.filter f (peers s) <-> m !! enode p = Some p /\ f p = true) /\
  length (List.filter f (peers s)) = size (filter (fun ep : string * Peer => f ep.2 = true) m).
Proof.
  intros Hr. split.
  - intros p. rewrite list_elem_of_In, filter_In, <- list_elem_of_In. destruct Hr as [_ ->]. naive_solver.
  - rewrite <- (length_map_to_list (filter _ m)), map_filter_alt, map_to_list_to_map.
    + assert (forall l : list (string * Peer), length (filter (fun ep : string * Peer => f ep.2 = true) l) = length (List.filter f l.*2)) as ->.
      { induction l as [|[e p] l IH]; [done|]. simpl. rewrite filter_cons. simpl. destruct (f p); simpl; by rewrite IH. }
      induction (represents_peers s m Hr) as [|p l l' _ IH|p q l|l1 l2 l3 _ IH1 _ IH2]; simpl; [done| | |congruence].
      * destruct (f p); simpl; by rewrite IH.
      * by destruct (f p), (f q).
    + eapply sublist_NoDup; [apply (NoDup_fst_map_to_list m)|]. apply fmap_sublist, sublist_filter.
Qed.

(** C40: the table implements a finite map from enode to peer: it has every peer of the map, once, and no other.  Adding (also through a connection event)
    inserts a connected peer when the enode is unknown and otherwise changes nothing, marking sets the validator flag, disconnecting clears the
    connected flag, and initializing adds the bootnodes; the table has each enode once afterwards too; no operation fails; and the queries list and count the
    connected peers, or the connected validators, of the map. *)
Theorem p2p_refines_map s m e a v :
  represents s m ->
  (represents (add_peer s e a v).1 (spec_add e a v m) /\
   represents (on_peer_connected s e).1 (spec_add e None true m) /\
   represents (mark_as_validator s e).1 (alter spec_mark e m) /\
   represents (on_peer_disconnected s e).1 (alter spec_disconnect e m) /\
   represents (initialize s).1 (foldl (fun m b => spec_add b None true m) m (bootnodes s))) /\
  ((add_peer s e a v).2 = Ok tt /\ (on_peer_connected s e).2 = Ok tt /\
   (mark_as_validator s e).2 = Ok tt /\ (on_peer_disconnected s e).2 = Ok tt /\ (initialize s).2 = Ok tt) /\
  (forall p, p ∈ get_peers s <-> m !! enode p = Some p /\ connected p = true) /\
  (forall p, p ∈ get_validator_peers s <-> m !! enode p = Some p /\ connected p = true /\ is_validator p = true) /\
  peer_count s = size (filter (fun ep => connected ep.2 = true) m) /\
  validator_peer_count s = size (filter (fun ep => (connected ep.2 && is_validator ep.2)%bool = true) m).
Proof.
  intros Hr. pose proof (represents_query s m connected Hr) as [Hq1 Hq2].
  pose proof (represents_query s m (fun p => connected p && is_validator p)%bool Hr) as [Hq3 Hq4].
  apply represents_map in Hr as [Hinv ->]. pose proof (fun s' Hs => p2p_inv_step s s' Hs Hinv) as Hstep.
  split; [|split; [split_and!|split_and!]].
  - setoid_rewrite represents_map. split_and!; try (apply Hstep; constructor).
    + symmetry. by apply peer_map_add.
    + rewrite on_peer_connected_add. symmetry. by apply peer_map_add.
    + unfold mark_as_validator. simpl. rewrite peer_map_update; [|intros p; by destruct (is_validator p)|done].
      apply map_eq. intros e'. rewrite !lookup_alter.
      case_decide; [|done]. subst. destruct (peer_map s !! e') as [[? ? ? []]|]; done.
    + symmetry. by apply peer_map_update.
    + symmetry. apply peer_map_bootnodes, Hinv.
  - apply add_peer_ok.
  - rewrite on_peer_connected_add. apply add_peer_ok.
  - done.
  - done.
  - unfold initialize. by rewrite add_bootnodes_fold.
  - exact Hq1.
  - intros p. unfold get_validator_peers. rewrite Hq3, andb_true_iff. done.
  - exact Hq2.
  - exact Hq4.
Qed.

Lemma p2p_refines_map_witness :
  let s := (on_peer_disconnected (initialize (new ["a"; "b"; "a"])).1 "b").1 in
  represents (on_peer_connected s "b").1 (spec_add "b" None true (peer_map s)) /\ peer_count s = 1%nat /\
  represents (new ["a"]) ∅.
Proof.
  set (s := (on_peer_disconnected (initialize (new ["a"; "b"; "a"])).1 "b").1).
  assert (represents s (peer_map s)) as Hs.
  { apply represents_map. split; [|reflexivity]. apply (bool_decide_unpack _). vm_compute. done. }
  destruct (p2p_refines_map s (peer_map s) "b" None true Hs) as [(_ & Hc & _) _].
  split; [exact Hc|]. split; [vm_compute; reflexivity|]. apply represents_map. split; [constructor|reflexivity].
Defined.

(** The life of a peer under any interleaving of calls: enodes stay
    unique, a known peer is never forgotten, its address never changes and
    its validator flag is never taken back. *)
Theorem p2p_peers_persist nodes s s' e p :
  rtc p2p_step (new nodes) s -> rtc p2p_step s s' ->
  find_key enode e (peers s) = Some p ->
  NoDup (enode <$> peers s') /\
  exists p', find_key enode e (peers s') = Some p' /\
    address p' = address p /\ (is_validator p = true -> is_validator p' = true).
Proof.
  intros Hreach Hsteps Hf. split.
  - eapply p2p_inv_reachable; [exact Hsteps|].
    eapply p2p_inv_reachable; [exact Hreach|]. constructor.
  - destruct (steps_evolve _ _ _ _ Hsteps Hf) as (p' & Hf' & ? & ? & ? & ?). eauto.
Qed.

Lemma p2p_peers_persist_witness :
  exists p', find_key enode "a" (peers (mark_as_validator (initialize (new ["a"])).1 "a").1) = Some p'
    /\ is_validator p' = true.
Proof.
  destruct (p2p_peers_persist ["a"] (initialize (new ["a"])).1
    (mark_as_validator (initialize (new ["a"])).1 "a").1 "a" (mkPeer "a" None true true))
    as [_ (p' & Hf & _ & Hv)].
  - apply rtc_once, step_initialize.
  - apply rtc_once, step_mark_as_validator.
  - reflexivity.
  - exists p'. auto.
Defined.

(** Disconnection is permanent.  Once a peer is marked disconnected no
    sequence of calls, in particular no later [on_peer_connected] for the
    same enode, makes it connected again, so it is never again returned by
    [get_peers] or [get_validator_peers]. *)
Theorem p2p_disconnected_forever s s' e p :
  p2p_inv s -> find_key enode e (peers s) = Some p -> connected p = false ->
  rtc p2p_step s s' ->
  e ∉ enode <$> get_peers s' /\ e ∉ enode <$> get_validator_peers s'.
Proof.
  intros Hinv Hf Hc Hsteps.
  pose proof (p2p_inv_reachable _ _ Hsteps Hinv) as Hinv'.
  destruct (steps_evolve _ _ _ _ Hsteps Hf) as (p' & Hf' & _ & _ & _ & Hc').
  assert (Hdis : forall q, q ∈ peers s' -> enode q = e -> connected q = false).
  { intros q Hq <-. rewrite (find_key_NoDup enode) in Hf' by done. simplify_eq.
    destruct (connected p'); naive_solver. }
  unfold get_peers, get_validator_peers.
  setoid_rewrite list_elem_of_fmap. setoid_rewrite list_elem_of_In.
  setoid_rewrite filter_In. setoid_rewrite <- list_elem_of_In.
  split; intros (q & -> & Hq & Hb); rewrite (Hdis q) in Hb; naive_solver.
Qed.

Lemma p2p_disconnected_forever_witness :
  let s := (on_peer_disconnected (initialize (new ["a"])).1 "a").1 in
  "a" ∉ enode <$> get_peers (on_peer_connected s "a").1.
Proof.
  intros s. apply (p2p_disconnected_forever s _ "a" (mkPeer "a" None false true)).
  - apply (bool_decide_unpack _). vm_compute. done.
  - reflexivity.
  - reflexivity.
  - apply rtc_once, step_on_peer_connected.
Defined.

(** After initialisation of a fresh table the connected peers, all of
    them validators, are the configured bootnodes, each once. *)
Theorem p2p_initialize_bootnodes nodes :
  let s := (initialize (new nodes)).1 in
  get_validator_peers s = get_peers s /\
  NoDup (enode <$> get_peers s) /\
  (forall e, e ∈ enode <$> get_peers s <-> e ∈ nodes) /\
  peer_count s = size (list_to_set nodes : gset string).
Proof.
  intros s.
  assert (Hs : p2p_inv s) by (apply p2p_inv_bootnodes; constructor).
  destruct (bootnodes_all nodes (new nodes)) as [Hall Hkeys]; [done|].
  change (add_bootnodes (new nodes) nodes).1 with s in Hall, Hkeys.
  assert (Hp : get_peers s = peers s).
  { apply filter_all_true. eapply Forall_impl; [exact Hall|]. naive_solver. }
  assert (Hv : get_validator_peers s = peers s).
  { apply filter_all_true. eapply Forall_impl; [exact Hall|]. simpl.
    intros p [-> ->]. done. }
  unfold peer_count. fold (get_peers s). rewrite Hv, Hp. split_and!; [done..| |].
  - intros e. rewrite Hkeys. simpl. set_solver.
  - rewrite <- (length_fmap enode), <- (size_list_to_set (C:=gset string)) by apply Hs.
    f_equal. apply set_eq. intros e. rewrite !elem_of_list_to_set, Hkeys. simpl. set_solver.
Qed.

(** Enode URLs identify nodes: when the node id has no [@] and the
    address no [:], equal URLs come from equal ids, addresses, ports and
    discovery ports. *)
Theorem build_enode_inj id1 ip1 port1 disc1 id2 ip2 port2 disc2 :
  no_char "@" id1 -> no_char "@" id2 -> no_char ":" ip1 -> no_char ":" ip2 ->
  0 <= port1 -> 0 <= port2 ->
  build_enode id1 ip1 port1 disc1 = build_enode id2 ip2 port2 disc2 ->
  id1 = id2 /\ ip1 = ip2 /\ port1 = port2 /\ default port1 disc1 = default port2 disc2.
Proof.
  intros Hid1 Hid2 Hip1 Hip2 Hp1 Hp2. unfold build_enode. simpl. intros [= Heq].
  apply (split_at_char "@") in Heq as [-> Heq]; [|done..].
  apply (split_at_char ":") in Heq as [-> Heq]; [|done..].
  apply (split_at_char "?") in Heq as [Hport Heq]; [|by apply pretty_Z_no_question..].
  apply (inj pretty) in Hport as ->. by simplify_eq/=.
Qed.

Lemma build_enode_inj_witness :
  build_enode "abc123" "192.168.1.1" 30303 (Some 30304) =
  build_enode "abc123" "192.168.1.1" 30303 (Some 30304) /\ 30303 = 30303.
Proof.
  split; [reflexivity|].
  apply (build_enode_inj "abc123" "192.168.1.1" 30303 (Some 30304)
           "abc123" "192.168.1.1" 30303 (Some 30304));
    try lia; try reflexivity; unfold no_char; apply (bool_decide_unpack _); vm_compute; done.
Defined.

End P2P.
