(* ===== verification/ChainSpec.v ===== *)
(** * Chain specification

    [crates/ethereum/hardforks/src/hardforks/mod.rs] and
    [crates/chainspec/src/spec.rs], [api.rs]: the ordered list of hard forks of a
    chain with its index, the chain specification made of a genesis file, the
    builder of specifications, and the fork identifier of EIP-6122.

    A hard fork is its name, which is all the code looks at.  The types and functions of alloy
    are the class [ChainTypes]. *)

From S2P Require Import Prelude.

Module ChainSpecs.

(** ** Data *)

Inductive EthereumHardfork :=
| Frontier | Homestead | Dao | Tangerine | SpuriousDragon | Byzantium | Constantinople | Petersburg
| Istanbul | MuirGlacier | Berlin | London | ArrowGlacier | GrayGlacier | Paris
| Shanghai | Cancun | Prague | Osaka | Bpo1 | Bpo2 | Bpo3 | Bpo4 | Bpo5.

#[global] Instance eth_hardfork_eq_dec : EqDecision EthereumHardfork.
Proof. solve_decision. Defined.

Inductive ForkCondition :=
| Block (block : Z)
| TTD (activation_block_number : Z) (fork_block : option Z) (total_difficulty : Z)
| Timestamp (timestamp : Z)
| Never.

#[global] Instance fork_condition_eq_dec : EqDecision ForkCondition.
Proof. solve_decision. Defined.

(** A header, as the trait [BlockHeader] shows it. *)
Record Header := mkHeader {
  parent_hash : Z;
  ommers_hash : Z;
  beneficiary : Z;
  state_root : Z;
  transactions_root : Z;
  receipts_root : Z;
  logs_bloom : Z;
  difficulty : Z;
  number : Z;
  gas_limit : Z;
  gas_used : Z;
  timestamp : Z;
  extra_data : list Z;
  mix_hash : Z;
  nonce : option Z;
  base_fee_per_gas : option Z;
  withdrawals_root : option Z;
  blob_gas_used : option Z;
  excess_blob_gas : option Z;
  parent_beacon_block_root : option Z;
  requests_hash : option Z;
}.

(** What the code reads of the configuration of a genesis file. *)
Record ChainConfig := mkChainConfig {
  chain_id : Z;
  homestead_block : option Z;
  dao_fork_block : option Z;
  eip150_block : option Z;
  eip155_block : option Z;
  byzantium_block : option Z;
  constantinople_block : option Z;
  petersburg_block : option Z;
  istanbul_block : option Z;
  muir_glacier_block : option Z;
  berlin_block : option Z;
  london_block : option Z;
  arrow_glacier_block : option Z;
  gray_glacier_block : option Z;
  merge_netsplit_block : option Z;
  terminal_total_difficulty : option Z;
  shanghai_time : option Z;
  cancun_time : option Z;
  prague_time : option Z;
  osaka_time : option Z;
  bpo1_time : option Z;
  bpo2_time : option Z;
  bpo3_time : option Z;
  bpo4_time : option Z;
  bpo5_time : option Z;
  deposit_contract_address : option Z;
}.

Record Genesis := mkGenesis {
  config : ChainConfig;
  g_nonce : Z;
  g_timestamp : Z;
  g_extra_data : list Z;
  g_gas_limit : Z;
  g_difficulty : Z;
  g_mix_hash : Z;
  g_coinbase : Z;
  g_alloc : list (Z * Z);
  g_base_fee_per_gas : option Z;
  g_excess_blob_gas : option Z;
  g_blob_gas_used : option Z;
}.

(** Types, values and functions of the alloy crates.  The laws are the
    documentation of [ForkCondition] and of the default header. *)
Class ChainTypes := {
  eth_name : EthereumHardfork -> string;
  mainnet : list (EthereumHardfork * ForkCondition);
  active_at_block : ForkCondition -> Z -> bool;
  active_at_timestamp : ForkCondition -> Z -> bool;
  transitions_at_block : ForkCondition -> Z -> bool;
  as_timestamp : ForkCondition -> option Z;
  BaseFeeParams : Type;
  ethereum : BaseFeeParams;
  elasticity_multiplier : BaseFeeParams -> Z;
  calc_next_block_base_fee : Z -> Z -> Z -> BaseFeeParams -> Z;
  BlobParams : Type;
  BlobParams_cancun : BlobParams;
  max_blob_gas_per_block : BlobParams -> Z;
  next_block_excess_blob_gas_osaka : BlobParams -> Z -> Z -> Z -> Z;
  BlobScheduleBlobParams : Type;
  blob_schedule_default : BlobScheduleBlobParams;
  bs_cancun : BlobScheduleBlobParams -> BlobParams;
  bs_prague : BlobScheduleBlobParams -> BlobParams;
  bs_osaka : BlobScheduleBlobParams -> BlobParams;
  active_scheduled_params_at_timestamp : BlobScheduleBlobParams -> Z -> option BlobParams;
  blob_schedule_blob_params : ChainConfig -> BlobScheduleBlobParams;
  ForkHash : Type;
  fork_hash_from : Z -> ForkHash;
  fork_hash_add : ForkHash -> Z -> ForkHash;
  hash_slow : Header -> Z;
  state_root_ref_unhashed : list (Z * Z) -> Z;
  header_default : Header;
  INITIAL_BASE_FEE : Z;
  EMPTY_WITHDRAWALS : Z;
  EMPTY_REQUESTS_HASH : Z;
  EMPTY_OMMER_ROOT_HASH : Z;
  MAINNET_DEPOSIT_CONTRACT_ADDRESS : Z;
  eth_name_inj : Inj (=) (=) eth_name;
  mainnet_nodup : NoDup mainnet.*1;
  active_at_block_eq : forall c n, active_at_block c n =
    match c with Block b => b <=? n | TTD a _ _ => a <=? n | _ => false end;
  active_at_timestamp_eq : forall c t, active_at_timestamp c t =
    match c with Timestamp s => s <=? t | _ => false end;
  transitions_at_block_eq : forall c n, transitions_at_block c n =
    match c with Block b => b =? n | _ => false end;
  as_timestamp_eq : forall c, as_timestamp c = match c with Timestamp s => Some s | _ => None end;
  header_default_number : number header_default = 0;
  header_default_gas_used : gas_used header_default = 0;
  header_default_ommers : ommers_hash header_default = EMPTY_OMMER_ROOT_HASH;
}.
#[global] Existing Instance eth_name_inj.

(** ** Hard forks of a chain *)

Section spec.
Context `{ChainTypes}.

(** The list in the order of activation, and the conditions by name. *)
Record ChainHardforks := mkChainHardforks {
  forks : list (string * ForkCondition);
  fork_map : gmap string ForkCondition;
}.

(** [iter().map(..).collect()] into a map: a later entry replaces an earlier one. *)
Definition collect_map (l : list (string * ForkCondition)) : gmap string ForkCondition :=
  foldl (fun m x => <[x.1 := x.2]> m) ∅ l.

Definition hardforks_default : ChainHardforks := mkChainHardforks [] ∅.
Definition hardforks_new (l : list (string * ForkCondition)) : ChainHardforks :=
  mkChainHardforks l (collect_map l).
Definition hardforks_from (l : list (EthereumHardfork * ForkCondition)) : ChainHardforks :=
  hardforks_new (prod_map eth_name (fun c => c) <$> l).
Definition hardforks_len (self : ChainHardforks) : nat := length (forks self).
Definition hardforks_is_empty (self : ChainHardforks) : bool :=
  match forks self with [] => true | _ => false end.
Definition hardforks_get (self : ChainHardforks) (name : string) : option ForkCondition := fork_map self !! name.
Definition fork (self : ChainHardforks) (name : string) : ForkCondition :=
  default Never (hardforks_get self name).
Definition fork_block (self : ChainHardforks) (name : string) : option Z :=
  match fork self name with
  | Block b => Some b
  | TTD _ fork_block _ => fork_block
  | Timestamp ts => Some ts
  | Never => None
  end.
Definition forks_iter (self : ChainHardforks) : list (string * ForkCondition) := forks self.
Definition hardforks_last (self : ChainHardforks) : option (string * ForkCondition) := last (forks self).
Definition is_fork_active_at_timestamp (self : ChainHardforks) (name : string) (timestamp : Z) : bool :=
  active_at_timestamp (fork self name) timestamp.
Definition is_fork_active_at_block (self : ChainHardforks) (name : string) (block_number : Z) : bool :=
  active_at_block (fork self name) block_number.

Definition hardforks_insert (self : ChainHardforks) (name : string) (condition : ForkCondition) : ChainHardforks :=
  match fork_map self !! name with
  | Some _ =>
      mkChainHardforks (update_first fst name (fun x => (x.1, condition)) (forks self))
        (<[name := condition]> (fork_map self))
  | None => mkChainHardforks (forks self ++ [(name, condition)]) (<[name := condition]> (fork_map self))
  end.
Definition hardforks_remove (self : ChainHardforks) (name : string) : ChainHardforks :=
  mkChainHardforks (filter (fun x => x.1 <> name) (forks self)) (delete name (fork_map self)).

(** [DEV_HARDFORKS]. *)
Definition DEV_HARDFORKS : ChainHardforks :=
  hardforks_from
    [(Frontier, Block 0); (Homestead, Block 0); (Dao, Block 0); (Tangerine, Block 0);
     (SpuriousDragon, Block 0); (Byzantium, Block 0); (Constantinople, Block 0); (Petersburg, Block 0);
     (Istanbul, Block 0); (Berlin, Block 0); (London, Block 0); (Paris, TTD 0 None 0);
     (Shanghai, Timestamp 0); (Cancun, Timestamp 0); (Prague, Timestamp 0)].

(** ** Genesis header *)

Definition then_some {A} (b : bool) (x : A) : option A := if b then Some x else None.

Definition make_genesis_header (genesis : Genesis) (hardforks : ChainHardforks) : Header :=
  let base_fee :=
    then_some (active_at_block (fork hardforks (eth_name London)) 0)
      (default INITIAL_BASE_FEE (wrap_u64 <$> g_base_fee_per_gas genesis)) in
  let withdrawals :=
    then_some (active_at_timestamp (fork hardforks (eth_name Shanghai)) (g_timestamp genesis)) EMPTY_WITHDRAWALS in
  let '(beacon_root, blob_gas, excess) :=
    if active_at_timestamp (fork hardforks (eth_name Cancun)) (g_timestamp genesis) then
      (Some 0, Some (default 0 (g_blob_gas_used genesis)), Some (default 0 (g_excess_blob_gas genesis)))
    else (None, None, None) in
  let requests :=
    then_some (active_at_timestamp (fork hardforks (eth_name Prague)) (g_timestamp genesis)) EMPTY_REQUESTS_HASH in
  {| gas_limit := g_gas_limit genesis;
     difficulty := g_difficulty genesis;
     nonce := Some (g_nonce genesis);
     extra_data := g_extra_data genesis;
     state_root := state_root_ref_unhashed (g_alloc genesis);
     timestamp := g_timestamp genesis;
     mix_hash := g_mix_hash genesis;
     beneficiary := g_coinbase genesis;
     base_fee_per_gas := base_fee;
     withdrawals_root := withdrawals;
     parent_beacon_block_root := beacon_root;
     blob_gas_used := blob_gas;
     excess_blob_gas := excess;
     requests_hash := requests;
     parent_hash := parent_hash header_default;
     ommers_hash := ommers_hash header_default;
     transactions_root := transactions_root header_default;
     receipts_root := receipts_root header_default;
     logs_bloom := logs_bloom header_default;
     number := number header_default;
     gas_used := gas_used header_default |}.

(** ** Chain specifications *)

(** A header with its hash, computed when it is first asked for. *)
Record SealedHeader := mkSealedHeader { hash : Z; header : Header }.
Definition new_unhashed (h : Header) : SealedHeader := mkSealedHeader (hash_slow h) h.

Inductive BaseFeeParamsKind :=
| Constant (params : BaseFeeParams)
| Variable_ (params : list (string * BaseFeeParams)).

Record DepositContract := mkDepositContract { dc_address : Z; dc_block : Z; dc_topic : Z }.

Definition MAINNET_PRUNE_DELETE_LIMIT : Z := 20000.
Definition MAINNET_DEPOSIT_CONTRACT : DepositContract :=
  mkDepositContract MAINNET_DEPOSIT_CONTRACT_ADDRESS 11052984
    0x649bbc62d0e31342afea4e5cd82d4049e7e1ee912fc0889aa790803be39038c5.

Record ChainSpec := mkChainSpec {
  chain : Z;
  genesis : Genesis;
  genesis_header : SealedHeader;
  paris_block_and_final_difficulty : option (Z * Z);
  hardforks : ChainHardforks;
  deposit_contract : option DepositContract;
  base_fee_params : BaseFeeParamsKind;
  prune_delete_limit : Z;
  blob_params : BlobScheduleBlobParams;
}.

Definition paris_block (self : ChainSpec) : option Z := fst <$> paris_block_and_final_difficulty self.
Definition get_final_paris_total_difficulty (self : ChainSpec) : option Z :=
  snd <$> paris_block_and_final_difficulty self.
Definition genesis_hash (self : ChainSpec) : Z := hash (genesis_header self).
Definition genesis_timestamp (self : ChainSpec) : Z := g_timestamp (genesis self).
Definition sealed_genesis_header (self : ChainSpec) : SealedHeader :=
  mkSealedHeader (genesis_hash self) (header (genesis_header self)).

Definition initial_base_fee (self : ChainSpec) : option Z :=
  then_some (active_at_block (fork (hardforks self) (eth_name London)) 0)
    (default INITIAL_BASE_FEE (wrap_u64 <$> g_base_fee_per_gas (genesis self))).

(** The loop over the parameters in reverse, stopping at the first active fork. *)
Fixpoint first_active (hf : ChainHardforks) (timestamp : Z) (l : list (string * BaseFeeParams)) : option BaseFeeParams :=
  match l with
  | [] => None
  | (name, params) :: l => if is_fork_active_at_timestamp hf name timestamp then Some params else first_active hf timestamp l
  end.
Definition base_fee_params_at_timestamp (self : ChainSpec) (timestamp : Z) : BaseFeeParams :=
  match base_fee_params self with
  | Constant params => params
  | Variable_ params =>
      match first_active (hardforks self) timestamp (reverse params) with
      | Some p => p
      | None => default ethereum (snd <$> head params)
      end
  end.

Definition is_active_at_timestamp (self : ChainSpec) (f : EthereumHardfork) (timestamp : Z) : bool :=
  active_at_timestamp (fork (hardforks self) (eth_name f)) timestamp.
Definition is_active_at_block (self : ChainSpec) (f : EthereumHardfork) (block : Z) : bool :=
  active_at_block (fork (hardforks self) (eth_name f)) block.

Definition blob_params_at_timestamp (self : ChainSpec) (timestamp : Z) : option BlobParams :=
  match active_scheduled_params_at_timestamp (blob_params self) timestamp with
  | Some p => Some p
  | None =>
      if is_active_at_timestamp self Osaka timestamp then Some (bs_osaka (blob_params self))
      else if is_active_at_timestamp self Prague timestamp then Some (bs_prague (blob_params self))
      else if is_active_at_timestamp self Cancun timestamp then Some (bs_cancun (blob_params self))
      else None
  end.

(** [EthChainSpec::next_block_base_fee]. *)
Definition next_block_base_fee (self : ChainSpec) (parent : Header) (target_timestamp : Z) : option Z :=
  base_fee ← base_fee_per_gas parent;
  Some (calc_next_block_base_fee (gas_used parent) (gas_limit parent) base_fee
          (base_fee_params_at_timestamp self target_timestamp)).

(** ** Fork identifiers *)

Record Head := mkHead { head_number : Z; head_timestamp : Z; head_total_difficulty : Z }.
Record ForkId := mkForkId { fid_hash : ForkHash; fid_next : Z }.

(** The first loop of [fork_id]: [inl] is an early return. *)
Fixpoint apply_blocks (number : Z) (l : list (string * ForkCondition)) (forkhash : ForkHash) (current_applied : Z) :
    ForkId + (ForkHash * Z) :=
  match l with
  | [] => inr (forkhash, current_applied)
  | (_, Block block) :: l | (_, TTD _ (Some block) _) :: l =>
      if block <=? number then
        if block =? current_applied then apply_blocks number l forkhash current_applied
        else apply_blocks number l (fork_hash_add forkhash block) block
      else inl (mkForkId forkhash block)
  | _ :: l => apply_blocks number l forkhash current_applied
  end.

(** The second loop. *)
Fixpoint apply_times (now : Z) (l : list Z) (forkhash : ForkHash) (current_applied : Z) : ForkId :=
  match l with
  | [] => mkForkId forkhash 0
  | ts :: l =>
      if ts <=? now then
        if ts =? current_applied then apply_times now l forkhash current_applied
        else apply_times now l (fork_hash_add forkhash ts) ts
      else mkForkId forkhash ts
  end.

Definition time_forks (self : ChainSpec) : list Z :=
  omap (fun x => t ← as_timestamp x.2; if g_timestamp (genesis self) <? t then Some t else None)
    (forks_iter (hardforks self)).

Definition fork_id (self : ChainSpec) (head : Head) : ForkId :=
  match apply_blocks (head_number head) (forks_iter (hardforks self)) (fork_hash_from (genesis_hash self)) 0 with
  | inl id => id
  | inr (forkhash, current_applied) => apply_times (head_timestamp head) (time_forks self) forkhash current_applied
  end.

(** [last_block_fork_before_merge_or_timestamp]: the loop over the forks, peeking at the next one. *)
Fixpoint last_block_fork (l : list (string * ForkCondition)) : option Z :=
  match l with
  | (_, curr) :: (((_, next) :: _) as l') =>
      match next with
      | TTD _ (Some block) _ => Some block
      | TTD _ None _ | Timestamp _ =>
          match curr with Block block_num => Some block_num | _ => last_block_fork l' end
      | _ => last_block_fork l'
      end
  | _ => None
  end.
Definition last_block_fork_before_merge_or_timestamp (self : ChainSpec) : option Z :=
  last_block_fork (forks_iter (hardforks self)).

(** [None] is [unreachable!]. *)
Definition satisfy (self : ChainSpec) (cond : ForkCondition) : option Head :=
  match cond with
  | Block number => Some (mkHead number 0 0)
  | Timestamp timestamp => Some (mkHead (default 0 (last_block_fork_before_merge_or_timestamp self)) timestamp 0)
  | TTD _ fork_block total_difficulty => Some (mkHead (default 0 fork_block) 0 total_difficulty)
  | Never => None
  end.

(** The outer option is a panic, the inner one the result. *)
Definition hardfork_fork_id (self : ChainSpec) (name : string) : option (option ForkId) :=
  match fork (hardforks self) name with
  | Never => Some None
  | condition => head ← satisfy self condition; Some (Some (fork_id self head))
  end.
Definition shanghai_fork_id (self : ChainSpec) := hardfork_fork_id self (eth_name Shanghai).
Definition cancun_fork_id (self : ChainSpec) := hardfork_fork_id self (eth_name Cancun).
Definition latest_fork_id (self : ChainSpec) : option ForkId :=
  l ← hardforks_last (hardforks self); r ← hardfork_fork_id self l.1; r.

(** The keys that [fork_filter] and [hardfork_fork_filter] give to [ForkFilter::new]. *)
Inductive ForkFilterKey := KeyBlock (block : Z) | KeyTime (time : Z).
Definition fork_filter_keys (self : ChainSpec) : list ForkFilterKey :=
  omap (fun x => match x.2 with
                 | Block block | TTD _ (Some block) _ => Some (KeyBlock block)
                 | Timestamp time => Some (KeyTime time)
                 | _ => None
                 end) (forks_iter (hardforks self)).
Definition fork_filter (self : ChainSpec) (head : Head) : Head * Z * Z * list ForkFilterKey :=
  (head, genesis_hash self, genesis_timestamp self, fork_filter_keys self).
Definition hardfork_fork_filter (self : ChainSpec) (name : string) : option (option (Head * Z * Z * list ForkFilterKey)) :=
  match fork (hardforks self) name with
  | Never => Some None
  | condition => head ← satisfy self condition; Some (Some (fork_filter self head))
  end.

(** ** Specifications from a genesis file *)

Definition block_forks_of (c : ChainConfig) : list (string * ForkCondition) :=
  omap (fun x => b ← x.2; Some (eth_name x.1, Block b))
    [(Frontier, Some 0); (Homestead, homestead_block c); (Dao, dao_fork_block c); (Tangerine, eip150_block c);
     (SpuriousDragon, eip155_block c); (Byzantium, byzantium_block c); (Constantinople, constantinople_block c);
     (Petersburg, petersburg_block c); (Istanbul, istanbul_block c); (MuirGlacier, muir_glacier_block c);
     (Berlin, berlin_block c); (London, london_block c); (ArrowGlacier, arrow_glacier_block c);
     (GrayGlacier, gray_glacier_block c)].

Definition paris_fork_of (c : ChainConfig) : list (string * ForkCondition) :=
  match terminal_total_difficulty c with
  | Some ttd =>
      [(eth_name Paris, TTD (default 0 (merge_netsplit_block c)) (merge_netsplit_block c) ttd)]
  | None => []
  end.

Definition time_forks_of (c : ChainConfig) : list (string * ForkCondition) :=
  omap (fun x => t ← x.2; Some (eth_name x.1, Timestamp t))
    [(Shanghai, shanghai_time c); (Cancun, cancun_time c); (Prague, prague_time c); (Osaka, osaka_time c);
     (Bpo1, bpo1_time c); (Bpo2, bpo2_time c); (Bpo3, bpo3_time c); (Bpo4, bpo4_time c); (Bpo5, bpo5_time c)].

(** [hardforks.iter().position(..)] followed by [hardforks.remove(pos)]. *)
Fixpoint take_fork (name : string) (l : list (string * ForkCondition)) :
    option ((string * ForkCondition) * list (string * ForkCondition)) :=
  match l with
  | [] => None
  | x :: l =>
      if bool_decide (x.1 = name) then Some (x, l)
      else '(y, l') ← take_fork name l; Some (y, x :: l')
  end.

(** The loop over the mainnet forks, and the forks it does not know at the end. *)
Fixpoint order_forks (order : list string) (hardforks ordered : list (string * ForkCondition)) :
    list (string * ForkCondition) :=
  match order with
  | [] => ordered ++ hardforks
  | name :: order =>
      match take_fork name hardforks with
      | Some (x, hardforks) => order_forks order hardforks (ordered ++ [x])
      | None => order_forks order hardforks ordered
      end
  end.

Definition from_genesis (g : Genesis) : ChainSpec :=
  let c := config g in
  let configured := block_forks_of c ++ paris_fork_of c ++ time_forks_of c in
  let ordered := order_forks (fst <$> forks_iter (hardforks_from mainnet)) configured [] in
  let hf := hardforks_new ordered in
  {| chain := chain_id c;
     genesis_header := new_unhashed (make_genesis_header g hf);
     genesis := g;
     hardforks := hf;
     paris_block_and_final_difficulty :=
       match terminal_total_difficulty c with
       | Some ttd => (fun block => (block, ttd)) <$> merge_netsplit_block c
       | None => None
       end;
     deposit_contract :=
       (fun a => mkDepositContract a 0 (dc_topic MAINNET_DEPOSIT_CONTRACT)) <$> deposit_contract_address c;
     base_fee_params := Constant ethereum;
     prune_delete_limit := MAINNET_PRUNE_DELETE_LIMIT;
     blob_params := blob_schedule_blob_params c |}.

(** ** Builder *)

Record ChainSpecBuilder := mkBuilder {
  b_chain : option Z;
  b_genesis : option Genesis;
  b_hardforks : ChainHardforks;
}.

Definition builder_default : ChainSpecBuilder := mkBuilder None None hardforks_default.
Definition builder_from (spec : ChainSpec) : ChainSpecBuilder :=
  mkBuilder (Some (chain spec)) (Some (genesis spec)) (hardforks spec).
Definition builder_chain (self : ChainSpecBuilder) (c : Z) : ChainSpecBuilder :=
  mkBuilder (Some c) (b_genesis self) (b_hardforks self).
Definition builder_reset (self : ChainSpecBuilder) : ChainSpecBuilder :=
  mkBuilder (b_chain self) (b_genesis self) hardforks_default.
Definition builder_genesis (self : ChainSpecBuilder) (g : Genesis) : ChainSpecBuilder :=
  mkBuilder (b_chain self) (Some g) (b_hardforks self).
Definition with_fork (self : ChainSpecBuilder) (name : string) (condition : ForkCondition) : ChainSpecBuilder :=
  mkBuilder (b_chain self) (b_genesis self) (hardforks_insert (b_hardforks self) name condition).
Definition with_forks (self : ChainSpecBuilder) (hf : ChainHardforks) : ChainSpecBuilder :=
  mkBuilder (b_chain self) (b_genesis self) hf.
Definition without_fork (self : ChainSpecBuilder) (name : string) : ChainSpecBuilder :=
  mkBuilder (b_chain self) (b_genesis self) (hardforks_remove (b_hardforks self) name).
Definition paris_at_ttd (self : ChainSpecBuilder) (ttd activation_block_number : Z) : ChainSpecBuilder :=
  with_fork self (eth_name Paris) (TTD activation_block_number None ttd).
Definition frontier_activated (self : ChainSpecBuilder) : ChainSpecBuilder :=
  with_fork self (eth_name Frontier) (Block 0).
Definition homestead_activated (self : ChainSpecBuilder) : ChainSpecBuilder :=
  with_fork (frontier_activated self) (eth_name Homestead) (Block 0).
Definition tangerine_whistle_activated (self : ChainSpecBuilder) : ChainSpecBuilder :=
  with_fork (homestead_activated self) (eth_name Tangerine) (Block 0).
Definition spurious_dragon_activated (self : ChainSpecBuilder) : ChainSpecBuilder :=
  with_fork (tangerine_whistle_activated self) (eth_name SpuriousDragon) (Block 0).
Definition byzantium_activated (self : ChainSpecBuilder) : ChainSpecBuilder :=
  with_fork (spurious_dragon_activated self) (eth_name Byzantium) (Block 0).
Definition constantinople_activated (self : ChainSpecBuilder) : ChainSpecBuilder :=
  with_fork (byzantium_activated self) (eth_name Constantinople) (Block 0).
Definition petersburg_activated (self : ChainSpecBuilder) : ChainSpecBuilder :=
  with_fork (constantinople_activated self) (eth_name Petersburg) (Block 0).
Definition istanbul_activated (self : ChainSpecBuilder) : ChainSpecBuilder :=
  with_fork (petersburg_activated self) (eth_name Istanbul) (Block 0).
Definition berlin_activated (self : ChainSpecBuilder) : ChainSpecBuilder :=
  with_fork (istanbul_activated self) (eth_name Berlin) (Block 0).
Definition london_activated (self : ChainSpecBuilder) : ChainSpecBuilder :=
  with_fork (berlin_activated self) (eth_name London) (Block 0).
Definition paris_activated (self : ChainSpecBuilder) : ChainSpecBuilder :=
  with_fork (london_activated self) (eth_name Paris) (TTD 0 None 0).
Definition shanghai_activated (self : ChainSpecBuilder) : ChainSpecBuilder :=
  with_fork (paris_activated self) (eth_name Shanghai) (Timestamp 0).
Definition cancun_activated (self : ChainSpecBuilder) : ChainSpecBuilder :=
  with_fork (shanghai_activated self) (eth_name Cancun) (Timestamp 0).
Definition prague_activated (self : ChainSpecBuilder) : ChainSpecBuilder :=
  with_fork (cancun_activated self) (eth_name Prague) (Timestamp 0).
Definition with_prague_at (self : ChainSpecBuilder) (timestamp : Z) : ChainSpecBuilder :=
  with_fork self (eth_name Prague) (Timestamp timestamp).
Definition osaka_activated (self : ChainSpecBuilder) : ChainSpecBuilder :=
  with_fork (prague_activated self) (eth_name Osaka) (Timestamp 0).
Definition with_osaka_at (self : ChainSpecBuilder) (timestamp : Z) : ChainSpecBuilder :=
  with_fork self (eth_name Osaka) (Timestamp timestamp).

(** [None] is a panic: the genesis and the chain are required. *)
Definition build (self : ChainSpecBuilder) : option ChainSpec :=
  let paris :=
    match hardforks_get (b_hardforks self) (eth_name Paris) with
    | Some (TTD activation_block_number _ total_difficulty) => Some (activation_block_number, total_difficulty)
    | _ => None
    end in
  g ← b_genesis self;
  c ← b_chain self;
  Some {| chain := c;
          genesis_header := new_unhashed (make_genesis_header g (b_hardforks self));
          genesis := g;
          hardforks := b_hardforks self;
          paris_block_and_final_difficulty := paris;
          deposit_contract := None;
          base_fee_params := Constant ethereum;
          prune_delete_limit := MAINNET_PRUNE_DELETE_LIMIT;
          blob_params := blob_schedule_default |}.

End spec.
End ChainSpecs.
