(* ===== verification/ChainSpecProps.v ===== *)
(** * Properties of chain specifications

    The list of hard forks and its index agree; a specification made of a genesis
    file has exactly the forks the file configures, in the order of mainnet; the
    fork identifier is the one of EIP-6122. *)

From S2P Require Import Prelude ChainSpec.
Import ChainSpecs.

Module ChainSpecProps.

Section props.
Context `{ChainTypes}.
Implicit Types (l : list (string * ForkCondition)) (self : ChainHardforks) (n : string).

(** ** The list and the index *)

Definition hardforks_ok self : Prop :=
  NoDup (forks self).*1 /\ forall n c, (n, c) ∈ forks self <-> hardforks_get self n = Some c.

(** The states of a [ChainHardforks] used as documented. *)
Inductive hardforks_reachable : ChainHardforks -> Prop :=
| reach_default : hardforks_reachable hardforks_default
| reach_new l : NoDup l.*1 -> hardforks_reachable (hardforks_new l)
| reach_insert self n c : hardforks_reachable self -> hardforks_reachable (hardforks_insert self n c)
| reach_remove self n : hardforks_reachable self -> hardforks_reachable (hardforks_remove self n).

Lemma collect_map_snoc l x : collect_map (l ++ [x]) = <[x.1 := x.2]> (collect_map l).
Proof. unfold collect_map. by rewrite foldl_app. Qed.

Lemma elem_of_pair_fst l n c : (n, c) ∈ l -> n ∈ l.*1.
Proof. intros Hin. by apply (list_elem_of_fmap_2 fst) in Hin. Qed.

Lemma new_ok l : NoDup l.*1 -> hardforks_ok (hardforks_new l).
Proof.
  intros Hd. split; [done|]. unfold hardforks_get. simpl. revert Hd.
  induction l as [|[m d] l IH] using rev_ind; intros Hd n c.
  { unfold collect_map. simpl. rewrite lookup_empty. split; [by intros ?%not_elem_of_nil|done]. }
  rewrite fmap_app in Hd. apply NoDup_app in Hd as (Hd & Hm & _). specialize (Hm m).
  rewrite collect_map_snoc, elem_of_app, list_elem_of_singleton, lookup_insert_Some, <- IH by done. simpl.
  split.
  - intros [Hin|[= <- <-]]; [right|by left]. split; [|done]. intros ->.
    apply elem_of_pair_fst in Hin. set_solver.
  - naive_solver.
Qed.

Lemma update_first_fst n c l :
  (update_first fst n (fun x => (x.1, c)) l).*1 = l.*1.
Proof. induction l as [|x l IH]; [done|]. cbn [update_first]. case_bool_decide; csimpl; [done|by rewrite IH]. Qed.

Lemma get_insert hf n c m : hardforks_get (hardforks_insert hf n c) m = if decide (m = n) then Some c else hardforks_get hf m.
Proof.
  unfold hardforks_insert, hardforks_get. destruct (fork_map hf !! n); simpl; case_decide; subst;
    by rewrite ?lookup_insert_eq, ?lookup_insert_ne.
Qed.

Lemma elem_of_update_first n c l m d :
  NoDup l.*1 -> n ∈ l.*1 ->
  (m, d) ∈ update_first fst n (fun x => (x.1, c)) l <-> (m = n /\ d = c) \/ (m <> n /\ (m, d) ∈ l).
Proof.
  induction l as [|[k e] l IH]; [set_solver|]. csimpl. intros [Hk Hd]%NoDup_cons Hn.
  case_bool_decide as Hkn; simpl in *.
  - subst k. rewrite !elem_of_cons. split.
    + intros [[= -> ->]|Hin]; [by left|]. right. split; [|by right]. intros ->. by apply elem_of_pair_fst, Hk in Hin.
    + intros [[-> ->]|[Hne [[= -> ->]|Hin]]]; [by left|done|by right].
  - rewrite !elem_of_cons, IH by (done || set_solver). naive_solver.
Qed.

(** A fork that is in the index is in the list. *)
Lemma ok_names self n : hardforks_ok self -> is_Some (hardforks_get self n) <-> n ∈ (forks self).*1.
Proof.
  intros [_ Hm]. split.
  - intros [c Hc]. by apply Hm, elem_of_pair_fst in Hc.
  - intros ([m c] & -> & Hin)%list_elem_of_fmap. exists c. by apply Hm.
Qed.

Lemma insert_ok self n c : hardforks_ok self -> hardforks_ok (hardforks_insert self n c).
Proof.
  intros Hok. pose proof (ok_names self n Hok) as Hn. destruct Hok as [Hd Hm].
  unfold hardforks_insert, hardforks_get in *. destruct (fork_map self !! n) as [d|] eqn:E.
  - split; simpl; [by rewrite update_first_fst|]. intros m e.
    rewrite elem_of_update_first by (done || by apply Hn). unfold hardforks_get. simpl.
    rewrite lookup_insert_Some, Hm. naive_solver.
  - assert (n ∉ (forks self).*1) as Hn' by (intros Hin; apply Hn in Hin as [? ?]; congruence).
    split; simpl.
    + rewrite fmap_app. simpl. apply NoDup_app. split_and!; [done|set_solver|apply NoDup_singleton].
    + intros m e. unfold hardforks_get. simpl. rewrite elem_of_app, list_elem_of_singleton, lookup_insert_Some, Hm.
      split; [|naive_solver]. intros [Hin|[= -> ->]]; [|by left]. right. split; [|done]. intros ->. congruence.
Qed.

Lemma sublist_names l1 l2 : l1 `sublist_of` l2 -> l1.*1 `sublist_of` l2.*1.
Proof. induction 1; csimpl; by constructor. Qed.

Lemma remove_ok self n : hardforks_ok self -> hardforks_ok (hardforks_remove self n).
Proof.
  intros [Hd Hm]. split; simpl.
  - eapply sublist_NoDup; [exact Hd|]. apply sublist_names, sublist_filter.
  - intros m e. rewrite list_elem_of_filter. unfold hardforks_get. simpl.
    rewrite lookup_delete_Some, Hm. naive_solver.
Qed.

Lemma reachable_ok self : hardforks_reachable self -> hardforks_ok self.
Proof.
  induction 1; [|by apply new_ok|by apply insert_ok|by apply remove_ok].
  split; [constructor|]. intros n c. unfold hardforks_get. simpl. rewrite lookup_empty.
  split; [by intros ?%not_elem_of_nil|done].
Qed.

(** ** Specifications from a genesis file *)

Lemma take_fork_spec n l :
  match take_fork n l with
  | Some (x, l') => exists l1 l2, l = l1 ++ x :: l2 /\ l' = l1 ++ l2 /\ x.1 = n
  | None => n ∉ l.*1
  end.
Proof.
  induction l as [|y l IH]; [apply not_elem_of_nil|]. cbn [take_fork]. case_bool_decide as Hy.
  { by exists [], l. }
  destruct (take_fork n l) as [[x l']|]; simpl.
  - destruct IH as (l1 & l2 & -> & -> & ?). by exists (y :: l1), l2.
  - csimpl. apply not_elem_of_cons. done.
Qed.

(** The result is a permutation; what mainnet knows is in its order, the rest follows. *)
Lemma order_forks_spec order l : forall acc,
  NoDup order -> NoDup l.*1 ->
  exists known unknown, order_forks order l acc = acc ++ known ++ unknown /\
    known ++ unknown ≡ₚ l /\ known.*1 `sublist_of` order /\ unknown `sublist_of` l /\
    (forall x, x ∈ unknown -> x.1 ∉ order).
Proof.
  revert l. induction order as [|n order IH]; intros l acc Ho Hl; cbn [order_forks].
  { exists [], l. split_and!; [done|done|constructor|done|]. intros x _. apply not_elem_of_nil. }
  apply NoDup_cons in Ho as [Hn Ho]. pose proof (take_fork_spec n l) as Ht.
  destruct (take_fork n l) as [[x l']|].
  - destruct Ht as (l1 & l2 & -> & -> & Hx). rewrite fmap_app, fmap_cons in Hl.
    assert (NoDup (l1 ++ l2).*1 /\ x.1 ∉ (l1 ++ l2).*1) as [Hl' Hx'].
    { rewrite <- Permutation_middle in Hl. apply NoDup_cons in Hl as [? ?]. rewrite fmap_app. done. }
    destruct (IH (l1 ++ l2) (acc ++ [x]) Ho Hl') as (k & u & -> & Hp & Hk & Hu & Hun).
    exists (x :: k), u. split_and!.
    + by rewrite <- app_assoc.
    + simpl. by rewrite Hp, Permutation_middle.
    + csimpl. rewrite Hx. by constructor.
    + etrans; [exact Hu|]. apply sublist_app; [done|]. by constructor.
    + intros y Hy. apply not_elem_of_cons. split; [|by apply Hun]. intros Hyn. apply Hx'. rewrite Hx, <- Hyn.
      apply list_elem_of_fmap_2, (sublist_subseteq _ _ Hu), Hy.
  - destruct (IH l acc Ho Hl) as (k & u & -> & Hp & Hk & Hu & Hun).
    exists k, u. split_and!; [done|done|by constructor|done|]. intros y Hy.
    apply not_elem_of_cons. split; [|by apply Hun]. intros <-. apply Ht.
    apply list_elem_of_fmap_2, (sublist_subseteq _ _ Hu), Hy.
Qed.

(** What a genesis file says of a fork. *)
Definition genesis_condition (c : ChainConfig) (f : EthereumHardfork) : option ForkCondition :=
  match f with
  | Frontier => Some (Block 0)
  | Homestead => Block <$> homestead_block c
  | Dao => Block <$> dao_fork_block c
  | Tangerine => Block <$> eip150_block c
  | SpuriousDragon => Block <$> eip155_block c
  | Byzantium => Block <$> byzantium_block c
  | Constantinople => Block <$> constantinople_block c
  | Petersburg => Block <$> petersburg_block c
  | Istanbul => Block <$> istanbul_block c
  | MuirGlacier => Block <$> muir_glacier_block c
  | Berlin => Block <$> berlin_block c
  | London => Block <$> london_block c
  | ArrowGlacier => Block <$> arrow_glacier_block c
  | GrayGlacier => Block <$> gray_glacier_block c
  | Paris =>
      (fun ttd => TTD (default 0 (merge_netsplit_block c)) (merge_netsplit_block c) ttd) <$> terminal_total_difficulty c
  | Shanghai => Timestamp <$> shanghai_time c
  | Cancun => Timestamp <$> cancun_time c
  | Prague => Timestamp <$> prague_time c
  | Osaka => Timestamp <$> osaka_time c
  | Bpo1 => Timestamp <$> bpo1_time c
  | Bpo2 => Timestamp <$> bpo2_time c
  | Bpo3 => Timestamp <$> bpo3_time c
  | Bpo4 => Timestamp <$> bpo4_time c
  | Bpo5 => Timestamp <$> bpo5_time c
  end.

Definition all_forks : list EthereumHardfork :=
  [Frontier; Homestead; Dao; Tangerine; SpuriousDragon; Byzantium; Constantinople; Petersburg; Istanbul;
   MuirGlacier; Berlin; London; ArrowGlacier; GrayGlacier; Paris; Shanghai; Cancun; Prague; Osaka;
   Bpo1; Bpo2; Bpo3; Bpo4; Bpo5].

Definition configured (c : ChainConfig) : list (string * ForkCondition) :=
  block_forks_of c ++ paris_fork_of c ++ time_forks_of c.

Lemma bind_fmap_pair {A B C} (x : C) (F : A -> B) (o : option A) :
  (cond ← F <$> o; Some (x, cond)) = (a ← o; Some (x, F a)).
Proof. by destruct o. Qed.

Lemma configured_eq c :
  configured c = omap (fun f => cond ← genesis_condition c f; Some (eth_name f, cond)) all_forks.
Proof.
  change all_forks with (take 14 all_forks ++ [Paris] ++ drop 15 all_forks).
  rewrite !omap_app. unfold configured. f_equal; [|f_equal].
  - unfold block_forks_of. cbn [take all_forks omap list_omap genesis_condition fst snd].
    by rewrite !bind_fmap_pair.
  - unfold paris_fork_of. simpl. by destruct (terminal_total_difficulty c).
  - unfold time_forks_of. cbn [drop all_forks omap list_omap genesis_condition fst snd].
    by rewrite !bind_fmap_pair.
Qed.

Lemma all_forks_nodup : NoDup all_forks.
Proof. apply (bool_decide_eq_true_1 (NoDup all_forks)). reflexivity. Qed.

Lemma elem_of_all_forks f : f ∈ all_forks.
Proof. apply (bool_decide_eq_true_1 (f ∈ all_forks)). by destruct f. Qed.

Lemma elem_of_configured c n d :
  (n, d) ∈ configured c <-> exists f, n = eth_name f /\ genesis_condition c f = Some d.
Proof.
  rewrite configured_eq, list_elem_of_omap. split.
  - intros (f & _ & (d' & Hd & [= <- <-])%bind_Some). eauto.
  - intros (f & -> & Hf). exists f. split; [apply elem_of_all_forks|]. by rewrite Hf.
Qed.

Lemma omap_names_nodup (g : EthereumHardfork -> option ForkCondition) fs :
  NoDup fs -> NoDup (omap (fun f => cond ← g f; Some (eth_name f, cond)) fs).*1.
Proof.
  induction 1 as [|f fs Hf _ IH]; [constructor|]. simpl. destruct (g f) as [d|]; simpl; [|done].
  csimpl. constructor; [|done]. rewrite list_elem_of_fmap. intros ([n e] & Hn & Hin). simpl in Hn. subst n.
  apply list_elem_of_omap in Hin as (f' & Hin & (e' & _ & [= He _])%bind_Some). apply (inj eth_name) in He. by subst.
Qed.

Lemma configured_nodup c : NoDup (configured c).*1.
Proof. rewrite configured_eq. apply omap_names_nodup, all_forks_nodup. Qed.

Definition mainnet_names : list string := eth_name <$> mainnet.*1.

Lemma mainnet_order_eq : fst <$> forks_iter (hardforks_from mainnet) = mainnet_names.
Proof. unfold mainnet_names. simpl. rewrite <- !list_fmap_compose. by apply list_fmap_ext. Qed.

Lemma from_genesis_forks_eq g :
  exists known unknown, forks (hardforks (from_genesis g)) = known ++ unknown /\
    known ++ unknown ≡ₚ configured (config g) /\ known.*1 `sublist_of` mainnet_names /\
    unknown `sublist_of` configured (config g) /\ (forall x, x ∈ unknown -> x.1 ∉ mainnet_names).
Proof.
  destruct (order_forks_spec mainnet_names (configured (config g)) []) as (k & u & He & Hrest).
  - apply NoDup_fmap_2; [apply _|apply mainnet_nodup].
  - apply configured_nodup.
  - exists k, u. split; [|done]. unfold from_genesis. simpl. by rewrite <- mainnet_order_eq in He.
Qed.

Lemma from_genesis_hardforks_ok g : hardforks_ok (hardforks (from_genesis g)).
Proof.
  apply new_ok. change (NoDup (forks (hardforks (from_genesis g))).*1).
  destruct (from_genesis_forks_eq g) as (k & u & -> & Hp & _). rewrite Hp. apply configured_nodup.
Qed.

Lemma from_genesis_get g f :
  hardforks_get (hardforks (from_genesis g)) (eth_name f) = genesis_condition (config g) f.
Proof.
  destruct (from_genesis_hardforks_ok g) as [_ Hm]. destruct (from_genesis_forks_eq g) as (k & u & He & Hp & _).
  destruct (genesis_condition (config g) f) as [d|] eqn:E.
  - apply Hm. rewrite He, Hp. apply elem_of_configured. eauto.
  - destruct (hardforks_get _ _) as [d|] eqn:E'; [|done]. apply Hm in E'. rewrite He, Hp in E'.
    apply elem_of_configured in E' as (f' & Hf & E'). apply (inj eth_name) in Hf. subst. congruence.
Qed.

(** The difficulty and the block of the merge in a genesis file are not ignored. *)
Lemma ttd_not_ignored g ttd : terminal_total_difficulty (config g) = Some ttd ->
  hardforks_get (hardforks (from_genesis g)) (eth_name Paris) =
    Some (TTD (default 0 (merge_netsplit_block (config g))) (merge_netsplit_block (config g)) ttd) /\
  paris_block_and_final_difficulty (from_genesis g) = (fun block => (block, ttd)) <$> merge_netsplit_block (config g).
Proof. intros Ht. rewrite from_genesis_get. simpl. by rewrite Ht. Qed.

Lemma from_genesis_elem g n d :
  (n, d) ∈ forks (hardforks (from_genesis g)) <-> exists f, n = eth_name f /\ genesis_condition (config g) f = Some d.
Proof. destruct (from_genesis_forks_eq g) as (k & u & -> & -> & _). apply elem_of_configured. Qed.

(** C35: a specification made of a genesis file lists exactly the forks that the file
    configures, each once and under its condition; those that mainnet
    has come first, in the order of mainnet, and then the others.  This includes the merge: with a terminal total
    difficulty in the file, Paris is configured with it, active from the merge netsplit block of the file or
    from block zero if it has none, although the comment in the code says that both fields are ignored. *)
Theorem from_genesis_forks g :
  (forall n d, (n, d) ∈ forks (hardforks (from_genesis g)) <-> exists f, n = eth_name f /\ genesis_condition (config g) f = Some d) /\
  NoDup (forks (hardforks (from_genesis g))).*1 /\
  (forall f, hardforks_get (hardforks (from_genesis g)) (eth_name f) = genesis_condition (config g) f) /\
  (forall ttd, terminal_total_difficulty (config g) = Some ttd ->
     hardforks_get (hardforks (from_genesis g)) (eth_name Paris) =
       Some (TTD (default 0 (merge_netsplit_block (config g))) (merge_netsplit_block (config g)) ttd) /\
     paris_block_and_final_difficulty (from_genesis g) = (fun block => (block, ttd)) <$> merge_netsplit_block (config g)) /\
  exists known unknown, (forks (hardforks (from_genesis g))).*1 = known ++ unknown /\
    known `sublist_of` mainnet_names /\ (forall n, n ∈ unknown -> n ∉ mainnet_names).
Proof.
  destruct (from_genesis_hardforks_ok g) as [Hd _]. destruct (from_genesis_forks_eq g) as (k & u & He & Hp & Hk & _ & Hu).
  split_and!; [apply from_genesis_elem|done|apply from_genesis_get|apply ttd_not_ignored|].
  exists k.*1, u.*1. split_and!; [by rewrite He, fmap_app|done|].
  intros n ([m d] & -> & Hin)%list_elem_of_fmap. by apply (Hu (m, d)).
Qed.

(** The list of forks and its index.  However it was made and changed, the list
    names each fork once and agrees with the index; inserting a known fork keeps
    the order and a new one goes to the end, removing one keeps the others. *)
Theorem hardforks_refine_map self :
  hardforks_reachable self ->
  NoDup (forks self).*1 /\ (forall n c, (n, c) ∈ forks self <-> hardforks_get self n = Some c) /\
  forall n,
    (forall c, (forks (hardforks_insert self n c)).*1 =
                 (if decide (n ∈ (forks self).*1) then (forks self).*1 else (forks self).*1 ++ [n]) /\
               forall m, hardforks_get (hardforks_insert self n c) m = if decide (m = n) then Some c else hardforks_get self m) /\
    (forks (hardforks_remove self n)).*1 = filter (fun m => m <> n) (forks self).*1 /\
    (forall m, fork (hardforks_remove self n) m = if decide (m = n) then Never else fork self m).
Proof.
  intros Hok%reachable_ok. destruct Hok as [Hd Hm] eqn:E. clear E. split_and!; [done|done|]. intros n. split_and!.
  - intros c. split; [|apply get_insert]. pose proof (ok_names self n Hok) as Hn.
    unfold hardforks_insert, hardforks_get in *. destruct (fork_map self !! n) eqn:E; simpl.
    + rewrite update_first_fst. rewrite decide_True; [done|]. by apply Hn.
    + rewrite decide_False; [by rewrite fmap_app|]. intros [? ?]%Hn. congruence.
  - simpl. clear. induction (forks self) as [|x l IH]; [done|].
    rewrite filter_cons. csimpl. rewrite filter_cons. case_decide; csimpl; by rewrite IH.
  - intros m. unfold fork, hardforks_get. simpl. case_decide; [subst; by rewrite lookup_delete_eq|by rewrite lookup_delete_ne].
Qed.

End props.

(** ** Fork identifiers *)

Section fork_id.
Context `{ChainTypes}.

(** The numbers of the forks at a known block. *)
Definition block_numbers (l : list (string * ForkCondition)) : list Z :=
  omap (fun x => match x.2 with Block b | TTD _ (Some b) _ => Some b | _ => None end) l.

(** What either loop applies, given the number it applied last, and the first
    number it has not reached. *)
Fixpoint run_forks (now : Z) (ns : list Z) (applied : Z) : list Z * option Z :=
  match ns with
  | [] => ([], None)
  | n :: ns =>
      if n <=? now then
        if n =? applied then run_forks now ns applied
        else let '(a, next) := run_forks now ns n in (n :: a, next)
      else ([], Some n)
  end.

Lemma apply_blocks_run number l : forall h cur,
  apply_blocks number l h cur =
  match run_forks number (block_numbers l) cur with
  | (a, Some n) => inl (mkForkId (foldl fork_hash_add h a) n)
  | (a, None) => inr (foldl fork_hash_add h a, List.last a cur)
  end.
Proof.
  induction l as [|[m c] l IH]; intros h cur; [done|].
  assert (forall b, (if b <=? number then
      if b =? cur then apply_blocks number l h cur else apply_blocks number l (fork_hash_add h b) b
      else inl (mkForkId h b)) =
    match run_forks number (b :: block_numbers l) cur with
    | (a, Some n) => inl (mkForkId (foldl fork_hash_add h a) n)
    | (a, None) => inr (foldl fork_hash_add h a, List.last a cur)
    end) as Hstep.
  { intros b. cbn [run_forks]. destruct (b <=? number); [|done]. destruct (b =? cur); rewrite IH; [done|].
    destruct (run_forks number (block_numbers l) b) as [a [n|]]; [done|]. cbn [foldl].
    by rewrite last_cons_default. }
  destruct c as [b|? [b|] ?|?|]; [exact (Hstep b)|exact (Hstep b)|apply IH..].
Qed.

Lemma apply_times_run now ns : forall h cur,
  apply_times now ns h cur =
  let '(a, next) := run_forks now ns cur in mkForkId (foldl fork_hash_add h a) (default 0 next).
Proof.
  induction ns as [|n ns IH]; intros h cur; [done|]. cbn [apply_times run_forks].
  destruct (n <=? now); [|done]. destruct (n =? cur); rewrite IH; [done|].
  by destruct (run_forks now ns n) as [a next].
Qed.

Lemma run_forks_spec now ns : forall cur,
  StronglySorted Z.le (cur :: ns) ->
  let '(a, next) := run_forks now ns cur in
  StronglySorted Z.lt (cur :: a) /\ (forall n, n ∈ a <-> n ∈ ns /\ n <= now /\ n <> cur) /\
  match next with
  | None => forall n, n ∈ ns -> n <= now
  | Some m => m ∈ ns /\ now < m /\ forall n, n ∈ ns -> now < n -> m <= n
  end.
Proof.
  induction ns as [|m ns IH]; intros cur Hs.
  { split_and!; [repeat constructor|set_solver..]. }
  apply StronglySorted_inv in Hs as [Hs Hcur]. apply Forall_cons in Hcur as [Hcm Hcur].
  pose proof Hs as [Hs' Hm]%StronglySorted_inv. rewrite Forall_forall in Hcur, Hm.
  cbn [run_forks]. destruct (m <=? now) eqn:E; bools.
  - destruct (m =? cur) eqn:E'; bools.
    + subst m. specialize (IH cur Hs). destruct (run_forks now ns cur) as [a next]. destruct IH as (I1 & I2 & I3).
      split_and!; [done| |]. { intros n. rewrite I2, elem_of_cons. naive_solver. }
      destruct next as [k|]; [|set_solver]. destruct I3 as (? & ? & I3). split_and!; [set_solver|done|].
      intros n [->|Hn]%elem_of_cons ?; [lia|by apply I3].
    + specialize (IH m Hs). destruct (run_forks now ns m) as [a next]. destruct IH as (I1 & I2 & I3).
      split_and!.
      * constructor; [done|]. constructor; [lia|]. apply Forall_forall. intros n (Hn & _ & _)%I2.
        specialize (Hm n Hn). lia.
      * intros n. rewrite !elem_of_cons, I2. split.
        2: { intros ([->|Hn] & ? & ?); [by left|]. destruct (decide (n = m)); [by left|by right]. }
        intros [->|(Hn & ? & ?)]; [split_and!; [by left|done|done]|]. specialize (Hm n Hn). split_and!; [by right|done|lia].
      * destruct next as [k|]; [|set_solver]. destruct I3 as (? & ? & I3). split_and!; [set_solver|done|].
        intros n [->|Hn]%elem_of_cons ?; [lia|by apply I3].
  - split; [repeat constructor|split].
    + intros n. split; [by intros ?%not_elem_of_nil|]. intros ([->|Hn]%elem_of_cons & ? & _); [lia|].
      specialize (Hm n Hn). lia.
    + split_and!; [set_solver|done|]. intros n [->|Hn]%elem_of_cons ?; [lia|by apply Hm].
Qed.

Lemma last_in (a : list Z) cur : (a = [] /\ List.last a cur = cur) \/ List.last a cur ∈ a.
Proof.
  destruct a as [|x a]; [by left|right]. revert x. induction a as [|y a IH]; intros x; [set_solver|].
  apply elem_of_cons. right. exact (IH y).
Qed.

Lemma sorted_chain (a b : list Z) : forall cur,
  StronglySorted Z.lt (cur :: a) -> StronglySorted Z.lt (List.last a cur :: b) -> StronglySorted Z.lt (cur :: a ++ b).
Proof.
  induction a as [|x a IH]; intros cur Ha Hb; [done|].
  apply StronglySorted_inv in Ha as [Ha Hc]. apply Forall_cons in Hc as [Hx _].
  assert (StronglySorted Z.lt (x :: a ++ b)) as Hs.
  { apply IH; [done|]. by rewrite last_cons_default in Hb. }
  cbn [app]. constructor; [done|]. apply StronglySorted_inv in Hs as [_ Hs]. constructor; [done|].
  eapply Forall_impl; [exact Hs|]. simpl. lia.
Qed.

Implicit Types (spec : ChainSpec) (head : Head) (n : Z).

(** The numbers of EIP-6122: a fork at a block (the merge, if its block is known) has the number of the block, a fork at a
    time has that time, unless it was active at genesis already. *)
Definition number_at_block spec n : Prop :=
  exists name cond, (name, cond) ∈ forks (hardforks spec) /\ (cond = Block n \/ exists activation ttd, cond = TTD activation (Some n) ttd).
Definition number_at_time spec n : Prop :=
  exists name, (name, Timestamp n) ∈ forks (hardforks spec) /\ g_timestamp (genesis spec) < n.

(** A fork that the head has reached, and one that it has not. *)
Definition passed spec head n : Prop :=
  (number_at_block spec n /\ n <= head_number head) \/ (number_at_time spec n /\ n <= head_timestamp head).
Definition upcoming spec head n : Prop :=
  (number_at_block spec n /\ head_number head < n) \/ (number_at_time spec n /\ head_timestamp head < n).

(** The same numbers in the order of the list of forks. *)
Definition blocks_of spec : list Z := block_numbers (forks (hardforks spec)).
Definition times_of spec : list Z :=
  omap (fun x => match x.2 with
                 | Timestamp t => if decide (g_timestamp (genesis spec) < t) then Some t else None
                 | _ => None
                 end) (forks (hardforks spec)).

(** The forks are listed in the order of activation, and those at a block come before
    those at a time. *)
Definition forks_sorted spec : Prop := StronglySorted Z.le (0 :: blocks_of spec ++ times_of spec).

Lemma elem_of_blocks spec n : n ∈ blocks_of spec <-> number_at_block spec n.
Proof.
  unfold blocks_of, block_numbers, number_at_block. rewrite list_elem_of_omap. split.
  - intros ([name cond] & Hin & Hc). exists name, cond. split; [done|]. destruct cond as [|? [] ?| |]; naive_solver.
  - intros (name & cond & Hin & Hc). exists (name, cond). split; [done|]. naive_solver.
Qed.

Lemma elem_of_times spec n : n ∈ times_of spec <-> number_at_time spec n.
Proof.
  unfold times_of, number_at_time. rewrite list_elem_of_omap. split.
  - intros ([name cond] & Hin & Hc). destruct cond as [|? [] ?| |]; simpl in Hc; try done. case_decide; simplify_eq. eauto.
  - intros (name & Hin & Hc). exists (name, Timestamp n). split; [done|]. simpl. by rewrite decide_True.
Qed.

Lemma time_forks_eq spec : time_forks spec = times_of spec.
Proof.
  unfold time_forks, times_of, forks_iter. apply list_omap_ext, Forall_Forall2_diag, Forall_forall. intros [name cond] _. simpl.
  rewrite as_timestamp_eq. destruct cond; simpl; try done. case_decide; destruct (_ <? _) eqn:E; bools; done || lia.
Qed.

(** C34: the identifier of EIP-6122.  For a list of forks in the order of activation,
    the hash of [fork_id] is that of the genesis block with each number of a fork
    the head has reached added once, in increasing order, and [next] is the least number not reached yet,
    or zero if there is none.  The number of a fork is its block or its time; forks at block zero and forks at a time that is not
    after the genesis block do not count. *)
Theorem fork_id_eip6122 spec head :
  forks_sorted spec -> 0 <= g_timestamp (genesis spec) ->
  (forall n, number_at_block spec n -> head_number head < n -> forall t, number_at_time spec t -> head_timestamp head < t) ->
  exists ns, fid_hash (fork_id spec head) = foldl fork_hash_add (fork_hash_from (genesis_hash spec)) ns /\
    StronglySorted Z.lt ns /\ (forall n, n ∈ ns <-> n <> 0 /\ passed spec head n) /\
    ((fid_next (fork_id spec head) = 0 /\ forall n, ~ upcoming spec head n) \/
     (upcoming spec head (fid_next (fork_id spec head)) /\
      forall n, upcoming spec head n -> fid_next (fork_id spec head) <= n)).
Proof.
  intros Hs Hg Hhead. unfold fork_id. rewrite apply_blocks_run. unfold forks_iter. fold (blocks_of spec).
  rewrite time_forks_eq. unfold passed, upcoming. setoid_rewrite <- elem_of_blocks in Hhead. setoid_rewrite <- elem_of_times in Hhead.
  setoid_rewrite <- elem_of_blocks. setoid_rewrite <- elem_of_times. unfold forks_sorted in Hs. rewrite app_comm_cons in Hs.
  apply StronglySorted_app in Hs as (Hbt & Hb & Ht).
  assert (forall t, t ∈ times_of spec -> t <> 0) as Ht0 by (intros t (? & _ & ?)%elem_of_times; lia).
  pose proof (run_forks_spec (head_number head) _ 0 Hb) as Hr.
  destruct (run_forks (head_number head) (blocks_of spec) 0) as [a [m|]]; destruct Hr as (Ha & Hin & Hnext); simpl.
  - destruct Hnext as (Hm & Hlt & Hle). exists a. apply StronglySorted_inv in Ha as [Ha _].
    specialize (Hhead m Hm Hlt). split_and!; [done|done| |right].
    + intros n. rewrite Hin. split; [naive_solver|]. intros (? & [?|[Hn ?]]); [naive_solver|].
      specialize (Hhead n Hn). lia.
    + split; [by left|]. intros n [[Hn ?]|[Hn _]]; [by apply Hle|]. by apply Hbt; [right|].
  - rewrite apply_times_run. set (cur := List.last a 0).
    assert (cur = 0 \/ cur ∈ a) as Hcur by (unfold cur; destruct (last_in a 0) as [[_ ?]|?]; auto).
    assert (StronglySorted Z.le (cur :: times_of spec)) as Hct.
    { constructor; [done|]. apply Forall_forall. intros t Htin. apply Hbt; [|done].
      destruct Hcur as [-> |Hc]; [by left|right]. by apply Hin in Hc as [? _]. }
    pose proof (run_forks_spec (head_timestamp head) _ cur Hct) as Hr.
    destruct (run_forks _ _ cur) as [b next]. destruct Hr as (Hsb & Hinb & Hnb). simpl.
    exists (a ++ b). split_and!; [by rewrite foldl_app| | |].
    + by apply (sorted_chain a b 0) in Ha as [? _]%StronglySorted_inv.
    + intros n. rewrite elem_of_app, Hin, Hinb. split; [naive_solver|]. intros (Hn0 & [?|[Hn ?]]); [naive_solver|].
      destruct (decide (n = cur)) as [->|]; [|naive_solver]. destruct Hcur as [?|Hc%Hin]; [done|naive_solver].
    + destruct next as [k|]; simpl; [right|left].
      * destruct Hnb as (? & ? & Hk). split; [naive_solver|]. intros n [[Hn ?]|[Hn ?]]; [|by apply Hk].
        specialize (Hnext n Hn). lia.
      * split; [done|]. intros n [[Hn ?]|[Hn ?]]; [specialize (Hnext n Hn)|specialize (Hnb n Hn)]; lia.
Qed.

(** The latest identifier panics exactly if there are no forks or the last one is never active. *)
Lemma latest_fork_id_returns spec :
  latest_fork_id spec = None <->
  forks (hardforks spec) = [] \/ exists x, last (forks (hardforks spec)) = Some x /\ fork (hardforks spec) x.1 = Never.
Proof.
  unfold latest_fork_id, hardforks_last, hardfork_fork_id.
  destruct (last (forks (hardforks spec))) as [x|] eqn:E; simpl; [|apply last_None in E; naive_solver].
  assert (forks (hardforks spec) <> []) by (intros Hn; by rewrite Hn in E).
  destruct (fork (hardforks spec) x.1) eqn:Ef; simpl; split; try done; try naive_solver.
  all: intros [?|(y & [= <-] & Hy)]; [done|by rewrite Ef in Hy].
Qed.

(** The parameters of the base fee are those of the last listed fork that is active. *)
Lemma base_fee_params_last_active spec ps timestamp : base_fee_params spec = Variable_ ps ->
  (exists l1 (n : string) p l2, ps = l1 ++ (n, p) :: l2 /\ base_fee_params_at_timestamp spec timestamp = p /\
     is_fork_active_at_timestamp (hardforks spec) n timestamp = true /\
     Forall (fun x => is_fork_active_at_timestamp (hardforks spec) x.1 timestamp = false) l2) \/
  (Forall (fun x => is_fork_active_at_timestamp (hardforks spec) x.1 timestamp = false) ps /\
   base_fee_params_at_timestamp spec timestamp = default ethereum (snd <$> head ps)).
Proof.
  intros Hk. unfold base_fee_params_at_timestamp. rewrite Hk. clear Hk. generalize (default ethereum (snd <$> head ps)) as d.
  induction ps as [|[n p] ps IH] using rev_ind; intros d; [by right|].
  rewrite reverse_app. simpl. destruct (is_fork_active_at_timestamp (hardforks spec) n timestamp) eqn:E.
  - left. by exists ps, n, p, [].
  - destruct (IH d) as [(l1 & m & q & l2 & -> & Hq & Hm & Hl2)|[Hf Hd]].
    + left. exists l1, m, q, (l2 ++ [(n, p)]). split_and!; [by rewrite <- app_assoc|done|done|].
      apply Forall_app. split; [done|]. by constructor.
    + right. split; [|done]. apply Forall_app. split; [done|]. by constructor.
Qed.

(** ** Builder *)

(** Every fork up to Osaka is active at genesis, whatever the builder held before. *)
Lemma osaka_activated_all self f :
  f ∉ [MuirGlacier; ArrowGlacier; GrayGlacier; Dao; Bpo1; Bpo2; Bpo3; Bpo4; Bpo5] ->
  let hf := b_hardforks (osaka_activated self) in
  if decide (f ∈ [Shanghai; Cancun; Prague; Osaka]) then is_fork_active_at_timestamp hf (eth_name f) 0 = true
  else is_fork_active_at_block hf (eth_name f) 0 = true.
Proof.
  intros Hf hf. unfold hf. clear hf. unfold is_fork_active_at_timestamp, is_fork_active_at_block, fork.
  rewrite active_at_timestamp_eq, active_at_block_eq.
  unfold osaka_activated, prague_activated, cancun_activated, shanghai_activated, paris_activated, london_activated,
    berlin_activated, istanbul_activated, petersburg_activated, constantinople_activated, byzantium_activated,
    spurious_dragon_activated, tangerine_whistle_activated, homestead_activated, frontier_activated.
  cbn [with_fork b_hardforks]. rewrite !get_insert.
  destruct f; try (exfalso; apply Hf; set_solver);
    repeat (rewrite (decide_False (P := eth_name _ = eth_name _)) by (intros ?%(inj eth_name); done));
    rewrite (decide_True (P := eth_name _ = eth_name _)) by done; reflexivity.
Qed.

End fork_id.

(** ** Examples *)

Section examples.

Definition example_name (f : EthereumHardfork) : string :=
  match f with
  | Frontier => "Frontier" | Homestead => "Homestead" | Dao => "Dao" | Tangerine => "Tangerine"
  | SpuriousDragon => "SpuriousDragon" | Byzantium => "Byzantium" | Constantinople => "Constantinople"
  | Petersburg => "Petersburg" | Istanbul => "Istanbul" | MuirGlacier => "MuirGlacier" | Berlin => "Berlin"
  | London => "London" | ArrowGlacier => "ArrowGlacier" | GrayGlacier => "GrayGlacier" | Paris => "Paris"
  | Shanghai => "Shanghai" | Cancun => "Cancun" | Prague => "Prague" | Osaka => "Osaka"
  | Bpo1 => "Bpo1" | Bpo2 => "Bpo2" | Bpo3 => "Bpo3" | Bpo4 => "Bpo4" | Bpo5 => "Bpo5"
  end.

Lemma example_name_inj : Inj (=) (=) example_name.
Proof. intros [] []; simpl; congruence. Qed.

Definition example_header : Header :=
  mkHeader 0 29 0 56 56 56 0 0 0 0 0 0 [] 0 (Some 0) None None None None None None.

Definition example_mainnet : list (EthereumHardfork * ForkCondition) := (fun f => (f, Never)) <$> take 19 all_forks.
Lemma example_mainnet_nodup : NoDup example_mainnet.*1.
Proof. apply (bool_decide_eq_true_1 (NoDup example_mainnet.*1)). vm_compute. reflexivity. Qed.

(** The base fee of EIP-1559. *)
Definition example_base_fee (used limit base : Z) (params : Z * Z) : Z :=
  let target := limit / params.2 in
  if used =? target then base
  else if target <? used then base + Z.max 1 (base * (used - target) / target / params.1)
  else Z.max 0 (base - base * (target - used) / target / params.1).

(** A simple version of alloy: a fork hash is the list of what was added, and the
    hash of a header is computed from a few fields. *)
Definition example_chain_types : ChainTypes :=
  {| eth_name := example_name;
     mainnet := example_mainnet;
     active_at_block c n := match c with Block b => b <=? n | TTD a _ _ => a <=? n | _ => false end;
     active_at_timestamp c t := match c with Timestamp s => s <=? t | _ => false end;
     transitions_at_block c n := match c with Block b => b =? n | _ => false end;
     as_timestamp c := match c with Timestamp s => Some s | _ => None end;
     BaseFeeParams := Z * Z;
     ethereum := (8, 2);
     elasticity_multiplier := snd;
     calc_next_block_base_fee := example_base_fee;
     BlobParams := Z * Z;
     BlobParams_cancun := (393216, 786432);
     max_blob_gas_per_block := snd;
     next_block_excess_blob_gas_osaka p excess used _ := Z.max 0 (excess + used - p.1);
     BlobScheduleBlobParams := unit;
     blob_schedule_default := tt;
     bs_cancun _ := (393216, 786432);
     bs_prague _ := (786432, 1179648);
     bs_osaka _ := (786432, 1179648);
     active_scheduled_params_at_timestamp _ _ := None;
     blob_schedule_blob_params _ := tt;
     ForkHash := list Z;
     fork_hash_from g := [g];
     fork_hash_add h n := h ++ [n];
     hash_slow h := number h + 1000 * timestamp h + 7;
     state_root_ref_unhashed l := Z.of_nat (length l);
     header_default := example_header;
     INITIAL_BASE_FEE := 1000000000;
     EMPTY_WITHDRAWALS := 56;
     EMPTY_REQUESTS_HASH := 57;
     EMPTY_OMMER_ROOT_HASH := 29;
     MAINNET_DEPOSIT_CONTRACT_ADDRESS := 0x00000000219ab540356cBB839Cbe05303d7705Fa;
     eth_name_inj := example_name_inj;
     mainnet_nodup := example_mainnet_nodup;
     active_at_block_eq _ _ := eq_refl;
     active_at_timestamp_eq _ _ := eq_refl;
     transitions_at_block_eq _ _ := eq_refl;
     as_timestamp_eq _ := eq_refl;
     header_default_number := eq_refl;
     header_default_gas_used := eq_refl;
     header_default_ommers := eq_refl |}.

#[local] Existing Instance example_chain_types.

(** Two block forks after genesis and two at a time; Cancun is in the future. *)
Definition example_genesis : Genesis :=
  mkGenesis (mkChainConfig 1 (Some 5) None (Some 5) (Some 8) (Some 8) None None None None (Some 8) (Some 10) None None
               None (Some 0) (Some 100) (Some 200) None None None None None None None None)
    0 0 [] 30000000 0 0 0 [] None None None.
Definition example_spec : ChainSpec := from_genesis example_genesis.

Lemma fork_id_eip6122_witness :
  @eq (list Z) (fid_hash (fork_id example_spec (mkHead 12 150 0))) [7; 5; 8; 10; 100] /\
  fid_next (fork_id example_spec (mkHead 12 150 0)) = 200 /\
  exists ns, [7; 5; 8; 10; 100] = foldl fork_hash_add [7] ns /\ StronglySorted Z.lt ns.
Proof.
  split; [vm_compute; reflexivity|]. split; [vm_compute; reflexivity|].
  destruct (fork_id_eip6122 example_spec (mkHead 12 150 0)) as (ns & Hh & Hs & _).
  - unfold forks_sorted. let l := eval vm_compute in (0 :: blocks_of example_spec ++ times_of example_spec) in
      change (StronglySorted Z.le l). repeat constructor; lia.
  - vm_compute. discriminate.
  - intros n Hn Hlt. exfalso. apply elem_of_blocks in Hn. assert (n ∈ [0; 5; 5; 8; 8; 8; 10]) as Hn' by exact Hn. simpl in Hlt.
    repeat (apply elem_of_cons in Hn' as [->|Hn']; [lia|]). by apply not_elem_of_nil in Hn'.
  - exists ns. split; [|exact Hs]. exact Hh.
Defined.

(** A file with the merge at block 12 lists it after London and before Shanghai. *)
Definition example_merge_genesis : Genesis :=
  mkGenesis (mkChainConfig 1 (Some 5) None (Some 5) (Some 8) (Some 8) None None None None (Some 8) (Some 10) None None
               (Some 12) (Some 7) (Some 100) (Some 200) None None None None None None None None)
    0 0 [] 30000000 0 0 0 [] None None None.
Lemma from_genesis_forks_witness :
  hardforks_get (hardforks (from_genesis example_merge_genesis)) (eth_name Paris) = Some (TTD 12 (Some 12) 7) /\
  paris_block_and_final_difficulty (from_genesis example_merge_genesis) = Some (12, 7) /\
  (eth_name Cancun, Timestamp 200) ∈ forks (hardforks (from_genesis example_merge_genesis)) /\
  hardforks_get (hardforks (from_genesis example_merge_genesis)) (eth_name Prague) = None.
Proof.
  destruct (from_genesis_forks example_merge_genesis) as (Hin & _ & Hget & Hparis & _).
  destruct (Hparis 7 eq_refl) as [Hp Hb]. split; [exact Hp|]. split; [exact Hb|]. split; [|apply Hget].
  apply Hin. exists Cancun. split; reflexivity.
Defined.

Lemma hardforks_refine_map_witness :
  let hf := hardforks_remove (hardforks_insert (hardforks_insert hardforks_default "a" (Block 1)) "b" (Block 2)) "a" in
  NoDup (forks hf).*1 /\ (("b", Block 2) ∈ forks hf <-> hardforks_get hf "b" = Some (Block 2)).
Proof.
  intros hf. destruct (hardforks_refine_map hf) as (Hd & Hm & _).
  - apply reach_remove, reach_insert, reach_insert, reach_default.
  - split; [exact Hd|apply Hm].
Defined.

End examples.
End ChainSpecProps.
