(* ===== verification/Ordered.v ===== *)
(** * Ordered collections

    [BTreeMap] and [BTreeSet] of the Rust standard library.

    A [BTreeMap<K, V>] is a [gmap K V]; what the order of the keys adds is the
    order of iteration, [bt_entries], and ranges of it.  A [BTreeSet<T>] is
    used in the pools with an [Ord] that is coarser than equality, so it is the
    list of its elements in increasing order, searched with the comparison. *)

From S2P Require Import Prelude.

(** ** Iterator adapters *)

(** [Iterator::take_while] and [Iterator::last]. *)
Fixpoint take_while {A} (f : A -> bool) (l : list A) : list A :=
  match l with
  | [] => []
  | x :: l => if f x then x :: take_while f l else []
  end.

Lemma take_while_elem {A} (f : A -> bool) l x : x ∈ take_while f l -> x ∈ l /\ f x = true.
Proof.
  induction l as [|y l IH]; simpl; [set_solver|].
  destruct (f y) eqn:E; [|set_solver]. rewrite !elem_of_cons. naive_solver.
Qed.

Lemma take_while_sublist {A} (f : A -> bool) l : take_while f l `sublist_of` l.
Proof.
  induction l as [|y l IH]; simpl; [constructor|].
  destruct (f y); [by constructor|]. apply sublist_nil_l.
Qed.

Lemma take_while_StronglySorted {A} (R : relation A) (f : A -> bool) l :
  StronglySorted R l -> StronglySorted R (take_while f l).
Proof.
  induction 1 as [|y l Hs IH Hall]; simpl; [constructor|].
  destruct (f y); constructor; [done|]. rewrite Forall_forall in *.
  intros x [Hx _]%take_while_elem. auto.
Qed.

(** Where the test holds on an initial part of a sorted list, [take_while] is
    the same as filtering. *)
Lemma take_while_sorted {A} (R : relation A) (f : A -> bool) l x :
  StronglySorted R l ->
  (forall a b, a ∈ l -> b ∈ l -> R a b -> f a = false -> f b = false) ->
  x ∈ take_while f l <-> x ∈ l /\ f x = true.
Proof.
  intros Hs Hdown. split; [apply take_while_elem|].
  induction Hs as [|y l Hs IH Hall]; simpl; [set_solver|].
  intros [Hx Hf]. destruct (f y) eqn:E.
  - rewrite elem_of_cons in *. destruct Hx as [->|Hx]; [by left|right].
    apply IH; [|done]. intros a b Ha Hb. apply Hdown; by right.
  - exfalso. rewrite elem_of_cons in Hx. destruct Hx as [->|Hx]; [congruence|].
    rewrite Forall_forall in Hall.
    rewrite (Hdown y x) in Hf; [done|by left|by right|auto|done].
Qed.

(** ** [BTreeMap] *)

Class KeyOrder (K : Type) := {
  key_le : relation K;
  key_le_dec :: RelDecision key_le;
  key_le_order :: TotalOrder key_le;
}.

#[global] Instance Z_le_total_order : TotalOrder Z.le.
Proof.
  split; [apply _|]. intros a b. unfold strict.
  destruct (Z.lt_trichotomy a b) as [?|[?|?]]; [left|right; left|right; right]; lia.
Qed.

#[global] Instance Z_key_order : KeyOrder Z := {| key_le := Z.le |}.

Section btree_map.
Context {K V : Type} `{Countable K} `{!KeyOrder K}.
Implicit Types (m : gmap K V) (k : K) (l : list (K * V)).

Definition entry_le (p q : K * V) : Prop := key_le p.1 q.1.

#[export] Instance entry_le_dec : RelDecision entry_le.
Proof. intros p q. apply key_le_dec. Defined.

#[export] Instance entry_le_trans : Transitive entry_le.
Proof. intros p q r. unfold entry_le. apply transitivity. Qed.

#[export] Instance entry_le_total : Total entry_le.
Proof. intros p q. unfold entry_le. apply total, _. Qed.

(** The entries in increasing order of the keys: [iter()], [into_iter()]. *)
Definition bt_entries m : list (K * V) := merge_sort entry_le (map_to_list m).

(** [range(k..)] and [range((Excluded(k), Unbounded))]. *)
Definition bt_range_from k m : list (K * V) :=
  List.filter (fun p => bool_decide (key_le k p.1)) (bt_entries m).
Definition bt_range_after k m : list (K * V) :=
  List.filter (fun p => bool_decide (key_le k p.1 /\ k <> p.1)) (bt_entries m).

Lemma bt_entries_perm m : bt_entries m ≡ₚ map_to_list m.
Proof. apply merge_sort_Permutation. Qed.

Lemma bt_entries_sorted m : StronglySorted entry_le (bt_entries m).
Proof. apply StronglySorted_merge_sort; apply _. Qed.

Lemma elem_of_bt_entries m k v : (k, v) ∈ bt_entries m <-> m !! k = Some v.
Proof. by rewrite bt_entries_perm, elem_of_map_to_list. Qed.

Lemma NoDup_bt_keys m : NoDup (bt_entries m).*1.
Proof. rewrite bt_entries_perm. apply NoDup_fst_map_to_list. Qed.

Lemma bt_entries_length m : length (bt_entries m) = size m.
Proof. by rewrite bt_entries_perm, length_map_to_list. Qed.

Lemma list_to_map_bt_entries m : list_to_map (bt_entries m) = m.
Proof.
  rewrite <- (list_to_map_to_list m) at 2.
  apply list_to_map_proper; [apply NoDup_bt_keys|apply bt_entries_perm].
Qed.

Lemma elem_of_bt_keys m k : k ∈ (bt_entries m).*1 <-> is_Some (m !! k).
Proof.
  rewrite list_elem_of_fmap. split.
  - intros [[k' v] [-> Hin]]. apply elem_of_bt_entries in Hin. eauto.
  - intros [v Hv]. exists (k, v). split; [done|]. by apply elem_of_bt_entries.
Qed.

(** The entries of a map are the one sorted list that represents it. *)
Lemma bt_entries_unique m l :
  StronglySorted entry_le l -> NoDup l.*1 -> (forall k v, (k, v) ∈ l <-> m !! k = Some v) ->
  bt_entries m = l.
Proof.
  intros Hs Hnd Hl.
  assert (Hp : bt_entries m ≡ₚ l).
  { apply NoDup_Permutation; [|by apply (NoDup_fmap_1 fst)|].
    - apply (NoDup_fmap_1 fst), NoDup_bt_keys.
    - intros [k v]. by rewrite elem_of_bt_entries, Hl. }
  apply (StronglySorted_unique_strong entry_le); [|apply bt_entries_sorted|done|done].
  intros [k v] [k' v'] Hx Hy H1 H2. unfold entry_le in *. simpl in *.
  assert (k = k') as <- by (by apply (anti_symm key_le)).
  apply elem_of_bt_entries in Hx. apply Hl in Hy. congruence.
Qed.

Lemma bt_entries_delete_head m k v l : bt_entries m = (k, v) :: l -> bt_entries (delete k m) = l.
Proof.
  intros He. assert (Hs := bt_entries_sorted m). assert (Hn := NoDup_bt_keys m).
  rewrite He in Hs, Hn. apply StronglySorted_inv in Hs as [Hs _].
  rewrite fmap_cons, NoDup_cons in Hn. destruct Hn as [Hk Hn].
  apply bt_entries_unique; [done..|]. intros k' v'. rewrite lookup_delete_Some, <- elem_of_bt_entries, He.
  rewrite elem_of_cons. split; [|naive_solver].
  intros Hin. split; [|by right]. intros <-. apply Hk. by apply (list_elem_of_fmap_2 fst) in Hin.
Qed.

(** A key list without repetition determines a map. *)
Lemma lookup_list_to_map_keys l k v :
  NoDup l.*1 -> (list_to_map l : gmap K V) !! k = Some v <-> (k, v) ∈ l.
Proof.
  intros Hnd. split.
  - apply elem_of_list_to_map_2.
  - by apply elem_of_list_to_map_1.
Qed.

(** Writing back a list of entries over a map: the entries win. *)
Lemma lookup_write_back l m k :
  NoDup l.*1 ->
  (list_to_map l ∪ m) !! k =
  match (list_to_map l : gmap K V) !! k with Some v => Some v | None => m !! k end.
Proof.
  intros Hnd. destruct (list_to_map l !! k) eqn:E.
  - by apply lookup_union_Some_l.
  - by apply lookup_union_r.
Qed.

Lemma bt_range_from_elem k m k' v :
  (k', v) ∈ bt_range_from k m <-> m !! k' = Some v /\ key_le k k'.
Proof.
  unfold bt_range_from. rewrite list_elem_of_In, filter_In, <- list_elem_of_In.
  rewrite elem_of_bt_entries, bool_decide_eq_true. done.
Qed.

Lemma bt_range_after_elem k m k' v :
  (k', v) ∈ bt_range_after k m <-> m !! k' = Some v /\ key_le k k' /\ k <> k'.
Proof.
  unfold bt_range_after. rewrite list_elem_of_In, filter_In, <- list_elem_of_In.
  rewrite elem_of_bt_entries, bool_decide_eq_true. done.
Qed.

Lemma filter_keys_NoDup (f : K * V -> bool) l : NoDup l.*1 -> NoDup (List.filter f l).*1.
Proof.
  intros Hnd. induction l as [|p l IH]; simpl; [constructor|].
  rewrite fmap_cons, NoDup_cons in Hnd. destruct Hnd as [Hp Hnd].
  destruct (f p); [|auto]. csimpl. apply NoDup_cons. split; [|auto].
  intros [q [Hq Hin]]%list_elem_of_fmap. apply Hp.
  rewrite Hq. apply list_elem_of_fmap_2. rewrite list_elem_of_In in *.
  by apply filter_In in Hin as [? _].
Qed.

Lemma filter_sorted (f : K * V -> bool) l :
  StronglySorted entry_le l -> StronglySorted entry_le (List.filter f l).
Proof.
  induction 1 as [|p l Hs IH Hall]; simpl; [constructor|].
  destruct (f p); [|done]. constructor; [done|].
  rewrite Forall_forall in *. intros q Hq. apply Hall.
  rewrite list_elem_of_In in *. by apply filter_In in Hq as [? _].
Qed.

End btree_map.

Arguments entry_le : simpl never.
#[export] Hint Resolve bt_entries_sorted NoDup_bt_keys : reth.

(** ** [BTreeSet] *)

Class TotalCmp {A : Type} (cmp : A -> A -> comparison) := {
  cmp_antisym x y : cmp y x = CompOpp (cmp x y);
  cmp_lt_trans x y z : cmp x y = Lt -> cmp y z = Lt -> cmp x z = Lt;
  cmp_eq_trans x y z : cmp x y = Eq -> cmp x z = cmp y z;
}.

Section btree_set.
Context {A : Type} (cmp : A -> A -> comparison).
Implicit Types (x y : A) (l : list A).

(** [insert]: an equal element that is already present is kept. *)
Fixpoint bset_insert x l : list A :=
  match l with
  | [] => [x]
  | y :: l' =>
      match cmp x y with
      | Lt => x :: l
      | Eq => l
      | Gt => y :: bset_insert x l'
      end
  end.

(** [remove], with whether an element was removed. *)
Fixpoint bset_remove x l : list A * bool :=
  match l with
  | [] => ([], false)
  | y :: l' =>
      match cmp x y with
      | Lt => (l, false)
      | Eq => (l', true)
      | Gt => let '(l'', b) := bset_remove x l' in (y :: l'', b)
      end
  end.

(** [iter().collect()]: insertion one by one. *)
Definition bset_of_list (xs : list A) : list A := foldl (fun l x => bset_insert x l) [] xs.

Definition bset_sorted l : Prop := StronglySorted (fun x y => cmp x y = Lt) l.

Context `{!TotalCmp cmp}.

Lemma cmp_refl x : cmp x x = Eq.
Proof. pose proof (cmp_antisym (cmp:=cmp) x x) as H. destruct (cmp x x); done. Qed.

Lemma cmp_gt_lt x y : cmp x y = Gt <-> cmp y x = Lt.
Proof. rewrite (cmp_antisym (cmp:=cmp) x y). destruct (cmp x y); simpl; split; done. Qed.

Lemma cmp_eq_sym x y : cmp x y = Eq -> cmp y x = Eq.
Proof. intros Hxy. by rewrite (cmp_antisym (cmp:=cmp) x y), Hxy. Qed.

Lemma cmp_eq_trans_r x y z : cmp x y = Eq -> cmp z x = cmp z y.
Proof.
  intros Hxy. rewrite (cmp_antisym (cmp:=cmp) x z), (cmp_antisym (cmp:=cmp) y z). f_equal.
  by apply cmp_eq_trans.
Qed.

Lemma bset_insert_fresh x l y :
  (forall z, z ∈ l -> cmp x z <> Eq) -> y ∈ bset_insert x l <-> y = x \/ y ∈ l.
Proof.
  induction l as [|z l IH]; intros Hf; simpl; [set_solver|].
  destruct (cmp x z) eqn:E; [|set_solver|].
  - exfalso. apply (Hf z); [set_solver|done].
  - rewrite !elem_of_cons, IH by set_solver. naive_solver.
Qed.

Lemma bset_insert_incl x l y : y ∈ bset_insert x l -> y = x \/ y ∈ l.
Proof.
  induction l as [|z l IH]; simpl; [set_solver|].
  destruct (cmp x z); [set_solver|set_solver|]. rewrite !elem_of_cons. naive_solver.
Qed.

Lemma bset_insert_sorted x l : bset_sorted l -> bset_sorted (bset_insert x l).
Proof.
  unfold bset_sorted. induction 1 as [|y l Hs IH Hall]; simpl; [repeat constructor|].
  rewrite Forall_forall in Hall. destruct (cmp x y) eqn:E.
  - constructor; [done|]. by apply Forall_forall.
  - constructor.
    + constructor; [done|]. by apply Forall_forall.
    + constructor; [done|]. apply Forall_forall. eauto using cmp_lt_trans.
  - constructor; [done|]. apply Forall_forall. intros z Hz.
    apply bset_insert_incl in Hz as [->|Hz]; [|auto]. by apply cmp_gt_lt.
Qed.

Lemma bset_of_list_sorted xs : bset_sorted (bset_of_list xs).
Proof.
  unfold bset_of_list. assert (bset_sorted []) as H by constructor. revert H.
  generalize (@nil A) as l. induction xs as [|x xs IH]; intros l Hl; simpl; [done|].
  by apply IH, bset_insert_sorted.
Qed.

Lemma bset_sorted_NoDup l : bset_sorted l -> NoDup l.
Proof.
  unfold bset_sorted. induction 1 as [|x l Hs IH Hall]; constructor; [|done].
  rewrite Forall_forall in Hall. intros Hx. specialize (Hall x Hx). by rewrite cmp_refl in Hall.
Qed.

(** Collecting elements no two of which compare equal keeps them all. *)
Lemma bset_of_list_elem xs y :
  (forall a b, a ∈ xs -> b ∈ xs -> cmp a b = Eq -> a = b) -> NoDup xs ->
  y ∈ bset_of_list xs <-> y ∈ xs.
Proof.
  intros Hinj Hnd. unfold bset_of_list.
  assert (Hgen : forall l, (forall a b, a ∈ l -> b ∈ xs -> cmp b a <> Eq) ->
    y ∈ foldl (fun l x => bset_insert x l) l xs <-> y ∈ l \/ y ∈ xs).
  { induction xs as [|x xs IH]; intros l Hl; simpl; [set_solver|].
    apply NoDup_cons in Hnd as [Hx Hnd]. rewrite IH; [|set_solver|done|].
    - rewrite bset_insert_fresh by set_solver. set_solver.
    - intros a b Ha Hb. apply bset_insert_incl in Ha as [->|Ha]; [|set_solver].
      intros Heq. apply Hx. rewrite <- (Hinj b x); [done|set_solver|set_solver|done]. }
  rewrite Hgen by set_solver. set_solver.
Qed.

(** In a sorted set two elements that compare equal are at the same place. *)
Lemma bset_sorted_unique l x y :
  bset_sorted l -> x ∈ l -> y ∈ l -> cmp x y = Eq -> x = y.
Proof.
  unfold bset_sorted. induction 1 as [|z l Hs IH Hall]; [set_solver|].
  rewrite Forall_forall in Hall. rewrite !elem_of_cons.
  intros [->|Hx] [->|Hy] Heq; [done| | |auto].
  - rewrite (Hall y Hy) in Heq. done.
  - apply cmp_eq_sym in Heq. rewrite (Hall x Hx) in Heq. done.
Qed.

Lemma bset_remove_spec x l :
  bset_sorted l ->
  bset_sorted (bset_remove x l).1 /\
  (forall y, y ∈ (bset_remove x l).1 <-> y ∈ l /\ cmp x y <> Eq) /\
  ((bset_remove x l).2 = true <-> exists y, y ∈ l /\ cmp x y = Eq).
Proof.
  unfold bset_sorted. induction 1 as [|z l Hs IH Hall]; simpl.
  { split_and!; [constructor|set_solver|set_solver]. }
  destruct IH as (IH1 & IH2 & IH3). rewrite Forall_forall in Hall.
  destruct (cmp x z) eqn:E; simpl.
  - split_and!; [done| |split; [|done]; eexists; split; [apply list_elem_of_here|done]].
    intros y. rewrite elem_of_cons. split.
    + intros Hy. split; [auto|]. rewrite (cmp_eq_trans (cmp:=cmp) x z) by done. by rewrite Hall.
    + intros [[->|Hy] Hne]; [done|done].
  - assert (Hlt : forall y, y ∈ l -> cmp x y = Lt) by eauto using cmp_lt_trans.
    split_and!.
    + constructor; [done|by apply Forall_forall].
    + intros y. rewrite elem_of_cons. split; [|naive_solver].
      intros [->|Hy]; split; [auto|congruence|auto|]. by rewrite Hlt.
    + split; [done|]. intros (y & [->|Hy]%elem_of_cons & Heq); [congruence|].
      rewrite Hlt in Heq by done. done.
  - destruct (bset_remove x l) as [l' b]; simpl in *. split_and!.
    + constructor; [done|]. apply Forall_forall. intros y Hy. apply IH2 in Hy as [Hy _]. auto.
    + intros y. rewrite !elem_of_cons, IH2. split; [|naive_solver].
      intros [->|[Hy Hne]]; split; [auto|congruence|auto|done].
    + rewrite IH3. split; [set_solver|].
      intros (y & [->|Hy]%elem_of_cons & Heq); [congruence|eauto].
Qed.

End btree_set.
