(* ===== verification/EngineBlocks.v ===== *)
(** * Blocks linked by their parents

    What the block buffer, the tree state and the engine share: a block as the trait
    [Block] shows it, indices from a hash to the hashes below it, and walks from
    a block to its parent as long as it is known. *)

From S2P Require Import Prelude.

Module EngineBlocks.

Class BlockTrait (B : Type) := {
  block_hash : B -> Z;
  block_parent_hash : B -> Z;
  block_number : B -> Z;
}.
Arguments block_hash : simpl never.
Arguments block_parent_hash : simpl never.
Arguments block_number : simpl never.
#[export] Hint Mode BlockTrait ! : typeclass_instances.

Record BlockNumHash := mkNumHash { nh_number : Z; nh_hash : Z }.
Record BlockWithParent := mkBlockWithParent { bwp_parent : Z; bwp_block : BlockNumHash }.

#[global] Instance num_hash_eq_dec : EqDecision BlockNumHash.
Proof. solve_decision. Defined.

(** The order in which a [HashSet] of hashes is iterated, which is not specified. *)
Class HashOrder := {
  set_order : gset Z -> list Z;
  set_order_perm : forall s, set_order s ≡ₚ elements s;
}.

Lemma elem_of_set_order `{HashOrder} s h : h ∈ set_order s <-> h ∈ s.
Proof. by rewrite set_order_perm, elem_of_elements. Qed.

Lemma set_order_nodup `{HashOrder} s : NoDup (set_order s).
Proof. rewrite set_order_perm. apply NoDup_elements. Qed.

(** ** Indices

    A map from a key to a set of hashes without empty sets. *)

Abbreviation Index := (gmap Z (gset Z)).

(** [entry(k).or_default().insert(h)]. *)
Definition index_add (k h : Z) (m : Index) : Index := <[k := {[h]} ∪ default ∅ (m !! k)]> m.

(** Removes [h] from the entry at [k], and the entry if it is empty then. *)
Definition index_del (k h : Z) (m : Index) : Index :=
  match m !! k with
  | Some s => if decide (s ∖ {[h]} = ∅) then delete k m else <[k := s ∖ {[h]}]> m
  | None => m
  end.

Definition in_index (m : Index) (k h : Z) : Prop := exists s, m !! k = Some s /\ h ∈ s.
Definition index_nonempty (m : Index) : Prop := forall k s, m !! k = Some s -> s <> ∅.

Lemma in_index_add m k h k' h' :
  in_index (index_add k h m) k' h' <-> (k' = k /\ h' = h) \/ in_index m k' h'.
Proof.
  unfold in_index, index_add. split.
  - intros (s & [[<- <-]|[? ?]]%lookup_insert_Some & Hin); [|eauto].
    destruct (m !! k) as [s|]; set_solver.
  - intros [[-> ->]|(s & Hs & Hin)]; [eexists; split; [apply lookup_insert_eq|set_solver]|].
    destruct (decide (k' = k)) as [->|]; [eexists; split; [apply lookup_insert_eq|rewrite Hs; set_solver]|].
    exists s. by rewrite lookup_insert_ne.
Qed.

Lemma in_index_del m k h k' h' :
  in_index (index_del k h m) k' h' <-> in_index m k' h' /\ ~ (k' = k /\ h' = h).
Proof.
  unfold in_index, index_del. destruct (m !! k) as [s|] eqn:E; [|naive_solver]. case_decide as Hs.
  - split.
    + intros (s' & [? ?]%lookup_delete_Some & Hin). split; [eauto|naive_solver].
    + intros ((s' & Hs' & Hin) & Hne). exists s'. rewrite lookup_delete_ne; [done|]. intros ->.
      rewrite E in Hs'. injection Hs' as <-. set_solver.
  - split.
    + intros (s' & [[<- <-]|[? ?]]%lookup_insert_Some & Hin); [set_solver|]. split; [eauto|naive_solver].
    + intros ((s' & Hs' & Hin) & Hne). destruct (decide (k' = k)) as [->|].
      * rewrite E in Hs'. injection Hs' as <-. eexists. split; [apply lookup_insert_eq|set_solver].
      * exists s'. by rewrite lookup_insert_ne.
Qed.

Lemma index_nonempty_add m k h : index_nonempty m -> index_nonempty (index_add k h m).
Proof. intros Hm k' s. unfold index_add. intros [[<- <-]|[? Hs]]%lookup_insert_Some; [set_solver|by eapply Hm]. Qed.

Lemma index_nonempty_del m k h : index_nonempty m -> index_nonempty (index_del k h m).
Proof.
  intros Hm k' s. unfold index_del. destruct (m !! k) as [s0|] eqn:E; [|apply Hm]. case_decide.
  - intros [_ Hs]%lookup_delete_Some. by eapply Hm.
  - intros [[<- <-]|[_ Hs]]%lookup_insert_Some; [done|by eapply Hm].
Qed.

Lemma in_index_delete m k k' h : in_index (delete k m) k' h <-> k' <> k /\ in_index m k' h.
Proof. unfold in_index. setoid_rewrite lookup_delete_Some. naive_solver. Qed.

Lemma index_nonempty_delete m k : index_nonempty m -> index_nonempty (delete k m).
Proof. intros Hm k' s [_ Hs]%lookup_delete_Some. by eapply Hm. Qed.

Lemma in_index_default m k h : in_index m k h <-> h ∈ default ∅ (m !! k).
Proof. unfold in_index. destruct (m !! k); set_solver. Qed.

(** The index by [key] of a map of blocks, except for the keys that are [dead]. *)
Definition indexed {E} (dead : Z -> Prop) (key : E -> Z) (m : Index) (blocks : gmap Z E) : Prop :=
  index_nonempty m /\
  forall k h, in_index m k h <-> ~ dead k /\ exists e, blocks !! h = Some e /\ key e = k.

Section indexed.
Context {E : Type} (dead : Z -> Prop) (key : E -> Z).
Implicit Types (m : Index) (blocks : gmap Z E).

Lemma indexed_insert m blocks h e :
  (forall e', blocks !! h = Some e' -> key e' = key e) -> ~ dead (key e) -> indexed dead key m blocks ->
  indexed dead key (index_add (key e) h m) (<[h := e]> blocks).
Proof.
  intros Hn Hd [Hne Hm]. split; [by apply index_nonempty_add|]. intros k h'. rewrite in_index_add, Hm.
  setoid_rewrite lookup_insert_Some. split; [|naive_solver].
  intros [[-> ->]|(Hk & e' & He' & <-)]; [eauto 10|]. split; [done|].
  destruct (decide (h = h')) as [->|]; [|eauto 10]. exists e. split; [by left|]. symmetry. by apply Hn.
Qed.

Lemma indexed_delete m blocks h e :
  blocks !! h = Some e -> indexed dead key m blocks ->
  indexed dead key (index_del (key e) h m) (delete h blocks).
Proof.
  intros He [Hne Hm]. split; [by apply index_nonempty_del|]. intros k h'. rewrite in_index_del, Hm.
  setoid_rewrite lookup_delete_Some. split.
  - intros [(Hk & e' & He' & <-) Hneq]. split; [done|]. exists e'. split; [split; [|done]|done].
    intros ->. rewrite He in He'. injection He' as <-. by apply Hneq.
  - intros (Hk & e' & [Hh He'] & <-). split; [eauto|]. naive_solver.
Qed.

(** Forgetting the entry of a key makes it dead. *)
Lemma indexed_kill m blocks k0 :
  indexed dead key m blocks -> indexed (fun k => dead k \/ k = k0) key (delete k0 m) blocks.
Proof.
  intros [Hne Hm]. split; [by apply index_nonempty_delete|]. intros k h. rewrite in_index_delete, Hm. naive_solver.
Qed.

(** Keys that no block has may be dead or not. *)
Lemma indexed_dead (dead' : Z -> Prop) m blocks :
  (forall h e, blocks !! h = Some e -> dead (key e) <-> dead' (key e)) ->
  indexed dead key m blocks -> indexed dead' key m blocks.
Proof. intros Hd [Hne Hm]. split; [done|]. intros k h. rewrite Hm. naive_solver. Qed.

End indexed.

(** ** Walks *)

Section walk.
Context {E : Type} (par : E -> Z).
Implicit Types (blocks : gmap Z E) (h : Z) (l : list E).

(** The known blocks from [h] back, up to the first that is not known. *)
Inductive ancestors blocks : Z -> list E -> Prop :=
| ancestors_nil h : blocks !! h = None -> ancestors blocks h []
| ancestors_cons h e l : blocks !! h = Some e -> ancestors blocks (par e) l -> ancestors blocks h (e :: l).

(** Parents have a smaller rank: there are no cycles. *)
Definition ranked (rank : Z -> nat) blocks : Prop :=
  forall h e, blocks !! h = Some e -> (rank (par e) < rank h)%nat.

Definition below (rank : Z -> nat) blocks h : gmap Z E := filter (fun x => (rank x.1 <= rank h)%nat) blocks.

Lemma below_parent rank blocks h e :
  blocks !! h = Some e -> (rank (par e) < rank h)%nat ->
  (S (size (below rank blocks (par e))) <= size (below rank blocks h))%nat.
Proof.
  intros He Hr.
  assert (below rank blocks (par e) ⊆ delete h (below rank blocks h)) as Hsub.
  { apply map_subseteq_spec. intros k x [Hk Hle]%map_lookup_filter_Some. simpl in Hle. rewrite lookup_delete_ne.
    - apply map_lookup_filter_Some. simpl. split; [done|lia].
    - intros ->. lia. }
  apply map_subseteq_size in Hsub.
  assert (below rank blocks h !! h = Some e) as Hh by (apply map_lookup_filter_Some; done).
  rewrite map_size_delete_Some in Hsub by eauto.
  assert (size (below rank blocks h) <> 0%nat) by (apply map_size_ne_0_lookup; eauto). lia.
Qed.

Lemma ancestors_exist rank blocks : ranked rank blocks ->
  forall h, exists l, ancestors blocks h l /\ (length l <= size blocks)%nat.
Proof.
  intros Hr. enough (forall n h, (rank h < n)%nat ->
    exists l, ancestors blocks h l /\ (length l <= size (below rank blocks h))%nat) as Hex.
  { intros h. destruct (Hex (S (rank h)) h) as (l & Hl & Hlen); [lia|]. exists l. split; [done|].
    etrans; [exact Hlen|]. apply map_subseteq_size, map_filter_subseteq. }
  intros n. induction n as [|n IH]; intros h Hn; [lia|].
  destruct (blocks !! h) as [e|] eqn:E'; [|exists []; split; [by constructor|simpl; lia]].
  specialize (Hr h e E'). destruct (IH (par e)) as (l & Hl & Hlen); [lia|].
  exists (e :: l). split; [by econstructor|]. pose proof (below_parent rank blocks h e E' Hr). simpl. lia.
Qed.

Lemma ancestors_unique blocks h l l' : ancestors blocks h l -> ancestors blocks h l' -> l = l'.
Proof.
  intros Hl. revert l'. induction Hl as [h Hn|h e l He _ IH]; intros l' Hl'; inversion Hl'; simplify_eq; [done|].
  f_equal. by apply IH.
Qed.

(** Every block of a walk is known. *)
Lemma ancestors_known blocks h l e : ancestors blocks h l -> e ∈ l -> exists h', blocks !! h' = Some e.
Proof. induction 1; [by intros ?%not_elem_of_nil|]. intros [->|?]%elem_of_cons; eauto. Qed.

(** A part of a walk: a path from [h] down to the hash [h']. *)
Inductive path blocks : Z -> list E -> Z -> Prop :=
| path_nil h : path blocks h [] h
| path_cons h e l h' : blocks !! h = Some e -> path blocks (par e) l h' -> path blocks h (e :: l) h'.

Lemma path_app blocks h l h' l' h'' : path blocks h l h' -> path blocks h' l' h'' -> path blocks h (l ++ l') h''.
Proof. induction 1; [done|]. intros Hp. simpl. econstructor; eauto. Qed.

Lemma path_snoc blocks h l h' e : path blocks h l h' -> blocks !! h' = Some e -> path blocks h (l ++ [e]) (par e).
Proof. intros Hp He. eapply path_app; [done|]. econstructor; [done|constructor]. Qed.

Lemma ancestors_split blocks h l l1 l2 : ancestors blocks h l -> l = l1 ++ l2 ->
  exists h', path blocks h l1 h' /\ ancestors blocks h' l2.
Proof.
  revert h l. induction l1 as [|e l1 IH]; intros h l Hl ->; [exists h; split; [constructor|done]|].
  inversion Hl as [|? ? ? He Hl']; subst. destruct (IH _ _ Hl' eq_refl) as (h' & ? & ?).
  exists h'. split; [by econstructor|done].
Qed.

Lemma path_ancestors blocks h l h' l' : path blocks h l h' -> ancestors blocks h' l' -> ancestors blocks h (l ++ l').
Proof. induction 1; [done|]. intros Hl. simpl. econstructor; eauto. Qed.

Lemma path_mono blocks blocks' h l h' : blocks ⊆ blocks' -> path blocks h l h' -> path blocks' h l h'.
Proof. intros Hs. induction 1; econstructor; [|done]. by eapply lookup_weaken. Qed.

End walk.
End EngineBlocks.

(** ** Simple blocks

    A block as its three numbers, and an iteration order, for concrete states. *)
Module SimpleChain.
Import EngineBlocks.

Record SimpleBlock := mkSimple { sb_hash : Z; sb_parent : Z; sb_number : Z }.

#[export] Instance simple_block : BlockTrait SimpleBlock :=
  {| block_hash := sb_hash; block_parent_hash := sb_parent; block_number := sb_number |}.

#[export] Instance element_order : HashOrder := {| set_order := elements; set_order_perm := fun _ => reflexivity _ |}.

End SimpleChain.
