(* ===== verification/BlockBuffer.v ===== *)
(** * Buffer of blocks without a parent

    [crates/engine/tree/src/tree/block_buffer.rs]: blocks that cannot be executed yet
    because their parent is missing, with two indices and a queue for eviction. *)

From S2P Require Import Prelude Ordered EngineBlocks.
Import EngineBlocks.

Module Buffer.

Section buffer.
Context {B : Type} `{!BlockTrait B} `{!HashOrder}.

Record BlockBuffer := mkBlockBuffer {
  blocks : gmap Z B;
  parent_to_child : Index;
  earliest_blocks : Index;
  block_queue : list Z;
  max_blocks : Z;
}.
Implicit Types (self : BlockBuffer) (h : Z) (b : B).

Definition new (limit : Z) : BlockBuffer := mkBlockBuffer ∅ ∅ ∅ [] limit.
Definition block self h : option B := blocks self !! h.

(** The loop of [lowest_ancestor]. *)
Fixpoint lowest_loop (fuel : nat) self (current_block : B) : option B :=
  match fuel with
  | O => None
  | S fuel =>
      match blocks self !! block_parent_hash current_block with
      | Some parent => lowest_loop fuel self parent
      | None => Some current_block
      end
  end.
(** The outer option is the fuel, the inner one the result. *)
Definition lowest_ancestor self h : option (option B) :=
  match blocks self !! h with
  | None => Some None
  | Some b => r ← lowest_loop (S (size (blocks self))) self b; Some (Some r)
  end.

Definition remove_from_earliest_blocks self (number h : Z) : BlockBuffer :=
  mkBlockBuffer (blocks self) (parent_to_child self) (index_del number h (earliest_blocks self))
    (block_queue self) (max_blocks self).
Definition remove_from_parent self (parent_hash h : Z) : BlockBuffer :=
  mkBlockBuffer (blocks self) (index_del parent_hash h (parent_to_child self)) (earliest_blocks self)
    (block_queue self) (max_blocks self).

Definition remove_block self h : option B * BlockBuffer :=
  match blocks self !! h with
  | None => (None, self)
  | Some b =>
      let self := mkBlockBuffer (delete h (blocks self)) (parent_to_child self) (earliest_blocks self)
                    (block_queue self) (max_blocks self) in
      let self := remove_from_earliest_blocks self (block_number b) h in
      let self := remove_from_parent self (block_parent_hash b) h in
      (Some b, mkBlockBuffer (blocks self) (parent_to_child self) (earliest_blocks self)
                 (filter (fun x => x <> h) (block_queue self)) (max_blocks self))
  end.

Definition insert_block self b : BlockBuffer :=
  let h := block_hash b in
  let self := mkBlockBuffer (<[h := b]> (blocks self)) (index_add (block_parent_hash b) h (parent_to_child self))
                (index_add (block_number b) h (earliest_blocks self)) (block_queue self) (max_blocks self) in
  let self :=
    if max_blocks self <=? Z.of_nat (length (block_queue self)) then
      match block_queue self with
      | evicted :: queue =>
          (remove_block (mkBlockBuffer (blocks self) (parent_to_child self) (earliest_blocks self) queue (max_blocks self))
             evicted).2
      | [] => self
      end
    else self in
  mkBlockBuffer (blocks self) (parent_to_child self) (earliest_blocks self) (block_queue self ++ [h]) (max_blocks self).

(** [for h in hs { if let Some(block) = self.remove_block(h) { removed.push(block) } }]. *)
Fixpoint remove_each self (hs : list Z) (removed : list B) : BlockBuffer * list B :=
  match hs with
  | [] => (self, removed)
  | h :: hs =>
      match remove_block self h with
      | (Some b, self) => remove_each self hs (removed ++ [b])
      | (None, self) => remove_each self hs removed
      end
  end.

(** The loop of [remove_children].  The head of the list is the end of the vector, where it
    pops. *)
Fixpoint remove_children_loop (fuel : nat) self (stack : list Z) (removed : list B) : option (BlockBuffer * list B) :=
  match fuel with
  | O => None
  | S fuel =>
      match stack with
      | [] => Some (self, removed)
      | parent_hash :: stack =>
          match parent_to_child self !! parent_hash with
          | Some children =>
              let self := mkBlockBuffer (blocks self) (delete parent_hash (parent_to_child self))
                            (earliest_blocks self) (block_queue self) (max_blocks self) in
              let '(self, removed) := remove_each self (set_order children) removed in
              remove_children_loop fuel self (reverse (set_order children) ++ stack) removed
          | None => remove_children_loop fuel self stack removed
          end
      end
  end.
Definition remove_children self (parent_hashes : list Z) : option (BlockBuffer * list B) :=
  remove_children_loop (S (length parent_hashes + size (blocks self))) self (reverse parent_hashes) [].

Definition remove_block_with_children self (parent_hash : Z) : option (BlockBuffer * list B) :=
  let '(b, self) := remove_block self parent_hash in
  '(self, removed) ← remove_children self [parent_hash];
  Some (self, option_list b ++ removed).

(** The first loop of [remove_old_blocks]: the entries up to the number are taken out. *)
Fixpoint pop_old (fuel : nat) (earliest : Index) (number : Z) (acc : list Z) : option (Index * list Z) :=
  match fuel with
  | O => None
  | S fuel =>
      match bt_entries earliest with
      | [] => Some (earliest, acc)
      | (key, hashes) :: _ =>
          if number <? key then Some (earliest, acc)
          else pop_old fuel (delete key earliest) number (acc ++ set_order hashes)
      end
  end.
Definition remove_old_blocks self (number : Z) : option BlockBuffer :=
  '(earliest, hashes) ← pop_old (S (size (earliest_blocks self))) (earliest_blocks self) number [];
  let self := mkBlockBuffer (blocks self) (parent_to_child self) earliest (block_queue self) (max_blocks self) in
  let '(self, _) := remove_each self hashes [] in
  '(self, _) ← remove_children self hashes;
  Some self.

(** ** Invariant *)

(** The indices and the queue agree with the blocks, except for the keys that are dead. *)
Definition buffer_ok_but (dead_parent dead_number : Z -> Prop) self : Prop :=
  (forall h b, blocks self !! h = Some b -> block_hash b = h) /\
  indexed dead_parent block_parent_hash (parent_to_child self) (blocks self) /\
  indexed dead_number block_number (earliest_blocks self) (blocks self) /\
  (forall h, is_Some (blocks self !! h) -> h ∈ block_queue self) /\
  Z.of_nat (length (block_queue self)) <= Z.max 1 (max_blocks self).

Definition none (k : Z) : Prop := False.
Definition buffer_ok self : Prop := buffer_ok_but none none self.

Lemma buffer_new_ok limit : buffer_ok (new limit).
Proof.
  assert (forall key : B -> Z, indexed none key ∅ ∅) as He.
  { intros key. split; [intros k s; by rewrite lookup_empty|]. intros k h. unfold in_index.
    setoid_rewrite lookup_empty. naive_solver. }
  split_and!; [done|apply He|apply He|by intros h [? ?]|simpl; lia].
Qed.

Lemma remove_block_ok dp dn self h :
  buffer_ok_but dp dn self ->
  buffer_ok_but dp dn (remove_block self h).2 /\ (remove_block self h).1 = blocks self !! h /\
  blocks (remove_block self h).2 = delete h (blocks self) /\ max_blocks (remove_block self h).2 = max_blocks self.
Proof.
  intros Hok. pose proof Hok as (Hh & Hp & Hn & Hd & Hq). unfold remove_block.
  destruct (blocks self !! h) as [b|] eqn:E; simpl.
  - split_and!; [|done..]. split_and!; simpl.
    + intros h' b' [_ ?]%lookup_delete_Some. by apply Hh.
    + by apply indexed_delete.
    + by apply indexed_delete.
    + intros h'. rewrite list_elem_of_filter. destruct (decide (h' = h)) as [->|].
      * rewrite lookup_delete_eq. by intros [? ?].
      * rewrite lookup_delete_ne by done. auto.
    + etrans; [|exact Hq]. apply inj_le, length_filter.
  - split_and!; [done|done|by rewrite delete_id|done].
Qed.

(** Removing the hashes of a list: the blocks that are there, in order. *)
Lemma remove_each_ok dp dn hs : forall self acc,
  buffer_ok_but dp dn self -> NoDup hs ->
  exists self' removed, remove_each self hs acc = (self', acc ++ removed) /\ buffer_ok_but dp dn self' /\
    removed = omap (fun h => blocks self !! h) hs /\ max_blocks self' = max_blocks self /\
    forall h, blocks self' !! h = if decide (h ∈ hs) then None else blocks self !! h.
Proof.
  induction hs as [|h hs IH]; intros self acc Hok Hd.
  { exists self, []. rewrite app_nil_r. split_and!; done. }
  apply NoDup_cons in Hd as [Hh Hd]. destruct (remove_block_ok dp dn self h Hok) as (Hok' & Hb & Hbs & Hmax).
  cbn [remove_each omap list_omap]. destruct (remove_block self h) as [r self1]. simpl in *. subst r.
  assert (omap (fun x => blocks self1 !! x) hs = omap (fun x => blocks self !! x) hs) as Heq.
  { apply omap_ext_in. intros x Hx. rewrite Hbs, lookup_delete_ne; [done|]. by intros ->. }
  assert (forall acc', exists self' removed, remove_each self1 hs acc' = (self', acc' ++ removed) /\ buffer_ok_but dp dn self' /\
    removed = omap (fun x => blocks self !! x) hs /\ max_blocks self' = max_blocks self /\
    forall x, blocks self' !! x = if decide (x ∈ h :: hs) then None else blocks self !! x) as Hrest.
  { intros acc'. destruct (IH self1 acc' Hok' Hd) as (self' & removed & He & Ho & Hr & Hm & Hb').
    exists self', removed. split_and!; [done|done|by rewrite Hr, Heq|by rewrite Hm|].
    intros x. rewrite Hb', Hbs. destruct (decide (x ∈ hs)); [rewrite decide_True by set_solver; done|].
    destruct (decide (x = h)) as [->|]; [rewrite lookup_delete_eq, decide_True by set_solver; done|].
    rewrite lookup_delete_ne, decide_False by set_solver. done. }
  destruct (blocks self !! h) as [b|].
  - destruct (Hrest (acc ++ [b])) as (self' & removed & He & ? & -> & ?). rewrite <- app_assoc in He. eauto 10.
  - destruct (Hrest acc) as (self' & removed & He & ? & -> & ?). eauto 10.
Qed.

(** ** Descendants *)

(** The blocks whose parent is in [ps], and theirs. *)
Inductive descends (bs : gmap Z B) (ps : list Z) : Z -> Prop :=
| descends_child h b : bs !! h = Some b -> block_parent_hash b ∈ ps -> descends bs ps h
| descends_step h b : bs !! h = Some b -> descends bs ps (block_parent_hash b) -> descends bs ps h.

Lemma descends_known bs ps h : descends bs ps h -> is_Some (bs !! h).
Proof. destruct 1; eauto. Qed.

(** Taking the children [cs] of [p] out: what descends from [p] now descends from them. *)
Lemma descends_expand bs bs' p st cs :
  (forall h, h ∈ cs <-> exists b, bs !! h = Some b /\ block_parent_hash b = p) ->
  (forall h, bs' !! h = if decide (h ∈ cs) then None else bs !! h) ->
  forall h, descends bs (p :: st) h <-> h ∈ cs \/ descends bs' (reverse cs ++ st) h.
Proof.
  intros Hcs Hbs' h. split.
  - induction 1 as [h b Hb Hp|h b Hb Hd IH].
    + destruct (decide (h ∈ cs)); [by left|right]. apply (descends_child _ _ h b).
      * by rewrite Hbs', decide_False.
      * apply elem_of_cons in Hp as [Hp|Hp]; [|set_solver]. exfalso. naive_solver.
    + destruct (decide (h ∈ cs)); [by left|right].
      assert (bs' !! h = Some b) as Hb' by (by rewrite Hbs', decide_False).
      destruct IH as [Hc|Hd']; [|by apply (descends_step _ _ h b)].
      apply (descends_child _ _ h b); [done|]. apply elem_of_app. left. by apply elem_of_reverse.
  - intros [Hc|Hd].
    + apply Hcs in Hc as (b & Hb & Hp). apply (descends_child _ _ h b); [done|]. rewrite Hp. by left.
    + induction Hd as [h b Hb Hp|h b Hb Hd IH]; rewrite Hbs' in Hb; case_decide; try done.
      * apply elem_of_app in Hp as [Hp|Hp].
        -- rewrite elem_of_reverse in Hp. apply (descends_step _ _ h b); [done|]. apply Hcs in Hp as (b' & Hb' & Hp').
           apply (descends_child _ _ _ b'); [done|]. rewrite Hp'. by left.
        -- apply (descends_child _ _ h b); [done|]. by right.
      * by apply (descends_step _ _ h b).
Qed.

Lemma descends_nil bs h : ~ descends bs [] h.
Proof. induction 1 as [h b _ Hp|]; [by apply not_elem_of_nil in Hp|done]. Qed.

Lemma descends_childless bs p st :
  (forall h b, bs !! h = Some b -> block_parent_hash b <> p) -> forall h, descends bs (p :: st) h <-> descends bs st h.
Proof.
  intros Hno h. split.
  - induction 1 as [h b Hb Hp|h b Hb _ IH]; [|by apply (descends_step _ _ h b)].
    apply (descends_child _ _ h b); [done|]. apply elem_of_cons in Hp as [Hp|Hp]; [|done]. by destruct (Hno h b Hb).
  - induction 1 as [h b Hb Hp|h b Hb _ IH]; [|by apply (descends_step _ _ h b)].
    apply (descends_child _ _ h b); [done|]. by right.
Qed.

(** A list of blocks in which every parent that is in the list comes first. *)
Definition parents_first (ps : list Z) (l : list B) : Prop :=
  forall l1 b l2, l = l1 ++ b :: l2 -> block_parent_hash b ∈ ps \/ block_parent_hash b ∈ block_hash <$> l1.

(** What removing the descendants of [ps] does. *)
Definition children_removed (ps : list Z) self self' (removed : list B) : Prop :=
  (forall h b, blocks self' !! h = Some b <-> blocks self !! h = Some b /\ ~ descends (blocks self) ps h) /\
  (forall b, b ∈ removed <-> blocks self !! block_hash b = Some b /\ descends (blocks self) ps (block_hash b)) /\
  NoDup (block_hash <$> removed) /\ parents_first ps removed /\ max_blocks self' = max_blocks self.

Lemma parents_first_app ps cs st l1 l2 :
  (forall b, b ∈ l1 -> block_parent_hash b ∈ ps) -> (forall x, x ∈ st -> x ∈ ps) ->
  (forall x, x ∈ cs -> x ∈ block_hash <$> l1) -> parents_first (reverse cs ++ st) l2 -> parents_first ps (l1 ++ l2).
Proof.
  intros H1 Hst Hcs H2 k1 b k2 Heq.
  destruct (decide (length k1 < length l1)%nat) as [Hl|Hl].
  - left. apply H1. apply (list_elem_of_lookup_2 _ (length k1)). rewrite <- (lookup_app_l l1 l2) by lia.
    rewrite Heq. by apply list_lookup_middle.
  - assert (exists m, k1 = l1 ++ m /\ l2 = m ++ b :: k2) as (m & -> & ->).
    { apply app_eq_inv in Heq as [(k & -> & ?)|(k & -> & ?)].
      - destruct k as [|x k]; [exists []; rewrite !app_nil_r in *; by simplify_eq/=|].
        rewrite length_app in Hl. simpl in Hl. lia.
      - by exists k. }
    destruct (H2 m b k2 eq_refl) as [[Hp|Hp]%elem_of_app|Hp].
    + rewrite elem_of_reverse in Hp. right. rewrite fmap_app. apply elem_of_app. left. by apply Hcs.
    + left. by apply Hst.
    + right. rewrite fmap_app. apply elem_of_app. by right.
Qed.

Lemma found_hashes (bs : gmap Z B) (cs : list Z) :
  (forall h b, bs !! h = Some b -> block_hash b = h) -> (forall h, h ∈ cs -> is_Some (bs !! h)) ->
  block_hash <$> omap (fun h => bs !! h) cs = cs.
Proof.
  intros Hh. induction cs as [|h cs IH]; intros Hin; [done|]. csimpl. destruct (Hin h) as [b Hb]; [by left|].
  rewrite Hb. csimpl. rewrite (Hh h b Hb), IH by set_solver. done.
Qed.

Lemma blocks_size_without (bs bs' : gmap Z B) (cs : list Z) :
  NoDup cs -> (forall h, h ∈ cs -> is_Some (bs !! h)) ->
  (forall h, bs' !! h = if decide (h ∈ cs) then None else bs !! h) -> size bs = (length cs + size bs')%nat.
Proof.
  intros Hd Hin Hbs'. rewrite <- !(size_dom (D := gset Z)).
  assert (dom bs' = dom bs ∖ list_to_set cs :> gset Z) as ->.
  { apply set_eq. intros h. rewrite elem_of_difference, elem_of_list_to_set, !elem_of_dom, Hbs'.
    case_decide; rewrite ?is_Some_alt; naive_solver. }
  rewrite size_difference; [rewrite size_list_to_set by done|].
  - assert (length cs <= size (dom bs : gset Z))%nat; [|lia]. rewrite <- (size_list_to_set (C := gset Z)) by done.
    apply subseteq_size. intros h. rewrite elem_of_list_to_set, elem_of_dom. apply Hin.
  - intros h. rewrite elem_of_list_to_set, elem_of_dom. apply Hin.
Qed.

Lemma undead self (p : Z) :
  buffer_ok_but (fun k => none k \/ k = p) none self ->
  (forall h b, blocks self !! h = Some b -> block_parent_hash b <> p) -> buffer_ok self.
Proof.
  intros (Hh & Hp & Hrest) Hno. split_and!; [done| |apply Hrest..]. eapply indexed_dead; [|exact Hp].
  intros h b Hb. simpl. unfold none. specialize (Hno h b Hb). naive_solver.
Qed.

Lemma children_step self self2 p st (cs : list Z) self' removed1 removed2 :
  buffer_ok self -> NoDup cs ->
  (forall h, h ∈ cs <-> exists b, blocks self !! h = Some b /\ block_parent_hash b = p) ->
  (forall h, blocks self2 !! h = if decide (h ∈ cs) then None else blocks self !! h) ->
  removed1 = omap (fun h => blocks self !! h) cs -> max_blocks self2 = max_blocks self ->
  children_removed (reverse cs ++ st) self2 self' removed2 ->
  children_removed (p :: st) self self' (removed1 ++ removed2).
Proof.
  intros (Hh & _) Hd Hcs Hbs -> Hmax (R1 & R2 & R3 & R4 & R5).
  pose proof (descends_expand _ _ p st cs Hcs Hbs) as Hexp.
  assert (block_hash <$> omap (fun h => blocks self !! h) cs = cs) as Hfound.
  { apply found_hashes; [done|]. intros h (b & ? & _)%Hcs. eauto. }
  assert (forall b, b ∈ omap (fun h => blocks self !! h) cs <-> blocks self !! block_hash b = Some b /\ block_hash b ∈ cs) as Hrem.
  { intros b. rewrite list_elem_of_omap. split; [|naive_solver]. intros (h & Hin & Hb). by rewrite (Hh h b Hb). }
  split_and!.
  - intros h b. rewrite R1, Hexp, Hbs. case_decide; naive_solver.
  - intros b. rewrite elem_of_app, R2, Hrem, Hexp, Hbs. case_decide; naive_solver.
  - rewrite fmap_app, Hfound. apply NoDup_app. split_and!; [done| |done]. intros h Hin.
    intros (b & -> & (Hb & _)%R2)%list_elem_of_fmap. rewrite Hbs, decide_True in Hb by done. done.
  - apply (parents_first_app _ cs st); [| | |done].
    + intros b [Hb Hin]%Hrem. apply Hcs in Hin as (b' & Hb' & <-). rewrite Hb in Hb'. injection Hb' as <-. by left.
    + intros x. by right.
    + by rewrite Hfound.
  - by rewrite R5.
Qed.

Lemma remove_children_loop_ok fuel : forall stack self acc,
  buffer_ok self -> (length stack + size (blocks self) < fuel)%nat ->
  exists self' removed, remove_children_loop fuel self stack acc = Some (self', acc ++ removed) /\
    buffer_ok self' /\ children_removed stack self self' removed.
Proof.
  induction fuel as [|fuel IH]; intros stack self acc Hok Hf; [lia|]. cbn [remove_children_loop].
  destruct stack as [|p st].
  { exists self, []. rewrite app_nil_r. split_and!; [done|done|]. split_and!; try done.
    - intros h b. pose proof (descends_nil (blocks self) h). naive_solver.
    - intros b. pose proof (descends_nil (blocks self) (block_hash b)). set_solver.
    - constructor.
    - intros l1 b l2 Hl. by destruct l1. }
  pose proof Hok as (Hh & Hp & Hn & Hd & Hq). simpl in Hf.
  destruct (parent_to_child self !! p) as [children|] eqn:E.
  - set (self1 := mkBlockBuffer _ _ _ _ _).
    assert (buffer_ok_but (fun k => none k \/ k = p) none self1) as Hok1
      by (split_and!; [done|by apply indexed_kill|done..]).
    set (cs := set_order children).
    assert (forall h, h ∈ cs <-> exists b, blocks self !! h = Some b /\ block_parent_hash b = p) as Hcs.
    { intros h. unfold cs. rewrite elem_of_set_order. destruct Hp as [_ Hp]. specialize (Hp p h).
      rewrite in_index_default, E in Hp. simpl in Hp. rewrite Hp. unfold none. naive_solver. }
    destruct (remove_each_ok _ _ cs self1 acc Hok1 (set_order_nodup _)) as (self2 & removed1 & -> & Hok2 & Hr1 & Hmax & Hbs).
    assert (buffer_ok self2) as Hok2'.
    { apply (undead self2 p Hok2). intros h b. rewrite Hbs. case_decide as Hin; [done|]. intros Hb Heq. apply Hin, Hcs. eauto. }
    assert (size (blocks self) = (length cs + size (blocks self2))%nat) as Hsize.
    { apply blocks_size_without; [apply set_order_nodup|intros h (b & ? & _)%Hcs; eauto|done]. }
    destruct (IH (reverse cs ++ st) self2 (acc ++ removed1) Hok2') as (self' & removed2 & He & Hok' & Hrem).
    { rewrite length_app, length_reverse. lia. }
    exists self', (removed1 ++ removed2). rewrite app_assoc. split_and!; [done|done|].
    apply (children_step self self2 p st cs); try done. apply set_order_nodup.
  - destruct (IH st self acc Hok) as (self' & removed & He & Hok' & (R1 & R2 & R3 & R4 & R5)); [lia|].
    assert (forall h b, blocks self !! h = Some b -> block_parent_hash b <> p) as Hno.
    { intros h b Hb Hpar. destruct Hp as [_ Hp]. assert (in_index (parent_to_child self) p h) as (s & Hs & _); [|congruence].
      apply Hp. split; [intros []|eauto]. }
    pose proof (descends_childless (blocks self) p st Hno) as Hdc.
    exists self', removed. split_and!; [done|done|]. split_and!; [| |done| |done].
    + intros h b. by rewrite R1, Hdc.
    + intros b. by rewrite R2, Hdc.
    + intros l1 b l2 Hl. destruct (R4 l1 b l2 Hl) as [?|?]; [left; by right|by right].
Qed.

Lemma descends_same bs ps ps' h : (forall x, x ∈ ps <-> x ∈ ps') -> descends bs ps h <-> descends bs ps' h.
Proof.
  intros Hps. split; (induction 1 as [h b Hb Hp|h b Hb _ IH]; [|by apply (descends_step _ _ h b)]);
    apply (descends_child _ _ h b); [done|by apply Hps|done|by apply Hps].
Qed.

Lemma remove_children_ok self ps : buffer_ok self ->
  exists self' removed, remove_children self ps = Some (self', removed) /\ buffer_ok self' /\
    children_removed ps self self' removed.
Proof.
  intros Hok. destruct (remove_children_loop_ok (S (length ps + size (blocks self))) (reverse ps) self [] Hok)
    as (self' & removed & He & Hok' & (R1 & R2 & R3 & R4 & R5)); [rewrite length_reverse; lia|].
  assert (forall h, descends (blocks self) (reverse ps) h <-> descends (blocks self) ps h) as Hd
    by (intros h; apply descends_same; intros x; apply elem_of_reverse).
  exists self', removed. split_and!; [exact He|done|]. split_and!; [| |done| |done].
  - intros h b. by rewrite R1, Hd.
  - intros b. by rewrite R2, Hd.
  - intros l1 b l2 Hl. destruct (R4 l1 b l2 Hl) as [Hp|?]; [left|by right]. by rewrite elem_of_reverse in Hp.
Qed.

(** Descendants when the block itself is gone. *)
Lemma descends_delete bs p h : descends (delete p bs) [p] h <-> h <> p /\ descends bs [p] h.
Proof.
  split.
  - induction 1 as [h b [? Hb]%lookup_delete_Some Hp|h b [? Hb]%lookup_delete_Some _ [_ IH]].
    + split; [done|]. by apply (descends_child _ _ h b).
    + split; [done|]. by apply (descends_step _ _ h b).
  - intros [Hne Hd]. induction Hd as [h b Hb Hp|h b Hb Hd IH].
    + apply (descends_child _ _ h b); [by rewrite lookup_delete_ne|done].
    + assert (delete p bs !! h = Some b) by (by rewrite lookup_delete_ne).
      destruct (decide (block_parent_hash b = p)) as [Heq|]; [|apply (descends_step _ _ h b); auto].
      apply (descends_child _ _ h b); [done|]. rewrite Heq. by left.
Qed.

(** Descendants when the blocks themselves are gone. *)
Lemma descends_shrink bs bs' ps h :
  (forall x, bs' !! x = if decide (x ∈ ps) then None else bs !! x) -> h ∉ ps ->
  descends bs' ps h <-> descends bs ps h.
Proof.
  intros Hbs' Hh. split.
  - induction 1 as [h b Hb Hp|h b Hb Hd IH]; rewrite Hbs' in Hb; case_decide; try done.
    + by apply (descends_child _ _ h b).
    + apply (descends_step _ _ h b); [done|]. apply IH. intros Hin. apply descends_known in Hd as [c Hc].
      rewrite Hbs', decide_True in Hc by done. done.
  - intros Hd. induction Hd as [h b Hb Hp|h b Hb Hd IH].
    + apply (descends_child _ _ h b); [by rewrite Hbs', decide_False|done].
    + assert (bs' !! h = Some b) by (by rewrite Hbs', decide_False).
      destruct (decide (block_parent_hash b ∈ ps)); [by apply (descends_child _ _ h b)|].
      apply (descends_step _ _ h b); auto.
Qed.

(** What taking a block out with its descendants does. *)
Definition taken_with_children (p : Z) self self' (removed : list B) : Prop :=
  (forall h b, blocks self' !! h = Some b <-> blocks self !! h = Some b /\ h <> p /\ ~ descends (blocks self) [p] h) /\
  (forall b, b ∈ removed <-> blocks self !! block_hash b = Some b /\
     (block_hash b = p \/ descends (blocks self) [p] (block_hash b))) /\
  NoDup (block_hash <$> removed) /\
  (forall l1 b l2, removed = l1 ++ b :: l2 ->
     block_hash b = p \/ block_parent_hash b = p \/ block_parent_hash b ∈ block_hash <$> l1).

Lemma remove_with_children_ok self p : buffer_ok self ->
  exists self' removed, remove_block_with_children self p = Some (self', removed) /\ buffer_ok self' /\
    taken_with_children p self self' removed /\ max_blocks self' = max_blocks self.
Proof.
  intros Hok. pose proof Hok as (Hh & _). unfold remove_block_with_children.
  destruct (remove_block_ok none none self p Hok) as (Hok1 & Hb & Hbs & Hmax).
  destruct (remove_block self p) as [r self1]. simpl in *. subst r.
  destruct (remove_children_ok self1 [p] Hok1) as (self' & removed & -> & Hok' & (R1 & R2 & R3 & R4 & R5)). simpl.
  rewrite Hbs in R1, R2.
  assert (forall b, b ∈ option_list (blocks self !! p) <-> blocks self !! p = Some b) as Hopt.
  { intros b. destruct (blocks self !! p); simpl; set_solver. }
  eexists _, _. split_and!; [done|done| |by rewrite R5]. split_and!.
  - intros h b. rewrite R1, descends_delete, lookup_delete_Some. naive_solver.
  - intros b. rewrite elem_of_app, R2, Hopt, descends_delete, lookup_delete_Some. split.
    + intros [Hp|?]; [|naive_solver]. rewrite (Hh p b Hp). naive_solver.
    + intros [Hp [<-|Hd]]; [by left|]. destruct (decide (block_hash b = p)) as [Heq|]; [|naive_solver].
      left. by rewrite Heq in Hp.
  - rewrite fmap_app. apply NoDup_app. split_and!; [destruct (blocks self !! p); simpl; [apply NoDup_singleton|constructor]| |done].
    intros h (b & -> & Hb%Hopt)%list_elem_of_fmap (b' & Heq & Hb')%list_elem_of_fmap.
    apply R2 in Hb' as [[Hne _]%lookup_delete_Some _]. rewrite (Hh p b Hb) in Heq. by apply Hne.
  - intros l1 b l2 Heq. destruct (blocks self !! p) as [b0|] eqn:E; simpl in Heq.
    + destruct l1 as [|x l1]; simpl in Heq; injection Heq as -> ->; [left; by apply Hh|]. right.
      destruct (R4 l1 b l2 eq_refl) as [Hp%list_elem_of_singleton|Hp]; [by left|right; csimpl; by right].
    + right. destruct (R4 l1 b l2 Heq) as [Hp%list_elem_of_singleton|Hp]; [by left|by right].
Qed.

(** ** Insertion *)

Lemma insert_blocks self b :
  blocks (insert_block self b) =
    match block_queue self with
    | oldest :: _ =>
        if max_blocks self <=? Z.of_nat (length (block_queue self))
        then delete oldest (<[block_hash b := b]> (blocks self)) else <[block_hash b := b]> (blocks self)
    | [] => <[block_hash b := b]> (blocks self)
    end.
Proof.
  unfold insert_block. cbn. destruct (block_queue self) as [|oldest queue]; [by destruct (_ <=? _)|].
  destruct (_ <=? _); [|done]. unfold remove_block. cbn. destruct (<[_ := _]> (blocks self) !! oldest) eqn:E; [done|].
  cbn. by rewrite delete_id.
Qed.

(** The state with the new block, a queue and a limit. *)
Definition added self b (queue : list Z) (limit : Z) : BlockBuffer :=
  mkBlockBuffer (<[block_hash b := b]> (blocks self)) (index_add (block_parent_hash b) (block_hash b) (parent_to_child self))
    (index_add (block_number b) (block_hash b) (earliest_blocks self)) (queue ++ [block_hash b]) limit.

Lemma added_ok self b queue limit :
  buffer_ok self -> (forall c, blocks self !! block_hash b = Some c -> c = b) ->
  (forall x, is_Some (blocks self !! x) -> x ∈ queue) -> Z.of_nat (length queue) + 1 <= Z.max 1 limit ->
  buffer_ok (added self b queue limit).
Proof.
  intros (Hh & Hp & Hn & _) Hsame Hqu Hlen. split_and!; simpl.
  - intros x c [[<- <-]|[_ ?]]%lookup_insert_Some; [done|by apply Hh].
  - apply indexed_insert; [intros e He; by rewrite (Hsame e He)|intros []|done].
  - apply indexed_insert; [intros e He; by rewrite (Hsame e He)|intros []|done].
  - intros x. rewrite elem_of_app, list_elem_of_singleton. destruct (decide (x = block_hash b)) as [->|]; [by right|].
    rewrite lookup_insert_ne by done. auto.
  - rewrite length_app. simpl. lia.
Qed.

Lemma insert_block_ok self b :
  buffer_ok self -> (forall c, blocks self !! block_hash b = Some c -> c = b) ->
  buffer_ok (insert_block self b) /\ max_blocks (insert_block self b) = max_blocks self.
Proof.
  intros Hok Hsame. pose proof Hok as (_ & _ & _ & Hq & Hl).
  destruct (block_queue self) as [|oldest queue] eqn:Equ; unfold insert_block;
    cbn [blocks parent_to_child earliest_blocks block_queue max_blocks]; rewrite Equ.
  { destruct (max_blocks self <=? _); (split; [|done]); apply (added_ok self b []); simpl; auto; lia. }
  destruct (max_blocks self <=? _) eqn:Ef; bools.
  2: { split; [|done]. apply (added_ok self b (oldest :: queue)); cbn [max_blocks]; auto; lia. }
  destruct (remove_block_ok none none (added self b (oldest :: queue) (Z.of_nat (length queue) + 2)) oldest)
    as [Hok2 _]; [apply added_ok; simpl; auto; lia|].
  revert Hok2. unfold remove_block. cbn [added blocks fst snd].
  destruct (<[_ := _]> (blocks self) !! oldest) as [c|] eqn:Ec; cbn [fst snd];
    intros (R1 & R2 & R3 & R4 & _); (split; [|done]); (split_and!; [exact R1|exact R2|exact R3| |]);
    cbn [added remove_from_parent remove_from_earliest_blocks blocks block_queue max_blocks] in *.
  - intros x Hx. specialize (R4 x Hx). apply lookup_delete_is_Some in Hx as [Hne _].
    apply list_elem_of_filter in R4 as [_ R4]. rewrite elem_of_app, list_elem_of_filter. set_solver.
  - rewrite length_app. pose proof (length_filter (fun x => x <> oldest) queue). cbn [length] in *. lia.
  - intros x Hx. specialize (R4 x Hx). apply elem_of_cons in R4 as [->|?]; [|done]. rewrite Ec in Hx. by destruct Hx.
  - rewrite length_app. cbn [length] in *. lia.
Qed.

(** ** Old blocks *)

Lemma pop_old_ok fuel n : forall earliest acc,
  index_nonempty earliest -> (forall k k' h, in_index earliest k h -> in_index earliest k' h -> k = k') ->
  (size earliest < fuel)%nat ->
  exists earliest' hs, pop_old fuel earliest n acc = Some (earliest', acc ++ hs) /\ index_nonempty earliest' /\ NoDup hs /\
    (forall k h, in_index earliest' k h <-> in_index earliest k h /\ n < k) /\
    (forall h, h ∈ hs <-> exists k, k <= n /\ in_index earliest k h).
Proof.
  induction fuel as [|fuel IH]; intros earliest acc Hne Hu Hf; [lia|]. cbn [pop_old].
  destruct (bt_entries earliest) as [|[key s] rest] eqn:E.
  { exists earliest, []. rewrite app_nil_r.
    assert (forall k h, ~ in_index earliest k h) as Hno.
    { intros k h (s & Hs & _). apply elem_of_bt_entries in Hs. rewrite E in Hs. by apply not_elem_of_nil in Hs. }
    split_and!; [done|done|constructor|naive_solver|]. intros h. split; [by intros ?%not_elem_of_nil|naive_solver]. }
  assert (earliest !! key = Some s) as Hkey by (apply elem_of_bt_entries; rewrite E; by left).
  assert (forall k h, in_index earliest k h -> key <= k) as Hmin.
  { intros k h (s' & Hs' & _). apply elem_of_bt_entries in Hs'. pose proof (bt_entries_sorted earliest) as Hsort.
    rewrite E in Hs', Hsort. apply elem_of_cons in Hs' as [[= -> _]|Hs']; [lia|].
    apply StronglySorted_inv in Hsort as [_ Hall]. rewrite Forall_forall in Hall. by apply (Hall _ Hs'). }
  destruct (n <? key) eqn:En; bools.
  { exists earliest, []. rewrite app_nil_r. split_and!; [done|done|constructor| |].
    - intros k h. split; [|naive_solver]. intros Hin. specialize (Hmin k h Hin). split; [done|lia].
    - intros h. split; [by intros ?%not_elem_of_nil|]. intros (k & ? & Hin). specialize (Hmin k h Hin). lia. }
  destruct (IH (delete key earliest) (acc ++ set_order s)) as (earliest' & hs & He & Hne' & Hd & Hin & Hhs).
  - by apply index_nonempty_delete.
  - intros k k' h [_ ?]%in_index_delete [_ ?]%in_index_delete. by eapply Hu.
  - rewrite map_size_delete_Some by eauto. assert (size earliest <> 0%nat) by (apply map_size_ne_0_lookup; eauto). lia.
  - assert (forall h, h ∈ set_order s <-> in_index earliest key h) as Hs.
    { intros h. rewrite elem_of_set_order. unfold in_index. rewrite Hkey. naive_solver. }
    exists earliest', (set_order s ++ hs). rewrite app_assoc. split_and!; [done|done| | |].
    + apply NoDup_app. split_and!; [apply set_order_nodup| |done]. intros h Hh (k & _ & [Hne'' Hk]%in_index_delete)%Hhs.
      apply Hs in Hh. by apply Hne'', (Hu k key h).
    + intros k h. rewrite Hin, in_index_delete. split; [naive_solver|]. intros [? ?]. split; [split; [|done]|done]. intros ->. lia.
    + intros h. rewrite elem_of_app, Hs, Hhs. setoid_rewrite in_index_delete. split.
      * intros [?|(k & ? & _ & ?)]; eauto.
      * intros (k & Hk & Hin'). destruct (decide (k = key)) as [->|]; [by left|right]. eauto.
Qed.

(** The blocks up to a number. *)
Definition old_block self (n h : Z) : Prop := exists b, blocks self !! h = Some b /\ block_number b <= n.

Lemma remove_old_ok self n : buffer_ok self ->
  exists self' hs, remove_old_blocks self n = Some self' /\ buffer_ok self' /\ max_blocks self' = max_blocks self /\
    (forall h, h ∈ hs <-> old_block self n h) /\
    (forall h b, blocks self' !! h = Some b <->
       blocks self !! h = Some b /\ n < block_number b /\ ~ descends (blocks self) hs h).
Proof.
  intros Hok. pose proof Hok as (Hh & Hp & Hn & Hd & Hq). pose proof Hn as [Hne Hni]. unfold remove_old_blocks.
  destruct (pop_old_ok (S (size (earliest_blocks self))) n (earliest_blocks self) []) as (earliest' & hs & -> & Hne' & Hdh & Hin & Hhs).
  { done. }
  { intros k k' h (_ & b & Hb & <-)%Hni (_ & b' & Hb' & <-)%Hni. congruence. }
  { lia. }
  cbn [app mbind option_bind]. set (self1 := mkBlockBuffer _ _ _ _ _).
  assert (forall h, h ∈ hs <-> old_block self n h) as Hold.
  { intros h. rewrite Hhs. unfold old_block. split.
    - intros (k & Hk & (_ & b & Hb & <-)%Hni). eauto.
    - intros (b & Hb & Hle). exists (block_number b). split; [done|]. apply Hni. split; [intros []|eauto]. }
  assert (buffer_ok_but none (fun k => k <= n) self1) as Hok1.
  { split_and!; simpl; [done|done| |done|done]. split; [done|]. intros k h. rewrite Hin, Hni. unfold none. rewrite Z.nle_gt. tauto. }
  destruct (remove_each_ok _ _ hs self1 [] Hok1 Hdh) as (self2 & removed & -> & Hok2 & _ & Hmax & Hbs).
  assert (buffer_ok self2) as Hok2'.
  { destruct Hok2 as (? & ? & Hn2 & ? & ?). split_and!; [done|done| |done|done]. eapply indexed_dead; [|exact Hn2].
    intros h b Hb. simpl. unfold none. split; [|done]. intros Hle. rewrite Hbs in Hb. case_decide as Hc; [done|].
    apply Hc, Hold. exists b. done. }
  destruct (remove_children_ok self2 hs Hok2') as (self' & removed' & -> & Hok' & (R1 & _ & _ & _ & R5)). simpl.
  exists self', hs. split_and!; [done|done|by rewrite R5|done|]. intros h b. rewrite R1, Hbs. case_decide as Hc.
  - apply Hold in Hc as (b' & Hb' & Hle). split; [naive_solver|]. intros (Hb & Hlt & _). rewrite Hb' in Hb. injection Hb as <-. lia.
  - rewrite (descends_shrink (blocks self) (blocks self2) hs h Hbs Hc). split; [|naive_solver].
    intros [Hb Hnd]. split_and!; [done| |done]. apply Z.nle_gt. intros Hle. apply Hc, Hold. by exists b.
Qed.

End buffer.
End Buffer.
