(* ===== verification/BufferClaims.v ===== *)
(** * What the block buffer promises

    Sequences of operations on the buffer of [BlockBuffer], what the two removals
    take out, and the search for the missing parent. *)

From S2P Require Import Prelude Ordered EngineBlocks BlockBuffer.
Import EngineBlocks SimpleChain.

Module BufferClaims.
Import Buffer.

Section claims.
Context {B : Type} `{!BlockTrait B} `{!HashOrder}.
Implicit Types (self : BlockBuffer (B := B)) (b : B).

(** ** Sequences of operations *)

Inductive BufferOp :=
| InsertBlock (b : B)
| RemoveWithChildren (h : Z)
| RemoveOld (number : Z).

Definition apply_op self (op : BufferOp) : option (BlockBuffer (B := B)) :=
  match op with
  | InsertBlock b => Some (insert_block self b)
  | RemoveWithChildren h => '(self, _) ← remove_block_with_children self h; Some self
  | RemoveOld n => remove_old_blocks self n
  end.

Fixpoint run self (ops : list BufferOp) : option (BlockBuffer (B := B)) :=
  match ops with
  | [] => Some self
  | op :: ops => self ← apply_op self op; run self ops
  end.

(** The block that an operation inserts. *)
Definition inserts (op : BufferOp) : option B := match op with InsertBlock b => Some b | _ => None end.

Lemma apply_op_ok self op :
  buffer_ok self -> (forall b, inserts op = Some b -> forall c, blocks self !! block_hash b = Some c -> c = b) ->
  exists self', apply_op self op = Some self' /\ buffer_ok self' /\ max_blocks self' = max_blocks self /\
    forall h b, blocks self' !! h = Some b -> blocks self !! h = Some b \/ inserts op = Some b.
Proof.
  intros Hok Hsame. destruct op as [b|p|n]; simpl in *.
  - destruct (insert_block_ok self b Hok (Hsame b eq_refl)) as [Hok' Hm]. eexists. split_and!; [done..|].
    intros h c. rewrite insert_blocks. intros Hc.
    assert (<[block_hash b := b]> (blocks self) !! h = Some c) as [[_ <-]|[_ ?]]%lookup_insert_Some; [|by right|by left].
    destruct (block_queue self); [done|]. destruct (_ <=? _); [|done]. by apply lookup_delete_Some in Hc as [_ ?].
  - destruct (remove_with_children_ok self p Hok) as (self' & removed & -> & Hok' & (R1 & _) & Hm). simpl.
    exists self'. split_and!; [done..|]. intros h b Hb. left. by apply R1 in Hb as [? _].
  - destruct (remove_old_ok self n Hok) as (self' & hs & -> & Hok' & Hm & _ & R1).
    exists self'. split_and!; [done..|]. intros h b Hb. left. by apply R1 in Hb as [? _].
Qed.

Lemma buffer_run_ok (known : B -> Prop) ops : forall self,
  buffer_ok self -> (forall b b', known b -> known b' -> block_hash b = block_hash b' -> b = b') ->
  (forall h b, blocks self !! h = Some b -> known b) ->
  (forall op b, op ∈ ops -> inserts op = Some b -> known b) ->
  exists self', run self ops = Some self' /\ buffer_ok self' /\ max_blocks self' = max_blocks self.
Proof.
  induction ops as [|op ops IH]; intros self Hok Hinj Hk Hops; [by exists self|]. cbn [run].
  destruct (apply_op_ok self op Hok) as (self1 & -> & Hok1 & Hm & Hb).
  { intros b Hi c Hc. apply Hinj; [eauto|eapply Hops; [by left|done]|]. destruct Hok as (Hh & _). by rewrite (Hh _ _ Hc). }
  simpl. destruct (IH self1 Hok1 Hinj) as (self' & Hr & Hok' & Hm'); [| |exists self'; split_and!; congruence].
  - intros h b [?|?]%Hb; [eauto|]. eapply Hops; [by left|done].
  - intros op' b Hin. apply Hops. by right.
Qed.

Lemma buffer_size self : buffer_ok self -> Z.of_nat (size (blocks self)) <= Z.max 1 (max_blocks self).
Proof.
  intros (_ & _ & _ & Hq & Hl). etrans; [|exact Hl]. apply inj_le. rewrite <- (size_dom (D := gset Z)).
  apply submseteq_length, NoDup_submseteq; [apply NoDup_elements|].
  intros h. rewrite elem_of_elements, elem_of_dom. apply Hq.
Qed.

(** C28: whatever blocks a new buffer is given, in any order and however often, and whatever is taken out of
    it by a parent or by a number, every operation returns; the two indices list exactly
    the buffered blocks, every buffered block is in the eviction queue, and there are at
    most [limit] blocks (or one, if the limit is 0). *)
Theorem buffer_always_ok (limit : Z) (ops : list BufferOp) :
  (forall op op' b b', op ∈ ops -> op' ∈ ops -> inserts op = Some b -> inserts op' = Some b' ->
     block_hash b = block_hash b' -> b = b') ->
  exists self, run (new limit) ops = Some self /\ buffer_ok self /\ Z.of_nat (size (blocks self)) <= Z.max 1 limit.
Proof.
  intros Hinj. destruct (buffer_run_ok (fun b => exists op, op ∈ ops /\ inserts op = Some b) ops (new limit)) as (self & Hr & Hok & Hm).
  - apply buffer_new_ok.
  - intros b b' (op & ? & ?) (op' & ? & ?). by apply (Hinj op op').
  - intros h b. simpl. by rewrite lookup_empty.
  - eauto.
  - exists self. split_and!; [done|done|]. pose proof (buffer_size self Hok) as Hs. by rewrite Hm in Hs.
Qed.

(** C29: the blocks that [remove_block_with_children] returns are the block and its buffered
    descendants, each once, every one after its parent; exactly these leave the buffer. *)
Theorem remove_with_children_exact self (p : Z) :
  buffer_ok self ->
  exists self' removed, remove_block_with_children self p = Some (self', removed) /\ buffer_ok self' /\
    taken_with_children p self self' removed.
Proof.
  intros Hok. destruct (remove_with_children_ok self p Hok) as (self' & removed & ? & ? & ? & _). eauto.
Qed.

(** [remove_old_blocks] keeps the blocks above the number that descend from no block
    up to it, and only them. *)
Theorem remove_old_exact self (n : Z) :
  buffer_ok self ->
  exists self' hs, remove_old_blocks self n = Some self' /\ buffer_ok self' /\
    (forall h, h ∈ hs <-> exists b, blocks self !! h = Some b /\ block_number b <= n) /\
    forall h b, blocks self' !! h = Some b <->
      blocks self !! h = Some b /\ n < block_number b /\ ~ descends (blocks self) hs h.
Proof.
  intros Hok. destruct (remove_old_ok self n Hok) as (self' & hs & ? & ? & _ & ? & ?). by exists self', hs.
Qed.

(** ** The lowest ancestor *)

Lemma lowest_loop_ok self l : forall b fuel,
  ancestors block_parent_hash (blocks self) (block_parent_hash b) l -> (length l < fuel)%nat ->
  lowest_loop fuel self b = Some (List.last l b).
Proof.
  induction l as [|p l IH]; intros b fuel Hl Hf; (destruct fuel as [|fuel]; [simpl in Hf; lia|]); cbn [lowest_loop];
    inversion Hl as [? Hn|? ? ? Hp Hl']; subst.
  - by rewrite Hn.
  - rewrite Hp. rewrite (IH p fuel Hl') by (simpl in Hf; lia). by rewrite last_cons_default.
Qed.

(** When no chain of parents is circular, [lowest_ancestor] returns; it finds nothing exactly when the block is
    not buffered, and otherwise the end of the walk from the block to its parents: a
    buffered block whose own parent is not buffered. *)
Theorem lowest_ancestor_exact self (h : Z) (rank : Z -> nat) :
  ranked block_parent_hash rank (blocks self) ->
  match blocks self !! h with
  | None => lowest_ancestor self h = Some None
  | Some _ => exists b l, lowest_ancestor self h = Some (Some b) /\
      path block_parent_hash (blocks self) h (l ++ [b]) (block_parent_hash b) /\ blocks self !! block_parent_hash b = None
  end.
Proof.
  intros Hr. unfold lowest_ancestor. destruct (blocks self !! h) as [b|] eqn:E; [|done].
  destruct (ancestors_exist _ _ _ Hr (block_parent_hash b)) as (l & Hl & Hlen).
  rewrite (lowest_loop_ok self l b) by (done || lia). simpl.
  destruct (ancestors_split block_parent_hash (blocks self) h (b :: l) (removelast (b :: l)) [List.last l b])
    as (h' & Hp & Hx); [by econstructor| |].
  { rewrite <- (last_cons_default b b). by apply app_removelast_last. }
  inversion Hx as [|? ? ? Hx1 Hx2]; subst. inversion Hx2 as [? Hno|]; subst.
  eexists _, _. split_and!; [done|by eapply path_snoc|done].
Qed.

(** ** A lost block

    When the buffer is full and the block at the front of the queue is given again, the
    insertion evicts the block that it inserts, and the queue keeps a hash without a block. *)
Lemma reinserted_oldest_lost self b (queue : list Z) :
  block_queue self = block_hash b :: queue -> max_blocks self <= Z.of_nat (length (block_queue self)) ->
  blocks (insert_block self b) !! block_hash b = None /\ block_hash b ∈ block_queue (insert_block self b).
Proof.
  intros Hq Hfull. split.
  - rewrite insert_blocks, Hq. rewrite Hq in Hfull. apply Z.leb_le in Hfull. rewrite Hfull. apply lookup_delete_eq.
  - unfold insert_block. simpl. apply elem_of_app. right. by left.
Qed.

End claims.

(** ** Witnesses *)

(** A chain of three blocks 1, 2, 3 above 0 and a fork 4 of block 1, of which 1 is missing. *)
Definition sample_ops : list (BufferOp (B := SimpleBlock)) :=
  [InsertBlock (mkSimple 2 1 2); InsertBlock (mkSimple 3 2 3); InsertBlock (mkSimple 4 1 2)].
Definition sample : BlockBuffer (B := SimpleBlock) := default (new 0) (run (new 3) sample_ops).

Lemma sample_distinct op op' b b' :
  op ∈ sample_ops -> op' ∈ sample_ops -> inserts op = Some b -> inserts op' = Some b' ->
  block_hash b = block_hash b' -> b = b'.
Proof.
  unfold sample_ops. rewrite !elem_of_cons, !elem_of_nil.
  intros [->|[->|[->|[]]]] [->|[->|[->|[]]]]; simpl; intros [= <-] [= <-]; simpl; done.
Qed.

Lemma buffer_always_ok_witness :
  (exists self, run (new 3) sample_ops = Some self /\ buffer_ok self /\ Z.of_nat (size (blocks self)) <= Z.max 1 3) /\
  size (blocks sample) = 3%nat.
Proof. split; [apply buffer_always_ok, sample_distinct|reflexivity]. Defined.

Lemma buffer_sample_ok : buffer_ok sample.
Proof.
  destruct (buffer_run_ok (fun b => exists op, op ∈ sample_ops /\ inserts op = Some b) sample_ops (new 3)) as (self & Hr & Hok & _).
  - apply buffer_new_ok.
  - intros b b' (op & ? & ?) (op' & ? & ?). by apply (sample_distinct op op').
  - intros h b. simpl. by rewrite lookup_empty.
  - eauto.
  - unfold sample. by rewrite Hr.
Qed.

Lemma remove_with_children_exact_witness :
  (exists self' removed, remove_block_with_children sample 1 = Some (self', removed) /\ buffer_ok self' /\
    taken_with_children 1 sample self' removed) /\
  (snd <$> remove_block_with_children sample 1) = Some [mkSimple 4 1 2; mkSimple 2 1 2; mkSimple 3 2 3].
Proof. split; [apply remove_with_children_exact, buffer_sample_ok|reflexivity]. Defined.

Lemma remove_old_exact_witness :
  (exists self' hs, remove_old_blocks sample 2 = Some self' /\ buffer_ok self' /\
    (forall h, h ∈ hs <-> exists b, blocks sample !! h = Some b /\ block_number b <= 2) /\
    forall h b, blocks self' !! h = Some b <->
      blocks sample !! h = Some b /\ 2 < block_number b /\ ~ descends (blocks sample) hs h) /\
  (blocks <$> remove_old_blocks sample 2) = Some ∅.
Proof. split; [apply remove_old_exact, buffer_sample_ok|reflexivity]. Defined.

Lemma sample_ranked : ranked block_parent_hash Z.to_nat (blocks sample).
Proof.
  assert (map_Forall (fun h b => (Z.to_nat (sb_parent b) < Z.to_nat h)%nat) (blocks sample)) as H; [|exact H].
  apply (bool_decide_unpack _). reflexivity.
Qed.

Lemma lowest_ancestor_exact_witness :
  (exists b l, lowest_ancestor sample 3 = Some (Some b) /\
      path block_parent_hash (blocks sample) 3 (l ++ [b]) (block_parent_hash b) /\
      blocks sample !! block_parent_hash b = None) /\
  lowest_ancestor sample 3 = Some (Some (mkSimple 2 1 2)) /\ lowest_ancestor sample 1 = Some None.
Proof. split; [apply (lowest_ancestor_exact sample 3 Z.to_nat sample_ranked)|split; reflexivity]. Defined.

(** The block at the front of the full queue, sent again. *)
Lemma reinserted_oldest_lost_witness :
  blocks (insert_block sample (mkSimple 2 1 2)) !! 2 = None /\ 2 ∈ block_queue (insert_block sample (mkSimple 2 1 2)).
Proof. refine (reinserted_oldest_lost sample (mkSimple 2 1 2) [3; 4] _ _); [reflexivity|vm_compute; discriminate]. Defined.

End BufferClaims.
