(* ===== verification/InvalidHeaders.v ===== *)
(** * Cache of invalid headers

    [crates/engine/tree/src/tree/invalid_headers.rs]: the hashes of headers that are known to be
    invalid, with the invalid ancestor, in a cache that forgets an entry when it is hit
    too often.  The cache itself is [LruMap] of the crate [schnellru], a parameter here. *)

From S2P Require Import Prelude EngineBlocks.
Import EngineBlocks.

(** [LruMap] with the limiter [ByLength]: a map that may drop other entries when one is inserted. *)
Class LruMap (M : Type -> Type) := {
  lru_new : forall {V}, Z -> M V;
  lru_peek : forall {V}, M V -> Z -> option V;
  (** [get] followed by a write through the reference. *)
  lru_update : forall {V}, Z -> (V -> V) -> M V -> M V;
  lru_insert : forall {V}, Z -> V -> M V -> M V;
  lru_remove : forall {V}, Z -> M V -> M V;
  lru_limit : forall {V}, M V -> Z;
  lru_peek_new : forall {V} n k, lru_peek (lru_new n : M V) k = None;
  lru_peek_update : forall {V} k f (m : M V) k',
    lru_peek (lru_update k f m) k' = if decide (k = k') then f <$> lru_peek m k' else lru_peek m k';
  lru_peek_remove : forall {V} k (m : M V) k', lru_peek (lru_remove k m) k' = if decide (k = k') then None else lru_peek m k';
  lru_peek_insert : forall {V} k (v : V) (m : M V), 0 < lru_limit m -> lru_peek (lru_insert k v m) k = Some v;
  lru_peek_insert_some : forall {V} k (v : V) (m : M V) k' v',
    lru_peek (lru_insert k v m) k' = Some v' -> (k' = k /\ v' = v) \/ (k' <> k /\ lru_peek m k' = Some v');
  lru_limit_new : forall {V} n, lru_limit (lru_new n : M V) = n;
  lru_limit_update : forall {V} k f (m : M V), lru_limit (lru_update k f m) = lru_limit m;
  lru_limit_remove : forall {V} k (m : M V), lru_limit (lru_remove k m) = lru_limit m;
  lru_limit_insert : forall {V} k (v : V) (m : M V), lru_limit (lru_insert k v m) = lru_limit m;
}.

Module InvalidHeaders.

Definition INVALID_HEADER_HIT_EVICTION_THRESHOLD : Z := 128.

Record HeaderEntry := mkHeaderEntry { hit_count : Z; header : BlockWithParent }.

Section cache.
Context {M : Type -> Type} `{!LruMap M}.

Abbreviation InvalidHeaderCache := (M HeaderEntry).
Implicit Types (self : InvalidHeaderCache) (h : Z).

Definition new (max_length : Z) : InvalidHeaderCache := lru_new max_length.

Definition insert_entry self h (hdr : BlockWithParent) : InvalidHeaderCache := lru_insert h (mkHeaderEntry 0 hdr) self.

Definition hit (e : HeaderEntry) : HeaderEntry := mkHeaderEntry ((hit_count e + 1) mod 256) (header e).

Definition get self h : option BlockWithParent * InvalidHeaderCache :=
  match lru_peek self h with
  | None => (None, lru_update h hit self)
  | Some e =>
      let self := lru_update h hit self in
      if hit_count (hit e) <? INVALID_HEADER_HIT_EVICTION_THRESHOLD then (Some (header e), self)
      else (None, lru_remove h self)
  end.

Definition insert_with_invalid_ancestor self h (invalid_ancestor : BlockWithParent) : InvalidHeaderCache :=
  match get self h with
  | (None, self) => insert_entry self h invalid_ancestor
  | (Some _, self) => self
  end.

Definition insert self (invalid_ancestor : BlockWithParent) : InvalidHeaderCache :=
  match get self (nh_hash (bwp_block invalid_ancestor)) with
  | (None, self) => insert_entry self (nh_hash (bwp_block invalid_ancestor)) invalid_ancestor
  | (Some _, self) => self
  end.

Lemma insert_is_with_ancestor self a : insert self a = insert_with_invalid_ancestor self (nh_hash (bwp_block a)) a.
Proof. done. Qed.

(** ** What the cache answers *)

(** Every entry has been hit less often than the threshold and is one of the [known] pairs. *)
Definition cache_ok (known : Z -> BlockWithParent -> Prop) self : Prop :=
  forall h e, lru_peek self h = Some e -> 0 <= hit_count e < INVALID_HEADER_HIT_EVICTION_THRESHOLD /\ known h (header e).

Lemma cache_ok_mono (known known' : Z -> BlockWithParent -> Prop) self :
  (forall h a, known h a -> known' h a) -> cache_ok known self -> cache_ok known' self.
Proof. intros Hk Hok h e He. destruct (Hok h e He). auto. Qed.

Lemma hit_small e : 0 <= hit_count e < INVALID_HEADER_HIT_EVICTION_THRESHOLD -> hit_count (hit e) = hit_count e + 1.
Proof. unfold INVALID_HEADER_HIT_EVICTION_THRESHOLD. intros H. simpl. apply Z.mod_small. lia. Qed.

Lemma get_ok known self h : cache_ok known self ->
  cache_ok known (get self h).2 /\ lru_limit (get self h).2 = lru_limit self /\
  (forall a, (get self h).1 = Some a -> known h a) /\
  ((get self h).1 = None -> lru_peek (get self h).2 h = None).
Proof.
  intros Hok. unfold get. destruct (lru_peek self h) as [e|] eqn:E.
  - destruct (Hok h e E) as [Hc Hk]. rewrite (hit_small e Hc). destruct (hit_count e + 1 <? _) eqn:El; bools; simpl.
    + split_and!; [|apply lru_limit_update|by intros a [= <-]|done]. intros h' e'. rewrite lru_peek_update.
      case_decide as Hd; [|apply Hok]. destruct Hd. rewrite E. simpl. intros [= <-]. rewrite (hit_small e Hc). simpl. split; [lia|done].
    + split_and!; [|by rewrite lru_limit_remove, lru_limit_update|done|intros _; by rewrite lru_peek_remove, decide_True].
      intros h' e'. rewrite lru_peek_remove, lru_peek_update. case_decide; [done|apply Hok].
  - simpl. split_and!; [|apply lru_limit_update|done|intros _; by rewrite lru_peek_update, decide_True, E].
    intros h' e'. rewrite lru_peek_update. case_decide as Hd; [|apply Hok]. destruct Hd. by rewrite E.
Qed.

Lemma insert_with_ok known self h a : cache_ok known self ->
  cache_ok (fun k x => known k x \/ (k = h /\ x = a)) (insert_with_invalid_ancestor self h a) /\
  lru_limit (insert_with_invalid_ancestor self h a) = lru_limit self.
Proof.
  intros Hok. unfold insert_with_invalid_ancestor. destruct (get_ok known self h Hok) as (Hg & Hl & _).
  destruct (get self h) as [[x|] self1]; simpl in *.
  - split; [|done]. eapply cache_ok_mono; [|exact Hg]. auto.
  - unfold insert_entry. rewrite lru_limit_insert. split; [|done].
    intros k e [[-> ->]|[_ He]]%lru_peek_insert_some; simpl; [split; [done|by right]|]. destruct (Hg k e He). auto.
Qed.

(** ** Sequences of operations *)

Inductive CacheOp :=
| Get (h : Z)
| Insert (a : BlockWithParent)
| InsertWithAncestor (h : Z) (a : BlockWithParent).

Definition apply_op self (op : CacheOp) : InvalidHeaderCache :=
  match op with
  | Get h => (get self h).2
  | Insert a => insert self a
  | InsertWithAncestor h a => insert_with_invalid_ancestor self h a
  end.

(** The pair that an operation reports as invalid. *)
Definition reports (op : CacheOp) (h : Z) (a : BlockWithParent) : Prop :=
  match op with
  | Get _ => False
  | Insert a' => a = a' /\ h = nh_hash (bwp_block a)
  | InsertWithAncestor h' a' => h = h' /\ a = a'
  end.

Definition run self (ops : list CacheOp) : InvalidHeaderCache := foldl apply_op self ops.

Lemma cache_run_ok ops : forall known self, cache_ok known self ->
  cache_ok (fun h a => known h a \/ exists op, op ∈ ops /\ reports op h a) (run self ops) /\
  lru_limit (run self ops) = lru_limit self.
Proof.
  induction ops as [|op ops IH]; intros known self Hok.
  { split; [|done]. eapply cache_ok_mono; [|exact Hok]. auto. }
  assert (cache_ok (fun h a => known h a \/ reports op h a) (apply_op self op) /\
    lru_limit (apply_op self op) = lru_limit self) as [Hok1 Hl1].
  { destruct op as [h|a|h a]; cbn [apply_op reports].
    - destruct (get_ok known self h Hok) as (Hg & Hl & _). split; [|done]. eapply cache_ok_mono; [|exact Hg]. auto.
    - rewrite insert_is_with_ancestor. destruct (insert_with_ok known self (nh_hash (bwp_block a)) a Hok) as [Hg ?].
      split; [|done]. eapply cache_ok_mono; [|exact Hg]. simpl. intros h x [?|[-> ->]]; auto.
    - destruct (insert_with_ok known self h a Hok) as [Hg ?]. split; [|done]. eapply cache_ok_mono; [|exact Hg].
      simpl. intros k x [?|[-> ->]]; auto. }
  destruct (IH _ _ Hok1) as [Hok' Hl']. split; [|simpl; congruence]. eapply cache_ok_mono; [|exact Hok'].
  simpl. intros h a [[?|?]|(op' & ? & ?)]; [by left|right|right]; [exists op|exists op']; set_solver.
Qed.

(** An answer of the cache is never made up: after any sequence of operations on a new cache, the ancestor
    that [get] returns for a hash was reported for that hash before. *)
Theorem cache_answers_reported (n h : Z) (ops : list CacheOp) (a : BlockWithParent) :
  (get (run (new n) ops) h).1 = Some a -> exists op, op ∈ ops /\ reports op h a.
Proof.
  intros Hg. assert (cache_ok (fun _ _ => False) (new n)) as Hnew.
  { intros k e. unfold new. by rewrite lru_peek_new. }
  destruct (cache_run_ok ops _ _ Hnew) as [Hok _]. destruct (get_ok _ _ h Hok) as (_ & _ & Hk & _).
  by destruct (Hk a Hg) as [[]|?].
Qed.

(** ** Eviction by hits *)

Lemma get_count self h e : lru_peek self h = Some e -> 0 <= hit_count e < INVALID_HEADER_HIT_EVICTION_THRESHOLD ->
  if hit_count e + 1 <? INVALID_HEADER_HIT_EVICTION_THRESHOLD
  then (get self h).1 = Some (header e) /\ lru_peek (get self h).2 h = Some (mkHeaderEntry (hit_count e + 1) (header e))
  else (get self h).1 = None /\ lru_peek (get self h).2 h = None.
Proof.
  intros E Hc. unfold get. rewrite E, (hit_small e Hc). destruct (_ <? _); simpl.
  - rewrite lru_peek_update, decide_True, E by done. split; [done|]. by rewrite <- (hit_small e Hc).
  - by rewrite lru_peek_remove, decide_True.
Qed.

(** [n] further calls of [get] for a hash. *)
Definition gets (n : nat) self h : InvalidHeaderCache := Nat.iter n (fun c => (get c h).2) self.

Lemma gets_count self h e n : lru_peek self h = Some e -> hit_count e = 0 ->
  Z.of_nat n < INVALID_HEADER_HIT_EVICTION_THRESHOLD ->
  lru_peek (gets n self h) h = Some (mkHeaderEntry (Z.of_nat n) (header e)).
Proof.
  intros E H0 Hn. induction n as [|n IH].
  - simpl. rewrite E. destruct e as [c x]. simpl in *. by rewrite H0.
  - change (gets (S n) self h) with (get (gets n self h) h).2. pose proof (get_count (gets n self h) h _ (IH ltac:(lia))) as Hg. cbn [hit_count header] in Hg.
    destruct (_ <? _) eqn:El in Hg; bools; [|lia]. destruct (Hg ltac:(lia)) as [_ ->]. f_equal. f_equal. lia.
Qed.

Lemma inserted_count self h a n : 0 < lru_limit self -> lru_peek self h = None -> (n < 128)%nat ->
  lru_peek (gets n (insert_with_invalid_ancestor self h a) h) h = Some (mkHeaderEntry (Z.of_nat n) a).
Proof.
  intros Hl Hn Hlt. set (self' := insert_with_invalid_ancestor self h a).
  assert (lru_peek self' h = Some (mkHeaderEntry 0 a)) as H0.
  { unfold self', insert_with_invalid_ancestor, get. rewrite Hn. unfold insert_entry. apply lru_peek_insert.
    by rewrite lru_limit_update. }
  apply (gets_count self' h _ n H0); [done|]. unfold INVALID_HEADER_HIT_EVICTION_THRESHOLD. lia.
Qed.

Lemma inserted_answered self h a n : 0 < lru_limit self -> lru_peek self h = None -> (n < 127)%nat ->
  (get (gets n (insert_with_invalid_ancestor self h a) h) h).1 = Some a.
Proof.
  intros Hl Hn Hlt. pose proof (get_count _ h _ (inserted_count self h a n Hl Hn ltac:(lia))) as Hg. cbn [hit_count header] in Hg.
  unfold INVALID_HEADER_HIT_EVICTION_THRESHOLD in Hg. destruct (_ <? _) eqn:El in Hg; bools; [|lia]. by apply Hg; lia.
Qed.

(** C30: a header that is reported when the cache has no answer for it is answered for exactly 127 times in a row; the
    128th question evicts it, so that it can be processed again.  The documentation of the threshold promises one answer more: eviction when the
    header is referenced more than 128 times. *)
Theorem answered_until_threshold self (h : Z) (a : BlockWithParent) :
  0 < lru_limit self -> lru_peek self h = None ->
  (forall n, (n < 127)%nat -> (get (gets n (insert_with_invalid_ancestor self h a) h) h).1 = Some a) /\
  (get (gets 127 (insert_with_invalid_ancestor self h a) h) h).1 = None /\
  lru_peek (gets 128 (insert_with_invalid_ancestor self h a) h) h = None.
Proof.
  intros Hl Hn. split; [intros n; by apply inserted_answered|].
  pose proof (get_count _ h _ (inserted_count self h a 127 Hl Hn ltac:(lia))) as Hg. destruct Hg as [? ?]; done.
Qed.

End cache.

(** ** Witnesses *)

(** An instance: the entries from the most to the least recently used. *)
Record ListLru (V : Type) := mkListLru { ll_limit : Z; ll_entries : list (Z * V) }.
Arguments mkListLru {V}. Arguments ll_limit {V}. Arguments ll_entries {V}.

Section instance.
Context {V : Type}.
Implicit Types (m : ListLru V).

Fixpoint ll_find (l : list (Z * V)) (k : Z) : option V :=
  match l with [] => None | (k', v) :: l => if decide (k' = k) then Some v else ll_find l k end.
Definition ll_drop (k : Z) (l : list (Z * V)) : list (Z * V) := filter (fun e => e.1 <> k) l.

Lemma ll_find_drop l k k' : ll_find (ll_drop k l) k' = if decide (k = k') then None else ll_find l k'.
Proof.
  induction l as [|[x v] l IH]; simpl; [by case_decide|]. unfold ll_drop in *. destruct (decide (x <> k)) as [Hx|Hx].
  - rewrite filter_cons_True by done. simpl. rewrite IH. repeat case_decide; congruence.
  - rewrite filter_cons_False by done. rewrite IH. repeat case_decide; try done. apply dec_stable in Hx. congruence.
Qed.

Lemma ll_find_take l n k v : ll_find (take n l) k = Some v -> ll_find l k = Some v.
Proof.
  revert n. induction l as [|[x w] l IH]; intros [|n]; simpl; try done. case_decide; [done|apply IH].
Qed.
End instance.

#[local] Program Instance list_lru : LruMap ListLru := {|
  lru_new := fun V n => mkListLru n [];
  lru_peek := fun V m k => ll_find (ll_entries m) k;
  lru_update := fun V k f m =>
    match ll_find (ll_entries m) k with
    | Some v => mkListLru (ll_limit m) ((k, f v) :: ll_drop k (ll_entries m))
    | None => m
    end;
  lru_insert := fun V k v m => mkListLru (ll_limit m) (take (Z.to_nat (ll_limit m)) ((k, v) :: ll_drop k (ll_entries m)));
  lru_remove := fun V k m => mkListLru (ll_limit m) (ll_drop k (ll_entries m));
  lru_limit := fun V m => ll_limit m;
|}.
Next Obligation. done. Qed.
Next Obligation.
  intros V k f m k'. simpl. destruct (ll_find (ll_entries m) k) eqn:E; simpl.
  - destruct (decide (k = k')) as [->|]; [by rewrite E|]. rewrite ll_find_drop. by rewrite decide_False.
  - case_decide as Hd; [|done]. destruct Hd. by rewrite E.
Qed.
Next Obligation. intros V k m k'. simpl. apply ll_find_drop. Qed.
Next Obligation.
  intros V k v m Hl. simpl. destruct (Z.to_nat (ll_limit m)) eqn:E; [lia|]. simpl. by rewrite decide_True.
Qed.
Next Obligation.
  intros V k v m k' v' H%ll_find_take. simpl in H. case_decide as Hd; [injection H as <-; by left|].
  rewrite ll_find_drop, decide_False in H by done. right. split; [congruence|done].
Qed.
Next Obligation. done. Qed.
Next Obligation. intros V k f m. simpl. by destruct (ll_find _ _). Qed.
Next Obligation. done. Qed.
Next Obligation. done. Qed.

Definition sample_ancestor : BlockWithParent := mkBlockWithParent 6 (mkNumHash 10 7).

Lemma cache_answers_reported_witness :
  exists op, op ∈ [Insert sample_ancestor; InsertWithAncestor 8 sample_ancestor; Get 7] /\ reports op 8 sample_ancestor.
Proof. apply (cache_answers_reported (M := ListLru) 10 8). reflexivity. Defined.

Lemma answered_until_threshold_witness :
  (forall n, (n < 127)%nat ->
     (get (gets n (insert_with_invalid_ancestor (new (M := ListLru) 10) 8 sample_ancestor) 8) 8).1 = Some sample_ancestor) /\
  (get (gets 127 (insert_with_invalid_ancestor (new (M := ListLru) 10) 8 sample_ancestor) 8) 8).1 = None /\
  lru_peek (gets 128 (insert_with_invalid_ancestor (new (M := ListLru) 10) 8 sample_ancestor) 8) 8 = None.
Proof. apply answered_until_threshold; reflexivity. Defined.

End InvalidHeaders.
