(* ===== verification/TreeState.v ===== *)
(** * State of the engine tree

    [crates/engine/tree/src/tree/state.rs]: the executed blocks in memory, by hash and by number, the
    children of each, the trie updates of persisted blocks, and the canonical head;
    with what of [crates/chain-state/src/in_memory.rs] and [crates/engine/tree/src/engine.rs] it uses. *)

From S2P Require Import Prelude Ordered EngineBlocks.
Import EngineBlocks.

Module Tree.

Inductive EngineApiKind := Ethereum | OpStack.
Definition is_opstack (k : EngineApiKind) : bool := match k with OpStack => true | Ethereum => false end.

(** Trie updates of a block; [T] is the type of the updates. *)
Inductive ExecutedTrieUpdates (T : Type) :=
| Present (updates : T)
| Missing.
Arguments Present {T}. Arguments Missing {T}.

(** [take_present]: the updates, and what is left behind. *)
Definition take_present {T} (t : ExecutedTrieUpdates T) : option T * ExecutedTrieUpdates T :=
  match t with
  | Present updates => (Some updates, Missing)
  | Missing => (None, Missing)
  end.

Record ExecutedBlockWithTrieUpdates (B T : Type) := mkExecuted { block : B; trie : ExecutedTrieUpdates T }.
Arguments mkExecuted {B T}. Arguments block {B T}. Arguments trie {B T}.

(** An executed block is seen through the block in it. *)
#[global] Instance executed_block_trait {B T} `{!BlockTrait B} : BlockTrait (ExecutedBlockWithTrieUpdates B T) := {|
  block_hash := fun e => block_hash (block e);
  block_parent_hash := fun e => block_parent_hash (block e);
  block_number := fun e => block_number (block e);
|}.

(** [Vec::swap_remove], for an index in the vector. *)
Definition swap_remove {A} (i : nat) (l : list A) : list A :=
  match last l with
  | Some x => take (pred (length l)) (<[i := x]> l)
  | None => l
  end.

(** [iter().position(|b| p(b))]. *)
Fixpoint position {A} (p : A -> bool) (l : list A) : option nat :=
  match l with
  | [] => None
  | x :: l => if p x then Some 0%nat else S <$> position p l
  end.

Section tree.
Context {B T : Type} `{!BlockTrait B} `{!HashOrder}.
(** The slots of an epoch ([alloy_eips::merge::EPOCH_SLOTS]). *)
Context (EPOCH_SLOTS : Z).

Definition DEFAULT_PERSISTED_TRIE_UPDATES_RETENTION : Z := wrap_u64 (EPOCH_SLOTS * 2).
Definition OPSTACK_PERSISTED_TRIE_UPDATES_RETENTION : Z := EPOCH_SLOTS.

Abbreviation Executed := (ExecutedBlockWithTrieUpdates B T).

Record TreeState := mkTreeState {
  blocks_by_hash : gmap Z Executed;
  blocks_by_number : gmap Z (list Executed);
  parent_to_child : Index;
  persisted_trie_updates : gmap Z (Z * T);
  current_canonical_head : BlockNumHash;
  engine_kind : EngineApiKind;
}.
Implicit Types (self : TreeState) (e : Executed) (h : Z).

Definition new (head : BlockNumHash) (kind : EngineApiKind) : TreeState := mkTreeState ∅ ∅ ∅ ∅ head kind.
Definition reset self (head : BlockNumHash) : TreeState := new head (engine_kind self).
Definition block_count self : Z := Z.of_nat (size (blocks_by_hash self)).
Definition executed_block_by_hash self h : option Executed := blocks_by_hash self !! h.
Definition sealed_header_by_hash self h : option B := block <$> blocks_by_hash self !! h.

(** The loop of the method [blocks_by_hash]. *)
Fixpoint blocks_by_hash_loop (fuel : nat) self (parent_hash : Z) (acc : list Executed) : option (Z * list Executed) :=
  match fuel with
  | O => None
  | S fuel =>
      match blocks_by_hash self !! parent_hash with
      | Some executed => blocks_by_hash_loop fuel self (block_parent_hash executed) (acc ++ [executed])
      | None => Some (parent_hash, acc)
      end
  end.
(** The outer option is the fuel. *)
Definition chain_by_hash self h : option (option (Z * list Executed)) :=
  match blocks_by_hash self !! h with
  | None => Some None
  | Some b => r ← blocks_by_hash_loop (S (size (blocks_by_hash self))) self (block_parent_hash b) [b]; Some (Some r)
  end.

Definition retain_known (blocks : gmap Z Executed) (m : Index) : Index :=
  (fun children => filter (fun child => is_Some (blocks !! child)) children) <$> m.

Definition insert_executed self e : TreeState :=
  match blocks_by_hash self !! block_hash e with
  | Some _ => self
  | None =>
      let blocks := <[block_hash e := e]> (blocks_by_hash self) in
      mkTreeState blocks
        (<[block_number e := default [] (blocks_by_number self !! block_number e) ++ [e]]> (blocks_by_number self))
        (retain_known blocks (index_add (block_parent_hash e) (block_hash e) (parent_to_child self)))
        (persisted_trie_updates self) (current_canonical_head self) (engine_kind self)
  end.

(** The last part of [remove_by_hash]. *)
Definition remove_from_number (number h : Z) (m : gmap Z (list Executed)) : gmap Z (list Executed) :=
  match m !! number with
  | None => m
  | Some l =>
      match position (fun b => bool_decide (block_hash b = h)) l with
      | None => m
      | Some index =>
          match swap_remove index l with
          | [] => delete number m
          | l => <[number := l]> m
          end
      end
  end.

Definition remove_by_hash self h : option (Executed * gset Z) * TreeState :=
  match blocks_by_hash self !! h with
  | None => (None, self)
  | Some executed =>
      let p2c := index_del (block_parent_hash executed) h (parent_to_child self) in
      let children := default ∅ (p2c !! h) in
      (Some (executed, children),
       mkTreeState (delete h (blocks_by_hash self))
         (remove_from_number (block_number executed) h (blocks_by_number self)) (delete h p2c)
         (persisted_trie_updates self) (current_canonical_head self) (engine_kind self))
  end.

Fixpoint is_canonical_loop (fuel : nat) self (current_block h : Z) : option bool :=
  match fuel with
  | O => None
  | S fuel =>
      match blocks_by_hash self !! current_block with
      | Some executed =>
          let current_block := block_parent_hash executed in
          if current_block =? h then Some true else is_canonical_loop fuel self current_block h
      | None => Some false
      end
  end.
Definition is_canonical self h : option bool :=
  let current_block := nh_hash (current_canonical_head self) in
  if current_block =? h then Some true
  else is_canonical_loop (S (size (blocks_by_hash self))) self current_block h.

Definition insert_persisted self h (u : Z * T) : TreeState :=
  mkTreeState (blocks_by_hash self) (blocks_by_number self) (parent_to_child self)
    (<[h := u]> (persisted_trie_updates self)) (current_canonical_head self) (engine_kind self).

Fixpoint remove_canonical_loop (fuel : nat) self (upper_bound current_block : Z) : option TreeState :=
  match fuel with
  | O => None
  | S fuel =>
      match blocks_by_hash self !! current_block with
      | None => Some self
      | Some executed =>
          let current_block := block_parent_hash executed in
          if block_number executed <=? upper_bound then
            match remove_by_hash self (block_hash executed) with
            | (Some (removed, _), self) =>
                match (take_present (trie removed)).1 with
                | None => remove_canonical_loop fuel self upper_bound current_block
                | Some trie_updates =>
                    remove_canonical_loop fuel
                      (insert_persisted self (block_hash removed) (block_number removed, trie_updates)) upper_bound current_block
                end
            | (None, self) => remove_canonical_loop fuel self upper_bound current_block
            end
          else remove_canonical_loop fuel self upper_bound current_block
      end
  end.
Definition remove_canonical_until self (upper_bound last_persisted_hash : Z) : option TreeState :=
  canonical ← is_canonical self last_persisted_hash;
  if (canonical : bool)
  then remove_canonical_loop (S (size (blocks_by_hash self))) self upper_bound (nh_hash (current_canonical_head self))
  else Some self.

Definition prune_persisted_trie_updates self : TreeState :=
  let retention_blocks := if is_opstack (engine_kind self) then OPSTACK_PERSISTED_TRIE_UPDATES_RETENTION
                          else DEFAULT_PERSISTED_TRIE_UPDATES_RETENTION in
  let earliest_block_to_retain := Z.max 0 (nh_number (current_canonical_head self) - retention_blocks) in
  mkTreeState (blocks_by_hash self) (blocks_by_number self) (parent_to_child self)
    (filter (fun x => earliest_block_to_retain < x.2.1) (persisted_trie_updates self))
    (current_canonical_head self) (engine_kind self).

(** [for hash in hs { self.remove_by_hash(hash) }]. *)
Definition remove_all self (hs : list Z) : TreeState := foldl (fun self h => (remove_by_hash self h).2) self hs.

Fixpoint remove_queue (fuel : nat) self (blocks_to_remove : list Z) : option TreeState :=
  match fuel with
  | O => None
  | S fuel =>
      match blocks_to_remove with
      | [] => Some self
      | block :: blocks_to_remove =>
          match remove_by_hash self block with
          | (Some (_, children), self) => remove_queue fuel self (blocks_to_remove ++ set_order children)
          | (None, self) => remove_queue fuel self blocks_to_remove
          end
      end
  end.

Definition set_by_number self (m : gmap Z (list Executed)) : TreeState :=
  mkTreeState (blocks_by_hash self) m (parent_to_child self) (persisted_trie_updates self)
    (current_canonical_head self) (engine_kind self).

(** The hashes of the blocks below a number. *)
Definition hashes_below self (number : Z) : list Z :=
  mjoin ((fun x : Z * list Executed => block_hash <$> x.2) <$> filter (fun x => x.1 < number) (bt_entries (blocks_by_number self))).

(** [position] and [swap_remove] of the block with a hash: the block, and the blocks that are left. *)
Definition take_block h (l : list Executed) : option Executed * list Executed :=
  match position (fun b => bool_decide (block_hash b = h)) l with
  | Some i => (l !! i, swap_remove i l)
  | None => (None, l)
  end.

Definition prune_finalized_sidechains self (finalized : BlockNumHash) : option TreeState :=
  let self := remove_all self (hashes_below self (nh_number finalized)) in
  let self := prune_persisted_trie_updates self in
  let blocks_to_remove : list Executed := default [] (blocks_by_number self !! nh_number finalized) in
  let self := set_by_number self (delete (nh_number finalized) (blocks_by_number self)) in
  let taken := take_block (nh_hash finalized) blocks_to_remove in
  let self :=
    match taken.1 with
    | Some finalized_block => set_by_number self (<[nh_number finalized := [finalized_block]]> (blocks_by_number self))
    | None => self
    end in
  let blocks_to_remove : list Z := block_hash <$> taken.2 in
  remove_queue (S (length blocks_to_remove + size (blocks_by_hash self))) self blocks_to_remove.

Definition remove_until self (upper_bound : BlockNumHash) (last_persisted_hash : Z) (finalized : option BlockNumHash) : option TreeState :=
  let finalized := (fun f => if nh_number upper_bound <? nh_number f then upper_bound else f) <$> finalized in
  self ← remove_canonical_until self (nh_number upper_bound) last_persisted_hash;
  match finalized with
  | Some f => prune_finalized_sidechains self f
  | None => Some self
  end.

Fixpoint is_descendant_loop (fuel : nat) self (first : BlockNumHash) (current_block : Executed) : option bool :=
  match fuel with
  | O => None
  | S fuel =>
      if wrap_u64 (nh_number first + 1) <? block_number current_block then
        match blocks_by_hash self !! block_parent_hash current_block with
        | None => Some false
        | Some block => is_descendant_loop fuel self first block
        end
      else Some (block_parent_hash current_block =? nh_hash first)
  end.
Definition is_descendant self (first : BlockNumHash) (second : BlockWithParent) : option bool :=
  if bwp_parent second =? nh_hash first then Some true
  else if nh_number (bwp_block second) <=? nh_number first then Some false
  else match blocks_by_hash self !! bwp_parent second with
       | None => Some false
       | Some current_block => is_descendant_loop (S (size (blocks_by_hash self))) self first current_block
       end.

Definition set_canonical_head self (new_head : BlockNumHash) : TreeState :=
  mkTreeState (blocks_by_hash self) (blocks_by_number self) (parent_to_child self) (persisted_trie_updates self)
    new_head (engine_kind self).

(** What persisting does to the tree: the trie updates of a block, computed late, are stored
    with it ([get_canonical_blocks_to_persist] of the handler). *)
Definition set_trie_updates self h (updates : T) : TreeState :=
  mkTreeState (alter (fun e => mkExecuted (block e) (Present updates)) h (blocks_by_hash self)) (blocks_by_number self)
    (parent_to_child self) (persisted_trie_updates self) (current_canonical_head self) (engine_kind self).

Definition canonical_head self : BlockNumHash := current_canonical_head self.
Definition canonical_block_hash self : Z := nh_hash (canonical_head self).
Definition canonical_block_number self : Z := nh_number (canonical_head self).

End tree.
End Tree.
