(* ===== verification/TreeProps.v ===== *)
(** * Invariant of the tree state

    The maps of [TreeState] agree: the blocks by number are the blocks by hash, a child in the
    children map is a known block with that parent.  Every operation keeps them so. *)

From S2P Require Import Prelude Ordered EngineBlocks TreeState.
Import EngineBlocks.

Module TreeProps.
Import Tree.

(** ** Vectors *)

Lemma swap_remove_perm {A} (l : list A) i x : l !! i = Some x -> l ≡ₚ x :: swap_remove i l.
Proof.
  intros Hi. unfold swap_remove. destruct l as [|y l _] using rev_ind; [done|].
  rewrite last_snoc. rewrite length_app, Nat.add_comm. simpl pred.
  apply lookup_app_Some in Hi as [Hi|[Hlen Hi]].
  - pose proof (lookup_lt_Some _ _ _ Hi) as Hlt.
    rewrite insert_app_l by done. rewrite take_app_le, take_ge by (rewrite length_insert; lia).
    destruct (list_elem_of_split_length _ _ _ Hi) as (l1 & l2 & -> & ->).
    rewrite insert_app_r_alt, Nat.sub_diag by lia. simpl. solve_Permutation.
  - apply list_lookup_singleton_Some in Hi as [Hi <-]. assert (i = length l) as -> by lia.
    rewrite list_insert_id by (rewrite lookup_app_r, Nat.sub_diag by done; done). rewrite take_app_length.
    by rewrite Permutation_app_comm.
Qed.

Lemma position_Some {A} (p : A -> bool) l i : position p l = Some i -> exists x, l !! i = Some x /\ p x = true.
Proof.
  revert i. induction l as [|y l IH]; intros i; simpl; [done|]. destruct (p y) eqn:E; [intros [= <-]; eauto|].
  intros (j & Hj & ->)%fmap_Some. by apply IH.
Qed.

Lemma position_None {A} (p : A -> bool) l x : position p l = None -> x ∈ l -> p x = false.
Proof.
  induction l as [|y l IH]; simpl; [by intros _ ?%not_elem_of_nil|]. destruct (p y) eqn:E; [done|].
  rewrite fmap_None. intros Hn [->|Hx]%elem_of_cons; auto.
Qed.

Section tree.
Context {B T : Type} `{!BlockTrait B} `{!HashOrder} (EPOCH_SLOTS : Z).
Abbreviation Executed := (ExecutedBlockWithTrieUpdates B T).
Implicit Types (self : TreeState (B := B) (T := T)) (e : Executed) (h : Z) (blocks : gmap Z Executed)
  (m : gmap Z (list Executed)).

(** ** Blocks by number *)

Definition at_number m (n h : Z) : Prop := exists l, m !! n = Some l /\ h ∈ block_hash <$> l.

(** The blocks by number have the hashes of the blocks, except for the dead ones. *)
Definition numbered (dead : Z -> Prop) m blocks : Prop :=
  (forall n l, m !! n = Some l -> l <> [] /\ NoDup (block_hash <$> l)) /\
  forall n h, at_number m n h <-> ~ dead h /\ exists e, blocks !! h = Some e /\ block_number e = n.

Definition hashes_ok blocks : Prop := forall h e, blocks !! h = Some e -> block_hash e = h.

Lemma numbered_dead (dead dead' : Z -> Prop) m blocks :
  (forall h, is_Some (blocks !! h) -> dead h <-> dead' h) -> numbered dead m blocks -> numbered dead' m blocks.
Proof.
  intros Hd [Hne Hm]. split; [done|]. intros n h. rewrite Hm.
  split; intros (Hn & e & He & ?); pose proof (Hd h ltac:(eauto)); (split; [tauto|eauto]).
Qed.

(** Only the numbers of the blocks matter. *)
Lemma numbered_same dead m blocks blocks' :
  (forall h, block_number <$> blocks' !! h = block_number <$> blocks !! h) -> numbered dead m blocks -> numbered dead m blocks'.
Proof.
  intros Hs [Hne Hm]. split; [done|]. intros n h. rewrite Hm. specialize (Hs h).
  destruct (blocks !! h), (blocks' !! h); simpl in Hs; try done; naive_solver congruence.
Qed.

Lemma numbered_empty dead : numbered dead ∅ ∅.
Proof.
  split; [intros n l; by rewrite lookup_empty|]. intros n h. unfold at_number.
  split; [intros (l & Hl & _)|intros (_ & e & He & _)]; by rewrite lookup_empty in *.
Qed.

Lemma at_number_default m n h : at_number m n h <-> h ∈ block_hash <$> default [] (m !! n).
Proof.
  unfold at_number. destruct (m !! n) as [l|]; simpl; [naive_solver|]. split; [naive_solver|by intros ?%not_elem_of_nil].
Qed.

Lemma numbered_insert dead m blocks e :
  blocks !! block_hash e = None -> ~ dead (block_hash e) -> numbered dead m blocks ->
  numbered dead (<[block_number e := default [] (m !! block_number e) ++ [e]]> m) (<[block_hash e := e]> blocks).
Proof.
  intros Hnew Hdead [Hne Hm]. set (n0 := block_number e). split.
  - intros n l [[<- <-]|[_ Hl]]%lookup_insert_Some; [|by apply (Hne n)]. split; [by destruct (default [] (m !! n0))|].
    rewrite fmap_app. apply NoDup_app. split_and!; [| |apply NoDup_singleton].
    + destruct (m !! n0) as [l|] eqn:E; [by apply (Hne n0)|constructor].
    + intros h (_ & x & Hx & _)%at_number_default%Hm ->%list_elem_of_singleton. congruence.
  - intros n h. rewrite at_number_default. destruct (decide (n = n0)) as [->|Hn].
    + rewrite lookup_insert_eq. cbn [from_option id]. rewrite fmap_app, elem_of_app, <- at_number_default, Hm.
      cbn [fmap list_fmap]. rewrite list_elem_of_singleton. setoid_rewrite lookup_insert_Some. split.
      * intros [(? & x & Hx & ?)| ->]; [|by eauto 10]. split; [done|]. exists x. split; [right; split; [congruence|done]|done].
      * intros (? & x & [[<- _]|[_ ?]] & ?); [by right|left; eauto].
    + rewrite lookup_insert_ne, <- at_number_default, Hm by done. setoid_rewrite lookup_insert_Some. split.
      * intros (? & x & Hx & ?). split; [done|]. exists x. split; [right; split; [congruence|done]|done].
      * intros (? & x & [[_ <-]|[_ ?]] & ?); [done|eauto].
Qed.

Lemma numbered_remove dead m blocks h e :
  blocks !! h = Some e -> numbered dead m blocks ->
  numbered dead (remove_from_number (block_number e) h m) (delete h blocks).
Proof.
  intros He [Hne Hm]. set (n0 := block_number e). set (m' := remove_from_number n0 h m).
  assert (forall n, at_number m n h -> n = n0) as Hn0 by (intros n (_ & x & Hx & <-)%Hm; by simplify_eq).
  assert (forall n l, m' !! n = Some l -> l <> [] /\ NoDup (block_hash <$> l)) as Hne'.
  { intros n l. unfold m', remove_from_number. destruct (m !! n0) as [l0|] eqn:E0; [|apply Hne].
    destruct (position _ l0) as [i|] eqn:Ep; [|apply Hne]. apply position_Some in Ep as (x & Hx & _).
    destruct (Hne n0 l0 E0) as [_ Hnd]. rewrite (swap_remove_perm _ _ _ Hx), fmap_cons in Hnd. apply NoDup_cons in Hnd as [_ Hnd].
    destruct (swap_remove i l0) as [|y l1]; [intros [_ ?]%lookup_delete_Some; by apply (Hne n)|].
    intros [[_ <-]|[_ ?]]%lookup_insert_Some; [done|by apply (Hne n)]. }
  split; [done|]. intros n x.
  assert (at_number m' n x <-> at_number m n x /\ x <> h) as ->.
  2: { rewrite Hm. setoid_rewrite lookup_delete_Some. naive_solver. }
  unfold m', remove_from_number. destruct (m !! n0) as [l0|] eqn:E0.
  2: { split; [|tauto]. intros Hx. split; [done|]. intros ->. pose proof (Hn0 n Hx) as ->. destruct Hx as (l & Hl & _). congruence. }
  destruct (position _ l0) as [i|] eqn:Ep.
  2: { split; [|tauto]. intros Hx. split; [done|]. intros ->. pose proof (Hn0 n Hx) as ->. destruct Hx as (l & Hl & Hin).
       simplify_eq. apply list_elem_of_fmap in Hin as (y & Hy & Hin). apply (position_None _ _ _ Ep) in Hin. bools. congruence. }
  apply position_Some in Ep as (y & Hy & Hyh). bools. pose proof (swap_remove_perm _ _ _ Hy) as Hperm.
  destruct (Hne n0 l0 E0) as [_ Hnd]. rewrite Hperm, fmap_cons in Hnd. apply NoDup_cons in Hnd as [Hni _]. rewrite Hyh in Hni.
  destruct (decide (n = n0)) as [->|Hn].
  - transitivity (x ∈ block_hash <$> swap_remove i l0).
    + destruct (swap_remove i l0) as [|z l1]; unfold at_number; [rewrite lookup_delete_eq|rewrite lookup_insert_eq].
      * split; [naive_solver|by intros ?%not_elem_of_nil].
      * naive_solver.
    + rewrite at_number_default, E0. cbn [from_option id]. rewrite (fmap_Permutation block_hash _ _ Hperm), fmap_cons, elem_of_cons, Hyh.
      split; [|tauto]. intros Hin. split; [by right|]. by intros ->.
  - assert (forall l, (match l with [] => delete n0 m | y :: k => <[n0 := y :: k]> m end) !! n = m !! n) as Hsame.
    { intros [|? ?]; [by rewrite lookup_delete_ne|by rewrite lookup_insert_ne]. }
    unfold at_number. rewrite Hsame. split; [|tauto]. intros Hx. split; [done|]. intros ->. by apply Hn, Hn0.
Qed.

(** ** The invariant *)

Definition children_sound (p2c : Index) blocks : Prop :=
  forall p c, in_index p2c p c -> exists e, blocks !! c = Some e /\ block_parent_hash e = p.

Definition tree_ok_but (dead : Z -> Prop) self : Prop :=
  hashes_ok (blocks_by_hash self) /\ children_sound (parent_to_child self) (blocks_by_hash self) /\
  numbered dead (blocks_by_number self) (blocks_by_hash self).

Definition nothing (h : Z) : Prop := False.
Definition tree_ok self : Prop := tree_ok_but nothing self.

Lemma tree_new_ok head kind : tree_ok (new head kind).
Proof.
  split_and!; [done| |apply numbered_empty]. intros p c (s & Hs & _). simpl in Hs. by rewrite lookup_empty in Hs.
Qed.

(** ** Removal of a block *)

Lemma remove_by_hash_blocks self h :
  blocks_by_hash (remove_by_hash self h).2 = delete h (blocks_by_hash self).
Proof. unfold remove_by_hash. destruct (blocks_by_hash self !! h) eqn:E; [done|]. simpl. by rewrite delete_id. Qed.

Lemma remove_by_hash_index self h e p c :
  blocks_by_hash self !! h = Some e ->
  in_index (parent_to_child (remove_by_hash self h).2) p c <->
  p <> h /\ in_index (parent_to_child self) p c /\ ~ (p = block_parent_hash e /\ c = h).
Proof. intros E. unfold remove_by_hash. rewrite E. simpl. rewrite in_index_delete, in_index_del. tauto. Qed.

Lemma remove_by_hash_ok dead self h : tree_ok_but dead self -> tree_ok_but dead (remove_by_hash self h).2.
Proof.
  intros (Hh & Hc & Hn). destruct (blocks_by_hash self !! h) as [e|] eqn:E.
  2: { unfold remove_by_hash. by rewrite E. }
  split_and!.
  - rewrite remove_by_hash_blocks. intros k x [_ ?]%lookup_delete_Some. by apply Hh.
  - rewrite remove_by_hash_blocks. intros p c (Hp & Hin & Hne)%(remove_by_hash_index _ _ e); [|done].
    destruct (Hc p c Hin) as (x & Hx & Hpx). exists x. split; [|done]. apply lookup_delete_Some. split; [|done].
    intros <-. rewrite E in Hx. injection Hx as <-. naive_solver.
  - unfold remove_by_hash. rewrite E. simpl. by apply numbered_remove.
Qed.

Lemma remove_by_hash_rest self h :
  persisted_trie_updates (remove_by_hash self h).2 = persisted_trie_updates self /\
  current_canonical_head (remove_by_hash self h).2 = current_canonical_head self /\
  engine_kind (remove_by_hash self h).2 = engine_kind self.
Proof. unfold remove_by_hash. by destruct (blocks_by_hash self !! h). Qed.

(** The children that it returns. *)
Lemma remove_by_hash_children self h e :
  blocks_by_hash self !! h = Some e ->
  exists children, (remove_by_hash self h).1 = Some (e, children) /\
    forall c, c ∈ children <-> in_index (parent_to_child self) h c /\ ~ (h = block_parent_hash e /\ c = h).
Proof.
  intros E. unfold remove_by_hash. rewrite E. simpl. eexists. split; [done|]. intros c.
  rewrite <- in_index_default, in_index_del. done.
Qed.

(** ** Insertion *)

Lemma in_index_retain blocks (p2c : Index) p c :
  in_index (retain_known blocks p2c) p c <-> in_index p2c p c /\ is_Some (blocks !! c).
Proof.
  unfold in_index, retain_known. setoid_rewrite lookup_fmap. split.
  - intros (s & (s' & -> & ->)%fmap_Some & [? ?]%elem_of_filter). eauto.
  - intros ((s & Hs & Hin) & Hk). eexists. rewrite Hs. split; [done|]. by apply elem_of_filter.
Qed.

Lemma insert_executed_blocks self e :
  blocks_by_hash (insert_executed self e) =
    match blocks_by_hash self !! block_hash e with
    | Some _ => blocks_by_hash self
    | None => <[block_hash e := e]> (blocks_by_hash self)
    end.
Proof. unfold insert_executed. by destruct (blocks_by_hash self !! block_hash e). Qed.

Lemma insert_executed_ok self e : tree_ok self -> tree_ok (insert_executed self e).
Proof.
  intros (Hh & Hc & Hn). unfold insert_executed. destruct (blocks_by_hash self !! block_hash e) eqn:E; [done|].
  split_and!; simpl.
  - intros h x [[<- <-]|[_ ?]]%lookup_insert_Some; [done|by apply Hh].
  - intros p c [[[-> ->]|Hin]%in_index_add Hk]%in_index_retain.
    + exists e. by rewrite lookup_insert_eq.
    + destruct (Hc p c Hin) as (x & Hx & Hp). exists x. split; [|done]. rewrite lookup_insert_ne; [done|]. congruence.
  - apply numbered_insert; [done|intros []|done].
Qed.

(** ** Late trie updates *)

Lemma set_trie_block self h (u : T) k :
  block <$> blocks_by_hash (set_trie_updates self h u) !! k = block <$> blocks_by_hash self !! k.
Proof.
  simpl. destruct (decide (h = k)) as [->|]; [rewrite lookup_alter_eq|by rewrite lookup_alter_ne].
  by destruct (blocks_by_hash self !! k).
Qed.

Lemma set_trie_same self h (u : T) k e' : blocks_by_hash (set_trie_updates self h u) !! k = Some e' ->
  exists e, blocks_by_hash self !! k = Some e /\ block e = block e'.
Proof.
  intros He. pose proof (set_trie_block self h u k) as Hb. rewrite He in Hb. simpl in Hb. symmetry in Hb.
  apply fmap_Some in Hb as (e & ? & ?). eauto.
Qed.

Lemma set_trie_ok self h (u : T) : tree_ok self -> tree_ok (set_trie_updates self h u).
Proof.
  intros (Hh & Hc & Hn). pose proof (set_trie_block self h u) as Hb. split_and!.
  - intros k e' (e & He & Heq)%set_trie_same. rewrite <- (Hh k e He). unfold block_hash. simpl. by rewrite Heq.
  - intros p c (e & He & <-)%Hc. specialize (Hb c). rewrite He in Hb. apply fmap_Some in Hb as (e' & He' & Heq).
    exists e'. split; [done|]. unfold block_parent_hash. simpl. by rewrite Heq.
  - eapply numbered_same; [|exact Hn]. intros k. specialize (Hb k).
    destruct (blocks_by_hash self !! k), (blocks_by_hash (set_trie_updates self h u) !! k); simpl in *; try done.
    injection Hb as Hb. unfold block_number. simpl. by rewrite Hb.
Qed.

Lemma set_trie_rank rank self h (u : T) :
  ranked block_parent_hash rank (blocks_by_hash self) -> ranked block_parent_hash rank (blocks_by_hash (set_trie_updates self h u)).
Proof.
  intros Hr k e' (e & He & Heq)%set_trie_same. specialize (Hr k e He). unfold block_parent_hash in *. simpl in *. by rewrite <- Heq.
Qed.

(** ** Removal of a queue of blocks *)

(** The blocks [ps] and what descends from them, among known blocks. *)
Inductive doomed blocks (ps : list Z) : Z -> Prop :=
| doomed_root h : h ∈ ps -> is_Some (blocks !! h) -> doomed blocks ps h
| doomed_child h e : blocks !! h = Some e -> doomed blocks ps (block_parent_hash e) -> doomed blocks ps h.

Lemma doomed_known blocks ps h : doomed blocks ps h -> is_Some (blocks !! h).
Proof. destruct 1; eauto. Qed.

Lemma doomed_mono blocks ps ps' h : (forall x, x ∈ ps -> is_Some (blocks !! x) -> x ∈ ps') -> doomed blocks ps h -> doomed blocks ps' h.
Proof. intros Hs. induction 1; [apply doomed_root; auto|by eapply doomed_child]. Qed.

Lemma doomed_unknown blocks b ps h : blocks !! b = None -> doomed blocks (b :: ps) h <-> doomed blocks ps h.
Proof.
  intros Hb. split; apply doomed_mono; [|by right]. intros x [->|?]%elem_of_cons; [|done]. rewrite Hb. by intros [? ?].
Qed.

Lemma doomed_nil blocks h : ~ doomed blocks [] h.
Proof. by induction 1 as [h Hh _|]; [apply not_elem_of_nil in Hh|]. Qed.

(** Taking [b] out when [cs] are children of it. *)
Lemma doomed_sound blocks b rest cs h :
  is_Some (blocks !! b) -> (forall c, c ∈ cs -> exists e, blocks !! c = Some e /\ block_parent_hash e = b) ->
  h = b \/ doomed (delete b blocks) (rest ++ cs) h -> doomed blocks (b :: rest) h.
Proof.
  intros Hb Hcs [->|Hd]; [apply doomed_root; [by left|done]|].
  induction Hd as [h [Hin|Hin]%elem_of_app [_ Hk]%lookup_delete_is_Some|h e [_ He]%lookup_delete_Some _ IH].
  - apply doomed_root; [by right|done].
  - destruct (Hcs h Hin) as (e & He & Hp). apply (doomed_child _ _ h e He). rewrite Hp. apply doomed_root; [by left|done].
  - by apply (doomed_child _ _ h e).
Qed.

(** Taking [b] out when [cs] are the children of it. *)
Lemma doomed_complete blocks b rest cs h :
  (forall c e, blocks !! c = Some e -> block_parent_hash e = b -> c <> b -> c ∈ cs) ->
  doomed blocks (b :: rest) h -> h = b \/ doomed (delete b blocks) (rest ++ cs) h.
Proof.
  intros Hcs. induction 1 as [h Hin Hk|h e He _ IH]; (destruct (decide (h = b)) as [->|Hne]; [by left|right]).
  - apply elem_of_cons in Hin as [?|Hin]; [done|]. apply doomed_root; [apply elem_of_app; by left|].
    by rewrite lookup_delete_ne.
  - assert (delete b blocks !! h = Some e) as He' by (by rewrite lookup_delete_ne).
    destruct IH as [Hp|Hd]; [|by apply (doomed_child _ _ h e)].
    apply doomed_root; [|by eexists]. apply elem_of_app. right. by apply (Hcs h e).
Qed.

(** Every known child of a known block is in the children map. *)
Definition children_complete (p2c : Index) blocks : Prop :=
  forall c e, blocks !! c = Some e -> is_Some (blocks !! block_parent_hash e) -> in_index p2c (block_parent_hash e) c.

Definition complete self : Prop := children_complete (parent_to_child self) (blocks_by_hash self).

Lemma remove_by_hash_complete self h : complete self -> complete (remove_by_hash self h).2.
Proof.
  intros Hc. destruct (blocks_by_hash self !! h) as [e|] eqn:E.
  2: { unfold remove_by_hash. by rewrite E. }
  intros c x. rewrite remove_by_hash_blocks. intros [Hne Hx]%lookup_delete_Some [Hp Hk]%lookup_delete_is_Some.
  apply (remove_by_hash_index _ _ e); [done|]. split_and!; [done|by apply Hc|]. intros [_ ->]. done.
Qed.

Lemma set_trie_complete self h (u : T) : complete self -> complete (set_trie_updates self h u).
Proof.
  intros Hc c e' (e & He & Heq)%set_trie_same Hk. assert (block_parent_hash e' = block_parent_hash e) as Hp.
  { unfold block_parent_hash. simpl. by rewrite Heq. }
  rewrite Hp in *. apply Hc; [done|]. destruct Hk as (x & (y & ? & _)%set_trie_same). eauto.
Qed.

(** What removing a queue does: it returns, keeps the invariant, removes only what descends from
    the queue, and all of it if the children map is complete. *)
Lemma remove_queue_ok fuel : forall self queue (K : gset Z) (dead : Z -> Prop),
  tree_ok_but dead self -> (forall p c, in_index (parent_to_child self) p c -> c ∈ K) ->
  (length queue + size K < fuel)%nat -> (forall h, dead h -> is_Some (blocks_by_hash self !! h) -> h ∈ queue) ->
  exists self', remove_queue fuel self queue = Some self' /\ tree_ok self' /\
    blocks_by_hash self' ⊆ blocks_by_hash self /\
    (forall h e, blocks_by_hash self !! h = Some e -> blocks_by_hash self' !! h = None -> doomed (blocks_by_hash self) queue h) /\
    (complete self -> complete self' /\ forall h, doomed (blocks_by_hash self) queue h -> blocks_by_hash self' !! h = None) /\
    persisted_trie_updates self' = persisted_trie_updates self /\
    current_canonical_head self' = current_canonical_head self /\ engine_kind self' = engine_kind self.
Proof.
  induction fuel as [|fuel IH]; intros self queue K dead Hok HK Hf Hdead; [lia|]. cbn [remove_queue].
  destruct queue as [|b rest].
  { exists self. split_and!; try done.
    - destruct Hok as (? & ? & Hn). split_and!; [done|done|]. eapply numbered_dead; [|exact Hn].
      intros h Hk. split; [|done]. intros Hd. by apply Hdead, not_elem_of_nil in Hd.
    - intros h e Hh Hn. congruence.
    - intros Hc. split; [done|]. intros h Hd. by apply doomed_nil in Hd. }
  destruct (blocks_by_hash self !! b) as [e|] eqn:E.
  2: { replace (remove_by_hash self b) with (@None (Executed * gset Z), self) by (unfold remove_by_hash; by rewrite E).
       destruct (IH self rest K dead) as (self' & He & Hok' & Hsub & Hrem & Hcomp & Hrest); [done|done|simpl in Hf; lia| |].
       { intros h Hd Hk. destruct (elem_of_cons rest h b) as [Hc _]. destruct (Hc (Hdead h Hd Hk)) as [->|]; [|done].
         rewrite E in Hk. by destruct Hk. }
       exists self'. split_and!; try done; try apply Hrest.
       - intros h x Hx Hn. apply doomed_unknown; [done|]. by apply (Hrem h x).
       - intros Hc. destruct (Hcomp Hc) as [? Hall]. split; [done|]. intros h Hd%doomed_unknown; [auto|done]. }
  destruct (remove_by_hash_children self b e E) as (children & Hr1 & Hch).
  pose proof (remove_by_hash_ok dead self b Hok) as Hok1. pose proof (remove_by_hash_blocks self b) as Hb1.
  pose proof (fun p c => remove_by_hash_index self b e p c E) as Hi1. pose proof (remove_by_hash_rest self b) as (Hr2 & Hr3 & Hr4).
  pose proof (remove_by_hash_complete self b) as Hc1.
  destruct (remove_by_hash self b) as [r self1]. cbn [fst snd] in *. subst r.
  destruct Hok as (Hh & Hsound & Hn).
  assert (children ⊆ K) as HsubK by (intros c [Hc _]%Hch; by eapply HK).
  destruct (IH self1 (rest ++ set_order children) (K ∖ children) dead Hok1) as (self' & He & Hok' & Hsub & Hrem & Hcomp & R2 & R3 & R4).
  { intros p c (Hp & Hin & Hne)%Hi1. apply elem_of_difference. split; [by eapply HK|]. intros [Hc _]%Hch.
    destruct (Hsound _ _ Hin) as (x & Hx & <-). destruct (Hsound _ _ Hc) as (y & Hy & <-). congruence. }
  { assert (length (set_order children) = size children) as Hlen by (by rewrite set_order_perm).
    rewrite length_app, Hlen, size_difference by done. apply subseteq_size in HsubK. simpl in Hf. lia. }
  { intros h Hd. rewrite Hb1. intros [Hne Hk]%lookup_delete_is_Some. apply elem_of_app. left.
    destruct (elem_of_cons rest h b) as [Hc _]. by destruct (Hc (Hdead h Hd Hk)) as [->|]. }
  exists self'. rewrite Hb1 in Hsub, Hrem, Hcomp. split_and!; [done|done| | | |congruence|congruence|congruence].
  - etrans; [exact Hsub|]. apply delete_subseteq.
  - intros h x Hx Hno. apply (doomed_sound _ _ _ (set_order children)); [by eexists| |].
    + intros c [Hc _]%elem_of_set_order%Hch. by apply Hsound.
    + destruct (decide (h = b)) as [->|]; [by left|right]. apply (Hrem h x); [by rewrite lookup_delete_ne|done].
  - intros Hc. destruct (Hcomp (Hc1 Hc)) as [? Hall]. split; [done|]. intros h Hd.
    apply (doomed_complete _ _ _ (set_order children)) in Hd as [->|Hd]; [|by apply Hall|].
    + destruct (blocks_by_hash self' !! b) as [y|] eqn:Ey; [|done]. eapply lookup_weaken in Ey; [|exact Hsub].
      by rewrite lookup_delete_eq in Ey.
    + intros c x Hx Hp Hne. apply elem_of_set_order, Hch. split; [|by intros [_ ->]]. rewrite <- Hp. apply Hc; [done|].
      rewrite Hp. by eexists.
Qed.


(** ** Finalization *)

Lemma remove_all_ok hs : forall self, tree_ok self ->
  tree_ok (remove_all self hs) /\ (complete self -> complete (remove_all self hs)) /\
  (forall h, blocks_by_hash (remove_all self hs) !! h = if decide (h ∈ hs) then None else blocks_by_hash self !! h) /\
  persisted_trie_updates (remove_all self hs) = persisted_trie_updates self /\
  current_canonical_head (remove_all self hs) = current_canonical_head self /\
  engine_kind (remove_all self hs) = engine_kind self.
Proof.
  induction hs as [|x hs IH]; intros self Hok; [by split_and!|]. cbn [remove_all foldl].
  destruct (IH (remove_by_hash self x).2 (remove_by_hash_ok nothing self x Hok)) as (H1 & H2 & H3 & H4 & H5 & H6).
  pose proof (remove_by_hash_rest self x) as (R1 & R2 & R3). unfold remove_all in *.
  split_and!; [done| | |congruence|congruence|congruence].
  - intros Hc. by apply H2, remove_by_hash_complete.
  - intros h. rewrite H3, remove_by_hash_blocks. destruct (decide (h ∈ hs)); [rewrite decide_True by (by right); done|].
    destruct (decide (h = x)) as [->|]; [rewrite lookup_delete_eq, decide_True by (by left); done|].
    rewrite lookup_delete_ne, decide_False by (done || (rewrite elem_of_cons; tauto)). done.
Qed.

Lemma elem_of_hashes_below self n h : tree_ok self ->
  h ∈ hashes_below self n <-> exists e, blocks_by_hash self !! h = Some e /\ block_number e < n.
Proof.
  intros (_ & _ & [_ Hm]). unfold hashes_below. rewrite list_elem_of_join. split.
  - intros (l & Hin & ([k l'] & -> & [Hlt Hx%elem_of_bt_entries]%list_elem_of_filter)%list_elem_of_fmap). simpl in *.
    destruct (proj1 (Hm k h)) as (_ & e & He & <-); [by exists l'|]. eauto.
  - intros (e & He & Hlt). destruct (proj2 (Hm (block_number e) h)) as (l & Hl & Hin); [split; [intros []|eauto]|].
    exists (block_hash <$> l). split; [done|]. apply list_elem_of_fmap. exists (block_number e, l).
    split; [done|]. apply list_elem_of_filter. split; [done|]. by apply elem_of_bt_entries.
Qed.

(** Keeping at most one block of a number. *)
Lemma numbered_keep m blocks n (keep : option Executed) (dead : Z -> Prop) :
  numbered nothing m blocks ->
  (forall x, keep = Some x -> at_number m n (block_hash x)) ->
  (forall h, dead h <-> at_number m n h /\ block_hash <$> keep <> Some h) ->
  numbered dead match keep with Some x => <[n := [x]]> (delete n m) | None => delete n m end blocks.
Proof.
  intros [Hne Hm] Hkeep Hdead. set (m' := match keep with Some _ => _ | None => _ end).
  assert (forall k l, m' !! k = Some l -> (k = n /\ exists x, keep = Some x /\ l = [x]) \/ (k <> n /\ m !! k = Some l)) as Hm'.
  { intros k l. unfold m'. destruct keep as [x|].
    - intros [[<- <-]|[? [_ ?]%lookup_delete_Some]]%lookup_insert_Some; eauto.
    - intros [? ?]%lookup_delete_Some. auto. }
  assert (forall k h, at_number m' k h <-> if decide (k = n) then block_hash <$> keep = Some h else at_number m k h) as Hat.
  { intros k h. unfold at_number. case_decide as Hk.
    - subst k. split.
      + intros (l & [[_ (x & -> & ->)]|[? _]]%Hm' & Hin); [|done]. by apply list_elem_of_singleton in Hin as ->.
      + intros (x & Hx & ->)%fmap_Some. exists [x]. unfold m'. rewrite Hx, lookup_insert_eq. split; [done|by apply list_elem_of_singleton].
    - assert (m' !! k = m !! k) as ->; [|done]. unfold m'. destruct keep; rewrite ?lookup_insert_ne, lookup_delete_ne; done. }
  split.
  - intros k l [[_ (x & _ & ->)]|[_ ?]]%Hm'; [split; [done|apply NoDup_singleton]|by apply (Hne k)].
  - intros k h. rewrite Hat, Hdead. case_decide as Hk; [subst k|]; split.
    + intros Hh. split; [tauto|]. apply fmap_Some in Hh as (x & Hx & ->). by apply Hkeep, Hm in Hx as [_ ?].
    + intros [Hnot He]. apply dec_stable. intros Hneq. apply Hnot. split; [|done]. apply Hm. split; [intros []|done].
    + intros [_ He]%Hm. split; [|done]. intros [(_ & e' & ? & ?)%Hm _]. destruct He as (e & ? & ?). congruence.
    + intros [_ He]. apply Hm. split; [intros []|done].
Qed.

Lemma take_block_spec fh (L : list Executed) :
  NoDup (block_hash <$> L) ->
  (forall x, (take_block fh L).1 = Some x -> x ∈ L /\ block_hash x = fh) /\
  ((take_block fh L).1 = None -> fh ∉ block_hash <$> L) /\
  forall h, h ∈ block_hash <$> (take_block fh L).2 <-> h ∈ block_hash <$> L /\ h <> fh.
Proof.
  intros Hnd. unfold take_block. destruct (position _ L) as [i|] eqn:Ep; cbn [fst snd].
  - apply position_Some in Ep as (x & Hx & Hxh). bools. rewrite Hx. pose proof (swap_remove_perm L i x Hx) as Hperm.
    rewrite Hperm, fmap_cons in Hnd. apply NoDup_cons in Hnd as [Hni _]. rewrite Hxh in Hni. split_and!.
    + intros y [= <-]. split; [by eapply list_elem_of_lookup_2|done].
    + done.
    + intros h. rewrite (fmap_Permutation block_hash _ _ Hperm), fmap_cons, elem_of_cons, Hxh.
      split; [|tauto]. intros Hin. split; [by right|]. by intros ->.
  - assert (fh ∉ block_hash <$> L) as Hno.
    { intros (y & Hy & Hin)%list_elem_of_fmap. apply (position_None _ _ _ Ep) in Hin. bools. congruence. }
    split_and!; [done|done|]. intros h. split; [|tauto]. intros Hin. split; [done|]. by intros ->.
Qed.

(** Taking the block with a hash out of the blocks at a number. *)
Lemma numbered_take m blocks n (fh : Z) :
  numbered nothing m blocks ->
  let taken := take_block fh (default [] (m !! n)) in
  (forall h, h ∈ block_hash <$> taken.2 <-> exists e, blocks !! h = Some e /\ block_number e = n /\ h <> fh) /\
  numbered (fun h => h ∈ block_hash <$> taken.2)
    match taken.1 with Some x => <[n := [x]]> (delete n m) | None => delete n m end blocks.
Proof.
  intros Hnum. pose proof Hnum as [Hne Hm]. cbv zeta. set (L := default [] (m !! n)).
  destruct (take_block_spec fh L) as (Ht1 & Ht2 & Ht3).
  { unfold L. destruct (m !! n) as [l|] eqn:El; [by apply (Hne n)|constructor]. }
  split.
  - intros h. rewrite Ht3. unfold L. rewrite <- at_number_default, Hm. unfold nothing. naive_solver.
  - apply numbered_keep; [done| |].
    + intros x [Hx _]%Ht1. apply at_number_default. by apply list_elem_of_fmap_2.
    + intros h. rewrite Ht3, at_number_default. fold L. split; intros [Hin Hneq]; (split; [done|]).
      * intros (x & [_ Hx]%Ht1 & ->)%fmap_Some. done.
      * intros ->. destruct (take_block fh L).1 as [x|] eqn:Ex; [|by apply Ht2].
        destruct (Ht1 x eq_refl) as [_ Hx]. apply Hneq. simpl. by rewrite Hx.
Qed.

(** The blocks that fork off the chain of the finalized block at its number, and what is above them. *)
Inductive forks_off blocks (f : BlockNumHash) : Z -> Prop :=
| forks_at h e : blocks !! h = Some e -> block_number e = nh_number f -> h <> nh_hash f -> forks_off blocks f h
| forks_above h e : blocks !! h = Some e -> nh_number f <= block_number e -> forks_off blocks f (block_parent_hash e) ->
    forks_off blocks f h.

Lemma forks_off_doomed blocks blocks' f queue h :
  (forall h e, blocks' !! h = Some e <-> blocks !! h = Some e /\ nh_number f <= block_number e) ->
  (forall h, h ∈ queue <-> exists e, blocks' !! h = Some e /\ block_number e = nh_number f /\ h <> nh_hash f) ->
  forks_off blocks f h <-> doomed blocks' queue h.
Proof.
  intros Hb Hq. split.
  - induction 1 as [h e He Hn Hneq|h e He Hn _ IH].
    + assert (blocks' !! h = Some e) by (apply Hb; split; [done|lia]). apply doomed_root; [apply Hq|]; eauto.
    + apply (doomed_child _ _ h e); [by apply Hb|done].
  - induction 1 as [h (e & [He _]%Hb & Hn & Hneq)%Hq _|h e [He Hn]%Hb _ IH].
    + by apply (forks_at _ _ h e).
    + by apply (forks_above _ _ h e).
Qed.

Definition retained_updates self : gmap Z (Z * T) :=
  persisted_trie_updates (prune_persisted_trie_updates EPOCH_SLOTS self).

Lemma prune_finalized_ok self f : tree_ok self ->
  exists self', prune_finalized_sidechains EPOCH_SLOTS self f = Some self' /\ tree_ok self' /\
    blocks_by_hash self' ⊆ blocks_by_hash self /\
    (forall h e, blocks_by_hash self !! h = Some e -> nh_number f <= block_number e ->
       ~ forks_off (blocks_by_hash self) f h -> blocks_by_hash self' !! h = Some e) /\
    (complete self -> complete self' /\
       forall h e, blocks_by_hash self' !! h = Some e ->
         nh_number f <= block_number e /\ ~ forks_off (blocks_by_hash self) f h) /\
    persisted_trie_updates self' = retained_updates self /\
    current_canonical_head self' = current_canonical_head self /\ engine_kind self' = engine_kind self.
Proof.
  intros Hok. destruct (remove_all_ok (hashes_below self (nh_number f)) self Hok) as (H1 & H2 & H3 & H4 & H5 & H6).
  unfold prune_finalized_sidechains. set (self1 := remove_all self _) in *.
  assert (forall h e, blocks_by_hash self1 !! h = Some e <-> blocks_by_hash self !! h = Some e /\ nh_number f <= block_number e) as Hb1.
  { intros h e. rewrite H3. pose proof (elem_of_hashes_below self (nh_number f) h Hok) as Hhb. case_decide as Hd.
    - apply Hhb in Hd as (x & Hx & Hlt). split; [done|]. intros [? ?]. simplify_eq. lia.
    - split; [|naive_solver]. intros He. split; [done|]. apply Z.nlt_ge. intros Hlt. apply Hd, Hhb. eauto. }
  cbn [prune_persisted_trie_updates set_by_number blocks_by_number blocks_by_hash].
  destruct H1 as (Hh1 & Hs1 & Hn1).
  destruct (numbered_take (blocks_by_number self1) (blocks_by_hash self1) (nh_number f) (nh_hash f) Hn1) as [Hq Hnum].
  set (taken := take_block (nh_hash f) (default [] (blocks_by_number self1 !! nh_number f))) in *.
  set (m4 := match taken.1 with Some x => <[nh_number f := [x]]> (delete (nh_number f) (blocks_by_number self1))
             | None => delete (nh_number f) (blocks_by_number self1) end) in Hnum.
  set (self4 := match taken.1 with Some _ => _ | None => _ end).
  assert (self4 = set_by_number (prune_persisted_trie_updates EPOCH_SLOTS self1) m4) as Heq4
    by (unfold self4, m4; by destruct taken.1).
  clearbody self4. subst self4.
  destruct (remove_queue_ok (S (length (block_hash <$> taken.2) + size (blocks_by_hash self1)))
    (set_by_number (prune_persisted_trie_updates EPOCH_SLOTS self1) m4) (block_hash <$> taken.2) (dom (blocks_by_hash self1))
    (fun h => h ∈ block_hash <$> taken.2)) as (self' & He & Hok' & Hsub & Hrem & Hcomp & R1 & R2 & R3).
  { by split_and!. }
  { intros p c (e & Hc & _)%Hs1. apply elem_of_dom. eauto. }
  { rewrite size_dom. lia. }
  { done. }
  cbn [set_by_number prune_persisted_trie_updates blocks_by_hash parent_to_child] in Hsub, Hrem, Hcomp.
  pose proof (fun h => forks_off_doomed _ _ f _ h Hb1 Hq) as Hfd.
  exists self'. split_and!; [exact He|done| | | |rewrite R1|rewrite R2; exact H5|rewrite R3; exact H6].
  - apply map_subseteq_spec. intros h e Hx. eapply lookup_weaken in Hx; [|exact Hsub]. by apply Hb1 in Hx as [? _].
  - intros h e Hx Hn Hf. assert (blocks_by_hash self1 !! h = Some e) as Hx1 by (by apply Hb1).
    destruct (blocks_by_hash self' !! h) as [y|] eqn:Ey.
    + eapply lookup_weaken in Ey; [|exact Hsub]. congruence.
    + destruct Hf. apply Hfd. by apply (Hrem h e).
  - intros Hc. destruct (Hcomp (H2 Hc)) as [Hc' Hall]. split; [done|]. intros h e Hx. split.
    + eapply lookup_weaken in Hx; [|exact Hsub]. by apply Hb1 in Hx as [_ ?].
    + intros Hd%Hfd%Hall. congruence.
  - unfold retained_updates, prune_persisted_trie_updates. simpl. by rewrite H4, H5, H6.
Qed.
End tree.
End TreeProps.
