(* ===== verification/TreeClaims.v ===== *)
(** * What the tree state promises

    Walks along the parents, removal of persisted and of finalized blocks, and the states that
    sequences of operations reach. *)

From S2P Require Import Prelude Ordered EngineBlocks TreeState TreeProps.
Import EngineBlocks SimpleChain.

Module TreeClaims.
Import Tree TreeProps.

Section claims.
Context {B T : Type} `{!BlockTrait B} `{!HashOrder} (EPOCH_SLOTS : Z).
Abbreviation Executed := (ExecutedBlockWithTrieUpdates B T).
Implicit Types (self : TreeState (B := B) (T := T)) (e : Executed) (h : Z) (blocks : gmap Z Executed).

Abbreviation walk := (ancestors (E := Executed) block_parent_hash).
Abbreviation acyclic := (ranked (E := Executed) block_parent_hash).
Abbreviation line := (path (E := Executed) block_parent_hash).

(** ** Walks *)

Lemma blocks_by_hash_loop_ok self l : forall h fuel acc,
  walk (blocks_by_hash self) h l -> (length l < fuel)%nat ->
  exists root, blocks_by_hash_loop fuel self h acc = Some (root, acc ++ l) /\
    line (blocks_by_hash self) h l root /\ blocks_by_hash self !! root = None.
Proof.
  induction l as [|e l IH]; intros h fuel acc Hl Hf; (destruct fuel as [|fuel]; [simpl in Hf; lia|]); cbn [blocks_by_hash_loop];
    inversion Hl as [? Hn|? ? ? He Hl']; subst.
  - rewrite Hn. exists h. rewrite app_nil_r. split_and!; [done|constructor|done].
  - rewrite He. destruct (IH (block_parent_hash e) fuel (acc ++ [e]) Hl') as (root & Hr & Hp & Hn); [simpl in Hf; lia|].
    exists root. rewrite Hr, <- app_assoc. split_and!; [done|by econstructor|done].
Qed.

(** For a known block the method [blocks_by_hash] returns the blocks from it back to the last
    one in memory, newest first, with the hash of the parent that is missing; it returns
    nothing exactly for an unknown hash. *)
Theorem chain_by_hash_exact self h (rank : Z -> nat) :
  acyclic rank (blocks_by_hash self) ->
  match blocks_by_hash self !! h with
  | None => chain_by_hash self h = Some None
  | Some e => exists root l, chain_by_hash self h = Some (Some (root, e :: l)) /\
      line (blocks_by_hash self) h (e :: l) root /\ blocks_by_hash self !! root = None
  end.
Proof.
  intros Hr. unfold chain_by_hash. destruct (blocks_by_hash self !! h) as [e|] eqn:E; [|done].
  destruct (ancestors_exist _ _ _ Hr (block_parent_hash e)) as (l & Hl & Hlen).
  destruct (blocks_by_hash_loop_ok self l _ (S (size (blocks_by_hash self))) [e] Hl) as (root & -> & Hp & Hn); [lia|].
  exists root, l. split_and!; [done|by econstructor|done].
Qed.

(** The hash of the head of a walk, or the parent of one of its blocks. *)
Definition on_chain (head : Z) (l : list Executed) h : bool :=
  (head =? h) || existsb (fun e => block_parent_hash e =? h) l.

Lemma is_canonical_loop_ok self h l : forall current fuel,
  walk (blocks_by_hash self) current l -> (length l < fuel)%nat ->
  is_canonical_loop fuel self current h = Some (existsb (fun e => block_parent_hash e =? h) l).
Proof.
  induction l as [|e l IH]; intros current fuel Hl Hf; (destruct fuel as [|fuel]; [simpl in Hf; lia|]); cbn [is_canonical_loop];
    inversion Hl as [? Hn|? ? ? He Hl']; subst.
  - by rewrite Hn.
  - rewrite He. simpl. destruct (block_parent_hash e =? h); [done|]. apply IH; [done|]. simpl in Hf. lia.
Qed.

Lemma is_canonical_ok self h l (rank : Z -> nat) :
  acyclic rank (blocks_by_hash self) -> walk (blocks_by_hash self) (nh_hash (current_canonical_head self)) l ->
  is_canonical self h = Some (on_chain (nh_hash (current_canonical_head self)) l h).
Proof.
  intros Hr Hl. unfold is_canonical, on_chain. destruct (_ =? h); [done|]. apply is_canonical_loop_ok; [done|].
  destruct (ancestors_exist _ _ _ Hr (nh_hash (current_canonical_head self))) as (l' & Hl' & Hlen).
  rewrite (ancestors_unique _ _ _ _ _ Hl Hl'). lia.
Qed.

(** ** Removal of persisted blocks *)

(** The hashes of the blocks of a walk up to a number, and what is kept of them. *)
Definition persisted_hashes (u : Z) (l : list Executed) : list Z := block_hash <$> filter (fun e => block_number e <= u) l.
Definition kept_updates (u : Z) e : option (Z * (Z * T)) :=
  if block_number e <=? u then match trie e with Present t => Some (block_hash e, (block_number e, t)) | Missing => None end else None.

Lemma walk_rank blocks rank h l e : hashes_ok blocks -> acyclic rank blocks -> walk blocks h l -> e ∈ l ->
  (rank (block_hash e) <= rank h)%nat.
Proof.
  intros Hh Hr. induction 1 as [|h x l Hx Hl IH]; [by intros ?%not_elem_of_nil|].
  intros [->|Hin]%elem_of_cons; [by rewrite (Hh h x Hx)|]. specialize (Hr h x Hx). specialize (IH Hin). lia.
Qed.

Lemma walk_delete blocks h l x : hashes_ok blocks -> walk blocks h l -> (forall e, e ∈ l -> block_hash e <> x) ->
  walk (delete x blocks) h l.
Proof.
  intros Hh. induction 1 as [h Hn|h e l He _ IH]; intros Hne.
  - constructor. by apply lookup_delete_None; right.
  - econstructor; [|apply IH; intros; apply Hne; by right]. rewrite lookup_delete_ne; [done|].
    intros ->. apply (Hne e); [by left|]. by apply Hh.
Qed.

Lemma ranked_subseteq rank blocks blocks' : blocks' ⊆ blocks -> acyclic rank blocks -> acyclic rank blocks'.
Proof. intros Hs Hr h e He. apply (Hr h e). by eapply lookup_weaken. Qed.

Lemma kept_updates_hash u (l : list Executed) k v : (k, v) ∈ omap (kept_updates u) l -> exists e, e ∈ l /\ block_hash e = k.
Proof.
  intros (e & Hin & He)%list_elem_of_omap. exists e. split; [done|]. unfold kept_updates in He.
  destruct (_ <=? _), (trie e); try done. by injection He as ->.
Qed.

(** What removing the blocks of a walk up to a number does. *)
Definition walk_removed (u : Z) (l : list Executed) self self' : Prop :=
  tree_ok self' /\ (complete self -> complete self') /\
  (forall h, blocks_by_hash self' !! h = if decide (h ∈ persisted_hashes u l) then None else blocks_by_hash self !! h) /\
  persisted_trie_updates self' = list_to_map (omap (kept_updates u) l) ∪ persisted_trie_updates self /\
  current_canonical_head self' = current_canonical_head self /\ engine_kind self' = engine_kind self.

(** The state after one block of the walk. *)
Definition block_moved (u : Z) e self self1 : Prop :=
  tree_ok self1 /\ (complete self -> complete self1) /\ blocks_by_hash self1 = delete (block_hash e) (blocks_by_hash self) /\
  persisted_trie_updates self1 = list_to_map (option_list (kept_updates u e)) ∪ persisted_trie_updates self /\
  current_canonical_head self1 = current_canonical_head self /\ engine_kind self1 = engine_kind self.

Lemma walk_removed_cons u e l self self1 self' :
  block_number e <= u -> (forall x, x ∈ l -> block_hash x <> block_hash e) ->
  block_moved u e self self1 -> walk_removed u l self1 self' -> walk_removed u (e :: l) self self'.
Proof.
  intros Hle Hne (M1 & M2 & M3 & M4 & M5 & M6) (R1 & R2 & R3 & R4 & R5 & R6).
  split_and!; [done|auto| | |congruence|congruence].
  - intros h. unfold persisted_hashes in *. rewrite filter_cons_True, fmap_cons, R3, M3 by done.
    destruct (decide (h = block_hash e)) as [->|Hh].
    + rewrite lookup_delete_eq, (decide_True (P := block_hash e ∈ _ :: _)) by (by left). by case_decide.
    + rewrite lookup_delete_ne by done. do 2 case_decide; try done; set_solver.
  - rewrite R4, M4. cbn [omap list_omap]. destruct (kept_updates u e) as [[k v]|] eqn:Ek; simpl; [|by rewrite (left_id_L ∅ _)].
    rewrite insert_empty, <- insert_union_singleton_l. rewrite <- insert_union_l. symmetry. apply insert_union_r.
    apply not_elem_of_list_to_map_1. intros ([k' w] & Heq & Hin)%list_elem_of_fmap. simpl in Heq. subst k'.
    apply kept_updates_hash in Hin as (x & Hx & Hxk). apply (Hne x Hx). rewrite Hxk.
    unfold kept_updates in Ek. destruct (_ <=? _), (trie e); try done. by injection Ek as ->.
Qed.

Lemma remove_canonical_loop_ok u rank l : forall fuel self current,
  tree_ok self -> acyclic rank (blocks_by_hash self) -> walk (blocks_by_hash self) current l -> (length l < fuel)%nat ->
  exists self', remove_canonical_loop fuel self u current = Some self' /\ walk_removed u l self self'.
Proof.
  induction l as [|e l IH]; intros fuel self current Hok Hr Hl Hf; (destruct fuel as [|fuel]; [simpl in Hf; lia|]);
    cbn [remove_canonical_loop]; inversion Hl as [? Hn|? ? ? He Hl']; subst.
  { rewrite Hn. exists self. split; [done|]. split_and!; try done. simpl. by rewrite (left_id_L ∅ _). }
  rewrite He. pose proof (proj1 Hok current e He) as <-. simpl in Hf.
  destruct (block_number e <=? u) eqn:Eu; bools.
  2: { destruct (IH fuel self (block_parent_hash e) Hok Hr Hl') as (self' & -> & Hrem); [lia|].
       exists self'. split; [done|]. unfold walk_removed, persisted_hashes in *. rewrite filter_cons_False by lia.
       cbn [omap list_omap]. unfold kept_updates at 1. by rewrite (proj2 (Z.leb_gt _ _)) by lia. }
  assert (forall x, x ∈ l -> block_hash x <> block_hash e) as Hne.
  { intros x Hx Heq. pose proof (walk_rank _ rank _ l x (proj1 Hok) Hr Hl' Hx) as Hle. specialize (Hr _ _ He). rewrite Heq in Hle. lia. }
  assert (forall self1, block_moved u e self self1 ->
    exists self', remove_canonical_loop fuel self1 u (block_parent_hash e) = Some self' /\ walk_removed u (e :: l) self self') as Hgo.
  { intros self1 Hmoved. pose proof Hmoved as (M1 & _ & M3 & _). destruct (IH fuel self1 (block_parent_hash e) M1) as (self' & Hs & Hrem).
    - rewrite M3. apply (ranked_subseteq _ (blocks_by_hash self)); [apply delete_subseteq|done].
    - rewrite M3. apply walk_delete; [apply Hok|done|done].
    - lia.
    - exists self'. split; [done|]. by apply (walk_removed_cons u e l self self1). }
  pose proof (remove_by_hash_ok nothing self (block_hash e) Hok) as K1. pose proof (remove_by_hash_complete self (block_hash e)) as K2.
  pose proof (remove_by_hash_blocks self (block_hash e)) as K3. pose proof (remove_by_hash_rest self (block_hash e)) as (K4 & K5 & K6).
  destruct (remove_by_hash_children self (block_hash e) e He) as (children & K7 & _).
  destruct (remove_by_hash self (block_hash e)) as [r self1]. cbn [fst snd] in *. subst r.
  unfold take_present. destruct (trie e) as [t|] eqn:Et; apply Hgo; (split_and!; try done).
  - simpl. unfold kept_updates. rewrite Et, (proj2 (Z.leb_le _ _)) by lia. simpl. rewrite K4.
    by rewrite insert_empty, insert_union_singleton_l.
  - unfold kept_updates. rewrite Et. destruct (_ <=? _); simpl; by rewrite (left_id_L ∅ _).
Qed.

Lemma remove_canonical_ok self (u last : Z) (rank : Z -> nat) :
  tree_ok self -> acyclic rank (blocks_by_hash self) ->
  exists l self', walk (blocks_by_hash self) (nh_hash (current_canonical_head self)) l /\
    remove_canonical_until self u last = Some self' /\
    if on_chain (nh_hash (current_canonical_head self)) l last then walk_removed u l self self' else self' = self.
Proof.
  intros Hok Hr. destruct (ancestors_exist _ _ _ Hr (nh_hash (current_canonical_head self))) as (l & Hl & Hlen).
  exists l. unfold remove_canonical_until. rewrite (is_canonical_ok self last l rank) by done. simpl.
  destruct (on_chain _ _ _); [|by exists self].
  destruct (remove_canonical_loop_ok u rank l (S (size (blocks_by_hash self))) self _ Hok Hr Hl) as (self' & ? & ?); [lia|].
  by exists self'.
Qed.

Lemma remove_canonical_keeps self u last rank :
  tree_ok self -> acyclic rank (blocks_by_hash self) ->
  exists self', remove_canonical_until self u last = Some self' /\ tree_ok self' /\ (complete self -> complete self') /\
    blocks_by_hash self' ⊆ blocks_by_hash self /\ current_canonical_head self' = current_canonical_head self.
Proof.
  intros Hok Hr. destruct (remove_canonical_ok self u last rank Hok Hr) as (l & self' & _ & He & Hif).
  exists self'. split; [done|]. destruct (on_chain _ _ _); [|by subst self'; split_and!].
  destruct Hif as (? & ? & Hb & _ & ? & _). split_and!; [done|done| |done]. apply map_subseteq_spec.
  intros h e. rewrite Hb. by case_decide.
Qed.

(** The blocks of a walk are known. *)
Lemma walk_known blocks h l e : hashes_ok blocks -> walk blocks h l -> e ∈ l -> blocks !! block_hash e = Some e.
Proof.
  intros Hh. induction 1 as [|h x l Hx _ IH]; [by intros ?%elem_of_nil|]. intros [->|?]%elem_of_cons; [|auto]. by rewrite (Hh _ _ Hx).
Qed.

(** The blocks of a walk have different hashes. *)
Lemma walk_distinct blocks rank h l : hashes_ok blocks -> acyclic rank blocks -> walk blocks h l -> NoDup (block_hash <$> l).
Proof.
  intros Hh Hr. induction 1 as [|h e l He Hl IH]; [constructor|]. csimpl. constructor; [|done].
  intros (x & E & Hx)%list_elem_of_fmap. pose proof (walk_rank _ rank _ l x Hh Hr Hl Hx) as Hle. specialize (Hr _ _ He).
  rewrite <- E, (Hh _ _ He) in Hle. lia.
Qed.

(** What is kept of a walk: the updates of each block up to the number that has some. *)
Lemma kept_lookup u (l : list Executed) h n t : NoDup (block_hash <$> l) ->
  (list_to_map (omap (kept_updates u) l) : gmap Z (Z * T)) !! h = Some (n, t) <->
  exists e, e ∈ l /\ block_hash e = h /\ block_number e = n /\ n <= u /\ trie e = Present t.
Proof.
  induction l as [|x l IH]; csimpl; intros Hnd.
  { rewrite lookup_empty. split; [done|]. by intros (e & ?%elem_of_nil & _). }
  apply NoDup_cons in Hnd as [Hx Hnd]. specialize (IH Hnd). setoid_rewrite elem_of_cons.
  assert (forall k, kept_updates u x = Some k -> k.1 = block_hash x /\ k.2.1 = block_number x /\ block_number x <= u /\ trie x = Present k.2.2) as Hk.
  { intros k. unfold kept_updates. destruct (_ <=? _) eqn:Eu, (trie x); try done; bools. by intros [= <-]. }
  assert (kept_updates u x = None -> block_number x <= u -> trie x = Missing) as Hm.
  { unfold kept_updates. intros E Hle. rewrite (proj2 (Z.leb_le _ _) Hle) in E. by destruct (trie x). }
  destruct (kept_updates u x) as [[k [m s]]|]; simpl.
  - destruct (Hk _ eq_refl) as (E1 & E2 & E3 & E4). simpl in *. subst k m. rewrite lookup_insert_Some, IH. split.
    + intros [[<- [= <- <-]]|[_ (e & ? & ?)]]; [exists x; auto|exists e; auto].
    + intros (e & [->|He] & <- & <- & Hle & Ht); [left; split; congruence|right].
      split; [|by exists e]. intros E. apply Hx. rewrite E. by apply list_elem_of_fmap_2.
  - rewrite IH. split; intros (e & He); [exists e; naive_solver|]. exists e. destruct He as ([->|?] & <- & <- & Hle & Ht); [|auto].
    by rewrite (Hm eq_refl Hle) in Ht.
Qed.

(** The block is on the canonical chain in memory [l], or the parent of its end. *)
Definition persisted_on_chain self (l : list Executed) (last : Z) : Prop :=
  last = nh_hash (current_canonical_head self) \/ exists e, e ∈ l /\ block_parent_hash e = last.

Lemma on_chain_spec head (l : list Executed) h : on_chain head l h = true <-> h = head \/ exists e, e ∈ l /\ block_parent_hash e = h.
Proof.
  unfold on_chain. rewrite orb_true_iff, Z.eqb_eq, existsb_exists. setoid_rewrite <- list_elem_of_In. setoid_rewrite Z.eqb_eq. naive_solver.
Qed.

(** C26: when the last persisted block is on the canonical chain in memory, or the parent of its end,
    [remove_canonical_until] removes exactly the canonical blocks up to the bound, and remembers the
    trie updates, with the number, of those that have some: they replace what was remembered for these hashes, and all that was remembered for others
    stays.  Otherwise it changes nothing. *)
Theorem remove_canonical_exact self (u last : Z) (rank : Z -> nat) :
  tree_ok self -> acyclic rank (blocks_by_hash self) ->
  exists l self', walk (blocks_by_hash self) (nh_hash (current_canonical_head self)) l /\
    remove_canonical_until self u last = Some self' /\
    (~ persisted_on_chain self l last -> self' = self) /\
    (persisted_on_chain self l last -> tree_ok self' /\
      (forall h e, blocks_by_hash self' !! h = Some e <-> blocks_by_hash self !! h = Some e /\ ~ (e ∈ l /\ block_number e <= u)) /\
      (forall h n t, persisted_trie_updates self' !! h = Some (n, t) <->
         (exists e, e ∈ l /\ block_hash e = h /\ block_number e = n /\ n <= u /\ trie e = Present t) \/
         (persisted_trie_updates self !! h = Some (n, t) /\
          ~ exists e, e ∈ l /\ block_hash e = h /\ block_number e <= u /\ trie e <> Missing)) /\
      current_canonical_head self' = current_canonical_head self /\ engine_kind self' = engine_kind self).
Proof.
  intros Hok Hr. destruct (remove_canonical_ok self u last rank Hok Hr) as (l & self' & Hl & He & Hif).
  exists l, self'. split; [done|]. split; [done|].
  pose proof (on_chain_spec (nh_hash (current_canonical_head self)) l last) as Hsp.
  pose proof (walk_distinct _ rank _ l (proj1 Hok) Hr Hl) as Hnd.
  destruct (on_chain _ l last); (split; [intros Hn|intros Hy]);
    [by destruct Hn; apply Hsp| |done|by apply Hsp in Hy]. destruct Hif as (R1 & _ & R3 & R4 & R5 & R6). split_and!; try done.
  - intros h e. rewrite R3. case_decide as Hin.
    + split; [done|]. intros [Hb Hno]. unfold persisted_hashes in Hin. apply list_elem_of_fmap in Hin as (x & -> & [Hxu Hx]%list_elem_of_filter).
      assert (e = x) as -> by (pose proof (walk_known _ _ _ _ (proj1 Hok) Hl Hx); congruence). by destruct Hno.
    + split; [|naive_solver]. intros Hb. split; [done|]. intros [Hel Hu]. apply Hin. unfold persisted_hashes.
      rewrite <- (proj1 Hok _ _ Hb). apply list_elem_of_fmap_2, list_elem_of_filter. done.
  - intros h n t. rewrite R4, lookup_union_Some_raw, kept_lookup by done. split; (intros [?|[Hno Hp]]; [by left|right]).
    + split; [done|]. intros (e & He' & <- & Hu & Ht). destruct (trie e) as [s|] eqn:Et; [|done].
      assert ((list_to_map (omap (kept_updates u) l) : gmap Z (Z * T)) !! block_hash e = Some (block_number e, s)); [|congruence].
      apply kept_lookup; [done|]. by exists e.
    + split; [|done]. destruct (list_to_map _ !! h) as [[m s]|] eqn:Em; [|done]. apply kept_lookup in Em as (e & ? & ? & ? & ? & Et); [|done].
      destruct Hp. exists e. rewrite Et. split_and!; try done. congruence.
Qed.

(** ** Reached states *)

Section reached.
(** Which blocks may be inserted into which state. *)
Context (allowed : gmap Z Executed -> Executed -> Prop).

Inductive reached : TreeState (B := B) (T := T) -> Prop :=
| reached_new head kind : reached (new head kind)
| reached_reset self head : reached self -> reached (reset self head)
| reached_insert self e : reached self -> allowed (blocks_by_hash self) e -> reached (insert_executed self e)
| reached_head self head : reached self -> reached (set_canonical_head self head)
| reached_trie self h u : reached self -> reached (set_trie_updates self h u)
| reached_remove self upper last finalized self' :
    reached self -> remove_until EPOCH_SLOTS self upper last finalized = Some self' -> reached self'.

Lemma remove_until_ok self upper last finalized rank :
  tree_ok self -> acyclic rank (blocks_by_hash self) ->
  exists self', remove_until EPOCH_SLOTS self upper last finalized = Some self' /\ tree_ok self' /\
    (complete self -> complete self') /\ blocks_by_hash self' ⊆ blocks_by_hash self /\
    current_canonical_head self' = current_canonical_head self.
Proof.
  intros Hok Hr. unfold remove_until.
  destruct (remove_canonical_keeps self (nh_number upper) last rank Hok Hr) as (self1 & -> & Hok1 & Hc1 & Hs1 & Hh1). simpl.
  destruct finalized as [f|]; simpl; [|by exists self1].
  destruct (prune_finalized_ok EPOCH_SLOTS self1 (if nh_number upper <? nh_number f then upper else f) Hok1)
    as (self' & -> & Hok' & Hs & _ & Hc & _ & Hh & _).
  exists self'. split_and!; [done|done| |by etrans|congruence]. intros Hc0. by apply Hc, Hc1.
Qed.

Lemma tree_states_ok (rank : Z -> nat) :
  (forall blocks e, allowed blocks e -> (rank (block_parent_hash e) < rank (block_hash e))%nat) ->
  forall self, reached self -> tree_ok self /\ acyclic rank (blocks_by_hash self).
Proof.
  intros Hrank. induction 1 as [head kind|self head _ _|self e _ [Hok Hr] Ha|self head _ [Hok Hr]|self h u _ [Hok Hr]|self up last f self' _ [Hok Hr] He].
  - split; [apply tree_new_ok|]. intros h e. simpl. by rewrite lookup_empty.
  - split; [apply tree_new_ok|]. intros h e. simpl. by rewrite lookup_empty.
  - split; [by apply insert_executed_ok|]. intros h x. rewrite insert_executed_blocks.
    destruct (blocks_by_hash self !! block_hash e); [by apply Hr|].
    intros [[<- <-]|[_ ?]]%lookup_insert_Some; [by eapply Hrank|by apply Hr].
  - by split.
  - split; [by apply set_trie_ok|by apply set_trie_rank].
  - destruct (remove_until_ok self up last f rank Hok Hr) as (self1 & He1 & ? & _ & Hs & _). rewrite He in He1. injection He1 as <-.
    split; [done|]. by eapply ranked_subseteq.
Qed.

(** Blocks are inserted before their children. *)
Lemma reached_complete (rank : Z -> nat) :
  (forall blocks e, allowed blocks e -> (rank (block_parent_hash e) < rank (block_hash e))%nat) ->
  (forall blocks e h x, allowed blocks e -> blocks !! h = Some x -> block_parent_hash x <> block_hash e) ->
  forall self, reached self -> complete self.
Proof.
  intros Hrank Hleaf. induction 1 as [head kind|self head _ _|self e _ IH Ha|self head _ IH|self h u _ IH|self up last f self' Hre IH He].
  - intros c e. simpl. by rewrite lookup_empty.
  - intros c e. simpl. by rewrite lookup_empty.
  - unfold insert_executed. destruct (blocks_by_hash self !! block_hash e) eqn:E; [done|]. intros c x. simpl.
    intros Hx Hk. apply in_index_retain. split; [|by eexists]. apply in_index_add.
    apply lookup_insert_Some in Hx as [[<- <-]|[Hne Hx]]; [by left|right]. apply IH; [done|].
    apply lookup_insert_is_Some in Hk as [Heq|[_ ?]]; [|done]. by destruct (Hleaf _ e c x Ha Hx).
  - done.
  - by apply set_trie_complete.
  - destruct (tree_states_ok rank Hrank self Hre) as [Hok Hr].
    destruct (remove_until_ok self up last f rank Hok Hr) as (self1 & He1 & _ & Hc & _). rewrite He in He1. injection He1 as <-. auto.
Qed.
End reached.

(** Blocks of which the parents have a smaller rank. *)
Definition ranks (rank : Z -> nat) blocks e : Prop := (rank (block_parent_hash e) < rank (block_hash e))%nat.

(** C24: in every state that insertions of blocks, in any order, removals and changes of the
    head lead to, the maps agree: the blocks by number are exactly the blocks by hash,
    and the children map lists only known blocks under their parents; and the next removal returns. *)
Theorem tree_reached_ok (rank : Z -> nat) self (upper : BlockNumHash) (last : Z) (finalized : option BlockNumHash) :
  reached (ranks rank) self ->
  tree_ok self /\
  exists self', remove_until EPOCH_SLOTS self upper last finalized = Some self' /\ blocks_by_hash self' ⊆ blocks_by_hash self.
Proof.
  intros Hre. destruct (tree_states_ok (ranks rank) rank ltac:(done) self Hre) as [Hok Hr]. split; [done|].
  destruct (remove_until_ok self upper last finalized rank Hok Hr) as (self' & ? & _ & _ & ? & _). eauto.
Qed.

(** Such blocks, inserted before their children. *)
Definition in_order (rank : Z -> nat) blocks e : Prop :=
  ranks rank blocks e /\ forall h x, blocks !! h = Some x -> block_parent_hash x <> block_hash e.

(** The trie updates that are recent. *)
Lemma retained_spec self h n u : retained_updates EPOCH_SLOTS self !! h = Some (n, u) <->
  persisted_trie_updates self !! h = Some (n, u) /\
  Z.max 0 (nh_number (current_canonical_head self) - match engine_kind self with Ethereum => wrap_u64 (2 * EPOCH_SLOTS) | OpStack => EPOCH_SLOTS end) < n.
Proof.
  unfold retained_updates, prune_persisted_trie_updates, OPSTACK_PERSISTED_TRIE_UPDATES_RETENTION, DEFAULT_PERSISTED_TRIE_UPDATES_RETENTION.
  simpl. rewrite map_lookup_filter_Some. simpl. destruct (engine_kind self); simpl; [|done]. by rewrite (Z.mul_comm EPOCH_SLOTS 2).
Qed.

(** C25: when blocks are inserted before their children, finalizing a block leaves exactly the blocks from its number on
    that do not fork off its chain there: every other block of that number is gone with
    everything above it.  Of the trie updates of persisted blocks exactly those stay of which the block number is more than the canonical head's minus the
    retention: two epochs, or one for an OP stack engine. *)
Theorem prune_finalized_exact (rank : Z -> nat) self (f : BlockNumHash) :
  reached (in_order rank) self ->
  exists self', prune_finalized_sidechains EPOCH_SLOTS self f = Some self' /\ tree_ok self' /\
    (forall h e, blocks_by_hash self' !! h = Some e <->
       blocks_by_hash self !! h = Some e /\ nh_number f <= block_number e /\ ~ forks_off (blocks_by_hash self) f h) /\
    (forall h n u, persisted_trie_updates self' !! h = Some (n, u) <->
       persisted_trie_updates self !! h = Some (n, u) /\
       Z.max 0 (nh_number (current_canonical_head self) - match engine_kind self with Ethereum => wrap_u64 (2 * EPOCH_SLOTS) | OpStack => EPOCH_SLOTS end) < n).
Proof.
  intros Hre. destruct (tree_states_ok (in_order rank) rank ltac:(by intros ? ? [? _]) self Hre) as [Hok Hr].
  assert (complete self) as Hc.
  { apply (reached_complete (in_order rank) rank); [by intros ? ? [? _]|intros blocks e h x [_ Hl]; apply Hl|done]. }
  destruct (prune_finalized_ok EPOCH_SLOTS self f Hok) as (self' & He & Hok' & Hs & Hkeep & Hgone & Hp & _).
  exists self'. split_and!; [done|done| |].
  - intros h e. split; [|naive_solver]. intros Hx. split; [by eapply lookup_weaken|]. by apply (proj2 (Hgone Hc) h).
  - intros h n u. rewrite Hp. apply retained_spec.
Qed.

(** ** Descendants *)

Definition consecutive blocks : Prop :=
  forall h e p, blocks !! h = Some e -> blocks !! block_parent_hash e = Some p -> block_number e = block_number p + 1.
Definition u64_numbers blocks : Prop := map_Forall (fun _ e => 0 <= block_number e < u64_modulus) blocks.

Definition height blocks h : nat :=
  match blocks !! h with Some e => S (Z.to_nat (block_number e)) | None => 0%nat end.

Lemma height_ranked blocks : consecutive blocks -> u64_numbers blocks -> acyclic (height blocks) blocks.
Proof.
  intros Hc Hu h e He. unfold height. rewrite He. destruct (blocks !! block_parent_hash e) as [p|] eqn:Ep; [|lia].
  specialize (Hc h e p He Ep). pose proof (Hu _ _ Ep) as Hp. simpl in Hp. lia.
Qed.

Lemma is_descendant_loop_sound self first l : forall fuel current,
  walk (blocks_by_hash self) (block_parent_hash current) l -> (length l < fuel)%nat ->
  exists b, is_descendant_loop fuel self first current = Some b /\
    (b = true -> exists l', line (blocks_by_hash self) (block_parent_hash current) l' (nh_hash first)).
Proof.
  induction l as [|e l IH]; intros fuel current Hl Hf; (destruct fuel as [|fuel]; [simpl in Hf; lia|]); cbn [is_descendant_loop];
    inversion Hl as [? Hn|? ? ? He Hl']; subst.
  - rewrite Hn. destruct (_ <? _); [by exists false|]. eexists. split; [done|]. intros ?; bools. exists []. rewrite H0. constructor.
  - rewrite He. destruct (_ <? _).
    + destruct (IH fuel e Hl') as (b & -> & Hb); [simpl in Hf; lia|]. exists b. split; [done|].
      intros (l' & Hp)%Hb. exists (e :: l'). by econstructor.
    + eexists. split; [done|]. intros ?; bools. exists []. rewrite H0. constructor.
Qed.

Lemma is_descendant_loop_complete self first l : forall fuel current,
  consecutive (blocks_by_hash self) -> u64_numbers (blocks_by_hash self) -> 0 <= nh_number first ->
  (exists h, blocks_by_hash self !! h = Some current) ->
  line (blocks_by_hash self) (block_parent_hash current) l (nh_hash first) ->
  block_number current = nh_number first + 1 + Z.of_nat (length l) -> (length l < fuel)%nat ->
  is_descendant_loop fuel self first current = Some true.
Proof.
  induction l as [|e l IH]; intros fuel current Hc Hu Hpos [h Hcur] Hp Hn Hf; (destruct fuel as [|fuel]; [simpl in Hf; lia|]);
    cbn [is_descendant_loop]; pose proof (Hu _ _ Hcur) as Hb; simpl in Hb, Hn, Hf;
    unfold wrap_u64; rewrite (Z.mod_small (nh_number first + 1)) by lia; inversion Hp as [|? ? ? ? He Hp']; subst.
  - rewrite (proj2 (Z.ltb_ge _ _)) by lia. by rewrite (proj2 (Z.eqb_eq _ _)).
  - rewrite (proj2 (Z.ltb_lt _ _)) by lia. rewrite He. apply IH; [done|done|done|by eexists|done| |lia].
    pose proof (Hc _ _ _ Hcur He). lia.
Qed.

(** The number of a block above the end of a line of known blocks. *)
Lemma line_number blocks first l : forall h e,
  consecutive blocks -> (forall h e, blocks !! h = Some e -> block_parent_hash e = nh_hash first -> block_number e = nh_number first + 1) ->
  blocks !! h = Some e -> line blocks (block_parent_hash e) l (nh_hash first) ->
  block_number e = nh_number first + 1 + Z.of_nat (length l).
Proof.
  induction l as [|p l IH]; intros h e Hc Hfirst He Hl; inversion Hl as [? Hh|? ? ? ? Hp Hl']; subst.
  - rewrite (Hfirst h e) by done. simpl. lia.
  - rewrite (Hc h e p) by done. rewrite (IH _ p Hc Hfirst Hp Hl'). simpl. lia.
Qed.

Lemma line_length blocks h l h' rank : acyclic rank blocks -> line blocks h l h' -> (length l <= size blocks)%nat.
Proof.
  intros Hr Hp. destruct (ancestors_exist _ _ _ Hr h') as (l' & Hl' & _). destruct (ancestors_exist _ _ _ Hr h) as (l2 & Hl2 & Hlen).
  rewrite (ancestors_unique _ _ _ _ _ Hl2 (path_ancestors _ _ _ _ _ _ Hp Hl')), length_app in Hlen. lia.
Qed.

(** When the blocks in memory are numbered one by one along their parents, [is_descendant] says exactly whether the parents of
    the second block lead, through blocks in memory, to the first; it always answers. *)
Theorem is_descendant_exact self (first : BlockNumHash) (second : BlockWithParent) :
  consecutive (blocks_by_hash self) -> u64_numbers (blocks_by_hash self) ->
  0 <= nh_number first ->
  (forall p, blocks_by_hash self !! bwp_parent second = Some p -> nh_number (bwp_block second) = block_number p + 1) ->
  (forall h e, blocks_by_hash self !! h = Some e -> block_parent_hash e = nh_hash first -> block_number e = nh_number first + 1) ->
  exists b, is_descendant self first second = Some b /\
    (b = true <-> exists l, line (blocks_by_hash self) (bwp_parent second) l (nh_hash first)).
Proof.
  intros Hc Hu Hpos Hsecond Hfirst. pose proof (height_ranked _ Hc Hu) as Hr. unfold is_descendant.
  destruct (bwp_parent second =? nh_hash first) eqn:Ep; bools.
  { exists true. split; [done|]. split; [|done]. intros _. exists []. rewrite Ep. constructor. }
  assert ((exists l, line (blocks_by_hash self) (bwp_parent second) l (nh_hash first)) ->
    exists p l, blocks_by_hash self !! bwp_parent second = Some p /\ line (blocks_by_hash self) (block_parent_hash p) l (nh_hash first) /\
      block_number p = nh_number first + 1 + Z.of_nat (length l)) as Hline.
  { intros (l & Hl). inversion Hl as [|? p l' ? Hp Hl']; subst; [done|]. exists p, l'. split_and!; [done|done|].
    by apply (line_number (blocks_by_hash self) first l' (bwp_parent second) p). }
  destruct (nh_number (bwp_block second) <=? nh_number first) eqn:En; bools.
  { exists false. split; [done|]. split; [done|]. intros (p & l & Hp & _ & Hn)%Hline. rewrite (Hsecond p Hp) in En. lia. }
  destruct (blocks_by_hash self !! bwp_parent second) as [p|] eqn:E.
  2: { exists false. split; [done|]. split; [done|]. intros (p & l & Hp & _)%Hline. done. }
  destruct (ancestors_exist _ _ _ Hr (block_parent_hash p)) as (l & Hl & Hlen).
  destruct (is_descendant_loop_sound self first l (S (size (blocks_by_hash self))) p Hl) as (b & Hb & Hsound); [lia|].
  exists b. split; [done|]. split.
  - intros (l' & Hl')%Hsound. exists (p :: l'). by econstructor.
  - intros (p' & l' & [= <-] & Hl' & Hn)%Hline.
    rewrite (is_descendant_loop_complete self first l') in Hb; [congruence|done|done|done|by eexists|done|done|].
    pose proof (line_length _ _ _ _ _ Hr Hl'). lia.
Qed.

End claims.

(** ** Witnesses *)

Definition executed (h p n : Z) : ExecutedBlockWithTrieUpdates SimpleBlock unit := mkExecuted (mkSimple h p n) (Present tt).

(** The canonical chain 1, 2, 3 and a fork 12, 13 of block 1. *)
Definition sample : TreeState :=
  foldl insert_executed (new (mkNumHash 3 3) Ethereum)
    [executed 1 0 1; executed 2 1 2; executed 3 2 3; executed 12 1 2; executed 13 12 3].

Lemma sample_reached : reached 32 (in_order Z.to_nat) sample.
Proof.
  unfold sample. cbn [foldl].
  repeat match goal with
  | |- reached _ _ (insert_executed _ _) =>
      apply reached_insert; [|split; [by vm_compute; lia|]; apply map_Forall_lookup, (bool_decide_unpack _); by vm_compute]
  end.
  apply reached_new.
Qed.

Lemma sample_reached_ranks : reached 32 (ranks Z.to_nat) sample.
Proof.
  unfold sample. cbn [foldl].
  repeat match goal with |- reached _ _ (insert_executed _ _) => apply reached_insert; [|by vm_compute; lia] end.
  apply reached_new.
Qed.

Lemma tree_sample_ok : tree_ok sample /\ ranked block_parent_hash Z.to_nat (blocks_by_hash sample).
Proof. apply (tree_states_ok 32 (ranks Z.to_nat)); [done|apply sample_reached_ranks]. Qed.

Lemma tree_reached_ok_witness :
  (tree_ok sample /\
   exists self', remove_until 32 sample (mkNumHash 2 2) 2 (Some (mkNumHash 2 2)) = Some self' /\
     blocks_by_hash self' ⊆ blocks_by_hash sample) /\
  (elements ∘ dom ∘ blocks_by_hash <$> remove_until 32 sample (mkNumHash 2 2) 2 (Some (mkNumHash 2 2))) = Some [3].
Proof. split; [apply (tree_reached_ok 32 Z.to_nat), sample_reached_ranks|reflexivity]. Defined.

Lemma prune_finalized_exact_witness :
  (exists self', prune_finalized_sidechains 32 sample (mkNumHash 2 2) = Some self' /\ tree_ok self' /\
    (forall h e, blocks_by_hash self' !! h = Some e <->
       blocks_by_hash sample !! h = Some e /\ 2 <= block_number e /\ ~ forks_off (blocks_by_hash sample) (mkNumHash 2 2) h)) /\
  (dom ∘ blocks_by_hash <$> prune_finalized_sidechains 32 sample (mkNumHash 2 2)) = Some ({[2; 3]} : gset Z).
Proof.
  split; [|reflexivity]. destruct (prune_finalized_exact 32 Z.to_nat sample (mkNumHash 2 2) sample_reached) as (s & ? & ? & ? & _).
  exists s. split_and!; assumption.
Defined.

Lemma remove_canonical_exact_witness :
  (exists l self', ancestors block_parent_hash (blocks_by_hash sample) 3 l /\ remove_canonical_until sample 2 2 = Some self' /\
    (persisted_on_chain sample l 2 ->
     forall h e, blocks_by_hash self' !! h = Some e <-> blocks_by_hash sample !! h = Some e /\ ~ (e ∈ l /\ block_number e <= 2))) /\
  (dom ∘ blocks_by_hash <$> remove_canonical_until sample 2 2) = Some ({[3; 12; 13]} : gset Z).
Proof.
  split; [|reflexivity].
  destruct (remove_canonical_exact sample 2 2 Z.to_nat) as (l & s & ? & ? & _ & Hy); [apply tree_sample_ok..|].
  exists l, s. split_and!; [assumption..|]. intros Hp. apply Hy, Hp.
Defined.

Lemma chain_by_hash_exact_witness :
  (exists root l, chain_by_hash sample 13 = Some (Some (root, executed 13 12 3 :: l)) /\
      path block_parent_hash (blocks_by_hash sample) 13 (executed 13 12 3 :: l) root /\ blocks_by_hash sample !! root = None) /\
  chain_by_hash sample 13 = Some (Some (0, [executed 13 12 3; executed 12 1 2; executed 1 0 1])).
Proof. split; [apply (chain_by_hash_exact sample 13 Z.to_nat), tree_sample_ok|reflexivity]. Defined.

Lemma sample_consecutive : consecutive (blocks_by_hash sample) /\ u64_numbers (blocks_by_hash sample).
Proof.
  assert (map_Forall (fun _ e =>
    match blocks_by_hash sample !! block_parent_hash e with Some p => block_number e =? block_number p + 1 | None => true end = true)
    (blocks_by_hash sample)) as Hc by (apply (bool_decide_unpack _); by vm_compute).
  split.
  - intros h e p He Hp. specialize (Hc h e He). simpl in Hc. rewrite Hp in Hc. by apply Z.eqb_eq.
  - apply (bool_decide_unpack _). by vm_compute.
Qed.

Lemma is_descendant_exact_witness :
  (exists b, is_descendant sample (mkNumHash 1 1) (mkBlockWithParent 13 (mkNumHash 4 14)) = Some b /\
    (b = true <-> exists l, path block_parent_hash (blocks_by_hash sample) 13 l 1)) /\
  is_descendant sample (mkNumHash 1 1) (mkBlockWithParent 13 (mkNumHash 4 14)) = Some true /\
  is_descendant sample (mkNumHash 2 2) (mkBlockWithParent 13 (mkNumHash 4 14)) = Some false.
Proof.
  split; [|split; reflexivity].
  apply (is_descendant_exact sample (mkNumHash 1 1) (mkBlockWithParent 13 (mkNumHash 4 14))).
  - apply sample_consecutive.
  - apply sample_consecutive.
  - done.
  - intros p Hp. vm_compute in Hp. by injection Hp as <-.
  - change (map_Forall (fun _ e => block_parent_hash e = 1 -> block_number e = 1 + 1) (blocks_by_hash sample)).
    apply (bool_decide_unpack _). by vm_compute.
Defined.

(** ** Children of a block that comes back

    Block 2 is persisted and leaves memory, block 3 stays; after a reorg to the chain 22, 23 the
    block 2 is inserted again, but the children map has forgotten its children: when
    22 is finalized, block 2 is pruned and its child 3 is not. *)
Definition reorged : option TreeState :=
  self ← remove_canonical_until
    (foldl insert_executed (new (mkNumHash 3 3) Ethereum) [executed 1 0 1; executed 2 1 2; executed 3 2 3]) 2 2;
  let self := foldl insert_executed self [executed 22 1 2; executed 23 22 3] in
  Some (foldl insert_executed (set_canonical_head self (mkNumHash 3 23)) [executed 2 1 2]).

Lemma returned_parent_leaks :
  exists self self', reorged = Some self /\ prune_finalized_sidechains 32 self (mkNumHash 2 22) = Some self' /\
    forks_off (blocks_by_hash self) (mkNumHash 2 22) 3 /\ blocks_by_hash self' !! 2 = None /\
    blocks_by_hash self' !! 3 = Some (executed 3 2 3).
Proof.
  eexists _, _. split_and!; [reflexivity|reflexivity| |reflexivity|reflexivity].
  apply (forks_above _ _ 3 (executed 3 2 3)); [reflexivity|by vm_compute|].
  by apply (forks_at _ _ _ (executed 2 1 2)).
Qed.

End TreeClaims.
