(* ===== verification/Forkchoice.v ===== *)
(** * Forkchoice states and persistence

    [crates/engine/primitives/src/forkchoice.rs]: the forkchoice states that were received, and
    [crates/engine/tree/src/tree/persistence_state.rs]: the task that writes to or removes from the
    database. *)

From S2P Require Import Prelude EngineBlocks.
Import EngineBlocks.

Module Forkchoice.

(** [ForkchoiceState] of [alloy_rpc_types_engine]. *)
Record ForkchoiceState := mkForkchoiceState {
  head_block_hash : Z;
  safe_block_hash : Z;
  finalized_block_hash : Z;
}.

(** [PayloadStatusEnum] of [alloy_rpc_types_engine], without the text of the error. *)
Inductive PayloadStatusEnum := PValid | PInvalid | PSyncing | PAccepted.

Inductive ForkchoiceStatus := FValid | FInvalid | FSyncing.
#[global] Instance forkchoice_status_eq_dec : EqDecision ForkchoiceStatus.
Proof. solve_decision. Defined.

Definition is_valid (s : ForkchoiceStatus) : bool := match s with FValid => true | _ => false end.
Definition is_invalid (s : ForkchoiceStatus) : bool := match s with FInvalid => true | _ => false end.
Definition is_syncing (s : ForkchoiceStatus) : bool := match s with FSyncing => true | _ => false end.
Definition from_payload_status (s : PayloadStatusEnum) : ForkchoiceStatus :=
  match s with
  | PValid | PAccepted => FValid
  | PInvalid => FInvalid
  | PSyncing => FSyncing
  end.

Record ReceivedForkchoiceState := mkReceived { r_state : ForkchoiceState; r_status : ForkchoiceStatus }.

Record ForkchoiceStateTracker := mkTracker {
  latest : option ReceivedForkchoiceState;
  last_syncing : option ForkchoiceState;
  last_valid : option ForkchoiceState;
}.
Implicit Types (self : ForkchoiceStateTracker).

Definition tracker_default : ForkchoiceStateTracker := mkTracker None None None.

Definition set_valid self (state : ForkchoiceState) : ForkchoiceStateTracker :=
  mkTracker (latest self) None (Some state).
Definition set_latest self (state : ForkchoiceState) (status : ForkchoiceStatus) : ForkchoiceStateTracker :=
  let self :=
    if is_valid status then set_valid self state
    else if is_syncing status then mkTracker (latest self) (Some state) (last_valid self) else self in
  mkTracker (Some (mkReceived state status)) (last_syncing self) (last_valid self).

Definition latest_status self : option ForkchoiceStatus := r_status <$> latest self.
Definition is_latest_invalid self : bool := from_option is_invalid false (latest_status self).
Definition last_valid_head self : option Z := head_block_hash <$> last_valid self.
Definition sync_target self : option Z := head_block_hash <$> last_syncing self.
Definition latest_state self : option ForkchoiceState := r_state <$> latest self.
Definition last_valid_state self : option ForkchoiceState := last_valid self.
Definition nonzero_finalized (s : option ForkchoiceState) : option Z :=
  state ← s; if finalized_block_hash state =? 0 then None else Some (finalized_block_hash state).
Definition last_valid_finalized self : option Z := nonzero_finalized (last_valid self).
Definition sync_target_state self : option ForkchoiceState := last_syncing self.
Definition sync_target_finalized self : option Z := nonzero_finalized (last_syncing self).
Definition is_empty self : bool := match latest self with None => true | Some _ => false end.

Inductive ForkchoiceStateHash := Head (h : Z) | Safe (h : Z) | Finalized (h : Z).
Definition find_hash (state : ForkchoiceState) (h : Z) : option ForkchoiceStateHash :=
  if head_block_hash state =? h then Some (Head h)
  else if safe_block_hash state =? h then Some (Safe h)
  else if finalized_block_hash state =? h then Some (Finalized h) else None.

(** ** What the tracker remembers *)

(** The tracker after a list of updates, the oldest first. *)
Definition track (updates : list (ForkchoiceState * ForkchoiceStatus)) : ForkchoiceStateTracker :=
  foldl (fun self u => set_latest self u.1 u.2) tracker_default updates.

(** The last update with a status that a predicate accepts. *)
Definition last_with (p : ForkchoiceStatus -> bool) (updates : list (ForkchoiceState * ForkchoiceStatus)) : option ForkchoiceState :=
  fst <$> last (filter (fun u => p u.2 = true) updates).

(** After any updates the tracker knows the last one, the last valid one, and the last
    one to sync to since the last valid one; invalid ones change neither. *)
Theorem tracker_exact (updates : list (ForkchoiceState * ForkchoiceStatus)) :
  latest (track updates) = (fun u => mkReceived u.1 u.2) <$> last updates /\
  last_valid (track updates) = last_with is_valid updates /\
  exists before after, updates = before ++ after /\ last_with is_valid after = None /\
    (before = [] \/ exists s, last before = Some (s, FValid)) /\
    sync_target_state (track updates) = last_with is_syncing after.
Proof.
  induction updates as [|[s st] us (IH1 & IH2 & before & after & -> & Ha & Hb & IH3)] using rev_ind.
  { split_and!; try done. exists [], []. auto. }
  unfold track. rewrite foldl_app. cbn [foldl]. fold (track (before ++ after)). cbn [fst snd].
  assert (forall p l, last_with p (l ++ [(s, st)]) = if p st then Some s else last_with p l) as Hlast.
  { intros p l. unfold last_with. rewrite filter_app. destruct (p st) eqn:E.
    - rewrite filter_cons_True, filter_nil by done. by rewrite last_snoc.
    - rewrite filter_cons_False, filter_nil by (simpl; congruence). by rewrite app_nil_r. }
  rewrite last_snoc, Hlast. split_and!; [done|destruct st; simpl; done|].
  destruct st; cbn [is_valid].
  - exists ((before ++ after) ++ [(s, FValid)]), []. rewrite app_nil_r. split_and!; [done|done| |done].
    right. exists s. by rewrite last_snoc.
  - exists before, (after ++ [(s, FInvalid)]). rewrite app_assoc, !Hlast. by split_and!.
  - exists before, (after ++ [(s, FSyncing)]). rewrite app_assoc, !Hlast. by split_and!.
Qed.

(** ** Persistence *)

Section persistence.
(** The receiver of the answer of the task, with the time of its start. *)
Context {Rx : Type}.

Inductive CurrentPersistenceAction :=
| SavingBlocks (highest : BlockNumHash)
| RemovingBlocks (new_tip_num : Z).

Record PersistenceState := mkPersistence {
  last_persisted_block : BlockNumHash;
  rx : option (Rx * CurrentPersistenceAction);
}.

Definition in_progress (p : PersistenceState) : bool := match rx p with Some _ => true | None => false end.
Definition start_remove (p : PersistenceState) (new_tip_num : Z) (r : Rx) : PersistenceState :=
  mkPersistence (last_persisted_block p) (Some (r, RemovingBlocks new_tip_num)).
Definition start_save (p : PersistenceState) (highest : BlockNumHash) (r : Rx) : PersistenceState :=
  mkPersistence (last_persisted_block p) (Some (r, SavingBlocks highest)).
Definition current_action (p : PersistenceState) : option CurrentPersistenceAction := snd <$> rx p.
Definition finish (p : PersistenceState) (hash number : Z) : PersistenceState :=
  mkPersistence (mkNumHash number hash) None.

End persistence.
Arguments PersistenceState : clear implicits.

End Forkchoice.
