(* ===== verification/EngineTree.v ===== *)
(** * Handler of the engine tree: chains

    [crates/engine/tree/src/tree/mod.rs]: what the handler reads of its state to find the chain that leads to a new head,
    the point where the database and the memory part, the blocks to write, and the
    answers about invalid blocks.  The database is a record of look-ups. *)

From S2P Require Import Prelude Ordered EngineBlocks BlockBuffer InvalidHeaders TreeState Forkchoice.
Import EngineBlocks.
Local Open Scope reth_scope.

Module Engine.
Import Tree Forkchoice.

Record SealedHeader := mkSealedHeader { sh_hash : Z; sh_parent_hash : Z; sh_number : Z; sh_difficulty : Z }.

#[global] Instance header_block : BlockTrait SealedHeader :=
  {| block_hash := sh_hash; block_parent_hash := sh_parent_hash; block_number := sh_number |}.

(** A block with its senders is seen through its header. *)
Class RecoveredBlock (RB : Type) := { sealed_header : RB -> SealedHeader }.
#[global] Instance recovered_block_trait {RB} `{!RecoveredBlock RB} : BlockTrait RB :=
  {| block_hash := fun b => sh_hash (sealed_header b); block_parent_hash := fun b => sh_parent_hash (sealed_header b);
     block_number := fun b => sh_number (sealed_header b) |}.

(** [ExecutedBlock]: the block, its outcome and its hashed state. *)
Record ExecutedBlock (RB Out HS : Type) := mkExecutedBlock { recovered_block : RB; execution_output : Out; hashed_state : HS }.
Arguments mkExecutedBlock {RB Out HS}. Arguments recovered_block {RB Out HS}.
Arguments execution_output {RB Out HS}. Arguments hashed_state {RB Out HS}.

#[global] Instance executed_recovered {RB Out HS} `{!RecoveredBlock RB} : RecoveredBlock (ExecutedBlock RB Out HS) :=
  {| sealed_header := fun b => sealed_header (recovered_block b) |}.

(** The errors of the database that the handler makes itself, and all others. *)
Inductive ProviderError (PE : Type) :=
| HeaderNotFound (h : Z)
| StateForNumberNotFound (n : Z)
| BlockHashNotFound (h : Z)
| OtherProviderError (e : PE).
Arguments HeaderNotFound {PE}. Arguments StateForNumberNotFound {PE}.
Arguments BlockHashNotFound {PE}. Arguments OtherProviderError {PE}.

(** The look-ups in the database. *)
Record Provider (RB Out HS PE : Type) := mkProvider {
  p_sealed_header_by_hash : Z -> result (option SealedHeader) (ProviderError PE);
  p_sealed_block_with_senders : Z -> result (option RB) (ProviderError PE);
  p_get_state : Z -> result (option Out) (ProviderError PE);
  p_hashed_post_state : Out -> HS;
  p_block_number : Z -> result (option Z) (ProviderError PE);
}.
Arguments p_sealed_header_by_hash {RB Out HS PE}. Arguments p_sealed_block_with_senders {RB Out HS PE}.
Arguments p_get_state {RB Out HS PE}. Arguments p_hashed_post_state {RB Out HS PE}. Arguments p_block_number {RB Out HS PE}.

Inductive NewCanonicalChain (EB T : Type) :=
| Commit (new : list (ExecutedBlockWithTrieUpdates EB T))
| Reorg (new : list (ExecutedBlockWithTrieUpdates EB T)) (old : list EB).
Arguments Commit {EB T}. Arguments Reorg {EB T}.

Inductive BackfillSyncState := Idle | Pending | Active.
Definition is_idle (s : BackfillSyncState) : bool := match s with Idle => true | _ => false end.

(** The fields that the handler reads. *)
Record TreeConfig := mkTreeConfig {
  persistence_threshold : Z;
  memory_block_buffer_target : Z;
  block_buffer_limit : Z;
  max_invalid_header_cache_length : Z;
  max_execute_block_batch_size : Z;
  always_process_payload_attributes_on_canonical_head : bool;
  allow_unwind_canonical_header : bool;
}.
Definition tree_config_default : TreeConfig := mkTreeConfig 2 0 256 256 4 false false.

(** [num_hash] and [parent_num_hash] of a block. *)
Definition num_hash {E} `{!BlockTrait E} (e : E) : BlockNumHash := mkNumHash (block_number e) (block_hash e).
Definition parent_num_hash {E} `{!BlockTrait E} (e : E) : BlockNumHash :=
  mkNumHash (Z.max 0 (block_number e - 1)) (block_parent_hash e).
Definition block_with_parent {E} `{!BlockTrait E} (e : E) : BlockWithParent :=
  mkBlockWithParent (block_parent_hash e) (num_hash e).

Section engine.
Context {RB Out HS T PE Rx : Type} `{!RecoveredBlock RB} `{!HashOrder}.

Abbreviation EB := (ExecutedBlock RB Out HS).
Abbreviation Executed := (ExecutedBlockWithTrieUpdates EB T).
Abbreviation PResult A := (result A (ProviderError PE)).

(** The part of the handler that is read here. *)
Record EngineApiTreeHandler := mkHandler {
  provider : Provider RB Out HS PE;
  tree_state : TreeState (B := EB) (T := T);
  persistence_state : PersistenceState Rx;
  backfill_sync_state : BackfillSyncState;
  config : TreeConfig;
}.
Implicit Types (self : EngineApiTreeHandler) (h : Z).

Definition sealed_header_by_hash self h : PResult (option SealedHeader) :=
  match Tree.sealed_header_by_hash (tree_state self) h with
  | Some b => Ok (Some (sealed_header b))
  | None => p_sealed_header_by_hash (provider self) h
  end.

Definition canonical_block_by_hash self h : PResult (option EB) :=
  match executed_block_by_hash (tree_state self) h with
  | Some e => Ok (Some (block e))
  | None =>
      b <-? p_sealed_block_with_senders (provider self) h;
      match b with
      | None => Err (HeaderNotFound h)
      | Some b =>
          output <-? p_get_state (provider self) (block_number b);
          match output with
          | None => Err (StateForNumberNotFound (block_number b))
          | Some output => Ok (Some (mkExecutedBlock b output (p_hashed_post_state (provider self) output)))
          end
      end
  end.

(** ** The chain to a new head *)

(** The first loop of [on_new_head]; the outer option is the fuel.  A list grows at its end. *)
Fixpoint new_chain_loop (fuel : nat) self (canonical_number current_number current_hash : Z) (new_chain : list Executed)
  : option (option (Z * Z * list Executed)) :=
  if canonical_number <? current_number then
    match fuel with
    | O => None
    | S fuel =>
        match executed_block_by_hash (tree_state self) current_hash with
        | Some b => new_chain_loop fuel self canonical_number (wrap_u64 (current_number - 1)) (block_parent_hash b) (new_chain ++ [b])
        | None => Some None
        end
    end
  else Some (Some (current_number, current_hash, new_chain)).

(** The second loop. *)
Fixpoint old_chain_loop (fuel : nat) self (canonical_number current_number old_hash : Z) (old_chain : list EB)
  : option (PResult (option (Z * list EB))) :=
  if current_number <? canonical_number then
    match fuel with
    | O => None
    | S fuel =>
        match canonical_block_by_hash self old_hash with
        | Err e => Some (Err e)
        | Ok None => Some (Ok None)
        | Ok (Some b) => old_chain_loop fuel self (wrap_u64 (canonical_number - 1)) current_number (block_parent_hash b) (old_chain ++ [b])
        end
    end
  else Some (Ok (Some (old_hash, old_chain))).

(** The third loop. *)
Fixpoint fork_loop (fuel : nat) self (old_hash current_hash : Z) (old_chain : list EB) (new_chain : list Executed)
  : option (PResult (option (list EB * list Executed))) :=
  if old_hash =? current_hash then Some (Ok (Some (old_chain, new_chain)))
  else
    match fuel with
    | O => None
    | S fuel =>
        match canonical_block_by_hash self old_hash with
        | Err e => Some (Err e)
        | Ok None => Some (Ok None)
        | Ok (Some old) =>
            match executed_block_by_hash (tree_state self) current_hash with
            | None => Some (Ok None)
            | Some new => fork_loop fuel self (block_parent_hash old) (block_parent_hash new) (old_chain ++ [old]) (new_chain ++ [new])
            end
        end
    end.

Definition on_new_head (fuel : nat) self (new_head : Z) : option (PResult (option (NewCanonicalChain EB T))) :=
  match executed_block_by_hash (tree_state self) new_head with
  | None => Some (Ok None)
  | Some new_head_block =>
      let head := current_canonical_head (tree_state self) in
      r ← new_chain_loop fuel self (nh_number head) (wrap_u64 (block_number new_head_block - 1))
            (block_parent_hash new_head_block) [new_head_block];
      match r with
      | None => Some (Ok None)
      | Some (current_number, current_hash, new_chain) =>
          if current_hash =? nh_hash head then Some (Ok (Some (Commit (reverse new_chain))))
          else
            r ← old_chain_loop fuel self (nh_number head) current_number (nh_hash head) [];
            match r with
            | Err e => Some (Err e)
            | Ok None => Some (Ok None)
            | Ok (Some (old_hash, old_chain)) =>
                r ← fork_loop fuel self old_hash current_hash old_chain new_chain;
                match r with
                | Err e => Some (Err e)
                | Ok None => Some (Ok None)
                | Ok (Some (old_chain, new_chain)) => Some (Ok (Some (Reorg (reverse new_chain) (reverse old_chain))))
                end
            end
      end
  end.

(** ** Where the database and the memory part *)

Definition header_parent self (nh : BlockNumHash) : PResult BlockNumHash :=
  header <-? sealed_header_by_hash self (nh_hash nh);
  match header with
  | None => Err (BlockHashNotFound (nh_hash nh))
  | Some header => Ok (parent_num_hash header)
  end.

(** [while nh.number > number { nh = parent_num_hash(nh)? }]. *)
Fixpoint walk_down (fuel : nat) self (number : Z) (nh : BlockNumHash) : option (PResult BlockNumHash) :=
  if number <? nh_number nh then
    match fuel with
    | O => None
    | S fuel =>
        match header_parent self nh with
        | Err e => Some (Err e)
        | Ok nh => walk_down fuel self number nh
        end
    end
  else Some (Ok nh).

Fixpoint common_ancestor (fuel : nat) self (persisted canonical : BlockNumHash) : option (PResult BlockNumHash) :=
  if nh_hash persisted =? nh_hash canonical then Some (Ok persisted)
  else
    match fuel with
    | O => None
    | S fuel =>
        match header_parent self canonical with
        | Err e => Some (Err e)
        | Ok canonical =>
            match header_parent self persisted with
            | Err e => Some (Err e)
            | Ok persisted => common_ancestor fuel self persisted canonical
            end
        end
    end.

Definition find_disk_reorg (fuel : nat) self : option (PResult (option Z)) :=
  let canonical := current_canonical_head (tree_state self) in
  let persisted := last_persisted_block (persistence_state self) in
  r ← walk_down fuel self (nh_number persisted) canonical;
  match r with
  | Err e => Some (Err e)
  | Ok canonical =>
      if bool_decide (canonical = persisted) then Some (Ok None)
      else
        r ← walk_down fuel self (nh_number canonical) persisted;
        match r with
        | Err e => Some (Err e)
        | Ok persisted =>
            r ← common_ancestor fuel self persisted canonical;
            match r with
            | Err e => Some (Err e)
            | Ok ancestor => Some (Ok (Some (nh_number ancestor)))
            end
        end
  end.

(** ** Blocks to write *)

Definition should_persist self : bool :=
  if negb (is_idle (backfill_sync_state self)) then false
  else
    let min_block := nh_number (last_persisted_block (persistence_state self)) in
    persistence_threshold (config self) <? Z.max 0 (canonical_block_number (tree_state self) - min_block).

Definition trie_present (e : Executed) : bool := match trie e with Present _ => true | Missing => false end.

(** The loop that collects the blocks. *)
Fixpoint collect_blocks (fuel : nat) self (last_persisted target current_hash : Z) (acc : list Executed) : option (list Executed) :=
  match fuel with
  | O => None
  | S fuel =>
      match blocks_by_hash (tree_state self) !! current_hash with
      | None => Some acc
      | Some b =>
          if block_number b <=? last_persisted then Some acc
          else collect_blocks fuel self last_persisted target (block_parent_hash b)
                 (if block_number b <=? target then acc ++ [b] else acc)
      end
  end.

Definition persist_target self : Z :=
  if bool_decide (map_Forall (fun _ e => trie_present e = true) (blocks_by_hash (tree_state self)))
  then Z.max 0 (canonical_block_number (tree_state self) - memory_block_buffer_target (config self))
  else canonical_block_number (tree_state self).

Definition blocks_to_persist self : option (list Executed) :=
  acc ← collect_blocks (S (size (blocks_by_hash (tree_state self)))) self
          (nh_number (last_persisted_block (persistence_state self))) (persist_target self)
          (canonical_block_hash (tree_state self)) [];
  Some (reverse acc).

End engine.
End Engine.
