(* ===== verification/EngineClaims.v ===== *)
(** * What the chains of the handler promise

    The chain that [on_new_head] returns, the reorg that [find_disk_reorg] finds, and the blocks that are
    written to the database. *)

From S2P Require Import Prelude Ordered EngineBlocks TreeState TreeProps Forkchoice EngineTree.
Import EngineBlocks.
Local Open Scope reth_scope.

Module EngineClaims.
Import Tree TreeProps Forkchoice Engine.

(** ** Trails *)

Section trail.
Context {E : Type} `{!BlockTrait E} (get : Z -> option E).

(** The blocks from the hash [h] down to, and without, the hash [x], each found under its hash. *)
Inductive trail : Z -> list E -> Z -> Prop :=
| trail_nil h : trail h [] h
| trail_cons h e l x : get h = Some e -> block_hash e = h -> trail (block_parent_hash e) l x -> trail h (e :: l) x.

Lemma trail_split h a b x : trail h (a ++ b) x -> exists y, trail h a y /\ trail y b x.
Proof.
  revert h. induction a as [|e a IH]; intros h Ht; [exists h; split; [constructor|done]|].
  inversion Ht as [|? ? ? ? Hg Hh Ht']; subst. destruct (IH _ Ht') as (y & ? & ?). exists y. split; [by econstructor|done].
Qed.

Lemma trail_app h a y b x : trail h a y -> trail y b x -> trail h (a ++ b) x.
Proof. induction 1; [done|]. intros Hb. simpl. econstructor; eauto. Qed.

Lemma trail_nil_inv h x : trail h [] x -> h = x.
Proof. by inversion 1. Qed.

Lemma trail_cons_inv h e l x : trail h (e :: l) x -> get h = Some e /\ block_hash e = h /\ trail (block_parent_hash e) l x.
Proof. by inversion 1. Qed.
End trail.

Section claims.
Context {RB Out HS T PE Rx : Type} `{!RecoveredBlock RB} `{!HashOrder}.
Abbreviation EB := (ExecutedBlock RB Out HS).
Abbreviation Executed := (ExecutedBlockWithTrieUpdates EB T).
Implicit Types (self : EngineApiTreeHandler (RB := RB) (Out := Out) (HS := HS) (T := T) (PE := PE) (Rx := Rx)) (h : Z).

(** The executed blocks in memory, and the blocks of the canonical chain in memory or in the database. *)
Definition tree_get self h : option Executed := executed_block_by_hash (tree_state self) h.
Definition canon_get self h : option EB :=
  match canonical_block_by_hash self h with Ok b => b | Err _ => None end.

(** ** The chain to a new head *)

Lemma new_chain_loop_ok self n l : forall fuel h x acc,
  trail (tree_get self) h l x -> 0 <= n -> n + Z.of_nat (length l) < u64_modulus -> (length l <= fuel)%nat ->
  new_chain_loop fuel self n (n + Z.of_nat (length l)) h acc = Some (Some (n, x, acc ++ l)).
Proof.
  induction l as [|e l IH]; intros fuel h x acc Ht Hn Hu Hf.
  - apply trail_nil_inv in Ht as ->. simpl. rewrite Z.add_0_r, app_nil_r. destruct fuel; simpl; by rewrite Z.ltb_irrefl.
  - apply trail_cons_inv in Ht as (Hg & _ & Ht). simpl length in *. destruct fuel as [|fuel]; [lia|]. cbn [new_chain_loop].
    rewrite (proj2 (Z.ltb_lt _ _)) by lia. unfold tree_get in Hg. rewrite Hg. rewrite wrap_u64_small by (unfold is_u64; lia).
    replace (n + Z.of_nat (S (length l)) - 1) with (n + Z.of_nat (length l)) by lia.
    rewrite (IH fuel _ x) by (done || lia). by rewrite <- app_assoc.
Qed.

Lemma new_chain_loop_stop self n k fuel h acc : k <= n -> new_chain_loop fuel self n k h acc = Some (Some (k, h, acc)).
Proof. intros Hk. destruct fuel; simpl; by rewrite (proj2 (Z.ltb_ge _ _)) by lia. Qed.

Lemma canon_get_ok self h b : canon_get self h = Some b -> canonical_block_by_hash self h = Ok (Some b).
Proof. unfold canon_get. destruct (canonical_block_by_hash self h); [by intros ->|done]. Qed.

Lemma old_chain_loop_ok self n l : forall fuel h x acc,
  trail (canon_get self) h l x -> 0 <= n -> n + Z.of_nat (length l) < u64_modulus -> (length l <= fuel)%nat ->
  old_chain_loop fuel self (n + Z.of_nat (length l)) n h acc = Some (Ok (Some (x, acc ++ l))).
Proof.
  induction l as [|e l IH]; intros fuel h x acc Ht Hn Hu Hf.
  - apply trail_nil_inv in Ht as ->. simpl. rewrite Z.add_0_r, app_nil_r. destruct fuel; simpl; by rewrite Z.ltb_irrefl.
  - apply trail_cons_inv in Ht as (Hg & _ & Ht). simpl length in *. destruct fuel as [|fuel]; [lia|]. cbn [old_chain_loop].
    rewrite (proj2 (Z.ltb_lt _ _)) by lia. rewrite (canon_get_ok _ _ _ Hg). rewrite wrap_u64_small by (unfold is_u64; lia).
    replace (n + Z.of_nat (S (length l)) - 1) with (n + Z.of_nat (length l)) by lia.
    rewrite (IH fuel _ x) by (done || lia). by rewrite <- app_assoc.
Qed.

(** No block of one list has the hash of a block of the other. *)
Definition apart (l1 : list Executed) (l2 : list EB) : Prop :=
  forall e1 e2, e1 ∈ l1 -> e2 ∈ l2 -> block_hash e1 <> block_hash e2.

Lemma fork_loop_ok self x l2 : forall l1 fuel h2 h1 acc2 acc1,
  trail (canon_get self) h2 l2 x -> trail (tree_get self) h1 l1 x -> length l1 = length l2 -> apart l1 l2 -> (length l2 <= fuel)%nat ->
  fork_loop fuel self h2 h1 acc2 acc1 = Some (Ok (Some (acc2 ++ l2, acc1 ++ l1))).
Proof.
  induction l2 as [|e2 l2 IH]; intros l1 fuel h2 h1 acc2 acc1 Ht2 Ht1 Hlen Hd Hf.
  - destruct l1; [|done]. apply trail_nil_inv in Ht2 as ->. apply trail_nil_inv in Ht1 as ->.
    destruct fuel; simpl; by rewrite Z.eqb_refl, !app_nil_r.
  - destruct l1 as [|e1 l1]; [done|]. apply trail_cons_inv in Ht2 as (Hg2 & Hh2 & Ht2). apply trail_cons_inv in Ht1 as (Hg1 & Hh1 & Ht1).
    simpl in Hlen, Hf. destruct fuel as [|fuel]; [lia|]. cbn [fork_loop].
    rewrite (proj2 (Z.eqb_neq _ _)) by (rewrite <- Hh1, <- Hh2; apply not_eq_sym, Hd; by left).
    rewrite (canon_get_ok _ _ _ Hg2). unfold tree_get in Hg1. rewrite Hg1.
    rewrite (IH l1 fuel) by (done || lia || (intros ? ? ? ?; apply Hd; by right)). by rewrite <- !app_assoc.
Qed.

(** C22: when the new head leads through blocks in memory, and the old head through the canonical chain, to the
    same block, with no other block in common, [on_new_head] returns exactly these two chains, oldest first: a
    commit if the common block is the old head, a reorg otherwise. *)
Theorem on_new_head_exact self (new_head x N : Z) (l1 : list Executed) (l2 : list EB) (fuel : nat) :
  trail (tree_get self) new_head l1 x -> l1 <> [] ->
  trail (canon_get self) (nh_hash (current_canonical_head (tree_state self))) l2 x ->
  apart l1 l2 -> x ∉ block_hash <$> l2 ->
  (forall e, tree_get self new_head = Some e -> block_number e = N + Z.of_nat (length l1)) ->
  nh_number (current_canonical_head (tree_state self)) = N + Z.of_nat (length l2) ->
  0 <= N -> N + Z.of_nat (length l1) < u64_modulus -> N + Z.of_nat (length l2) < u64_modulus ->
  (length l1 + length l2 <= fuel)%nat ->
  on_new_head fuel self new_head =
    Some (Ok (Some (match l2 with [] => Commit (reverse l1) | _ => Reorg (reverse l1) (reverse l2) end))).
Proof.
  intros Ht1 Hne Ht2 Hd Hx Hn1 Hn2 HN Hu1 Hu2 Hf. destruct l1 as [|e1 l1]; [done|]. clear Hne.
  apply trail_cons_inv in Ht1 as (Hg & Hh & Ht1). unfold on_new_head. unfold tree_get in Hg. rewrite Hg.
  rewrite (Hn1 e1 Hg), Hn2. simpl length in *. rewrite wrap_u64_small by (unfold is_u64; lia).
  replace (N + Z.of_nat (S (length l1)) - 1) with (N + Z.of_nat (length l1)) by lia.
  set (k1 := length l1) in *. set (k2 := length l2) in *.
  pose proof (take_drop (k1 - k2) l1) as Hl1. pose proof (take_drop (k2 - k1) l2) as Hl2.
  rewrite <- Hl1 in Ht1. rewrite <- Hl2 in Ht2. apply trail_split in Ht1 as (y1 & Ha1 & Hb1). apply trail_split in Ht2 as (y2 & Ha2 & Hb2).
  assert (new_chain_loop fuel self (N + Z.of_nat k2) (N + Z.of_nat k1) (block_parent_hash e1) [e1] =
    Some (Some (N + Z.of_nat (k1 `min` k2), y1, [e1] ++ take (k1 - k2) l1))) as ->.
  { destruct (decide (k2 <= k1)%nat) as [Hle|Hgt].
    - replace (N + Z.of_nat k1) with (N + Z.of_nat k2 + Z.of_nat (length (take (k1 - k2) l1))) by (rewrite length_take; lia).
      rewrite (new_chain_loop_ok self _ _ fuel _ y1) by (done || (rewrite ?length_take; lia)). do 4 f_equal. lia.
    - replace (k1 - k2)%nat with 0%nat in * by lia. simpl take in *. apply trail_nil_inv in Ha1 as <-.
      rewrite new_chain_loop_stop by lia. do 4 f_equal. lia. }
  cbn [mbind option_bind]. set (head := current_canonical_head (tree_state self)) in *.
  assert (length (drop (k1 - k2) l1) = length (drop (k2 - k1) l2)) as Hlen by (rewrite !length_drop; fold k1 k2; lia).
  destruct (y1 =? nh_hash head) eqn:Ey; bools.
  - (* the old head is on the way *)
    destruct l2 as [|e2 l2]; [rewrite take_ge; [done|unfold k1, k2; simpl; lia]|]. exfalso.
    assert (block_hash e2 = nh_hash head) as Hhead.
    { pose proof (trail_app _ _ _ _ _ _ Ha2 Hb2) as Ht. rewrite Hl2 in Ht. by apply trail_cons_inv in Ht as (_ & ? & _). }
    destruct (drop (k1 - k2) l1) as [|e1' l1'] eqn:Ed.
    + apply trail_nil_inv in Hb1. apply Hx. rewrite <- Hb1, Ey, <- Hhead. by left.
    + apply trail_cons_inv in Hb1 as (_ & Hh1 & _). apply (Hd e1' e2); [right|by left|congruence].
      rewrite <- Hl1. apply elem_of_app. right. by left.
  - assert (l2 <> []) as Hne2.
    { intros ->. rewrite drop_nil in Hb2. rewrite take_nil in Ha2. apply trail_nil_inv in Ha2, Hb2.
      destruct (drop (k1 - k2) l1); [|done]. apply trail_nil_inv in Hb1. congruence. }
    replace (N + Z.of_nat k2) with (N + Z.of_nat (k1 `min` k2) + Z.of_nat (length (take (k2 - k1) l2))) by (rewrite length_take; fold k2; lia).
    rewrite (old_chain_loop_ok self _ _ fuel _ y2) by (done || (rewrite ?length_take; fold k2; lia)). cbn [mbind option_bind].
    rewrite (fork_loop_ok self x (drop (k2 - k1) l2) (drop (k1 - k2) l1)); [|done|done|done| |rewrite length_drop; fold k2; lia].
    + cbn [mbind option_bind app]. rewrite Hl1, Hl2. by destruct l2.
    + intros a b Ha Hb. apply Hd; [right; rewrite <- Hl1|rewrite <- Hl2]; apply elem_of_app; by right.
Qed.

(** ** Where the database and the memory part *)

(** The headers from a block down to another, with the numbers counting down. *)
Inductive descent self : BlockNumHash -> list SealedHeader -> BlockNumHash -> Prop :=
| descent_nil nh : descent self nh [] nh
| descent_cons nh e l x :
    sealed_header_by_hash self (nh_hash nh) = Ok (Some e) -> num_hash e = nh -> 0 < nh_number nh ->
    descent self (mkNumHash (nh_number nh - 1) (block_parent_hash e)) l x -> descent self nh (e :: l) x.

Lemma descent_parent self nh e l x : descent self nh (e :: l) x ->
  exists nh', header_parent self nh = Ok nh' /\ nh_number nh' = nh_number nh - 1 /\ descent self nh' l x /\ num_hash e = nh.
Proof.
  inversion 1 as [|? ? ? ? Hg Hn Hpos Ht]; subst. eexists (mkNumHash _ _). split_and!; [|reflexivity|exact Ht|done]. unfold header_parent. rewrite Hg. simpl.
  unfold parent_num_hash. do 2 f_equal. simpl in Hpos. lia.
Qed.

Lemma descent_number self nh l x : descent self nh l x -> nh_number nh = nh_number x + Z.of_nat (length l).
Proof. induction 1 as [|nh e l x _ _ _ _ IH]; simpl in *; lia. Qed.

Lemma descent_split self nh a b x : descent self nh (a ++ b) x -> exists y, descent self nh a y /\ descent self y b x.
Proof.
  revert nh. induction a as [|e a IH]; intros nh Ht; [exists nh; split; [constructor|done]|].
  inversion Ht; subst. destruct (IH (mkNumHash (nh_number (num_hash e) - 1) (block_parent_hash e))) as (y & ? & ?); [done|].
  exists y. split; [by econstructor|done].
Qed.

Lemma walk_down_ok self l : forall fuel nh x, descent self nh l x -> (length l <= fuel)%nat ->
  walk_down fuel self (nh_number x) nh = Some (Ok x).
Proof.
  induction l as [|e l IH]; intros fuel nh x Hd Hf.
  - inversion Hd; subst. destruct fuel; simpl; by rewrite Z.ltb_irrefl.
  - pose proof (descent_number _ _ _ _ Hd) as Hn. destruct (descent_parent _ _ _ _ _ Hd) as (nh' & Hp & _ & Hd' & _).
    simpl in Hf, Hn. destruct fuel as [|fuel]; [lia|]. cbn [walk_down]. rewrite (proj2 (Z.ltb_lt _ _)) by lia. rewrite Hp.
    apply IH; [done|lia].
Qed.

Lemma walk_down_stop self fuel n nh : nh_number nh <= n -> walk_down fuel self n nh = Some (Ok nh).
Proof. intros Hn. destruct fuel; simpl; by rewrite (proj2 (Z.ltb_ge _ _)) by lia. Qed.

Definition headers_apart (l1 l2 : list SealedHeader) : Prop :=
  forall e1 e2, e1 ∈ l1 -> e2 ∈ l2 -> block_hash e1 <> block_hash e2.

Lemma common_ancestor_ok self x lp : forall lc fuel persisted canonical,
  descent self persisted lp x -> descent self canonical lc x -> length lc = length lp -> headers_apart lc lp -> (length lp <= fuel)%nat ->
  common_ancestor fuel self persisted canonical = Some (Ok x).
Proof.
  induction lp as [|ep lp IH]; intros lc fuel persisted canonical Hp Hc Hlen Hd Hf.
  - destruct lc; [|done]. inversion Hp; inversion Hc; subst. destruct fuel; simpl; by rewrite Z.eqb_refl.
  - destruct lc as [|ec lc]; [done|]. destruct (descent_parent _ _ _ _ _ Hp) as (p' & Hp1 & _ & Hp' & <-).
    destruct (descent_parent _ _ _ _ _ Hc) as (c' & Hc1 & _ & Hc' & <-). simpl in Hlen, Hf.
    destruct fuel as [|fuel]; [lia|]. cbn [common_ancestor]. rewrite (proj2 (Z.eqb_neq _ _)) by (apply not_eq_sym, Hd; by left).
    rewrite Hc1, Hp1. apply (IH lc); [done|done|lia| |lia]. intros ? ? ? ?. apply Hd; by right.
Qed.

(** Walking down a chain to the height of a shorter one. *)
Lemma walk_to_height self fuel l nh x n (k : nat) :
  descent self nh l x -> n = nh_number x + Z.of_nat k -> (length l <= fuel)%nat ->
  exists y l', walk_down fuel self n nh = Some (Ok y) /\ descent self y l' x /\ length l' = (length l `min` k)%nat /\
    (forall e, e ∈ l' -> e ∈ l).
Proof.
  intros Hd -> Hf. pose proof (take_drop (length l - k) l) as Hl. rewrite <- Hl in Hd. apply descent_split in Hd as (y & Ha & Hb).
  exists y, (drop (length l - k) l). rewrite length_drop. split_and!; [|done|lia|].
  - pose proof (descent_number _ _ _ _ Hb) as Hn. rewrite length_drop in Hn. destruct (decide (k <= length l)%nat) as [Hle|Hgt].
    + replace (nh_number x + Z.of_nat k) with (nh_number y) by lia. apply (walk_down_ok self (take (length l - k) l)); [done|].
      rewrite length_take. lia.
    + replace (length l - k)%nat with 0%nat in * by lia. inversion Ha; subst. apply walk_down_stop. simpl in Hn. lia.
  - intros e He. rewrite <- Hl. apply elem_of_app. by right.
Qed.

(** C23: when the canonical head and the last persisted block lead down to the same block, with no other block in
    common, [find_disk_reorg] finds no reorg if the last persisted block is that block, and otherwise the number of
    that block, above which the database must be truncated. *)
Theorem find_disk_reorg_exact self (x : BlockNumHash) (lc lp : list SealedHeader) (fuel : nat) :
  descent self (current_canonical_head (tree_state self)) lc x ->
  descent self (last_persisted_block (persistence_state self)) lp x ->
  headers_apart lc lp -> (length lc + length lp <= fuel)%nat ->
  find_disk_reorg fuel self = Some (Ok (match lp with [] => None | _ => Some (nh_number x) end)).
Proof.
  intros Hc Hp Hd Hf. unfold find_disk_reorg. pose proof (descent_number _ _ _ _ Hp) as Hnp.
  destruct (walk_to_height self fuel lc _ x _ (length lp) Hc Hnp) as (yc & lc' & -> & Hc' & Hlc & Hin); [lia|]. cbn [mbind option_bind].
  pose proof (descent_number _ _ _ _ Hc') as Hnc. rewrite Hlc in Hnc.
  destruct lp as [|ep lp].
  - destruct lc'; [|simpl in Hlc; lia]. inversion Hc'; inversion Hp; subst. by rewrite bool_decide_true.
  - rewrite bool_decide_false.
    + destruct (walk_to_height self fuel (ep :: lp) _ x (nh_number yc) (length lc `min` length (ep :: lp)) Hp) as (yp & lp' & -> & Hp' & Hlp & Hin'); [lia|lia|].
      cbn [mbind option_bind]. rewrite (common_ancestor_ok self x lp' lc'); [done|done|done|cbn [length] in *; lia| |cbn [length] in *; lia].
      intros a b Ha Hb. apply Hd; auto.
    + intros ->. destruct lc' as [|ec lc']; [inversion Hc'; subst; simpl in Hnp; lia|].
      destruct (descent_parent _ _ _ _ _ Hc') as (_ & _ & _ & _ & He1). destruct (descent_parent _ _ _ _ _ Hp) as (_ & _ & _ & _ & He2).
      apply (Hd ec ep); [apply Hin; by left|by left|]. rewrite <- He2 in He1. by injection He1.
Qed.

(** ** Blocks to write *)

(** The longest prefix of blocks above a number. *)
Fixpoint above (n : Z) (l : list Executed) : list Executed :=
  match l with
  | [] => []
  | e :: l => if block_number e <=? n then [] else e :: above n l
  end.

Lemma collect_blocks_ok self last target l : forall fuel h acc,
  ancestors block_parent_hash (blocks_by_hash (tree_state self)) h l -> (length l < fuel)%nat ->
  collect_blocks fuel self last target h acc = Some (acc ++ filter (fun e => block_number e <= target) (above last l)).
Proof.
  induction l as [|e l IH]; intros fuel h acc Hl Hf; (destruct fuel as [|fuel]; [simpl in Hf; lia|]); cbn [collect_blocks above];
    inversion Hl as [? Hn|? ? ? He Hl']; subst.
  - rewrite Hn. by rewrite filter_nil, app_nil_r.
  - rewrite He. destruct (block_number e <=? last) eqn:El; [by rewrite filter_nil, app_nil_r|].
    rewrite (IH fuel) by (done || (simpl in Hf; lia)). destruct (block_number e <=? target) eqn:Et; bools.
    + rewrite filter_cons_True by done. by rewrite <- app_assoc.
    + rewrite filter_cons_False by lia. done.
Qed.

(** Numbered blocks up to a bound. *)
Lemma numbered_up_to (t : Z) (l : list Executed) : forall a,
  block_number <$> l = seqZ a (Z.of_nat (length l)) -> t < a + Z.of_nat (length l) ->
  filter (fun e => block_number e <= t) l `prefix_of` l /\
  block_number <$> filter (fun e => block_number e <= t) l = seqZ a (t - a + 1).
Proof.
  induction l as [|e l IH]; intros a Hn Ht.
  { simpl in Ht. rewrite filter_nil, seqZ_nil by lia. split; [by exists []|done]. }
  cbn [length] in Hn, Ht. rewrite seqZ_cons in Hn by lia. rewrite fmap_cons in Hn. injection Hn as He Hn.
  replace (Z.pred (Z.of_nat (S (length l)))) with (Z.of_nat (length l)) in Hn by lia.
  destruct (IH (Z.succ a) Hn) as [Hpre Hnum]; [lia|]. destruct (decide (block_number e <= t)) as [Hle|Hgt].
  - rewrite filter_cons_True by done. split; [by apply prefix_cons|]. rewrite fmap_cons, Hnum, (seqZ_cons a) by lia.
    rewrite He. do 2 f_equal. lia.
  - rewrite filter_cons_False by done. rewrite (seqZ_nil (Z.succ a)) in Hnum by lia. apply fmap_nil_inv in Hnum. rewrite Hnum.
    rewrite seqZ_nil by lia. split; [apply prefix_nil|done].
Qed.

Lemma above_all n l rest : (forall e, e ∈ l -> n < block_number e) -> (forall e, head rest = Some e -> block_number e <= n) ->
  above n (l ++ rest) = l.
Proof.
  intros Hl Hr. induction l as [|e l IH]; simpl.
  - destruct rest as [|e rest]; [done|]. simpl. by rewrite (proj2 (Z.leb_le _ _)) by (apply Hr; done).
  - rewrite (proj2 (Z.leb_gt _ _)) by (apply Hl; by left). rewrite IH; [done|]. intros x Hx. apply Hl. by right.
Qed.

(** When the blocks in memory count down from the canonical head to the last persisted block, the blocks that are written are the canonical
    ones right above the last persisted block up to the target, in order and without a gap. *)
Theorem blocks_to_persist_exact self (l : list Executed) (rank : Z -> nat) :
  let last := last_persisted_block (persistence_state self) in
  ranked block_parent_hash rank (blocks_by_hash (tree_state self)) ->
  path block_parent_hash (blocks_by_hash (tree_state self)) (canonical_block_hash (tree_state self)) l (nh_hash last) ->
  block_number <$> reverse l = seqZ (nh_number last + 1) (Z.of_nat (length l)) ->
  canonical_block_number (tree_state self) = nh_number last + Z.of_nat (length l) ->
  0 <= canonical_block_number (tree_state self) -> 0 <= memory_block_buffer_target (config self) ->
  (forall e, blocks_by_hash (tree_state self) !! nh_hash last = Some e -> block_number e <= nh_number last) ->
  exists r, blocks_to_persist self = Some r /\ r `prefix_of` reverse l /\
    block_number <$> r = seqZ (nh_number last + 1) (persist_target self - nh_number last).
Proof.
  intros last Hr Hp Hnum Hhead Hpos Hbuf Hlast.
  destruct (ancestors_exist _ _ _ Hr (nh_hash last)) as (rest & Hrest & _).
  destruct (ancestors_exist _ _ _ Hr (canonical_block_hash (tree_state self))) as (l2 & Hl2 & Hlen).
  pose proof (ancestors_unique _ _ _ _ _ Hl2 (path_ancestors _ _ _ _ _ _ Hp Hrest)) as ->.
  unfold blocks_to_persist. fold last. rewrite (collect_blocks_ok self _ _ (l ++ rest)) by (done || lia). cbn [mbind option_bind app].
  assert (above (nh_number last) (l ++ rest) = l) as ->.
  { apply above_all.
    - intros e He. assert (block_number e ∈ seqZ (nh_number last + 1) (Z.of_nat (length l))) as Hin%elem_of_seqZ; [|lia].
      rewrite <- Hnum. apply list_elem_of_fmap_2. by apply elem_of_reverse.
    - intros e He. destruct rest as [|e' rest]; [done|]. injection He as ->. inversion Hrest; subst. by apply Hlast. }
  rewrite <- filter_reverse. eexists. split; [done|].
  replace (persist_target self - nh_number last) with (persist_target self - (nh_number last + 1) + 1) by lia.
  apply numbered_up_to; [by rewrite length_reverse|]. rewrite length_reverse.
  unfold persist_target. case_bool_decide; lia.
Qed.

End claims.

(** ** Witnesses *)

Record SimpleRB := mkRB { rb_header : SealedHeader }.
#[local] Instance simple_rb : RecoveredBlock SimpleRB := {| sealed_header := rb_header |}.

Definition eb (h p n : Z) : ExecutedBlock SimpleRB unit unit := mkExecutedBlock (mkRB (mkSealedHeader h p n 0)) tt tt.
Definition ex (h p n : Z) : ExecutedBlockWithTrieUpdates (ExecutedBlock SimpleRB unit unit) unit := mkExecuted (eb h p n) (Present tt).

Definition empty_provider : Provider SimpleRB unit unit unit :=
  mkProvider _ _ _ _ (fun _ => Ok None) (fun _ => Ok None) (fun _ => Ok None) (fun _ => tt) (fun _ => Ok None).

(** The canonical chain 1, 2, 3, the last of the database 2, and a fork 22, 23 of block 1 with a child 4 of block 3. *)
Definition sample_handler (head : BlockNumHash) : EngineApiTreeHandler (Rx := unit) :=
  mkHandler empty_provider
    (foldl insert_executed (new head Ethereum) [ex 1 0 1; ex 2 1 2; ex 3 2 3; ex 4 3 4; ex 22 1 2; ex 23 22 3])
    (mkPersistence (mkNumHash 2 2) None) Idle tree_config_default.

(** Leaves membership in lists of known blocks. *)
Ltac enumerate := repeat match goal with
  | H : _ ∈ _ :: _ |- _ => apply elem_of_cons in H as [->|H]
  | H : _ ∈ [] |- _ => by apply not_elem_of_nil in H
  end.

Lemma on_new_head_exact_witness :
  on_new_head 9 (sample_handler (mkNumHash 3 3)) 23 = Some (Ok (Some (Reorg (reverse [ex 23 22 3; ex 22 1 2]) (reverse [eb 3 2 3; eb 2 1 2])))) /\
  on_new_head 9 (sample_handler (mkNumHash 3 3)) 4 = Some (Ok (Some (Commit [ex 4 3 4]))).
Proof.
  split; [|reflexivity].
  apply (on_new_head_exact (sample_handler (mkNumHash 3 3)) 23 1 1 [ex 23 22 3; ex 22 1 2] [eb 3 2 3; eb 2 1 2] 9).
  - repeat (econstructor; [reflexivity..|]). constructor.
  - done.
  - repeat (econstructor; [reflexivity..|]). constructor.
  - intros a b Ha Hb. enumerate; by vm_compute.
  - apply (bool_decide_unpack _). by vm_compute.
  - intros e He. vm_compute in He. by injection He as <-.
  - reflexivity.
  - done.
  - by vm_compute.
  - by vm_compute.
  - simpl. lia.
Defined.

Lemma find_disk_reorg_exact_witness :
  find_disk_reorg 9 (sample_handler (mkNumHash 3 23)) = Some (Ok (Some 1)) /\
  find_disk_reorg 9 (sample_handler (mkNumHash 3 3)) = Some (Ok None).
Proof.
  split; [|reflexivity].
  apply (find_disk_reorg_exact (sample_handler (mkNumHash 3 23)) (mkNumHash 1 1)
    [mkSealedHeader 23 22 3 0; mkSealedHeader 22 1 2 0] [mkSealedHeader 2 1 2 0]).
  - repeat (econstructor; [reflexivity..|]). constructor.
  - repeat (econstructor; [reflexivity..|]). constructor.
  - intros a b Ha Hb. enumerate; by vm_compute.
  - simpl. lia.
Defined.

Lemma blocks_to_persist_exact_witness :
  (exists r, blocks_to_persist (sample_handler (mkNumHash 4 4)) = Some r /\ r `prefix_of` reverse [ex 4 3 4; ex 3 2 3] /\
    block_number <$> r = seqZ 3 (persist_target (sample_handler (mkNumHash 4 4)) - 2)) /\
  blocks_to_persist (sample_handler (mkNumHash 4 4)) = Some [ex 3 2 3; ex 4 3 4].
Proof.
  split; [|reflexivity]. apply (blocks_to_persist_exact (sample_handler (mkNumHash 4 4)) [ex 4 3 4; ex 3 2 3] Z.to_nat).
  - change (map_Forall (fun h e => (Z.to_nat (block_parent_hash e) < Z.to_nat h)%nat) (blocks_by_hash (tree_state (sample_handler (mkNumHash 4 4))))).
    apply (bool_decide_unpack _). by vm_compute.
  - repeat (econstructor; [reflexivity|]). constructor.
  - reflexivity.
  - reflexivity.
  - by vm_compute.
  - by vm_compute.
  - intros e He. vm_compute in He. injection He as <-. by vm_compute.
Defined.

End EngineClaims.
