(* ===== verification/InMemory.v ===== *)
(** * Canonical chain in memory

    [crates/chain-state/src/in_memory.rs] and [chain_info.rs]: the part of the canonical chain that is not in the database yet,
    each block with a reference to the one below it, and the head, safe and finalized headers. *)

From S2P Require Import Prelude Ordered EngineBlocks TreeState EngineTree.
Import EngineBlocks.

Module InMemory.
Import Tree Engine.

Inductive BlockState (E : Type) := mkBlockState (block : E) (parent : option (BlockState E)).
Arguments mkBlockState {E}.
Definition bs_block {E} (s : BlockState E) : E := match s with mkBlockState b _ => b end.
Definition bs_parent {E} (s : BlockState E) : option (BlockState E) := match s with mkBlockState _ p => p end.

Section chains.
Context {E : Type} `{!BlockTrait E}.
Implicit Types (s : BlockState E).

Fixpoint chain s : list (BlockState E) :=
  s :: match s with mkBlockState _ (Some p) => chain p | mkBlockState _ None => [] end.

Definition parent_state_chain s : list (BlockState E) :=
  match bs_parent s with Some p => chain p | None => [] end.

(** The loop of [anchor]. *)
Fixpoint lowest s : BlockState E := match s with mkBlockState _ (Some p) => lowest p | mkBlockState _ None => s end.
Definition anchor s : BlockNumHash := parent_num_hash (bs_block (lowest s)).

Inductive BlockHashOrNumber := ByHash (h : Z) | ByNumber (n : Z).
Definition block_on_chain s (x : BlockHashOrNumber) : option (BlockState E) :=
  List.find (fun b => match x with ByHash h => block_hash (bs_block b) =? h | ByNumber n => block_number (bs_block b) =? n end) (chain s).
End chains.

(** ** Head, safe and finalized headers *)

Section info.
Context {H Instant : Type} `{!BlockTrait H}.

Record ChainInfoTracker := mkChainInfo {
  last_forkchoice_update : option Instant;
  canonical_head_number : Z;
  ci_canonical_head : H;
  safe_block : option H;
  finalized_block : option H;
}.
Implicit Types (self : ChainInfoTracker).

Definition chain_info_new (head : H) (finalized safe : option H) : ChainInfoTracker :=
  mkChainInfo None (block_number head) head safe finalized.
Definition chain_info self : BlockNumHash := num_hash (ci_canonical_head self).
Definition on_forkchoice_update_received self (now : Instant) : ChainInfoTracker :=
  mkChainInfo (Some now) (canonical_head_number self) (ci_canonical_head self) (safe_block self) (finalized_block self).
Definition get_canonical_num_hash self : BlockNumHash := num_hash (ci_canonical_head self).
Definition get_canonical_block_number self : Z := canonical_head_number self.
Definition get_safe_num_hash self : option BlockNumHash := num_hash <$> safe_block self.
Definition get_finalized_num_hash self : option BlockNumHash := num_hash <$> finalized_block self.
Definition ci_set_canonical_head self (header : H) : ChainInfoTracker :=
  mkChainInfo (last_forkchoice_update self) (block_number header) header (safe_block self) (finalized_block self).
(** [send_if_modified]: replaced only if the hash differs. *)
Definition replace_header (current : option H) (header : H) : option H :=
  if bool_decide (block_hash <$> current = Some (block_hash header)) then current else Some header.
Definition set_safe self (header : H) : ChainInfoTracker :=
  mkChainInfo (last_forkchoice_update self) (canonical_head_number self) (ci_canonical_head self)
    (replace_header (safe_block self) header) (finalized_block self).
Definition set_finalized self (header : H) : ChainInfoTracker :=
  mkChainInfo (last_forkchoice_update self) (canonical_head_number self) (ci_canonical_head self)
    (safe_block self) (replace_header (finalized_block self) header).
End info.

(** ** Blocks *)

Section state.
Context {EB T : Type} `{!BlockTrait EB}.
Abbreviation Executed := (ExecutedBlockWithTrieUpdates EB T).

Record InMemoryState := mkInMemory {
  blocks : gmap Z (BlockState Executed);
  numbers : gmap Z Z;
  pending : option (BlockState Executed);
}.
Implicit Types (self : InMemoryState) (e : Executed) (h : Z).

Definition empty : InMemoryState := mkInMemory ∅ ∅ None.
Definition state_by_hash self h : option (BlockState Executed) := blocks self !! h.
Definition hash_by_number self (n : Z) : option Z := numbers self !! n.
Definition state_by_number self (n : Z) : option (BlockState Executed) := h ← hash_by_number self n; state_by_hash self h.
Definition head_state self : option (BlockState Executed) :=
  x ← last (bt_entries (numbers self)); state_by_hash self x.2.
Definition header_by_hash self h : option EB := (fun s => block (bs_block s)) <$> state_by_hash self h.
Definition pending_block_num_hash self : option BlockNumHash := (fun s => num_hash (bs_block s)) <$> pending self.
Definition canonical_chain self : list (BlockState Executed) := from_option chain [] (head_state self).

Definition clear_state self : InMemoryState := mkInMemory ∅ ∅ None.

Definition set_pending_block self e : InMemoryState :=
  mkInMemory (blocks self) (numbers self) (Some (mkBlockState e (state_by_hash self (block_parent_hash e)))).

(** One round of the loop that inserts blocks. *)
Definition insert_block (bn : gmap Z (BlockState Executed) * gmap Z Z) e : gmap Z (BlockState Executed) * gmap Z Z :=
  (<[block_hash e := mkBlockState e (bn.1 !! block_parent_hash e)]> bn.1, <[block_number e := block_hash e]> bn.2).

(** One round of the loop that removes reorged blocks. *)
Definition remove_block (bn : gmap Z (BlockState Executed) * gmap Z Z) (b : EB) : gmap Z (BlockState Executed) * gmap Z Z :=
  (delete (block_hash b) bn.1, delete (block_number b) bn.2).

Definition update_blocks self (new_blocks : list Executed) (reorged : list EB) : InMemoryState :=
  let bn := foldl remove_block (blocks self, numbers self) reorged in
  let bn := foldl insert_block bn new_blocks in
  mkInMemory bn.1 bn.2 None.

Definition update_chain self (c : NewCanonicalChain EB T) : InMemoryState :=
  match c with
  | Commit new => update_blocks self new []
  | Reorg new old => update_blocks self new old
  end.

Definition number_le (a b : Executed) : Prop := block_number a <= block_number b.
#[global] Instance number_le_dec a b : Decision (number_le a b) := Z.le_dec _ _.

Definition remove_persisted_blocks self (persisted : BlockNumHash) : InMemoryState :=
  match blocks self !! nh_hash persisted with
  | None => self
  | Some _ =>
      let old_blocks := merge_sort number_le
        (bs_block <$> filter (fun s => nh_number persisted < block_number (bs_block s)) (snd <$> map_to_list (blocks self))) in
      let bn := foldl insert_block (∅, ∅) old_blocks in
      mkInMemory bn.1 bn.2 ((fun p => mkBlockState (bs_block p) (bn.1 !! block_parent_hash (bs_block p))) <$> pending self)
  end.

End state.
End InMemory.
