(* ===== verification/InMemoryProps.v ===== *)
(** * The chain in memory as a list

    What is kept in memory is a list of linked blocks, oldest first: [InMemory] implements it with two
    maps and references from each block to the one below. *)

From S2P Require Import Prelude Ordered EngineBlocks TreeState EngineTree InMemory.
Import EngineBlocks SimpleChain.

Module InMemoryProps.
Import Tree Engine InMemory.

Section props.
Context {EB T : Type} `{!BlockTrait EB}.
Abbreviation Executed := (ExecutedBlockWithTrieUpdates EB T).
Implicit Types (self : InMemoryState (EB := EB) (T := T)) (e : Executed) (h : Z) (L : list Executed)
  (bn : gmap Z (BlockState Executed) * gmap Z Z).

(** ** The specification *)

(** The blocks follow each other above the hash [root], the first one with the number [n]. *)
Fixpoint linked_from (root n : Z) L : Prop :=
  match L with
  | [] => True
  | e :: L => block_parent_hash e = root /\ block_number e = n /\ linked_from (block_hash e) (n + 1) L
  end.

Definition linked L : Prop := exists root n, linked_from root n L /\ NoDup (root :: (block_hash <$> L)).

(** The maps after the blocks of the list were inserted into empty ones. *)
Definition build L := foldl insert_block (∅, ∅) L.

Definition built self L : Prop := linked L /\ blocks self = (build L).1 /\ numbers self = (build L).2.

(** The hash at the top. *)
Definition tip (root : Z) L : Z := default root (last (block_hash <$> L)).

Lemma tip_cons root e L : tip root (e :: L) = tip (block_hash e) L.
Proof. unfold tip. rewrite fmap_cons, last_cons. by destruct (last _). Qed.

Lemma linked_from_app root n a b :
  linked_from root n (a ++ b) <-> linked_from root n a /\ linked_from (tip root a) (n + Z.of_nat (length a)) b.
Proof.
  revert root n. induction a as [|e a IH]; intros root n; simpl.
  - unfold tip. simpl. rewrite Z.add_0_r. tauto.
  - rewrite IH, tip_cons. replace (n + 1 + Z.of_nat (length a)) with (n + Z.of_nat (S (length a))) by lia. tauto.
Qed.

Lemma tip_in root L : tip root L ∈ root :: (block_hash <$> L).
Proof.
  revert root. induction L as [|e L IH]; intros root; [by left|]. rewrite tip_cons, fmap_cons. right. apply IH.
Qed.

Lemma linked_numbers root n L : linked_from root n L -> block_number <$> L = seqZ n (Z.of_nat (length L)).
Proof.
  revert root n. induction L as [|e L IH]; intros root n; [done|]. intros (_ & He & Hl).
  cbn [length]. rewrite fmap_cons, (IH _ _ Hl), (seqZ_cons n), He by lia. do 2 f_equal; lia.
Qed.

Lemma linked_numbers_nodup L : linked L -> NoDup (block_number <$> L).
Proof. intros (root & n & Hl & _). rewrite (linked_numbers _ _ _ Hl). apply NoDup_seqZ. Qed.

Lemma linked_app_l a b : linked (a ++ b) -> linked a.
Proof.
  intros (root & n & [Hl _]%linked_from_app & Hnd). exists root, n. split; [done|].
  rewrite fmap_app, app_comm_cons in Hnd. by apply NoDup_app in Hnd as [? _].
Qed.

Lemma linked_app_r a b : linked (a ++ b) -> linked b.
Proof.
  intros (root & n & [_ Hl]%linked_from_app & Hnd). eexists _, _. split; [exact Hl|].
  rewrite fmap_app, app_comm_cons in Hnd. apply NoDup_app in Hnd as (_ & Hd & Hb). apply NoDup_cons. split; [|done].
  apply Hd, tip_in.
Qed.

(** ** The maps *)

Lemma build_snoc L e : build (L ++ [e]) = insert_block (build L) e.
Proof. unfold build. by rewrite foldl_snoc. Qed.

Lemma inserted_other new : forall bn,
  (forall h, h ∉ block_hash <$> new -> (foldl insert_block bn new).1 !! h = bn.1 !! h) /\
  (forall n, n ∉ block_number <$> new -> (foldl insert_block bn new).2 !! n = bn.2 !! n).
Proof.
  induction new as [|e new IH]; intros bn; [done|]. destruct (IH (insert_block bn e)) as [H1 H2].
  split; intros k Hk; rewrite fmap_cons, not_elem_of_cons in Hk; destruct Hk as [Hne Hk]; cbn [foldl].
  - rewrite H1 by done. simpl. by rewrite lookup_insert_ne.
  - rewrite H2 by done. simpl. by rewrite lookup_insert_ne.
Qed.

Lemma removed_lookup old : forall bn,
  (forall h, (foldl remove_block bn old).1 !! h = if decide (h ∈ block_hash <$> old) then None else bn.1 !! h) /\
  (forall n, (foldl remove_block bn old).2 !! n = if decide (n ∈ block_number <$> old) then None else bn.2 !! n).
Proof.
  assert (forall {A} (m : gmap Z A) k x (l : list Z),
    (if decide (k ∈ l) then None else delete x m !! k) = if decide (k ∈ x :: l) then None else m !! k) as Hstep.
  { intros A m k x l. destruct (decide (k ∈ l)); [by rewrite decide_True by (by right)|].
    destruct (decide (k = x)) as [->|]; [by rewrite lookup_delete_eq, decide_True by (by left)|].
    rewrite lookup_delete_ne, decide_False by (rewrite ?elem_of_cons; naive_solver). done. }
  induction old as [|b old IH]; intros bn; [done|]. destruct (IH (remove_block bn b)) as [H1 H2].
  split; intros k; cbn [foldl]; rewrite fmap_cons; [rewrite H1|rewrite H2]; apply Hstep.
Qed.

(** The blocks of a list, newest first, as a state. *)
Fixpoint stack (r : list Executed) : option (BlockState Executed) :=
  match r with [] => None | e :: r => Some (mkBlockState e (stack r)) end.

Lemma chain_stack r : forall e, bs_block <$> chain (mkBlockState e (stack r)) = e :: r.
Proof. induction r as [|e' r IH]; intros e; [done|]. cbn [chain stack fmap list_fmap bs_block]. f_equal. apply IH. Qed.

Lemma build_lookup L root n : linked_from root n L -> NoDup (root :: (block_hash <$> L)) ->
  (forall h s, (build L).1 !! h = Some s <-> exists p e q, L = p ++ e :: q /\ block_hash e = h /\ s = mkBlockState e (stack (reverse p))) /\
  (forall k h, (build L).2 !! k = Some h <-> exists e, e ∈ L /\ block_number e = k /\ block_hash e = h) /\
  (build L).1 !! tip root L = stack (reverse L).
Proof.
  induction L as [|e L IH] using rev_ind; intros Hl Hnd.
  { split_and!.
    - intros h s. simpl. rewrite lookup_empty. split; [done|]. intros (p & e & q & Heq & _). by destruct p.
    - intros k h. simpl. rewrite lookup_empty. split; [done|]. by intros (e & ?%not_elem_of_nil & _).
    - done. }
  pose proof Hnd as Hnd'. rewrite fmap_app, app_comm_cons in Hnd'. apply NoDup_app in Hnd' as (HndL & Hdis & _).
  apply linked_from_app in Hl as [HlL (Hpar & Hnum & _)]. destruct (IH HlL HndL) as (H1 & H2 & H3).
  rewrite build_snoc. unfold insert_block. cbn [fst snd]. rewrite Hpar, H3.
  assert (block_hash e ∉ block_hash <$> L) as Hfresh.
  { intros Hin. apply (Hdis (block_hash e)); [by right|by left]. }
  assert (block_number e ∉ block_number <$> L) as Hfreshn.
  { rewrite (linked_numbers _ _ _ HlL), elem_of_seqZ. lia. }
  split_and!.
  - intros h s. rewrite lookup_insert_Some, H1. split.
    + intros [[<- <-]|[Hne (p & e' & q & -> & Hh & Hs)]]; [by exists L, e, []|].
      exists p, e', (q ++ [e]). by rewrite <- app_assoc.
    + intros (p & e' & q & Heq & Hh & ->). destruct q as [|e2 q _] using rev_ind.
      * apply app_inj_tail in Heq as [-> ->]. by left.
      * rewrite app_comm_cons, app_assoc in Heq. apply app_inj_tail in Heq as [-> ->]. right. split; [|by exists p, e', q].
        intros Heq. apply Hfresh. rewrite Heq, <- Hh, fmap_app, fmap_cons. apply elem_of_app. right. by left.
  - intros k h. rewrite lookup_insert_Some, H2. setoid_rewrite elem_of_app. setoid_rewrite list_elem_of_singleton. split.
    + intros [[<- <-]|[Hne (e' & Hin & Hk & Hh)]]; eauto.
    + intros (e' & [Hin| ->] & Hk & Hh); [|by left]. right. split; [|eauto]. intros Heq. apply Hfreshn. rewrite Heq, <- Hk.
      by apply list_elem_of_fmap_2.
  - unfold tip. rewrite fmap_app. change (block_hash <$> [e]) with [block_hash e]. rewrite last_snoc. cbn [from_option id]. rewrite lookup_insert_eq.
    by rewrite reverse_app.
Qed.

(** ** Look-ups *)

Lemma linked_below L n : linked L -> exists k, filter (fun e => n < block_number e) L = drop k L.
Proof.
  intros (root & m & Hl & _). revert root m Hl. induction L as [|e L IH]; intros root m; [by exists 0%nat|].
  intros (_ & He & Hl). destruct (decide (n < block_number e)) as [Hlt|Hge].
  - exists 0%nat. rewrite filter_cons_True by done. simpl. f_equal. apply list_filter_all, Forall_forall. intros x Hx.
    assert (block_number x ∈ seqZ (m + 1) (Z.of_nat (length L))) as ?%elem_of_seqZ; [|lia].
    rewrite <- (linked_numbers _ _ _ Hl). by apply list_elem_of_fmap_2.
  - rewrite filter_cons_False by done. destruct (IH _ _ Hl) as [k ->]. by exists (S k).
Qed.

Lemma bt_numbers L : linked L -> bt_entries (build L).2 = (fun e => (block_number e, block_hash e)) <$> L.
Proof.
  intros Hlk. pose proof Hlk as (root & n & Hl & Hnd). destruct (build_lookup L root n Hl Hnd) as (_ & H2 & _).
  apply bt_entries_unique.
  - clear H2 Hnd Hlk. revert root n Hl. induction L as [|e L IH]; intros root n; [constructor|]. intros (_ & He & Hl).
    rewrite fmap_cons. constructor; [by eapply IH|]. apply Forall_fmap, Forall_forall. intros x Hx. unfold entry_le. simpl.
    assert (block_number x ∈ seqZ (n + 1) (Z.of_nat (length L))) as Hin%elem_of_seqZ; [|].
    { rewrite <- (linked_numbers _ _ _ Hl). by apply list_elem_of_fmap_2. }
    change (block_number e <= block_number x). lia.
  - rewrite <- list_fmap_compose. apply (linked_numbers_nodup L Hlk).
  - intros k h. rewrite list_elem_of_fmap, H2. naive_solver.
Qed.

Lemma built_head self L : built self L -> head_state self = stack (reverse L).
Proof.
  intros (Hlk & Hb & Hn). pose proof Hlk as (root & n & Hl & Hnd). destruct (build_lookup L root n Hl Hnd) as (_ & _ & H3).
  unfold head_state, state_by_hash. rewrite Hn, Hb, (bt_numbers L Hlk), fmap_last.
  destruct L as [|e L _] using rev_ind; [done|]. rewrite last_snoc. simpl. rewrite <- H3. f_equal. unfold tip.
  rewrite fmap_app. change (block_hash <$> [e]) with [block_hash e]. by rewrite last_snoc.
Qed.

(** What is found in memory: every block of the list by its hash and by its number, each with exactly the blocks
    below it as its chain; the canonical chain is the list, newest first; nothing else is found. *)
Theorem in_memory_lookups self L :
  built self L ->
  (forall p e q, L = p ++ e :: q -> exists s, state_by_hash self (block_hash e) = Some s /\
     state_by_number self (block_number e) = Some s /\ bs_block <$> chain s = e :: reverse p) /\
  (forall h, h ∉ block_hash <$> L -> state_by_hash self h = None) /\
  (forall n, n ∉ block_number <$> L -> state_by_number self n = None) /\
  bs_block <$> canonical_chain self = reverse L.
Proof.
  intros Hrep. pose proof Hrep as (Hlk & Hb & Hn). pose proof Hlk as (root & n0 & Hl & Hnd).
  destruct (build_lookup L root n0 Hl Hnd) as (H1 & H2 & _).
  unfold state_by_number, hash_by_number, state_by_hash. rewrite Hb, Hn. split_and!.
  - intros p e q Heq. assert ((build L).1 !! block_hash e = Some (mkBlockState e (stack (reverse p)))) as Hs.
    { apply H1. by exists p, e, q. }
    eexists. split_and!; [exact Hs| |apply chain_stack].
    rewrite (proj2 (H2 (block_number e) (block_hash e))); [exact Hs|]. exists e. split; [|done].
    rewrite Heq. apply elem_of_app. right. by left.
  - intros h Hh. destruct ((build L).1 !! h) as [s|] eqn:E; [|done]. apply H1 in E as (p & e & q & -> & <- & _).
    destruct Hh. rewrite fmap_app, fmap_cons. apply elem_of_app. right. by left.
  - intros n Hn'. destruct ((build L).2 !! n) as [h|] eqn:E; [|done]. apply H2 in E as (e & He & <- & _).
    destruct Hn'. by apply list_elem_of_fmap_2.
  - unfold canonical_chain. rewrite (built_head self L Hrep). destruct (reverse L) as [|e r]; [done|]. apply chain_stack.
Qed.

(** ** Operations *)

Lemma commit_built self L new : built self L -> linked (L ++ new) -> built (update_chain self (Commit new)) (L ++ new).
Proof.
  intros (_ & Hb & Hn) Hlk. split; [done|]. simpl. rewrite Hb, Hn, <- surjective_pairing. unfold build. by rewrite foldl_app.
Qed.

(** Blocks that are not in memory. *)
Definition unknown (L : list Executed) (b : EB) : Prop := block_hash b ∉ block_hash <$> L /\ block_number b ∉ block_number <$> L.

Lemma removed_tail K tail (pre : list EB) : linked (K ++ tail) -> Forall (unknown (K ++ tail)) pre ->
  foldl remove_block (build (K ++ tail)) (pre ++ (block <$> tail)) = build K.
Proof.
  intros Hlk Hpre. rewrite Forall_forall in Hpre. destruct (removed_lookup (pre ++ (block <$> tail)) (build (K ++ tail))) as [R1 R2].
  destruct (inserted_other tail (build K)) as [I1 I2]. destruct (inserted_other K (∅, ∅)) as [J1 J2].
  assert (build (K ++ tail) = foldl insert_block (build K) tail) as Hbuild by (unfold build; by rewrite foldl_app).
  pose proof (linked_numbers_nodup _ Hlk) as Hnn. pose proof Hlk as (root & n & _ & Hnd). apply NoDup_cons in Hnd as [_ Hnd].
  rewrite fmap_app in Hnn, Hnd. apply NoDup_app in Hnn as (_ & Hnn & _). apply NoDup_app in Hnd as (_ & Hnd & _).
  apply injective_projections; apply map_eq; intros k; [rewrite R1|rewrite R2]; case_decide as Hin; rewrite fmap_app, elem_of_app in Hin.
  - symmetry. apply J1. intros Hk. destruct Hin as [(b & -> & Hb)%list_elem_of_fmap|Hin].
    + apply (proj1 (Hpre b Hb)). rewrite fmap_app. apply elem_of_app. by left.
    + apply (Hnd k Hk). rewrite <- list_fmap_compose in Hin. exact Hin.
  - rewrite Hbuild. apply I1. intros Hk. apply Hin. right. rewrite <- list_fmap_compose. exact Hk.
  - symmetry. apply J2. intros Hk. destruct Hin as [(b & -> & Hb)%list_elem_of_fmap|Hin].
    + apply (proj2 (Hpre b Hb)). rewrite fmap_app. apply elem_of_app. by left.
    + apply (Hnn k Hk). rewrite <- list_fmap_compose in Hin. exact Hin.
  - rewrite Hbuild. apply I2. intros Hk. apply Hin. right. rewrite <- list_fmap_compose. exact Hk.
Qed.

Lemma reorg_built self K tail (pre : list EB) new :
  built self (K ++ tail) -> Forall (unknown (K ++ tail)) pre -> linked (K ++ new) ->
  built (update_chain self (Reorg new (pre ++ (block <$> tail)))) (K ++ new).
Proof.
  intros (Hlk & Hb & Hn) Hpre Hlk'. split; [done|]. simpl. rewrite Hb, Hn, <- surjective_pairing, removed_tail by done.
  unfold build. by rewrite foldl_app.
Qed.

Lemma states_perm L : linked L -> bs_block <$> (snd <$> map_to_list (build L).1) ≡ₚ L.
Proof.
  intros (root & n & Hl & Hnd). destruct (build_lookup L root n Hl Hnd) as (H1 & _ & _). apply NoDup_cons in Hnd as [_ Hnd].
  rewrite <- list_fmap_compose. apply NoDup_Permutation.
  - apply (NoDup_fmap_1 block_hash). rewrite <- list_fmap_compose.
    assert ((block_hash ∘ (bs_block ∘ snd)) <$> map_to_list (build L).1 = (map_to_list (build L).1).*1) as ->;
      [|apply NoDup_fst_map_to_list].
    apply list_fmap_ext. intros i [h s] Hi%list_elem_of_lookup_2. apply elem_of_map_to_list, H1 in Hi as (p & e & q & _ & Hh & ->). done.
  - by apply (NoDup_fmap_1 block_hash).
  - intros e. rewrite list_elem_of_fmap. split.
    + intros ([h s] & -> & Hin). apply elem_of_map_to_list, H1 in Hin as (p & e' & q & -> & _ & ->). apply elem_of_app. right. by left.
    + intros (p & q & ->)%list_elem_of_split. exists (block_hash e, mkBlockState e (stack (reverse p))). split; [done|].
      apply elem_of_map_to_list, H1. by exists p, e, q.
Qed.

Lemma filter_states (n : Z) (l : list (BlockState Executed)) :
  bs_block <$> filter (fun s => n < block_number (bs_block s)) l = filter (fun e => n < block_number e) (bs_block <$> l).
Proof.
  induction l as [|s l IH]; [done|]. rewrite fmap_cons. destruct (decide (n < block_number (bs_block s))).
  - rewrite !filter_cons_True by done. by rewrite fmap_cons, IH.
  - by rewrite !filter_cons_False by done.
Qed.

Lemma linked_sorted L : linked L -> StronglySorted number_le L.
Proof.
  intros (root & n & Hl & _). revert root n Hl. induction L as [|e L IH]; intros root n; [constructor|]. intros (_ & He & Hl).
  constructor; [by eapply IH|]. apply Forall_forall. intros x Hx. unfold number_le.
  assert (block_number x ∈ seqZ (n + 1) (Z.of_nat (length L))) as ?%elem_of_seqZ; [|lia].
  rewrite <- (linked_numbers _ _ _ Hl). by apply list_elem_of_fmap_2.
Qed.

Lemma persisted_built self L (p : BlockNumHash) : built self L -> nh_hash p ∈ block_hash <$> L ->
  built (remove_persisted_blocks self p) (filter (fun e => nh_number p < block_number e) L).
Proof.
  intros (Hlk & Hb & Hn) Hin. pose proof Hlk as (root & n & Hl & Hnd). destruct (build_lookup L root n Hl Hnd) as (H1 & _ & _).
  assert (linked (filter (fun e => nh_number p < block_number e) L)) as Hlk'.
  { destruct (linked_below L (nh_number p) Hlk) as [k ->]. apply (linked_app_r (take k L)). by rewrite take_drop. }
  unfold remove_persisted_blocks. rewrite Hb. destruct ((build L).1 !! nh_hash p) as [s|] eqn:E.
  - split; [done|]. cbn [blocks numbers]. rewrite filter_states. set (sorted := merge_sort _ _).
    enough (sorted = filter (fun e => nh_number p < block_number e) L) as -> by done.
    assert (Transitive (number_le (EB := EB) (T := T))) by (intros x y z; unfold number_le; lia).
    assert (Total (number_le (EB := EB) (T := T))) by (intros x y; unfold number_le; lia).
    assert (sorted ≡ₚ filter (fun e => nh_number p < block_number e) L) as Hperm.
    { unfold sorted. rewrite merge_sort_Permutation. by rewrite states_perm. }
    apply (StronglySorted_unique_strong number_le); [|by apply StronglySorted_merge_sort|by apply linked_sorted|done].
    intros x y Hx Hy Hxy Hyx. rewrite Hperm in Hx. apply list_elem_of_filter in Hx as [_ Hx]. apply list_elem_of_filter in Hy as [_ Hy].
    apply (nodup_fmap_inj block_number L); [apply (linked_numbers_nodup L Hlk)|done|done|]. unfold number_le in *. lia.
  - exfalso. apply list_elem_of_fmap in Hin as (e & Heq & Hin). apply list_elem_of_split in Hin as (a & b & ->).
    rewrite (proj2 (H1 (nh_hash p) (mkBlockState e (stack (reverse a))))) in E; [done|]. by exists a, e, b.
Qed.

(** What the maps have: each block of the list under its hash, with the blocks below it as its ancestors, and its hash under its number; and
    nothing else. *)
Definition represents self L : Prop :=
  linked L /\
  (forall h s, blocks self !! h = Some s <-> exists p e q, L = p ++ e :: q /\ block_hash e = h /\ s = mkBlockState e (stack (reverse p))) /\
  (forall k h, numbers self !! k = Some h <-> exists e, e ∈ L /\ block_number e = k /\ block_hash e = h).

Lemma represents_built self L : represents self L <-> built self L.
Proof.
  split.
  - intros (Hlk & Hb & Hn). pose proof Hlk as (root & n & Hl & Hnd). destruct (build_lookup L root n Hl Hnd) as (H1 & H2 & _).
    split_and!; [done|..]; apply map_eq; intros k; apply option_eq; intros x; [by rewrite Hb, H1|by rewrite Hn, H2].
  - intros (Hlk & Hb & Hn). unfold represents. rewrite Hb, Hn. pose proof Hlk as (root & n & Hl & Hnd). destruct (build_lookup L root n Hl Hnd) as (H1 & H2 & _). done.
Qed.

(** C27: the state in memory implements a list of linked blocks, of which it has each block by its hash with the blocks below it, and each hash by the number: committing appends, a
    reorg replaces the blocks above the fork, also when it goes below what is in memory, writing blocks to the database
    drops those up to the written one, provided it is in memory, and clearing forgets all. *)
Theorem in_memory_refines_list self L :
  represents self L ->
  (forall new, linked (L ++ new) -> represents (update_chain self (Commit new)) (L ++ new)) /\
  (forall K tail pre new, L = K ++ tail -> Forall (unknown L) pre -> linked (K ++ new) ->
     represents (update_chain self (Reorg new (pre ++ (block <$> tail)))) (K ++ new)) /\
  (forall p, nh_hash p ∈ block_hash <$> L ->
     represents (remove_persisted_blocks self p) (filter (fun e => nh_number p < block_number e) L)) /\
  (forall p, nh_hash p ∉ block_hash <$> L -> remove_persisted_blocks self p = self) /\
  represents (clear_state self) [].
Proof.
  intros Hrep%represents_built. split_and!.
  - intros new Hnew. by apply represents_built, commit_built.
  - intros K tail pre new -> Hpre Hnew. by apply represents_built, reorg_built.
  - intros p Hp. by apply represents_built, persisted_built.
  - intros p Hp. unfold remove_persisted_blocks. destruct Hrep as (Hlk & Hb & _). rewrite Hb.
    unfold build. rewrite (proj1 (inserted_other L (∅, ∅))) by done. done.
  - apply represents_built. split; [|done]. exists 0, 0. split; [done|apply NoDup_singleton].
Qed.

End props.

(** ** Witnesses *)

Definition memory_block (h p n : Z) : ExecutedBlockWithTrieUpdates SimpleBlock unit := mkExecuted (mkSimple h p n) (Present tt).
Definition memory_list : list (ExecutedBlockWithTrieUpdates SimpleBlock unit) :=
  [memory_block 4 3 4; memory_block 5 4 5; memory_block 6 5 6].
Definition memory_sample : InMemoryState := update_chain empty (Commit memory_list).

Lemma memory_sample_represents : built memory_sample memory_list.
Proof.
  split; [|done]. exists 3, 4. split; [by vm_compute|]. apply (bool_decide_unpack _). by vm_compute.
Qed.

Lemma in_memory_lookups_witness :
  (exists s, state_by_hash memory_sample 5 = Some s /\ state_by_number memory_sample 5 = Some s /\
     bs_block <$> chain s = [memory_block 5 4 5; memory_block 4 3 4]) /\
  bs_block <$> canonical_chain memory_sample = [memory_block 6 5 6; memory_block 5 4 5; memory_block 4 3 4].
Proof.
  destruct (in_memory_lookups memory_sample memory_list memory_sample_represents) as (H1 & _ & _ & H4). split.
  - exact (H1 [memory_block 4 3 4] (memory_block 5 4 5) [memory_block 6 5 6] eq_refl).
  - exact H4.
Defined.

(** A reorg that goes below memory: the blocks 3, 4, 5, 6 are replaced by 13. *)
Lemma in_memory_refines_list_witness :
  (represents (update_chain memory_sample (Reorg [memory_block 13 2 3] [mkSimple 3 2 3; mkSimple 4 3 4; mkSimple 5 4 5; mkSimple 6 5 6]))
     [memory_block 13 2 3] /\
   represents (remove_persisted_blocks memory_sample (mkNumHash 5 5)) [memory_block 6 5 6]) /\
  blocks memory_sample !! 5 = Some (mkBlockState (memory_block 5 4 5) (Some (mkBlockState (memory_block 4 3 4) None))).
Proof.
  split; [|reflexivity].
  destruct (in_memory_refines_list memory_sample memory_list (proj2 (represents_built _ _) memory_sample_represents)) as (_ & H2 & H3 & _). split.
  - apply (H2 [] memory_list [mkSimple 3 2 3] [memory_block 13 2 3]); [reflexivity| |].
    + apply Forall_singleton. split; apply (bool_decide_unpack _); by vm_compute.
    + exists 2, 3. split; [by vm_compute|]. apply (bool_decide_unpack _). by vm_compute.
  - apply (H3 (mkNumHash 5 5)). apply (bool_decide_unpack _). by vm_compute.
Defined.

End InMemoryProps.
