(* ===== verification/EngineHandler.v ===== *)
(** * Handler of the engine tree: state and effects

    [crates/engine/tree/src/tree/mod.rs], with the messages of [engine.rs], [chain.rs], [backfill.rs]
    and [crates/engine/primitives]: the state of the handler, the events and answers it produces,
    the errors it meets, and the monad its methods are written in. *)

From S2P Require Import Prelude Ordered EngineBlocks BlockBuffer InvalidHeaders TreeState Forkchoice EngineTree InMemory.
Import EngineBlocks.
Local Open Scope reth_scope.

Module Handler.
Import Tree Forkchoice Engine InMemory.

(** ** Types that a node chooses

    [NodePrimitives], [PayloadTypes] and the types of the database: blocks with senders, outcomes of an execution, hashed states,
    trie updates and inputs of the trie, state providers, payloads, payload attributes as they are received and as they
    are given to the builder, the state of the payload validator, times, and the
    contents of errors that the handler only passes on. *)
Class NodeTypes := {
  RB : Type; Out : Type; HS : Type; T : Type; TrieInput : Type; StateProvider : Type;
  Payload : Type; PayloadAttributes : Type; BuilderAttributes : Type; V : Type; Instant : Type; PE : Type;
  Lru : Type -> Type;
}.

(** What the handler uses of these types and of its environment: a block has a header, a payload a hash, a parent and a
    number ([ExecutionPayload]), the inputs of the trie are collected. *)
Class NodeOps `{!NodeTypes} := {
  node_block :: RecoveredBlock RB;
  node_payload :: BlockTrait Payload;
  node_lru :: LruMap Lru;
  node_order :: HashOrder;
  epoch_slots : Z;
  input_default : TrieInput;
  hashed_default : HS;
  input_append : TrieInput -> HS -> TrieInput;
  input_extend_with_blocks : TrieInput -> list (HS * option T) -> TrieInput;
}.

(** An executed block with its trie updates. *)
Abbreviation Executed := (ExecutedBlockWithTrieUpdates (ExecutedBlock RB Out HS) T).

Section types.
Context `{!NodeTypes} `{!NodeOps}.

Abbreviation EB := (ExecutedBlock RB Out HS).
Abbreviation PResult A := (result A (ProviderError PE)).

(** ** Errors *)

Inductive BlockExecutionError := Validation (e : PE) | Internal (e : PE).

Inductive InsertBlockErrorKind :=
| Consensus (e : PE)
| Execution (e : BlockExecutionError)
| ProviderKind (e : ProviderError PE)
| OtherKind (e : PE).

Inductive InsertBlockFatalError :=
| FatalProvider (e : ProviderError PE)
| FatalExecution (e : PE).

Inductive InsertBlockValidationError := ConsensusInvalid (e : PE) | ValidationInvalid (e : PE).

Definition ensure_validation_error (k : InsertBlockErrorKind) : result InsertBlockValidationError InsertBlockFatalError :=
  match k with
  | Consensus e => Ok (ConsensusInvalid e)
  | Execution (Validation e) => Ok (ValidationInvalid e)
  | Execution (Internal e) => Err (FatalExecution e)
  | ProviderKind e => Err (FatalProvider e)
  | OtherKind e => Err (FatalExecution e)
  end.

(** The block that was not inserted, and why. *)
Record InsertBlockError := mkInsertBlockError { ibe_block : RB; ibe_kind : InsertBlockErrorKind }.

(** [PayloadError] of [alloy_rpc_types_engine]: the two that the handler looks for, and all others. *)
Inductive PayloadError := BlockHash (execution consensus : Z) | InvalidVersionedHashes | OtherPayloadError (e : PE).
Inductive NewPayloadError := Eth (e : PayloadError) | OtherNewPayloadError (e : PE).

Definition is_block_hash_mismatch (e : NewPayloadError) : bool := match e with Eth (BlockHash _ _) => true | _ => false end.
Definition is_invalid_versioned_hashes (e : NewPayloadError) : bool := match e with Eth InvalidVersionedHashes => true | _ => false end.

Inductive InsertPayloadError := BlockFailed (e : InsertBlockError) | PayloadFailed (e : NewPayloadError).

Inductive AdvancePersistenceError := RecvClosed | PersistProvider (e : ProviderError PE) | MissingAncestor (h : Z).

(** ** Answers *)

(** [PayloadStatus] of [alloy_rpc_types_engine]. *)
Record PayloadStatus := mkPayloadStatus { status : PayloadStatusEnum; latest_valid_hash : option Z }.
Definition from_status (s : PayloadStatusEnum) : PayloadStatus := mkPayloadStatus s None.
Definition status_is_valid (s : PayloadStatus) : bool := match status s with PValid => true | _ => false end.

(** [ForkchoiceUpdateError] of [alloy_rpc_types_engine]. *)
Inductive ForkchoiceUpdateError := InvalidState | UpdatedInvalidPayloadAttributes.

(** [OnForkChoiceUpdated] with its future: an answer that is there, or one that waits for the identifier of a payload job;
    a job is named by its position among the jobs that were sent. *)
Inductive ForkchoiceFuture :=
| Ready (r : result PayloadStatus ForkchoiceUpdateError)
| PendingPayloadId (payload_status : PayloadStatus) (job : nat).
Record OnForkChoiceUpdated := mkOnForkChoiceUpdated { forkchoice_status : ForkchoiceStatus; fut : ForkchoiceFuture }.

Definition fcu_of_status (s : PayloadStatus) : OnForkChoiceUpdated :=
  mkOnForkChoiceUpdated (from_payload_status (status s)) (Ready (Ok s)).
Definition fcu_syncing : OnForkChoiceUpdated := fcu_of_status (from_status PSyncing).
Definition fcu_valid (s : PayloadStatus) : OnForkChoiceUpdated := fcu_of_status s.
Definition fcu_with_invalid (s : PayloadStatus) : OnForkChoiceUpdated := fcu_of_status s.
Definition fcu_invalid_state : OnForkChoiceUpdated := mkOnForkChoiceUpdated FInvalid (Ready (Err InvalidState)).
Definition fcu_invalid_payload_attributes : OnForkChoiceUpdated :=
  mkOnForkChoiceUpdated FValid (Ready (Err UpdatedInvalidPayloadAttributes)).
Definition fcu_updated_with_pending_payload_id (s : PayloadStatus) (job : nat) : OnForkChoiceUpdated :=
  mkOnForkChoiceUpdated (from_payload_status (status s)) (PendingPayloadId s job).

(** What the future resolves to when the builder answers, or drops the job. *)
Definition poll_fcu (o : OnForkChoiceUpdated) (answer : option (result Z PE)) : result (PayloadStatus * option Z) ForkchoiceUpdateError :=
  match fut o with
  | Ready (Ok s) => Ok (s, None)
  | Ready (Err e) => Err e
  | PendingPayloadId s _ =>
      match answer with
      | Some (Ok id) => Ok (s, Some id)
      | _ => Err UpdatedInvalidPayloadAttributes
      end
  end.

Inductive BlockStatus := Valid | Disconnected (head missing_ancestor : BlockNumHash).
Inductive InsertPayloadOk := AlreadySeen (s : BlockStatus) | Inserted (s : BlockStatus).

Inductive PersistingKind := NotPersisting | PersistingNotDescendant | PersistingDescendant.
Definition can_run_parallel_state_root (k : PersistingKind) : bool :=
  match k with NotPersisting | PersistingDescendant => true | PersistingNotDescendant => false end.
Definition kind_is_descendant (k : PersistingKind) : bool := match k with PersistingDescendant => true | _ => false end.

(** ** Events *)

Inductive DownloadRequest := BlockSet (hs : gset Z) | BlockRange (h : Z) (count : Z).
Definition single_block (h : Z) : DownloadRequest := BlockSet {[h]}.

Inductive PipelineTarget := Sync (h : Z) | UnwindTo (n : Z).
Inductive BackfillAction := Start (target : PipelineTarget).

Inductive TreeAction := MakeCanonical (sync_target_head : Z).
Inductive TreeEvent := ActionEvent (a : TreeAction) | BackfillEvent (a : BackfillAction) | DownloadEvent (r : DownloadRequest).
Definition tree_event_is_backfill (e : TreeEvent) : bool := match e with BackfillEvent _ => true | _ => false end.

Record TreeOutcome (A : Type) := mkOutcome { outcome : A; event : option TreeEvent }.
Arguments mkOutcome {A}. Arguments outcome {A}. Arguments event {A}.
Definition outcome_new {A} (a : A) : TreeOutcome A := mkOutcome a None.
Definition with_event {A} (o : TreeOutcome A) (e : TreeEvent) : TreeOutcome A := mkOutcome (outcome o) (Some e).

(** Events for listeners, without the time that a step took. *)
Inductive ConsensusEngineEvent :=
| ForkchoiceUpdatedEvent (state : ForkchoiceState) (status : ForkchoiceStatus)
| ForkBlockAdded (e : Executed)
| BlockReceived (nh : BlockNumHash)
| CanonicalBlockAdded (e : Executed)
| CanonicalChainCommitted (header : SealedHeader)
| InvalidBlock (b : RB).

Inductive EngineApiEvent :=
| BeaconConsensus (e : ConsensusEngineEvent)
| BackfillActionEvent (a : BackfillAction)
| DownloadAction (r : DownloadRequest).
Definition is_backfill_action (e : EngineApiEvent) : bool := match e with BackfillActionEvent _ => true | _ => false end.

(** ** Messages *)

Inductive ControlFlow :=
| Unwind (target : Z) (bad_block : BlockWithParent)
| Continue (block_number : Z)
| NoProgress (block_number : option Z).
Definition is_unwind (c : ControlFlow) : bool := match c with Unwind _ _ => true | _ => false end.
Definition ctrl_block_number (c : ControlFlow) : option Z :=
  match c with
  | Unwind _ _ => None
  | Continue n => Some n
  | NoProgress n => n
  end.

Inductive FromOrchestrator := BackfillSyncFinished (c : ControlFlow) | BackfillSyncStarted.

Inductive BeaconEngineMessage :=
| NewPayload (payload : Payload)
| ForkchoiceUpdated (state : ForkchoiceState) (attrs : option PayloadAttributes) (version : Z).

Inductive EngineApiRequest := Beacon (m : BeaconEngineMessage) | InsertExecutedBlock (e : Executed).

Inductive FromEngine :=
| Event (e : FromOrchestrator)
| Request (r : EngineApiRequest)
| DownloadedBlocks (blocks : list RB).

(** What is sent to the service that writes to the database; a request for blocks has an answer, which
    is named by the position of the request. *)
Inductive PersistenceAction :=
| SaveBlocks (blocks : list Executed)
| RemoveBlocksAbove (n : Z)
| SaveFinalizedBlock (n : Z)
| SaveSafeBlock (n : Z).

(** The answers that the handler sends. *)
Inductive Response :=
| PayloadResponse (r : result PayloadStatus InsertBlockFatalError)
| ForkchoiceResponse (r : result OnForkChoiceUpdated (ProviderError PE)).

(** The chains that listeners are told of: blocks with their outcomes. *)
Inductive CanonStateNotification :=
| CommitNotification (new : list (RB * Out))
| ReorgNotification (new old : list (RB * Out)).

(** ** State *)

(** The database: the look-ups of [EngineTree], and what the other methods read.  [header] and [sealed_header_by_hash] look up a header by its hash,
    [header_by_hash_or_number] by the hash it is given here. *)
Record Database := mkDatabase {
  db_provider : Provider RB Out HS PE;
  db_header : Z -> PResult (option SealedHeader);
  db_header_by_hash_or_number : Z -> PResult (option SealedHeader);
  db_block_hash : Z -> PResult (option Z);
  db_sealed_header : Z -> PResult (option SealedHeader);
  db_best_block_number : PResult Z;
  db_convert_hash_or_number : BlockHashOrNumber -> PResult (option Z);
  db_from_reverts : Z -> PResult HS;
  db_state_by_block_hash : Z -> PResult StateProvider;
  db_state_root_with_updates : StateProvider -> option (list Executed) -> TrieInput -> PResult T;
}.

Record EngineApiTreeState := mkTreeStates {
  es_tree : TreeState (B := EB) (T := T);
  es_tracker : ForkchoiceStateTracker;
  es_buffer : Buffer.BlockBuffer (B := RB);
  es_invalid : Lru InvalidHeaders.HeaderEntry;
}.

Definition tree_states_new (block_buffer_limit max_invalid_header_cache_length : Z) (canonical : BlockNumHash) (kind : EngineApiKind) : EngineApiTreeState :=
  mkTreeStates (Tree.new canonical kind) tracker_default (Buffer.new block_buffer_limit)
    (InvalidHeaders.new max_invalid_header_cache_length).

(** [CanonicalInMemoryState]: the chain in memory, the headers, and what listeners were told. *)
Record CanonicalInMemoryState := mkMemory {
  in_memory : InMemoryState (EB := EB) (T := T);
  info : ChainInfoTracker (H := SealedHeader) (Instant := Instant);
  notified : list CanonStateNotification;
}.

Record Handler := mkEngineHandler {
  db : Database;
  payload_validator : V;
  state : EngineApiTreeState;
  incoming : list FromEngine;           (** what the handler sent to itself *)
  outgoing : list EngineApiEvent;
  persistence : list PersistenceAction;
  h_persistence_state : PersistenceState nat;
  h_backfill_sync_state : BackfillSyncState;
  memory : CanonicalInMemoryState;
  payload_builder : list BuilderAttributes; (** the jobs that were sent *)
  responses : list Response;            (** the answers that were sent *)
  h_config : TreeConfig;
  h_engine_kind : EngineApiKind;
}.
Implicit Types (self : Handler).

(** The part that the methods in [EngineTree] read. *)
Definition core self : EngineApiTreeHandler (RB := RB) (Out := Out) (HS := HS) (T := T) (PE := PE) (Rx := nat) :=
  mkHandler (db_provider (db self)) (es_tree (state self)) (h_persistence_state self) (h_backfill_sync_state self) (h_config self).

(** Updates of a field. *)
Definition set_state self s := mkEngineHandler (db self) (payload_validator self) s (incoming self) (outgoing self)
  (persistence self) (h_persistence_state self) (h_backfill_sync_state self) (memory self) (payload_builder self)
  (responses self) (h_config self) (h_engine_kind self).
Definition set_validator self v := mkEngineHandler (db self) v (state self) (incoming self) (outgoing self)
  (persistence self) (h_persistence_state self) (h_backfill_sync_state self) (memory self) (payload_builder self)
  (responses self) (h_config self) (h_engine_kind self).
Definition push_incoming self m := mkEngineHandler (db self) (payload_validator self) (state self) (incoming self ++ [m]) (outgoing self)
  (persistence self) (h_persistence_state self) (h_backfill_sync_state self) (memory self) (payload_builder self)
  (responses self) (h_config self) (h_engine_kind self).
Definition push_outgoing self e := mkEngineHandler (db self) (payload_validator self) (state self) (incoming self) (outgoing self ++ [e])
  (persistence self) (h_persistence_state self) (h_backfill_sync_state self) (memory self) (payload_builder self)
  (responses self) (h_config self) (h_engine_kind self).
Definition push_persistence self a := mkEngineHandler (db self) (payload_validator self) (state self) (incoming self) (outgoing self)
  (persistence self ++ [a]) (h_persistence_state self) (h_backfill_sync_state self) (memory self) (payload_builder self)
  (responses self) (h_config self) (h_engine_kind self).
Definition set_persistence_state self p := mkEngineHandler (db self) (payload_validator self) (state self) (incoming self) (outgoing self)
  (persistence self) p (h_backfill_sync_state self) (memory self) (payload_builder self)
  (responses self) (h_config self) (h_engine_kind self).
Definition set_backfill self b := mkEngineHandler (db self) (payload_validator self) (state self) (incoming self) (outgoing self)
  (persistence self) (h_persistence_state self) b (memory self) (payload_builder self)
  (responses self) (h_config self) (h_engine_kind self).
Definition set_memory self m := mkEngineHandler (db self) (payload_validator self) (state self) (incoming self) (outgoing self)
  (persistence self) (h_persistence_state self) (h_backfill_sync_state self) m (payload_builder self)
  (responses self) (h_config self) (h_engine_kind self).
Definition push_job self a := mkEngineHandler (db self) (payload_validator self) (state self) (incoming self) (outgoing self)
  (persistence self) (h_persistence_state self) (h_backfill_sync_state self) (memory self) (payload_builder self ++ [a])
  (responses self) (h_config self) (h_engine_kind self).
Definition push_response self r := mkEngineHandler (db self) (payload_validator self) (state self) (incoming self) (outgoing self)
  (persistence self) (h_persistence_state self) (h_backfill_sync_state self) (memory self) (payload_builder self)
  (responses self ++ [r]) (h_config self) (h_engine_kind self).
Definition set_db self d := mkEngineHandler d (payload_validator self) (state self) (incoming self) (outgoing self)
  (persistence self) (h_persistence_state self) (h_backfill_sync_state self) (memory self) (payload_builder self)
  (responses self) (h_config self) (h_engine_kind self).

Definition set_tree self t := set_state self (mkTreeStates t (es_tracker (state self)) (es_buffer (state self)) (es_invalid (state self))).
Definition set_tracker self t := set_state self (mkTreeStates (es_tree (state self)) t (es_buffer (state self)) (es_invalid (state self))).
Definition set_buffer self b := set_state self (mkTreeStates (es_tree (state self)) (es_tracker (state self)) b (es_invalid (state self))).
Definition set_invalid self i := set_state self (mkTreeStates (es_tree (state self)) (es_tracker (state self)) (es_buffer (state self)) i).

(** Updates of the canonical chain in memory. *)
Definition set_in_memory self m := set_memory self (mkMemory m (info (memory self)) (notified (memory self))).
Definition set_info self i := set_memory self (mkMemory (in_memory (memory self)) i (notified (memory self))).
Definition notify_canon_state self n :=
  set_memory self (mkMemory (in_memory (memory self)) (info (memory self)) (notified (memory self) ++ [n])).

(** ** Effects

    A method returns a result and the new state; [None] is a loop that is out of fuel. *)
Definition M (E A : Type) : Type := Handler -> option (result A E * Handler).

Definition ret {E A} (a : A) : M E A := fun s => Some (Ok a, s).
Definition throw {E A} (e : E) : M E A := fun s => Some (Err e, s).
Definition bind {E A B} (m : M E A) (k : A -> M E B) : M E B := fun s =>
  match m s with
  | Some (Ok a, s) => k a s
  | Some (Err e, s) => Some (Err e, s)
  | None => None
  end.
Definition gets {E A} (f : Handler -> A) : M E A := fun s => Some (Ok (f s), s).
Definition modify {E} (f : Handler -> Handler) : M E unit := fun s => Some (Ok tt, f s).
(** A look-up that may fail. *)
Definition reads {E A} (f : Handler -> result A E) : M E A := fun s => Some (f s, s).
(** A loop that may be out of fuel. *)
Definition fueled {E A} (f : Handler -> option A) : M E A := fun s => a ← f s; Some (Ok a, s).
Definition fueled_reads {E A} (f : Handler -> option (result A E)) : M E A := fun s => r ← f s; Some (r, s).
(** [map_err]: the conversion of [?]. *)
Definition convert {E E' A} (f : E -> E') (m : M E A) : M E' A := fun s =>
  match m s with
  | Some (Ok a, s) => Some (Ok a, s)
  | Some (Err e, s) => Some (Err (f e), s)
  | None => None
  end.
(** The result as a value, to match on it. *)
Definition attempt {E E' A} (m : M E A) : M E' (result A E) := fun s =>
  match m s with
  | Some (r, s) => Some (Ok r, s)
  | None => None
  end.

End types.

Arguments mkOutcome {_} _ _. Arguments outcome {_} _. Arguments event {_} _.
Notation "x <-! m ; k" := (bind m (fun x => k)) (at level 100, m at next level, right associativity) : reth_scope.
Notation "m ;! k" := (bind m (fun _ => k)) (at level 100, right associativity) : reth_scope.

(** ** The validators *)

(** [FullConsensus], as far as the handler calls it. *)
Class FullConsensus `{!NodeTypes} := {
  consensus_validate_header : RB -> result unit PE;
  consensus_validate_block_pre_execution : RB -> result unit PE;
}.

(** [TreeCtx]: what the validator sees of the handler. *)
Record TreeCtx `{!NodeTypes} `{!NodeOps} := mkTreeCtx {
  ctx_state : EngineApiTreeState;
  ctx_persistence : PersistenceState nat;
  ctx_memory : CanonicalInMemoryState;
}.

(** [EngineValidator].  Validating a payload or a block changes the validator; of the state of the tree, which it could change, it uses the cache of
    invalid headers: it looks up the hashes that are returned ([on_invalid_block]). *)
Class EngineValidator `{!NodeTypes} `{!NodeOps} := {
  validate_payload_attributes_against_header : V -> PayloadAttributes -> SealedHeader -> result unit PE;
  ensure_well_formed_payload : V -> Payload -> result RB NewPayloadError;
  validate_payload : V -> Payload -> TreeCtx -> result Executed InsertPayloadError * V * list Z;
  validator_validate_block : V -> RB -> TreeCtx -> result Executed InsertPayloadError * V * list Z;
  (** [PayloadBuilderAttributes::try_new]. *)
  builder_attributes_try_new : Z -> PayloadAttributes -> Z -> result BuilderAttributes PE;
}.

End Handler.
