(* ===== verification/EngineOps.v ===== *)
(** * Handler of the engine tree: methods

    [crates/engine/tree/src/tree/mod.rs]: how the handler treats payloads, forkchoice updates, downloaded
    blocks, the end of a backfill and the answers of the persistence task.  The argument [fuel] bounds the walks through the
    database; the order is the one in which methods call each other. *)

From S2P Require Import Prelude Ordered EngineBlocks BlockBuffer InvalidHeaders TreeState Forkchoice EngineTree InMemory EngineHandler.
Import EngineBlocks.
Local Open Scope reth_scope.

Module EngineOps.
Import Tree Forkchoice Engine InMemory Handler.

Section ops.
Context `{!NodeTypes} `{!NodeOps} `{!FullConsensus} `{!EngineValidator}.
Abbreviation EB := (ExecutedBlock RB Out HS).
Abbreviation PM := (M (ProviderError PE)).
Abbreviation FM := (M InsertBlockFatalError).
Abbreviation PResult A := (result A (ProviderError PE)).
Implicit Types (self : Handler) (h : Z).

Definition MIN_BLOCKS_FOR_PIPELINE_RUN : Z := epoch_slots.

Definition fatal {A} (m : PM A) : FM A := convert FatalProvider m.

(** [tip] of a chain; [None] is the panic on a chain without blocks. *)
Definition new_blocks (c : NewCanonicalChain EB T) : list Executed := match c with Commit new | Reorg new _ => new end.
Definition chain_tip (c : NewCanonicalChain EB T) : option RB := (fun e : Executed => recovered_block (block e)) <$> last (new_blocks c).

Definition append_blocks (l : list EB) : list (RB * Out) := (fun b => (recovered_block b, execution_output b)) <$> l.
Definition to_chain_notification (c : NewCanonicalChain EB T) : CanonStateNotification :=
  match c with
  | Commit new => CommitNotification (append_blocks (block <$> new))
  | Reorg new old => ReorgNotification (append_blocks (block <$> new)) (append_blocks old)
  end.

(** ** Events *)

Definition emit_event self (e : EngineApiEvent) : Handler :=
  if is_backfill_action e then
    if in_progress (h_persistence_state self) then self
    else push_outgoing (set_backfill self Pending) e
  else push_outgoing self e.
Definition emit {E} (e : EngineApiEvent) : M E unit := modify (fun self => emit_event self e).

(** ** Answers about invalid blocks *)

(** A look-up in the cache of invalid headers counts as a hit. *)
Definition get_invalid {E} h : M E (option BlockWithParent) := fun self =>
  let r := InvalidHeaders.get (es_invalid (state self)) h in Some (Ok r.1, set_invalid self r.2).
Definition insert_invalid {E} (a : BlockWithParent) : M E unit :=
  modify (fun self => set_invalid self (InvalidHeaders.insert (es_invalid (state self)) a)).

Definition lookup_header {E} (f : ProviderError PE -> E) h : M E (option SealedHeader) :=
  convert f (reads (fun self => sealed_header_by_hash (core self) h)).

Definition lowest_buffered_ancestor_or {E} h : M E Z := fueled (fun self =>
  r ← Buffer.lowest_ancestor (es_buffer (state self)) h;
  Some (match r with Some b => block_parent_hash b | None => h end)).

(** The loop over ancestors in the cache: the last look-up and what it found. *)
Fixpoint invalid_ancestors_loop (fuel : nat) (current_block : option BlockWithParent) : PM (option Z) :=
  match current_block with
  | None => ret None
  | Some block_with_parent =>
      match fuel with
      | O => fueled (fun _ => None)
      | S fuel =>
          let current_hash := bwp_parent block_with_parent in
          current_block <-! get_invalid current_hash;
          match current_block with
          | None =>
              header <-! lookup_header id current_hash;
              match header with
              | Some _ => ret (Some current_hash)
              | None => ret None
              end
          | Some _ => invalid_ancestors_loop fuel current_block
          end
      end
  end.

Definition latest_valid_hash_for_invalid_payload (fuel : nat) (parent_hash : Z) : PM (option Z) :=
  header <-! lookup_header id parent_hash;
  match header with
  | Some _ => ret (Some parent_hash)
  | None => current_block <-! get_invalid parent_hash; invalid_ancestors_loop fuel current_block
  end.

Definition prepare_invalid_response (fuel : nat) (parent_hash : Z) : PM PayloadStatus :=
  parent <-! lookup_header id parent_hash;
  let parent_hash :=
    match parent with
    | Some parent => if sh_difficulty parent =? 0 then parent_hash else 0
    | None => parent_hash
    end in
  valid_parent_hash <-! latest_valid_hash_for_invalid_payload fuel parent_hash;
  ret (mkPayloadStatus PInvalid (Some (default 0 valid_parent_hash))).

Definition is_sync_target_head self (block_hash : Z) : bool :=
  match sync_target_state (es_tracker (state self)) with
  | Some target => head_block_hash target =? block_hash
  | None => false
  end.

Definition on_invalid_new_payload (fuel : nat) (head : RB) (invalid : BlockWithParent) : PM PayloadStatus :=
  status <-! prepare_invalid_response fuel (bwp_parent invalid);
  modify (fun self => set_invalid self
    (InvalidHeaders.insert_with_invalid_ancestor (es_invalid (state self)) (block_hash head) invalid)) ;!
  emit (BeaconConsensus (InvalidBlock head)) ;!
  ret status.

Definition check_invalid_ancestor_with_head (fuel : nat) (check : Z) (head : RB) : PM (option PayloadStatus) :=
  header <-! get_invalid check;
  match header with
  | None => ret None
  | Some header => status <-! on_invalid_new_payload fuel head header; ret (Some status)
  end.

Definition find_invalid_ancestor {E} (payload : Payload) : M E (option BlockWithParent) :=
  lowest <-! lowest_buffered_ancestor_or (block_hash payload);
  get_invalid (if lowest =? block_hash payload then block_parent_hash payload else lowest).

Definition check_invalid_ancestor (fuel : nat) (head : Z) : PM (option PayloadStatus) :=
  header <-! get_invalid head;
  match header with
  | None => ret None
  | Some header => status <-! prepare_invalid_response fuel (bwp_parent header); ret (Some status)
  end.

Definition on_new_payload_error (fuel : nat) (error : NewPayloadError) (parent_hash : Z) : PM PayloadStatus :=
  latest_valid_hash <-!
    (if is_block_hash_mismatch error || is_invalid_versioned_hashes error then ret None
     else latest_valid_hash_for_invalid_payload fuel parent_hash);
  ret (mkPayloadStatus PInvalid latest_valid_hash).

Definition handle_invalid_ancestor_payload (fuel : nat) (payload : Payload) (invalid : BlockWithParent) : FM PayloadStatus :=
  validator <-! gets payload_validator;
  match ensure_well_formed_payload validator payload with
  | Ok block => fatal (on_invalid_new_payload fuel block invalid)
  | Err error => fatal (on_new_payload_error fuel error (block_parent_hash payload))
  end.

Definition on_insert_block_error (fuel : nat) (error : InsertBlockError) : FM PayloadStatus :=
  match ensure_validation_error (ibe_kind error) with
  | Err e => throw e
  | Ok _ =>
      let b := ibe_block error in
      latest_valid_hash <-! fatal (latest_valid_hash_for_invalid_payload fuel (block_parent_hash b));
      insert_invalid (block_with_parent b) ;!
      emit (BeaconConsensus (InvalidBlock b)) ;!
      ret (mkPayloadStatus PInvalid latest_valid_hash)
  end.

(** ** Chains *)

(** The loop of [is_fork]: [true] if the canonical head was met. *)
Fixpoint extends_head_loop (fuel : nat) self (current : BlockWithParent) : option (PResult bool) :=
  let canonical_head := current_canonical_head (es_tree (state self)) in
  if nh_hash (bwp_block current) =? nh_hash canonical_head then Some (Ok true)
  else if nh_number (bwp_block current) <=? nh_number canonical_head then Some (Ok false)
  else
    match fuel with
    | O => None
    | S fuel =>
        match sealed_header_by_hash (core self) (bwp_parent current) with
        | Err e => Some (Err e)
        | Ok None => Some (Ok false)
        | Ok (Some next_block) => extends_head_loop fuel self (block_with_parent next_block)
        end
    end.

Definition is_fork (fuel : nat) (target : BlockWithParent) : PM bool :=
  extends <-! fueled_reads (fun self => extends_head_loop fuel self target);
  if (extends : bool) then ret false
  else
    self <-! gets id;
    match header_by_hash (in_memory (memory self)) (nh_hash (bwp_block target)) with
    | Some _ => ret false
    | None =>
        number <-! reads (fun self => p_block_number (db_provider (db self)) (nh_hash (bwp_block target)));
        ret (match number with Some _ => false | None => true end)
    end.

(** [None] is a walk that is out of fuel. *)
Definition persisting_kind_for self (b : BlockWithParent) : option PersistingKind :=
  match current_action (h_persistence_state self) with
  | None => Some NotPersisting
  | Some (RemovingBlocks _) => Some PersistingNotDescendant
  | Some (SavingBlocks highest) =>
      if nh_number highest <? nh_number (bwp_block b) then
        d ← is_descendant (es_tree (state self)) highest b;
        Some (if (d : bool) then PersistingDescendant else PersistingNotDescendant)
      else Some PersistingNotDescendant
  end.

(** [StateProviderBuilder]: the historical block and the blocks on top of it. *)
Record StateProviderBuilder := mkBuilder { historical : Z; overlay : option (list Executed) }.

Definition state_provider_builder {E} (f : ProviderError PE -> E) h : M E (option StateProviderBuilder) :=
  chain <-! fueled (fun self => chain_by_hash (es_tree (state self)) h);
  match chain with
  | Some (historical, blocks) => ret (Some (mkBuilder historical (Some blocks)))
  | None =>
      header <-! convert f (reads (fun self => db_header (db self) h));
      ret (match header with Some _ => Some (mkBuilder h None) | None => None end)
  end.

(** [build]: the provider of the historical block, to be used under the overlay. *)
Definition build_provider (b : StateProviderBuilder) : PM (StateProvider * option (list Executed)) :=
  provider <-! reads (fun self => db_state_by_block_hash (db self) (historical b));
  ret (provider, overlay b).

Definition find_canonical_header self h : PResult (option SealedHeader) :=
  match header_by_hash (in_memory (memory self)) h with
  | Some b => Ok (Some (sealed_header b))
  | None => db_header (db self) h
  end.

(** ** The canonical chain *)

Definition reinsert_reorged_blocks self (new_chain : list Executed) : Handler :=
  foldl (fun self (b : Executed) =>
    match executed_block_by_hash (es_tree (state self)) (block_hash b) with
    | None => set_tree self (insert_executed (es_tree (state self)) b)
    | Some _ => self
    end) self new_chain.

(** The blocks of the old chain of which the trie updates are still there. *)
Definition persisted_old self (old : list EB) : list Executed :=
  omap (fun b : EB =>
    u ← persisted_trie_updates (es_tree (state self)) !! block_hash b;
    Some (mkExecuted b (Present u.2) : Executed)) old.

Definition reinsert_chains self (c : NewCanonicalChain EB T) : Handler :=
  match c with
  | Commit _ => self
  | Reorg new old =>
      let self := reinsert_reorged_blocks self new in
      reinsert_reorged_blocks self (persisted_old self old)
  end.

Definition on_canonical_chain_update self (c : NewCanonicalChain EB T) : option Handler :=
  tip ← chain_tip c;
  let self := set_tree self (Tree.set_canonical_head (es_tree (state self)) (num_hash tip)) in
  let self := reinsert_chains self c in
  let self := set_in_memory self (update_chain (in_memory (memory self)) c) in
  let self := set_info self (ci_set_canonical_head (info (memory self)) (sealed_header tip)) in
  let self := notify_canon_state self (to_chain_notification c) in
  Some (emit_event self (BeaconConsensus (CanonicalChainCommitted (sealed_header tip)))).

Definition on_chain_update {E} (c : NewCanonicalChain EB T) : M E unit := fun self =>
  self ← on_canonical_chain_update self c; Some (Ok tt, self).

Definition new_head (fuel : nat) h : PM (option (NewCanonicalChain EB T)) :=
  fueled_reads (fun self => on_new_head fuel (core self) h).

Definition make_canonical (fuel : nat) (target : Z) : PM unit :=
  chain_update <-! new_head fuel target;
  match chain_update with
  | Some chain_update => on_chain_update chain_update
  | None => ret tt
  end.

Definition on_tree_event (fuel : nat) (e : TreeEvent) : PM unit :=
  match e with
  | ActionEvent (MakeCanonical sync_target_head) => make_canonical fuel sync_target_head
  | BackfillEvent action => emit (BackfillActionEvent action)
  | DownloadEvent action => emit (DownloadAction action)
  end.

Definition on_maybe_tree_event (fuel : nat) (e : option TreeEvent) : PM unit :=
  match e with Some e => on_tree_event fuel e | None => ret tt end.

End ops.
End EngineOps.
