(* ===== verification/EngineMsgs.v ===== *)
(** * Handler of the engine tree: messages

    [crates/engine/tree/src/tree/mod.rs]: inserting blocks and payloads, answering the consensus layer, following
    downloaded blocks and backfill, writing to the database, and the loop of the handler. *)

From S2P Require Import Prelude Ordered EngineBlocks BlockBuffer InvalidHeaders TreeState Forkchoice EngineTree.
From S2P Require Import InMemory EngineHandler EngineOps.
Import EngineBlocks.
Local Open Scope reth_scope.

Module EngineMsgs.
Import Tree Forkchoice Engine InMemory Handler EngineOps.

Section msgs.
Context `{!NodeTypes} `{!NodeOps} `{!FullConsensus} `{!EngineValidator}.
Abbreviation EB := (ExecutedBlock RB Out HS).
Abbreviation PM := (M (ProviderError PE)).
Abbreviation FM := (M InsertBlockFatalError).
Abbreviation IM := (M InsertPayloadError).
Abbreviation PResult A := (result A (ProviderError PE)).
Implicit Types (self : Handler) (h : Z).

(** ** Inserting *)

Section insert.
Context {Input : Type} (execute : V -> Input -> TreeCtx -> result Executed InsertPayloadError * V * list Z)
  (convert_to_block : V -> Input -> result RB InsertPayloadError).

Definition as_block (input : Input) : IM RB :=
  validator <-! gets payload_validator;
  reads (fun _ => convert_to_block validator input).

(** [convert_to_block(self, input)?] and the error with this block. *)
Definition fail_with_block {A} (input : Input) (e : ProviderError PE) : IM A :=
  b <-! as_block input;
  throw (BlockFailed (mkInsertBlockError b (ProviderKind e))).

Definition run_execute (input : Input) : IM Executed := fun self =>
  let '(r, validator, looked_up) :=
    execute (payload_validator self) input (mkTreeCtx _ _ (state self) (h_persistence_state self) (memory self)) in
  let self := set_validator self validator in
  Some (r, set_invalid self (foldl (fun cache h => (InvalidHeaders.get cache h).2) (es_invalid (state self)) looked_up)).

(** Where the chain of a block without a parent ends. *)
Definition missing_ancestor_of (b : RB) : IM BlockNumHash := fueled (fun self =>
  lowest ← Buffer.lowest_ancestor (es_buffer (state self)) (block_parent_hash b);
  Some (parent_num_hash (default b lowest))).

Definition buffer_disconnected (input : Input) : IM InsertPayloadOk :=
  b <-! as_block input;
  missing_ancestor <-! missing_ancestor_of b;
  modify (fun self => set_buffer self (Buffer.insert_block (es_buffer (state self)) b)) ;!
  head <-! gets (fun self => current_canonical_head (es_tree (state self)));
  ret (Inserted (Disconnected head missing_ancestor)).

(** A block on top of the canonical head becomes the pending block. *)
Definition update_pending self (executed : Executed) : Handler :=
  if canonical_block_hash (es_tree (state self)) =? block_parent_hash executed
  then set_in_memory self (set_pending_block (in_memory (memory self)) executed) else self.

Definition insert_executed_block self (executed : Executed) : Handler :=
  let self := update_pending self executed in
  set_tree self (insert_executed (es_tree (state self)) executed).

Definition execute_and_insert (input : Input) (fork : bool) : IM InsertPayloadOk :=
  executed <-! run_execute input;
  modify (fun self => insert_executed_block self executed) ;!
  emit (BeaconConsensus (if fork then ForkBlockAdded executed else CanonicalBlockAdded executed)) ;!
  ret (Inserted Valid).

Definition insert_block_or_payload (fuel : nat) (block_id : BlockWithParent) (input : Input) : IM InsertPayloadOk :=
  known <-! attempt (lookup_header id (nh_hash (bwp_block block_id)));
  match known with
  | Err err => fail_with_block input err
  | Ok (Some _) => as_block input ;! ret (AlreadySeen Valid)
  | Ok None =>
      builder <-! attempt (state_provider_builder id (bwp_parent block_id));
      match builder with
      | Err err => fail_with_block input err
      | Ok None => buffer_disconnected input
      | Ok (Some _) =>
          fork <-! attempt (is_fork fuel block_id);
          match fork with
          | Err err => fail_with_block input err
          | Ok fork => execute_and_insert input fork
          end
      end
  end.
End insert.

Definition insert_payload (fuel : nat) (payload : Payload) : IM InsertPayloadOk :=
  insert_block_or_payload validate_payload
    (fun validator payload =>
       match ensure_well_formed_payload validator payload with Ok b => Ok b | Err e => Err (PayloadFailed e) end)
    fuel (block_with_parent payload) payload.

Definition insert_block (fuel : nat) (b : RB) : IM InsertPayloadOk :=
  insert_block_or_payload validator_validate_block (fun _ b => Ok b) fuel (block_with_parent b) b.

Definition validate_block (b : RB) : result unit PE :=
  _ <-? consensus_validate_header b;
  consensus_validate_block_pre_execution b.

Definition buffer_block (b : RB) : M InsertBlockError unit :=
  match validate_block b with
  | Err e => throw (mkInsertBlockError b (Consensus e))
  | Ok _ => modify (fun self => set_buffer self (Buffer.insert_block (es_buffer (state self)) b))
  end.

(** One round of the loop that connects buffered blocks. *)
Definition connect_child (fuel : nat) (child : RB) : FM unit :=
  res <-! attempt (insert_block fuel child);
  match res with
  | Ok res =>
      self <-! gets id;
      if is_sync_target_head self (block_hash child) && match res with Inserted Valid => true | _ => false end
      then fatal (make_canonical fuel (block_hash child)) else ret tt
  | Err (BlockFailed err) => on_insert_block_error fuel err ;! ret tt
  | Err (PayloadFailed _) => ret tt
  end.

Fixpoint connect_loop (fuel : nat) (blocks : list RB) : FM unit :=
  match blocks with
  | [] => ret tt
  | child :: blocks => connect_child fuel child ;! connect_loop fuel blocks
  end.

Definition take_buffered {E} (parent : Z) : M E (list RB) := fun self =>
  '(buffer, blocks) ← Buffer.remove_block_with_children (es_buffer (state self)) parent;
  Some (Ok blocks, set_buffer self buffer).

Definition try_connect_buffered_blocks (fuel : nat) (parent : BlockNumHash) : FM unit :=
  blocks <-! take_buffered (nh_hash parent);
  connect_loop fuel blocks.

(** ** New payloads *)

Definition try_insert_payload (fuel : nat) (payload : Payload) : FM PayloadStatus :=
  res <-! attempt (insert_payload fuel payload);
  match res with
  | Ok (Inserted Valid) =>
      try_connect_buffered_blocks fuel (num_hash payload) ;!
      ret (mkPayloadStatus PValid (Some (block_hash payload)))
  | Ok (AlreadySeen Valid) => ret (mkPayloadStatus PValid (Some (block_hash payload)))
  | Ok (Inserted (Disconnected _ _)) | Ok (AlreadySeen (Disconnected _ _)) => ret (mkPayloadStatus PSyncing None)
  | Err (BlockFailed error) => on_insert_block_error fuel error
  | Err (PayloadFailed error) => fatal (on_new_payload_error fuel error (block_parent_hash payload))
  end.

Definition try_buffer_payload (fuel : nat) (payload : Payload) : FM PayloadStatus :=
  validator <-! gets payload_validator;
  match ensure_well_formed_payload validator payload with
  | Ok b =>
      res <-! attempt (buffer_block b);
      match res with
      | Err error => on_insert_block_error fuel error
      | Ok _ => ret (from_status PSyncing)
      end
  | Err error => fatal (on_new_payload_error fuel error (block_parent_hash payload))
  end.

(** A valid payload that is the head to sync to is to become canonical, unless it is already. *)
Definition payload_outcome self (block_hash : Z) (status : PayloadStatus) : TreeOutcome PayloadStatus :=
  let outcome := outcome_new status in
  if status_is_valid status && is_sync_target_head self block_hash
     && negb (canonical_block_hash (es_tree (state self)) =? block_hash)
  then with_event outcome (ActionEvent (MakeCanonical block_hash)) else outcome.

Definition on_new_payload (fuel : nat) (payload : Payload) : FM (TreeOutcome PayloadStatus) :=
  emit (BeaconConsensus (BlockReceived (num_hash payload))) ;!
  invalid <-! find_invalid_ancestor payload;
  match invalid with
  | Some invalid =>
      status <-! handle_invalid_ancestor_payload fuel payload invalid;
      ret (outcome_new status)
  | None =>
      idle <-! gets (fun self => is_idle (h_backfill_sync_state self));
      status <-! (if (idle : bool) then try_insert_payload fuel payload else try_buffer_payload fuel payload);
      gets (fun self => payload_outcome self (block_hash payload) status)
  end.

(** ** Forkchoice updates *)

(** The end of [update_finalized_block] and of [update_safe_block]: the header is stored if it is new. *)
Definition update_finalized_block (finalized_block_hash : Z) : M OnForkChoiceUpdated unit := fun self =>
  if finalized_block_hash =? 0 then Some (Ok tt, self)
  else
    match find_canonical_header self finalized_block_hash with
    | Ok None => Some (Err fcu_invalid_state, self)
    | Ok (Some finalized) =>
        if bool_decide (Some (num_hash finalized) = get_finalized_num_hash (info (memory self))) then Some (Ok tt, self)
        else
          let self := push_persistence self (SaveFinalizedBlock (sh_number finalized)) in
          Some (Ok tt, set_info self (set_finalized (info (memory self)) finalized))
    | Err _ => Some (Ok tt, self)
    end.

Definition update_safe_block (safe_block_hash : Z) : M OnForkChoiceUpdated unit := fun self =>
  if safe_block_hash =? 0 then Some (Ok tt, self)
  else
    match find_canonical_header self safe_block_hash with
    | Ok None => Some (Err fcu_invalid_state, self)
    | Ok (Some safe) =>
        if bool_decide (Some (num_hash safe) = get_safe_num_hash (info (memory self))) then Some (Ok tt, self)
        else
          let self := push_persistence self (SaveSafeBlock (sh_number safe)) in
          Some (Ok tt, set_info self (set_safe (info (memory self)) safe))
    | Err _ => Some (Ok tt, self)
    end.

Definition ensure_consistent_forkchoice_state (st : ForkchoiceState) : M OnForkChoiceUpdated unit :=
  update_finalized_block (finalized_block_hash st) ;!
  update_safe_block (safe_block_hash st).

Definition pre_validate_forkchoice_update (fuel : nat) (st : ForkchoiceState) : PM (option OnForkChoiceUpdated) :=
  if head_block_hash st =? 0 then ret (Some fcu_invalid_state)
  else
    lowest <-! lowest_buffered_ancestor_or (head_block_hash st);
    status <-! check_invalid_ancestor fuel lowest;
    match status with
    | Some status => ret (Some (fcu_with_invalid status))
    | None =>
        idle <-! gets (fun self => is_idle (h_backfill_sync_state self));
        ret (if (idle : bool) then None else Some fcu_syncing)
    end.

Definition process_payload_attributes {E} (attrs : PayloadAttributes) (head : SealedHeader) (st : ForkchoiceState) (version : Z)
  : M E OnForkChoiceUpdated := fun self =>
  match validate_payload_attributes_against_header (payload_validator self) attrs head with
  | Err _ => Some (Ok fcu_invalid_payload_attributes, self)
  | Ok _ =>
      match builder_attributes_try_new (head_block_hash st) attrs version with
      | Ok attributes =>
          Some (Ok (fcu_updated_with_pending_payload_id (mkPayloadStatus PValid (Some (head_block_hash st)))
                      (length (payload_builder self))), push_job self attributes)
      | Err _ => Some (Ok fcu_invalid_payload_attributes, self)
      end
  end.

Definition collect_blocks_for_canonical_unwind self (new_head_number current_head_number : Z) : list EB :=
  omap (fun n => (fun s => block (bs_block s)) <$> state_by_number (in_memory (memory self)) n)
    (seqZ (new_head_number + 1) (current_head_number - new_head_number)).

Definition set_memory_head self (header : SealedHeader) : Handler :=
  set_info self (ci_set_canonical_head (info (memory self)) header).

Definition apply_canonical_ancestor_via_reorg (canonical_header : SealedHeader) (old_blocks : list EB) : PM unit :=
  executed_block <-! reads (fun self => canonical_block_by_hash (core self) (sh_hash canonical_header));
  match executed_block with
  | Some executed_block =>
      modify (fun self =>
        let self := set_in_memory self (update_chain (in_memory (memory self)) (Reorg [mkExecuted executed_block Missing] old_blocks)) in
        set_memory_head self canonical_header)
  | None => modify (fun self => set_memory_head self canonical_header)
  end.

Definition handle_canonical_chain_unwind (current_head_number : Z) (canonical_header : SealedHeader) : PM unit :=
  old_blocks <-! gets (fun self => collect_blocks_for_canonical_unwind self (sh_number canonical_header) current_head_number);
  apply_canonical_ancestor_via_reorg canonical_header old_blocks.

Definition ensure_block_in_memory (number h : Z) : PM unit :=
  present <-! gets (fun self => state_by_number (in_memory (memory self)) number);
  match present with
  | Some _ => ret tt
  | None =>
      executed_block <-! reads (fun self => canonical_block_by_hash (core self) h);
      match executed_block with
      | Some executed_block =>
          modify (fun self => set_in_memory self (update_chain (in_memory (memory self)) (Commit [mkExecuted executed_block Missing])))
      | None => ret tt
      end
  end.

Definition handle_chain_advance_or_same_height (canonical_header : SealedHeader) : PM unit :=
  modify (fun self => set_memory_head self canonical_header) ;!
  ensure_block_in_memory (sh_number canonical_header) (sh_hash canonical_header).

Definition update_latest_block_to_canonical_ancestor (canonical_header : SealedHeader) : PM unit :=
  current_head_number <-! gets (fun self => canonical_block_number (es_tree (state self)));
  modify (fun self => set_tree self (Tree.set_canonical_head (es_tree (state self)) (num_hash canonical_header))) ;!
  if sh_number canonical_header <? current_head_number
  then handle_canonical_chain_unwind current_head_number canonical_header
  else handle_chain_advance_or_same_height canonical_header.

Definition valid_outcome (head : Z) : TreeOutcome OnForkChoiceUpdated :=
  outcome_new (fcu_valid (mkPayloadStatus PValid (Some head))).

(** The safe and finalized blocks, then the attributes: the end of a valid update to the header [tip]. *)
Definition finish_update (attrs : option PayloadAttributes) (tip : PM SealedHeader) (st : ForkchoiceState) (version : Z)
  : PM (TreeOutcome OnForkChoiceUpdated) :=
  consistent <-! attempt (ensure_consistent_forkchoice_state st);
  match consistent with
  | Err outcome => ret (outcome_new outcome)
  | Ok _ =>
      match attrs with
      | Some attr =>
          tip <-! tip;
          updated <-! process_payload_attributes attr tip st version;
          ret (outcome_new updated)
      | None => ret (valid_outcome (head_block_hash st))
      end
  end.

(** The header of the canonical head. *)
Definition canonical_tip (head : Z) : PM SealedHeader :=
  h <-! gets (fun self => canonical_block_hash (es_tree (state self)));
  header <-! lookup_header id h;
  match header with Some header => ret header | None => throw (HeaderNotFound head) end.

(** Step 2: the head is in the canonical chain. *)
Definition update_to_canonical (canonical_header : SealedHeader) (st : ForkchoiceState) (attrs : option PayloadAttributes) (version : Z)
  : PM (TreeOutcome OnForkChoiceUpdated) :=
  self <-! gets id;
  if is_opstack (h_engine_kind self) || always_process_payload_attributes_on_canonical_head (h_config self) then
    match attrs with
    | Some attr =>
        updated <-! process_payload_attributes attr canonical_header st version;
        ret (outcome_new updated)
    | None =>
        (if allow_unwind_canonical_header (h_config self)
         then update_latest_block_to_canonical_ancestor canonical_header else ret tt) ;!
        ret (valid_outcome (head_block_hash st))
    end
  else ret (valid_outcome (head_block_hash st)).

(** Step 4: the block is missing. *)
Definition sync_target_of self (st : ForkchoiceState) : Z :=
  if Forkchoice.is_empty (es_tracker (state self)) && negb (safe_block_hash st =? 0)
     && match find_canonical_header self (safe_block_hash st) with Ok (Some _) => false | _ => true end
  then safe_block_hash st else head_block_hash st.

Definition download_missing (st : ForkchoiceState) : PM (TreeOutcome OnForkChoiceUpdated) :=
  target <-! gets (fun self => sync_target_of self st);
  target <-! lowest_buffered_ancestor_or target;
  ret (with_event (outcome_new (fcu_valid (from_status PSyncing))) (DownloadEvent (single_block target))).

Definition on_forkchoice_updated (fuel : nat) (now : Instant) (st : ForkchoiceState) (attrs : option PayloadAttributes) (version : Z)
  : PM (TreeOutcome OnForkChoiceUpdated) :=
  modify (fun self => set_info self (on_forkchoice_update_received (info (memory self)) now)) ;!
  on_updated <-! pre_validate_forkchoice_update fuel st;
  match on_updated with
  | Some on_updated => ret (outcome_new on_updated)
  | None =>
      self <-! gets id;
      if canonical_block_hash (es_tree (state self)) =? head_block_hash st
      then finish_update attrs (canonical_tip (head_block_hash st)) st version
      else
        match find_canonical_header self (head_block_hash st) with
        | Ok (Some canonical_header) => update_to_canonical canonical_header st attrs version
        | _ =>
            chain_update <-! new_head fuel (head_block_hash st);
            match chain_update with
            | Some chain_update =>
                tip <-! fueled (fun _ => chain_tip chain_update);
                on_chain_update chain_update ;!
                finish_update attrs (ret (sealed_header tip)) st version
            | None => download_missing st
            end
        end
  end.

End msgs.
End EngineMsgs.
