(* ===== verification/EngineLoop.v ===== *)
(** * Handler of the engine tree: the loop

    [crates/engine/tree/src/tree/mod.rs]: downloaded blocks, the end of a backfill, persistence, and the dispatch of
    messages. *)

From S2P Require Import Prelude Ordered EngineBlocks BlockBuffer InvalidHeaders TreeState Forkchoice EngineTree.
From S2P Require Import InMemory EngineHandler EngineOps EngineMsgs.
Import EngineBlocks.
Local Open Scope reth_scope.

Module EngineLoop.
Import Tree Forkchoice Engine InMemory Handler EngineOps EngineMsgs.

Section loop.
Context `{!NodeTypes} `{!NodeOps} `{!FullConsensus} `{!EngineValidator}.
Abbreviation EB := (ExecutedBlock RB Out HS).
Abbreviation PM := (M (ProviderError PE)).
Abbreviation FM := (M InsertBlockFatalError).
Abbreviation AM := (M AdvancePersistenceError).
Implicit Types (self : Handler) (h : Z).

(** ** Backfill *)

Definition exceeds_backfill_run_threshold (local_tip number : Z) : bool :=
  (local_tip <? number) && (MIN_BLOCKS_FOR_PIPELINE_RUN <? number - local_tip).

Definition distance_from_local_tip (local_tip number : Z) : option Z :=
  if local_tip <? number then Some (number - local_tip) else None.

(** The number of which the distance counts. *)
Definition backfill_number self (target_block_number : Z) (downloaded_block : option BlockNumHash) : Z :=
  let sync_target := sync_target_state (es_tracker (state self)) in
  let buffered :=
    match st ← sync_target; Buffer.block (es_buffer (state self)) (finalized_block_hash st) with
    | Some buffered_finalized => block_number buffered_finalized
    | None => target_block_number
    end in
  match downloaded_block, sync_target with
  | Some downloaded, Some st => if nh_hash downloaded =? finalized_block_hash st then nh_number downloaded else buffered
  | _, _ => buffered
  end.

Definition backfill_sync_target self (canonical_tip_num target_block_number : Z) (downloaded_block : option BlockNumHash) : option Z :=
  if exceeds_backfill_run_threshold canonical_tip_num (backfill_number self target_block_number downloaded_block) then
    match sync_target_state (es_tracker (state self)) with
    | Some st =>
        match db_header_by_hash_or_number (db self) (finalized_block_hash st) with
        | Err _ => None
        | Ok None => if finalized_block_hash st =? 0 then Some (head_block_hash st) else Some (finalized_block_hash st)
        | Ok (Some _) => None
        end
    | None => None
    end
  else None.

(** ** Downloaded blocks *)

Definition on_disconnected_downloaded_block self (downloaded_block missing_parent head : BlockNumHash) : option TreeEvent :=
  match backfill_sync_target self (nh_number head) (nh_number missing_parent) (Some downloaded_block) with
  | Some target => Some (BackfillEvent (Start (Sync target)))
  | None =>
      Some (DownloadEvent
        match distance_from_local_tip (nh_number head) (nh_number missing_parent) with
        | Some distance => BlockRange (nh_hash missing_parent) distance
        | None => single_block (nh_hash missing_parent)
        end)
  end.

(** What follows from inserting a downloaded block. *)
Definition on_insert_downloaded (fuel : nat) (nh : BlockNumHash) (res : result InsertPayloadOk InsertPayloadError) : FM (option TreeEvent) :=
  match res with
  | Ok (Inserted Valid) =>
      target <-! gets (fun self => is_sync_target_head self (nh_hash nh));
      if (target : bool) then ret (Some (ActionEvent (MakeCanonical (nh_hash nh))))
      else try_connect_buffered_blocks fuel nh ;! ret None
  | Ok (Inserted (Disconnected head missing_ancestor)) =>
      gets (fun self => on_disconnected_downloaded_block self nh missing_ancestor head)
  | Ok (AlreadySeen _) => ret None
  | Err (BlockFailed err) => on_insert_block_error fuel err ;! ret None
  | Err (PayloadFailed _) => ret None
  end.

Definition on_downloaded_block (fuel : nat) (b : RB) : FM (option TreeEvent) :=
  lowest <-! lowest_buffered_ancestor_or (block_hash b);
  invalid <-! fatal (check_invalid_ancestor_with_head fuel lowest b);
  match invalid with
  | Some _ => ret None
  | None =>
      idle <-! gets (fun self => is_idle (h_backfill_sync_state self));
      if (idle : bool) then
        res <-! attempt (insert_block fuel b);
        on_insert_downloaded fuel (num_hash b) res
      else ret None
  end.

(** The loop over the first batch; [true] if a backfill is needed. *)
Fixpoint downloaded_loop (fuel : nat) (blocks : list RB) : FM bool :=
  match blocks with
  | [] => ret false
  | b :: blocks =>
      e <-! on_downloaded_block fuel b;
      match e with
      | None => downloaded_loop fuel blocks
      | Some e =>
          fatal (on_tree_event fuel e) ;!
          if tree_event_is_backfill e then ret true else downloaded_loop fuel blocks
      end
  end.

Definition on_downloaded (fuel : nat) (blocks : list RB) : FM (option TreeEvent) :=
  if bool_decide (blocks = []) then ret None
  else
    batch <-! gets (fun self => Z.to_nat (max_execute_block_batch_size (h_config self)));
    needs_backfill <-! downloaded_loop fuel (take batch blocks);
    if (needs_backfill : bool) then ret None
    else
      (match drop batch blocks with
       | [] => ret tt
       | rest => modify (fun self => push_incoming self (DownloadedBlocks rest))
       end) ;!
      ret None.

(** ** End of a backfill *)

(** The headers after a backfill: the block is canonical and persisted. *)
Definition set_backfilled self (new_head : SealedHeader) : Handler :=
  let self := set_tree self (Tree.set_canonical_head (es_tree (state self)) (num_hash new_head)) in
  let self := set_persistence_state self (finish (h_persistence_state self) (sh_hash new_head) (sh_number new_head)) in
  set_memory_head self new_head.

(** The house keeping up to the height of the backfill. *)
Definition backfill_housekeeping self (unwind : bool) (nh : BlockNumHash) : option Handler :=
  tree ← (if unwind then Some (Tree.reset (es_tree (state self)) nh)
          else remove_until epoch_slots (es_tree (state self)) nh
                 (nh_hash (last_persisted_block (h_persistence_state self))) (Some nh));
  let self := set_tree self tree in
  buffer ← Buffer.remove_old_blocks (es_buffer (state self)) (nh_number nh);
  let self := set_buffer self buffer in
  let self := set_in_memory self (clear_state (in_memory (memory self))) in
  Some (match db_sealed_header (db self) (nh_number nh) with
        | Ok (Some new_head) => set_backfilled self new_head
        | _ => self
        end).

(** Whether another run is needed: [None] if that cannot be told or is not asked. *)
Definition next_backfill_target self (ctrl : ControlFlow) (st : ForkchoiceState) : option Z :=
  progress ← ctrl_block_number ctrl;
  finalized ← Buffer.block (es_buffer (state self)) (finalized_block_hash st);
  backfill_sync_target self progress (block_number finalized) None.

Definition after_backfill (fuel : nat) (ctrl : ControlFlow) : FM unit :=
  self <-! gets id;
  match sync_target_state (es_tracker (state self)) with
  | None => ret tt
  | Some st =>
      if finalized_block_hash st =? 0 then ret tt
      else
        match next_backfill_target self ctrl st with
        | Some target => emit (BackfillActionEvent (Start (Sync target)))
        | None => try_connect_buffered_blocks fuel (current_canonical_head (es_tree (state self)))
        end
  end.

Definition on_backfill_sync_finished (fuel : nat) (ctrl : ControlFlow) : FM unit :=
  modify (fun self => set_backfill self Idle) ;!
  backfill_height <-!
    match ctrl with
    | Unwind target bad_block => insert_invalid bad_block ;! ret (Some target)
    | _ => ret (ctrl_block_number ctrl)
    end;
  match backfill_height with
  | None => ret tt
  | Some backfill_height =>
      hash <-! fatal (reads (fun self => db_block_hash (db self) backfill_height));
      match hash with
      | None => ret tt
      | Some hash =>
          (fun self => self ← backfill_housekeeping self (is_unwind ctrl) (mkNumHash backfill_height hash); Some (Ok tt, self)) ;!
          after_backfill fuel ctrl
      end
  end.

(** ** Persistence *)

Definition remove_blocks self (new_tip_num : Z) : Handler :=
  if new_tip_num <? nh_number (last_persisted_block (h_persistence_state self)) then
    let rx := length (persistence self) in
    let self := push_persistence self (RemoveBlocksAbove new_tip_num) in
    set_persistence_state self (start_remove (h_persistence_state self) new_tip_num rx)
  else self.

(** [max_by_key]: the last block with the highest number. *)
Definition highest_block (b : Executed) (bs : list Executed) : Executed :=
  foldl (fun m b => if block_number m <=? block_number b then b else m) b bs.

Definition persist_blocks self (blocks : list Executed) : Handler :=
  match blocks with
  | [] => self
  | b :: bs =>
      let highest := num_hash (highest_block b bs) in
      let rx := length (persistence self) in
      let self := push_persistence self (SaveBlocks blocks) in
      set_persistence_state self (start_save (h_persistence_state self) highest rx)
  end.

(** The blocks of the overlay that the database does not have yet: the oldest is the last. *)
Fixpoint drop_persisted (best_block_number : Z) (oldest_first : list Executed) : list Executed :=
  match oldest_first with
  | [] => []
  | b :: bs => if block_number b <=? best_block_number then drop_persisted best_block_number bs else b :: bs
  end.

Definition block_trie_updates (e : Executed) : option T := match trie e with Present u => Some u | Missing => None end.

(** The anchor in the database and the blocks above it, the newest first. *)
Definition trie_anchor (kind : PersistingKind) (best_block_number parent_hash : Z) (chain : option (Z * list Executed))
  : BlockHashOrNumber * list Executed :=
  let '(historical, blocks) := match chain with Some (h, blocks) => (ByHash h, blocks) | None => (ByHash parent_hash, []) end in
  if kind_is_descendant kind then
    let blocks := reverse (drop_persisted best_block_number (reverse blocks)) in
    (match last blocks with Some b => ByNumber (wrap_u64 (block_number b - 1)) | None => ByHash parent_hash end, blocks)
  else (historical, blocks).

Definition compute_trie_input (kind : PersistingKind) (parent_hash : Z) (allocated_trie_input : option TrieInput) : PM TrieInput :=
  best_block_number <-! reads (fun self => db_best_block_number (db self));
  chain <-! fueled (fun self => chain_by_hash (es_tree (state self)) parent_hash);
  let '(historical, blocks) := trie_anchor kind best_block_number parent_hash chain in
  number <-! reads (fun self => db_convert_hash_or_number (db self) historical);
  match number with
  | None => match historical with ByHash h => throw (BlockHashNotFound h) | ByNumber _ => fueled (fun _ => None) end
  | Some number =>
      revert_state <-! (if number =? best_block_number then ret hashed_default
                        else reads (fun self => db_from_reverts (db self) (wrap_u64 (number + 1))));
      let input := input_append (default input_default allocated_trie_input) revert_state in
      ret (input_extend_with_blocks input ((fun b : Executed => (hashed_state (block b), block_trie_updates b)) <$> reverse blocks))
  end.

(** The trie updates of a block, on top of the state of its parent. *)
Definition compute_trie_updates (b : Executed) : AM T :=
  builder <-! state_provider_builder PersistProvider (block_parent_hash b);
  match builder with
  | None => throw (MissingAncestor (block_parent_hash b))
  | Some builder =>
      provider <-! convert PersistProvider (build_provider builder);
      kind <-! fueled (fun self => persisting_kind_for self (block_with_parent b));
      trie_input <-! convert PersistProvider (compute_trie_input kind (block_parent_hash b) None);
      let trie_input := input_append trie_input (hashed_state (block b)) in
      convert PersistProvider (reads (fun self => db_state_root_with_updates (db self) provider.1 provider.2 trie_input))
  end.

(** [None] is the panic on a block that is not in the tree. *)
Definition store_trie_updates (b : Executed) (updates : T) : AM unit := fun self =>
  _ ← executed_block_by_hash (es_tree (state self)) (block_hash b);
  Some (Ok tt, set_tree self (set_trie_updates (es_tree (state self)) (block_hash b) updates)).

(** Computes the trie updates of a block that has none and stores them in the tree. *)
Definition with_trie_updates (b : Executed) : AM Executed :=
  match trie b with
  | Present _ => ret b
  | Missing =>
      updates <-! compute_trie_updates b;
      store_trie_updates b updates ;!
      ret (mkExecuted (block b) (Present updates) : Executed)
  end.

Fixpoint all_with_trie_updates (bs : list Executed) : AM (list Executed) :=
  match bs with
  | [] => ret []
  | b :: bs => b <-! with_trie_updates b; bs <-! all_with_trie_updates bs; ret (b :: bs)
  end.

Definition get_canonical_blocks_to_persist : AM (list Executed) :=
  blocks <-! fueled (fun self => blocks_to_persist (core self));
  all_with_trie_updates blocks.

Definition remove_before (upper_bound : BlockNumHash) (finalized_hash : option Z) : PM unit :=
  num <-! match finalized_hash with
          | Some h =>
              n <-! reads (fun self => p_block_number (db_provider (db self)) h);
              ret ((fun n => mkNumHash n h) <$> n)
          | None => ret None
          end;
  (fun self =>
     tree ← remove_until epoch_slots (es_tree (state self)) upper_bound
              (nh_hash (last_persisted_block (h_persistence_state self))) num;
     Some (Ok tt, set_tree self tree)).

Definition disk_reorg (fuel : nat) : PM (option Z) := fueled_reads (fun self => find_disk_reorg fuel (core self)).

Definition on_new_persisted_block (fuel : nat) : PM unit :=
  reorg <-! disk_reorg fuel;
  match reorg with
  | Some remove_above => modify (fun self => remove_blocks self remove_above)
  | None =>
      self <-! gets id;
      let last := last_persisted_block (h_persistence_state self) in
      remove_before last (last_valid_finalized (es_tracker (state self))) ;!
      modify (fun self => set_in_memory self (remove_persisted_blocks (in_memory (memory self)) last))
  end.

(** What a receiver answers. *)
Inductive TryRecv := Received (r : option BlockNumHash) | RecvIsClosed | RecvIsEmpty.

(** The first half of [advance_persistence]; [true] if it returns there. *)
Definition poll_persistence (fuel : nat) (recv : nat -> TryRecv) : AM bool :=
  p <-! gets h_persistence_state;
  match rx p with
  | None => ret false
  | Some (r, action) =>
      modify (fun self => set_persistence_state self (mkPersistence (last_persisted_block p) None)) ;!
      match recv r with
      | Received None => ret true
      | Received (Some nh) =>
          modify (fun self => set_persistence_state self (finish (h_persistence_state self) (nh_hash nh) (nh_number nh))) ;!
          convert PersistProvider (on_new_persisted_block fuel) ;!
          ret false
      | RecvIsClosed => throw RecvClosed
      | RecvIsEmpty =>
          modify (fun self => set_persistence_state self (mkPersistence (last_persisted_block p) (Some (r, action)))) ;!
          ret false
      end
  end.

(** The second half: a new action if none is running. *)
Definition start_persistence (fuel : nat) : AM unit :=
  self <-! gets id;
  if in_progress (h_persistence_state self) then ret tt
  else
    reorg <-! convert PersistProvider (disk_reorg fuel);
    match reorg with
    | Some new_tip_num => modify (fun self => remove_blocks self new_tip_num)
    | None =>
        if should_persist (core self) then
          blocks <-! get_canonical_blocks_to_persist;
          modify (fun self => persist_blocks self blocks)
        else ret tt
    end.

Definition advance_persistence (fuel : nat) (recv : nat -> TryRecv) : AM unit :=
  returned <-! poll_persistence fuel recv;
  if (returned : bool) then ret tt else start_persistence fuel.

(** ** Messages *)

Definition on_insert_executed (e : Executed) : FM unit :=
  self <-! gets id;
  if block_number e <=? canonical_block_number (es_tree (state self)) then ret tt
  else
    modify (fun self => insert_executed_block self e) ;!
    emit (BeaconConsensus (CanonicalBlockAdded e)).

(** Answers are sent whether or not somebody waits for them. *)
Definition on_fcu_message (fuel : nat) (now : Instant) (st : ForkchoiceState) (attrs : option PayloadAttributes) (version : Z) : FM unit :=
  output <-! attempt (on_forkchoice_updated fuel now st attrs version);
  (match output with
   | Ok res =>
       let status := forkchoice_status (outcome res) in
       modify (fun self => set_tracker self (set_latest (es_tracker (state self)) st status)) ;!
       emit (BeaconConsensus (ForkchoiceUpdatedEvent st status)) ;!
       fatal (on_maybe_tree_event fuel (event res))
   | Err _ => ret tt
   end) ;!
  modify (fun self => push_response self (ForkchoiceResponse (match output with Ok o => Ok (outcome o) | Err e => Err e end))).

Definition on_payload_message (fuel : nat) (payload : Payload) : FM unit :=
  output <-! attempt (on_new_payload fuel payload);
  modify (fun self => push_response self (PayloadResponse (match output with Ok o => Ok (outcome o) | Err e => Err e end))) ;!
  fatal (on_maybe_tree_event fuel (match output with Ok o => event o | Err _ => None end)).

Definition on_engine_message (fuel : nat) (now : Instant) (msg : FromEngine) : FM unit :=
  match msg with
  | Event BackfillSyncStarted => modify (fun self => set_backfill self Active)
  | Event (BackfillSyncFinished ctrl) => on_backfill_sync_finished fuel ctrl
  | Request (InsertExecutedBlock e) => on_insert_executed e
  | Request (Beacon (ForkchoiceUpdated st attrs version)) => on_fcu_message fuel now st attrs version
  | Request (Beacon (NewPayload payload)) => on_payload_message fuel payload
  | DownloadedBlocks blocks =>
      e <-! on_downloaded fuel blocks;
      match e with Some e => fatal (on_tree_event fuel e) | None => ret tt end
  end.

Inductive Fatal := FatalInsert (e : InsertBlockFatalError) | FatalAdvance (e : AdvancePersistenceError).

(** One round of [run]: a message or none, then the persistence task. *)
Definition round (fuel : nat) (now : Instant) (msg : option FromEngine) (recv : nat -> TryRecv) : M Fatal unit :=
  (match msg with Some msg => convert FatalInsert (on_engine_message fuel now msg) | None => ret tt end) ;!
  convert FatalAdvance (advance_persistence fuel recv).

(** [spawn_new]; the argument [default_header] is the header that stands for one that is not found. *)
Definition spawn_new (d : Database) (v : V) (mem : CanonicalInMemoryState) (c : TreeConfig) (kind : EngineApiKind)
  (default_header : SealedHeader) : Handler :=
  let best_block_number := match db_best_block_number d with Ok n => n | Err _ => 0 end in
  let header := match db_sealed_header d best_block_number with Ok (Some header) => header | _ => default_header end in
  mkEngineHandler d v
    (tree_states_new (block_buffer_limit c) (max_invalid_header_cache_length c) (num_hash header) kind)
    [] [] [] (mkPersistence (mkNumHash best_block_number (sh_hash header)) None) Idle mem [] [] c kind.

End loop.
Arguments Fatal {_}.
End EngineLoop.
