(* ===== verification/EngineWp.v ===== *)
(** * Reasoning about the methods of the handler

    A method keeps an invariant if from every state that has it the method returns, in a state
    that has it again, whether it succeeds or fails. *)

From S2P Require Import Prelude Ordered EngineBlocks TreeState EngineTree InMemory EngineHandler.
Local Open Scope reth_scope.

Module EngineWp.
Import Handler.

Create HintDb preserves.

Section wp.
Context `{!NodeTypes} `{!NodeOps}.

(** The method returns, and the result and the new state are as expected. *)
Definition wp {E A} (m : M E A) (post : result A E -> Handler -> Prop) (s : Handler) : Prop :=
  exists r s', m s = Some (r, s') /\ post r s'.

Lemma wp_mono {E A} (m : M E A) (post post' : result A E -> Handler -> Prop) s :
  wp m post s -> (forall r s', post r s' -> post' r s') -> wp m post' s.
Proof. intros (r & s' & Hm & Hp) Himp. exists r, s'. auto. Qed.

Lemma wp_bind {E A B} (m : M E A) (k : A -> M E B) (post : result B E -> Handler -> Prop) s :
  wp m (fun r s' => match r with Ok a => wp (k a) post s' | Err e => post (Err e) s' end) s -> wp (bind m k) post s.
Proof.
  intros ([a|e] & s' & Hm & Hp); unfold wp, bind; rewrite Hm; [exact Hp|]. by exists (Err e), s'.
Qed.

Section keeps.
Context (I : Handler -> Prop).

Definition keeps {E A} (m : M E A) (Q : A -> Prop) (QE : E -> Prop) : Prop :=
  forall s, I s -> wp m (fun r s' => I s' /\ match r with Ok a => Q a | Err e => QE e end) s.

Lemma keeps_mono {E A} (m : M E A) (Q Q' : A -> Prop) (QE QE' : E -> Prop) :
  keeps m Q QE -> (forall a, Q a -> Q' a) -> (forall e, QE e -> QE' e) -> keeps m Q' QE'.
Proof. intros Hm HQ HE s Hs. eapply wp_mono; [by apply Hm|]. intros [a|e] s' [? ?]; split; auto. Qed.

Lemma keeps_ret {E A} (a : A) (Q : A -> Prop) (QE : E -> Prop) : Q a -> keeps (ret a) Q QE.
Proof. intros Ha s Hs. by exists (Ok a), s. Qed.

Lemma keeps_throw {E A} (e : E) (Q : A -> Prop) (QE : E -> Prop) : QE e -> keeps (throw e) Q QE.
Proof. intros He s Hs. by exists (Err e), s. Qed.

Lemma keeps_bind {E A B} (m : M E A) (k : A -> M E B) (Q : A -> Prop) (Q' : B -> Prop) (QE : E -> Prop) :
  keeps m Q QE -> (forall a, Q a -> keeps (k a) Q' QE) -> keeps (bind m k) Q' QE.
Proof.
  intros Hm Hk s Hs. apply wp_bind. eapply wp_mono; [by apply Hm|]. intros [a|e] s' [Hs' HQ]; [|done]. by apply Hk.
Qed.

Lemma keeps_gets {E A} (f : Handler -> A) (Q : A -> Prop) (QE : E -> Prop) : (forall s, I s -> Q (f s)) -> keeps (gets f) Q QE.
Proof. intros Hf s Hs. exists (Ok (f s)), s. auto. Qed.

Lemma keeps_modify {E} (f : Handler -> Handler) (Q : unit -> Prop) (QE : E -> Prop) :
  (forall s, I s -> I (f s)) -> Q tt -> keeps (modify f) Q QE.
Proof. intros Hf HQ s Hs. exists (Ok tt), (f s). auto. Qed.

Lemma keeps_reads {E A} (f : Handler -> result A E) (Q : A -> Prop) (QE : E -> Prop) :
  (forall s, I s -> match f s with Ok a => Q a | Err e => QE e end) -> keeps (reads f) Q QE.
Proof. intros Hf s Hs. exists (f s), s. split_and!; [done|done|by apply Hf]. Qed.

Lemma keeps_fueled {E A} (f : Handler -> option A) (Q : A -> Prop) (QE : E -> Prop) :
  (forall s, I s -> exists a, f s = Some a /\ Q a) -> keeps (fueled f) Q QE.
Proof. intros Hf s Hs. destruct (Hf s Hs) as (a & Ha & HQ). exists (Ok a), s. unfold fueled. by rewrite Ha. Qed.

Lemma keeps_fueled_reads {E A} (f : Handler -> option (result A E)) (Q : A -> Prop) (QE : E -> Prop) :
  (forall s, I s -> exists r, f s = Some r /\ match r with Ok a => Q a | Err e => QE e end) -> keeps (fueled_reads f) Q QE.
Proof. intros Hf s Hs. destruct (Hf s Hs) as (r & Hr & HQ). exists r, s. unfold fueled_reads. by rewrite Hr. Qed.

Lemma keeps_convert {E E' A} (f : E -> E') (m : M E A) (Q : A -> Prop) (QE : E -> Prop) (QE' : E' -> Prop) :
  keeps m Q QE -> (forall e, QE e -> QE' (f e)) -> keeps (convert f m) Q QE'.
Proof.
  intros Hm HE s Hs. destruct (Hm s Hs) as ([a|e] & s' & He & Hs' & HQ); unfold wp, convert; rewrite He; eauto 10.
Qed.

Lemma keeps_attempt {E E' A} (m : M E A) (Q : A -> Prop) (QE : E -> Prop) (QE' : E' -> Prop) :
  keeps m Q QE -> keeps (attempt m) (fun r => match r with Ok a => Q a | Err e => QE e end) QE'.
Proof. intros Hm s Hs. destruct (Hm s Hs) as (r & s' & He & Hs' & HQ); unfold wp, attempt; rewrite He; eauto. Qed.

(** An update that is not a method. *)
Lemma keeps_state {E A} (m : M E A) (Q : A -> Prop) (QE : E -> Prop) :
  (forall s, I s -> exists r s', m s = Some (r, s') /\ I s' /\ match r with Ok a => Q a | Err e => QE e end) -> keeps m Q QE.
Proof. done. Qed.

End keeps.

(** What holds of the state where a method starts may be added to the invariant. *)
Lemma keeps_self {E A} (I : Handler -> Prop) (k : Handler -> M E A) (Q : A -> Prop) (QE : E -> Prop) :
  (forall self, I self -> wp (k self) (fun r s' => I s' /\ match r with Ok a => Q a | Err e => QE e end) self) ->
  keeps I (bind (gets id) k) Q QE.
Proof. intros Hk s Hs. apply wp_bind. exists (Ok s), s. split; [done|]. by apply Hk. Qed.

Lemma keeps_reads_bind {E E' A B} (I : Handler -> Prop) (g : E -> E') (f : Handler -> result A E) (k : A -> M E' B) (Q : B -> Prop) (QE : E' -> Prop) :
  (forall s, I s -> match f s with
     | Ok a => wp (k a) (fun r s' => I s' /\ match r with Ok a => Q a | Err e => QE e end) s
     | Err e => QE (g e)
     end) ->
  keeps I (bind (convert g (reads f)) k) Q QE.
Proof.
  intros Hf s Hs. specialize (Hf s Hs). apply wp_bind. unfold wp at 1, convert, reads. destruct (f s) as [a|e]; eexists _, _; (split; [reflexivity|done]).
Qed.

(** ** What a method does not change *)

Definition preserves {E A} (P : Handler -> Prop) (m : M E A) : Prop := forall s r s', m s = Some (r, s') -> P s -> P s'.

Section preserves.
Context (P : Handler -> Prop).

Lemma preserves_ret {E A} (a : A) : preserves P (ret a : M E A).
Proof. by intros s r s' [= <- <-]. Qed.
Lemma preserves_throw {E A} (e : E) : preserves P (throw e : M E A).
Proof. by intros s r s' [= <- <-]. Qed.
Lemma preserves_bind {E A B} (m : M E A) (k : A -> M E B) : preserves P m -> (forall a, preserves P (k a)) -> preserves P (bind m k).
Proof.
  intros Hm Hk s r s'. unfold bind. destruct (m s) as [[[a|e] s1]|] eqn:E1; [|intros [= <- <-]|done]; intros; [eapply Hk|]; eauto.
Qed.
Lemma preserves_gets {E A} (f : Handler -> A) : preserves P (gets f : M E A).
Proof. by intros s r s' [= <- <-]. Qed.
Lemma preserves_modify {E} (f : Handler -> Handler) : (forall s, P s -> P (f s)) -> preserves P (modify f : M E unit).
Proof. intros Hf s r s' [= <- <-]. apply Hf. Qed.
Lemma preserves_reads {E A} (f : Handler -> result A E) : preserves P (reads f).
Proof. by intros s r s' [= <- <-]. Qed.
Lemma preserves_fueled {E A} (f : Handler -> option A) : preserves P (fueled f : M E A).
Proof. intros s r s'. unfold fueled. destruct (f s); [|done]. by intros [= <- <-]. Qed.
Lemma preserves_fueled_reads {E A} (f : Handler -> option (result A E)) : preserves P (fueled_reads f).
Proof. intros s r s'. unfold fueled_reads. destruct (f s); [|done]. by intros [= <- <-]. Qed.
Lemma preserves_convert {E E' A} (f : E -> E') (m : M E A) : preserves P m -> preserves P (convert f m).
Proof. intros Hm s r s'. unfold convert. destruct (m s) as [[[a|e] s1]|] eqn:E1; [intros [= <- <-]..|done]; eauto. Qed.
Lemma preserves_attempt {E E' A} (m : M E A) : preserves P m -> preserves P (attempt m : M E' _).
Proof. intros Hm s r s'. unfold attempt. destruct (m s) as [[r1 s1]|] eqn:E1; [intros [= <- <-]|done]; eauto. Qed.

(** What is not changed may be added to an invariant. *)
Lemma keeps_and {E A} (I : Handler -> Prop) (m : M E A) (Q : A -> Prop) (QE : E -> Prop) :
  keeps I m Q QE -> preserves P m -> keeps (fun s => I s /\ P s) m Q QE.
Proof. intros Hm Hp s [Hs HPs]. destruct (Hm s Hs) as (r & s' & He & ? & ?). exists r, s'. split_and!; eauto. Qed.
End preserves.

(** ** Runs taken apart *)

Lemma bind_inv {E A B} (m : M E A) (k : A -> M E B) s r s' : bind m k s = Some (r, s') ->
  (exists a s1, m s = Some (Ok a, s1) /\ k a s1 = Some (r, s')) \/ (exists e, m s = Some (Err e, s') /\ r = Err e).
Proof. unfold bind. destruct (m s) as [[[a|e] s1]|]; [eauto|intros [= <- <-]; eauto|done]. Qed.

Lemma bind_ok_inv {E A B} (m : M E A) (k : A -> M E B) s b s' : bind m k s = Some (Ok b, s') ->
  exists a s1, m s = Some (Ok a, s1) /\ k a s1 = Some (Ok b, s').
Proof. intros [?|(e & _ & ?)]%bind_inv; done. Qed.

Lemma convert_ok_inv {E E' A} (f : E -> E') (m : M E A) s a s' : convert f m s = Some (Ok a, s') -> m s = Some (Ok a, s').
Proof. unfold convert. destruct (m s) as [[[x|e] s1]|]; [by intros [= <- <-]|done|done]. Qed.

Lemma attempt_inv {E E' A} (m : M E A) s r s' : (attempt m : M E' _) s = Some (r, s') -> exists x, r = Ok x /\ m s = Some (x, s').
Proof. unfold attempt. destruct (m s) as [[x s1]|]; [intros [= <- <-]; eauto|done]. Qed.

(** A method that changes nothing. *)
Definition read_only {E A} (m : M E A) : Prop := forall s0, preserves (eq s0) m.

Lemma read_only_same {E A} (m : M E A) s r s' : read_only m -> m s = Some (r, s') -> s' = s.
Proof. intros Hm He. symmetry. by apply (Hm s s r s'). Qed.

End wp.

#[export] Hint Resolve preserves_ret preserves_throw preserves_bind preserves_gets preserves_reads preserves_fueled preserves_fueled_reads
  preserves_convert preserves_attempt : preserves.

(** Facts about a result that nothing is asked of. *)
Definition any {A} (a : A) : Prop := True.

End EngineWp.
