(* ===== verification/EngineInv.v ===== *)
(** * Invariant of the engine tree handler

    What every state of the handler has, and that the walks of the handler end from such a
    state.  Blocks are known by a predicate [good]: blocks with the same hash are the same, and a parent has a smaller
    rank than its child; the fuel is more than any rank. *)

From S2P Require Import Prelude Ordered EngineBlocks BlockBuffer BufferClaims InvalidHeaders TreeState TreeProps.
From S2P Require Import TreeClaims Forkchoice EngineTree EngineClaims InMemory EngineHandler EngineWp EngineOps.
From S2P Require Import EngineMsgs EngineLoop.
Import EngineBlocks.
Local Open Scope reth_scope.

Module EngineInv.
Import Tree TreeProps Forkchoice Engine InMemory Handler EngineWp EngineOps EngineMsgs EngineLoop.

Create HintDb engine.

Section walks.
Context {RB Out HS T PE Rx : Type} `{!RecoveredBlock RB} (rank : Z -> nat).
Implicit Types (self : EngineApiTreeHandler (RB := RB) (Out := Out) (HS := HS) (T := T) (PE := PE) (Rx := Rx)) (h : Z).

Definition tree_ranked self : Prop := ranked block_parent_hash rank (blocks_by_hash (tree_state self)).
Definition headers_ranked self : Prop := forall h hd, p_sealed_header_by_hash (provider self) h = Ok (Some hd) -> (rank (sh_parent_hash hd) < rank h)%nat.
Definition blocks_ranked self : Prop := forall h b, p_sealed_block_with_senders (provider self) h = Ok (Some b) -> (rank (block_parent_hash b) < rank h)%nat.

Lemma header_ranked self h hd : tree_ranked self -> headers_ranked self ->
  sealed_header_by_hash self h = Ok (Some hd) -> (rank (sh_parent_hash hd) < rank h)%nat.
Proof.
  intros Ht Hp. unfold sealed_header_by_hash, Tree.sealed_header_by_hash.
  destruct (blocks_by_hash (tree_state self) !! h) as [e|] eqn:E; simpl; [|apply Hp]. intros [= <-]. exact (Ht h e E).
Qed.

Lemma canonical_block_ranked self h b : tree_ranked self -> blocks_ranked self ->
  canonical_block_by_hash self h = Ok (Some b) -> (rank (block_parent_hash b) < rank h)%nat.
Proof.
  intros Ht Hp. unfold canonical_block_by_hash, executed_block_by_hash.
  destruct (blocks_by_hash (tree_state self) !! h) as [e|] eqn:E; [intros [= <-]; exact (Ht h e E)|].
  destruct (p_sealed_block_with_senders _ h) as [[x|]|] eqn:Ex; simpl; [|done..]. apply Hp in Ex.
  destruct (p_get_state _ _) as [[o|]|]; simpl; [|done..]. by intros [= <-].
Qed.

(** ** Walks that end *)

Lemma new_chain_loop_total self : tree_ranked self -> forall fuel n k h acc, (rank h < fuel)%nat ->
  exists r, new_chain_loop fuel self n k h acc = Some r /\
    forall k' h' l, r = Some (k', h', l) -> exists l', l = acc ++ l' /\ Forall (fun e => exists h, blocks_by_hash (tree_state self) !! h = Some e) l'.
Proof.
  intros Ht fuel. induction fuel as [|fuel IH]; intros n k h acc Hf; [lia|]. cbn [new_chain_loop].
  destruct (n <? k); [|eexists; split; [done|]; intros ? ? ? [= <- <- <-]; exists []; by rewrite app_nil_r].
  unfold executed_block_by_hash. destruct (blocks_by_hash (tree_state self) !! h) as [e|] eqn:E; [|by exists None].
  specialize (Ht h e E). destruct (IH n (wrap_u64 (k - 1)) (block_parent_hash e) (acc ++ [e])) as (r & -> & Hr); [lia|].
  exists r. split; [done|]. intros k' h' l Hl. destruct (Hr k' h' l Hl) as (l' & -> & Hl'). exists (e :: l'). rewrite <- app_assoc. eauto.
Qed.

Lemma old_chain_loop_total self : tree_ranked self -> blocks_ranked self -> forall fuel n k h acc, (rank h < fuel)%nat ->
  exists r, old_chain_loop fuel self n k h acc = Some r /\
    forall h' l, r = Ok (Some (h', l)) -> exists l', l = acc ++ l' /\ Forall (fun b => exists h, canonical_block_by_hash self h = Ok (Some b)) l'.
Proof.
  intros Ht Hb fuel. induction fuel as [|fuel IH]; intros n k h acc Hf; [lia|]. cbn [old_chain_loop].
  destruct (k <? n); [|eexists; split; [done|]; intros ? ? [= <- <-]; exists []; by rewrite app_nil_r].
  destruct (canonical_block_by_hash self h) as [[b|]|e] eqn:E; [|by eexists..].
  pose proof (canonical_block_ranked self h b Ht Hb E).
  destruct (IH (wrap_u64 (n - 1)) k (block_parent_hash b) (acc ++ [b])) as (r & -> & Hr); [lia|].
  exists r. split; [done|]. intros h' l Hl. destruct (Hr h' l Hl) as (l' & -> & Hl'). exists (b :: l'). rewrite <- app_assoc. eauto.
Qed.

Lemma fork_loop_total self : tree_ranked self -> forall fuel h2 h1 acc2 acc1, (rank h1 < fuel)%nat ->
  exists r, fork_loop fuel self h2 h1 acc2 acc1 = Some r /\
    forall l2 l1, r = Ok (Some (l2, l1)) ->
      (exists l, l2 = acc2 ++ l /\ Forall (fun b => exists h, canonical_block_by_hash self h = Ok (Some b)) l) /\
      (exists l, l1 = acc1 ++ l /\ Forall (fun e => exists h, blocks_by_hash (tree_state self) !! h = Some e) l).
Proof.
  intros Ht fuel. induction fuel as [|fuel IH]; intros h2 h1 acc2 acc1 Hf; [lia|]. cbn [fork_loop].
  destruct (h2 =? h1).
  { eexists; split; [done|]. intros ? ? [= <- <-]. split; exists []; by rewrite app_nil_r. }
  destruct (canonical_block_by_hash self h2) as [[b|]|e] eqn:E2; [|by eexists..].
  unfold executed_block_by_hash. destruct (blocks_by_hash (tree_state self) !! h1) as [e|] eqn:E1; [|by eexists].
  specialize (Ht h1 e E1). destruct (IH (block_parent_hash b) (block_parent_hash e) (acc2 ++ [b]) (acc1 ++ [e])) as (r & -> & Hr); [lia|].
  exists r. split; [done|]. intros l2 l1 Hl. destruct (Hr l2 l1 Hl) as [(a & -> & Ha) (c & -> & Hc)].
  split; [exists (b :: a)|exists (e :: c)]; rewrite <- app_assoc; eauto.
Qed.

(** Where the blocks of a chain update come from: the new ones are in the tree, and there is one at least. *)
Definition update_from self (c : NewCanonicalChain (ExecutedBlock RB Out HS) T) : Prop :=
  match c with
  | Commit new => new <> [] /\ Forall (fun e => exists h, blocks_by_hash (tree_state self) !! h = Some e) new
  | Reorg new old => new <> [] /\ Forall (fun e => exists h, blocks_by_hash (tree_state self) !! h = Some e) new /\
      Forall (fun b => exists h, canonical_block_by_hash self h = Ok (Some b)) old
  end.

Lemma on_new_head_total self fuel h : tree_ranked self -> blocks_ranked self -> (forall h, rank h < fuel)%nat ->
  exists r, on_new_head fuel self h = Some r /\ forall c, r = Ok (Some c) ->
    update_from self c /\ exists e, blocks_by_hash (tree_state self) !! h = Some e /\
      last (match c with Commit new => new | Reorg new _ => new end) = Some e.
Proof.
  intros Ht Hb Hf. unfold on_new_head, executed_block_by_hash.
  destruct (blocks_by_hash (tree_state self) !! h) as [e|] eqn:E; [|by exists (Ok None)].
  destruct (new_chain_loop_total self Ht fuel (nh_number (current_canonical_head (tree_state self))) (wrap_u64 (block_number e - 1))
    (block_parent_hash e) [e] (Hf _)) as ([[[k x] l]|] & -> & Hr); cbn [mbind option_bind]; [|by eexists].
  destruct (Hr k x l eq_refl) as (l' & -> & Hl'). clear Hr.
  destruct (x =? _).
  - eexists. split; [done|]. intros c [= <-]. split; [split|].
    + cbn [app]. rewrite reverse_cons. by destruct (reverse l').
    + apply Forall_reverse. constructor; eauto.
    + exists e. cbn [app]. by rewrite reverse_cons, last_snoc.
  - destruct (old_chain_loop_total self Ht Hb fuel (nh_number (current_canonical_head (tree_state self))) k
      (nh_hash (current_canonical_head (tree_state self))) [] (Hf _)) as ([[[oh ol]|]|e'] & -> & Hr); cbn [mbind option_bind]; [|by eexists..].
    destruct (Hr oh ol eq_refl) as (ol' & -> & Hol). clear Hr.
    destruct (fork_loop_total self Ht fuel oh x ([] ++ ol') ([e] ++ l') (Hf _)) as ([[[l2 l1]|]|e'] & -> & Hr); cbn [mbind option_bind]; [|by eexists..].
    destruct (Hr l2 l1 eq_refl) as [(a & -> & Ha) (d & -> & Hd)]. eexists. split; [done|]. intros c [= <-]. split; [split_and!|].
    + cbn [app]. rewrite reverse_cons. by destruct (reverse (l' ++ d)).
    + apply Forall_reverse. cbn [app]. constructor; [eauto|]. by apply Forall_app.
    + apply Forall_reverse, Forall_app. auto.
    + exists e. cbn [app]. by rewrite reverse_cons, last_snoc.
Qed.

Lemma walk_down_total self : tree_ranked self -> headers_ranked self -> forall fuel n nh, (rank (nh_hash nh) < fuel)%nat ->
  exists r, walk_down fuel self n nh = Some r.
Proof.
  intros Ht Hp fuel. induction fuel as [|fuel IH]; intros n nh Hf; [lia|]. cbn [walk_down]. destruct (n <? _); [|eauto].
  unfold header_parent. destruct (sealed_header_by_hash self (nh_hash nh)) as [[hd|]|e] eqn:E; simpl; [|eauto..].
  pose proof (header_ranked self _ hd Ht Hp E). apply IH. simpl. unfold block_parent_hash. simpl. lia.
Qed.

Lemma common_ancestor_total self : tree_ranked self -> headers_ranked self -> forall fuel p c, (rank (nh_hash c) < fuel)%nat ->
  exists r, common_ancestor fuel self p c = Some r.
Proof.
  intros Ht Hp fuel. induction fuel as [|fuel IH]; intros p c Hf; [lia|]. cbn [common_ancestor]. destruct (_ =? _); [eauto|].
  unfold header_parent at 1. destruct (sealed_header_by_hash self (nh_hash c)) as [[hd|]|e] eqn:E; simpl; [|eauto..].
  pose proof (header_ranked self _ hd Ht Hp E). destruct (header_parent self p); [|eauto]. apply IH. simpl. unfold block_parent_hash. simpl. lia.
Qed.

Lemma find_disk_reorg_total self fuel : tree_ranked self -> headers_ranked self -> (forall h, rank h < fuel)%nat ->
  exists r, find_disk_reorg fuel self = Some r.
Proof.
  intros Ht Hp Hf. unfold find_disk_reorg.
  destruct (walk_down_total self Ht Hp fuel (nh_number (last_persisted_block (persistence_state self))) (current_canonical_head (tree_state self)) (Hf _))
    as ([c|e] & ->); cbn [mbind option_bind]; [|eauto].
  case_bool_decide; [eauto|].
  destruct (walk_down_total self Ht Hp fuel (nh_number c) (last_persisted_block (persistence_state self)) (Hf _)) as ([p|e] & ->);
    cbn [mbind option_bind]; [|eauto].
  destruct (common_ancestor_total self Ht Hp fuel p c (Hf _)) as ([a|e] & ->); cbn [mbind option_bind]; eauto.
Qed.

Lemma blocks_to_persist_total self : tree_ranked self ->
  exists bs, blocks_to_persist self = Some bs /\ Forall (fun e => exists h, blocks_by_hash (tree_state self) !! h = Some e) bs.
Proof.
  intros Ht. unfold blocks_to_persist.
  destruct (ancestors_exist _ _ _ Ht (canonical_block_hash (tree_state self))) as (l & Hl & Hlen).
  rewrite (EngineClaims.collect_blocks_ok self _ _ l) by (done || lia). cbn [mbind option_bind app].
  eexists. split; [done|]. apply Forall_reverse, Forall_forall. intros e [_ He]%list_elem_of_filter.
  assert (forall n l, e ∈ EngineClaims.above n l -> e ∈ l) as Hab.
  { intros n l'. induction l' as [|x l' IH]; simpl; [done|]. destruct (_ <=? _); [by intros ?%not_elem_of_nil|].
    intros [->|?]%elem_of_cons; [by left|right; auto]. }
  by eapply ancestors_known, Hab.
Qed.

Lemma is_descendant_total (t : TreeState (B := ExecutedBlock RB Out HS) (T := T)) first second :
  ranked block_parent_hash rank (blocks_by_hash t) -> exists b, is_descendant t first second = Some b.
Proof.
  intros Hr. unfold is_descendant. destruct (_ =? _); [eauto|]. destruct (_ <=? _); [eauto|].
  destruct (blocks_by_hash t !! bwp_parent second) as [e|]; [|eauto].
  destruct (ancestors_exist _ _ _ Hr (block_parent_hash e)) as (l & Hl & Hlen).
  destruct (TreeClaims.is_descendant_loop_sound t first l (S (size (blocks_by_hash t))) e Hl) as (b & -> & _); [lia|eauto].
Qed.

Lemma chain_by_hash_total (t : TreeState (B := ExecutedBlock RB Out HS) (T := T)) h :
  ranked block_parent_hash rank (blocks_by_hash t) -> exists c, chain_by_hash t h = Some c.
Proof.
  intros Hr. unfold chain_by_hash. destruct (blocks_by_hash t !! h) as [e|]; [|eauto].
  destruct (ancestors_exist _ _ _ Hr (block_parent_hash e)) as (l & Hl & Hlen).
  destruct (TreeClaims.blocks_by_hash_loop_ok t l _ (S (size (blocks_by_hash t))) [e] Hl) as (root & -> & _); [lia|]. simpl. eauto.
Qed.

End walks.

(** ** The invariant *)

(** What the validator promises: the block of a payload has the hash, the parent and the number of the payload, and what is
    executed, or found to be invalid, is this block ([convert_to_block] of [payload_validator.rs]). *)
Class ValidatorLaws `{!NodeTypes} `{!NodeOps} `{!EngineValidator} : Prop := {
  well_formed_same : forall v p b, ensure_well_formed_payload v p = Ok b ->
    block_hash b = block_hash p /\ block_parent_hash b = block_parent_hash p /\ block_number b = block_number p;
  payload_executed : forall v p ctx,
    match (validate_payload v p ctx).1.1 with
    | Ok e => ensure_well_formed_payload v p = Ok (recovered_block (block e))
    | Err (BlockFailed e) => ensure_well_formed_payload v p = Ok (ibe_block e)
    | Err (PayloadFailed _) => True
    end;
  block_executed : forall v b ctx,
    match (validator_validate_block v b ctx).1.1 with
    | Ok e => recovered_block (block e) = b
    | Err (BlockFailed e) => ibe_block e = b
    | Err (PayloadFailed _) => True
    end;
}.

Section invariant.
Context `{!NodeTypes} `{!NodeOps} `{!FullConsensus} `{!EngineValidator} `{!ValidatorLaws}.
Context (rank : Z -> nat) (fuel : nat) (good : RB -> Prop).
Hypothesis rank_fuel : forall h, (rank h < fuel)%nat.
Hypothesis good_same : forall b b', good b -> good b' -> block_hash b = block_hash b' -> b = b'.
Hypothesis good_rank : forall b, good b -> (rank (block_parent_hash b) < rank (block_hash b))%nat.
Abbreviation EB := (ExecutedBlock RB Out HS).
Implicit Types (s self : Handler) (h : Z).

Definition good_executed (e : Executed) : Prop := good (recovered_block (block e)).

(** What the database promises: parents come before their children, blocks are found under their hash, a number is a number, and a block that has a
    hash has a header. *)
Record db_ok (d : Database) : Prop := mkDbOk {
  db_headers_ranked : forall h hd, p_sealed_header_by_hash (db_provider d) h = Ok (Some hd) -> (rank (sh_parent_hash hd) < rank h)%nat;
  db_blocks_good : forall h b, p_sealed_block_with_senders (db_provider d) h = Ok (Some b) -> good b /\ block_hash b = h;
  db_number_found : forall n, db_convert_hash_or_number d (ByNumber n) <> Ok None;
  db_header_found : forall n h, db_block_hash d n = Ok (Some h) -> exists hd, db_sealed_header d n = Ok (Some hd);
}.

Definition ranked_entry (h : Z) (a : BlockWithParent) : Prop := (rank (bwp_parent a) < rank h)%nat.

Record tree_inv (t : TreeState (B := EB) (T := T)) : Prop := mkTreeInv {
  t_ok : tree_ok t;
  t_rank : ranked block_parent_hash rank (blocks_by_hash t);
  t_good : forall h e, blocks_by_hash t !! h = Some e -> good_executed e;
}.

Definition buffer_inv (b : Buffer.BlockBuffer (B := RB)) : Prop :=
  Buffer.buffer_ok b /\ forall h x, Buffer.blocks b !! h = Some x -> good x.

Definition is_saving (p : PersistenceState nat) : bool :=
  match current_action p with Some (SavingBlocks _) => true | _ => false end.

(** The maps of the tree and of the buffer agree; entries of the cache lead down; unless heads may be unwound, the tree and the memory have
    the same head; no blocks are being saved while a backfill is pending or active. *)
Record engine_inv s : Prop := mkEngineInv {
  inv_tree : tree_inv (es_tree (state s));
  inv_buffer : buffer_inv (es_buffer (state s));
  inv_cache : InvalidHeaders.cache_ok ranked_entry (es_invalid (state s));
  inv_db : db_ok (db s);
  inv_heads : allow_unwind_canonical_header (h_config s) = false ->
    num_hash (ci_canonical_head (info (memory s))) = current_canonical_head (es_tree (state s));
  inv_exclusive : h_backfill_sync_state s <> Idle -> is_saving (h_persistence_state s) = false;
}.

(** *** Updates of a field *)

Ltac same_inv := intros []; constructor; simpl; auto.

Lemma inv_outgoing s e : engine_inv s -> engine_inv (push_outgoing s e).
Proof. same_inv. Qed.
Lemma inv_incoming s e : engine_inv s -> engine_inv (push_incoming s e).
Proof. same_inv. Qed.
Lemma inv_persistence s e : engine_inv s -> engine_inv (push_persistence s e).
Proof. same_inv. Qed.
Lemma inv_job s e : engine_inv s -> engine_inv (push_job s e).
Proof. same_inv. Qed.
Lemma inv_response s e : engine_inv s -> engine_inv (push_response s e).
Proof. same_inv. Qed.
Lemma inv_validator s v : engine_inv s -> engine_inv (set_validator s v).
Proof. same_inv. Qed.
Lemma inv_in_memory s m : engine_inv s -> engine_inv (set_in_memory s m).
Proof. same_inv. Qed.
Lemma inv_tracker s t : engine_inv s -> engine_inv (set_tracker s t).
Proof. same_inv. Qed.
Lemma inv_set_invalid s i : engine_inv s -> InvalidHeaders.cache_ok ranked_entry i -> engine_inv (set_invalid s i).
Proof. same_inv. Qed.
Lemma inv_set_buffer s b : engine_inv s -> buffer_inv b -> engine_inv (set_buffer s b).
Proof. same_inv. Qed.
Lemma inv_set_tree s t : engine_inv s -> tree_inv t -> current_canonical_head t = current_canonical_head (es_tree (state s)) -> engine_inv (set_tree s t).
Proof. intros [] Ht Hh. constructor; simpl; auto. rewrite Hh. auto. Qed.
Lemma inv_info s i : engine_inv s -> ci_canonical_head i = ci_canonical_head (info (memory s)) -> engine_inv (set_info s i).
Proof. intros [] Hi. constructor; simpl; auto. rewrite Hi. auto. Qed.
Lemma inv_backfill s b : engine_inv s -> (b <> Idle -> is_saving (h_persistence_state s) = false) -> engine_inv (set_backfill s b).
Proof. same_inv. Qed.
Lemma inv_persisting s p : engine_inv s -> (h_backfill_sync_state s <> Idle -> is_saving p = false) -> engine_inv (set_persistence_state s p).
Proof. same_inv. Qed.
#[local] Hint Resolve inv_outgoing inv_incoming inv_persistence inv_job inv_response inv_validator inv_in_memory inv_tracker : engine.

Lemma inv_emit s e : engine_inv s -> engine_inv (emit_event s e).
Proof.
  intros Hs. unfold emit_event. destruct (is_backfill_action e); [|auto with engine].
  destruct (in_progress (h_persistence_state s)) eqn:E; [done|]. apply inv_outgoing, inv_backfill; [done|]. intros _.
  unfold is_saving, current_action, in_progress in *. by destruct (rx _).
Qed.
#[local] Hint Resolve inv_emit : engine.

(** *** Blocks in the tree and in the buffer *)

Lemma tree_insert t e : tree_inv t -> good_executed e -> tree_inv (insert_executed t e).
Proof.
  intros [Hok Hr Hg] He. split; [by apply insert_executed_ok|..]; intros h x; rewrite insert_executed_blocks;
    (destruct (blocks_by_hash t !! block_hash e); [eauto|]); intros [[<- <-]|[_ ?]]%lookup_insert_Some; eauto. by apply good_rank.
Qed.

Lemma insert_executed_head (t : TreeState (B := EB) (T := T)) e : current_canonical_head (insert_executed t e) = current_canonical_head t.
Proof. unfold insert_executed. by destruct (_ !! _). Qed.

Lemma tree_set_head t nh : tree_inv t -> tree_inv (Tree.set_canonical_head t nh).
Proof. by intros []. Qed.

Lemma tree_set_trie t h u : tree_inv t -> tree_inv (set_trie_updates t h u).
Proof.
  intros [Hok Hr Hg]. split; [by apply set_trie_ok|by apply set_trie_rank|]. intros k x (e & He & Heq)%set_trie_same.
  unfold good_executed. rewrite <- Heq. by eapply Hg.
Qed.

Lemma tree_remove_until t upper last f : tree_inv t ->
  exists t', remove_until epoch_slots t upper last f = Some t' /\ tree_inv t' /\ current_canonical_head t' = current_canonical_head t.
Proof.
  intros [Hok Hr Hg]. destruct (TreeClaims.remove_until_ok epoch_slots t upper last f rank Hok Hr) as (t' & -> & Hok' & _ & Hs & Hh).
  exists t'. split_and!; [done|split; [done|by eapply TreeClaims.ranked_subseteq|]|done]. intros h e He. eapply Hg, lookup_weaken; eauto.
Qed.

Lemma buffer_insert b x : buffer_inv b -> good x -> buffer_inv (Buffer.insert_block b x).
Proof.
  intros [Hok Hg] Hx. pose proof Hok as (Hh & _). split.
  - apply Buffer.insert_block_ok; [done|]. intros c Hc. apply good_same; eauto.
  - intros h y. rewrite Buffer.insert_blocks. intros Hy.
    assert (<[block_hash x := x]> (Buffer.blocks b) !! h = Some y) as [[_ <-]|[_ ?]]%lookup_insert_Some; [|done|eauto].
    destruct (Buffer.block_queue b); [done|]. destruct (_ <=? _); [|done]. by apply lookup_delete_Some in Hy as [_ ?].
Qed.

Lemma buffer_rank b : buffer_inv b -> ranked block_parent_hash rank (Buffer.blocks b).
Proof. intros [(Hh & _) Hg] h x Hx. rewrite <- (Hh h x Hx). apply good_rank; eauto. Qed.

(** The parent of the lowest buffered ancestor is below the block. *)
Lemma lowest_total b h : buffer_inv b ->
  exists r, Buffer.lowest_ancestor b h = Some r /\ forall x, r = Some x -> (rank (block_parent_hash x) < rank h)%nat.
Proof.
  intros Hb. pose proof (buffer_rank b Hb) as Hr. unfold Buffer.lowest_ancestor.
  destruct (Buffer.blocks b !! h) as [x|] eqn:E; [|by eexists].
  destruct (ancestors_exist _ _ _ Hr (block_parent_hash x)) as (l & Hl & Hlen).
  rewrite (BufferClaims.lowest_loop_ok b l) by (done || lia). cbn [mbind option_bind]. eexists. split; [done|]. intros y [= <-].
  specialize (Hr h x E). clear E Hlen. revert x Hr Hl. induction l as [|p l IH]; intros x Hr Hl; [done|].
  inversion Hl as [|? ? ? Hp Hl']; subst. change (List.last (p :: l) x) with (match l with [] => p | _ => List.last l x end).
  pose proof (buffer_rank b Hb _ _ Hp). destruct l as [|q l]; [simpl; lia|].
  replace (List.last (q :: l) x) with (List.last (q :: l) p) by (clear; revert q; induction l as [|y l IH]; intros q; [done|apply IH]).
  apply IH; [lia|done].
Qed.

(** *** Answers about invalid blocks *)

Abbreviation Keeps m Q := (keeps engine_inv m Q any).
Ltac fine := solve [done | by intros | by apply keeps_ret | by apply keeps_throw].
Ltac kbind H := eapply keeps_bind; [eapply H; done|cbn beta].

Lemma emit_keeps {E} e (QE : E -> Prop) : keeps engine_inv (emit e) any QE.
Proof. apply keeps_modify; [intros s Hs; by apply inv_emit|done]. Qed.

Lemma get_invalid_keeps {E} h : keeps engine_inv (get_invalid h) (fun r => forall a, r = Some a -> ranked_entry h a) (any : E -> Prop).
Proof.
  intros s Hs. destruct (InvalidHeaders.get_ok ranked_entry (es_invalid (state s)) h (inv_cache s Hs)) as (Hc & _ & Hk & _).
  eexists _, _. split_and!; [reflexivity|by apply inv_set_invalid|done].
Qed.

Lemma cache_insert c h a : InvalidHeaders.cache_ok ranked_entry c -> ranked_entry h a ->
  InvalidHeaders.cache_ok ranked_entry (InvalidHeaders.insert_with_invalid_ancestor c h a).
Proof.
  intros Hc Ha. destruct (InvalidHeaders.insert_with_ok ranked_entry c h a Hc) as [Hc' _].
  eapply InvalidHeaders.cache_ok_mono; [|exact Hc']. intros k x [?|[-> ->]]; done.
Qed.

Lemma insert_invalid_keeps {E} a : ranked_entry (nh_hash (bwp_block a)) a -> keeps engine_inv (insert_invalid a) any (any : E -> Prop).
Proof.
  intros Ha. apply keeps_modify; [|done]. intros s Hs. apply inv_set_invalid; [done|].
  rewrite InvalidHeaders.insert_is_with_ancestor. apply cache_insert; [apply Hs|done].
Qed.

Lemma core_ranked s : engine_inv s -> tree_ranked rank (core s) /\ headers_ranked rank (core s) /\ blocks_ranked rank (core s).
Proof.
  intros Hs. split_and!; [exact (t_rank _ (inv_tree s Hs))|exact (db_headers_ranked _ (inv_db s Hs))|]. intros h b Hb.
  destruct (db_blocks_good _ (inv_db s Hs) h b Hb) as [Hg <-]. by apply good_rank.
Qed.

Lemma lookup_header_keeps {E} (f : ProviderError PE -> E) h :
  keeps engine_inv (lookup_header f h) (fun r => forall hd, r = Some hd -> (rank (sh_parent_hash hd) < rank h)%nat) any.
Proof.
  eapply keeps_convert; [apply (keeps_reads _ _ _ any)|done]. intros s Hs. destruct (core_ranked s Hs) as (Ht & Hh & _).
  destruct (sealed_header_by_hash (core s) h) eqn:E1; [|done]. intros hd ->. by apply (header_ranked rank (core s)).
Qed.

Lemma lowest_keeps {E} h : keeps engine_inv (lowest_buffered_ancestor_or h) (fun x => x = h \/ (rank x < rank h)%nat) (any : E -> Prop).
Proof.
  apply keeps_fueled. intros s Hs. destruct (lowest_total _ h (inv_buffer s Hs)) as (r & -> & Hr). eexists. split; [reflexivity|].
  destruct r; [right; by apply Hr|by left].
Qed.

Lemma invalid_ancestors_loop_keeps n : forall cur, (forall a, cur = Some a -> (rank (bwp_parent a) < n)%nat) ->
  Keeps (invalid_ancestors_loop n cur) any.
Proof.
  induction n as [|n IH]; intros [a|] Ha; simpl; try fine; specialize (Ha a eq_refl); [lia|].
  kbind @get_invalid_keeps. intros [a'|] Ha'; [|kbind @lookup_header_keeps; intros [?|] _; fine].
  apply IH. intros x [= <-]. specialize (Ha' a' eq_refl). unfold ranked_entry in Ha'. lia.
Qed.

Lemma latest_valid_keeps h : Keeps (latest_valid_hash_for_invalid_payload fuel h) any.
Proof.
  kbind @lookup_header_keeps. intros [?|] _; [fine|]. kbind @get_invalid_keeps. intros r Hr.
  apply invalid_ancestors_loop_keeps. intros a ->. apply rank_fuel.
Qed.

Lemma prepare_invalid_keeps h : Keeps (prepare_invalid_response fuel h) any.
Proof. kbind @lookup_header_keeps. intros hd _. kbind @latest_valid_keeps. intros. fine. Qed.

Lemma on_invalid_new_payload_keeps b a : ranked_entry (block_hash b) a -> Keeps (on_invalid_new_payload fuel b a) any.
Proof.
  intros Ha. kbind @prepare_invalid_keeps. intros st _. eapply keeps_bind; [apply (keeps_modify _ _ any)|]; [|done|].
  - intros s Hs. apply inv_set_invalid, cache_insert; [done|apply Hs|done].
  - intros _ _. kbind @emit_keeps. intros. fine.
Qed.

Lemma check_invalid_with_head_keeps h b : h = block_hash b \/ (rank h < rank (block_hash b))%nat ->
  Keeps (check_invalid_ancestor_with_head fuel h b) any.
Proof.
  intros Hh. kbind @get_invalid_keeps. intros [a|] Ha; [|fine]. eapply keeps_bind; [apply (on_invalid_new_payload_keeps b a)|intros; fine].
  specialize (Ha a eq_refl). unfold ranked_entry in *. destruct Hh as [->|]; [done|lia].
Qed.

Lemma find_invalid_ancestor_keeps {E} (p : Payload) :
  keeps engine_inv (find_invalid_ancestor p)
    (fun r => forall a, r = Some a -> ranked_entry (block_parent_hash p) a \/ ranked_entry (block_hash p) a) (any : E -> Prop).
Proof.
  kbind @lowest_keeps. intros x Hx. destruct (x =? block_hash p) eqn:Ex; bools.
  - eapply keeps_mono; [apply get_invalid_keeps| |done]. intros r Hr a Ha. left. auto.
  - eapply keeps_mono; [apply get_invalid_keeps| |done]. intros r Hr a Ha. right. specialize (Hr a Ha). unfold ranked_entry in *.
    destruct Hx; [done|lia].
Qed.

Lemma check_invalid_ancestor_keeps h : Keeps (check_invalid_ancestor fuel h) any.
Proof. kbind @get_invalid_keeps. intros [a|] _; [|fine]. kbind @prepare_invalid_keeps. intros. fine. Qed.

Lemma on_new_payload_error_keeps e h : Keeps (on_new_payload_error fuel e h) any.
Proof.
  eapply keeps_bind; [|intros; fine]. instantiate (1 := any). destruct (_ || _); [fine|apply latest_valid_keeps].
Qed.

Lemma fatal_keeps {A} (m : M (ProviderError PE) A) Q : Keeps m Q -> Keeps (fatal m) Q.
Proof. intros Hm. by eapply keeps_convert. Qed.

Lemma payload_block p v b : good b -> ensure_well_formed_payload v p = Ok b -> forall a,
  ranked_entry (block_parent_hash p) a \/ ranked_entry (block_hash p) a -> ranked_entry (block_hash b) a.
Proof.
  intros Hg Hw a. destruct (well_formed_same v p b Hw) as (<- & <- & _). unfold ranked_entry.
  pose proof (good_rank b Hg). intros [?|?]; lia.
Qed.

(** Payloads that the handler may be given. *)
Definition good_payload (p : Payload) : Prop := forall v b, ensure_well_formed_payload v p = Ok b -> good b.

Lemma handle_invalid_keeps p a : good_payload p -> ranked_entry (block_parent_hash p) a \/ ranked_entry (block_hash p) a ->
  Keeps (handle_invalid_ancestor_payload fuel p a) any.
Proof.
  intros Hp Ha. eapply keeps_bind; [by apply (keeps_gets _ _ any)|]. intros v _.
  destruct (ensure_well_formed_payload v p) as [b|e] eqn:E; apply fatal_keeps; [|apply on_new_payload_error_keeps].
  apply on_invalid_new_payload_keeps. eapply payload_block; eauto.
Qed.

Lemma on_insert_block_error_keeps e : good (ibe_block e) -> Keeps (on_insert_block_error fuel e) any.
Proof.
  intros Hg. unfold on_insert_block_error. destruct (ensure_validation_error _); [|fine].
  eapply keeps_bind; [apply fatal_keeps, latest_valid_keeps|]. intros h _.
  eapply keeps_bind; [apply insert_invalid_keeps|]; [by apply good_rank|]. intros _ _. kbind @emit_keeps. intros. fine.
Qed.

(** *** The canonical chain *)

Lemma extends_head_loop_total s : engine_inv s -> forall n b, (rank (bwp_parent b) < n)%nat -> exists r, extends_head_loop n s b = Some r.
Proof.
  intros Hs. destruct (core_ranked s Hs) as (Ht & Hh & _). intros n. induction n as [|n IH]; intros b Hb; [lia|]. cbn [extends_head_loop].
  destruct (_ =? _); [eauto|]. destruct (_ <=? _); [eauto|].
  destruct (sealed_header_by_hash (core s) (bwp_parent b)) as [[hd|]|e] eqn:E; [|eauto..].
  pose proof (header_ranked rank (core s) _ hd Ht Hh E). apply IH. simpl. unfold block_parent_hash. simpl. lia.
Qed.

Lemma is_fork_keeps b : Keeps (is_fork fuel b) any.
Proof.
  eapply keeps_bind; [apply (keeps_fueled_reads _ _ any)|].
  { intros s Hs. destruct (extends_head_loop_total s Hs fuel b (rank_fuel _)) as ([x|e] & ->); by eexists. }
  intros [|] _; [fine|]. eapply keeps_bind; [by apply (keeps_gets _ _ any)|]. intros s _.
  destruct (header_by_hash _ _); [fine|]. eapply keeps_bind; [apply (keeps_reads _ _ any)|intros; fine].
  intros s' _. by destruct (p_block_number _ _).
Qed.

Lemma state_provider_builder_keeps {E} (f : ProviderError PE -> E) h : keeps engine_inv (state_provider_builder f h) any any.
Proof.
  eapply keeps_bind; [apply (keeps_fueled _ _ any)|].
  { intros s Hs. destruct (chain_by_hash_total rank (es_tree (state s)) h (t_rank _ (inv_tree s Hs))) as (c & ->). by exists c. }
  intros [[x bs]|] _; [fine|]. eapply keeps_bind; [|intros; fine]. instantiate (1 := any).
  eapply keeps_convert; [apply (keeps_reads _ _ any any)|done]. intros s _. by destruct (db_header _ _).
Qed.

Lemma persisting_kind_total s b : engine_inv s -> exists k, persisting_kind_for s b = Some k.
Proof.
  intros Hs. unfold persisting_kind_for. destruct (current_action _) as [[nh|n]|]; [|eauto..]. destruct (_ <? _); [|eauto].
  destruct (is_descendant_total rank (es_tree (state s)) nh b (t_rank _ (inv_tree s Hs))) as (d & ->). simpl. eauto.
Qed.

Lemma canonical_block_good s h b : engine_inv s -> canonical_block_by_hash (core s) h = Ok (Some b) -> good (recovered_block b).
Proof.
  intros Hs. unfold canonical_block_by_hash, executed_block_by_hash. simpl.
  destruct (blocks_by_hash (es_tree (state s)) !! h) as [e|] eqn:E; [intros [= <-]; exact (t_good _ (inv_tree s Hs) h e E)|].
  destruct (p_sealed_block_with_senders _ h) as [[x|]|] eqn:Ex; simpl; [|done..].
  destruct (db_blocks_good _ (inv_db s Hs) h x Ex) as [Hg _].
  destruct (p_get_state _ _) as [[o|]|]; simpl; [|done..]. by intros [= <-].
Qed.

(** Chain updates that the handler can apply. *)
Definition good_update (c : NewCanonicalChain EB T) : Prop :=
  match c with
  | Commit new => new <> [] /\ Forall good_executed new
  | Reorg new old => new <> [] /\ Forall good_executed new /\ Forall (fun b => good (recovered_block b)) old
  end.

Lemma update_from_good s c : engine_inv s -> update_from (core s) c -> good_update c.
Proof.
  intros Hs.
  assert (forall l : list Executed, Forall (fun e => exists h, blocks_by_hash (es_tree (state s)) !! h = Some e) l -> Forall good_executed l) as Hn.
  { intros l Hl. eapply Forall_impl; [exact Hl|]. intros e [h He]. by eapply (t_good _ (inv_tree s Hs)). }
  destruct c as [new|new old]; simpl; [intros [? ?]; auto|]. intros (? & ? & Ho). split_and!; [done|auto|].
  eapply Forall_impl; [exact Ho|]. intros b [h Hb]. by eapply canonical_block_good.
Qed.

Lemma reinsert_tree l : forall s, exists t, reinsert_reorged_blocks s l = set_tree s t /\
  (tree_inv (es_tree (state s)) -> Forall good_executed l -> tree_inv t) /\
  current_canonical_head t = current_canonical_head (es_tree (state s)) /\
  blocks_by_hash (es_tree (state s)) ⊆ blocks_by_hash t.
Proof.
  induction l as [|b l IH]; intros s.
  { exists (es_tree (state s)). split_and!; [by destruct s as [? ? []]|done..]. }
  unfold reinsert_reorged_blocks. cbn [foldl]. fold (reinsert_reorged_blocks).
  unfold executed_block_by_hash. destruct (blocks_by_hash (es_tree (state s)) !! block_hash b) eqn:E.
  - destruct (IH s) as (t & Ht & Hi & Hh & Hs). exists t. split_and!; [done| |done|done]. intros ? [_ ?]%Forall_cons. auto.
  - destruct (IH (set_tree s (insert_executed (es_tree (state s)) b))) as (t & Ht & Hi & Hh & Hs). exists t. split_and!; [done|..].
    + intros Htree [Hb Hl]%Forall_cons. apply Hi; [|done]. by apply tree_insert.
    + rewrite Hh. apply insert_executed_head.
    + etrans; [|exact Hs]. simpl. rewrite insert_executed_blocks, E. by apply insert_subseteq.
Qed.

Lemma persisted_old_good s old : Forall (fun b => good (recovered_block b)) old -> Forall good_executed (persisted_old s old).
Proof.
  intros Ho. apply Forall_forall. intros e (b & Hb & He)%list_elem_of_omap.
  destruct (persisted_trie_updates _ !! _); [|done]. injection He as <-. rewrite Forall_forall in Ho. exact (Ho b Hb).
Qed.

Lemma reinsert_chains_tree c s : exists t, reinsert_chains s c = set_tree s t /\
  (tree_inv (es_tree (state s)) -> good_update c -> tree_inv t) /\
  current_canonical_head t = current_canonical_head (es_tree (state s)) /\
  blocks_by_hash (es_tree (state s)) ⊆ blocks_by_hash t.
Proof.
  destruct c as [new|new old]; simpl.
  { exists (es_tree (state s)). split_and!; [by destruct s as [? ? []]|done..]. }
  destruct (reinsert_tree new s) as (t1 & -> & Hi1 & Hh1 & Hs1).
  destruct (reinsert_tree (persisted_old (set_tree s t1) old) (set_tree s t1)) as (t2 & -> & Hi2 & Hh2 & Hs2).
  exists t2. split_and!; [done| |by rewrite Hh2|by etrans]. intros Ht (_ & Hn & Ho). apply Hi2; [by apply Hi1|]. by apply persisted_old_good.
Qed.

(** What a chain update leaves behind. *)
Lemma chain_update_ok s c : engine_inv s -> good_update c ->
  exists s' tip, chain_tip c = Some tip /\ on_canonical_chain_update s c = Some s' /\ engine_inv s' /\
    current_canonical_head (es_tree (state s')) = num_hash tip /\ ci_canonical_head (info (memory s')) = sealed_header tip /\
    in_memory (memory s') = update_chain (in_memory (memory s)) c /\
    h_persistence_state s' = h_persistence_state s /\ h_backfill_sync_state s' = h_backfill_sync_state s /\
    db s' = db s /\ es_tracker (state s') = es_tracker (state s) /\ es_buffer (state s') = es_buffer (state s) /\
    blocks_by_hash (es_tree (state s)) ⊆ blocks_by_hash (es_tree (state s')).
Proof.
  intros Hs Hc. assert (exists e, last (new_blocks c) = Some e) as [e He].
  { assert (new_blocks c <> []) as Hne by (by destruct c; destruct Hc). destruct (last (new_blocks c)) as [e|] eqn:E; [eauto|].
    by apply last_None in E. }
  unfold on_canonical_chain_update, chain_tip. rewrite He. cbn [fmap option_fmap option_map mbind option_bind].
  set (tip := recovered_block (block e)). set (s1 := set_tree s _).
  destruct (reinsert_chains_tree c s1) as (t & -> & Hi & Hh & Hsub).
  eexists _, tip. split_and!; [done|reflexivity| |done|done|done|done|done|done|done|done|done].
  destruct Hs as [Htree ? ? ? ? ?]. constructor; simpl; auto. apply Hi; [by apply tree_set_head|done].
Qed.

Lemma new_head_keeps h : Keeps (new_head fuel h) (fun r => forall c, r = Some c -> good_update c).
Proof.
  apply keeps_fueled_reads. intros s Hs. destruct (core_ranked s Hs) as (Ht & _ & Hb).
  destruct (on_new_head_total rank (core s) fuel h Ht Hb rank_fuel) as (r & -> & Hr). exists r. split; [done|].
  destruct r as [r|]; [|done]. intros c ->. destruct (Hr c eq_refl) as [Hc _]. by eapply update_from_good.
Qed.

Lemma chain_update_keeps {E} c : good_update c -> keeps engine_inv (on_chain_update c) any (any : E -> Prop).
Proof.
  intros Hc s Hs. destruct (chain_update_ok s c Hs Hc) as (s' & tip & _ & He & Hs' & _). unfold wp, on_chain_update. rewrite He.
  by eexists _, _.
Qed.

Lemma make_canonical_keeps h : Keeps (make_canonical fuel h) any.
Proof. kbind @new_head_keeps. intros [c|] Hc; [|fine]. apply chain_update_keeps. auto. Qed.

Lemma on_tree_event_keeps e : Keeps (on_tree_event fuel e) any.
Proof. destruct e as [[h]|a|r]; [apply make_canonical_keeps|apply emit_keeps..]. Qed.

Lemma on_maybe_tree_event_keeps e : Keeps (on_maybe_tree_event fuel e) any.
Proof. destruct e; [apply on_tree_event_keeps|fine]. Qed.

(** *** Inserting *)

(** An error about a block is about a good block. *)
Definition good_failure (e : InsertPayloadError) : Prop :=
  match e with BlockFailed e => good (ibe_block e) | PayloadFailed _ => True end.

Lemma buffer_insert_inv s b : engine_inv s -> good b -> engine_inv (set_buffer s (Buffer.insert_block (es_buffer (state s)) b)).
Proof. intros Hs Hb. apply inv_set_buffer, buffer_insert; [done|apply Hs|done]. Qed.

Lemma insert_executed_inv s e : engine_inv s -> good_executed e -> engine_inv (insert_executed_block s e).
Proof.
  intros Hs He. unfold insert_executed_block. assert (engine_inv (update_pending s e)) as Hs'.
  { unfold update_pending. destruct (_ =? _); auto with engine. }
  apply inv_set_tree; [done|apply tree_insert; [apply Hs'|done]|apply insert_executed_head].
Qed.

Section insert.
Context {Input : Type} (execute : V -> Input -> TreeCtx -> result Executed InsertPayloadError * V * list Z)
  (convert_to_block : V -> Input -> result RB InsertPayloadError) (input : Input).
Hypothesis execute_good : forall v ctx, match (execute v input ctx).1.1 with Ok e => good_executed e | Err e => good_failure e end.
Hypothesis convert_good : forall v, match convert_to_block v input with Ok b => good b | Err e => good_failure e end.

Lemma as_block_keeps : keeps engine_inv (as_block convert_to_block input) good good_failure.
Proof. eapply keeps_bind; [by apply (keeps_gets _ _ any)|]. intros v _. apply keeps_reads. intros s _. apply convert_good. Qed.

Lemma fail_with_block_keeps {A} e : keeps engine_inv (fail_with_block convert_to_block input e) (any : A -> Prop) good_failure.
Proof. eapply keeps_bind; [apply as_block_keeps|]. intros b Hb. by apply keeps_throw. Qed.

Lemma run_execute_keeps : keeps engine_inv (run_execute execute input) good_executed good_failure.
Proof.
  intros s Hs. unfold wp, run_execute.
  pose proof (execute_good (payload_validator s) (mkTreeCtx _ _ (state s) (h_persistence_state s) (memory s))) as He.
  destruct (execute _ _ _) as [[r v] looked_up]. eexists _, _. split_and!; [reflexivity| |done].
  apply inv_set_invalid; [by apply inv_validator|]. simpl. generalize (inv_cache s Hs). generalize (es_invalid (state s)).
  clear He. induction looked_up as [|h l IH]; intros c Hc; [done|]. simpl. apply IH. by apply (InvalidHeaders.get_ok ranked_entry).
Qed.

Lemma insert_block_or_payload_keeps id_ : keeps engine_inv (insert_block_or_payload execute convert_to_block fuel id_ input) any good_failure.
Proof.
  eapply keeps_bind; [eapply keeps_attempt, lookup_header_keeps|]. intros [[hd|]|e] _; [| |apply fail_with_block_keeps].
  { eapply keeps_bind; [apply as_block_keeps|intros; fine]. }
  eapply keeps_bind; [eapply keeps_attempt, state_provider_builder_keeps|]. intros [[b|]|e] _; [| |apply fail_with_block_keeps].
  - eapply keeps_bind; [eapply keeps_attempt, is_fork_keeps|]. intros [fork|e] _; [|apply fail_with_block_keeps].
    eapply keeps_bind; [apply run_execute_keeps|]. intros e He.
    eapply keeps_bind; [apply (keeps_modify _ _ any)|]; [intros s Hs; by apply insert_executed_inv|done|]. intros _ _.
    eapply keeps_bind; [apply emit_keeps|]. intros. fine.
  - eapply keeps_bind; [apply as_block_keeps|]. intros b Hb. eapply keeps_bind; [apply (keeps_fueled _ _ any)|].
    { intros s Hs. destruct (lowest_total _ (block_parent_hash b) (inv_buffer s Hs)) as (r & -> & _). by eexists. }
    intros a _. eapply keeps_bind; [apply (keeps_modify _ _ any)|]; [intros s Hs; by apply buffer_insert_inv|done|]. intros _ _.
    eapply keeps_bind; [by apply (keeps_gets _ _ any)|]. intros. fine.
Qed.
End insert.

Lemma insert_payload_keeps p : good_payload p -> keeps engine_inv (insert_payload fuel p) any good_failure.
Proof.
  intros Hp. apply insert_block_or_payload_keeps.
  - intros v ctx. pose proof (payload_executed v p ctx) as He. destruct (validate_payload v p ctx).1.1 as [e|[e|e]]; [| |done]; exact (Hp v _ He).
  - intros v. pose proof (Hp v) as Hv. by destruct (ensure_well_formed_payload v p); [apply Hv|].
Qed.

Lemma insert_block_keeps b : good b -> keeps engine_inv (insert_block fuel b) any good_failure.
Proof.
  intros Hb. apply insert_block_or_payload_keeps; [|done].
  intros v ctx. pose proof (block_executed v b ctx) as He. unfold good_executed, good_failure.
  destruct (validator_validate_block v b ctx).1.1 as [e|[e|e]]; [by rewrite He|by rewrite He|done].
Qed.

Lemma connect_child_keeps b : good b -> Keeps (connect_child fuel b) any.
Proof.
  intros Hb. eapply keeps_bind; [by eapply keeps_attempt, insert_block_keeps|]. intros [r|[e|e]] Hr; [| |fine].
  - eapply keeps_bind; [by apply (keeps_gets _ _ any)|]. intros s _. destruct (_ && _); [|fine]. apply fatal_keeps, make_canonical_keeps.
  - eapply keeps_bind; [by apply on_insert_block_error_keeps|]. intros. fine.
Qed.

Lemma connect_loop_keeps l : Forall good l -> Keeps (connect_loop fuel l) any.
Proof.
  induction 1 as [|b l Hb _ IH]; simpl; [fine|]. eapply keeps_bind; [by apply connect_child_keeps|]. by intros.
Qed.

Lemma take_buffered_keeps {E} h : keeps engine_inv (take_buffered h) (Forall good) (any : E -> Prop).
Proof.
  intros s Hs. destruct (inv_buffer s Hs) as [Hok Hg].
  destruct (Buffer.remove_with_children_ok (es_buffer (state s)) h Hok) as (b' & removed & He & Hok' & Ht & _).
  unfold wp, take_buffered. rewrite He. eexists _, _. split_and!; [reflexivity|apply inv_set_buffer; [done|split; [done|]]|].
  - intros k x Hx. apply (Hg k). by apply Ht in Hx as [? _].
  - apply Forall_forall. intros x Hx. destruct Ht as (_ & Ht & _). apply Ht in Hx as [? _]. eauto.
Qed.

Lemma try_connect_keeps nh : Keeps (try_connect_buffered_blocks fuel nh) any.
Proof. kbind @take_buffered_keeps. intros l Hl. by apply connect_loop_keeps. Qed.

(** *** Payloads *)

Lemma try_insert_payload_keeps p : good_payload p -> Keeps (try_insert_payload fuel p) any.
Proof.
  intros Hp. eapply keeps_bind; [by eapply keeps_attempt, insert_payload_keeps|].
  intros [[[|h m]|[|h m]]|[e|e]] Hr; try fine.
  - kbind @try_connect_keeps. intros. fine.
  - by apply on_insert_block_error_keeps.
  - apply fatal_keeps, on_new_payload_error_keeps.
Qed.

Lemma try_buffer_payload_keeps p : good_payload p -> Keeps (try_buffer_payload fuel p) any.
Proof.
  intros Hp. eapply keeps_bind; [by apply (keeps_gets _ _ any)|]. intros v _.
  destruct (ensure_well_formed_payload v p) as [b|e] eqn:E; [|apply fatal_keeps, on_new_payload_error_keeps].
  pose proof (Hp v b E) as Hb. eapply keeps_bind; [eapply (keeps_attempt _ _ any (fun e => good (ibe_block e)))|].
  - unfold buffer_block. destruct (validate_block b); [|by apply keeps_throw].
    apply keeps_modify; [intros s Hs; by apply buffer_insert_inv|done].
  - intros [[]|e] He; [fine|by apply on_insert_block_error_keeps].
Qed.

Lemma on_new_payload_keeps p : good_payload p -> Keeps (on_new_payload fuel p) any.
Proof.
  intros Hp. kbind @emit_keeps. intros _ _. kbind @find_invalid_ancestor_keeps. intros [a|] Ha.
  - eapply keeps_bind; [apply handle_invalid_keeps; auto|]. intros. fine.
  - eapply keeps_bind; [by apply (keeps_gets _ _ any)|]. intros idle _.
    eapply keeps_bind; [|intros st _; by apply keeps_gets]. instantiate (1 := any).
    destruct idle; [by apply try_insert_payload_keeps|by apply try_buffer_payload_keeps].
Qed.

(** *** Forkchoice updates *)

Lemma finalized_keeps h : keeps engine_inv (update_finalized_block h) any (any : OnForkChoiceUpdated -> Prop).
Proof.
  intros s Hs. unfold wp, update_finalized_block. destruct (_ =? _); [by eexists _, _|].
  destruct (find_canonical_header s h) as [[hd|]|]; [|by eexists _, _..]. case_bool_decide; [by eexists _, _|].
  eexists _, _. split; [reflexivity|]. split; [|done]. by apply inv_info; [apply inv_persistence|].
Qed.

Lemma safe_keeps h : keeps engine_inv (update_safe_block h) any (any : OnForkChoiceUpdated -> Prop).
Proof.
  intros s Hs. unfold wp, update_safe_block. destruct (_ =? _); [by eexists _, _|].
  destruct (find_canonical_header s h) as [[hd|]|]; [|by eexists _, _..]. case_bool_decide; [by eexists _, _|].
  eexists _, _. split; [reflexivity|]. split; [|done]. by apply inv_info; [apply inv_persistence|].
Qed.

Lemma attributes_keeps {E} a hd st v : keeps engine_inv (process_payload_attributes a hd st v) any (any : E -> Prop).
Proof.
  intros s Hs. unfold wp, process_payload_attributes. destruct (validate_payload_attributes_against_header _ _ _); [|by eexists _, _].
  destruct (builder_attributes_try_new _ _ _); eexists _, _; (split; [reflexivity|]); split; auto with engine; done.
Qed.

Lemma finish_update_keeps attrs tip st v : Keeps tip any -> Keeps (finish_update attrs tip st v) any.
Proof.
  intros Htip. eapply keeps_bind.
  { eapply (keeps_attempt _ _ any any), keeps_bind; [apply finalized_keeps|]. intros _ _. apply safe_keeps. }
  intros [u|o] _; [|fine]. destruct attrs as [a|]; [|fine]. eapply keeps_bind; [exact Htip|]. intros hd _.
  kbind @attributes_keeps. intros. fine.
Qed.

Lemma canonical_tip_keeps h : Keeps (canonical_tip h) any.
Proof.
  eapply keeps_bind; [by apply (keeps_gets _ _ any)|]. intros x _. kbind @lookup_header_keeps. intros [hd|] _; fine.
Qed.

Lemma pre_validate_keeps st : Keeps (pre_validate_forkchoice_update fuel st) any.
Proof.
  unfold pre_validate_forkchoice_update. destruct (_ =? _); [fine|]. kbind @lowest_keeps. intros x _.
  kbind @check_invalid_ancestor_keeps. intros [p|] _; [fine|]. eapply keeps_bind; [by apply (keeps_gets _ _ any)|]. intros. fine.
Qed.

(** The head may be unwound only if the configuration allows it. *)
Definition unwinding s : Prop := engine_inv s /\ allow_unwind_canonical_header (h_config s) = true.

Lemma unwinding_tree s t : unwinding s -> tree_inv t -> unwinding (set_tree s t).
Proof. intros [[] Ha] Ht. split; [constructor; simpl; auto; congruence|done]. Qed.
Lemma unwinding_memory s m : unwinding s -> unwinding (set_memory s m).
Proof. intros [[] Ha]. split; [constructor; simpl; auto; congruence|done]. Qed.

Lemma update_latest_keeps hd : keeps unwinding (update_latest_block_to_canonical_ancestor hd) any any.
Proof.
  eapply keeps_bind; [by apply (keeps_gets _ _ any)|]. intros n _.
  eapply keeps_bind; [apply (keeps_modify _ _ any); [|done]|].
  { intros s Hs. apply unwinding_tree; [done|]. apply tree_set_head, Hs. }
  intros _ _. destruct (_ <? _).
  - eapply keeps_bind; [by apply (keeps_gets _ _ any)|]. intros old _.
    eapply keeps_bind; [apply (keeps_reads _ _ any)|]; [intros s _; by destruct (canonical_block_by_hash _ _)|].
    intros [b|] _; (apply keeps_modify; [|done]); intros s Hs; repeat apply unwinding_memory; done.
  - eapply keeps_bind; [apply (keeps_modify _ _ any); [|done]|]; [intros s Hs; by apply unwinding_memory|]. intros _ _.
    eapply keeps_bind; [by apply (keeps_gets _ _ any)|]. intros [x|] _; [fine|].
    eapply keeps_bind; [apply (keeps_reads _ _ any)|]; [intros s _; by destruct (canonical_block_by_hash _ _)|].
    intros [b|] _; [|fine]. apply keeps_modify; [|done]. intros s Hs. by apply unwinding_memory.
Qed.

Lemma update_to_canonical_keeps hd st attrs v : Keeps (update_to_canonical hd st attrs v) any.
Proof.
  apply keeps_self. intros s Hs. destruct (_ || _); [|by apply (keeps_ret engine_inv)].
  destruct attrs as [a|].
  { eapply (keeps_bind engine_inv); [apply attributes_keeps| |done]. intros. fine. }
  destruct (allow_unwind_canonical_header (h_config s)) eqn:Ha.
  - apply wp_bind. eapply wp_mono; [by apply update_latest_keeps|]. intros [u|e] s' [[Hs' _] _]; [|done]. by apply (keeps_ret engine_inv).
  - eapply (keeps_bind engine_inv); [by apply (keeps_ret _ _ any)| |done]. intros. fine.
Qed.

Lemma download_missing_keeps st : Keeps (download_missing st) any.
Proof. eapply keeps_bind; [by apply (keeps_gets _ _ any)|]. intros x _. kbind @lowest_keeps. intros. fine. Qed.

Lemma on_forkchoice_updated_keeps now st attrs v : Keeps (on_forkchoice_updated fuel now st attrs v) any.
Proof.
  eapply keeps_bind; [apply (keeps_modify _ _ any); [|done]|]; [intros s Hs; by apply inv_info|]. intros _ _.
  kbind @pre_validate_keeps. intros [o|] _; [fine|]. eapply keeps_bind; [by apply (keeps_gets _ _ any)|]. intros s _.
  destruct (_ =? _); [apply finish_update_keeps, canonical_tip_keeps|].
  assert (Keeps (chain_update <-! new_head fuel (head_block_hash st);
    match chain_update with
    | Some chain_update => tip <-! fueled (fun _ => chain_tip chain_update); on_chain_update chain_update ;!
                           finish_update attrs (ret (sealed_header tip)) st v
    | None => download_missing st
    end) any) as Hnew.
  { kbind @new_head_keeps. intros [c|] Hc; [|apply download_missing_keeps]. specialize (Hc c eq_refl).
    eapply keeps_bind; [apply (keeps_fueled _ _ any)|].
    { intros s' Hs'. destruct (chain_update_ok s' c Hs' Hc) as (_ & tip & -> & _). by exists tip. }
    intros tip _. eapply keeps_bind; [by apply chain_update_keeps|]. intros _ _. apply finish_update_keeps. fine. }
  destruct (find_canonical_header s _) as [[hd|]|]; [apply update_to_canonical_keeps|exact Hnew..].
Qed.

(** *** Downloaded blocks and backfill *)

Lemma on_downloaded_block_keeps b : good b -> Keeps (on_downloaded_block fuel b) any.
Proof.
  intros Hb. kbind @lowest_keeps. intros x Hx. eapply keeps_bind; [by apply fatal_keeps, check_invalid_with_head_keeps|].
  intros [p|] _; [fine|]. eapply keeps_bind; [by apply (keeps_gets _ _ any)|]. intros [|] _; [|fine].
  eapply keeps_bind; [by eapply keeps_attempt, insert_block_keeps|]. intros [[[|h m]|[|h m]]|[e|e]] Hr; try fine.
  - eapply keeps_bind; [by apply (keeps_gets _ _ any)|]. intros [|] _; [fine|]. kbind @try_connect_keeps. intros. fine.
  - by apply keeps_gets.
  - eapply keeps_bind; [by apply on_insert_block_error_keeps|]. intros. fine.
Qed.

Lemma downloaded_loop_keeps l : Forall good l -> Keeps (downloaded_loop fuel l) any.
Proof.
  induction 1 as [|b l Hb _ IH]; simpl; [fine|]. eapply keeps_bind; [by apply on_downloaded_block_keeps|]. intros [e|] _; [|done].
  eapply keeps_bind; [apply fatal_keeps, on_tree_event_keeps|]. intros _ _. destruct (tree_event_is_backfill e); [fine|done].
Qed.

Lemma on_downloaded_keeps l : Forall good l -> Keeps (on_downloaded fuel l) any.
Proof.
  intros Hl. unfold on_downloaded. case_bool_decide; [fine|]. eapply keeps_bind; [by apply (keeps_gets _ _ any)|]. intros n _.
  eapply keeps_bind; [by apply downloaded_loop_keeps, Forall_take|]. intros [|] _; [fine|].
  eapply keeps_bind; [instantiate (1 := any)|intros; fine]. destruct (drop n l); [fine|].
  apply keeps_modify; [intros s Hs; by apply inv_incoming|done].
Qed.

Lemma housekeeping_inv s unwind nh : engine_inv s -> db_block_hash (db s) (nh_number nh) = Ok (Some (nh_hash nh)) ->
  exists s', backfill_housekeeping s unwind nh = Some s' /\ engine_inv s'.
Proof.
  intros Hs Hd. unfold backfill_housekeeping.
  assert (exists t, (if unwind then Some (Tree.reset (es_tree (state s)) nh)
    else remove_until epoch_slots (es_tree (state s)) nh (nh_hash (last_persisted_block (h_persistence_state s))) (Some nh)) = Some t /\ tree_inv t) as (t & -> & Ht).
  { destruct unwind.
    - eexists. split; [reflexivity|]. split; [apply tree_new_ok|..]; intros h e; simpl; by rewrite lookup_empty.
    - destruct (tree_remove_until (es_tree (state s)) nh (nh_hash (last_persisted_block (h_persistence_state s))) (Some nh) (inv_tree s Hs))
        as (t & -> & Ht & _). eauto. }
  cbn [mbind option_bind]. destruct (inv_buffer s Hs) as [Hok Hg].
  destruct (Buffer.remove_old_ok (es_buffer (state (set_tree s t))) (nh_number nh) Hok) as (b' & hs & -> & Hok' & _ & _ & Hb').
  cbn [mbind option_bind]. destruct (db_header_found _ (inv_db s Hs) _ _ Hd) as [hd Hhd]. cbn [db set_in_memory set_memory set_buffer set_state set_tree].
  rewrite Hhd. eexists. split; [reflexivity|]. destruct Hs. constructor; simpl; auto.
  - by apply tree_set_head.
  - split; [done|]. intros k x Hx. apply (Hg k). by apply Hb' in Hx as [? _].
Qed.

Definition good_ctrl (c : ControlFlow) : Prop :=
  match c with Unwind _ bad_block => ranked_entry (nh_hash (bwp_block bad_block)) bad_block | _ => True end.

Lemma after_backfill_keeps c : Keeps (after_backfill fuel c) any.
Proof.
  eapply keeps_bind; [by apply (keeps_gets _ _ any)|]. intros s _. destruct (sync_target_state _) as [st|]; [|fine].
  destruct (_ =? _); [fine|]. destruct (next_backfill_target s c st); [apply emit_keeps|apply try_connect_keeps].
Qed.

Lemma on_backfill_finished_keeps c : good_ctrl c -> Keeps (on_backfill_sync_finished fuel c) any.
Proof.
  intros Hc. eapply keeps_bind; [apply (keeps_modify _ _ any); [|done]|]; [intros s Hs; by apply inv_backfill|]. intros _ _.
  eapply keeps_bind; [instantiate (1 := any)|].
  { destruct c as [t b|n|n]; [|fine..]. eapply keeps_bind; [by apply insert_invalid_keeps|]. intros. fine. }
  intros [n|] _; [|fine]. apply keeps_reads_bind. intros s Hs. destruct (db_block_hash (db s) n) as [[h|]|e] eqn:E; [| |done].
  - apply wp_bind. destruct (housekeeping_inv s (is_unwind c) (mkNumHash n h) Hs E) as (s' & He & Hs').
    eexists (Ok tt), s'. split; [by rewrite He|]. by apply after_backfill_keeps.
  - by apply (keeps_ret engine_inv).
Qed.

(** *** Persistence *)

Lemma remove_blocks_inv s n : engine_inv s -> engine_inv (remove_blocks s n).
Proof. intros Hs. unfold remove_blocks. destruct (_ <? _); [|done]. by apply inv_persisting; [apply inv_persistence|]. Qed.

Lemma remove_before_keeps nh f : Keeps (remove_before nh f) any.
Proof.
  eapply keeps_bind; [instantiate (1 := any)|].
  { destruct f as [h|]; [|fine]. eapply keeps_bind; [apply (keeps_reads _ _ any)|intros; fine]. intros s _. by destruct (p_block_number _ _). }
  intros f' _ s Hs. destruct (tree_remove_until (es_tree (state s)) nh (nh_hash (last_persisted_block (h_persistence_state s))) f' (inv_tree s Hs))
    as (t & He & Ht & Hh). eexists (Ok tt), _. split; [by rewrite He|]. split; [|done]. by apply inv_set_tree.
Qed.

Lemma disk_reorg_keeps : Keeps (disk_reorg fuel) any.
Proof.
  apply keeps_fueled_reads. intros s Hs. destruct (core_ranked s Hs) as (Ht & Hh & _).
  destruct (find_disk_reorg_total rank (core s) fuel Ht Hh rank_fuel) as ([r|e] & ->); by eexists.
Qed.

Lemma on_new_persisted_keeps : Keeps (on_new_persisted_block fuel) any.
Proof.
  kbind @disk_reorg_keeps. intros [n|] _.
  { apply keeps_modify; [intros s Hs; by apply remove_blocks_inv|done]. }
  eapply keeps_bind; [by apply (keeps_gets _ _ any)|]. intros s _. kbind @remove_before_keeps. intros _ _.
  apply keeps_modify; [intros s' Hs; by apply inv_in_memory|done].
Qed.

Lemma poll_persistence_keeps recv : Keeps (poll_persistence fuel recv) any.
Proof.
  apply keeps_state. intros s Hs. unfold poll_persistence, bind at 1, gets.
  destruct (rx (h_persistence_state s)) as [[r a]|] eqn:E; [|by eexists _, _].
  assert (forall p, rx p = None -> engine_inv (set_persistence_state s p)) as Hnone.
  { intros p Hp. apply inv_persisting; [done|]. intros _. unfold is_saving, current_action. by rewrite Hp. }
  destruct (recv r) as [[nh|]| |].
  - apply wp_bind. eexists (Ok tt), _. split; [reflexivity|]. refine (keeps_bind engine_inv _ _ any any any _ _ _ (Hnone (mkPersistence _ None) eq_refl)).
    + apply keeps_modify; [|done]. intros s' Hs'. by apply inv_persisting.
    + intros _ _. eapply keeps_bind; [eapply keeps_convert; [apply on_new_persisted_keeps|done]|]. intros. fine.
  - eexists _, _. split; [reflexivity|]. split; [by apply Hnone|done].
  - eexists _, _. split; [reflexivity|]. split; [by apply Hnone|done].
  - eexists _, _. split; [reflexivity|]. split; [|done]. destruct Hs. constructor; simpl; auto.
    intros Hb. specialize (inv_exclusive0 Hb). unfold is_saving, current_action in *. by rewrite E in *.
Qed.

Lemma compute_trie_input_keeps k h i : Keeps (compute_trie_input k h i) any.
Proof.
  eapply keeps_bind; [apply (keeps_reads _ _ any)|]; [intros s _; by destruct (db_best_block_number _)|]. intros n _.
  eapply keeps_bind; [apply (keeps_fueled _ _ any)|].
  { intros s Hs. destruct (chain_by_hash_total rank (es_tree (state s)) h (t_rank _ (inv_tree s Hs))) as (c & ->). by exists c. }
  intros c _. destruct (trie_anchor k n h c) as [x bs]. eapply keeps_bind; [apply (keeps_reads _ _ (fun r => r = None -> exists h, x = ByHash h))|].
  { intros s Hs. destruct (db_convert_hash_or_number (db s) x) as [r|] eqn:E; [|done]. intros ->. destruct x as [h'|m]; [eauto|].
    by destruct (db_number_found _ (inv_db s Hs) m). }
  intros [m|] Hm; [|destruct (Hm eq_refl) as [h' ->]; fine].
  eapply keeps_bind; [instantiate (1 := any)|intros; fine]. destruct (_ =? _); [fine|]. apply keeps_reads. intros s _. by destruct (db_from_reverts _ _).
Qed.

Lemma compute_trie_updates_keeps b : Keeps (compute_trie_updates b) any.
Proof.
  unfold compute_trie_updates. kbind @state_provider_builder_keeps. intros [x|] _; [|fine].
  eapply keeps_bind; [eapply (keeps_convert _ _ _ any any); [|done]|].
  { eapply keeps_bind; [apply (keeps_reads _ _ any)|intros; fine]. intros s _. by destruct (db_state_by_block_hash _ _). }
  intros p _. eapply keeps_bind; [apply (keeps_fueled _ _ any)|].
  { intros s Hs. destruct (persisting_kind_total s (block_with_parent b) Hs) as (k & ->). by exists k. }
  intros k _. eapply keeps_bind; [eapply keeps_convert; [apply compute_trie_input_keeps|done]|]. intros i _.
  eapply (keeps_convert _ _ _ any any); [apply keeps_reads|done]. intros s _. by destruct (db_state_root_with_updates _ _ _ _).
Qed.

(** Computing only reads. *)
Lemma compute_trie_updates_read (P : Handler -> Prop) b : preserves P (compute_trie_updates b).
Proof.
  unfold compute_trie_updates, state_provider_builder, build_provider, compute_trie_input.
  repeat first [apply preserves_bind; intros| apply preserves_convert | progress auto with preserves | case_match ].
Qed.

(** A property that is not about trie updates. *)
Lemma with_trie_preserves (P : Handler -> Prop) b :
  (forall s u, P s -> P (set_tree s (set_trie_updates (es_tree (state s)) (block_hash b) u))) -> preserves P (with_trie_updates b).
Proof.
  intros HP. unfold with_trie_updates. destruct (trie b); [auto with preserves|]. apply preserves_bind; [apply compute_trie_updates_read|].
  intros u. apply preserves_bind; [|auto with preserves]. intros s r s' (x & _ & [= _ <-])%bind_Some. apply HP.
Qed.

Lemma all_with_trie_preserves (P : Handler -> Prop) bs :
  (forall s h u, P s -> P (set_tree s (set_trie_updates (es_tree (state s)) h u))) -> preserves P (all_with_trie_updates bs).
Proof. intros HP. induction bs; simpl; auto using with_trie_preserves with preserves. Qed.

(** The block is in the tree. *)
Definition in_tree s (b : Executed) : Prop := is_Some (blocks_by_hash (es_tree (state s)) !! block_hash b).

Lemma in_tree_set_trie s b h u : in_tree s b -> in_tree (set_tree s (set_trie_updates (es_tree (state s)) h u)) b.
Proof. unfold in_tree. simpl. by rewrite lookup_alter_is_Some. Qed.

Lemma with_trie_updates_keeps b : keeps (fun s => engine_inv s /\ in_tree s b) (with_trie_updates b) any any.
Proof.
  unfold with_trie_updates. destruct (trie b); [fine|].
  eapply keeps_bind; [apply keeps_and; [apply compute_trie_updates_keeps|apply compute_trie_updates_read]|].
  intros u _. eapply (keeps_bind _ _ _ any); [|intros; fine]. intros s [Hs [e He]]. exists (Ok tt). eexists. split.
  { unfold store_trie_updates, executed_block_by_hash. rewrite He. reflexivity. }
  split; [|done]. split; [|apply in_tree_set_trie; by eexists]. apply inv_set_tree; [done|apply tree_set_trie, Hs|done].
Qed.

Lemma all_with_trie_keeps bs : keeps (fun s => engine_inv s /\ Forall (in_tree s) bs) (all_with_trie_updates bs) any any.
Proof.
  induction bs as [|b bs IH]; simpl; [fine|]. intros s [Hs [Hb Hbs]%Forall_cons]. apply wp_bind.
  assert (preserves (fun s => Forall (in_tree s) (b :: bs)) (with_trie_updates b)) as Hp.
  { apply with_trie_preserves. intros s' u Hs'. eapply Forall_impl; [exact Hs'|]. intros x. apply in_tree_set_trie. }
  destruct (with_trie_updates_keeps b s (conj Hs Hb)) as (r & s1 & He & [Hs1 _] & _). exists r, s1. split; [done|].
  assert (Forall (in_tree s1) (b :: bs)) as Hin by (by eapply Hp, Forall_cons).
  destruct r as [b'|e]; [|done]. apply wp_bind. destruct (IH s1) as (r & s2 & He2 & [Hs2 _] & _); [by apply Forall_cons in Hin as [_ ?]|].
  assert (Forall (in_tree s2) (b :: bs)) as Hin2.
  { eapply (all_with_trie_preserves (fun s => Forall (in_tree s) (b :: bs))); [|exact He2|exact Hin].
    intros s' h u Hs'. eapply Forall_impl; [exact Hs'|]. intros x. apply in_tree_set_trie. }
  exists r, s2. split; [done|]. destruct r as [bs'|e]; [|done]. by eexists _, _.
Qed.

Lemma blocks_to_persist_in_tree s bs : engine_inv s -> blocks_to_persist (core s) = Some bs -> Forall (in_tree s) bs.
Proof.
  intros Hs Hbs. destruct (inv_tree s Hs) as [(Hok & _) Hrk _]. destruct (blocks_to_persist_total rank (core s) Hrk) as (bs' & Hb & Hin).
  rewrite Hbs in Hb. injection Hb as <-. eapply Forall_impl; [exact Hin|]. intros e (h & He). exists e. by rewrite (Hok h e He).
Qed.

Lemma get_blocks_keeps : Keeps get_canonical_blocks_to_persist any.
Proof.
  intros s Hs. apply wp_bind. destruct (blocks_to_persist_total rank (core s) (t_rank _ (inv_tree s Hs))) as (bs & Hbs & _).
  exists (Ok bs), s. split; [unfold fueled; by rewrite Hbs|]. eapply wp_mono; [apply all_with_trie_keeps; split; [done|by eapply blocks_to_persist_in_tree]|].
  by intros r s' [[? _] ?].
Qed.

Definition at_rest s : Prop := h_backfill_sync_state s = Idle.

Lemma all_with_trie_at_rest bs : preserves at_rest (all_with_trie_updates bs).
Proof. by apply all_with_trie_preserves. Qed.

Lemma start_persistence_keeps : Keeps (start_persistence fuel) any.
Proof.
  apply keeps_self. intros s Hs. destruct (in_progress _); [by apply (keeps_ret engine_inv)|].
  destruct (should_persist (core s)) eqn:Hp.
  - assert (at_rest s) as Hr by (unfold should_persist in Hp; simpl in Hp; unfold at_rest; by destruct (h_backfill_sync_state s)).
    eapply wp_mono; [apply (keeps_bind (fun s => engine_inv s /\ at_rest s) _ _ any any any); [| |done]|].
    + apply keeps_and; [eapply keeps_convert; [apply disk_reorg_keeps|done]|unfold disk_reorg; auto with preserves].
    + intros [n|] _.
      * apply keeps_and; [apply keeps_modify; [intros s' Hs'; by apply remove_blocks_inv|done]|]. apply preserves_modify.
        intros s' Hs'. unfold remove_blocks. by destruct (_ <? _).
      * eapply keeps_bind; [apply keeps_and; [apply get_blocks_keeps|]|].
        -- unfold get_canonical_blocks_to_persist. auto using all_with_trie_at_rest with preserves.
        -- intros bs _. apply keeps_modify; [|done]. intros s' [Hs' Hr']. split; [|by destruct bs].
           destruct bs as [|b bs]; [done|]. apply inv_persisting; [by apply inv_persistence|]. done.
    + intros r s' [[? _] ?]. by split.
  - eapply (keeps_bind engine_inv _ _ any any any); [eapply keeps_convert; [apply disk_reorg_keeps|done]| |done].
    intros [n|] _; [|fine]. apply keeps_modify; [intros s' Hs'; by apply remove_blocks_inv|done].
Qed.

Lemma advance_persistence_keeps recv : Keeps (advance_persistence fuel recv) any.
Proof. kbind @poll_persistence_keeps. intros [|] _; [fine|apply start_persistence_keeps]. Qed.

(** *** Messages *)

(** What the handler may be told: known blocks, and that a backfill started only when it asked for one. *)
Definition good_message s (m : FromEngine) : Prop :=
  match m with
  | Event BackfillSyncStarted => h_backfill_sync_state s <> Idle
  | Event (BackfillSyncFinished c) => good_ctrl c
  | Request (InsertExecutedBlock e) => good_executed e
  | Request (Beacon (NewPayload p)) => good_payload p
  | Request (Beacon (ForkchoiceUpdated _ _ _)) => True
  | DownloadedBlocks blocks => Forall good blocks
  end.

Lemma on_insert_executed_keeps e : good_executed e -> Keeps (on_insert_executed e) any.
Proof.
  intros He. eapply keeps_bind; [by apply (keeps_gets _ _ any)|]. intros s _. destruct (_ <=? _); [fine|].
  eapply keeps_bind; [apply (keeps_modify _ _ any); [|done]|]; [intros s' Hs; by apply insert_executed_inv|]. intros _ _. apply emit_keeps.
Qed.

Lemma on_fcu_message_keeps now st attrs v : Keeps (on_fcu_message fuel now st attrs v) any.
Proof.
  eapply keeps_bind; [eapply keeps_attempt, on_forkchoice_updated_keeps|]. intros o _.
  eapply keeps_bind; [instantiate (1 := any)|intros _ _; apply keeps_modify; [intros s Hs; by apply inv_response|done]].
  destruct o as [o|e]; [|fine]. eapply keeps_bind; [apply (keeps_modify _ _ any); [|done]|]; [intros s Hs; by apply inv_tracker|]. intros _ _.
  kbind @emit_keeps. intros _ _. apply fatal_keeps, on_maybe_tree_event_keeps.
Qed.

Lemma on_payload_message_keeps p : good_payload p -> Keeps (on_payload_message fuel p) any.
Proof.
  intros Hp. eapply keeps_bind; [by eapply keeps_attempt, on_new_payload_keeps|]. intros o _.
  eapply keeps_bind; [apply (keeps_modify _ _ any); [|done]|]; [intros s Hs; by apply inv_response|]. intros _ _.
  apply fatal_keeps, on_maybe_tree_event_keeps.
Qed.

Lemma message_ok now m s : engine_inv s -> good_message s m ->
  wp (on_engine_message fuel now m) (fun _ s' => engine_inv s') s.
Proof.
  intros Hs Hm. assert (forall (m' : M InsertBlockFatalError unit), Keeps m' any -> wp m' (fun _ s' => engine_inv s') s) as Hk.
  { intros m' Hm'. eapply wp_mono; [by apply Hm'|]. by intros r s' [? _]. }
  destruct m as [[c|]|[[p|st attrs v]|e]|bs]; simpl in *.
  - by apply Hk, on_backfill_finished_keeps.
  - exists (Ok tt), (set_backfill s Active). split; [done|]. apply inv_backfill; [done|]. intros _. by apply Hs.
  - by apply Hk, on_payload_message_keeps.
  - by apply Hk, on_fcu_message_keeps.
  - by apply Hk, on_insert_executed_keeps.
  - apply Hk. eapply keeps_bind; [by apply on_downloaded_keeps|]. intros [e|] _; [apply fatal_keeps, on_tree_event_keeps|fine].
Qed.

Lemma round_ok now m recv s : engine_inv s -> (forall m', m = Some m' -> good_message s m') ->
  wp (round fuel now m recv) (fun _ s' => engine_inv s') s.
Proof.
  intros Hs Hm. apply wp_bind.
  assert (forall s', engine_inv s' -> wp (convert FatalAdvance (advance_persistence fuel recv)) (fun _ s' => engine_inv s') s') as Ha.
  { intros s' Hs'. eapply wp_mono; [eapply (keeps_convert _ _ _ any any any); [apply advance_persistence_keeps|done|done]|]. by intros r s'' [? _]. }
  destruct m as [m|]; [|exists (Ok tt), s; split; [done|by apply Ha]].
  destruct (message_ok now m s Hs (Hm m eq_refl)) as ([u|e] & s' & He & Hs'); unfold convert at 1, wp; rewrite He; eexists _, _;
    (split; [reflexivity|]); [by apply Ha|done].
Qed.

End invariant.

End EngineInv.
