(* ===== verification/EngineSample.v ===== *)
(** * A small node

    Concrete types and operations for the handler, to run it: blocks are headers, payloads are blocks, blocks with a hash above 900 are found
    to be invalid when they are executed, and the database is a list of blocks. *)

From S2P Require Import Prelude Ordered EngineBlocks InvalidHeaders TreeState Forkchoice EngineTree EngineClaims.
From S2P Require Import InMemory EngineHandler EngineInv.
Import EngineBlocks SimpleChain.
Local Open Scope reth_scope.

Module EngineSample.
Import Tree Forkchoice Engine InMemory Handler EngineInv.

Definition SRB : Type := EngineClaims.SimpleRB.
#[export] Instance sample_rb : RecoveredBlock SRB := EngineClaims.simple_rb.

#[export] Instance sample_types : NodeTypes := {|
  RB := SRB; Out := unit; HS := unit; T := unit; TrieInput := unit; StateProvider := unit;
  Payload := SRB; PayloadAttributes := bool; BuilderAttributes := Z; V := unit; Instant := Z; PE := unit;
  Lru := InvalidHeaders.ListLru;
|}.

#[export] Instance sample_ops : NodeOps := {|
  node_block := sample_rb; node_payload := recovered_block_trait; node_lru := InvalidHeaders.list_lru; node_order := element_order;
  epoch_slots := 32; input_default := tt; hashed_default := tt; input_append := fun _ _ => tt; input_extend_with_blocks := fun _ _ => tt;
|}.

#[export] Instance sample_consensus : FullConsensus :=
  {| consensus_validate_header := fun _ => Ok tt; consensus_validate_block_pre_execution := fun _ => Ok tt |}.

(** A block of the sample chain. *)
Definition blk (h p n : Z) : SRB := EngineClaims.mkRB (mkSealedHeader h p n 0).
Definition executed (b : SRB) : Executed := mkExecuted (mkExecutedBlock b tt tt) (Present tt).

Definition sample_execute (b : SRB) : result Executed InsertPayloadError * unit * list Z :=
  if 900 <? block_hash b then (Err (BlockFailed (mkInsertBlockError b (Execution (Validation tt)))), tt, [block_hash b])
  else (Ok (executed b), tt, []).

#[export] Instance sample_validator : EngineValidator := {|
  validate_payload_attributes_against_header := fun _ a _ => if (a : bool) then Ok tt else Err tt;
  ensure_well_formed_payload := fun _ p => if block_hash p <=? 0 then Err (Eth (BlockHash 0 (block_hash p))) else Ok p;
  validate_payload := fun _ p _ =>
    if block_hash p <=? 0 then (Err (PayloadFailed (Eth (BlockHash 0 (block_hash p)))), tt, []) else sample_execute p;
  validator_validate_block := fun _ b _ => sample_execute b;
  builder_attributes_try_new := fun h _ _ => Ok h;
|}.

#[export] Instance sample_laws : ValidatorLaws.
Proof.
  split; simpl.
  - intros v p b. destruct (_ <=? _); [done|]. by intros [= <-].
  - intros v p ctx. destruct (_ <=? _); [done|]. unfold sample_execute. by destruct (900 <? _).
  - intros v b ctx. unfold sample_execute. by destruct (900 <? _).
Qed.

Definition find_hash (bs : list SRB) (h : Z) : option SRB := List.find (fun b => block_hash b =? h) bs.
Definition find_number (bs : list SRB) (n : Z) : option SRB := List.find (fun b => block_number b =? n) bs.

(** The database with these blocks, the best one first. *)
Definition sample_db (bs : list SRB) : Database := {|
  db_provider := mkProvider _ _ _ _ (fun h => Ok (sealed_header <$> find_hash bs h)) (fun h => Ok (find_hash bs h)) (fun _ => Ok (Some tt)) (fun _ => tt)
    (fun h => Ok (block_number <$> find_hash bs h));
  db_header := fun h => Ok (sealed_header <$> find_hash bs h);
  db_header_by_hash_or_number := fun h => Ok (sealed_header <$> find_hash bs h);
  db_block_hash := fun n => Ok (block_hash <$> find_number bs n);
  db_sealed_header := fun n => Ok (sealed_header <$> find_number bs n);
  db_best_block_number := Ok (from_option block_number 0 (head bs));
  db_convert_hash_or_number := fun x => match x with ByNumber n => Ok (Some n) | ByHash h => Ok (block_number <$> find_hash bs h) end;
  db_from_reverts := fun _ => Ok tt;
  db_state_by_block_hash := fun _ => Ok tt;
  db_state_root_with_updates := fun _ _ _ => Ok tt;
|}.

(** The canonical chain in memory of a node that starts at a header. *)
Definition memory_at (hd : SealedHeader) : CanonicalInMemoryState := mkMemory InMemory.empty (chain_info_new hd None None) [].

(** Blocks with positive hashes, each above the one of its parent, and below a bound; the header is determined by the hash. *)
Definition parent_of (h : Z) : Z := h / 10.
Definition sample_rank (h : Z) : nat := Z.to_nat (Z.min h 1000).
Definition sample_good (b : SRB) : Prop :=
  0 < block_hash b < 1000 /\ b = blk (block_hash b) (parent_of (block_hash b)) (block_number b) /\
  block_number b = (if block_hash b <? 10 then 1 else if block_hash b <? 100 then 2 else 3).

Lemma sample_rank_fuel h : (sample_rank h < 1001)%nat.
Proof. unfold sample_rank. lia. Qed.

(** Such a block is known by its hash. *)
Lemma sample_good_inv b : sample_good b -> exists h, 0 < h < 1000 /\ block_hash b = h /\
  b = blk h (parent_of h) (if h <? 10 then 1 else if h <? 100 then 2 else 3).
Proof. intros (Hb & He & Hn). exists (block_hash b). split_and!; [apply Hb|apply Hb|done|]. by rewrite <- Hn. Qed.

Lemma sample_good_same b b' : sample_good b -> sample_good b' -> block_hash b = block_hash b' -> b = b'.
Proof. intros (h & _ & Hh & Hb)%sample_good_inv (h' & _ & Hh' & Hb')%sample_good_inv Heq. rewrite Hb, Hb'. replace h' with h by congruence. done. Qed.

Lemma sample_good_rank b : sample_good b -> (sample_rank (block_parent_hash b) < sample_rank (block_hash b))%nat.
Proof.
  intros (h & Hb & _ & ->)%sample_good_inv. unfold block_parent_hash, block_hash, sample_rank, parent_of. simpl.
  pose proof (Z.div_lt h 10). lia.
Qed.

End EngineSample.
