(* ===== verification/EngineSafety.v ===== *)
(** * What the engine tree handler promises

    The states that the handler reaches, and that it always answers. *)

From S2P Require Import Prelude Ordered EngineBlocks BlockBuffer InvalidHeaders TreeState TreeProps Forkchoice.
From S2P Require Import EngineTree InMemory EngineHandler EngineWp EngineOps EngineMsgs EngineLoop EngineInv.
From S2P Require Import EngineSample.
Import EngineBlocks.
Local Open Scope reth_scope.

Module EngineSafety.
Import Tree TreeProps Forkchoice Engine InMemory Handler EngineWp EngineOps EngineMsgs EngineLoop EngineInv.

Section safety.
Context `{!NodeTypes} `{!NodeOps} `{!FullConsensus} `{!EngineValidator} `{!ValidatorLaws}.
Context (rank : Z -> nat) (fuel : nat) (good : RB -> Prop).
Implicit Types (s : Handler).

(** States that are reached from a new handler by rounds of its loop, while other tasks change the database. *)
Inductive reached : Handler -> Prop :=
| reached_spawn d v mem c kind default_header :
    db_ok rank good d ->
    num_hash (ci_canonical_head (info mem)) = current_canonical_head (es_tree (state (spawn_new d v mem c kind default_header))) ->
    reached (spawn_new d v mem c kind default_header)
| reached_round s now m recv r s' :
    reached s -> (forall m', m = Some m' -> good_message rank good s m') ->
    round fuel now m recv s = Some (r, s') -> reached s'
| reached_db s d : reached s -> db_ok rank good d -> reached (set_db s d).

Lemma spawn_inv d v mem c kind default_header :
  db_ok rank good d ->
  num_hash (ci_canonical_head (info mem)) = current_canonical_head (es_tree (state (spawn_new d v mem c kind default_header))) ->
  engine_inv rank good (spawn_new d v mem c kind default_header).
Proof.
  intros Hd Hh. constructor; simpl; auto.
  - split; [apply tree_new_ok|..]; intros h e; simpl; by rewrite lookup_empty.
  - split; [apply Buffer.buffer_new_ok|]. intros h b. simpl. by rewrite lookup_empty.
  - intros h e. unfold InvalidHeaders.new. by rewrite lru_peek_new.
Qed.

Lemma reached_inv :
  (forall h, (rank h < fuel)%nat) ->
  (forall b b', good b -> good b' -> block_hash b = block_hash b' -> b = b') ->
  (forall b, good b -> (rank (block_parent_hash b) < rank (block_hash b))%nat) ->
  forall s, reached s -> engine_inv rank good s.
Proof.
  intros Hf Hsame Hrank. induction 1 as [| s now m recv r s' _ IH Hm Hr | s d _ IH Hd].
  - by apply spawn_inv.
  - destruct (round_ok rank fuel good Hf Hsame Hrank now m recv s IH Hm) as (r1 & s1 & Hr1 & Hi). rewrite Hr in Hr1. by injection Hr1 as _ <-.
  - destruct IH. constructor; simpl; auto.
Qed.

(** C9: whatever payloads, forkchoice updates, downloaded and executed blocks, ends of backfills and answers of the persistence
    task a handler receives, with a database that changes meanwhile: every round of its loop returns, whether it succeeds
    or fails; the maps of the tree and of the buffer agree and the buffer keeps its
    limit; unless heads may be unwound, the tree and the chain in memory have the same head; and no blocks are being saved
    while a backfill is pending or active. *)
Theorem engine_reachable_ok s :
  (forall h, (rank h < fuel)%nat) ->
  (forall b b', good b -> good b' -> block_hash b = block_hash b' -> b = b') ->
  (forall b, good b -> (rank (block_parent_hash b) < rank (block_hash b))%nat) ->
  reached s ->
  tree_ok (es_tree (state s)) /\ Buffer.buffer_ok (es_buffer (state s)) /\
  (allow_unwind_canonical_header (h_config s) = false ->
     num_hash (ci_canonical_head (info (memory s))) = current_canonical_head (es_tree (state s))) /\
  (h_backfill_sync_state s <> Idle -> is_saving (h_persistence_state s) = false) /\
  forall now m recv, (forall m', m = Some m' -> good_message rank good s m') -> exists r s', round fuel now m recv s = Some (r, s') /\ reached s'.
Proof.
  intros Hf Hsame Hrank Hs. pose proof (reached_inv Hf Hsame Hrank s Hs) as Hi.
  split_and!; [apply Hi|apply Hi|apply Hi|apply Hi|]. intros now m recv Hm.
  destruct (round_ok rank fuel good Hf Hsame Hrank now m recv s Hi Hm) as (r & s' & Hr & _). exists r, s'. split; [done|]. by eapply reached_round.
Qed.

End safety.

(** ** Witnesses *)

Import EngineSample.

(** The rounds of a handler that receives messages, while the persistence task does not answer. *)
Definition quiet (n : nat) : TryRecv := RecvIsEmpty.
Definition serve (s : option Handler) (m : FromEngine) : option Handler :=
  s ← s; '(r, s) ← round 1001 0 (Some m) quiet s; match r with Ok _ => Some s | Err _ => None end.

(** A node with block 1 in its database that is given block 11, is told to make it its head, and is given block 111. *)
Definition genesis : SRB := blk 1 0 1.
Definition fresh : Handler :=
  spawn_new (sample_db [genesis]) tt (memory_at (sealed_header genesis)) tree_config_default Ethereum (sealed_header genesis).
Definition payload (h p n : Z) : FromEngine := Request (Beacon (NewPayload (blk h p n))).
Definition head_update (h : Z) : FromEngine := Request (Beacon (ForkchoiceUpdated (mkForkchoiceState h 1 1) None 3)).
Definition sample_messages : list FromEngine := [payload 11 1 2; head_update 11; payload 111 11 3].

Lemma sample_db_ok bs : Forall sample_good bs -> db_ok sample_rank sample_good (sample_db bs).
Proof.
  intros Hbs. rewrite Forall_forall in Hbs.
  assert (forall h b, find_hash bs h = Some b -> sample_good b /\ block_hash b = h) as Hf.
  { intros h b [Hin Hh]%find_some. split; [by apply Hbs, list_elem_of_In|]. by bools. }
  constructor; simpl.
  - intros h hd [= (b & Hb & ->)%fmap_Some]. apply Hf in Hb as [Hg <-]. by apply sample_good_rank.
  - intros h b [= ?]. by apply Hf.
  - done.
  - intros n h [= (b & Hb & _)%fmap_Some]. rewrite Hb. by eexists.
Qed.

Lemma sample_payload_good h : 0 < h < 1000 -> good_payload sample_good (blk h (parent_of h) (if h <? 10 then 1 else if h <? 100 then 2 else 3)).
Proof.
  intros Hh v b. simpl. destruct (_ <=? _); [done|]. intros [= <-]. split_and!; try done; apply Hh.
Qed.

Lemma serve_reached s m s' : serve (Some s) m = Some s' -> reached sample_rank 1001 sample_good s ->
  good_message sample_rank sample_good s m -> reached sample_rank 1001 sample_good s'.
Proof.
  intros Hs Hr Hm. cbn [serve mbind option_bind] in Hs. destruct (round _ _ _ _ s) as [[[u|e] s1]|] eqn:E; simpl in Hs; [|done..].
  injection Hs as <-. eapply reached_round; [done| |exact E]. by intros m' [= <-].
Qed.

Definition served : Handler := default fresh (foldl serve (Some fresh) sample_messages).

Lemma served_reached : reached sample_rank 1001 sample_good served.
Proof.
  assert (reached sample_rank 1001 sample_good fresh) as H0.
  { apply reached_spawn; [|reflexivity]. apply sample_db_ok. constructor; [|done]. done. }
  destruct (serve (Some fresh) (payload 11 1 2)) as [s1|] eqn:E1; [|by vm_compute in E1].
  pose proof (serve_reached _ _ _ E1 H0 (sample_payload_good 11 ltac:(lia))) as H1.
  destruct (serve (Some s1) (head_update 11)) as [s2|] eqn:E2; [|rewrite <- E1 in E2; by vm_compute in E2].
  pose proof (serve_reached _ _ _ E2 H1 I) as H2.
  destruct (serve (Some s2) (payload 111 11 3)) as [s3|] eqn:E3; [|rewrite <- E2, <- E1 in E3; by vm_compute in E3].
  pose proof (serve_reached _ _ _ E3 H2 (sample_payload_good 111 ltac:(lia))) as H3.
  unfold served, sample_messages. cbn [foldl]. by rewrite E1, E2, E3.
Qed.

Lemma engine_reachable_ok_witness :
  tree_ok (es_tree (state served)) /\ current_canonical_head (es_tree (state served)) = mkNumHash 2 11 /\
  length (responses served) = 3%nat.
Proof.
  split; [|by vm_compute].
  apply (@engine_reachable_ok sample_types sample_ops sample_consensus sample_validator sample_laws sample_rank 1001 sample_good served sample_rank_fuel sample_good_same sample_good_rank served_reached).
Defined.

End EngineSafety.
