(* ===== verification/EngineAnswers.v ===== *)
(** * What the answers of the engine tree handler mean

    What is known when a payload or a forkchoice update is answered as valid, invalid or syncing, and what the handler did
    then. *)

From S2P Require Import Prelude Ordered EngineBlocks BlockBuffer BufferClaims InvalidHeaders TreeState TreeProps.
From S2P Require Import TreeClaims Forkchoice EngineTree InMemory EngineHandler EngineWp EngineOps EngineMsgs.
From S2P Require Import EngineLoop EngineInv EngineSample EngineSafety.
Import EngineBlocks.
Local Open Scope reth_scope.

Module EngineAnswers.
Import Tree TreeProps Forkchoice Engine InMemory Handler EngineWp EngineOps EngineMsgs EngineLoop EngineInv.

(** ** What methods leave alone *)

Section frames.
Context `{!NodeTypes} `{!NodeOps} `{!FullConsensus} `{!EngineValidator}.
Implicit Types (s : Handler) (h : Z).

(** Only the cache of invalid headers, the validator and the queues may differ. *)
Definition unchanged s0 s : Prop :=
  db s = db s0 /\ es_tree (state s) = es_tree (state s0) /\ es_tracker (state s) = es_tracker (state s0) /\
  es_buffer (state s) = es_buffer (state s0) /\ memory s = memory s0 /\
  h_backfill_sync_state s = h_backfill_sync_state s0 /\ h_persistence_state s = h_persistence_state s0 /\ h_config s = h_config s0.

#[global] Instance unchanged_preorder : PreOrder unchanged.
Proof. split; [by intros s|]. intros a b c (? & ? & ? & ? & ? & ? & ? & ?) (? & ? & ? & ? & ? & ? & ? & ?). unfold unchanged. split_and!; congruence. Qed.

Lemma unchanged_core s0 s : unchanged s0 s -> core s = core s0.
Proof. intros (Hd & Ht & _ & _ & _ & Hb & Hp & Hc). unfold core. congruence. Qed.

(** No events but those for listeners. *)
Lemma emit_frame {E} (e : ConsensusEngineEvent) s0 : preserves (unchanged s0) (emit (BeaconConsensus e) : M E unit).
Proof. by apply preserves_modify. Qed.

Lemma get_invalid_frame {E} h s0 : preserves (unchanged s0) (get_invalid h : M E _).
Proof. by intros s r s' [= <- <-]. Qed.

#[local] Hint Resolve emit_frame get_invalid_frame : preserves.
Ltac frame := repeat first [solve [auto with preserves] | apply preserves_bind; [|intros ?] | apply preserves_convert
  | apply preserves_modify; by intros | case_match ].

Lemma invalid_loop_frame n s0 : forall c, preserves (unchanged s0) (invalid_ancestors_loop n c).
Proof. induction n as [|n IH]; intros [c|]; simpl; unfold lookup_header; frame. Qed.

Lemma latest_valid_frame n h s0 : preserves (unchanged s0) (latest_valid_hash_for_invalid_payload n h).
Proof. unfold latest_valid_hash_for_invalid_payload, lookup_header. frame. apply invalid_loop_frame. Qed.
#[local] Hint Resolve latest_valid_frame : preserves.

Lemma prepare_invalid_frame n h s0 : preserves (unchanged s0) (prepare_invalid_response n h).
Proof. unfold prepare_invalid_response, lookup_header. frame. Qed.
#[local] Hint Resolve prepare_invalid_frame : preserves.

Lemma on_invalid_frame n b a s0 : preserves (unchanged s0) (on_invalid_new_payload n b a).
Proof. unfold on_invalid_new_payload. frame. Qed.
#[local] Hint Resolve on_invalid_frame : preserves.

Lemma payload_error_frame n e h s0 : preserves (unchanged s0) (on_new_payload_error n e h).
Proof. unfold on_new_payload_error. frame. Qed.
#[local] Hint Resolve payload_error_frame : preserves.

Lemma handle_invalid_frame n p a s0 : preserves (unchanged s0) (handle_invalid_ancestor_payload n p a).
Proof. unfold handle_invalid_ancestor_payload, fatal. frame. Qed.

Lemma block_error_frame n e s0 : preserves (unchanged s0) (on_insert_block_error n e).
Proof. unfold on_insert_block_error, fatal, insert_invalid. frame. Qed.

Lemma find_invalid_frame {E} p s0 : preserves (unchanged s0) (find_invalid_ancestor p : M E _).
Proof. unfold find_invalid_ancestor, lowest_buffered_ancestor_or. frame. Qed.

Lemma is_fork_read n b : read_only (is_fork n b).
Proof. intros s0. unfold is_fork. frame. Qed.

Lemma builder_read {E} (f : ProviderError PE -> E) h : read_only (state_provider_builder f h).
Proof. intros s0. unfold state_provider_builder. frame. Qed.

Lemma lookup_read {E} (f : ProviderError PE -> E) h : read_only (lookup_header f h).
Proof. intros s0. unfold lookup_header. frame. Qed.

(** ** Inserting *)

Section insert.
Context {Input : Type} (execute : V -> Input -> TreeCtx -> result Executed InsertPayloadError * V * list Z)
  (convert_to_block : V -> Input -> result RB InsertPayloadError) (input : Input).

Lemma as_block_same s r s' : as_block convert_to_block input s = Some (r, s') -> s' = s /\ r = convert_to_block (payload_validator s) input.
Proof. by intros [= <- <-]. Qed.

Lemma fail_same {A} e s (r : result A _) s' : fail_with_block convert_to_block input e s = Some (r, s') -> s' = s /\ exists e', r = Err e'.
Proof.
  intros [(b & s1 & [-> _]%as_block_same & [= <- <-])|(e' & [-> _]%as_block_same & ->)]%bind_inv; eauto.
Qed.

(** What inserting does, by its result. *)
Definition insert_effect (id_ : BlockWithParent) s (r : result InsertPayloadOk InsertPayloadError) s' : Prop :=
  match r with
  | Ok (AlreadySeen st) => st = Valid /\ s' = s /\ exists hd, sealed_header_by_hash (core s) (nh_hash (bwp_block id_)) = Ok (Some hd)
  | Ok (Inserted Valid) =>
      exists e, (execute (payload_validator s) input (mkTreeCtx _ _ (state s) (h_persistence_state s) (memory s))).1.1 = Ok e /\
        es_tree (state s') = insert_executed (es_tree (state s)) e /\ db s' = db s /\ h_backfill_sync_state s' = h_backfill_sync_state s
  | Ok (Inserted (Disconnected head missing)) =>
      exists b, convert_to_block (payload_validator s) input = Ok b /\ s' = set_buffer s (Buffer.insert_block (es_buffer (state s)) b) /\
        head = current_canonical_head (es_tree (state s)) /\
        sealed_header_by_hash (core s) (nh_hash (bwp_block id_)) = Ok None /\
        blocks_by_hash (es_tree (state s)) !! bwp_parent id_ = None /\ db_header (db s) (bwp_parent id_) = Ok None
  | Err _ => unchanged s s'
  end.

Lemma run_execute_result s r s' : run_execute execute input s = Some (r, s') ->
  r = (execute (payload_validator s) input (mkTreeCtx _ _ (state s) (h_persistence_state s) (memory s))).1.1 /\ unchanged s s'.
Proof. unfold run_execute. destruct (execute _ _ _) as [[r1 v] l]. by intros [= <- <-]. Qed.

Lemma builder_none {E} (f : ProviderError PE -> E) h s : state_provider_builder f h s = Some (Ok None, s) ->
  blocks_by_hash (es_tree (state s)) !! h = None /\ db_header (db s) h = Ok None.
Proof.
  unfold state_provider_builder, bind, fueled. destruct (chain_by_hash (es_tree (state s)) h) as [[[x bs]|]|] eqn:Ec; simpl; [done| |done].
  unfold chain_by_hash in Ec. destruct (blocks_by_hash (es_tree (state s)) !! h) as [e|]; [by apply bind_Some in Ec as (? & _ & ?)|].
  unfold convert, reads. by destruct (db_header (db s) h) as [[hd|]|].
Qed.

Lemma insert_effect_ok n id_ s r s' :
  insert_block_or_payload execute convert_to_block n id_ input s = Some (r, s') -> insert_effect id_ s r s'.
Proof.
  intros [(known & s1 & Hk & Hr)|(e & Hk & ->)]%bind_inv; [|by apply attempt_inv in Hk as (? & ? & _)].
  apply attempt_inv in Hk as (k & [= ->] & Hk). pose proof (read_only_same _ _ _ _ (lookup_read _ _) Hk) as ->.
  assert (k = sealed_header_by_hash (core s) (nh_hash (bwp_block id_))) as Hk'.
  { unfold lookup_header, convert, reads in Hk. destruct (sealed_header_by_hash _ _); by injection Hk. }
  destruct k as [[hd|]|e]; [..|apply fail_same in Hr as [-> [e' ->]]; done].
  { apply bind_inv in Hr as [(b & s1 & [-> _]%as_block_same & [= <- <-])|(e & [-> _]%as_block_same & ->)]; [|done]. simpl. eauto. }
  apply bind_inv in Hr as [(b & s1 & Hb & Hr)|(e & Hb & ->)]; [|by apply attempt_inv in Hb as (? & ? & _)].
  apply attempt_inv in Hb as (x & [= ->] & Hb). pose proof (read_only_same _ _ _ _ (builder_read _ _) Hb) as ->.
  destruct x as [[b|]|e]; [..|apply fail_same in Hr as [-> [e' ->]]; done].
  - apply bind_inv in Hr as [(f & s1 & Hf & Hr)|(e & Hf & ->)]; [|by apply attempt_inv in Hf as (? & ? & _)].
    apply attempt_inv in Hf as (y & [= ->] & Hf). pose proof (read_only_same _ _ _ _ (is_fork_read _ _) Hf) as ->.
    destruct y as [fork|e]; [|apply fail_same in Hr as [-> [e' ->]]; done].
    apply bind_inv in Hr as [(e & s1 & He & Hr)|(e & He & ->)]; [|by apply run_execute_result in He as [_ ?]].
    apply run_execute_result in He as [He Hu]. injection Hr as <- <-. simpl. exists e. split; [done|].
    destruct Hu as (Hd & Ht & _ & _ & _ & Hb' & _). unfold insert_executed_block, update_pending, emit_event. simpl.
    destruct (_ =? _); simpl; by rewrite Ht.
  - apply bind_inv in Hr as [(x & s1 & [-> Hx]%as_block_same & Hr)|(e & [-> _]%as_block_same & ->)]; [|done].
    apply bind_inv in Hr as [(m & s1 & Hm & Hr)|(e & Hm & ->)].
    + pose proof (preserves_fueled (eq s) _ _ _ _ Hm eq_refl) as <-. injection Hr as <- <-. simpl.
      exists x. destruct (builder_none _ _ _ Hb). split_and!; done.
    + unfold missing_ancestor_of, fueled in Hm. by apply bind_Some in Hm as (? & _ & ?).
Qed.
End insert.

(** ** Growing *)

(** The tree keeps its blocks, and the database is the same. *)
Definition grows s0 s : Prop := blocks_by_hash (es_tree (state s0)) ⊆ blocks_by_hash (es_tree (state s)) /\ db s = db s0.

Lemma unchanged_grows s0 s1 s2 : grows s0 s1 -> unchanged s1 s2 -> grows s0 s2.
Proof. intros [Hs Hd] (Hd' & Ht & _). split; [by rewrite Ht|congruence]. Qed.

(** A method that leaves everything else alone lets the tree grow. *)
Lemma unchanged_preserves {E A} (m : M E A) s0 : (forall s1, preserves (unchanged s1) m) -> preserves (grows s0) m.
Proof. intros Hm s r s' He Hg. eapply unchanged_grows; [exact Hg|]. by apply (Hm s s r s'). Qed.

Lemma chain_update_grows s0 s c s' : on_canonical_chain_update s c = Some s' -> grows s0 s -> grows s0 s'.
Proof.
  unfold on_canonical_chain_update. intros (tip & _ & Hr)%bind_Some [Hs Hd]. injection Hr as <-.
  match goal with |- context [reinsert_chains ?a c] => destruct (reinsert_chains_tree (fun _ => 0%nat) (fun _ => False) ltac:(done) c a) as (t & -> & _ & _ & Hsub) end.
  split; [|done]. simpl in *. by etrans.
Qed.

Lemma make_canonical_grows n h s0 : preserves (grows s0) (make_canonical n h).
Proof.
  apply preserves_bind; [apply preserves_fueled_reads|]. intros [c|]; [|apply preserves_ret].
  intros s r s' He Hg. apply bind_Some in He as (s1 & He & [= _ <-]). by eapply chain_update_grows.
Qed.

Lemma insert_executed_grows (t : TreeState (B := ExecutedBlock RB Out HS) (T := T)) e : blocks_by_hash t ⊆ blocks_by_hash (insert_executed t e).
Proof. rewrite insert_executed_blocks. destruct (blocks_by_hash t !! block_hash e) eqn:E; [done|]. by apply insert_subseteq. Qed.

Lemma insert_grows {Input} (execute : V -> Input -> TreeCtx -> result Executed InsertPayloadError * V * list Z)
  (convert_to_block : V -> Input -> result RB InsertPayloadError) (input : Input) id_ s0 s r s' :
  insert_effect execute convert_to_block input id_ s r s' -> grows s0 s -> grows s0 s'.
Proof.
  destruct r as [[st|[|head m]]|e]; simpl.
  - by intros (_ & -> & _).
  - intros (e & _ & Ht & Hd & _) [Hs Hd0]. split; [|congruence]. rewrite Ht. etrans; [exact Hs|].
    apply insert_executed_grows.
  - intros (b & _ & -> & _). done.
  - intros Hu Hg. by eapply unchanged_grows.
Qed.

Lemma connect_grows n l s0 : preserves (grows s0) (connect_loop n l).
Proof.
  induction l as [|b l IH]; simpl; [apply preserves_ret|]. apply preserves_bind; [|done]. unfold connect_child.
  apply preserves_bind.
  - intros s r s' He. apply attempt_inv in He as (x & _ & He). eapply insert_grows, insert_effect_ok, He.
  - intros [r|[e|e]]; [..|apply preserves_ret].
    + apply preserves_bind; [apply preserves_gets|]. intros s. destruct (_ && _); [|apply preserves_ret].
      apply preserves_convert, make_canonical_grows.
    + apply preserves_bind; [|intros; apply preserves_ret]. apply unchanged_preserves. intros s1. apply block_error_frame.
Qed.

Lemma try_connect_grows n nh s0 : preserves (grows s0) (try_connect_buffered_blocks n nh).
Proof.
  apply preserves_bind; [|intros; apply connect_grows]. intros s r s' He. unfold take_buffered in He.
  apply bind_Some in He as ([b bs] & _ & [= _ <-]). done.
Qed.

Lemma grows_header s0 s h : grows s0 s -> (exists hd, sealed_header_by_hash (core s0) h = Ok (Some hd)) ->
  exists hd, sealed_header_by_hash (core s) h = Ok (Some hd).
Proof.
  intros [Hs Hd] [hd Hh]. unfold sealed_header_by_hash, Tree.sealed_header_by_hash, core in *. simpl in *. rewrite Hd.
  destruct (blocks_by_hash (es_tree (state s0)) !! h) as [e|] eqn:E.
  - rewrite (lookup_weaken _ _ _ _ E Hs). by eexists.
  - destruct (blocks_by_hash (es_tree (state s)) !! h); [by eexists|]. by exists hd.
Qed.

End frames.

(** ** Payloads *)

Section payloads.
Context `{!NodeTypes} `{!NodeOps} `{!FullConsensus} `{!EngineValidator} `{!ValidatorLaws}.
Implicit Types (s : Handler) (h : Z) (n : nat).

(** A method that only answers that something is invalid. *)
Definition rejects {E} (m : M E PayloadStatus) : Prop :=
  (forall s0, preserves (unchanged s0) m) /\ forall s st s', m s = Some (Ok st, s') -> status st = PInvalid.

Lemma rejects_same {E} (m : M E PayloadStatus) s st s' : rejects m -> m s = Some (Ok st, s') -> unchanged s s' /\ status st = PInvalid.
Proof. intros [Hp Hs] Hm. split; [by apply (Hp s s (Ok st) s')|eauto]. Qed.

Lemma on_invalid_rejects n b a : rejects (on_invalid_new_payload n b a).
Proof.
  split; [intros s0; apply on_invalid_frame|]. intros s st s' (st1 & s1 & Hp & K1)%bind_ok_inv.
  injection K1 as <- _. unfold prepare_invalid_response in Hp. apply bind_ok_inv in Hp as (? & ? & _ & Hp).
  apply bind_ok_inv in Hp as (? & ? & _ & Hp). by injection Hp as <-.
Qed.

Lemma payload_error_rejects n e h : rejects (on_new_payload_error n e h).
Proof.
  split; [intros s0; apply payload_error_frame|]. intros s st s' (x & s1 & _ & K1)%bind_ok_inv. by injection K1 as <-.
Qed.

Lemma handle_invalid_rejects n p a : rejects (handle_invalid_ancestor_payload n p a).
Proof.
  split; [intros s0; apply handle_invalid_frame|]. intros s st s' (v & s1 & _ & K1)%bind_ok_inv.
  destruct (ensure_well_formed_payload v p); apply convert_ok_inv in K1.
  - eapply rejects_same; [apply on_invalid_rejects|exact K1].
  - eapply rejects_same; [apply payload_error_rejects|exact K1].
Qed.

Lemma block_error_rejects n e : rejects (on_insert_block_error n e).
Proof.
  split; [intros s0; apply block_error_frame|]. intros s st s'. unfold on_insert_block_error.
  destruct (ensure_validation_error _); [|done]. intros (x & s1 & _ & K1)%bind_ok_inv. by injection K1 as <-.
Qed.

(** The block with this hash is in the tree, or its header is in the database. *)
Definition known_block s h : Prop :=
  is_Some (blocks_by_hash (es_tree (state s)) !! h) \/ exists hd, p_sealed_header_by_hash (db_provider (db s)) h = Ok (Some hd).

(** The block [b] was put into a buffer: all the others stay, but if the buffer was full the block at the front of its queue is gone, and
    that is so even for [b] itself. *)
Definition buffered (self self' : Buffer.BlockBuffer (B := RB)) (b : RB) : Prop := forall h,
  let evicted := Buffer.max_blocks self <= Z.of_nat (length (Buffer.block_queue self)) /\ head (Buffer.block_queue self) = Some h in
  (evicted -> Buffer.blocks self' !! h = None) /\
  (~ evicted -> h = block_hash b -> Buffer.blocks self' !! h = Some b) /\
  (~ evicted -> h <> block_hash b -> Buffer.blocks self' !! h = Buffer.blocks self !! h).

(** What an answer about a payload means. *)
Definition answer_means (p : Payload) s (st : PayloadStatus) s' : Prop :=
  match status st with
  | PValid =>
      h_backfill_sync_state s = Idle /\ latest_valid_hash st = Some (block_hash p) /\ grows s s' /\ known_block s' (block_hash p)
  | PSyncing =>
      latest_valid_hash st = None /\ es_tree (state s') = es_tree (state s) /\ memory s' = memory s /\
      (exists b v, ensure_well_formed_payload v p = Ok b /\ block_hash b = block_hash p /\ buffered (es_buffer (state s)) (es_buffer (state s')) b) /\
      (h_backfill_sync_state s = Idle ->
         blocks_by_hash (es_tree (state s)) !! block_hash p = None /\ p_sealed_header_by_hash (db_provider (db s)) (block_hash p) = Ok None /\
         blocks_by_hash (es_tree (state s)) !! block_parent_hash p = None /\ db_header (db s) (block_parent_hash p) = Ok None)
  | PInvalid => unchanged s s'
  | PAccepted => False
  end.

Lemma known_header s h hd : sealed_header_by_hash (core s) h = Ok (Some hd) -> known_block s h.
Proof.
  unfold sealed_header_by_hash, Tree.sealed_header_by_hash, known_block. simpl. destruct (blocks_by_hash _ !! h); intros Hh; [left; by eexists|right; by exists hd].
Qed.

Lemma unknown_header s h : sealed_header_by_hash (core s) h = Ok None ->
  blocks_by_hash (es_tree (state s)) !! h = None /\ p_sealed_header_by_hash (db_provider (db s)) h = Ok None.
Proof. unfold sealed_header_by_hash, Tree.sealed_header_by_hash. simpl. by destruct (blocks_by_hash _ !! h). Qed.

Lemma insert_buffered (self : Buffer.BlockBuffer (B := RB)) b : buffered self (Buffer.insert_block self b) b.
Proof.
  intros h evicted. rewrite Buffer.insert_blocks. subst evicted. destruct (Buffer.block_queue self) as [|o q]; simpl.
  - split; [by intros []|]. split; intros _; [by intros ->; rewrite lookup_insert_eq|by intros ?; rewrite lookup_insert_ne].
  - destruct (Z.leb_spec (Buffer.max_blocks self) (Z.of_nat (S (length q)))) as [Hle|Hlt].
    + split; [intros [_ [= ->]]; apply lookup_delete_eq|]. split; intros He.
      * intros ->. rewrite lookup_delete_ne by naive_solver. apply lookup_insert_eq.
      * intros Hne. rewrite lookup_delete_ne by naive_solver. by apply lookup_insert_ne.
    + split; [lia|]. split; intros _; [by intros ->; rewrite lookup_insert_eq|by intros ?; rewrite lookup_insert_ne].
Qed.

Lemma answer_rejected {E} (m : M E PayloadStatus) p s0 s st s' :
  unchanged s0 s -> rejects m -> m s = Some (Ok st, s') -> answer_means p s0 st s'.
Proof. intros Hu Hr Hm. destruct (rejects_same m s st s' Hr Hm) as [Hu' Hs]. unfold answer_means. rewrite Hs. by etrans. Qed.

Lemma header_known s h e : blocks_by_hash (es_tree (state s)) !! h = Some e -> exists hd, sealed_header_by_hash (core s) h = Ok (Some hd).
Proof. intros He. unfold sealed_header_by_hash, Tree.sealed_header_by_hash. simpl. rewrite He. by eexists. Qed.

Lemma insert_executed_known (t : TreeState (B := ExecutedBlock RB Out HS) (T := T)) e : is_Some (blocks_by_hash (insert_executed t e) !! block_hash e).
Proof.
  rewrite insert_executed_blocks. destruct (blocks_by_hash t !! block_hash e) eqn:E; [rewrite E; by eexists|]. rewrite lookup_insert_eq. by eexists.
Qed.

(** Of an insertion, relative to a state that differs in what does not matter. *)
Lemma try_insert_means n p s0 s st s' :
  unchanged s0 s -> h_backfill_sync_state s0 = Idle -> try_insert_payload n p s = Some (Ok st, s') -> answer_means p s0 st s'.
Proof.
  intros Hu Hidle (r & s1 & Hr & K1)%bind_ok_inv. apply attempt_inv in Hr as (x & [= ->] & Hr). apply insert_effect_ok in Hr.
  pose proof Hu as (Hd & Ht & _ & Hb & Hm & _). pose proof (unchanged_core _ _ Hu) as Hc.
  destruct x as [[st1|[|head m]]|[e|e]]; simpl in Hr.
  - destruct Hr as (-> & -> & Hhd). injection K1 as <- <-. unfold answer_means. simpl. split_and!; [done|done|by split; [rewrite Ht|]|].
    destruct Hhd as [hd Hhd]. by eapply known_header.
  - destruct Hr as (e & He & Htree & Hdb & _). apply bind_ok_inv in K1 as (u & s2 & Hg & K2). injection K2 as <- <-.
    pose proof (try_connect_grows n _ s1 s1 (Ok u) s2 Hg ltac:(by split)) as Hgr. unfold answer_means. simpl.
    pose proof (payload_executed (payload_validator s) p (mkTreeCtx _ _ (state s) (h_persistence_state s) (memory s))) as Hl.
    rewrite He in Hl. destruct (well_formed_same _ _ _ Hl) as (Hh & _).
    destruct (insert_executed_known (es_tree (state s)) e) as [e' He'].
    split_and!; [done|done| |].
    + destruct Hgr as [Hs Hd']. split; [|congruence]. rewrite <- Ht. etrans; [|exact Hs]. rewrite Htree. apply insert_executed_grows.
    + destruct (grows_header s1 s2 (block_hash p) Hgr) as [hd Hhd]; [|by eapply known_header].
      rewrite <- Hh. eapply header_known. rewrite Htree. exact He'.
  - destruct Hr as (b & Hw & -> & _ & Hk & Hp & Hdb). injection K1 as <- <-. unfold answer_means. simpl.
    destruct (ensure_well_formed_payload (payload_validator s) p) as [b'|] eqn:Ew; [|done]. injection Hw as ->.
    split_and!; [done|done|done| |].
    + exists b, (payload_validator s). rewrite <- Hb. split; [done|]. split; [by eapply well_formed_same|apply insert_buffered].
    + intros _. rewrite Hc in Hk. apply unknown_header in Hk as []. rewrite <- Ht, <- Hd in *. done.
  - eapply answer_rejected; [|apply block_error_rejects|exact K1]. by etrans.
  - apply convert_ok_inv in K1. eapply answer_rejected; [|apply payload_error_rejects|exact K1]. by etrans.
Qed.

Lemma try_buffer_means n p s0 s st s' :
  unchanged s0 s -> h_backfill_sync_state s0 <> Idle -> try_buffer_payload n p s = Some (Ok st, s') -> answer_means p s0 st s'.
Proof.
  intros Hu Hidle (v & s1 & Hv & K1)%bind_ok_inv. injection Hv as <- <-. pose proof Hu as (Hd & Ht & _ & Hb & Hm & _).
  destruct (ensure_well_formed_payload (payload_validator s) p) as [b|e] eqn:Ew.
  - apply bind_ok_inv in K1 as (r & s2 & Hr & K2). apply attempt_inv in Hr as (x & [= ->] & Hr). unfold buffer_block in Hr.
    destruct (validate_block b) as [u|e]; injection Hr as <- <-.
    + injection K2 as <- <-. unfold answer_means. simpl. split_and!; [done..| |done]. exists b, (payload_validator s). rewrite <- Hb.
      split; [done|]. split; [by eapply well_formed_same|apply insert_buffered].
    + eapply answer_rejected; [exact Hu|apply block_error_rejects|exact K2].
  - apply convert_ok_inv in K1. eapply answer_rejected; [exact Hu|apply payload_error_rejects|exact K1].
Qed.

(** C11: what the answer to a new payload means.  Valid: no backfill is running, the latest valid hash is the one of the payload, its block is now in the tree or in the database,
    and the tree lost nothing.  Syncing: the block of the payload is well-formed and was put into the buffer: it is there now, and so are all blocks that were there, except that a full
    buffer lost the block at the front of its queue, which may be this very block if it had been buffered before; the tree and the chain in memory are as before; if no backfill is running,
    neither the block nor its parent was in the tree or in the database.  Invalid: the tree, the buffer, the chain in memory and the forkchoice state
    are as before. *)
Theorem new_payload_answers n p s o s' :
  on_new_payload n p s = Some (Ok o, s') -> answer_means p s (outcome o) s'.
Proof.
  intros (u & s1 & K1 & Hr)%bind_ok_inv. injection K1 as _ <-. apply bind_ok_inv in Hr as (r & s2 & K2 & Hr).
  pose proof (find_invalid_frame p s _ _ _ K2 ltac:(done)) as Hu. destruct r as [a|].
  - apply bind_ok_inv in Hr as (st & s3 & K3 & K4). injection K4 as <- <-. eapply answer_rejected; [exact Hu|apply handle_invalid_rejects|exact K3].
  - apply bind_ok_inv in Hr as (idle & s3 & K3 & Hr). injection K3 as <- <-. apply bind_ok_inv in Hr as (st & s4 & K4 & K5).
    injection K5 as <- <-. assert (outcome (payload_outcome s4 (block_hash p) st) = st) as -> by (unfold payload_outcome; by destruct (_ && _)).
    pose proof Hu as (_ & _ & _ & _ & _ & Hb & _). destruct (is_idle (h_backfill_sync_state s2)) eqn:Ei.
    + eapply try_insert_means; [exact Hu| |exact K4]. rewrite <- Hb. by destruct (h_backfill_sync_state s2).
    + eapply try_buffer_means; [exact Hu| |exact K4]. rewrite <- Hb. intros Hi. by rewrite Hi in Ei.
Qed.

End payloads.

(** ** Forkchoice updates *)

Section forkchoice.
Context `{!NodeTypes} `{!NodeOps} `{!FullConsensus} `{!EngineValidator} `{!ValidatorLaws}.
Implicit Types (s : Handler) (h : Z) (n : nat) (st : ForkchoiceState).

(** The chains are the same: the tree, the blocks in memory and their head, the buffer, the database. *)
Definition same_chains s0 s : Prop :=
  db s = db s0 /\ es_tree (state s) = es_tree (state s0) /\ es_buffer (state s) = es_buffer (state s0) /\
  es_tracker (state s) = es_tracker (state s0) /\
  in_memory (memory s) = in_memory (memory s0) /\ ci_canonical_head (info (memory s)) = ci_canonical_head (info (memory s0)) /\
  h_backfill_sync_state s = h_backfill_sync_state s0 /\ h_persistence_state s = h_persistence_state s0 /\ h_config s = h_config s0.

#[global] Instance same_chains_preorder : PreOrder same_chains.
Proof.
  split; [by intros s|]. intros a b c (? & ? & ? & ? & ? & ? & ? & ? & ?) (? & ? & ? & ? & ? & ? & ? & ? & ?). unfold same_chains. split_and!; congruence.
Qed.

Lemma unchanged_same s0 s : unchanged s0 s -> same_chains s0 s.
Proof. intros (? & ? & ? & ? & Hm & ? & ? & ?). unfold same_chains. by rewrite Hm. Qed.

Lemma same_core s0 s : same_chains s0 s -> core s = core s0.
Proof. intros (? & ? & _ & _ & _ & _ & ? & ? & ?). unfold core. congruence. Qed.

Lemma same_find s0 s h : same_chains s0 s -> find_canonical_header s h = find_canonical_header s0 h.
Proof. intros (Hd & _ & _ & _ & Hm & _). unfold find_canonical_header. by rewrite Hd, Hm. Qed.

(** The header with this hash is the one of a block of the chain in memory, or it is in the database. *)
Definition has_header s h (hd : SealedHeader) : Prop :=
  match InMemory.blocks (in_memory (memory s)) !! h with
  | Some b => hd = sealed_header (block (bs_block b))
  | None => db_header (db s) h = Ok (Some hd)
  end.
(** There is none. *)
Definition no_header s h : Prop := InMemory.blocks (in_memory (memory s)) !! h = None /\ db_header (db s) h = Ok None.
(** The database cannot tell. *)
Definition header_error s h : Prop := InMemory.blocks (in_memory (memory s)) !! h = None /\ exists e, db_header (db s) h = Err e.

Lemma find_spec s h : match find_canonical_header s h with
  | Ok (Some hd) => has_header s h hd
  | Ok None => no_header s h
  | Err _ => header_error s h
  end.
Proof.
  unfold find_canonical_header, header_by_hash, state_by_hash, has_header, no_header, header_error.
  destruct (InMemory.blocks _ !! h); simpl; [done|]. destruct (db_header _ _) as [[hd|]|] eqn:E; eauto.
Qed.

Lemma find_has s h hd : has_header s h hd -> find_canonical_header s h = Ok (Some hd).
Proof.
  unfold find_canonical_header, header_by_hash, state_by_hash, has_header. destruct (InMemory.blocks _ !! h); simpl; [by intros ->|done].
Qed.

Lemma same_header s0 s h hd : same_chains s0 s -> has_header s h hd <-> has_header s0 h hd.
Proof. intros (Hd & _ & _ & _ & Hm & _). unfold has_header. by rewrite Hd, Hm. Qed.

(** A hash that is zero, that cannot be looked up, or of which the header is the one that is tracked. *)
Definition tracked s h (x : option SealedHeader) : Prop :=
  h = 0 \/ header_error s h \/ exists hd, has_header s h hd /\ block_hash <$> x = Some (block_hash hd).

Lemma replace_hash (x : option SealedHeader) (hd : SealedHeader) : block_hash <$> replace_header x hd = Some (block_hash hd).
Proof. unfold replace_header. by case_bool_decide. Qed.

Lemma num_hash_tracked (x : option SealedHeader) (hd : SealedHeader) : Some (num_hash hd) = num_hash <$> x -> block_hash <$> x = Some (block_hash hd).
Proof. destruct x as [y|]; [|done]. simpl. intros [= _ ->]. done. Qed.

Lemma finalized_tracked h s r s' : update_finalized_block h s = Some (r, s') ->
  same_chains s s' /\ match r with
  | Ok _ => tracked s' h (finalized_block (info (memory s'))) /\ safe_block (info (memory s')) = safe_block (info (memory s))
  | Err o => o = fcu_invalid_state /\ h <> 0 /\ no_header s' h
  end.
Proof.
  unfold update_finalized_block. destruct (h =? 0) eqn:E0; bools.
  { intros [= <- <-]. split; [done|]. split; [by left|done]. }
  pose proof (find_spec s h) as E. destruct (find_canonical_header s h) as [[hd|]|e]; [|intros [= <- <-]; by split|].
  - case_bool_decide as Hn; intros [= <- <-].
    + split; [done|]. split; [|done]. right. right. exists hd. split; [done|]. by apply num_hash_tracked.
    + split; [done|]. split; [|done]. right. right. exists hd. split; [exact E|apply replace_hash].
  - intros [= <- <-]. split; [done|]. split; [|done]. right. by left.
Qed.

Lemma safe_tracked h s r s' : update_safe_block h s = Some (r, s') ->
  same_chains s s' /\ match r with
  | Ok _ => tracked s' h (safe_block (info (memory s'))) /\ finalized_block (info (memory s')) = finalized_block (info (memory s))
  | Err o => o = fcu_invalid_state /\ h <> 0 /\ no_header s' h
  end.
Proof.
  unfold update_safe_block. destruct (h =? 0) eqn:E0; bools.
  { intros [= <- <-]. split; [done|]. split; [by left|done]. }
  pose proof (find_spec s h) as E. destruct (find_canonical_header s h) as [[hd|]|e]; [|intros [= <- <-]; by split|].
  - case_bool_decide as Hn; intros [= <- <-].
    + split; [done|]. split; [|done]. right. right. exists hd. split; [done|]. by apply num_hash_tracked.
    + split; [done|]. split; [|done]. right. right. exists hd. split; [exact E|apply replace_hash].
  - intros [= <- <-]. split; [done|]. split; [|done]. right. by left.
Qed.

Lemma same_tracked s0 s h x : same_chains s0 s -> tracked s0 h x -> tracked s h x.
Proof.
  intros Hs. unfold tracked, header_error. setoid_rewrite (same_header s0 s h _ Hs). destruct Hs as (-> & _ & _ & _ & -> & _). done.
Qed.

Definition both_tracked st s : Prop :=
  tracked s (finalized_block_hash st) (finalized_block (info (memory s))) /\ tracked s (safe_block_hash st) (safe_block (info (memory s))).

(** The finalized or the safe block is missing. *)
Definition untracked st s : Prop :=
  exists h, (h = finalized_block_hash st \/ h = safe_block_hash st) /\ h <> 0 /\ no_header s h.

Lemma consistent_tracked st s r s' : ensure_consistent_forkchoice_state st s = Some (r, s') ->
  same_chains s s' /\ match r with Ok _ => both_tracked st s' | Err o => o = fcu_invalid_state /\ untracked st s' end.
Proof.
  intros [(u & s1 & K1 & K2)|(o & K1 & ->)]%bind_inv; apply finalized_tracked in K1 as [Hs1 Ht1].
  2: { destruct Ht1 as [-> Ht1]. split_and!; [done|done|]. exists (finalized_block_hash st). auto. }
  apply safe_tracked in K2 as [Hs2 Ht2]. split; [by etrans|]. destruct r as [u'|o].
  2: { destruct Ht2 as [-> Ht2]. split; [done|]. exists (safe_block_hash st). auto. }
  destruct Ht1 as [Ht1 _], Ht2 as [Ht2 Hf]. split; [|done]. rewrite Hf. by eapply same_tracked.
Qed.

Lemma attributes_same {E} a hd st v s r s' : (process_payload_attributes a hd st v : M E _) s = Some (r, s') ->
  same_chains s s' /\ info (memory s') = info (memory s) /\ exists o, r = Ok o /\ forkchoice_status o = FValid.
Proof.
  unfold process_payload_attributes. destruct (validate_payload_attributes_against_header _ _ _).
  - destruct (builder_attributes_try_new _ _ _); intros [= <- <-]; split_and!; try done; by eexists.
  - intros [= <- <-]; split_and!; try done; by eexists.
Qed.

(** The end of an update to a head that is canonical. *)
Lemma finish_update_means attrs tip st v s o s' :
  read_only tip -> finish_update attrs tip st v s = Some (Ok o, s') ->
  same_chains s s' /\ event o = None /\
  ((outcome o = fcu_invalid_state /\ untracked st s') \/ (forkchoice_status (outcome o) = FValid /\ both_tracked st s')).
Proof.
  intros Htip (c & s1 & K1 & K2)%bind_ok_inv. apply attempt_inv in K1 as (x & [= ->] & K1). apply consistent_tracked in K1 as [Hs Ht].
  destruct x as [u|o']; [|injection K2 as <- <-; destruct Ht as [-> Ht]; auto]. destruct attrs as [a|]; [|injection K2 as <- <-; auto].
  apply bind_ok_inv in K2 as (hd & s2 & K2 & K3). apply read_only_same in K2 as ->; [|done].
  apply bind_ok_inv in K3 as (o' & s3 & K3 & K4). injection K4 as <- <-. apply attributes_same in K3 as (Hs' & Hi & o'' & [= <-] & Hst).
  split_and!; [by etrans|done|]. right. split; [done|]. destruct Ht as [Ht1 Ht2]. unfold both_tracked. rewrite Hi.
  split; by eapply same_tracked.
Qed.

Lemma canonical_tip_read h : read_only (canonical_tip h).
Proof.
  intros s0. apply preserves_bind; [apply preserves_gets|]. intros x. apply preserves_bind; [apply lookup_read|].
  intros [hd|]; [apply preserves_ret|apply preserves_throw].
Qed.

(** The block below the buffered ancestors of a hash. *)
Definition lowest_hash s h : option Z :=
  r ← Buffer.lowest_ancestor (es_buffer (state s)) h; Some (match r with Some b => block_parent_hash b | None => h end).

(** That block is known to be invalid. *)
Definition cached_invalid s h : Prop :=
  exists x a, lowest_hash s h = Some x /\ (InvalidHeaders.get (es_invalid (state s)) x).1 = Some a.

Lemma lowest_inv {E} h s x s' : (lowest_buffered_ancestor_or h : M E Z) s = Some (Ok x, s') -> lowest_hash s h = Some x /\ s' = s.
Proof. unfold lowest_buffered_ancestor_or, fueled. intros (y & Hy & [= <- <-])%bind_Some. done. Qed.

(** That block is not in the buffer. *)
Lemma lowest_missing s h x : lowest_hash s h = Some x -> Buffer.blocks (es_buffer (state s)) !! x = None.
Proof.
  assert (forall n b r, Buffer.lowest_loop n (es_buffer (state s)) b = Some r -> Buffer.blocks (es_buffer (state s)) !! block_parent_hash r = None) as Hl.
  { induction n as [|n IH]; intros b r; [done|]. cbn [Buffer.lowest_loop]. destruct (Buffer.blocks _ !! _) eqn:E1; [apply IH|by intros [= <-]]. }
  unfold lowest_hash, Buffer.lowest_ancestor. destruct (Buffer.blocks _ !! h) as [b|] eqn:E1; [|by intros [= <-]].
  cbn [mbind option_bind]. destruct (Buffer.lowest_loop _ _ _) as [r|] eqn:E2; [|done]. intros [= <-]. by eapply Hl.
Qed.

(** What is known before an update is tried. *)
Lemma pre_validate_means n st s o s' : pre_validate_forkchoice_update n st s = Some (Ok o, s') ->
  unchanged s s' /\
  match o with
  | None => head_block_hash st <> 0 /\ h_backfill_sync_state s = Idle
  | Some o => (o = fcu_invalid_state /\ head_block_hash st = 0) \/
      (exists x, o = fcu_with_invalid x /\ status x = PInvalid /\ cached_invalid s (head_block_hash st)) \/
      (o = fcu_syncing /\ h_backfill_sync_state s <> Idle)
  end.
Proof.
  unfold pre_validate_forkchoice_update. destruct (_ =? _) eqn:E0; bools; [intros [= <- <-]; split; [done|by left]|].
  intros (x & s1 & K1 & K2)%bind_ok_inv. apply lowest_inv in K1 as [Hx ->].
  apply bind_ok_inv in K2 as (y & s2 & K2 & K3). unfold check_invalid_ancestor in K2.
  apply bind_ok_inv in K2 as (a & s1 & K1 & K2). injection K1 as <- <-.
  destruct (InvalidHeaders.get (es_invalid (state s)) x).1 as [a|] eqn:Ea.
  - apply bind_ok_inv in K2 as (p & s3 & K4 & K5). injection K5 as <- <-. injection K3 as <- <-.
    split; [exact (prepare_invalid_frame n _ s _ _ _ K4 ltac:(done))|]. right. left. exists p. split; [done|]. split; [|by exists x, a].
    unfold prepare_invalid_response in K4. apply bind_ok_inv in K4 as (? & ? & _ & K4). apply bind_ok_inv in K4 as (? & ? & _ & K4). by injection K4 as <-.
  - injection K2 as <- <-. injection K3 as <- <-. simpl. split; [done|]. destruct (h_backfill_sync_state s); simpl; auto 10.
Qed.

(** The methods that keep the tree. *)
Lemma unwind_tree cur hd s r s' : handle_canonical_chain_unwind cur hd s = Some (r, s') -> es_tree (state s') = es_tree (state s).
Proof.
  intros K1. refine (preserves_bind (fun s1 => es_tree (state s1) = es_tree (state s)) _ _ _ _ s r s' K1 eq_refl); [apply preserves_gets|].
  intros old. apply preserves_bind; [apply preserves_reads|]. intros [b|]; by apply preserves_modify.
Qed.

Lemma advance_tree hd s r s' : handle_chain_advance_or_same_height hd s = Some (r, s') -> es_tree (state s') = es_tree (state s).
Proof.
  intros K1. refine (preserves_bind (fun s1 => es_tree (state s1) = es_tree (state s)) _ _ _ _ s r s' K1 eq_refl); [by apply preserves_modify|].
  intros _. apply preserves_bind; [apply preserves_gets|]. intros [b|]; [apply preserves_ret|].
  apply preserves_bind; [apply preserves_reads|]. intros [b|]; [by apply preserves_modify|apply preserves_ret].
Qed.

Lemma update_latest_tree hd s r s' : update_latest_block_to_canonical_ancestor hd s = Some (r, s') ->
  es_tree (state s') = Tree.set_canonical_head (es_tree (state s)) (num_hash hd).
Proof.
  intros K1. apply bind_inv in K1 as [(cur & s1 & K1 & K2)|(e & K1 & _)]; [injection K1 as <- <-|done].
  apply bind_inv in K2 as [(u & s1 & K1 & K2)|(e & K1 & _)]; [injection K1 as <- <-|done].
  destruct (_ <? _); [by apply unwind_tree in K2|by apply advance_tree in K2].
Qed.

(** What an update to a head that is an ancestor of the head leaves behind. *)
Lemma update_to_canonical_means hd st attrs v s o s' : update_to_canonical hd st attrs v s = Some (Ok o, s') ->
  event o = None /\ forkchoice_status (outcome o) = FValid /\
  (same_chains s s' \/
   allow_unwind_canonical_header (h_config s) = true /\ es_tree (state s') = Tree.set_canonical_head (es_tree (state s)) (num_hash hd)).
Proof.
  intros (s0 & s1 & K1 & K2)%bind_ok_inv. injection K1 as <- <-. simpl in K2. destruct (_ || _); [|injection K2 as <- <-; split_and!; [done|done|by left]].
  destruct attrs as [a|].
  - apply bind_ok_inv in K2 as (o' & s3 & K3 & K4). injection K4 as <- <-. apply attributes_same in K3 as (Hs & _ & o'' & [= <-] & Hst). auto.
  - apply bind_ok_inv in K2 as (u & s3 & K3 & K4). injection K4 as <- <-. split_and!; [done|done|].
    destruct (allow_unwind_canonical_header (h_config s)); [right; split; [done|by eapply update_latest_tree]|left]. by injection K3 as _ <-.
Qed.

(** What an answer to a forkchoice update means. *)
Definition update_means n st s (o : TreeOutcome OnForkChoiceUpdated) s' : Prop :=
  match forkchoice_status (outcome o) with
  | FValid =>
      event o = None /\ head_block_hash st <> 0 /\ h_backfill_sync_state s = Idle /\
      ((canonical_block_hash (es_tree (state s')) = head_block_hash st /\ grows s s' /\ both_tracked st s') \/
       exists hd, has_header s (head_block_hash st) hd /\
         (same_chains s s' \/
          allow_unwind_canonical_header (h_config s) = true /\ es_tree (state s') = Tree.set_canonical_head (es_tree (state s)) (num_hash hd)))
  | FSyncing =>
      same_chains s s' /\
      ((event o = None /\ h_backfill_sync_state s <> Idle) \/
       exists h x, event o = Some (DownloadEvent (single_block x)) /\ (h = head_block_hash st \/ h = safe_block_hash st) /\
         lowest_hash s h = Some x /\ Buffer.blocks (es_buffer (state s)) !! x = None /\
         (forall hd, ~ has_header s (head_block_hash st) hd) /\
         on_new_head n (core s) (head_block_hash st) = Some (Ok None))
  | FInvalid =>
      event o = None /\
      ((same_chains s s' /\ (head_block_hash st = 0 \/ cached_invalid s (head_block_hash st))) \/
       (canonical_block_hash (es_tree (state s')) = head_block_hash st /\ grows s s' /\ untracked st s'))
  end.

Lemma same_grows s0 s : same_chains s0 s -> grows s0 s.
Proof. intros (Hd & Ht & _). split; [by rewrite Ht|done]. Qed.

Lemma grows_trans s0 s1 s2 : grows s0 s1 -> grows s1 s2 -> grows s0 s2.
Proof. intros [? ?] [? ?]. split; [by etrans|congruence]. Qed.

Lemma same_canonical_hash s0 s : same_chains s0 s -> canonical_block_hash (es_tree (state s)) = canonical_block_hash (es_tree (state s0)).
Proof. by intros (_ & -> & _). Qed.

(** The end of an update to the head. *)
Lemma finish_means n attrs tip st v s0 s o s' :
  read_only tip -> head_block_hash st <> 0 -> h_backfill_sync_state s0 = Idle -> grows s0 s ->
  canonical_block_hash (es_tree (state s)) = head_block_hash st ->
  finish_update attrs tip st v s = Some (Ok o, s') -> update_means n st s0 o s'.
Proof.
  intros Htip H0' Hidle Hg Hc Hf. apply finish_update_means in Hf as (Hs & He & Ho); [|done].
  pose proof (same_canonical_hash _ _ Hs) as Hc'. pose proof (grows_trans _ _ _ Hg (same_grows _ _ Hs)) as Hg'.
  unfold update_means. destruct Ho as [[-> Hu]|[-> Ht]]; simpl; split_and!; [done|right|done..|left]; split_and!; congruence || done.
Qed.

Lemma download_means st s o s' : download_missing st s = Some (Ok o, s') ->
  forkchoice_status (outcome o) = FSyncing /\ s' = s /\ exists h x, event o = Some (DownloadEvent (single_block x)) /\
    (h = head_block_hash st \/ h = safe_block_hash st) /\ lowest_hash s h = Some x /\ Buffer.blocks (es_buffer (state s)) !! x = None.
Proof.
  intros (t & s1 & K1 & K2)%bind_ok_inv. injection K1 as <- <-. apply bind_ok_inv in K2 as (x & s1 & [Hx ->]%lowest_inv & K3).
  injection K3 as <- <-. split_and!; [done|done|]. exists (sync_target_of s st), x. split_and!; [done| |done|by eapply lowest_missing].
  unfold sync_target_of. destruct (_ && _); auto.
Qed.

(** A chain update to a block of the tree. *)
Lemma chain_update_to_head rank fuel good s h c :
  (forall h, (rank h < fuel)%nat) -> (forall b, good b -> (rank (block_parent_hash b) < rank (block_hash b))%nat) ->
  engine_inv rank good s -> on_new_head fuel (core s) h = Some (Ok (Some c)) ->
  exists s1 tip, chain_tip c = Some tip /\ on_canonical_chain_update s c = Some s1 /\
    canonical_block_hash (es_tree (state s1)) = h /\ grows s s1.
Proof.
  intros Hf Hrank Hs Hc. destruct (core_ranked rank good Hrank s Hs) as (Ht & _ & Hb).
  destruct (on_new_head_total rank (core s) fuel h Ht Hb Hf) as (r & Hr & Hup). rewrite Hc in Hr. injection Hr as <-.
  destruct (Hup c eq_refl) as [Hfrom (e & He & Hl)].
  destruct (chain_update_ok rank good Hrank s c Hs (update_from_good rank good s c Hs Hfrom)) as (s1 & tip & Htip & Hs1 & _ & Hhead & _ & _ & _ & _ & Hd & _ & _ & Hsub).
  exists s1, tip. split_and!; [done|done| |by split]. change (nh_hash (current_canonical_head (es_tree (state s1))) = h). rewrite Hhead.
  assert (Some tip = Some (recovered_block (block e))) as [= ->].
  { rewrite <- Htip. unfold chain_tip, new_blocks. by rewrite Hl. }
  destruct (inv_tree _ _ _ Hs) as [(Hok & _) _ _]. exact (Hok _ _ He).
Qed.

(** The update once nothing speaks against trying it. *)
Definition try_update n attrs v st s : option (result (TreeOutcome OnForkChoiceUpdated) (ProviderError PE) * Handler) :=
  (chain_update <-! new_head n (head_block_hash st);
   match chain_update with
   | Some chain_update =>
       tip <-! fueled (fun _ => chain_tip chain_update);
       on_chain_update chain_update ;!
       finish_update attrs (ret (sealed_header tip)) st v
   | None => download_missing st
   end) s.

Lemma try_update_means rank fuel good attrs v st s0 s o s' :
  (forall h, (rank h < fuel)%nat) -> (forall b, good b -> (rank (block_parent_hash b) < rank (block_hash b))%nat) ->
  engine_inv rank good s -> head_block_hash st <> 0 -> h_backfill_sync_state s0 = Idle -> same_chains s0 s ->
  (forall hd, ~ has_header s0 (head_block_hash st) hd) ->
  try_update fuel attrs v st s = Some (Ok o, s') -> update_means fuel st s0 o s'.
Proof.
  intros Hf Hrank Hs Hne Hidle Hsame Hfind (c & s1 & K1 & K2)%bind_ok_inv. unfold new_head, fueled_reads in K1.
  apply bind_Some in K1 as (r & Hr & K1). injection K1 as -> <-. destruct c as [c|].
  - destruct (chain_update_to_head rank fuel good s _ c Hf Hrank Hs Hr) as (s1 & tip & Htip & Hs1 & Hhead & Hg).
    apply bind_ok_inv in K2 as (tip' & s2 & K2 & K3). unfold fueled in K2. rewrite Htip in K2. injection K2 as <- <-.
    apply bind_ok_inv in K3 as (u & s2 & K3 & K4). unfold on_chain_update in K3. rewrite Hs1 in K3. injection K3 as _ <-.
    eapply finish_means; [|done|done| |done|exact K4]; [intros s2; apply preserves_ret|]. by eapply grows_trans; [apply same_grows|].
  - apply download_means in K2 as (Hst & -> & h & x & He & Hh & Hx & Hm). unfold update_means. rewrite Hst. split; [done|]. right.
    exists h, x. rewrite <- (same_core _ _ Hsame). pose proof Hsame as (_ & _ & Hb & _). unfold lowest_hash in *. rewrite Hb in Hx, Hm. done.
Qed.

Lemma means_frame n st s0 s o s' : same_chains s0 s -> es_invalid (state s) = es_invalid (state s0) ->
  update_means n st s o s' -> update_means n st s0 o s'.
Proof.
  intros Hs Hi. pose proof Hs as (_ & _ & Hb & _ & _ & _ & Hidle & _ & Hc). pose proof (same_core _ _ Hs) as Hcore.
  assert (forall s', same_chains s s' -> same_chains s0 s') as Htr by (intros; by etrans).
  assert (forall s', grows s s' -> grows s0 s') as Hgr by (intros; by eapply grows_trans; [apply same_grows|]).
  unfold update_means, cached_invalid, lowest_hash, has_header. rewrite Hidle, Hc, Hcore, Hb, Hi.
  destruct Hs as (-> & -> & _ & _ & -> & _). destruct (forkchoice_status _); naive_solver.
Qed.

Lemma update_answers rank fuel good now st attrs v s o s' :
  (forall h, (rank h < fuel)%nat) -> (forall b, good b -> (rank (block_parent_hash b) < rank (block_hash b))%nat) ->
  engine_inv rank good s -> on_forkchoice_updated fuel now st attrs v s = Some (Ok o, s') -> update_means fuel st s o s'.
Proof.
  intros Hf Hrank Hs (u & s1 & K1 & K2)%bind_ok_inv. injection K1 as _ <-. set (s1 := set_info _ _) in K2.
  assert (engine_inv rank good s1) as Hs1 by by apply inv_info. apply (means_frame _ _ s s1); [done..|]. clearbody s1. clear s Hs.
  apply bind_ok_inv in K2 as (x & s2 & K1 & K2). pose proof (pre_validate_keeps rank fuel good Hf Hrank st s1 Hs1) as (r & s3 & K3 & Hs2 & _).
  rewrite K1 in K3. injection K3 as <- <-. apply pre_validate_means in K1 as [Hu Hx].
  pose proof (unchanged_same _ _ Hu) as Hsame. destruct x as [x|].
  - injection K2 as <- <-. unfold update_means. destruct Hx as [[-> Hx]|[(y & -> & Hy & Hx)|[-> Hx]]]; simpl.
    + split; [done|]. left. auto.
    + rewrite Hy. split; [done|]. left. auto.
    + split; [done|]. left. auto.
  - destruct Hx as [Hne Hidle]. apply bind_ok_inv in K2 as (y & s3 & K2 & K3). injection K2 as <- <-. simpl in K3.
    assert (h_backfill_sync_state s2 = Idle) as Hidle2 by (by destruct Hu as (_ & _ & _ & _ & _ & -> & _)).
    destruct (_ =? _) eqn:Eh; bools.
    + eapply finish_means; [apply canonical_tip_read|done|done|by apply same_grows|done|exact K3].
    + pose proof (same_find _ _ (head_block_hash st) Hsame) as Hfind. destruct (find_canonical_header s2 _) as [[hd|]|e] eqn:Ef.
      2,3: eapply try_update_means; [exact Hf|exact Hrank|exact Hs2|done|done|done| |exact K3]; intros hd Hhd%find_has; congruence.
      apply update_to_canonical_means in K3 as (He & Hst & Hch). unfold update_means. rewrite Hst. split_and!; [done..|]. right.
      exists hd. split; [pose proof (find_spec s1 (head_block_hash st)) as Hsp; by rewrite <- Hfind in Hsp|]. destruct Hch as [Hch|[Ha Ht]]; [left; by etrans|right].
      destruct Hsame as (_ & <- & _ & _ & _ & _ & _ & _ & <-). done.
Qed.

(** C10: what the answer to a forkchoice update means, in every state that is reached; an answer or an error is always given.  Valid: no backfill is running, and
    either the new head is the canonical head now, the tree lost nothing, and the safe and finalized blocks that are tracked are the ones asked for, unless their hash is zero or
    the database failed to look them up; or the header of the head is the one of a block of the chain in memory or is in the database (which need not be an ancestor of the canonical head: see
    [finalized_off_chain]), and nothing changed unless heads may be unwound.  Syncing: the chains are as before, and a backfill is
    running or one block is asked for that is not in the buffer, the head having no such header and not being connected to the canonical chain by blocks of the tree.  Invalid: the chains are as
    before, and the head is zero or above an invalid block; or the head is canonical now but the safe or finalized block is unknown. *)
Theorem forkchoice_answers rank fuel good now st attrs v s :
  (forall h, (rank h < fuel)%nat) ->
  (forall b b', good b -> good b' -> block_hash b = block_hash b' -> b = b') ->
  (forall b, good b -> (rank (block_parent_hash b) < rank (block_hash b))%nat) ->
  EngineSafety.reached rank fuel good s ->
  exists r s', on_forkchoice_updated fuel now st attrs v s = Some (r, s') /\ forall o, r = Ok o -> update_means fuel st s o s'.
Proof.
  intros Hf Hsame Hrank Hreach. pose proof (EngineSafety.reached_inv _ _ _ Hf Hsame Hrank s Hreach) as Hs.
  destruct (on_forkchoice_updated_keeps rank fuel good Hf Hrank now st attrs v s Hs) as (r & s' & He & Hs').
  exists r, s'. split; [done|]. intros o ->. clear Hs'. by eapply update_answers.
Qed.

End forkchoice.

(** ** Witnesses *)

Import EngineSample EngineSafety.

(** The result of a method, if it succeeds, and the state that it leaves. *)
Definition answered {E A} (m : M E A) s : option A := match m s with Some (Ok a, _) => Some a | _ => None end.
Definition after {E A} (m : M E A) s : Handler := match m s with Some (_, s') => s' | None => s end.

Lemma answered_run {E A} (m : M E A) s a : answered m s = Some a -> m s = Some (Ok a, after m s).
Proof. unfold answered, after. by destruct (m s) as [[[]]|]; [intros [= ->]|..]. Qed.

Definition deliver (h p n : Z) : M InsertBlockFatalError (TreeOutcome PayloadStatus) := on_new_payload 1001 (blk h p n).

(** A valid, an invalid and a disconnected payload. *)
Lemma new_payload_answers_witness :
  answer_means (blk 12 1 2) served (mkPayloadStatus PValid (Some 12)) (after (deliver 12 1 2) served) /\
  answer_means (blk 912 11 3) served (mkPayloadStatus PInvalid (Some 11)) (after (deliver 912 11 3) served) /\
  answer_means (blk 555 55 3) served (mkPayloadStatus PSyncing None) (after (deliver 555 55 3) served).
Proof.
  split_and!; match goal with |- answer_means ?p ?s ?st (after ?m _) =>
    apply (@new_payload_answers sample_types sample_ops sample_consensus sample_validator sample_laws 1001 p s (outcome_new st));
    apply (answered_run m); vm_compute; reflexivity end.
Defined.

Definition head_to (h : Z) : M (ProviderError unit) (TreeOutcome OnForkChoiceUpdated) :=
  on_forkchoice_updated 1001 0 (mkForkchoiceState h 1 1) None 3.

(** The head advances to block 111; block 12 is not known. *)
Lemma forkchoice_answers_witness :
  (exists r s', head_to 111 served = Some (r, s') /\ forall o, r = Ok o -> update_means 1001 (mkForkchoiceState 111 1 1) served o s') /\
  answered (head_to 111) served = Some (valid_outcome 111) /\
  canonical_block_hash (es_tree (state (after (head_to 111) served))) = 111 /\
  (event <$> answered (head_to 12) served) = Some (Some (DownloadEvent (single_block 12))).
Proof.
  split; [|split_and!; vm_compute; reflexivity].
  apply (@forkchoice_answers sample_types sample_ops sample_consensus sample_validator sample_laws sample_rank 1001 sample_good 0 _ None 3 served
    sample_rank_fuel sample_good_same sample_good_rank served_reached).
Defined.

End EngineAnswers.
