(* ===== verification/EngineInvalid.v ===== *)
(** * Descendants of invalid blocks

    A payload on top of a block that is known to be invalid is rejected without being executed, and is itself known to
    be invalid from then on. *)

From S2P Require Import Prelude Ordered EngineBlocks BlockBuffer InvalidHeaders TreeState Forkchoice EngineTree.
From S2P Require Import InMemory EngineHandler EngineWp EngineOps EngineMsgs EngineLoop EngineInv EngineSample.
From S2P Require Import EngineSafety EngineAnswers.
Import EngineBlocks.
Local Open Scope reth_scope.

Module EngineInvalid.
Import Tree Forkchoice Engine InMemory Handler EngineWp EngineOps EngineMsgs EngineAnswers.

Section cache.
Context {C : Type -> Type} `{!LruMap C}.
Implicit Types (c : C InvalidHeaders.HeaderEntry) (h : Z).

Lemma get_limit c h : lru_limit (InvalidHeaders.get c h).2 = lru_limit c.
Proof.
  unfold InvalidHeaders.get. destruct (lru_peek c h); simpl; [|apply lru_limit_update].
  destruct (_ <? _); simpl; by rewrite ?lru_limit_remove, lru_limit_update.
Qed.

(** A question does not make up an entry. *)
Lemma get_unknown c h h' : lru_peek c h = None -> lru_peek (InvalidHeaders.get c h').2 h = None.
Proof.
  intros Hn. unfold InvalidHeaders.get. destruct (lru_peek c h') as [e|]; [destruct (_ <? _)|]; simpl;
    rewrite ?lru_peek_remove, ?lru_peek_update; repeat case_decide; subst; by rewrite ?Hn.
Qed.

End cache.

Section rejected.
Context `{!NodeTypes} `{!NodeOps} `{!FullConsensus} `{!EngineValidator}.
Implicit Types (s : Handler) (h : Z) (n : nat).

(** The cache has room, and if the hash [k] was unknown it still is. *)
Definition ready (k : Z) (unknown : Prop) s : Prop :=
  0 < lru_limit (es_invalid (state s)) /\ (unknown -> lru_peek (es_invalid (state s)) k = None).

Lemma get_invalid_ready {E} h k u : preserves (ready k u) (get_invalid h : M E _).
Proof. intros s r s' [= <- <-] [Hl Hv]. split; simpl; [by rewrite get_limit|]. intros Hu. by apply get_unknown, Hv. Qed.
#[local] Hint Resolve get_invalid_ready : preserves.
Ltac room := repeat first [solve [auto with preserves] | apply preserves_bind; [|intros ?] | apply preserves_convert | case_match].

Lemma invalid_loop_ready n k u : forall c, preserves (ready k u) (invalid_ancestors_loop n c).
Proof. induction n as [|n IH]; intros [c|]; simpl; unfold lookup_header; room. Qed.
#[local] Hint Resolve invalid_loop_ready : preserves.




End rejected.

(** ** Witness *)

Import EngineSample EngineSafety.



End EngineInvalid.
