(* ===== verification/EnginePersist.v ===== *)
(** * What the engine tree handler writes to the database

    The second half of [advance_persistence]: which blocks are saved, and when blocks are removed. *)

From S2P Require Import Prelude Ordered EngineBlocks BlockBuffer InvalidHeaders TreeState TreeProps TreeClaims.
From S2P Require Import Forkchoice EngineTree EngineClaims InMemory EngineHandler EngineWp EngineOps EngineMsgs.
From S2P Require Import EngineLoop EngineInv EngineSample EngineSafety EngineAnswers.
Import EngineBlocks.
Local Open Scope reth_scope.

Module EnginePersist.
Import Tree TreeProps Forkchoice Engine InMemory Handler EngineWp EngineOps EngineMsgs EngineLoop EngineInv.

(** ** Lists in which every element follows the one before *)

Section linked.
Context {A : Type} (R : A -> A -> Prop).





End linked.


Section persist.
Context `{!NodeTypes} `{!NodeOps} `{!FullConsensus} `{!EngineValidator} `{!ValidatorLaws}.
Abbreviation EB := (ExecutedBlock RB Out HS).
Implicit Types (s : Handler) (e : Executed) (h : Z).


Section chain.
Context (good : RB -> Prop).
Hypothesis good_number : forall b b', good b -> good b' -> block_parent_hash b = block_hash b' -> block_number b = block_number b' + 1.

End chain.






(** ** Trie updates *)






(** ** What is written *)










Section claim.
Context (rank : Z -> nat) (fuel : nat) (good : RB -> Prop).
Hypothesis rank_fuel : forall h, (rank h < fuel)%nat.
Hypothesis good_same : forall b b', good b -> good b' -> block_hash b = block_hash b' -> b = b'.
Hypothesis good_rank : forall b, good b -> (rank (block_parent_hash b) < rank (block_hash b))%nat.
Hypothesis good_number : forall b b', good b -> good b' -> block_parent_hash b = block_hash b' -> block_number b = block_number b' + 1.





End claim.
End persist.

(** ** Witnesses *)

Import EngineSample EngineSafety EngineAnswers.


(** A node that writes at once. *)
Definition eager : TreeConfig := mkTreeConfig 0 0 10 10 4 false false.
Definition eager_node : Handler :=
  spawn_new (sample_db [genesis]) tt (memory_at (sealed_header genesis)) eager Ethereum (sealed_header genesis).





(** ** Removing blocks during a backfill *)

(** A node that has written block 11 is told that the head is block 12, next to it. It downloads that block together with one that is
    far ahead. *)
Definition written : Handler :=
  spawn_new (sample_db [blk 11 1 2; genesis]) tt (memory_at (sealed_header (blk 11 1 2))) tree_config_default Ethereum (sealed_header genesis).
Definition reorged : Handler :=
  default fresh (foldl serve (Some written)
    [Request (Beacon (ForkchoiceUpdated (mkForkchoiceState 12 77 77) None 3)); DownloadedBlocks [blk 12 1 2; blk 5555 5554 100]]).

(** Block 12 is canonical, a backfill is asked for, and in the same round the removal of block 11 from the database is started. *)
Example removal_during_backfill :
  current_canonical_head (es_tree (state reorged)) = mkNumHash 2 12 /\ h_backfill_sync_state reorged = Pending /\
  persistence reorged = [RemoveBlocksAbove 1] /\ in_progress (h_persistence_state reorged) = true.
Proof. by vm_compute. Qed.

(** While block 11 is still in the database it is accepted as finalized, although it is not an ancestor of the head. *)
Example finalized_off_chain :
  let s := default fresh (foldl serve (Some written)
    [Request (Beacon (ForkchoiceUpdated (mkForkchoiceState 12 77 77) None 3)); DownloadedBlocks [blk 12 1 2]]) in
  let update := on_forkchoice_updated 1001 0 (mkForkchoiceState 12 11 11) None 3 in
  answered update s = Some (valid_outcome 12) /\
  (block_hash <$> finalized_block (info (memory (after update s)))) = Some 11.
Proof. by vm_compute. Qed.

(** A node that is writing block 11 downloads a block that is far ahead and then block 12. *)
Definition writing : Handler :=
  default fresh (foldl serve (Some eager_node)
    [payload 11 1 2; head_update 11; Request (Beacon (ForkchoiceUpdated (mkForkchoiceState 12 77 77) None 3))]).

(** The backfill is not asked for, and still the rest of the batch is lost: nothing is requested and block 12 is not inserted. *)
Example batch_lost_while_writing :
  let s := after (on_downloaded 1001 [blk 5555 5554 100; blk 12 1 2]) writing in
  answered (on_downloaded 1001 [blk 5555 5554 100; blk 12 1 2]) writing = Some None /\
  h_backfill_sync_state s = Idle /\ outgoing s = outgoing writing /\ incoming s = [] /\
  executed_block_by_hash (es_tree (state s)) 12 = None.
Proof. by vm_compute. Qed.

End EnginePersist.
