(* ===== verification/TxIdentifier.v ===== *)
(** * Identifiers of senders and transactions, and size tracking

    [crates/transaction-pool/src/identifier.rs] and [pool/size.rs]. *)

From S2P Require Import Prelude Ordered.

Module Identifier.

(** ** Transaction identifiers *)

Abbreviation SenderId := Z (only parsing).

Record TransactionId := mkTransactionId { sender : SenderId; nonce : Z }.

#[export] Instance TransactionId_eq_dec : EqDecision TransactionId.
Proof. solve_decision. Defined.

#[export] Instance TransactionId_countable : Countable TransactionId.
Proof.
  apply (inj_countable' (fun i => (sender i, nonce i)) (fun p => mkTransactionId p.1 p.2)).
  by intros [].
Defined.

(** The derived [Ord]: sender first, then nonce. *)
Definition id_le (a b : TransactionId) : Prop :=
  sender a < sender b \/ (sender a = sender b /\ nonce a <= nonce b).

#[export] Instance id_le_dec : RelDecision id_le.
Proof. intros a b. unfold id_le. apply _. Defined.

#[export] Instance id_le_order : TotalOrder id_le.
Proof.
  unfold id_le. split; [split; [split|]|].
  - intros a. lia.
  - intros a b c. lia.
  - intros [] [] ? ?; simpl in *. f_equal; lia.
  - intros [a1 a2] [b1 b2]; unfold trichotomy, strict; simpl.
    destruct (decide (a1 < b1 \/ a1 = b1 /\ a2 < b2)); [left; lia|].
    destruct (decide (a1 = b1 /\ a2 = b2)) as [[-> ->]|]; [by right; left|].
    right; right. lia.
Qed.

#[export] Instance TransactionId_order : KeyOrder TransactionId := {
  key_le := id_le;
  key_le_dec := id_le_dec;
  key_le_order := id_le_order;
}.

Definition ancestor (transaction_nonce on_chain_nonce : Z) (s : SenderId)
  : option TransactionId :=
  if on_chain_nonce <? transaction_nonce
  then Some (mkTransactionId s (transaction_nonce - 1)) else None.

Definition unchecked_ancestor (self : TransactionId) : option TransactionId :=
  if nonce self =? 0 then None else Some (mkTransactionId (sender self) (nonce self - 1)).

(** [self.nonce + 1], which wraps in the release profile. *)
Definition next_nonce (self : TransactionId) : Z := wrapping_add_u64 (nonce self) 1.

Definition descendant (self : TransactionId) : TransactionId :=
  mkTransactionId (sender self) (next_nonce self).

Definition start_bound (s : SenderId) : TransactionId := mkTransactionId s 0.

Definition into_transaction_id (s : SenderId) (n : Z) : TransactionId := mkTransactionId s n.

(** ** The transactions of one sender

    [range(id..)] of a map ordered by identifier, cut off where the sender
    changes: how every index of the pool finds the transactions of a sender. *)

Section sender_range.
Context {A : Type}.
Implicit Types (m : gmap TransactionId A) (i j : TransactionId).

Definition sender_range i m : list (TransactionId * A) :=
  take_while (fun p => sender p.1 =? sender i) (bt_range_from i m).

Lemma bt_range_from_sorted i m : StronglySorted (entry_le (V:=A)) (bt_range_from i m).
Proof. apply filter_sorted, bt_entries_sorted. Qed.

Lemma elem_of_sender_range i m j a :
  (j, a) ∈ sender_range i m <-> m !! j = Some a /\ sender j = sender i /\ nonce i <= nonce j.
Proof.
  unfold sender_range.
  rewrite (take_while_sorted (entry_le (V:=A))); [|apply bt_range_from_sorted|].
  - rewrite bt_range_from_elem, Z.eqb_eq. unfold key_le; simpl. unfold id_le. naive_solver lia.
  - intros [x a1] [y a2] [_ Hx]%bt_range_from_elem _ Hle Hne. simpl in *. bools.
    apply Z.eqb_neq. unfold entry_le, key_le in *; simpl in *. unfold id_le in *. lia.
Qed.

Lemma sender_range_keys_NoDup i m : NoDup (sender_range i m).*1.
Proof.
  apply (sublist_NoDup _ (bt_range_from i m).*1); [|apply fmap_sublist, take_while_sublist].
  apply filter_keys_NoDup, NoDup_bt_keys.
Qed.

(** Increasing nonces. *)
Lemma sender_range_sorted i m :
  StronglySorted (fun p q => nonce p.1 < nonce q.1) (sender_range i m).
Proof.
  assert (Hs : StronglySorted (entry_le (V:=A)) (sender_range i m)).
  { apply take_while_StronglySorted, bt_range_from_sorted. }
  pose proof (sender_range_keys_NoDup i m) as Hnd.
  assert (Hall : Forall (fun p => sender p.1 = sender i) (sender_range i m)).
  { apply Forall_forall. intros [j a] Hj%elem_of_sender_range. naive_solver. }
  revert Hs Hnd Hall. generalize (sender_range i m) as l. clear.
  induction 1 as [|[j a] l Hs IH Hle]; intros Hnd Hall; constructor.
  - apply IH; [by inversion Hnd|by inversion Hall].
  - rewrite Forall_forall in *. intros [k b] Hk. simpl.
    specialize (Hle _ Hk). pose proof (Hall (j, a) ltac:(set_solver)) as Hj.
    pose proof (Hall (k, b) ltac:(set_solver)) as Hk'.
    rewrite fmap_cons, NoDup_cons in Hnd. destruct Hnd as [Hnd _].
    assert (j <> k). { intros ->. apply Hnd. by apply (list_elem_of_fmap_2 fst l (k, b)). }
    unfold entry_le, key_le in Hle; simpl in *. unfold id_le in Hle.
    destruct j, k; simpl in *. assert (nonce0 <> nonce1) by congruence. lia.
Qed.

(** How many of the entries belong to a sender. *)
Definition sender_count (s : SenderId) m : nat :=
  size (filter (fun p : TransactionId * A => sender p.1 = s) m).

Lemma sender_count_insert s m i a :
  m !! i = None ->
  sender_count s (<[i := a]> m) =
  if bool_decide (sender i = s) then S (sender_count s m) else sender_count s m.
Proof.
  intros Hi. unfold sender_count. rewrite map_filter_insert.
  case_bool_decide; case_decide; simpl in *; try done.
  - rewrite map_size_insert_None; [done|]. apply map_lookup_filter_None. by left.
  - by rewrite delete_id.
Qed.

Lemma sender_count_delete s m i a :
  m !! i = Some a ->
  sender_count s m =
  if bool_decide (sender i = s) then S (sender_count s (delete i m)) else sender_count s (delete i m).
Proof.
  intros Hi. rewrite <- (insert_delete_id m i a Hi) at 1.
  by rewrite sender_count_insert by apply lookup_delete_eq.
Qed.

Lemma sender_count_zero s m : sender_count s m = 0%nat <-> (forall i, sender i = s -> m !! i = None).
Proof.
  unfold sender_count. rewrite map_size_empty_iff. split.
  - intros He i Hi. destruct (m !! i) as [a|] eqn:E; [|done].
    assert (filter (fun p : TransactionId * A => sender p.1 = s) m !! i = Some a) as Hf
      by (by apply map_lookup_filter_Some).
    by rewrite He, lookup_empty in Hf.
  - intros Hm. apply map_empty. intros i. apply map_lookup_filter_None.
    destruct (decide (sender i = s)); [left; auto|by right].
Qed.

Lemma sender_count_le s m : (sender_count s m <= size m)%nat.
Proof. apply map_subseteq_size, map_filter_subseteq. Qed.

End sender_range.

(** ** Sender identifiers *)

Record SenderIdentifiers := mkSenderIdentifiers {
  id : Z;
  address_to_id : gmap Z SenderId;
  sender_to_address : gmap SenderId Z;
}.

Definition empty_identifiers : SenderIdentifiers := mkSenderIdentifiers 0 ∅ ∅.

Definition address (self : SenderIdentifiers) (s : SenderId) : option Z :=
  sender_to_address self !! s.

Definition sender_id (self : SenderIdentifiers) (addr : Z) : option SenderId :=
  address_to_id self !! addr.

Definition next_id (self : SenderIdentifiers) : SenderIdentifiers * SenderId :=
  let i := id self in
  (mkSenderIdentifiers (wrapping_add_u64 (id self) 1) (address_to_id self)
     (sender_to_address self), i).

Definition sender_id_or_create (self : SenderIdentifiers) (addr : Z)
  : SenderIdentifiers * SenderId :=
  match sender_id self addr with
  | Some i => (self, i)
  | None =>
      let '(self, i) := next_id self in
      (mkSenderIdentifiers (id self) (<[addr := i]> (address_to_id self))
         (<[i := addr]> (sender_to_address self)), i)
  end.

Fixpoint sender_ids_or_create (self : SenderIdentifiers) (addrs : list Z)
  : SenderIdentifiers * list SenderId :=
  match addrs with
  | [] => (self, [])
  | addr :: addrs =>
      let '(self, i) := sender_id_or_create self addr in
      let '(self, rest) := sender_ids_or_create self addrs in
      (self, i :: rest)
  end.

(** ** Lemmas *)

(** The two maps are inverse to each other and every identifier in use is
    below the counter, which has not wrapped. *)
Record ids_ok (s : SenderIdentifiers) : Prop := {
  ids_inverse a i : address_to_id s !! a = Some i <-> sender_to_address s !! i = Some a;
  ids_below a i : address_to_id s !! a = Some i -> 0 <= i < id s;
  ids_count : id s = Z.of_nat (size (address_to_id s));
}.

Lemma ids_ok_empty : ids_ok empty_identifiers.
Proof. split; simpl; [intros; by rewrite !lookup_empty| |done]. intros a i. by rewrite lookup_empty. Qed.

Lemma sender_id_or_create_ok s a :
  ids_ok s -> id s + 1 < u64_modulus ->
  let '(s', i) := sender_id_or_create s a in
  ids_ok s' /\ address_to_id s' !! a = Some i /\ id s' <= id s + 1 /\
  address_to_id s ⊆ address_to_id s'.
Proof.
  intros Hok Hroom. unfold sender_id_or_create, sender_id.
  destruct (address_to_id s !! a) as [i|] eqn:Ha; simpl.
  { split_and!; [done|done|lia|done]. }
  assert (Hw : wrapping_add_u64 (id s) 1 = id s + 1).
  { apply wrap_u64_small. pose proof (ids_count _ Hok). unfold is_u64. lia. }
  assert (Hfresh : sender_to_address s !! id s = None).
  { destruct (sender_to_address s !! id s) as [b|] eqn:Hb; [|done].
    apply (ids_inverse _ Hok), (ids_below _ Hok) in Hb. lia. }
  split_and!; [|by simplify_map_eq|lia|by apply insert_subseteq].
  split; simpl.
  - intros b i. destruct (decide (a = b)) as [<-|Hab], (decide (id s = i)) as [<-|Hi];
      rewrite ?lookup_insert_eq, ?lookup_insert_ne by done.
    + done.
    + split; [congruence|]. intros Hb. apply (ids_inverse _ Hok) in Hb. congruence.
    + split; [|congruence]. intros Hb. apply (ids_below _ Hok) in Hb. lia.
    + apply (ids_inverse _ Hok).
  - intros b i. pose proof (ids_count _ Hok).
    destruct (decide (a = b)) as [<-|Hab]; rewrite ?lookup_insert_eq, ?lookup_insert_ne by done.
    + intros [= <-]. lia.
    + intros Hb. apply (ids_below _ Hok) in Hb. lia.
  - rewrite map_size_insert_None by done. pose proof (ids_count _ Hok). lia.
Qed.

Lemma sender_ids_or_create_ok s addrs :
  ids_ok s -> id s + Z.of_nat (length addrs) < u64_modulus ->
  let '(s', ids) := sender_ids_or_create s addrs in
  ids_ok s' /\ Forall2 (fun a i => address_to_id s' !! a = Some i) addrs ids /\
  address_to_id s ⊆ address_to_id s'.
Proof.
  revert s. induction addrs as [|a addrs IH]; intros s Hok Hroom; simpl; [by split_and!|].
  pose proof (sender_id_or_create_ok s a Hok) as H1. simpl in Hroom.
  destruct (sender_id_or_create s a) as [s1 i].
  destruct H1 as (Hok1 & Ha & Hle & Hsub1); [lia|].
  specialize (IH s1 Hok1). destruct (sender_ids_or_create s1 addrs) as [s2 rest].
  destruct IH as (Hok2 & Hall & Hsub2); [lia|].
  split_and!; [done| |by etrans].
  constructor; [|done]. by eapply lookup_weaken.
Qed.

(** ** Size tracking *)

(** An [isize]; the additions of the release profile wrap. *)
Record SizeTracker := mkSizeTracker { tracked : Z }.

Definition size_default : SizeTracker := mkSizeTracker 0.
Definition size_reset (self : SizeTracker) : SizeTracker := mkSizeTracker 0.
Definition size_add (self : SizeTracker) (rhs : Z) : SizeTracker :=
  mkSizeTracker (wrap_i64 (tracked self + wrap_i64 rhs)).
Definition size_sub (self : SizeTracker) (rhs : Z) : SizeTracker :=
  mkSizeTracker (wrap_i64 (tracked self - wrap_i64 rhs)).
Definition size_into_usize (self : SizeTracker) : Z := wrap_u64 (tracked self).

Lemma size_add_usize s z :
  size_into_usize (size_add s z) = wrap_u64 (size_into_usize s + z).
Proof.
  unfold size_into_usize, size_add. simpl.
  rewrite wrap_u64_wrap_i64, wrap_u64_add_l, <- wrap_u64_add_r, wrap_u64_wrap_i64.
  apply wrap_u64_add_r.
Qed.

Lemma size_sub_usize s z :
  size_into_usize (size_sub s z) = wrap_u64 (size_into_usize s - z).
Proof.
  unfold size_into_usize, size_sub. simpl.
  rewrite wrap_u64_wrap_i64, wrap_u64_sub_l, <- wrap_u64_sub_r, wrap_u64_wrap_i64.
  apply wrap_u64_sub_r.
Qed.

(** ** Properties *)

(** C38: identifiers are assigned one to one.  Starting from the empty table,
    as long as fewer than [2^64] addresses are looked up, the identifiers
    returned for a list of addresses are equal exactly where the addresses
    are, each maps back to its address, and asking again returns it. *)
Theorem sender_ids_bijection addrs s' ids :
  Z.of_nat (length addrs) < u64_modulus ->
  sender_ids_or_create empty_identifiers addrs = (s', ids) ->
  length ids = length addrs /\
  (forall j k a b i i', addrs !! j = Some a -> addrs !! k = Some b ->
     ids !! j = Some i -> ids !! k = Some i' -> (i = i' <-> a = b)) /\
  (forall j a i, addrs !! j = Some a -> ids !! j = Some i ->
     address s' i = Some a /\ sender_id s' a = Some i /\
     sender_id_or_create s' a = (s', i)).
Proof.
  intros Hlen Heq.
  pose proof (sender_ids_or_create_ok empty_identifiers addrs ids_ok_empty) as H.
  rewrite Heq in H. destruct H as (Hok & Hall & _); [simpl; lia|].
  assert (Hget : forall j a i, addrs !! j = Some a -> ids !! j = Some i ->
            address_to_id s' !! a = Some i) by (intros j a i ??; exact (Forall2_lookup_lr _ _ _ _ _ _ Hall ltac:(done) ltac:(done))).
  split_and!.
  - symmetry. by eapply Forall2_length.
  - intros j k a b i i' Ha Hb Hi Hi'.
    pose proof (Hget _ _ _ Ha Hi) as H1. pose proof (Hget _ _ _ Hb Hi') as H2.
    split; intros ->; [|congruence].
    apply (ids_inverse _ Hok) in H1, H2. congruence.
  - intros j a i Ha Hi. pose proof (Hget _ _ _ Ha Hi) as H1.
    unfold sender_id_or_create, sender_id, address. rewrite H1.
    split_and!; [by apply (ids_inverse _ Hok)|done|done].
Qed.

Lemma sender_ids_bijection_witness :
  sender_ids_or_create empty_identifiers [7; 9; 7] =
    ((sender_ids_or_create empty_identifiers [7; 9; 7]).1, [0; 1; 0]) /\
  address (sender_ids_or_create empty_identifiers [7; 9; 7]).1 1 = Some 9.
Proof.
  assert (Heq : sender_ids_or_create empty_identifiers [7; 9; 7] =
    ((sender_ids_or_create empty_identifiers [7; 9; 7]).1, [0; 1; 0])) by (vm_compute; reflexivity).
  split; [exact Heq|].
  destruct (sender_ids_bijection [7; 9; 7] _ [0; 1; 0] ltac:(done) Heq) as (_ & _ & H).
  apply (H 1%nat); reflexivity.
Defined.

End Identifier.
