(* ===== verification/TxState.v ===== *)
(** * The state byte of a pooled transaction and its sub-pool

    [crates/transaction-pool/src/pool/state.rs]: the [TxState] bit flags, the
    [SubPool] identifiers and the derivation of the latter from the former. *)

From S2P Require Import Prelude.

Module TxState.

(** ** The flags *)

(** A [bitflags] structure over [u8]. *)
Abbreviation TxState := Z (only parsing).

Definition NO_PARKED_ANCESTORS : TxState := 128.
Definition NO_NONCE_GAPS : TxState := 64.
Definition ENOUGH_BALANCE : TxState := 32.
Definition NOT_TOO_MUCH_GAS : TxState := 16.
Definition ENOUGH_FEE_CAP_BLOCK : TxState := 8.
Definition ENOUGH_BLOB_FEE_CAP_BLOCK : TxState := 4.
Definition BLOB_TRANSACTION : TxState := 2.

Definition PENDING_POOL_BITS : TxState :=
  Z.lor (Z.lor (Z.lor (Z.lor (Z.lor NO_PARKED_ANCESTORS NO_NONCE_GAPS) ENOUGH_BALANCE)
    NOT_TOO_MUCH_GAS) ENOUGH_FEE_CAP_BLOCK) ENOUGH_BLOB_FEE_CAP_BLOCK.

Definition BASE_FEE_POOL_BITS : TxState :=
  Z.lor (Z.lor (Z.lor NO_PARKED_ANCESTORS NO_NONCE_GAPS) ENOUGH_BALANCE) NOT_TOO_MUCH_GAS.

(** The [bitflags] operations the pool uses. *)
Definition insert (self other : TxState) : TxState := Z.lor self other.
Definition remove (self other : TxState) : TxState := Z.ldiff self other.
Definition contains (self other : TxState) : bool := Z.land self other =? other.
Definition intersects (self other : TxState) : bool := negb (Z.land self other =? 0).

Definition is_pending (self : TxState) : bool := PENDING_POOL_BITS <=? self.
Definition is_blob (self : TxState) : bool := contains self BLOB_TRANSACTION.
Definition has_nonce_gap (self : TxState) : bool := negb (intersects self NO_NONCE_GAPS).

(** ** Sub-pools *)

Inductive SubPool := Queued | BaseFee | Blob | Pending.

#[export] Instance SubPool_eq_dec : EqDecision SubPool.
Proof. solve_decision. Defined.

(** The [repr(u8)] discriminant, which the derived [Ord] compares. *)
Definition discriminant (p : SubPool) : Z :=
  match p with Queued => 0 | BaseFee => 1 | Blob => 2 | Pending => 3 end.

Definition subpool_is_pending (p : SubPool) : bool :=
  match p with Pending => true | _ => false end.

Definition is_promoted (self other : SubPool) : bool := discriminant other <? discriminant self.

(** [impl From<TxState> for SubPool]. *)
Definition into_subpool (value : TxState) : SubPool :=
  if is_pending value then Pending
  else if is_blob value then Blob
  else if value <? BASE_FEE_POOL_BITS then Queued
  else BaseFee.

Inductive QueuedReason :=
| NonceGap | ParkedAncestors | InsufficientBalance | TooMuchGas
| InsufficientBaseFee | InsufficientBlobFee.

Definition determine_queued_reason (self : TxState) (subpool : SubPool) : option QueuedReason :=
  match subpool with
  | Pending => None
  | Queued =>
      if negb (contains self NO_NONCE_GAPS) then Some NonceGap
      else if negb (contains self ENOUGH_BALANCE) then Some InsufficientBalance
      else if negb (contains self NO_PARKED_ANCESTORS) then Some ParkedAncestors
      else if negb (contains self NOT_TOO_MUCH_GAS) then Some TooMuchGas
      else Some NonceGap
  | BaseFee => Some InsufficientBaseFee
  | Blob => Some InsufficientBlobFee
  end.

(** ** Reasoning about all states by computation *)

Definition is_u8 (s : TxState) : Prop := 0 <= s < 256.

Definition flags : list TxState :=
  [NO_PARKED_ANCESTORS; NO_NONCE_GAPS; ENOUGH_BALANCE; NOT_TOO_MUCH_GAS;
   ENOUGH_FEE_CAP_BLOCK; ENOUGH_BLOB_FEE_CAP_BLOCK; BLOB_TRANSACTION].

Lemma u8_forall (P : TxState -> bool) :
  forallb P (seqZ 0 256) = true -> forall s, is_u8 s -> P s = true.
Proof.
  intros H s Hs. rewrite forallb_forall in H. apply H.
  apply list_elem_of_In, elem_of_seqZ. unfold is_u8 in Hs. lia.
Qed.

Lemma u8_eqb (f g : TxState -> bool) :
  forallb (fun s => Bool.eqb (f s) (g s)) (seqZ 0 256) = true ->
  forall s, is_u8 s -> f s = g s.
Proof. intros H s Hs. by apply Bool.eqb_prop, (u8_forall (fun s => Bool.eqb (f s) (g s))). Qed.

Lemma flags_forall (P : TxState -> TxState -> bool) :
  forallb (fun s => forallb (P s) flags) (seqZ 0 256) = true ->
  forall s f, is_u8 s -> f ∈ flags -> P s f = true.
Proof.
  intros H s f Hs Hf. pose proof (u8_forall _ H s Hs) as H'.
  rewrite forallb_forall in H'. by apply H', list_elem_of_In.
Qed.

Ltac flag_in := unfold flags; repeat (apply list_elem_of_here || apply list_elem_of_further).

Lemma insert_u8 s f : is_u8 s -> f ∈ flags -> is_u8 (insert s f).
Proof.
  intros Hs Hf.
  assert (H : ((0 <=? insert s f) && (insert s f <? 256))%bool = true).
  { by apply (flags_forall (fun s f => (0 <=? insert s f) && (insert s f <? 256))%bool). }
  bools. by split.
Qed.

Lemma remove_u8 s f : is_u8 s -> f ∈ flags -> is_u8 (remove s f).
Proof.
  intros Hs Hf.
  assert (H : ((0 <=? remove s f) && (remove s f <? 256))%bool = true).
  { by apply (flags_forall (fun s f => (0 <=? remove s f) && (remove s f <? 256))%bool). }
  bools. by split.
Qed.

(** Setting or clearing one flag leaves the others alone. *)
Lemma contains_insert s f g :
  is_u8 s -> f ∈ flags -> g ∈ flags ->
  contains (insert s f) g = (bool_decide (g = f) || contains s g)%bool.
Proof.
  intros Hs Hf Hg.
  pose proof (flags_forall (fun s f => forallb (fun g =>
    Bool.eqb (contains (insert s f) g) (bool_decide (g = f) || contains s g)) flags)) as H.
  specialize (H eq_refl s f Hs Hf). cbv beta in H. rewrite forallb_forall in H.
  apply Bool.eqb_prop, (H g), list_elem_of_In, Hg.
Qed.

Lemma contains_remove s f g :
  is_u8 s -> f ∈ flags -> g ∈ flags ->
  contains (remove s f) g = (negb (bool_decide (g = f)) && contains s g)%bool.
Proof.
  intros Hs Hf Hg.
  pose proof (flags_forall (fun s f => forallb (fun g =>
    Bool.eqb (contains (remove s f) g) (negb (bool_decide (g = f)) && contains s g)) flags)) as H.
  specialize (H eq_refl s f Hs Hf). cbv beta in H. rewrite forallb_forall in H.
  apply Bool.eqb_prop, (H g), list_elem_of_In, Hg.
Qed.

(** [is_pending] compares the byte as a number; since the flags it asks for
    are the six highest bits this is the same as having all of them. *)
Lemma is_pending_flags s :
  is_u8 s ->
  is_pending s =
  (contains s NO_PARKED_ANCESTORS && contains s NO_NONCE_GAPS && contains s ENOUGH_BALANCE &&
   contains s NOT_TOO_MUCH_GAS && contains s ENOUGH_FEE_CAP_BLOCK &&
   contains s ENOUGH_BLOB_FEE_CAP_BLOCK)%bool.
Proof. revert s. apply u8_eqb. vm_compute. reflexivity. Qed.

Lemma base_fee_bits_flags s :
  is_u8 s ->
  (s <? BASE_FEE_POOL_BITS) =
  negb (contains s NO_PARKED_ANCESTORS && contains s NO_NONCE_GAPS && contains s ENOUGH_BALANCE &&
        contains s NOT_TOO_MUCH_GAS).
Proof. revert s. apply u8_eqb. vm_compute. reflexivity. Qed.

Lemma has_nonce_gap_flag s : is_u8 s -> has_nonce_gap s = negb (contains s NO_NONCE_GAPS).
Proof. revert s. apply u8_eqb. vm_compute. reflexivity. Qed.

Lemma into_subpool_flags s :
  is_u8 s ->
  let ready := (contains s NO_PARKED_ANCESTORS && contains s NO_NONCE_GAPS &&
                contains s ENOUGH_BALANCE && contains s NOT_TOO_MUCH_GAS)%bool in
  let fees := (contains s ENOUGH_FEE_CAP_BLOCK && contains s ENOUGH_BLOB_FEE_CAP_BLOCK)%bool in
  into_subpool s =
    if (ready && fees)%bool then Pending
    else if contains s BLOB_TRANSACTION then Blob
    else if ready then BaseFee else Queued.
Proof.
  intros Hs ready fees. unfold into_subpool.
  rewrite is_pending_flags, base_fee_bits_flags by done.
  subst ready fees. rewrite <- !andb_assoc. unfold is_blob.
  destruct (contains s BLOB_TRANSACTION), (contains s NO_PARKED_ANCESTORS),
    (contains s NO_NONCE_GAPS), (contains s ENOUGH_BALANCE), (contains s NOT_TOO_MUCH_GAS); done.
Qed.

(** ** Properties *)

(** The sub-pool of a state, derived by comparing the byte as a number,
    is what the flags say: Pending when all six pending flags are set,
    otherwise Blob for a blob transaction, otherwise BaseFee when only the
    fee flags are missing, otherwise Queued. *)
Theorem into_subpool_spec s :
  is_u8 s ->
  let ready := (contains s NO_PARKED_ANCESTORS && contains s NO_NONCE_GAPS &&
                contains s ENOUGH_BALANCE && contains s NOT_TOO_MUCH_GAS)%bool in
  let fees := (contains s ENOUGH_FEE_CAP_BLOCK && contains s ENOUGH_BLOB_FEE_CAP_BLOCK)%bool in
  into_subpool s =
    if (ready && fees)%bool then Pending
    else if contains s BLOB_TRANSACTION then Blob
    else if ready then BaseFee else Queued.
Proof. apply into_subpool_flags. Qed.

Lemma into_subpool_spec_witness : is_u8 244 /\ into_subpool 244 = BaseFee.
Proof. split; [done|]. exact (into_subpool_spec 244 ltac:(done)). Defined.

(** The reported reason for a parked transaction is never the fallback:
    whatever reason is given for a queued transaction names a flag its state
    does not have, and no reason is given exactly for pending ones. *)
Theorem determine_queued_reason_sound s :
  is_u8 s ->
  match determine_queued_reason s (into_subpool s) with
  | None => is_pending s = true
  | Some NonceGap => contains s NO_NONCE_GAPS = false
  | Some InsufficientBalance => contains s ENOUGH_BALANCE = false
  | Some ParkedAncestors => contains s NO_PARKED_ANCESTORS = false
  | Some TooMuchGas => contains s NOT_TOO_MUCH_GAS = false
  | Some InsufficientBaseFee => is_blob s = false /\ is_pending s = false /\
      (contains s ENOUGH_FEE_CAP_BLOCK = false \/ contains s ENOUGH_BLOB_FEE_CAP_BLOCK = false)
  | Some InsufficientBlobFee => is_blob s = true /\ is_pending s = false
  end.
Proof.
  intros Hs. rewrite into_subpool_flags, is_pending_flags by done. unfold is_blob.
  destruct (contains s BLOB_TRANSACTION) eqn:E0, (contains s NO_PARKED_ANCESTORS) eqn:E1,
    (contains s NO_NONCE_GAPS) eqn:E2, (contains s ENOUGH_BALANCE) eqn:E3,
    (contains s NOT_TOO_MUCH_GAS) eqn:E4, (contains s ENOUGH_FEE_CAP_BLOCK) eqn:E5,
    (contains s ENOUGH_BLOB_FEE_CAP_BLOCK) eqn:E6;
    simpl; rewrite ?E1, ?E2, ?E3, ?E4; simpl; auto.
Qed.

Lemma determine_queued_reason_sound_witness :
  determine_queued_reason 212 (into_subpool 212) = Some InsufficientBalance /\
  contains 212 ENOUGH_BALANCE = false.
Proof. split; [reflexivity|]. exact (determine_queued_reason_sound 212 ltac:(done)). Defined.

End TxState.
