(* ===== verification/TxErrors.v ===== *)
(** * Errors of the transaction pool

    [crates/transaction-pool/src/error.rs], and the consensus errors of
    [crates/primitives-traits/src/transaction/error.rs] they wrap.  Errors are
    values; what the pool does with them is to decide whether the peer that sent
    the transaction is penalised ([is_bad_transaction]). *)

From S2P Require Import Prelude.

(** Constants and types of the [alloy] crates, which are not part of the
    repository. *)
Class AlloyConstants := {
  EIP4844_TX_TYPE_ID : Z;
  KECCAK_EMPTY : Z;
  MIN_PROTOCOL_BASE_FEE : Z;
  ETHEREUM_BLOCK_GAS_LIMIT_30M : Z;
  BLOB_TX_MIN_BLOB_GASPRICE : Z;
  BlobTransactionValidationError : Type;
}.

Module TxErrors.

Section errors.
Context `{AlloyConstants}.

Inductive InvalidTransactionError :=
| InsufficientFunds (got expected : Z)
| NonceNotConsistent (tx state : Z)
| OldLegacyChainId
| ChainIdMismatch
| Eip2930Disabled
| Eip1559Disabled
| Eip4844Disabled
| Eip7702Disabled
| TxTypeNotSupported
| GasUintOverflow
| GasTooLow
| GasTooHigh
| TipAboveFeeCap
| FeeCapTooLow
| SignerAccountHasBytecode
| GasLimitTooHigh.

Inductive Eip4844PoolTransactionError :=
| MissingEip4844BlobSidecar
| NoEip4844Blobs
| TooManyEip4844Blobs (have permitted : Z)
| InvalidEip4844Blob (e : BlobTransactionValidationError)
| Eip4844NonceGap
| UnexpectedEip7594SidecarBeforeOsaka
| UnexpectedEip4844SidecarAfterOsaka.

Inductive Eip7702PoolTransactionError :=
| MissingEip7702AuthorizationList
| OutOfOrderTxFromDelegated
| InflightTxLimitReached
| AuthorityReserved.

(** The trait object [Box<dyn PoolTransactionError>]: its text and its own
    [is_bad_transaction]. *)
Record PoolTransactionError := mkPoolTransactionError {
  error_text : string;
  error_is_bad : bool;
}.

Inductive InvalidPoolTransactionError :=
| Consensus (e : InvalidTransactionError)
| ExceedsGasLimit (tx_gas_limit block_gas_limit : Z)
| MaxTxGasLimitExceeded (tx_gas_limit max_tx_gas_limit : Z)
| ExceedsFeeCap (max_tx_fee_wei tx_fee_cap_wei : Z)
| ExceedsMaxInitCodeSize (size max : Z)
| OversizedData (size max : Z)
| Underpriced
| Overdraft (cost balance : Z)
| Eip2681
| Eip4844 (e : Eip4844PoolTransactionError)
| Eip7702 (e : Eip7702PoolTransactionError)
| OtherInvalid (e : PoolTransactionError)
| IntrinsicGasTooLow
| PriorityFeeBelowMinimum (minimum_priority_fee : Z).

Inductive PoolErrorKind :=
| AlreadyImported
| ReplacementUnderpriced
| FeeCapBelowMinimumProtocolFeeCap (fee_cap : Z)
| SpammerExceededCapacity (address : Z)
| DiscardedOnInsert
| InvalidTransaction (e : InvalidPoolTransactionError)
| ExistingConflictingTransactionType (address ty : Z)
| OtherError (text : string).

Record PoolError := mkPoolError { error_hash : Z; error_kind : PoolErrorKind }.

(** The private [is_bad_transaction] of [InvalidPoolTransactionError]. *)
Definition invalid_is_bad_transaction (self : InvalidPoolTransactionError) : bool :=
  match self with
  | Consensus err =>
      match err with
      | InsufficientFunds _ _ | NonceNotConsistent _ _ => false
      | GasTooLow | GasTooHigh | TipAboveFeeCap => false
      | FeeCapTooLow => false
      | Eip2930Disabled | Eip1559Disabled | Eip4844Disabled | Eip7702Disabled => false
      | OldLegacyChainId | ChainIdMismatch | GasUintOverflow | TxTypeNotSupported
      | SignerAccountHasBytecode | GasLimitTooHigh => true
      end
  | ExceedsGasLimit _ _ => true
  | MaxTxGasLimitExceeded _ _ => false
  | ExceedsFeeCap _ _ => true
  | ExceedsMaxInitCodeSize _ _ => true
  | OversizedData _ _ => true
  | Underpriced => false
  | IntrinsicGasTooLow => true
  | Overdraft _ _ => false
  | OtherInvalid err => error_is_bad err
  | Eip2681 => true
  | Eip4844 eip4844_err =>
      match eip4844_err with
      | MissingEip4844BlobSidecar => false
      | InvalidEip4844Blob _ => true
      | Eip4844NonceGap => false
      | NoEip4844Blobs => true
      | TooManyEip4844Blobs _ _ => true
      | UnexpectedEip4844SidecarAfterOsaka | UnexpectedEip7594SidecarBeforeOsaka => false
      end
  | Eip7702 eip7702_err =>
      match eip7702_err with
      | MissingEip7702AuthorizationList => true
      | OutOfOrderTxFromDelegated => false
      | InflightTxLimitReached => false
      | AuthorityReserved => false
      end
  | PriorityFeeBelowMinimum _ => false
  end.

Definition is_bad_transaction (self : PoolError) : bool :=
  match error_kind self with
  | AlreadyImported => false
  | ReplacementUnderpriced => false
  | FeeCapBelowMinimumProtocolFeeCap _ => false
  | SpammerExceededCapacity _ => false
  | DiscardedOnInsert => false
  | InvalidTransaction err => invalid_is_bad_transaction err
  | OtherError _ => false
  | ExistingConflictingTransactionType _ _ => false
  end.

Definition is_oversized (self : InvalidPoolTransactionError) : bool :=
  match self with OversizedData _ _ => true | _ => false end.

Definition is_nonce_gap (self : InvalidPoolTransactionError) : bool :=
  match self with
  | Consensus (NonceNotConsistent _ _) => true
  | Eip4844 Eip4844NonceGap => true
  | _ => false
  end.

Definition as_other (self : InvalidPoolTransactionError) : option PoolTransactionError :=
  match self with OtherInvalid err => Some err | _ => None end.

End errors.

End TxErrors.
