(* ===== verification/BeaconConsensus.v ===== *)
(** * Rules for headers and blocks

    [crates/consensus/consensus/src/lib.rs], [noop.rs]: the traits of a consensus and
    their errors; [crates/consensus/common/src/validation.rs] and
    [crates/ethereum/consensus/src]: the rules of [EthBeaconConsensus], which is
    the consensus the PoA node runs with.

    The trait is the class [HeaderValidator].  The clock, which only matters
    before the merge, is an argument: a header comes with the time at which it is checked.
    Roots, bloom filters and encodings computed by alloy are the class [BodyTypes]. *)

From S2P Require Import Prelude TxErrors ChainSpec.
Import ChainSpecs.

Module Beacon.

(** ** Data *)

(** Types and functions of alloy that the rules on bodies use. *)
Class BodyTypes := {
  Transaction : Type;
  t_hash : Transaction -> Z;
  t_gas_limit : Transaction -> Z;
  t_blob_gas_used : Transaction -> option Z;
  Withdrawal : Type;
  calculate_transaction_root : list Transaction -> Z;
  calculate_withdrawals_root : list Withdrawal -> Z;
  calculate_ommers_root : list Header -> Z;
  rlp_length_of : Header -> list Transaction -> option (list Header) -> option (list Withdrawal) -> Z;
  Receipt : Type;
  cumulative_gas_used : Receipt -> Z;
  bloom : Receipt -> Z;
  calculate_receipt_root : list Receipt -> Z;
  Requests : Type;
  requests_hash_of : Requests -> Z;
  MAXIMUM_EXTRA_DATA_SIZE : Z;
  DATA_GAS_PER_BLOB : Z;
  ALLOWED_FUTURE_BLOCK_TIME_SECONDS : Z;
}.

Definition MINIMUM_GAS_LIMIT : Z := 5000.
Definition MAXIMUM_GAS_LIMIT_BLOCK : Z := 2 ^ 63 - 1.
Definition GAS_LIMIT_BOUND_DIVISOR : Z := 1024.
Definition MAX_TX_GAS_LIMIT_OSAKA : Z := 2 ^ 24.
Definition MAX_RLP_BLOCK_SIZE : Z := 8388608.

Record GotExpected := mkGotExpected { got : Z; expected : Z }.

Record TxGasLimitTooHighErr := mkTxGasLimitTooHighErr { e_tx_hash : Z; e_gas_limit : Z; e_max_allowed : Z }.

Inductive ConsensusError :=
| HeaderGasUsedExceedsGasLimit (gas_used gas_limit : Z)
| HeaderGasLimitExceedsMax (gas_limit : Z)
| BlockGasUsed (gas : GotExpected) (gas_spent_by_tx : list (Z * Z))
| BodyOmmersHashDiff (d : GotExpected)
| BodyStateRootDiff (d : GotExpected)
| BodyTransactionRootDiff (d : GotExpected)
| BodyReceiptRootDiff (d : GotExpected)
| BodyBloomLogDiff (d : GotExpected)
| BodyWithdrawalsRootDiff (d : GotExpected)
| BodyRequestsHashDiff (d : GotExpected)
| BlockKnown (hash number : Z)
| ParentUnknown (hash : Z)
| ParentBlockNumberMismatch (parent_block_number block_number : Z)
| ParentHashMismatch (d : GotExpected)
| TimestampIsInFuture (timestamp present_timestamp : Z)
| BaseFeeMissing
| TransactionSignerRecoveryError
| ExtraDataExceedsMax (len : Z)
| TheMergeDifficultyIsNotZero
| TheMergeNonceIsNotZero
| TheMergeOmmerRootIsNotEmpty
| WithdrawalsRootMissing
| RequestsHashMissing
| WithdrawalsRootUnexpected
| RequestsHashUnexpected
| BodyWithdrawalsMissing
| BodyRequestsMissing
| BlobGasUsedMissing
| BlobGasUsedUnexpected
| ExcessBlobGasMissing
| ExcessBlobGasUnexpected
| ParentBeaconBlockRootMissing
| ParentBeaconBlockRootUnexpected
| BlobGasUsedExceedsMaxBlobGasPerBlock (blob_gas_used max_blob_gas_per_block : Z)
| BlobGasUsedNotMultipleOfBlobGasPerBlob (blob_gas_used blob_gas_per_blob : Z)
| BlobGasUsedDiff (d : GotExpected)
| InvalidTransaction (e : TxErrors.InvalidTransactionError)
| BaseFeeDiff (d : GotExpected)
| ExcessBlobGasDiff (diff : GotExpected) (parent_excess_blob_gas parent_blob_gas_used : Z)
| GasLimitInvalidIncrease (parent_gas_limit child_gas_limit : Z)
| GasLimitInvalidMinimum (child_gas_limit : Z)
| GasLimitInvalidBlockMaximum (block_gas_limit : Z)
| GasLimitInvalidDecrease (parent_gas_limit child_gas_limit : Z)
| TimestampIsInPast (parent_timestamp timestamp : Z)
| BlockTooLarge (rlp_length max_rlp_length : Z)
| TransactionGasLimitTooHigh (e : TxGasLimitTooHighErr)
| Other (msg : string).

Definition is_state_root_error (e : ConsensusError) : bool :=
  match e with BodyStateRootDiff _ => true | _ => false end.

Definition outcome : Type := result unit ConsensusError.

(** [if b { return Err(e) }]. *)
Definition reject_if (b : bool) (e : ConsensusError) : outcome := if b then Err e else Ok tt.
(** [o.ok_or(e)]. *)
Definition ok_or {A} (o : option A) (e : ConsensusError) : result A ConsensusError :=
  match o with Some a => Ok a | None => Err e end.
Definition is_some {A} (o : option A) : bool := match o with Some _ => true | None => false end.

Section rules.
Context `{ChainTypes} `{BodyTypes}.
Local Open Scope reth_scope.
Implicit Types (h parent : Header) (spec : ChainSpec).

Record BlockBody := mkBlockBody {
  transactions : list Transaction;
  ommers : option (list Header);
  withdrawals : option (list Withdrawal);
}.

(** A block with the hash of its header. *)
Record SealedBlock := mkSealedBlock {
  sealed_header : SealedHeader;
  body : BlockBody;
}.
Definition block_header (b : SealedBlock) : Header := header (sealed_header b).
(** The length of the encoding of a block. *)
Definition rlp_length (b : SealedBlock) : Z :=
  rlp_length_of (block_header b) (transactions (body b)) (ommers (body b)) (withdrawals (body b)).

(** ** Bodies *)

Definition calculate_tx_root (b : BlockBody) : Z := calculate_transaction_root (transactions b).
Definition body_withdrawals_root (b : BlockBody) : option Z := calculate_withdrawals_root <$> withdrawals b.
Definition body_ommers_root (b : BlockBody) : option Z := calculate_ommers_root <$> ommers b.
(** [sum] on [u64] wraps around. *)
Definition body_blob_gas_used (b : BlockBody) : Z :=
  foldl (fun acc g => wrap_u64 (acc + g)) 0 (omap t_blob_gas_used (transactions b)).

Definition ensure_transaction_root_valid (b : SealedBlock) : result unit GotExpected :=
  let calculated_root := calculate_tx_root (body b) in
  if negb (transactions_root (block_header b) =? calculated_root)
  then Err (mkGotExpected calculated_root (transactions_root (block_header b))) else Ok tt.

(** ** Headers on their own *)

Definition validate_header_gas h : outcome :=
  _ <-? reject_if (gas_limit h <? gas_used h) (HeaderGasUsedExceedsGasLimit (gas_used h) (gas_limit h));
  reject_if (MAXIMUM_GAS_LIMIT_BLOCK <? gas_limit h) (HeaderGasLimitExceedsMax (gas_limit h)).

Definition validate_header_base_fee h spec : outcome :=
  reject_if (is_active_at_block spec London (number h) && negb (is_some (base_fee_per_gas h))) BaseFeeMissing.

Definition validate_header_extra_data h : outcome :=
  reject_if (MAXIMUM_EXTRA_DATA_SIZE <? Z.of_nat (length (extra_data h)))
    (ExtraDataExceedsMax (Z.of_nat (length (extra_data h)))).

Definition validate_4844_header_standalone h (params : BlobParams) : outcome :=
  used <-? ok_or (blob_gas_used h) BlobGasUsedMissing;
  _ <-? reject_if (negb (is_some (parent_beacon_block_root h))) ParentBeaconBlockRootMissing;
  _ <-? reject_if (negb (used mod DATA_GAS_PER_BLOB =? 0))
         (BlobGasUsedNotMultipleOfBlobGasPerBlob used DATA_GAS_PER_BLOB);
  reject_if (max_blob_gas_per_block params <? used)
    (BlobGasUsedExceedsMaxBlobGasPerBlock used (max_blob_gas_per_block params)).

(** ** Headers and their parents *)

Definition validate_against_parent_hash_number h (parent : SealedHeader) : outcome :=
  _ <-? reject_if (negb (wrapping_add_u64 (number (header parent)) 1 =? number h))
         (ParentBlockNumberMismatch (number (header parent)) (number h));
  reject_if (negb (hash parent =? parent_hash h)) (ParentHashMismatch (mkGotExpected (parent_hash h) (hash parent))).

Definition validate_against_parent_eip1559_base_fee h parent spec : outcome :=
  if is_active_at_block spec London (number h) then
    base_fee <-? ok_or (base_fee_per_gas h) BaseFeeMissing;
    expected_base_fee <-?
      (if transitions_at_block (fork (hardforks spec) (eth_name London)) (number h) then Ok INITIAL_BASE_FEE
       else ok_or (next_block_base_fee spec parent (timestamp h)) BaseFeeMissing);
    reject_if (negb (expected_base_fee =? base_fee)) (BaseFeeDiff (mkGotExpected base_fee expected_base_fee))
  else Ok tt.

Definition validate_against_parent_timestamp h parent : outcome :=
  reject_if (timestamp h <=? timestamp parent) (TimestampIsInPast (timestamp parent) (timestamp h)).

(** The limit of the parent, which the London fork multiplies. *)
Definition effective_parent_gas_limit h parent spec : Z :=
  if (negb (is_active_at_block spec London (number parent)) && is_active_at_block spec London (number h))%bool
  then wrap_u64 (gas_limit parent *
         wrap_u64 (elasticity_multiplier (base_fee_params_at_timestamp spec (timestamp h))))
  else gas_limit parent.

Definition validate_against_parent_gas_limit h parent spec : outcome :=
  let parent_gas_limit := effective_parent_gas_limit h parent spec in
  if parent_gas_limit <? gas_limit h then
    reject_if (parent_gas_limit / GAS_LIMIT_BOUND_DIVISOR <=? gas_limit h - parent_gas_limit)
      (GasLimitInvalidIncrease parent_gas_limit (gas_limit h))
  else if parent_gas_limit / GAS_LIMIT_BOUND_DIVISOR <=? parent_gas_limit - gas_limit h then
    Err (GasLimitInvalidDecrease parent_gas_limit (gas_limit h))
  else reject_if (gas_limit h <? MINIMUM_GAS_LIMIT) (GasLimitInvalidMinimum (gas_limit h)).

Definition validate_against_parent_4844 h parent (params : BlobParams) : outcome :=
  let parent_blob_gas_used := default 0 (blob_gas_used parent) in
  let parent_excess_blob_gas := default 0 (excess_blob_gas parent) in
  _ <-? reject_if (negb (is_some (blob_gas_used h))) BlobGasUsedMissing;
  excess <-? ok_or (excess_blob_gas h) ExcessBlobGasMissing;
  let expected_excess :=
    next_block_excess_blob_gas_osaka params parent_excess_blob_gas parent_blob_gas_used
      (default 0 (base_fee_per_gas parent)) in
  reject_if (negb (expected_excess =? excess))
    (ExcessBlobGasDiff (mkGotExpected excess expected_excess) parent_excess_blob_gas parent_blob_gas_used).

(** ** Blocks *)

Definition validate_shanghai_withdrawals (b : SealedBlock) : outcome :=
  ws <-? ok_or (withdrawals (body b)) BodyWithdrawalsMissing;
  let root := calculate_withdrawals_root ws in
  header_root <-? ok_or (withdrawals_root (block_header b)) WithdrawalsRootMissing;
  reject_if (negb (root =? header_root)) (BodyWithdrawalsRootDiff (mkGotExpected root header_root)).

Definition validate_cancun_gas (b : SealedBlock) : outcome :=
  header_used <-? ok_or (blob_gas_used (block_header b)) BlobGasUsedMissing;
  let total := body_blob_gas_used (body b) in
  reject_if (negb (total =? header_used)) (BlobGasUsedDiff (mkGotExpected header_used total)).

(** The test of the ommers, shared by the two functions on bodies. *)
Definition check_ommers (b : BlockBody) h : outcome :=
  reject_if (negb (bool_decide (Some (ommers_hash h) = body_ommers_root b)))
    (BodyOmmersHashDiff (mkGotExpected (default EMPTY_OMMER_ROOT_HASH (body_ommers_root b)) (ommers_hash h))).

Definition validate_body_against_header (b : BlockBody) h : outcome :=
  _ <-? check_ommers b h;
  let tx_root := calculate_tx_root b in
  _ <-? reject_if (negb (transactions_root h =? tx_root))
         (BodyTransactionRootDiff (mkGotExpected tx_root (transactions_root h)));
  match withdrawals_root h, body_withdrawals_root b with
  | Some header_root, Some root =>
      reject_if (negb (root =? header_root)) (BodyWithdrawalsRootDiff (mkGotExpected root header_root))
  | None, None => Ok tt
  | _, _ => Err WithdrawalsRootUnexpected
  end.

Definition post_merge_hardfork_fields (b : SealedBlock) spec : outcome :=
  let h := block_header b in
  _ <-? check_ommers (body b) h;
  _ <-? (if is_active_at_timestamp spec Shanghai (timestamp h) then validate_shanghai_withdrawals b else Ok tt);
  _ <-? (if is_active_at_timestamp spec Cancun (timestamp h) then validate_cancun_gas b else Ok tt);
  reject_if (is_active_at_timestamp spec Osaka (timestamp h) && (MAX_RLP_BLOCK_SIZE <? rlp_length b))
    (BlockTooLarge (rlp_length b) MAX_RLP_BLOCK_SIZE).

(** The loop over the transactions. *)
Fixpoint check_tx_gas (txs : list Transaction) : outcome :=
  match txs with
  | [] => Ok tt
  | tx :: txs =>
      if MAX_TX_GAS_LIMIT_OSAKA <? t_gas_limit tx then
        Err (TransactionGasLimitTooHigh (mkTxGasLimitTooHighErr (t_hash tx) (t_gas_limit tx) MAX_TX_GAS_LIMIT_OSAKA))
      else check_tx_gas txs
  end.

Definition validate_block_pre_execution (b : SealedBlock) spec : outcome :=
  _ <-? post_merge_hardfork_fields b spec;
  _ <-? match ensure_transaction_root_valid b with
        | Err e => Err (BodyTransactionRootDiff e)
        | Ok _ => Ok tt
        end;
  if is_active_at_timestamp spec Osaka (timestamp (block_header b)) then check_tx_gas (transactions (body b)) else Ok tt.

(** ** Results of execution *)

(** [BlockExecutionResult]. *)
Record ExecutionResult := mkExecutionResult { receipts : list Receipt; requests : Requests }.

Definition gas_spent_by_transactions (rs : list Receipt) : list (Z * Z) :=
  imap (fun i r => (Z.of_nat i, cumulative_gas_used r)) rs.

Definition compare_receipts_root_and_logs_bloom (root logs expected_root expected_logs : Z) : outcome :=
  _ <-? reject_if (negb (root =? expected_root)) (BodyReceiptRootDiff (mkGotExpected root expected_root));
  reject_if (negb (logs =? expected_logs)) (BodyBloomLogDiff (mkGotExpected logs expected_logs)).

Definition verify_receipts (expected_root expected_logs : Z) (rs : list Receipt) : outcome :=
  compare_receipts_root_and_logs_bloom (calculate_receipt_root rs)
    (foldl (fun acc r => Z.lor acc (bloom r)) 0 rs) expected_root expected_logs.

Definition validate_block_post_execution (b : SealedBlock) spec (r : ExecutionResult) : outcome :=
  let h := block_header b in
  let cumulative := default 0 (cumulative_gas_used <$> last (receipts r)) in
  _ <-? reject_if (negb (gas_used h =? cumulative))
         (BlockGasUsed (mkGotExpected cumulative (gas_used h)) (gas_spent_by_transactions (receipts r)));
  _ <-? (if is_active_at_block spec Byzantium (number h)
         then verify_receipts (receipts_root h) (logs_bloom h) (receipts r) else Ok tt);
  if is_active_at_timestamp spec Prague (timestamp h) then
    header_hash <-? ok_or (requests_hash h) RequestsHashMissing;
    reject_if (negb (requests_hash_of (requests r) =? header_hash))
      (BodyRequestsHashDiff (mkGotExpected (requests_hash_of (requests r)) header_hash))
  else Ok tt.

(** ** The traits *)

Class HeaderValidator (C : Type) := {
  hv_validate_header : C -> Z -> SealedHeader -> outcome;
  hv_validate_header_against_parent : C -> SealedHeader -> SealedHeader -> outcome;
}.
Class Consensus (C : Type) `{!HeaderValidator C} := {
  c_validate_body_against_header : C -> BlockBody -> SealedHeader -> outcome;
  c_validate_block_pre_execution : C -> SealedBlock -> outcome;
}.
Class FullConsensus (C : Type) `{!HeaderValidator C} `{!Consensus C} := {
  c_validate_block_post_execution : C -> SealedBlock -> ExecutionResult -> outcome;
}.

(** A header with the time at which it is checked. *)
Definition HeaderConsensusError : Type := ConsensusError * SealedHeader.
Definition map_err (r : outcome) (h : SealedHeader) : result unit HeaderConsensusError :=
  match r with Ok _ => Ok tt | Err e => Err (e, h) end.

Section range.
Context {C : Type} `{!HeaderValidator C}.

(** The loop of [validate_header_range] over the headers after the first. *)
Fixpoint validate_children (c : C) (parent : SealedHeader) (hs : list (Z * SealedHeader)) :
    result unit HeaderConsensusError :=
  match hs with
  | [] => Ok tt
  | (now, child) :: hs =>
      _ <-? map_err (hv_validate_header c now child) child;
      _ <-? map_err (hv_validate_header_against_parent c child parent) child;
      validate_children c child hs
  end.

Definition validate_header_range (c : C) (hs : list (Z * SealedHeader)) : result unit HeaderConsensusError :=
  match hs with
  | [] => Ok tt
  | (now, initial) :: hs =>
      _ <-? map_err (hv_validate_header c now initial) initial;
      validate_children c initial hs
  end.

End range.

(** [NoopConsensus]. *)
Inductive NoopConsensus := mkNoopConsensus.
#[global] Instance noop_header_validator : HeaderValidator NoopConsensus :=
  {| hv_validate_header := fun _ _ _ => Ok tt; hv_validate_header_against_parent := fun _ _ _ => Ok tt |}.
#[global] Instance noop_consensus : Consensus NoopConsensus :=
  {| c_validate_body_against_header := fun _ _ _ => Ok tt; c_validate_block_pre_execution := fun _ _ => Ok tt |}.
#[global] Instance noop_full_consensus : FullConsensus NoopConsensus :=
  {| c_validate_block_post_execution := fun _ _ _ => Ok tt |}.

(** ** [EthBeaconConsensus] *)

Record EthBeaconConsensus := mkEthBeaconConsensus { chain_spec : ChainSpec }.

Definition eth_validate_header (self : EthBeaconConsensus) (present_timestamp : Z) (sealed : SealedHeader) : outcome :=
  let h := header sealed in
  let spec := chain_spec self in
  _ <-? (if is_active_at_block spec Paris (number h) then
           _ <-? reject_if (negb (difficulty h =? 0)) TheMergeDifficultyIsNotZero;
           _ <-? reject_if (negb (match nonce h with Some n => n =? 0 | None => false end)) TheMergeNonceIsNotZero;
           reject_if (negb (ommers_hash h =? EMPTY_OMMER_ROOT_HASH)) TheMergeOmmerRootIsNotEmpty
         else
           reject_if (wrapping_add_u64 present_timestamp ALLOWED_FUTURE_BLOCK_TIME_SECONDS <? timestamp h)
             (TimestampIsInFuture (timestamp h) present_timestamp));
  _ <-? validate_header_extra_data h;
  _ <-? validate_header_gas h;
  _ <-? validate_header_base_fee h spec;
  _ <-? (if (is_active_at_timestamp spec Shanghai (timestamp h) && negb (is_some (withdrawals_root h)))%bool
         then Err WithdrawalsRootMissing
         else if (negb (is_active_at_timestamp spec Shanghai (timestamp h)) && is_some (withdrawals_root h))%bool
         then Err WithdrawalsRootUnexpected else Ok tt);
  _ <-? (if is_active_at_timestamp spec Cancun (timestamp h) then
           validate_4844_header_standalone h (default BlobParams_cancun (blob_params_at_timestamp spec (timestamp h)))
         else if is_some (blob_gas_used h) then Err BlobGasUsedUnexpected
         else if is_some (excess_blob_gas h) then Err ExcessBlobGasUnexpected
         else if is_some (parent_beacon_block_root h) then Err ParentBeaconBlockRootUnexpected
         else Ok tt);
  if is_active_at_timestamp spec Prague (timestamp h) then
    reject_if (negb (is_some (requests_hash h))) RequestsHashMissing
  else reject_if (is_some (requests_hash h)) RequestsHashUnexpected.

Definition eth_validate_header_against_parent (self : EthBeaconConsensus) (sealed parent : SealedHeader) : outcome :=
  let spec := chain_spec self in
  let h := header sealed in
  _ <-? validate_against_parent_hash_number h parent;
  _ <-? validate_against_parent_timestamp h (header parent);
  _ <-? validate_against_parent_gas_limit h (header parent) spec;
  _ <-? validate_against_parent_eip1559_base_fee h (header parent) spec;
  match blob_params_at_timestamp spec (timestamp h) with
  | Some params => validate_against_parent_4844 h (header parent) params
  | None => Ok tt
  end.

#[global] Instance eth_header_validator : HeaderValidator EthBeaconConsensus :=
  {| hv_validate_header := eth_validate_header;
     hv_validate_header_against_parent := eth_validate_header_against_parent |}.
#[global] Instance eth_consensus : Consensus EthBeaconConsensus :=
  {| c_validate_body_against_header := fun _ b sealed => validate_body_against_header b (header sealed);
     c_validate_block_pre_execution := fun self b => validate_block_pre_execution b (chain_spec self) |}.
#[global] Instance eth_full_consensus : FullConsensus EthBeaconConsensus :=
  {| c_validate_block_post_execution := fun self b r => validate_block_post_execution b (chain_spec self) r |}.

(** ** Users of the traits *)

(** [validate_header_download] of [crates/net/p2p]. *)
Definition validate_header_download {C} `{!HeaderValidator C} (c : C) (now : Z) (h parent : SealedHeader) :
    result unit (Z * Z * ConsensusError) :=
  match hv_validate_header_against_parent c h parent with
  | Err e => Err (hash h, number (header h), e)
  | Ok _ =>
      match hv_validate_header c now h with
      | Err e => Err (hash h, number (header h), e)
      | Ok _ => Ok tt
      end
  end.

(** [validate_block_consensus] of [crates/stateless]. *)
Definition validate_block_consensus spec (now : Z) (b : SealedBlock) (parent : SealedHeader) : outcome :=
  let consensus := mkEthBeaconConsensus spec in
  _ <-? hv_validate_header consensus now (sealed_header b);
  _ <-? hv_validate_header_against_parent consensus (sealed_header b) parent;
  c_validate_block_pre_execution consensus b.

(** The loop of [FileClient::from_reader] in [crates/net/downloaders]: the blocks of a
    file are checked one by one, each against the previous one if the first has
    a known parent, and stored. *)
Record FileClient := mkFileClient {
  fc_headers : gmap Z Header;
  fc_hash_to_number : gmap Z Z;
  fc_bodies : gmap Z BlockBody;
}.
Definition file_client_empty : FileClient := mkFileClient ∅ ∅ ∅.

Fixpoint read_blocks {C} `{!HeaderValidator C} `{!Consensus C} (c : C) (parent : option SealedHeader)
    (blocks : list (Z * SealedBlock)) (client : FileClient) : result FileClient ConsensusError :=
  match blocks with
  | [] => Ok client
  | (now, b) :: blocks =>
      _ <-? hv_validate_header c now (sealed_header b);
      _ <-? match parent with
            | Some p => hv_validate_header_against_parent c (sealed_header b) p
            | None => Ok tt
            end;
      let parent' := match parent with Some _ => Some (sealed_header b) | None => None end in
      _ <-? c_validate_block_pre_execution c b;
      read_blocks c parent' blocks
        (mkFileClient (<[number (block_header b) := block_header b]> (fc_headers client))
           (<[hash (sealed_header b) := number (block_header b)]> (fc_hash_to_number client))
           (<[hash (sealed_header b) := body b]> (fc_bodies client)))
  end.

End rules.
End Beacon.
