(* ===== verification/BeaconProps.v ===== *)
(** * Properties of the rules for headers and blocks

    What an accepted header, pair of headers, range, block and result of execution
    satisfy, as declarative conditions. *)

From S2P Require Import Prelude TxErrors ChainSpec ChainSpecProps BeaconConsensus.
Import ChainSpecs ChainSpecProps Beacon.

Module BeaconProps.

Section props.
Context `{ChainTypes} `{BodyTypes}.
Implicit Types (h parent : Header) (spec : ChainSpec) (b : SealedBlock).
Local Open Scope reth_scope.

(** ** Checks in sequence *)

Lemma seq_ok (r k : outcome) : (_ <-? r; k) = Ok tt <-> r = Ok tt /\ k = Ok tt.
Proof. destruct r as [[]|e]; simpl; naive_solver. Qed.

Lemma reject_ok c e : reject_if c e = Ok tt <-> c = false.
Proof. destruct c; simpl; naive_solver. Qed.

Lemma ok_or_ok {A} (o : option A) e (k : A -> outcome) :
  result_bind (ok_or o e) k = Ok tt <-> exists a, o = Some a /\ k a = Ok tt.
Proof. destruct o; simpl; naive_solver. Qed.

Lemma if_ok (c : bool) (r1 r2 : outcome) :
  (if c then r1 else r2) = Ok tt <-> if c then r1 = Ok tt else r2 = Ok tt.
Proof. by destruct c. Qed.

Lemma is_some_true {A} (o : option A) : is_some o = true <-> is_Some o.
Proof. destruct o; simpl; rewrite ?is_Some_alt; done. Qed.
Lemma is_some_false {A} (o : option A) : is_some o = false <-> o = None.
Proof. by destruct o. Qed.

Lemma negb_eqb_false (a c : Z) : negb (a =? c) = false <-> a = c.
Proof. rewrite negb_false_iff. apply Z.eqb_eq. Qed.

(** ** Headers *)

(** The conditions on a header by itself, and the fields that each fork adds. *)
Definition blob_fields_ok spec h : Prop :=
  if is_active_at_timestamp spec Cancun (timestamp h) then
    exists used, blob_gas_used h = Some used /\ is_Some (parent_beacon_block_root h) /\
      used mod DATA_GAS_PER_BLOB = 0 /\
      used <= max_blob_gas_per_block (default BlobParams_cancun (blob_params_at_timestamp spec (timestamp h)))
  else blob_gas_used h = None /\ excess_blob_gas h = None /\ parent_beacon_block_root h = None.

Definition header_ok spec (now : Z) h : Prop :=
  (if is_active_at_block spec Paris (number h)
   then difficulty h = 0 /\ nonce h = Some 0 /\ ommers_hash h = EMPTY_OMMER_ROOT_HASH
   else timestamp h <= wrapping_add_u64 now ALLOWED_FUTURE_BLOCK_TIME_SECONDS) /\
  Z.of_nat (length (extra_data h)) <= MAXIMUM_EXTRA_DATA_SIZE /\
  gas_used h <= gas_limit h <= MAXIMUM_GAS_LIMIT_BLOCK /\
  (is_active_at_block spec London (number h) = true -> is_Some (base_fee_per_gas h)) /\
  (is_active_at_timestamp spec Shanghai (timestamp h) = true <-> is_Some (withdrawals_root h)) /\
  blob_fields_ok spec h /\
  (is_active_at_timestamp spec Prague (timestamp h) = true <-> is_Some (requests_hash h)).

Lemma nonce_zero_iff (o : option Z) : negb (match o with Some n => n =? 0 | None => false end) = false <-> o = Some 0.
Proof.
  destruct o as [n|]; [|done]. rewrite negb_eqb_false. naive_solver.
Qed.

Lemma header_gas_ok h : validate_header_gas h = Ok tt <-> gas_used h <= gas_limit h <= MAXIMUM_GAS_LIMIT_BLOCK.
Proof. unfold validate_header_gas. rewrite seq_ok, !reject_ok, !Z.ltb_ge. done. Qed.

Lemma header_base_fee_ok h spec : validate_header_base_fee h spec = Ok tt <->
  (is_active_at_block spec London (number h) = true -> is_Some (base_fee_per_gas h)).
Proof.
  unfold validate_header_base_fee. rewrite reject_ok, andb_false_iff, negb_false_iff, is_some_true.
  destruct (is_active_at_block _ _ _); naive_solver.
Qed.

(** A field is present exactly if its fork is active. *)
Lemma present_iff (active : bool) {A} (o : option A) e1 e2 :
  (if (active && negb (is_some o))%bool then Err e1 else if (negb active && is_some o)%bool then Err e2 else Ok tt) =
    (Ok tt : outcome) <-> (active = true <-> is_Some o).
Proof. destruct active, o; simpl; rewrite ?is_Some_alt; naive_solver. Qed.

Lemma header_blob_ok h spec :
  (if is_active_at_timestamp spec Cancun (timestamp h) then
     validate_4844_header_standalone h (default BlobParams_cancun (blob_params_at_timestamp spec (timestamp h)))
   else if is_some (blob_gas_used h) then Err BlobGasUsedUnexpected
   else if is_some (excess_blob_gas h) then Err ExcessBlobGasUnexpected
   else if is_some (parent_beacon_block_root h) then Err ParentBeaconBlockRootUnexpected
   else Ok tt) = Ok tt <-> blob_fields_ok spec h.
Proof.
  unfold blob_fields_ok. destruct (is_active_at_timestamp _ _ _).
  - unfold validate_4844_header_standalone. rewrite ok_or_ok. f_equiv. intros used.
    by rewrite !seq_ok, !reject_ok, negb_eqb_false, negb_false_iff, is_some_true, Z.ltb_ge.
  - destruct (blob_gas_used h), (excess_blob_gas h), (parent_beacon_block_root h); naive_solver.
Qed.

Lemma validate_header_ok self now sealed :
  eth_validate_header self now sealed = Ok tt <-> header_ok (chain_spec self) now (header sealed).
Proof.
  unfold eth_validate_header, header_ok. rewrite !seq_ok, header_blob_ok, header_gas_ok, header_base_fee_ok, present_iff.
  unfold validate_header_extra_data. rewrite reject_ok, Z.ltb_ge. f_equiv.
  { destruct (is_active_at_block _ Paris _); [|by rewrite reject_ok, Z.ltb_ge].
    by rewrite !seq_ok, !reject_ok, !negb_eqb_false, nonce_zero_iff. }
  do 5 f_equiv. destruct (is_active_at_timestamp _ Prague _), (requests_hash _); simpl; rewrite ?is_Some_alt; naive_solver.
Qed.

(** ** Headers and their parents *)

(** The base fee that the rules call for. *)
Definition base_fee_ok spec h parent : Prop :=
  is_active_at_block spec London (number h) = true ->
  if transitions_at_block (fork (hardforks spec) (eth_name London)) (number h)
  then base_fee_per_gas h = Some INITIAL_BASE_FEE
  else exists fee, base_fee_per_gas parent = Some fee /\
    base_fee_per_gas h = Some (calc_next_block_base_fee (gas_used parent) (gas_limit parent) fee
                                 (base_fee_params_at_timestamp spec (timestamp h))).

(** London starts with [h]. *)
Definition london_starts spec h parent : Prop :=
  is_active_at_block spec London (number parent) = false /\ is_active_at_block spec London (number h) = true.

(** The change of the gas limit that the rules allow: less than a 1024th of the limit of the parent, which counts times the elasticity multiplier (modulo 2^64) at the
    first block of London; a limit that does not rise is at least 5000. *)
Definition gas_limit_ok spec h parent : Prop := exists p,
  (london_starts spec h parent -> p = (gas_limit parent * elasticity_multiplier (base_fee_params_at_timestamp spec (timestamp h))) mod 2 ^ 64) /\
  (~ london_starts spec h parent -> p = gas_limit parent) /\
  Z.abs (gas_limit h - p) < p / 1024 /\ (gas_limit h <= p -> 5000 <= gas_limit h).

Lemma effective_limit_spec spec h parent (p := effective_parent_gas_limit h parent spec) :
  (london_starts spec h parent /\ p = (gas_limit parent * elasticity_multiplier (base_fee_params_at_timestamp spec (timestamp h))) mod 2 ^ 64) \/
  (~ london_starts spec h parent /\ p = gas_limit parent).
Proof.
  subst p. unfold effective_parent_gas_limit, london_starts, wrap_u64. change u64_modulus with (2 ^ 64). rewrite Zmult_mod_idemp_r.
  destruct (is_active_at_block spec London (number parent)), (is_active_at_block spec London (number h)); simpl; naive_solver.
Qed.

Lemma gas_limit_effective spec h parent : gas_limit_ok spec h parent <->
  let p := effective_parent_gas_limit h parent spec in
  Z.abs (gas_limit h - p) < p / GAS_LIMIT_BOUND_DIVISOR /\ (gas_limit h <= p -> MINIMUM_GAS_LIMIT <= gas_limit h).
Proof.
  unfold gas_limit_ok. pose proof (effective_limit_spec spec h parent) as Hs. cbv zeta in *. split.
  - intros (p & P1 & P2 & Hp). assert (effective_parent_gas_limit h parent spec = p) as ->; [|done]. destruct Hs as [[? ->]|[? ->]]; symmetry; auto.
  - intros Hp. eexists. split_and!; [| |apply Hp..]; destruct Hs as [[? Hs]|[? Hs]]; done.
Qed.

Definition excess_ok spec h parent : Prop :=
  forall params, blob_params_at_timestamp spec (timestamp h) = Some params ->
  is_Some (blob_gas_used h) /\
  excess_blob_gas h = Some (next_block_excess_blob_gas_osaka params (default 0 (excess_blob_gas parent))
                              (default 0 (blob_gas_used parent)) (default 0 (base_fee_per_gas parent))).

Definition parent_ok spec h (parent : SealedHeader) : Prop :=
  number h = wrapping_add_u64 (number (header parent)) 1 /\ parent_hash h = hash parent /\
  timestamp (header parent) < timestamp h /\ gas_limit_ok spec h (header parent) /\
  base_fee_ok spec h (header parent) /\ excess_ok spec h (header parent).

Lemma against_gas_limit_ok h parent spec :
  validate_against_parent_gas_limit h parent spec = Ok tt <-> gas_limit_ok spec h parent.
Proof.
  rewrite gas_limit_effective. unfold validate_against_parent_gas_limit. set (p := effective_parent_gas_limit h parent spec).
  destruct (p <? gas_limit h) eqn:E; bools.
  - rewrite reject_ok, Z.leb_gt. lia.
  - destruct (_ <=? _) eqn:E2; bools; [split; [done|lia]|]. rewrite reject_ok, Z.ltb_ge. lia.
Qed.

Lemma against_base_fee_ok h parent spec :
  validate_against_parent_eip1559_base_fee h parent spec = Ok tt <-> base_fee_ok spec h parent.
Proof.
  unfold validate_against_parent_eip1559_base_fee, base_fee_ok.
  destruct (is_active_at_block spec London (number h)); [|naive_solver].
  rewrite ok_or_ok. destruct (transitions_at_block _ _); simpl.
  - setoid_rewrite reject_ok. setoid_rewrite negb_eqb_false. naive_solver.
  - setoid_rewrite ok_or_ok. setoid_rewrite reject_ok. setoid_rewrite negb_eqb_false. unfold next_block_base_fee.
    destruct (base_fee_per_gas parent); simpl; naive_solver.
Qed.

Lemma against_excess_ok h parent spec :
  match blob_params_at_timestamp spec (timestamp h) with
  | Some params => validate_against_parent_4844 h parent params
  | None => Ok tt
  end = Ok tt <-> excess_ok spec h parent.
Proof.
  unfold excess_ok. destruct (blob_params_at_timestamp _ _) as [params|]; [|naive_solver].
  unfold validate_against_parent_4844. rewrite seq_ok, reject_ok, negb_false_iff, is_some_true, ok_or_ok.
  setoid_rewrite reject_ok. setoid_rewrite negb_eqb_false. naive_solver.
Qed.

Lemma validate_parent_ok self sealed (parent : SealedHeader) :
  eth_validate_header_against_parent self sealed parent = Ok tt <-> parent_ok (chain_spec self) (header sealed) parent.
Proof.
  unfold eth_validate_header_against_parent, parent_ok.
  rewrite !seq_ok, against_gas_limit_ok, against_base_fee_ok, against_excess_ok.
  unfold validate_against_parent_hash_number, validate_against_parent_timestamp.
  rewrite seq_ok, !reject_ok, !negb_eqb_false, Z.leb_gt. naive_solver.
Qed.

(** ** Ranges *)

Section range.
Context {C : Type} `{!HeaderValidator C}.
Implicit Types (c : C) (hs : list (Z * SealedHeader)).

(** Every header is valid, and every one after the first is valid against the one before it. *)
Definition range_ok c hs : Prop :=
  (forall now (h : SealedHeader), (now, h) ∈ hs -> hv_validate_header c now h = Ok tt) /\
  (forall i p x, hs !! i = Some p -> hs !! S i = Some x -> hv_validate_header_against_parent c x.2 p.2 = Ok tt).

Lemma range_ok_nil c : range_ok c [].
Proof. split; [by intros ?? ?%not_elem_of_nil|done]. Qed.

Lemma range_ok_one c now (h : SealedHeader) : range_ok c [(now, h)] <-> hv_validate_header c now h = Ok tt.
Proof.
  split; [intros [Hh _]; apply Hh; set_solver|]. intros Hh. split; [set_solver|]. intros i p x Hi. by destruct i.
Qed.

Lemma range_ok_snoc c hs p now (h : SealedHeader) :
  range_ok c (hs ++ [p; (now, h)]) <->
  range_ok c (hs ++ [p]) /\ hv_validate_header c now h = Ok tt /\ hv_validate_header_against_parent c h p.2 = Ok tt.
Proof.
  split.
  - intros [Ha Hp]. split_and!.
    + split; [intros n x Hin; apply Ha; set_solver|]. intros i q x Hq Hx. apply (Hp i).
      all: change [p; (now, h)] with ([p] ++ [(now, h)]); rewrite app_assoc; by apply lookup_app_l_Some.
    + apply Ha. set_solver.
    + apply (Hp (length hs) p (now, h)); [by rewrite list_lookup_middle|].
      rewrite lookup_app_r by lia. by replace (S (length hs) - length hs)%nat with 1%nat by lia.
  - intros ([Ha Hp] & Hh & Hhp). split.
    + intros n x Hin. change [p; (now, h)] with ([p] ++ [(now, h)]) in Hin. rewrite app_assoc in Hin.
      apply elem_of_app in Hin as [?|[= -> ->]%list_elem_of_singleton]; [by apply Ha|done].
    + intros i q x Hq Hx. change [p; (now, h)] with ([p] ++ [(now, h)]) in *. rewrite app_assoc in Hq, Hx.
      apply lookup_app_Some in Hx as [Hx|[Hl Hx]].
      * apply (Hp i); [|done]. apply lookup_lt_Some in Hx. rewrite lookup_app_l in Hq by lia. done.
      * rewrite length_app in Hl, Hx. simpl in Hl, Hx.
        assert (S i = length hs + 1)%nat as Hi.
        { apply lookup_lt_Some in Hx. simpl in Hx. lia. }
        replace i with (length hs) in Hq by lia. rewrite <- app_assoc in Hq. cbn [app] in Hq.
        rewrite list_lookup_middle in Hq by done.
        rewrite Hi in Hx. replace (length hs + 1 - (length hs + 1))%nat with 0%nat in Hx by lia.
        injection Hx as <-. by injection Hq as <-.
Qed.

Definition range_result c hs (r : result unit HeaderConsensusError) : Prop :=
  match r with
  | Ok _ => range_ok c hs
  | Err (e, h) => exists pre now post, hs = pre ++ (now, h) :: post /\ range_ok c pre /\
      (hv_validate_header c now h = Err e \/
       (hv_validate_header c now h = Ok tt /\
        exists p, last pre = Some p /\ hv_validate_header_against_parent c h p.2 = Err e))
  end.

Lemma validate_children_spec c hs : forall pre t (parent : SealedHeader),
  range_ok c (pre ++ [(t, parent)]) -> range_result c (pre ++ (t, parent) :: hs) (validate_children c parent hs).
Proof.
  induction hs as [|[now h] hs IH]; intros pre t parent Hpre; [exact Hpre|].
  cbn [validate_children]. destruct (hv_validate_header c now h) as [[]|e] eqn:Eh; simpl.
  - destruct (hv_validate_header_against_parent c h parent) as [[]|e] eqn:Ep; simpl.
    + specialize (IH (pre ++ [(t, parent)]) now h). rewrite <- !app_assoc in IH. apply IH.
      by apply (range_ok_snoc c pre (t, parent)).
    + exists (pre ++ [(t, parent)]), now, hs. rewrite <- app_assoc. split_and!; [done|done|]. right. split; [done|].
      exists (t, parent). by rewrite last_snoc.
  - exists (pre ++ [(t, parent)]), now, hs. rewrite <- app_assoc. split_and!; [done|done|by left].
Qed.

Lemma validate_range_result c hs : range_result c hs (validate_header_range c hs).
Proof.
  destruct hs as [|[now h] hs]; [apply range_ok_nil|]. simpl.
  destruct (hv_validate_header c now h) as [[]|e] eqn:Eh; simpl.
  - apply (validate_children_spec c hs []). by apply range_ok_one.
  - exists [], now, hs. split_and!; [done|apply range_ok_nil|by left].
Qed.

End range.

(** ** Chains of accepted headers *)

(** The multiplier of the London fork, which is two on Ethereum. *)
Definition elasticity_small spec : Prop :=
  forall t, 1 <= elasticity_multiplier (base_fee_params_at_timestamp spec t) <= 2.

Lemma gas_limit_minimum spec h parent :
  elasticity_small spec -> MINIMUM_GAS_LIMIT <= gas_limit parent <= MAXIMUM_GAS_LIMIT_BLOCK ->
  gas_limit_ok spec h parent -> MINIMUM_GAS_LIMIT <= gas_limit h.
Proof.
  intros He Hp [_ Hmin]%gas_limit_effective. destruct (Z.le_gt_cases (gas_limit h) (effective_parent_gas_limit h parent spec)); [by apply Hmin|].
  enough (gas_limit parent <= effective_parent_gas_limit h parent spec) by lia.
  unfold effective_parent_gas_limit. destruct (_ && _)%bool; [|done]. specialize (He (timestamp h)).
  unfold MINIMUM_GAS_LIMIT, MAXIMUM_GAS_LIMIT_BLOCK in *. set (e := elasticity_multiplier _) in *.
  rewrite (wrap_u64_small e) by (unfold is_u64, u64_modulus; lia).
  rewrite wrap_u64_small by (unfold is_u64, u64_modulus; nia). nia.
Qed.

(** What an accepted range says of each header and its distance to the first. *)
Definition chain_from spec (first : SealedHeader) (hs : list (Z * SealedHeader)) : Prop :=
  forall i x, hs !! i = Some x ->
    number (header x.2) = wrap_u64 (number (header first) + Z.of_nat i) /\
    timestamp (header first) + Z.of_nat i <= timestamp (header x.2) /\
    MINIMUM_GAS_LIMIT <= gas_limit (header x.2) <= MAXIMUM_GAS_LIMIT_BLOCK /\
    header_ok spec x.1 (header x.2) /\
    forall j p, i = S j -> hs !! j = Some p -> parent_ok spec (header x.2) p.2.

Lemma range_chain spec first t hs :
  range_ok (mkEthBeaconConsensus spec) ((t, first) :: hs) ->
  elasticity_small spec -> is_u64 (number (header first)) -> MINIMUM_GAS_LIMIT <= gas_limit (header first) ->
  chain_from spec first ((t, first) :: hs).
Proof.
  intros [Ha Hp] He Hn Hm i. induction i as [|i IH]; intros x Hx.
  - injection Hx as <-. simpl. rewrite Z.add_0_r, wrap_u64_small by done.
    assert (header_ok spec t (header first)) as Hok by (apply (validate_header_ok (mkEthBeaconConsensus spec)), Ha; set_solver).
    split_and!; try done; [lia|]. by destruct Hok as (_ & _ & [_ ?] & _).
  - assert (is_Some (((t, first) :: hs) !! i)) as [q Hq] by (apply lookup_lt_is_Some; apply lookup_lt_Some in Hx; lia).
    destruct (IH q Hq) as (In & It & Ig & _ & _).
    pose proof (Hp i q x Hq Hx) as Hpar. apply (validate_parent_ok (mkEthBeaconConsensus spec)) in Hpar. simpl in Hpar.
    destruct x as [now h]. assert (header_ok spec now (header h)) as Hok.
    { apply (validate_header_ok (mkEthBeaconConsensus spec)), Ha. by eapply list_elem_of_lookup_2. }
    pose proof Hpar as (Pn & _ & Pt & Pg & _). simpl in *. split_and!.
    + rewrite Pn, In. unfold wrapping_add_u64. rewrite wrap_u64_add_l. f_equal. lia.
    + lia.
    + by eapply gas_limit_minimum.
    + by destruct Hok as (_ & _ & [_ ?] & _).
    + done.
    + intros j p [= <-] Hj. rewrite Hq in Hj. by injection Hj as <-.
Qed.

(** ** Blocks *)

(** What later forks ask of the body. *)
Definition fork_body_ok spec b : Prop :=
  (is_active_at_timestamp spec Cancun (timestamp (block_header b)) = true ->
     blob_gas_used (block_header b) = Some (body_blob_gas_used (body b))) /\
  (is_active_at_timestamp spec Osaka (timestamp (block_header b)) = true ->
     rlp_length b <= MAX_RLP_BLOCK_SIZE /\
     Forall (fun tx => t_gas_limit tx <= MAX_TX_GAS_LIMIT_OSAKA) (transactions (body b))).

Definition without_withdrawals (x : BlockBody) : BlockBody := mkBlockBody (transactions x) (ommers x) None.

Lemma check_tx_gas_ok txs : check_tx_gas txs = Ok tt <-> Forall (fun tx => t_gas_limit tx <= MAX_TX_GAS_LIMIT_OSAKA) txs.
Proof.
  induction txs as [|tx txs IH]; simpl; [by split|]. rewrite Forall_cons.
  destruct (_ <? _) eqn:E; bools; [split; [done|lia]|]. rewrite IH. naive_solver.
Qed.

Lemma body_against_header_ok x h :
  validate_body_against_header x h = Ok tt <->
  body_ommers_root x = Some (ommers_hash h) /\ transactions_root h = calculate_tx_root x /\
  body_withdrawals_root x = withdrawals_root h.
Proof.
  unfold validate_body_against_header, check_ommers.
  rewrite !seq_ok, !reject_ok, negb_false_iff, bool_decide_eq_true, negb_eqb_false.
  destruct (withdrawals_root h), (body_withdrawals_root x); rewrite ?reject_ok, ?negb_eqb_false; naive_solver.
Qed.

Lemma pre_execution_ok spec b :
  validate_block_pre_execution b spec = Ok tt <->
  body_ommers_root (body b) = Some (ommers_hash (block_header b)) /\
  transactions_root (block_header b) = calculate_tx_root (body b) /\
  (is_active_at_timestamp spec Shanghai (timestamp (block_header b)) = true ->
     is_Some (withdrawals_root (block_header b)) /\ body_withdrawals_root (body b) = withdrawals_root (block_header b)) /\
  fork_body_ok spec b.
Proof.
  unfold validate_block_pre_execution, post_merge_hardfork_fields, fork_body_ok, ensure_transaction_root_valid, check_ommers.
  rewrite !seq_ok, !reject_ok, negb_false_iff, bool_decide_eq_true, andb_false_iff, Z.ltb_ge.
  assert (forall r : outcome, forall P : Prop, (r = Ok tt <-> P) -> forall c : bool, (if c then r else Ok tt) = Ok tt <-> (c = true -> P)) as Hif
    by (intros r P HP []; naive_solver).
  rewrite (Hif _ _ (check_tx_gas_ok _)).
  assert (validate_shanghai_withdrawals b = Ok tt <-> is_Some (withdrawals_root (block_header b)) /\
            body_withdrawals_root (body b) = withdrawals_root (block_header b)) as Hs.
  { unfold validate_shanghai_withdrawals, body_withdrawals_root. rewrite ok_or_ok. setoid_rewrite ok_or_ok.
    setoid_rewrite reject_ok. setoid_rewrite negb_eqb_false.
    destruct (withdrawals (body b)), (withdrawals_root (block_header b)); simpl; rewrite ?is_Some_alt; naive_solver. }
  rewrite (Hif _ _ Hs).
  assert (validate_cancun_gas b = Ok tt <-> blob_gas_used (block_header b) = Some (body_blob_gas_used (body b))) as Hc.
  { unfold validate_cancun_gas. rewrite ok_or_ok. setoid_rewrite reject_ok. setoid_rewrite negb_eqb_false. naive_solver. }
  rewrite (Hif _ _ Hc). clear Hs Hc Hif.
  destruct (transactions_root _ =? _) eqn:Et; simpl; bools; [|naive_solver].
  destruct (is_active_at_timestamp spec Osaka _); naive_solver.
Qed.

Lemma post_execution_ok spec b r :
  validate_block_post_execution b spec r = Ok tt <->
  gas_used (block_header b) = default 0 (cumulative_gas_used <$> last (receipts r)) /\
  (is_active_at_block spec Byzantium (number (block_header b)) = true ->
     receipts_root (block_header b) = calculate_receipt_root (receipts r) /\
     logs_bloom (block_header b) = foldl (fun acc x => Z.lor acc (bloom x)) 0 (receipts r)) /\
  (is_active_at_timestamp spec Prague (timestamp (block_header b)) = true ->
     requests_hash (block_header b) = Some (requests_hash_of (requests r))).
Proof.
  unfold validate_block_post_execution, verify_receipts, compare_receipts_root_and_logs_bloom.
  rewrite !seq_ok, reject_ok, negb_eqb_false.
  destruct (is_active_at_block _ _ _), (is_active_at_timestamp _ _ _); rewrite ?seq_ok, ?ok_or_ok, ?reject_ok, ?negb_eqb_false;
    repeat setoid_rewrite reject_ok; repeat setoid_rewrite negb_eqb_false; naive_solver.
Qed.

(** ** Files of blocks *)

Definition stored (client : FileClient) b : Prop :=
  fc_headers client !! number (block_header b) = Some (block_header b) /\
  fc_hash_to_number client !! hash (sealed_header b) = Some (number (block_header b)) /\
  fc_bodies client !! hash (sealed_header b) = Some (body b).

End props.
End BeaconProps.
