(* ===== verification/BeaconClaims.v ===== *)
(** * What the rules for headers and blocks guarantee

    The properties of [EthBeaconConsensus] and of the functions generic in the consensus, and
    two cases in which a check does less than its documentation says. *)

From S2P Require Import Prelude TxErrors ChainSpec ChainSpecProps BeaconConsensus BeaconProps.
Import ChainSpecs ChainSpecProps Beacon BeaconProps.

Module BeaconClaims.

Section claims.
Context `{ChainTypes} `{BodyTypes}.

(** C31: the rules for headers.  A header is accepted exactly if it has the fields of
    the forks that are active and no others, within their limits (with London it has a base fee, before London one is not excluded; that it has an excess blob gas is only checked against the parent); and it is
    accepted against its parent exactly if it has the next number and the hash of the parent, is
    later, changes the gas limit by less than a 1024th, where the limit of the parent counts times the elasticity multiplier at the first block of London, does not go below 5000 unless
    the limit rises, and has the base fee and
    the excess blob gas that follow from the parent. *)
Theorem header_rules_exact self now (sealed parent : SealedHeader) :
  (eth_validate_header self now sealed = Ok tt <-> header_ok (chain_spec self) now (header sealed)) /\
  (eth_validate_header_against_parent self sealed parent = Ok tt <-> parent_ok (chain_spec self) (header sealed) parent).
Proof. split; [apply validate_header_ok|apply validate_parent_ok]. Qed.

(** Ranges of headers, for any consensus.  A range is accepted exactly if every
    header is valid and each after the first is valid against the one before it;
    otherwise the error comes with the first header that is not, and everything
    before it is a valid range. *)
Theorem header_range_exact {C : Type} `{!HeaderValidator C} (c : C) hs :
  (validate_header_range c hs = Ok tt <-> range_ok c hs) /\
  (forall e h, validate_header_range c hs = Err (e, h) ->
     exists pre now post, hs = pre ++ (now, h) :: post /\ range_ok c pre /\
       (hv_validate_header c now h = Err e \/
        (hv_validate_header c now h = Ok tt /\
         exists p, last pre = Some p /\ hv_validate_header_against_parent c h p.2 = Err e))).
Proof.
  pose proof (validate_range_result c hs) as Hr. destruct (validate_header_range c hs) as [[]|[e h]].
  - by split.
  - split; [split; [done|]|by intros ?? [= <- <-]]. intros [Ha Hp]. exfalso.
    destruct Hr as (pre & now & post & -> & _ & [Hh|(_ & p & Hl & Hh)]).
    + rewrite (Ha now h) in Hh by set_solver. done.
    + apply last_Some in Hl as (pre' & ->). rewrite <- app_assoc in Hp. simpl in Hp.
      specialize (Hp (length pre') p (now, h)). rewrite list_lookup_middle in Hp by done.
      rewrite lookup_app_r in Hp by lia. replace (S (length pre') - length pre')%nat with 1%nat in Hp by lia.
      specialize (Hp eq_refl eq_refl). simpl in Hp. congruence.
Qed.

(** C32: an accepted range is a chain.  From a first header whose gas limit is at least
    the minimum, the numbers count up (and wrap around), the times increase, every
    header names the hash of the one before it and satisfies the rules, and the
    gas limit never leaves its bounds, also at the London fork. *)
Theorem accepted_range_is_chain spec t first hs :
  validate_header_range (mkEthBeaconConsensus spec) ((t, first) :: hs) = Ok tt ->
  elasticity_small spec -> is_u64 (number (header first)) -> MINIMUM_GAS_LIMIT <= gas_limit (header first) ->
  chain_from spec first ((t, first) :: hs).
Proof.
  intros Hr. pose proof (validate_range_result (mkEthBeaconConsensus spec) ((t, first) :: hs)) as Hok.
  rewrite Hr in Hok. by apply range_chain.
Qed.

(** The two checks of a body agree.  For a block whose header is accepted, the check
    before execution accepts it exactly if the check of a downloaded body does and
    the blob gas, the size and the gas of each transaction are as the later
    forks ask; before Shanghai it ignores the withdrawals of the body. *)
Theorem pre_execution_matches_body self now (b : SealedBlock) :
  eth_validate_header self now (sealed_header b) = Ok tt ->
  validate_block_pre_execution b (chain_spec self) = Ok tt <->
    validate_body_against_header
      (if is_active_at_timestamp (chain_spec self) Shanghai (timestamp (block_header b)) then body b
       else without_withdrawals (body b)) (block_header b) = Ok tt /\ fork_body_ok (chain_spec self) b.
Proof.
  intros Hh. apply validate_header_ok in Hh as (_ & _ & _ & _ & Hw & _).
  change (header (sealed_header b)) with (block_header b) in Hw.
  rewrite body_against_header_ok, pre_execution_ok. destruct (is_active_at_timestamp _ Shanghai _).
  - assert (is_Some (withdrawals_root (block_header b))) by (by apply Hw). naive_solver.
  - assert (withdrawals_root (block_header b) = None) as Hn.
    { destruct (withdrawals_root (block_header b)) eqn:E; [|done]. assert (false = true) by (apply Hw; eauto). done. }
    rewrite Hn. unfold body_ommers_root, calculate_tx_root, body_withdrawals_root. simpl. naive_solver.
Qed.

(** ** Files of blocks *)

Section file.
Context {C : Type} `{!HeaderValidator C} `{!Consensus C}.

Lemma read_blocks_stored (c : C) blocks : forall parent client client',
  read_blocks c parent blocks client = Ok client' ->
  NoDup (number ∘ block_header ∘ snd <$> blocks) -> NoDup (hash ∘ sealed_header ∘ snd <$> blocks) ->
  (forall x, x ∈ blocks -> stored client' x.2) /\
  (forall b, number (block_header b) ∉ (number ∘ block_header ∘ snd <$> blocks) ->
     hash (sealed_header b) ∉ (hash ∘ sealed_header ∘ snd <$> blocks) -> stored client b -> stored client' b).
Proof.
  induction blocks as [|[now b] blocks IH]; intros parent client client' Hr Hn Hh.
  { injection Hr as <-. split; [by intros ? ?%not_elem_of_nil|done]. }
  cbn [read_blocks] in Hr. repeat (apply result_bind_Ok in Hr as ([] & _ & Hr)).
  csimpl in *. apply NoDup_cons in Hn as [Hn1 Hn2], Hh as [Hh1 Hh2].
  destruct (IH _ _ _ Hr Hn2 Hh2) as [Hin Hout]. split.
  - intros x [->|Hx]%elem_of_cons; [|by apply Hin]. apply Hout; [done|done|].
    split_and!; simpl; by rewrite lookup_insert_eq.
  - intros b' [Hn3 Hn4]%not_elem_of_cons [Hh3 Hh4]%not_elem_of_cons (S1 & S2 & S3). apply Hout; [done|done|].
    split_and!; simpl; by rewrite lookup_insert_ne.
Qed.

Lemma read_blocks_range (c : C) blocks : forall t p pre client client',
  read_blocks c (Some p) blocks client = Ok client' -> range_ok c (pre ++ [(t, p)]) ->
  range_ok c (pre ++ (t, p) :: ((fun x => (x.1, sealed_header x.2)) <$> blocks)) /\
  Forall (fun x => c_validate_block_pre_execution c x.2 = Ok tt) blocks.
Proof.
  induction blocks as [|[now b] blocks IH]; intros t p pre client client' Hr Hp; [done|].
  cbn [read_blocks] in Hr.
  apply result_bind_Ok in Hr as ([] & H1' & Hr). apply result_bind_Ok in Hr as ([] & H2' & Hr).
  apply result_bind_Ok in Hr as ([] & H3' & Hr).
  destruct (IH now (sealed_header b) (pre ++ [(t, p)]) _ _ Hr) as [Hrange Hpre].
  - rewrite <- app_assoc. by apply (range_ok_snoc c pre (t, p)).
  - rewrite <- app_assoc in Hrange. split; [exact Hrange|]. by constructor.
Qed.

(** Importing a file of blocks, for any consensus.  If reading the file on top of a
    valid header succeeds, the headers form a range that the consensus
    accepts, every block has passed the check before execution, and every block is
    found by its number and by its hash. *)
Theorem file_import_checked (c : C) t p blocks client :
  read_blocks c (Some p) blocks file_client_empty = Ok client -> hv_validate_header c t p = Ok tt ->
  NoDup (number ∘ block_header ∘ snd <$> blocks) -> NoDup (hash ∘ sealed_header ∘ snd <$> blocks) ->
  range_ok c ((t, p) :: ((fun x => (x.1, sealed_header x.2)) <$> blocks)) /\
  Forall (fun x => c_validate_block_pre_execution c x.2 = Ok tt /\ stored client x.2) blocks.
Proof.
  intros Hr Hp Hn Hh. destruct (read_blocks_range c blocks t p [] _ _ Hr) as [Hrange Hpre]; [by apply range_ok_one|].
  split; [exact Hrange|]. apply Forall_forall. intros x Hx. rewrite Forall_forall in Hpre. split; [by apply Hpre|].
  destruct (read_blocks_stored c blocks _ _ _ Hr Hn Hh) as [Hs _]. by apply Hs.
Qed.

End file.
End claims.

(** ** Examples *)

(** A simple version of alloy for bodies: a transaction is its hash, its gas limit and its blob gas. *)
Definition example_body_types : BodyTypes :=
  {| Transaction := Z * Z * option Z;
     t_hash x := x.1.1;
     t_gas_limit x := x.1.2;
     t_blob_gas_used x := x.2;
     Withdrawal := Z;
     calculate_transaction_root l := foldr (fun x acc => x.1.1 + 3 * acc) 56 l;
     calculate_withdrawals_root l := foldr (fun x acc => x + 3 * acc) 56 l;
     calculate_ommers_root l := 29 + Z.of_nat (length l);
     rlp_length_of _ txs _ _ := 500 + 110 * Z.of_nat (length txs);
     Receipt := Z * Z;
     cumulative_gas_used := fst;
     bloom := snd;
     calculate_receipt_root l := Z.of_nat (length l);
     Requests := Z;
     requests_hash_of r := r;
     MAXIMUM_EXTRA_DATA_SIZE := 32;
     DATA_GAS_PER_BLOB := 131072;
     ALLOWED_FUTURE_BLOCK_TIME_SECONDS := 15 |}.

Section examples.
#[local] Existing Instance example_chain_types.
#[local] Existing Instance example_body_types.

(** The specification of the examples has London at block 10 and Shanghai at time 100. *)
Definition spec0 : ChainSpec := example_spec.
Definition consensus0 : EthBeaconConsensus := mkEthBeaconConsensus spec0.

Definition header0 (n time parent limit : Z) (fee withdrawals : option Z) : Header :=
  mkHeader parent 29 0 56 56 56 0 0 n limit 0 time [] 0 (Some 0) fee withdrawals None None None None.

(** Blocks 9, 10 and 11: London doubles the gas limit and sets the base fee. *)
Definition sealed9 : SealedHeader := new_unhashed (header0 9 50 0 30000000 None None).
Definition sealed10 : SealedHeader := new_unhashed (header0 10 60 (hash sealed9) 60000000 (Some 1000000000) None).
Definition sealed11 : SealedHeader := new_unhashed (header0 11 120 (hash sealed10) 60000001 (Some 875000000) (Some 56)).

(** The limit of the first block of London is judged by twice the limit of its parent. *)
Lemma header_rules_exact_witness :
  header_ok spec0 0 (header sealed10) /\ parent_ok spec0 (header sealed10) sealed9 /\
  ~ parent_ok spec0 (header0 10 60 (hash sealed9) 30000000 (Some 1000000000) None) sealed9.
Proof.
  destruct (header_rules_exact consensus0 0 sealed10 sealed9) as [[Hh _] [Hp _]].
  destruct (header_rules_exact consensus0 0 (new_unhashed (header0 10 60 (hash sealed9) 30000000 (Some 1000000000) None)) sealed9) as [_ [_ Hq]].
  split; [exact (Hh eq_refl)|]. split; [exact (Hp eq_refl)|]. intros Hno. specialize (Hq Hno). vm_compute in Hq. discriminate Hq.
Defined.

Lemma accepted_range_is_chain_witness :
  validate_header_range consensus0 [(0, sealed9); (0, sealed10); (0, sealed11)] = Ok tt /\
  number (header sealed11) = wrap_u64 (number (header sealed9) + 2) /\
  MINIMUM_GAS_LIMIT <= gas_limit (header sealed11) <= MAXIMUM_GAS_LIMIT_BLOCK.
Proof.
  assert (validate_header_range consensus0 [(0, sealed9); (0, sealed10); (0, sealed11)] = Ok tt) as Hr by reflexivity.
  split; [exact Hr|].
  destruct (accepted_range_is_chain spec0 0 sealed9 [(0, sealed10); (0, sealed11)] Hr) with (i := 2%nat) (x := (0, sealed11))
    as (Hn & _ & Hg & _).
  - intros t. simpl. lia.
  - vm_compute. split; congruence.
  - vm_compute. congruence.
  - reflexivity.
  - split; [exact Hn|exact Hg].
Defined.

Definition body11 : BlockBody := mkBlockBody [] (Some []) (Some []).
Definition block11 : SealedBlock := mkSealedBlock sealed11 body11.

Lemma pre_execution_matches_body_witness :
  validate_block_pre_execution block11 spec0 = Ok tt /\ validate_body_against_header body11 (header sealed11) = Ok tt.
Proof.
  assert (validate_block_pre_execution block11 spec0 = Ok tt) as Hp by reflexivity. split; [exact Hp|].
  destruct (pre_execution_matches_body consensus0 0 block11) as [Hl _]; [reflexivity|]. destruct (Hl Hp) as [Hb _]. exact Hb.
Defined.

Definition client11 : FileClient :=
  match read_blocks consensus0 (Some sealed10) [(0, block11)] file_client_empty with Ok c => c | Err _ => file_client_empty end.

Lemma file_import_checked_witness :
  read_blocks consensus0 (Some sealed10) [(0, block11)] file_client_empty = Ok client11 /\
  range_ok consensus0 [(0, sealed10); (0, sealed11)].
Proof.
  assert (read_blocks consensus0 (Some sealed10) [(0, block11)] file_client_empty = Ok client11) as Hr by reflexivity.
  split; [exact Hr|]. destruct (file_import_checked consensus0 0 sealed10 [(0, block11)] client11 Hr) as [Hrange _].
  - reflexivity.
  - apply NoDup_singleton.
  - apply NoDup_singleton.
  - exact Hrange.
Defined.

(** The minimum of the gas limit is only checked when the limit does not rise: a
    child below the minimum is accepted on a parent below it. *)
Theorem minimum_gas_limit_skipped :
  let parent := header0 3 10 0 4096 None None in
  let child := header0 4 20 0 4099 None None in
  validate_against_parent_gas_limit child parent spec0 = Ok tt /\ gas_limit child < MINIMUM_GAS_LIMIT.
Proof. split; reflexivity. Qed.

(** The check of the blob fields on their own is documented to ask for the excess blob
    gas; a header without it passes. *)
Theorem excess_blob_gas_not_checked :
  exists h, excess_blob_gas h = None /\ validate_4844_header_standalone h BlobParams_cancun = Ok tt.
Proof.
  exists (mkHeader 0 29 0 56 56 56 0 0 4 30000000 0 20 [] 0 (Some 0) None None (Some 0) None (Some 0) None).
  split; reflexivity.
Qed.

End examples.
End BeaconClaims.
