(* ===== verification/PoaGenesis.v ===== *)
(** * The genesis of the PoA chain

    [pasifika-poa/src/genesis.rs]: the genesis file embedded in the program, as the
    record it parses to (reading JSON is the work of a library), and the chain
    specification made of it.  The node runs [EthBeaconConsensus] on it; the theorems say what
    a chain that it accepts looks like. *)

From S2P Require Import Prelude TxErrors ChainSpec ChainSpecProps BeaconConsensus BeaconProps BeaconClaims.
Import ChainSpecs ChainSpecProps Beacon BeaconProps.

Module PoaGenesis.

Definition poa_config : ChainConfig :=
  {| chain_id := 999888;
     homestead_block := Some 0;
     dao_fork_block := None;
     eip150_block := Some 0;
     eip155_block := Some 0;
     byzantium_block := Some 0;
     constantinople_block := Some 0;
     petersburg_block := Some 0;
     istanbul_block := Some 0;
     muir_glacier_block := Some 0;
     berlin_block := Some 0;
     london_block := Some 0;
     arrow_glacier_block := Some 0;
     gray_glacier_block := Some 0;
     merge_netsplit_block := None;
     terminal_total_difficulty := Some 0;
     shanghai_time := Some 0;
     cancun_time := Some 0;
     prague_time := None;
     osaka_time := None;
     bpo1_time := None;
     bpo2_time := None;
     bpo3_time := None;
     bpo4_time := None;
     bpo5_time := None;
     deposit_contract_address := None |}.

Definition custom_genesis : Genesis :=
  {| config := poa_config;
     g_nonce := 0x0;
     g_timestamp := 0x0;
     g_extra_data := [80; 97; 115; 105; 102; 105; 99; 97; 32; 80; 111; 65];
     g_gas_limit := 0xFFFFFFFFFFFF;
     g_difficulty := 0x0;
     g_mix_hash := 0;
     g_coinbase := 0;
     g_alloc :=
     [(0x0000000000000000000000000000000000000001, 0x200000000000000000000000000000000000000000000000000000000000000);
      (0x6Be02d1d3665660d22FF9624b7BE0551ee1Ac91b, 0x200000000000000000000000000000000000000000000000000000000000000);
      (0xf39Fd6e51aad88F6F4ce6aB8827279cffFb92266, 0x200000000000000000000000000000000000000000000000000000000000000);
      (0x70997970C51812dc3A010C7d01b50e0d17dc79C8, 0x200000000000000000000000000000000000000000000000000000000000000);
      (0x3C44CdDdB6a900fa2b585dd299e03d12FA4293BC, 0x200000000000000000000000000000000000000000000000000000000000000);
      (0x90F79bf6EB2c4f870365E785982E1f101E93b906, 0x200000000000000000000000000000000000000000000000000000000000000);
      (0x15d34AAf54267DB7D7c367839AAf71A00a2C6A65, 0x200000000000000000000000000000000000000000000000000000000000000);
      (0x9965507D1a55bcC2695C58ba16FB37d819B0A4dc, 0x200000000000000000000000000000000000000000000000000000000000000);
      (0x976EA74026E726554dB657fA54763abd0C3a0aa9, 0x200000000000000000000000000000000000000000000000000000000000000);
      (0x14dC79964da2C08b23698B3D3cc7Ca32193d9955, 0x200000000000000000000000000000000000000000000000000000000000000)];
     g_base_fee_per_gas := Some 0x0;
     g_excess_blob_gas := None;
     g_blob_gas_used := None |}.

Section poa.
Context `{ChainTypes} `{BodyTypes}.

Definition create_poa_genesis : ChainSpec := from_genesis custom_genesis.

(** ** The specification *)

Lemma poa_fork f : fork (hardforks create_poa_genesis) (eth_name f) = default Never (genesis_condition poa_config f).
Proof. unfold fork, create_poa_genesis. by rewrite from_genesis_get. Qed.

Lemma poa_active_block f n : 0 <= n -> genesis_condition poa_config f = Some (Block 0) \/ f = Paris ->
  is_active_at_block create_poa_genesis f n = true.
Proof.
  intros Hn Hf. unfold is_active_at_block. rewrite poa_fork, active_at_block_eq.
  destruct Hf as [-> | ->]; simpl; by apply Z.leb_le.
Qed.

Lemma poa_active_time f t : 0 <= t ->
  is_active_at_timestamp create_poa_genesis f t = bool_decide (f = Shanghai \/ f = Cancun).
Proof.
  intros Ht. unfold is_active_at_timestamp. rewrite poa_fork, active_at_timestamp_eq.
  destruct f; simpl; try reflexivity; by apply Z.leb_le.
Qed.

Lemma poa_london_transition n : transitions_at_block (fork (hardforks create_poa_genesis) (eth_name London)) n = (0 =? n).
Proof. rewrite poa_fork, transitions_at_block_eq. reflexivity. Qed.

Definition poa_genesis_header : Header := header (genesis_header create_poa_genesis).

Lemma poa_header_fields :
  number poa_genesis_header = 0 /\ timestamp poa_genesis_header = 0 /\ gas_used poa_genesis_header = 0 /\
  gas_limit poa_genesis_header = 2 ^ 48 - 1 /\ difficulty poa_genesis_header = 0 /\ nonce poa_genesis_header = Some 0 /\
  ommers_hash poa_genesis_header = EMPTY_OMMER_ROOT_HASH /\ length (extra_data poa_genesis_header) = 12%nat /\
  base_fee_per_gas poa_genesis_header = Some 0 /\ withdrawals_root poa_genesis_header = Some EMPTY_WITHDRAWALS /\
  blob_gas_used poa_genesis_header = Some 0 /\ excess_blob_gas poa_genesis_header = Some 0 /\
  parent_beacon_block_root poa_genesis_header = Some 0 /\ requests_hash poa_genesis_header = None.
Proof.
  assert (poa_genesis_header = make_genesis_header custom_genesis (hardforks create_poa_genesis)) as -> by reflexivity.
  assert (active_at_block (fork (hardforks create_poa_genesis) (eth_name London)) 0 = true) as Hl
    by (rewrite poa_fork, active_at_block_eq; reflexivity).
  assert (forall f, active_at_timestamp (fork (hardforks create_poa_genesis) (eth_name f)) (g_timestamp custom_genesis) =
            bool_decide (f = Shanghai \/ f = Cancun)) as Ht by (intros f; apply (poa_active_time f 0); lia).
  unfold make_genesis_header. rewrite Hl, !Ht. cbn.
  rewrite header_default_number, header_default_gas_used, header_default_ommers. done.
Qed.

(** The size of the extra data and the number of blobs that Ethereum allows. *)
Definition limits_ok : Prop :=
  32 <= MAXIMUM_EXTRA_DATA_SIZE /\
  0 <= max_blob_gas_per_block (default BlobParams_cancun (blob_params_at_timestamp create_poa_genesis 0)).

Lemma poa_genesis_valid now : limits_ok -> header_ok create_poa_genesis now poa_genesis_header.
Proof.
  intros [He Hb]. destruct poa_header_fields as (En & Et & Eu & El & Ed & Eno & Eo & Ex & Ef & Ew & Ebu & Eeb & Epb & Er).
  unfold header_ok, blob_fields_ok. rewrite En, Et, !poa_active_time by lia.
  rewrite (poa_active_block Paris) by (lia || by right). rewrite Eu, El, Ed, Eno, Eo, Ex, Ef, Ew, Ebu, Epb, Er. cbn.
  unfold MAXIMUM_GAS_LIMIT_BLOCK. split_and!; try done; try lia; eauto. exists 0. by split_and!; eauto.
Qed.

(** ** Chains on top of the genesis block *)

(** The gas that a block may use before the base fee rises. *)
Definition gas_target (h : Header) : Z := gas_limit h / elasticity_multiplier ethereum.

(** EIP-1559, as alloy documents [calc_next_block_base_fee]: at the target the base fee stays, above it it rises by an eighth of the excess and at
    least by one (unless that overflows 64 bits), and below it it falls by an eighth of what is left. *)
Definition eip1559 : Prop := forall used limit fee,
  let target := limit / elasticity_multiplier ethereum in
  let rise := Z.max 1 (fee * (used - target) / target / 8) in
  0 < target -> 0 <= used -> 0 <= fee -> fee + rise < 2 ^ 64 ->
  calc_next_block_base_fee used limit fee ethereum =
    if used =? target then fee else if target <? used then fee + rise else fee - fee * (target - used) / target / 8.

(** What that means for the sign of the next base fee. *)
Lemma eip1559_sign used limit fee : eip1559 -> 1 <= elasticity_multiplier ethereum <= 2 -> 2 <= limit -> 0 <= used <= limit -> 0 <= fee < 2 ^ 62 ->
  0 <= calc_next_block_base_fee used limit fee ethereum /\
  (0 < calc_next_block_base_fee used limit fee ethereum <-> 0 < fee \/ limit / elasticity_multiplier ethereum < used).
Proof.
  intros Hf He Hl Hu Hfee. specialize (Hf used limit fee). cbv zeta in Hf. set (target := limit / elasticity_multiplier ethereum) in *.
  assert (0 < target /\ limit <= 2 * target + 1) as [Ht Hle].
  { unfold target. assert (elasticity_multiplier ethereum = 1 \/ elasticity_multiplier ethereum = 2) as [-> | ->] by lia;
      Z.to_euclidean_division_equations; lia. }
  assert (fee * (used - target) / target / 8 <= fee) as Hr.
  { apply Z.div_le_upper_bound; [lia|]. apply Z.div_le_upper_bound; [lia|]. nia. }
  rewrite Hf by lia. destruct (Z.eqb_spec used target) as [->|]; [lia|]. destruct (Z.ltb_spec target used) as [Hgt|Hlt].
  { pose proof (Z.le_max_l 1 (fee * (used - target) / target / 8)). lia. }
  assert (0 <= fee * (target - used) / target <= fee) as Hd.
  { split; [apply Z.div_pos; nia|]. apply Z.div_le_upper_bound; [lia|]. nia. }
  Z.to_euclidean_division_equations. lia.
Qed.

Lemma poa_params t : base_fee_params_at_timestamp create_poa_genesis t = ethereum.
Proof. reflexivity. Qed.

Lemma poa_next_base_fee h parent fee :
  base_fee_ok create_poa_genesis h parent -> 0 < number h -> base_fee_per_gas parent = Some fee ->
  base_fee_per_gas h = Some (calc_next_block_base_fee (gas_used parent) (gas_limit parent) fee ethereum).
Proof.
  unfold base_fee_ok. rewrite poa_london_transition, poa_params. intros Hf Hn Hp.
  specialize (Hf ltac:(apply poa_active_block; [lia|by left])). destruct (0 =? number h) eqn:E; bools; [lia|].
  destruct Hf as (fee' & Hfee & ->). rewrite Hp in Hfee. by injection Hfee as <-.
Qed.

(** A range of headers that starts with the genesis block of the chain. *)
Definition poa_range (t : Z) (hs : list (Z * SealedHeader)) : list (Z * SealedHeader) :=
  (t, genesis_header create_poa_genesis) :: hs.

Lemma poa_chain t hs :
  validate_header_range (mkEthBeaconConsensus create_poa_genesis) (poa_range t hs) = Ok tt ->
  1 <= elasticity_multiplier ethereum <= 2 ->
  chain_from create_poa_genesis (genesis_header create_poa_genesis) (poa_range t hs).
Proof.
  intros Hr He. destruct poa_header_fields as (En & _ & _ & El & _).
  pose proof (validate_range_result (mkEthBeaconConsensus create_poa_genesis) (poa_range t hs)) as Hok. rewrite Hr in Hok.
  apply range_chain; [done|by intros ?| |].
  - fold poa_genesis_header. rewrite En. by split.
  - fold poa_genesis_header. by rewrite El.
Qed.

Lemma poa_header_shape now h :
  header_ok create_poa_genesis now h -> 0 <= number h -> 0 <= timestamp h ->
  difficulty h = 0 /\ is_Some (withdrawals_root h) /\ is_Some (blob_gas_used h) /\ is_Some (parent_beacon_block_root h) /\ requests_hash h = None.
Proof.
  unfold header_ok, blob_fields_ok. intros Hok Hn Ht. rewrite !poa_active_time in Hok by done.
  rewrite (poa_active_block Paris) in Hok by (done || by right). cbn in Hok.
  destruct Hok as ((? & _) & _ & _ & _ & Hw & (used & ? & ? & _) & Hr). split_and!; [done|by apply Hw|eauto|done|].
  destruct (requests_hash h) eqn:E; [|done]. assert (false = true) by (apply Hr; eauto). done.
Qed.

Section chain.
Context (t : Z) (hs : list (Z * SealedHeader)).
Context (Hchain : chain_from create_poa_genesis (genesis_header create_poa_genesis) (poa_range t hs)).
Context (Hlen : Z.of_nat (length hs) < u64_modulus).
#[local] Set Default Proof Using "All".

Lemma poa_number i x : poa_range t hs !! i = Some x -> number (header x.2) = Z.of_nat i.
Proof.
  intros Hx. destruct (Hchain i x Hx) as (-> & _). destruct poa_header_fields as (En & _).
  fold poa_genesis_header. rewrite En. simpl. apply wrap_u64_small. apply lookup_lt_Some in Hx. simpl in Hx. split; lia.
Qed.

Lemma poa_time i x : poa_range t hs !! i = Some x -> 0 <= timestamp (header x.2).
Proof.
  intros Hx. destruct (Hchain i x Hx) as (_ & Ht & _). destruct poa_header_fields as (_ & Et & _). fold poa_genesis_header in Ht. rewrite Et in Ht. lia.
Qed.

Lemma poa_before i x : poa_range t hs !! S i = Some x -> exists p, poa_range t hs !! i = Some p.
Proof. intros Hx. apply lookup_lt_is_Some. apply lookup_lt_Some in Hx. lia. Qed.

(** The fields of Cancun, of which the excess blob gas is checked against the parent. *)
Lemma poa_shape i x : poa_range t hs !! i = Some x ->
  difficulty (header x.2) = 0 /\ is_Some (withdrawals_root (header x.2)) /\ is_Some (blob_gas_used (header x.2)) /\
  is_Some (excess_blob_gas (header x.2)) /\ is_Some (parent_beacon_block_root (header x.2)) /\ requests_hash (header x.2) = None.
Proof.
  intros Hx. pose proof (poa_time i x Hx) as Ht. destruct (Hchain i x Hx) as (_ & _ & _ & Hok & Hpar).
  destruct (poa_header_shape x.1 (header x.2)) as (? & ? & ? & ? & ?); [done|rewrite (poa_number i x Hx); lia|done|].
  split_and!; try done. destruct i as [|i].
  - injection Hx as <-. assert (excess_blob_gas poa_genesis_header = Some 0) as E by apply poa_header_fields. exists 0. exact E.
  - destruct (poa_before i x Hx) as [p Hp]. destruct (Hpar i p eq_refl Hp) as (_ & _ & _ & _ & _ & Hex).
    assert (is_Some (blob_params_at_timestamp create_poa_genesis (timestamp (header x.2)))) as [params Hpp].
    { unfold blob_params_at_timestamp. destruct (active_scheduled_params_at_timestamp _ _); [by eexists|].
      rewrite !poa_active_time by done. by eexists. }
    destruct (Hex params Hpp) as [_ ->]. by eexists.
Qed.

Lemma poa_step j p x fee : poa_range t hs !! j = Some p -> poa_range t hs !! S j = Some x ->
  base_fee_per_gas (header p.2) = Some fee ->
  base_fee_per_gas (header x.2) =
    Some (calc_next_block_base_fee (gas_used (header p.2)) (gas_limit (header p.2)) fee ethereum).
Proof.
  intros Hp Hx Hf. destruct (Hchain _ _ Hx) as (_ & _ & _ & _ & Hpar).
  destruct (Hpar j p eq_refl Hp) as (_ & _ & _ & _ & ? & _). apply poa_next_base_fee; [done| |done].
  rewrite (poa_number _ _ Hx). lia.
Qed.

(** A block before block [i] used more than the target. *)
Definition exceeded (i : nat) : Prop :=
  exists j p, (j < i)%nat /\ poa_range t hs !! j = Some p /\ gas_target (header p.2) < gas_used (header p.2).

(** The base fees before block [i] are far from the end of their type. *)
Definition fees_small (i : nat) : Prop :=
  forall j p fee, (j < i)%nat -> poa_range t hs !! j = Some p -> base_fee_per_gas (header p.2) = Some fee -> fee < 2 ^ 62.

Lemma exceeded_S i p : poa_range t hs !! i = Some p -> exceeded (S i) <-> exceeded i \/ gas_target (header p.2) < gas_used (header p.2).
Proof.
  intros Hp. split.
  - intros (j & q & Hj & Hq & He). destruct (decide (j = i)) as [->|]; [right; congruence|left; exists j, q; split; [lia|done]].
  - intros [(j & q & Hj & Hq & He)|He]; [exists j, q; split; [lia|done]|exists i, p; split; [lia|done]].
Qed.

Context (Hused : forall i x, poa_range t hs !! i = Some x -> 0 <= gas_used (header x.2)).

(** The base fee is positive exactly if a block before used more than the target. *)
Lemma poa_fee_sign i : eip1559 -> 1 <= elasticity_multiplier ethereum <= 2 -> forall x, poa_range t hs !! i = Some x -> fees_small i ->
  exists fee, base_fee_per_gas (header x.2) = Some fee /\ 0 <= fee /\ (0 < fee <-> exceeded i).
Proof.
  intros Hz He. induction i as [|i IH]; intros x Hx Hs.
  - injection Hx as <-. fold poa_genesis_header. exists 0. split_and!; [apply poa_header_fields|done|]. split; [lia|]. intros (j & p & Hj & _). lia.
  - destruct (poa_before i x Hx) as [p Hp]. destruct (IH p Hp) as (fee & Hf & Hnonneg & Hpos); [intros j q f Hj; apply Hs; lia|].
    destruct (Hchain i p Hp) as (_ & _ & [Hmin _] & (_ & _ & [Hul _] & _) & _). unfold MINIMUM_GAS_LIMIT in Hmin.
    destruct (eip1559_sign (gas_used (header p.2)) (gas_limit (header p.2)) fee Hz He) as [N1 N2];
      [lia|split; [by apply (Hused i)|done]|split; [done|by apply (Hs i p fee); [lia|..]]|].
    eexists. split; [by apply (poa_step i p x)|]. split; [done|]. rewrite N2, Hpos, (exceeded_S i p Hp). done.
Qed.

(** Nothing is assumed about the fees as long as they are zero. *)
Lemma poa_fee_zero i : eip1559 -> 1 <= elasticity_multiplier ethereum <= 2 -> forall x, poa_range t hs !! i = Some x -> ~ exceeded i ->
  base_fee_per_gas (header x.2) = Some 0.
Proof.
  intros Hz He. induction i as [i IH] using lt_wf_ind. intros x Hx Hno.
  destruct (poa_fee_sign i Hz He x Hx) as (fee & -> & Hnonneg & Hpos); [|f_equal; destruct (decide (0 < fee)); [tauto|lia]].
  intros j p fee Hj Hp Hf. rewrite (IH j Hj p Hp) in Hf; [by injection Hf as <-|].
  intros (k & q & Hk & Hq). apply Hno. exists k, q. split; [lia|done].
Qed.

End chain.

(** C33: the chain without gas fees.  On any chain that the consensus accepts on top of
    the genesis block, block [i] has number [i], difficulty zero, the fields of Shanghai and Cancun (withdrawals root, blob gas used, excess blob gas, beacon root) and
    none of Prague.  As long as no block uses more than the target the base fee is zero in every block;
    after the first block that uses more the base fee of every block is positive for ever (as long as the fees are below 2^62).  The next base fee is
    assumed to be the one of EIP-1559. *)
Theorem poa_base_fee t hs :
  validate_header_range (mkEthBeaconConsensus create_poa_genesis) (poa_range t hs) = Ok tt ->
  1 <= elasticity_multiplier ethereum <= 2 -> eip1559 -> Z.of_nat (length hs) < u64_modulus ->
  (forall i x, poa_range t hs !! i = Some x -> 0 <= gas_used (header x.2)) ->
  forall i x, poa_range t hs !! i = Some x ->
    (number (header x.2) = Z.of_nat i /\ difficulty (header x.2) = 0 /\ is_Some (withdrawals_root (header x.2)) /\
     is_Some (blob_gas_used (header x.2)) /\ is_Some (excess_blob_gas (header x.2)) /\ is_Some (parent_beacon_block_root (header x.2)) /\
     requests_hash (header x.2) = None) /\
    ((forall j p, (j < i)%nat -> poa_range t hs !! j = Some p -> gas_used (header p.2) <= gas_target (header p.2)) ->
       base_fee_per_gas (header x.2) = Some 0) /\
    ((exists j p, (j < i)%nat /\ poa_range t hs !! j = Some p /\ gas_target (header p.2) < gas_used (header p.2)) ->
       (forall j p fee, (j < i)%nat -> poa_range t hs !! j = Some p -> base_fee_per_gas (header p.2) = Some fee -> fee < 2 ^ 62) ->
       exists fee, base_fee_per_gas (header x.2) = Some fee /\ 0 < fee).
Proof.
  intros Hr He Hz Hlen Hu i x Hx. pose proof (poa_chain t hs Hr He) as Hc. split; [|split].
  - split; [by apply (poa_number t hs Hc Hlen)|apply (poa_shape t hs Hc Hlen i x Hx)].
  - intros Hall. apply (poa_fee_zero t hs Hc Hlen Hu i Hz He x Hx). intros (j & p & Hj & Hp & Hgt). specialize (Hall j p Hj Hp). lia.
  - intros Hex Hs. destruct (poa_fee_sign t hs Hc Hlen Hu i Hz He x Hx Hs) as (fee & ? & _ & Hpos). exists fee. split; [done|]. by apply Hpos.
Qed.

(** The chain specification of the PoA chain.  Its identifier is 999888; every fork up to
    London is active from block zero, Shanghai and Cancun from time zero and no
    later one at any time; the genesis header has a base fee of zero
    and passes the consensus. *)
Theorem poa_genesis_spec now :
  limits_ok ->
  chain create_poa_genesis = 999888 /\
  (forall f n, 0 <= n -> f ∈ [Frontier; Homestead; Tangerine; SpuriousDragon; Byzantium; Constantinople; Petersburg; Istanbul;
       MuirGlacier; Berlin; London; ArrowGlacier; GrayGlacier; Paris] -> is_active_at_block create_poa_genesis f n = true) /\
  (forall f t, 0 <= t -> is_active_at_timestamp create_poa_genesis f t = true <-> f = Shanghai \/ f = Cancun) /\
  base_fee_per_gas (header (genesis_header create_poa_genesis)) = Some 0 /\
  initial_base_fee create_poa_genesis = Some 0 /\
  eth_validate_header (mkEthBeaconConsensus create_poa_genesis) now (genesis_header create_poa_genesis) = Ok tt.
Proof.
  intros Hl. split_and!.
  - reflexivity.
  - intros f n Hn Hf. apply poa_active_block; [done|]. destruct (decide (f = Paris)); [by right|left].
    destruct f; try reflexivity; exfalso; set_solver.
  - intros f t Ht. rewrite poa_active_time by done. apply bool_decide_eq_true.
  - apply poa_header_fields.
  - unfold initial_base_fee. rewrite poa_fork, active_at_block_eq. reflexivity.
  - apply validate_header_ok, (poa_genesis_valid now Hl).
Qed.

(** The rules do not look at who made a block: another beneficiary changes no answer. *)
Theorem author_not_checked self now hash h a (parent : SealedHeader) :
  let with_author := mkHeader (parent_hash h) (ommers_hash h) a (state_root h) (transactions_root h) (receipts_root h)
      (logs_bloom h) (difficulty h) (number h) (gas_limit h) (gas_used h) (timestamp h) (extra_data h) (mix_hash h)
      (nonce h) (base_fee_per_gas h) (withdrawals_root h) (blob_gas_used h) (excess_blob_gas h)
      (parent_beacon_block_root h) (requests_hash h) in
  eth_validate_header self now (mkSealedHeader hash with_author) = eth_validate_header self now (mkSealedHeader hash h) /\
  eth_validate_header_against_parent self (mkSealedHeader hash with_author) parent =
    eth_validate_header_against_parent self (mkSealedHeader hash h) parent.
Proof. split; reflexivity. Qed.

End poa.

(** ** Examples *)

Section examples.
#[local] Existing Instance example_chain_types.
#[local] Existing Instance BeaconClaims.example_body_types.

Definition poa_block (n time parent limit used : Z) (fee : Z) : SealedHeader :=
  new_unhashed (mkHeader parent 29 1 56 56 56 0 0 n limit used time [] 0 (Some 0) (Some fee) (Some 56) (Some 0) (Some 0) (Some 0) None).

(** The second block uses more than the target. *)
Definition poa1 : SealedHeader := poa_block 1 1 (hash (genesis_header create_poa_genesis)) (2 ^ 48 - 1) 21000 0.
Definition poa2 : SealedHeader := poa_block 2 2 (hash poa1) (2 ^ 48 - 1) (2 ^ 47) 0.
Definition poa3 : SealedHeader := poa_block 3 3 (hash poa2) (2 ^ 48 - 1) 0 1.

Lemma example_eip1559 : eip1559.
Proof.
  intros used limit fee target rise Ht Hu Hf Hr. simpl. unfold example_base_fee. simpl in *. fold target.
  destruct (used =? target); [done|]. destruct (Z.ltb_spec target used); [done|]. apply Z.max_r.
  assert (fee * (target - used) / target <= fee) by (apply Z.div_le_upper_bound; [lia|nia]).
  assert (0 <= fee * (target - used) / target) by (apply Z.div_pos; nia).
  Z.to_euclidean_division_equations. lia.
Qed.

Lemma poa_base_fee_witness :
  base_fee_per_gas (header poa2) = Some 0 /\ exists fee, base_fee_per_gas (header poa3) = Some fee /\ 0 < fee.
Proof.
  pose proof (poa_base_fee 0 [(0, poa1); (0, poa2); (0, poa3)]) as Hc.
  specialize (Hc ltac:(reflexivity) ltac:(simpl; lia) example_eip1559 ltac:(vm_compute; reflexivity)).
  assert (forall i x, poa_range 0 [(0, poa1); (0, poa2); (0, poa3)] !! i = Some x ->
    0 <= gas_used (header x.2) /\ default 0 (base_fee_per_gas (header x.2)) < 2 ^ 62) as Hs.
  { intros [|[|[|[|i]]]] x Hx; [injection Hx as <-; vm_compute; split; congruence..|discriminate Hx]. }
  specialize (Hc (fun i x Hx => proj1 (Hs i x Hx))).
  split.
  - apply (Hc 2%nat (0, poa2) eq_refl). intros j p Hj Hp.
    destruct j as [|[|j]]; [injection Hp as <-; vm_compute; discriminate|injection Hp as <-; vm_compute; discriminate|lia].
  - destruct (Hc 3%nat (0, poa3) eq_refl) as (_ & _ & Hr). apply Hr.
    + exists 2%nat, (0, poa2). split; [lia|]. split; [reflexivity|]. vm_compute. reflexivity.
    + intros j p fee _ Hp Hf. destruct (Hs j p Hp) as [_ Hb]. rewrite Hf in Hb. exact Hb.
Defined.

Lemma poa_genesis_spec_witness :
  limits_ok /\ eth_validate_header (mkEthBeaconConsensus create_poa_genesis) 0 (genesis_header create_poa_genesis) = Ok tt.
Proof.
  assert limits_ok as Hl by (split; vm_compute; discriminate). split; [exact Hl|]. apply (poa_genesis_spec 0 Hl).
Defined.

End examples.
End PoaGenesis.
