(* ===== verification/TxTypes.v ===== *)
(** * Transactions, configuration and ordering of the pool

    [crates/transaction-pool/src/]: [traits.rs] (the [PoolTransaction] trait and
    the pool's public data), [validate/mod.rs] ([ValidPoolTransaction]),
    [config.rs], [ordering.rs], [pool/update.rs] and the result types of
    [pool/mod.rs]. *)

From S2P Require Import Prelude Ordered TxErrors TxIdentifier TxState.
Import Identifier TxState.

Module TxTypes.

Section types.
Context `{AlloyConstants}.

(** ** Transactions *)

(** What the pool reads of a transaction: the getters of [PoolTransaction]
    and of its super traits. *)
Record PoolTransaction := mkPoolTransaction {
  tx_hash : Z;
  tx_sender : Z;
  tx_nonce : Z;
  ty : Z;
  cost : Z;
  max_fee_per_gas : Z;
  max_priority_fee_per_gas : option Z;
  max_fee_per_blob_gas : option Z;
  gas_limit : Z;
  tx_size : Z;
}.

Definition is_eip4844 (tx : PoolTransaction) : bool := ty tx =? EIP4844_TX_TYPE_ID.

Inductive TransactionOrigin := Local | External | Private.

#[export] Instance TransactionOrigin_eq_dec : EqDecision TransactionOrigin.
Proof. solve_decision. Defined.

Definition origin_is_local (o : TransactionOrigin) : bool :=
  match o with Local => true | _ => false end.

Record ValidPoolTransaction := mkValidPoolTransaction {
  transaction : PoolTransaction;
  transaction_id : TransactionId;
  propagate : bool;
  timestamp : Z;
  origin : TransactionOrigin;
  authority_ids : option (list SenderId);
}.

Definition vhash (tx : ValidPoolTransaction) : Z := tx_hash (transaction tx).
Definition vsender_id (tx : ValidPoolTransaction) : SenderId := sender (transaction_id tx).
Definition vnonce (tx : ValidPoolTransaction) : Z := tx_nonce (transaction tx).
Definition vcost (tx : ValidPoolTransaction) : Z := cost (transaction tx).
Definition vis_local (tx : ValidPoolTransaction) : bool := origin_is_local (origin tx).
Definition vis_eip4844 (tx : ValidPoolTransaction) : bool := is_eip4844 (transaction tx).
Definition vsize (tx : ValidPoolTransaction) : Z := tx_size (transaction tx).
Definition vmax_fee_per_gas (tx : ValidPoolTransaction) : Z := max_fee_per_gas (transaction tx).
Definition vmax_fee_per_blob_gas (tx : ValidPoolTransaction) : option Z :=
  max_fee_per_blob_gas (transaction tx).

Definition tx_type_conflicts_with (self other : ValidPoolTransaction) : bool :=
  negb (Bool.eqb (vis_eip4844 self) (vis_eip4844 other)).

(** [Option<u128>] compared with [<]: [None] is smallest. *)
Definition option_lt (a : option Z) (b : Z) : bool :=
  match a with None => true | Some a => a <? b end.

(** ** Configuration *)

Definition TXPOOL_MAX_ACCOUNT_SLOTS_PER_SENDER : Z := 16.
Definition TXPOOL_SUBPOOL_MAX_TXS_DEFAULT : Z := 10000.
Definition TXPOOL_SUBPOOL_MAX_SIZE_MB_DEFAULT : Z := 20.
Definition DEFAULT_PRICE_BUMP : Z := 10.
Definition REPLACE_BLOB_PRICE_BUMP : Z := 100.
Definition DEFAULT_MAX_INFLIGHT_DELEGATED_SLOTS : Z := 1.

Record SubPoolLimit := mkSubPoolLimit { max_txs : Z; max_size : Z }.

Definition limit_is_exceeded (self : SubPoolLimit) (txs size : Z) : bool :=
  ((max_txs self <? txs) || (max_size self <? size))%bool.

Definition limit_max : SubPoolLimit := mkSubPoolLimit (u64_modulus - 1) (u64_modulus - 1).

(** [Mul<usize> for SubPoolLimit]. *)
Definition limit_mul (self : SubPoolLimit) (rhs : Z) : SubPoolLimit :=
  mkSubPoolLimit (wrap_u64 (max_txs self * rhs)) (wrap_u64 (max_size self * rhs)).

Definition limit_default : SubPoolLimit :=
  mkSubPoolLimit TXPOOL_SUBPOOL_MAX_TXS_DEFAULT
    (TXPOOL_SUBPOOL_MAX_SIZE_MB_DEFAULT * 1024 * 1024).

Record PriceBumpConfig := mkPriceBumpConfig {
  default_price_bump : Z;
  replace_blob_tx_price_bump : Z;
}.

Definition price_bump (self : PriceBumpConfig) (tx_type : Z) : Z :=
  if tx_type =? EIP4844_TX_TYPE_ID then replace_blob_tx_price_bump self
  else default_price_bump self.

Definition price_bumps_default : PriceBumpConfig :=
  mkPriceBumpConfig DEFAULT_PRICE_BUMP REPLACE_BLOB_PRICE_BUMP.

Record LocalTransactionConfig := mkLocalTransactionConfig {
  no_exemptions : bool;
  local_addresses : gset Z;
  propagate_local_transactions : bool;
}.

Definition local_config_default : LocalTransactionConfig :=
  mkLocalTransactionConfig false ∅ true.

Definition config_is_local (self : LocalTransactionConfig) (o : TransactionOrigin) (sender : Z)
  : bool :=
  if no_exemptions self then false
  else (origin_is_local o || bool_decide (sender ∈ local_addresses self))%bool.

(** The default bounds of the listeners' buffers. *)
Definition PENDING_TX_LISTENER_BUFFER_SIZE : Z := 2048.
Definition NEW_TX_LISTENER_BUFFER_SIZE : Z := 1024.
Definition MAX_NEW_PENDING_TXS_NOTIFICATIONS : Z := 200.
(** In seconds. *)
Definition MAX_QUEUED_TRANSACTION_LIFETIME : Z := 3 * 60 * 60.

Record PoolConfig := mkPoolConfig {
  pending_limit : SubPoolLimit;
  basefee_limit : SubPoolLimit;
  queued_limit : SubPoolLimit;
  blob_limit : SubPoolLimit;
  blob_cache_size : option Z;
  max_account_slots : Z;
  price_bumps : PriceBumpConfig;
  minimal_protocol_basefee : Z;
  config_minimum_priority_fee : option Z;
  config_gas_limit : Z;
  local_transactions_config : LocalTransactionConfig;
  pending_tx_listener_buffer_size : Z;
  new_tx_listener_buffer_size : Z;
  max_new_pending_txs_notifications : Z;
  max_queued_lifetime : Z;
  max_inflight_delegated_slot_limit : Z;
}.

Definition pool_config_default : PoolConfig :=
  {| pending_limit := limit_default;
     basefee_limit := limit_default;
     queued_limit := limit_default;
     blob_limit := limit_default;
     blob_cache_size := None;
     max_account_slots := TXPOOL_MAX_ACCOUNT_SLOTS_PER_SENDER;
     price_bumps := price_bumps_default;
     minimal_protocol_basefee := MIN_PROTOCOL_BASE_FEE;
     config_minimum_priority_fee := None;
     config_gas_limit := ETHEREUM_BLOCK_GAS_LIMIT_30M;
     local_transactions_config := local_config_default;
     pending_tx_listener_buffer_size := PENDING_TX_LISTENER_BUFFER_SIZE;
     new_tx_listener_buffer_size := NEW_TX_LISTENER_BUFFER_SIZE;
     max_new_pending_txs_notifications := MAX_NEW_PENDING_TXS_NOTIFICATIONS;
     max_queued_lifetime := MAX_QUEUED_TRANSACTION_LIFETIME;
     max_inflight_delegated_slot_limit := DEFAULT_MAX_INFLIGHT_DELEGATED_SLOTS |}.

(** ** Replacement *)

Definition wrap_u128 (z : Z) : Z := z mod 2 ^ 128.

(** [fee * (100 + bump) / 100] on [u128]. *)
Definition bumped (fee bump : Z) : Z := wrap_u128 (fee * wrap_u128 (100 + bump)) / 100.

Definition is_underpriced (self maybe_replacement : ValidPoolTransaction)
  (bumps : PriceBumpConfig) : bool :=
  let bump := price_bump bumps (ty (transaction self)) in
  if vmax_fee_per_gas maybe_replacement <? bumped (vmax_fee_per_gas self) bump then true
  else
    let existing_max_priority_fee_per_gas :=
      default 0 (max_priority_fee_per_gas (transaction self)) in
    let replacement_max_priority_fee_per_gas :=
      default 0 (max_priority_fee_per_gas (transaction maybe_replacement)) in
    if (negb (existing_max_priority_fee_per_gas =? 0) &&
        negb (replacement_max_priority_fee_per_gas =? 0) &&
        (replacement_max_priority_fee_per_gas <?
           bumped existing_max_priority_fee_per_gas bump))%bool
    then true
    else
      match max_fee_per_blob_gas (transaction self) with
      | Some existing_max_blob_fee_per_gas =>
          let replacement_max_blob_fee_per_gas :=
            default 0 (max_fee_per_blob_gas (transaction maybe_replacement)) in
          if replacement_max_blob_fee_per_gas <? bumped existing_max_blob_fee_per_gas bump
          then true else false
      | None => false
      end.

(** ** Fees, block info, sizes *)

Record PendingFees := mkPendingFees { base_fee : Z; blob_fee : Z }.

Definition pending_fees_default : PendingFees := mkPendingFees 0 BLOB_TX_MIN_BLOB_GASPRICE.

Record BlockInfo := mkBlockInfo {
  info_last_seen_block_hash : Z;
  info_last_seen_block_number : Z;
  info_block_gas_limit : Z;
  pending_basefee : Z;
  pending_blob_fee : option Z;
}.

Record PoolSize := mkPoolSize {
  size_pending : Z; size_pending_bytes : Z;
  size_blob : Z; size_blob_bytes : Z;
  size_basefee : Z; size_basefee_bytes : Z;
  size_queued : Z; size_queued_bytes : Z;
  size_total : Z;
}.

Definition config_is_exceeded (self : PoolConfig) (s : PoolSize) : bool :=
  (limit_is_exceeded (blob_limit self) (size_blob s) (size_blob_bytes s) ||
   limit_is_exceeded (pending_limit self) (size_pending s) (size_pending_bytes s) ||
   limit_is_exceeded (basefee_limit self) (size_basefee s) (size_basefee_bytes s) ||
   limit_is_exceeded (queued_limit self) (size_queued s) (size_queued_bytes s))%bool.

Record BestTransactionsAttributes := mkBestAttributes {
  attr_basefee : Z;
  attr_blob_fee : option Z;
}.

Inductive PoolUpdateKind := Commit | Reorg.

Record SenderInfo := mkSenderInfo { state_nonce : Z; balance : Z }.

(** ** Updates *)

Inductive Destination := Discard | ToPool (p : SubPool).

Record PoolUpdate := mkPoolUpdate {
  update_id : TransactionId;
  update_current : SubPool;
  update_destination : Destination;
}.

Record UpdateOutcome := mkUpdateOutcome {
  promoted : list ValidPoolTransaction;
  discarded : list ValidPoolTransaction;
}.

Definition update_outcome_default : UpdateOutcome := mkUpdateOutcome [] [].

(** ** Ordering *)

Inductive Priority (V : Type) :=
| Value (v : V)
| NoPriority.

End types.

Arguments Value {V} v.
Arguments NoPriority {V}.

(** The trait [TransactionOrdering]: a priority for each transaction, whose
    values are totally ordered. *)
Class TransactionOrdering := {
  PriorityValue : Type;
  value_cmp : PriorityValue -> PriorityValue -> comparison;
  value_cmp_total :: TotalCmp value_cmp;
  priority : PoolTransaction -> Z -> Priority PriorityValue;
}.

Section ordering.
Context `{TransactionOrdering}.

(** [impl Ord for Priority]. *)
Definition priority_cmp (a b : Priority PriorityValue) : comparison :=
  match a, b with
  | Value a, Value b => value_cmp a b
  | Value _, NoPriority => Gt
  | NoPriority, Value _ => Lt
  | NoPriority, NoPriority => Eq
  end.

#[export] Instance priority_cmp_total : TotalCmp priority_cmp.
Proof.
  split.
  - intros [x|] [y|]; simpl; try done. apply (cmp_antisym (cmp:=value_cmp)).
  - intros [x|] [y|] [z|]; simpl; try done. apply (cmp_lt_trans (cmp:=value_cmp)).
  - intros [x|] [y|] [z|]; simpl; try done. apply (cmp_eq_trans (cmp:=value_cmp)).
Qed.

End ordering.

(** [CoinbaseTipOrdering]; [effective_tip_per_gas] is a method of [alloy]. *)
#[export] Instance Z_compare_total : TotalCmp Z.compare.
Proof.
  split.
  - intros x y. apply Z.compare_antisym.
  - intros x y z. rewrite !Z.compare_lt_iff. lia.
  - intros x y z. rewrite Z.compare_eq_iff. by intros ->.
Qed.

Definition CoinbaseTipOrdering (effective_tip_per_gas : PoolTransaction -> Z -> option Z)
  : TransactionOrdering :=
  {| PriorityValue := Z;
     value_cmp := Z.compare;
     priority := fun tx base_fee =>
       match effective_tip_per_gas tx base_fee with
       | Some tip => Value tip
       | None => NoPriority
       end |}.

(** ** Properties *)

Section properties.
Context `{AlloyConstants}.

Lemma bumped_exact fee bump :
  0 <= fee -> 0 <= bump -> fee * (100 + bump) < 2 ^ 128 -> 100 + bump < 2 ^ 128 ->
  bumped fee bump = fee * (100 + bump) / 100.
Proof.
  intros. unfold bumped, wrap_u128. rewrite (Z.mod_small (100 + bump)) by lia.
  rewrite Z.mod_small; [done|]. split; [nia|done].
Qed.

(** A replacement the pool accepts pays for it.  When the existing fee
    does not overflow the 128-bit computation, the fee cap of a replacement
    that is not underpriced exceeds the existing one by the configured
    percentage (rounded down), and a blob transaction is only replaced by one
    whose blob fee cap is raised by the same percentage. *)
Theorem replacement_price_bump existing new bumps :
  let bump := price_bump bumps (ty (transaction existing)) in
  0 <= bump -> 100 + bump < 2 ^ 128 ->
  0 <= vmax_fee_per_gas existing -> vmax_fee_per_gas existing * (100 + bump) < 2 ^ 128 ->
  is_underpriced existing new bumps = false ->
  vmax_fee_per_gas existing * (100 + bump) / 100 <= vmax_fee_per_gas new /\
  (forall f, vmax_fee_per_blob_gas existing = Some f -> 0 <= f -> f * (100 + bump) < 2 ^ 128 ->
     f * (100 + bump) / 100 <= default 0 (vmax_fee_per_blob_gas new)).
Proof.
  intros bump Hb Hb' Hfee Hov. unfold is_underpriced. fold bump.
  destruct (_ <? bumped (vmax_fee_per_gas existing) bump) eqn:E1; [done|].
  destruct (_ && _)%bool eqn:E2; [done|]. unfold vmax_fee_per_blob_gas. intros Hlast. bools.
  rewrite bumped_exact in E1 by done. split; [done|].
  intros f Hf Hf0 Hfov. rewrite Hf in Hlast.
  destruct (_ <? bumped f bump) eqn:E3; [done|]. bools.
  by rewrite bumped_exact in E3.
Qed.

End properties.

(** Concrete constants, for examples: the values of the protocol. *)
Definition mainnet_constants : AlloyConstants :=
  {| EIP4844_TX_TYPE_ID := 3;
     KECCAK_EMPTY := 0xc5d2460186f7233c927e7db2dcc703c0e500b653ca82273b7bfad8045d85a470;
     MIN_PROTOCOL_BASE_FEE := 7;
     ETHEREUM_BLOCK_GAS_LIMIT_30M := 30000000;
     BLOB_TX_MIN_BLOB_GASPRICE := 1;
     BlobTransactionValidationError := string |}.

(** A transaction of sender [s] with the given nonce, fee cap and cost. *)
Definition example_tx (h s n fee c : Z) : ValidPoolTransaction :=
  {| transaction :=
       {| tx_hash := h; tx_sender := 1000 + s; tx_nonce := n; ty := 2; cost := c;
          max_fee_per_gas := fee; max_priority_fee_per_gas := Some 1;
          max_fee_per_blob_gas := None; gas_limit := 21000; tx_size := 100 |};
     transaction_id := mkTransactionId s n;
     propagate := true; timestamp := 0; origin := External; authority_ids := None |}.

(** The tip a transaction pays at a base fee, if it can pay the base fee. *)
Definition example_tip (tx : PoolTransaction) (bf : Z) : option Z :=
  if bf <=? max_fee_per_gas tx
  then Some (Z.min (max_fee_per_gas tx - bf) (default 0 (max_priority_fee_per_gas tx)))
  else None.

#[local] Existing Instance mainnet_constants.

Lemma replacement_price_bump_witness :
  is_underpriced (example_tx 1 0 0 100 0) (example_tx 2 0 0 110 0) price_bumps_default = false /\
  100 * 110 / 100 <= 110.
Proof.
  assert (Hu : is_underpriced (example_tx 1 0 0 100 0) (example_tx 2 0 0 110 0)
                 price_bumps_default = false) by reflexivity.
  split; [exact Hu|].
  destruct (replacement_price_bump (example_tx 1 0 0 100 0) (example_tx 2 0 0 110 0)
    price_bumps_default) as [Hp _]; [by vm_compute..|exact Hu|exact Hp].
Defined.

End TxTypes.
