(* ===== verification/EthTransaction.v ===== *)
(** * Ethereum transactions of the pool

    [EthPooledTransaction] of [crates/transaction-pool/src/traits.rs] and the
    results of validation in [validate/mod.rs].  A signed transaction is a type
    of the [alloy] crates: a record of what its getters return.  Sidecars,
    authorizations and bytecodes are opaque; what the pool asks of them is in
    [AlloyTypes]. *)

From S2P Require Import Prelude Ordered TxErrors TxIdentifier TxState TxTypes.
Import TxErrors TxTypes.

(** Types and functions of the [alloy] and [revm] crates. *)
Class AlloyTypes := {
  BlobTransactionSidecarVariant : Type;
  sidecar_is_eip4844 : BlobTransactionSidecarVariant -> bool;
  sidecar_is_eip7594 : BlobTransactionSidecarVariant -> bool;
  SignedAuthorization : Type;
  recover_authority : SignedAuthorization -> option Z;
  Bytecode : Type;
  bytecode_default : Bytecode;
  bytecode_is_eip7702 : Bytecode -> bool;
}.

Module EthTx.

Section eth.
Context `{AlloyConstants} `{AlloyTypes}.

(** ** Transactions *)

(** [Recovered<TransactionSigned>]: the getters. *)
Record SignedTransaction := mkSigned {
  s_hash : Z;
  s_signer : Z;
  s_ty : Z;
  s_chain_id : option Z;
  s_nonce : Z;
  s_gas_limit : Z;
  s_max_fee_per_gas : Z;
  s_max_priority_fee_per_gas : option Z;
  s_max_fee_per_blob_gas : option Z;
  s_is_dynamic_fee : bool;
  s_is_create : bool;
  s_value : Z;
  s_input : list Z;
  s_access_list : option (list (Z * list Z));
  s_blob_versioned_hashes : option (list Z);
  s_blob_gas_used : option Z;
  s_authorization_list : option (list SignedAuthorization);
  s_size : Z;
}.

Inductive EthBlobTransactionSidecar :=
| SidecarNone
| SidecarMissing
| SidecarPresent (sidecar : BlobTransactionSidecarVariant).

Definition maybe_sidecar (self : EthBlobTransactionSidecar) : option BlobTransactionSidecarVariant :=
  match self with SidecarPresent sidecar => Some sidecar | _ => None end.

Record EthPooledTransaction := mkPooled {
  signed : SignedTransaction;
  pooled_cost : Z;
  encoded_length : Z;
  blob_sidecar : EthBlobTransactionSidecar;
}.

Definition u256_max : Z := 2 ^ 256 - 1.
Definition u128_max : Z := 2 ^ 128 - 1.
Definition saturating_mul_u256 (a b : Z) : Z := Z.min (a * b) u256_max.
Definition saturating_add_u256 (a b : Z) : Z := Z.min (a + b) u256_max.
Definition saturating_mul_u128 (a b : Z) : Z := Z.min (a * b) u128_max.

Definition pooled_new (tx : SignedTransaction) (encoded_length : Z) : EthPooledTransaction :=
  let gas_cost := saturating_mul_u256 (s_max_fee_per_gas tx) (s_gas_limit tx) in
  let cost := saturating_add_u256 gas_cost (s_value tx) in
  match s_blob_gas_used tx, s_max_fee_per_blob_gas tx with
  | Some blob_gas_used, Some max_fee_per_blob_gas =>
      mkPooled tx
        (saturating_add_u256 cost (saturating_mul_u128 max_fee_per_blob_gas blob_gas_used))
        encoded_length SidecarMissing
  | _, _ => mkPooled tx cost encoded_length SidecarNone
  end.

Definition pooled_is_eip4844 (self : EthPooledTransaction) : bool :=
  s_ty (signed self) =? EIP4844_TX_TYPE_ID.

(** The blob is moved out of the transaction. *)
Definition take_blob (self : EthPooledTransaction) : EthPooledTransaction * EthBlobTransactionSidecar :=
  if pooled_is_eip4844 self
  then (mkPooled (signed self) (pooled_cost self) (encoded_length self) SidecarMissing,
        blob_sidecar self)
  else (self, SidecarNone).

Definition input_len (self : EthPooledTransaction) : Z := Z.of_nat (length (s_input (signed self))).

Definition ensure_max_init_code_size (self : EthPooledTransaction) (max_init_code_size : Z)
  : result unit InvalidPoolTransactionError :=
  if (s_is_create (signed self) && (max_init_code_size <? input_len self))%bool
  then Err (ExceedsMaxInitCodeSize (input_len self) max_init_code_size)
  else Ok tt.

(** The getters of the trait [PoolTransaction], as the pool reads them. *)
Definition pool_transaction (self : EthPooledTransaction) : PoolTransaction :=
  let tx := signed self in
  {| tx_hash := s_hash tx; tx_sender := s_signer tx; tx_nonce := s_nonce tx; ty := s_ty tx;
     cost := pooled_cost self; max_fee_per_gas := s_max_fee_per_gas tx;
     max_priority_fee_per_gas := s_max_priority_fee_per_gas tx;
     max_fee_per_blob_gas := s_max_fee_per_blob_gas tx; gas_limit := s_gas_limit tx;
     tx_size := s_size tx |}.

(** ** Outcomes of validation *)

Inductive ValidTransaction :=
| ValidTx (transaction : EthPooledTransaction)
| ValidWithSidecar (transaction : EthPooledTransaction) (sidecar : BlobTransactionSidecarVariant).

Definition valid_new (transaction : EthPooledTransaction)
  (sidecar : option BlobTransactionSidecarVariant) : ValidTransaction :=
  match sidecar with
  | Some sidecar => ValidWithSidecar transaction sidecar
  | None => ValidTx transaction
  end.

Definition valid_transaction (self : ValidTransaction) : EthPooledTransaction :=
  match self with ValidTx transaction | ValidWithSidecar transaction _ => transaction end.

Inductive TransactionValidationOutcome :=
| OutcomeValid (balance state_nonce : Z) (bytecode_hash : option Z) (transaction : ValidTransaction)
    (propagate : bool) (authorities : option (list Z))
| OutcomeInvalid (transaction : EthPooledTransaction) (err : InvalidPoolTransactionError)
| OutcomeError (hash : Z) (err : string).

Definition outcome_tx_hash (self : TransactionValidationOutcome) : Z :=
  match self with
  | OutcomeValid _ _ _ transaction _ _ => s_hash (signed (valid_transaction transaction))
  | OutcomeInvalid transaction _ => s_hash (signed transaction)
  | OutcomeError hash _ => hash
  end.

Definition as_invalid (self : TransactionValidationOutcome) : option InvalidPoolTransactionError :=
  match self with OutcomeInvalid _ err => Some err | _ => None end.

Definition is_valid (self : TransactionValidationOutcome) : bool :=
  match self with OutcomeValid _ _ _ _ _ _ => true | _ => false end.
Definition is_invalid (self : TransactionValidationOutcome) : bool :=
  match self with OutcomeInvalid _ _ => true | _ => false end.
Definition is_error (self : TransactionValidationOutcome) : bool :=
  match self with OutcomeError _ _ => true | _ => false end.

End eth.

(** A model of the libraries, for examples: a sidecar is marked by its version,
    an authorization is the address it recovers to. *)
Definition example_alloy : AlloyTypes :=
  {| BlobTransactionSidecarVariant := bool;
     sidecar_is_eip4844 := negb; sidecar_is_eip7594 := fun s => s;
     SignedAuthorization := Z; recover_authority := Some;
     Bytecode := bool; bytecode_default := false; bytecode_is_eip7702 := fun b => b |}.

End EthTx.
