(* ===== verification/EthValidator.v ===== *)
(** * The validator of incoming transactions

    [EthTransactionValidator] of
    [crates/transaction-pool/src/validate/eth.rs], its builder and its fork
    tracker.  The atomics of the fork tracker and the block gas limit are fields of the
    validator, and [on_new_head_block] returns the changed validator.  The client
    (chain specification and state), the blob store, the KZG check and the gas
    calculation of [revm] are parameters.  [None] is a panic. *)

From S2P Require Import Prelude Ordered TxErrors TxIdentifier TxState TxTypes EthTransaction.
Import TxErrors TxTypes EthTx.

(** Constants and functions of [alloy] and [revm] the validator uses. *)
Inductive SpecId := MERGE | SHANGHAI | PRAGUE.

Record InitialAndFloorGas := mkInitialGas { initial_gas : Z; floor_gas : Z }.

Class ValidatorConstants := {
  LEGACY_TX_TYPE_ID : Z;
  EIP2930_TX_TYPE_ID : Z;
  EIP1559_TX_TYPE_ID : Z;
  EIP7702_TX_TYPE_ID : Z;
  MAX_INITCODE_SIZE : Z;
  cancun_max_blobs_per_tx : Z;
  prague_max_blobs_per_tx : Z;
  (** input, is_create, accounts, storage slots and authorizations listed *)
  calculate_initial_tx_gas : SpecId -> list Z -> bool -> Z -> Z -> Z -> InitialAndFloorGas;
}.

Module Validator.

Section validator.
Context `{AlloyConstants} `{AlloyTypes} `{ValidatorConstants}.

(** ** Constants *)

Definition TX_SLOT_BYTE_SIZE : Z := 32 * 1024.
Definition DEFAULT_MAX_TX_INPUT_BYTES : Z := 4 * TX_SLOT_BYTE_SIZE.
Definition MAX_INIT_CODE_BYTE_SIZE : Z := MAX_INITCODE_SIZE.
Definition MAX_TX_GAS_LIMIT_OSAKA : Z := 2 ^ 24.

(** ** The client *)

Record Account := mkAccount { acc_nonce : Z; acc_balance : Z; acc_bytecode_hash : option Z }.
Definition account_default : Account := mkAccount 0 0 None.

(** [AccountInfoReader]: reads that can fail. *)
Record StateProvider := mkState {
  basic_account : Z -> result (option Account) string;
  bytecode_by_hash : Z -> result (option Bytecode) string;
}.

(** The chain specification and the access to the latest state. *)
Record Client := mkClient {
  client_chain_id : Z;
  is_shanghai_active_at_timestamp : Z -> bool;
  is_cancun_active_at_timestamp : Z -> bool;
  is_prague_active_at_timestamp : Z -> bool;
  is_osaka_active_at_timestamp : Z -> bool;
  (** [max_blobs_per_tx] of the parameters *)
  blob_params_at_timestamp : Z -> option Z;
  latest : result StateProvider string;
}.

(** ** The validator *)

Record ForkTracker := mkForkTracker {
  shanghai : bool;
  cancun : bool;
  prague : bool;
  osaka : bool;
  max_blob_count : Z;
}.

Record EthTransactionValidator := mkValidator {
  client : Client;
  blob_store_contains : Z -> result bool string;
  fork_tracker : ForkTracker;
  eip2718 : bool;
  eip1559 : bool;
  eip4844 : bool;
  eip7702 : bool;
  block_gas_limit : Z;
  tx_fee_cap : option Z;
  minimum_priority_fee : option Z;
  (** [transaction.validate_blob(&sidecar, self.kzg_settings.get())] *)
  validate_blob : EthPooledTransaction -> BlobTransactionSidecarVariant ->
    result unit BlobTransactionValidationError;
  local_transactions_config : LocalTransactionConfig;
  max_tx_input_bytes : Z;
  max_tx_gas_limit : option Z;
  disable_balance_check : bool;
  other_tx_types : Z;
}.

Implicit Types (self : EthTransactionValidator) (transaction : EthPooledTransaction).

Definition chain_id self : Z := client_chain_id (client self).

(** [a < b] and [a > b] on [Option<u128>], where [None] is smallest. *)
Definition opt_ltb (a b : option Z) : bool :=
  match a, b with
  | Some a, Some b => a <? b
  | None, Some _ => true
  | _, None => false
  end.

Definition ensure_intrinsic_gas transaction (forks : ForkTracker)
  : result unit InvalidPoolTransactionError :=
  let tx := signed transaction in
  let spec_id := if prague forks then PRAGUE else if shanghai forks then SHANGHAI else MERGE in
  let gas := calculate_initial_tx_gas spec_id (s_input tx) (s_is_create tx)
    (Z.of_nat (length (default [] (s_access_list tx))))
    (foldr (fun i acc => Z.of_nat (length i.2) + acc) 0 (default [] (s_access_list tx)))
    (Z.of_nat (length (default [] (s_authorization_list tx)))) in
  if ((s_gas_limit tx <? initial_gas gas) || (s_gas_limit tx <? floor_gas gas))%bool
  then Err IntrinsicGasTooLow else Ok tt.

(** The [match transaction.ty()] at the start. *)
Definition check_tx_type self transaction : result unit InvalidTransactionError :=
  let ty := s_ty (signed transaction) in
  if ty =? LEGACY_TX_TYPE_ID then Ok tt
  else if ty =? EIP2930_TX_TYPE_ID then if negb (eip2718 self) then Err Eip2930Disabled else Ok tt
  else if ty =? EIP1559_TX_TYPE_ID then if negb (eip1559 self) then Err Eip1559Disabled else Ok tt
  else if ty =? EIP4844_TX_TYPE_ID then if negb (eip4844 self) then Err Eip4844Disabled else Ok tt
  else if ty =? EIP7702_TX_TYPE_ID then if negb (eip7702 self) then Err Eip7702Disabled else Ok tt
  else if negb (Z.testbit (other_tx_types self) ty) then Err TxTypeNotSupported
  else Ok tt.

Definition check_size self transaction : result unit InvalidPoolTransactionError :=
  if pooled_is_eip4844 transaction then
    if max_tx_input_bytes self <? input_len transaction
    then Err (OversizedData (input_len transaction) (max_tx_input_bytes self)) else Ok tt
  else
    if max_tx_input_bytes self <? encoded_length transaction
    then Err (OversizedData (encoded_length transaction) (max_tx_input_bytes self)) else Ok tt.

Definition check_gas_limit self transaction : result unit InvalidPoolTransactionError :=
  let transaction_gas_limit := s_gas_limit (signed transaction) in
  if block_gas_limit self <? transaction_gas_limit
  then Err (ExceedsGasLimit transaction_gas_limit (block_gas_limit self))
  else
    match max_tx_gas_limit self with
    | Some max_tx_gas_limit =>
        if max_tx_gas_limit <? transaction_gas_limit
        then Err (MaxTxGasLimitExceeded transaction_gas_limit max_tx_gas_limit) else Ok tt
    | None => Ok tt
    end.

(** The fee cap for local transactions. *)
Definition check_fee_cap self transaction : result unit InvalidPoolTransactionError :=
  match tx_fee_cap self with
  | None => Ok tt
  | Some tx_fee_cap_wei =>
      if tx_fee_cap_wei =? 0 then Ok tt
      else
        let max_tx_fee_wei :=
          saturating_mul_u128 (s_max_fee_per_gas (signed transaction)) (s_gas_limit (signed transaction)) in
        if tx_fee_cap_wei <? max_tx_fee_wei
        then Err (ExceedsFeeCap max_tx_fee_wei tx_fee_cap_wei) else Ok tt
  end.

(** The checks of EIP-7702 and of EIP-4844 transactions. *)
Definition check_eip7702 self transaction : result unit InvalidPoolTransactionError :=
  if s_ty (signed transaction) =? EIP7702_TX_TYPE_ID then
    if negb (prague (fork_tracker self)) then Err (Consensus TxTypeNotSupported)
    else
      match s_authorization_list (signed transaction) with
      | None | Some [] => Err (Eip7702 MissingEip7702AuthorizationList)
      | Some _ => Ok tt
      end
  else Ok tt.

Definition blob_count transaction : Z :=
  match s_blob_versioned_hashes (signed transaction) with
  | Some hashes => Z.of_nat (length hashes)
  | None => 0
  end.

Definition check_blobs self transaction : result unit InvalidPoolTransactionError :=
  if pooled_is_eip4844 transaction then
    if negb (cancun (fork_tracker self)) then Err (Consensus TxTypeNotSupported)
    else if blob_count transaction =? 0 then Err (Eip4844 NoEip4844Blobs)
    else if max_blob_count (fork_tracker self) <? blob_count transaction
    then Err (Eip4844 (TooManyEip4844Blobs (blob_count transaction) (max_blob_count (fork_tracker self))))
    else Ok tt
  else Ok tt.

(** [return Err(TransactionValidationOutcome::Invalid(transaction, err))] where
    a check fails. *)
Definition or_invalid {A} transaction (r : result unit InvalidPoolTransactionError)
  (k : option (result A TransactionValidationOutcome)) : option (result A TransactionValidationOutcome) :=
  match r with
  | Err err => Some (Err (OutcomeInvalid transaction err))
  | Ok _ => k
  end.

Definition ensure_not (bad : bool) (err : InvalidPoolTransactionError)
  : result unit InvalidPoolTransactionError := if bad then Err err else Ok tt.

Definition validate_one_no_state self (origin : TransactionOrigin) transaction
  : option (result EthPooledTransaction TransactionValidationOutcome) :=
  let tx := signed transaction in
  or_invalid transaction
    (match check_tx_type self transaction with Err e => Err (Consensus e) | Ok _ => Ok tt end) (
  or_invalid transaction (ensure_not (s_nonce tx =? u64_modulus - 1) Eip2681) (
  or_invalid transaction (check_size self transaction) (
  or_invalid transaction
    (if shanghai (fork_tracker self)
     then ensure_max_init_code_size transaction MAX_INIT_CODE_BYTE_SIZE else Ok tt) (
  or_invalid transaction (check_gas_limit self transaction) (
  or_invalid transaction
    (ensure_not (opt_ltb (Some (s_max_fee_per_gas tx)) (s_max_priority_fee_per_gas tx))
       (Consensus TipAboveFeeCap)) (
  let is_local := config_is_local (local_transactions_config self) origin (s_signer tx) in
  or_invalid transaction (if is_local then check_fee_cap self transaction else Ok tt) (
  if (negb is_local && s_is_dynamic_fee tx &&
      opt_ltb (s_max_priority_fee_per_gas tx) (minimum_priority_fee self))%bool
  then
    (minimum_priority_fee ← minimum_priority_fee self;
     Some (Err (OutcomeInvalid transaction (PriorityFeeBelowMinimum minimum_priority_fee))))
  else
  or_invalid transaction
    (match s_chain_id tx with
     | Some id => ensure_not (negb (id =? chain_id self)) (Consensus ChainIdMismatch)
     | None => Ok tt
     end) (
  or_invalid transaction (check_eip7702 self transaction) (
  or_invalid transaction (ensure_intrinsic_gas transaction (fork_tracker self)) (
  or_invalid transaction (check_blobs self transaction) (
  or_invalid transaction
    (ensure_not (osaka (fork_tracker self) && (MAX_TX_GAS_LIMIT_OSAKA <? s_gas_limit tx))%bool
       (Consensus GasLimitTooHigh)) (
  Some (Ok transaction))))))))))))).

(** [Err(outcome)] is the outer error, [Ok(Err(err))] the inner one. *)
Definition validate_sender_bytecode self transaction (sender : Account) (state : StateProvider)
  : result (result unit InvalidPoolTransactionError) TransactionValidationOutcome :=
  match acc_bytecode_hash sender with
  | Some code_hash =>
      let is_eip7702 :=
        if prague (fork_tracker self) then
          match bytecode_by_hash state code_hash with
          | Ok bytecode => Ok (bytecode_is_eip7702 (default bytecode_default bytecode))
          | Err err => Err (OutcomeError (s_hash (signed transaction)) err)
          end
        else Ok false in
      match is_eip7702 with
      | Err outcome => Err outcome
      | Ok is_eip7702 =>
          if negb is_eip7702 then Ok (Err (Consensus SignerAccountHasBytecode)) else Ok (Ok tt)
      end
  | None => Ok (Ok tt)
  end.

Definition validate_sender_nonce self transaction (sender : Account)
  : result unit InvalidPoolTransactionError :=
  let tx_nonce := s_nonce (signed transaction) in
  if tx_nonce <? acc_nonce sender
  then Err (Consensus (NonceNotConsistent tx_nonce (acc_nonce sender))) else Ok tt.

Definition validate_sender_balance self transaction (sender : Account)
  : result unit InvalidPoolTransactionError :=
  let cost := pooled_cost transaction in
  if (negb (disable_balance_check self) && (acc_balance sender <? cost))%bool
  then Err (Consensus (InsufficientFunds (acc_balance sender) cost)) else Ok tt.

(** The transaction is passed by reference and loses its blob. *)
Definition validate_eip4844 self transaction
  : EthPooledTransaction *
    result (option BlobTransactionSidecarVariant) InvalidPoolTransactionError :=
  if pooled_is_eip4844 transaction then
    let '(transaction, blob) := take_blob transaction in
    (transaction,
     match blob with
     | SidecarNone => Err (Consensus TxTypeNotSupported)
     | SidecarMissing =>
         match blob_store_contains self (s_hash (signed transaction)) with
         | Ok true => Ok None
         | _ => Err (Eip4844 MissingEip4844BlobSidecar)
         end
     | SidecarPresent sidecar =>
         if (osaka (fork_tracker self) && sidecar_is_eip4844 sidecar)%bool
         then Err (Eip4844 UnexpectedEip4844SidecarAfterOsaka)
         else if (negb (osaka (fork_tracker self)) && sidecar_is_eip7594 sidecar)%bool
         then Err (Eip4844 UnexpectedEip7594SidecarBeforeOsaka)
         else
           match validate_blob self transaction sidecar with
           | Err err => Err (Eip4844 (InvalidEip4844Blob err))
           | Ok _ => Ok (Some sidecar)
           end
     end)
  else (transaction, Ok None).

Definition recover_authorities transaction : option (list Z) :=
  match s_authorization_list (signed transaction) with
  | Some auths => Some (omap recover_authority auths)
  | None => None
  end.

Definition origin_propagates self (origin : TransactionOrigin) : bool :=
  match origin with
  | External => true
  | Local => propagate_local_transactions (local_transactions_config self)
  | Private => false
  end.

Definition validate_one_against_state self (origin : TransactionOrigin) transaction
  (state : StateProvider) : TransactionValidationOutcome :=
  match basic_account state (s_signer (signed transaction)) with
  | Err err => OutcomeError (s_hash (signed transaction)) err
  | Ok account =>
      let account := default account_default account in
      match validate_sender_bytecode self transaction account state with
      | Err outcome => outcome
      | Ok (Err err) => OutcomeInvalid transaction err
      | Ok (Ok _) =>
          match validate_sender_nonce self transaction account with
          | Err err => OutcomeInvalid transaction err
          | Ok _ =>
              match validate_sender_balance self transaction account with
              | Err err => OutcomeInvalid transaction err
              | Ok _ =>
                  match validate_eip4844 self transaction with
                  | (transaction, Err err) => OutcomeInvalid transaction err
                  | (transaction, Ok maybe_blob_sidecar) =>
                      OutcomeValid (acc_balance account) (acc_nonce account)
                        (acc_bytecode_hash account) (valid_new transaction maybe_blob_sidecar)
                        (origin_propagates self origin) (recover_authorities transaction)
                  end
              end
          end
      end
  end.

(** [maybe_state] is the cached provider. *)
Definition validate_one_with_provider self (origin : TransactionOrigin) transaction
  (maybe_state : option StateProvider) : option (TransactionValidationOutcome * option StateProvider) :=
  r ← validate_one_no_state self origin transaction;
  match r with
  | Err invalid_outcome => Some (invalid_outcome, maybe_state)
  | Ok transaction =>
      match maybe_state with
      | Some state => Some (validate_one_against_state self origin transaction state, maybe_state)
      | None =>
          match latest (client self) with
          | Ok new_state =>
              Some (validate_one_against_state self origin transaction new_state, Some new_state)
          | Err err => Some (OutcomeError (s_hash (signed transaction)) err, None)
          end
      end
  end.

Definition validate_one self (origin : TransactionOrigin) transaction
  : option TransactionValidationOutcome :=
  fst <$> validate_one_with_provider self origin transaction None.

(** The provider is shared by the transactions of a batch. *)
Fixpoint validate_batch_from self (transactions : list (TransactionOrigin * EthPooledTransaction))
  (provider : option StateProvider) : option (list TransactionValidationOutcome) :=
  match transactions with
  | [] => Some []
  | (origin, tx) :: transactions =>
      r ← validate_one_with_provider self origin tx provider;
      rest ← validate_batch_from self transactions r.2;
      Some (r.1 :: rest)
  end.

Definition validate_batch self (transactions : list (TransactionOrigin * EthPooledTransaction))
  : option (list TransactionValidationOutcome) := validate_batch_from self transactions None.

Definition validate_batch_with_origin self (origin : TransactionOrigin)
  (transactions : list EthPooledTransaction) : option (list TransactionValidationOutcome) :=
  validate_batch_from self (pair origin <$> transactions) None.

Definition with_forks self (forks : ForkTracker) (gas_limit : Z) : EthTransactionValidator :=
  mkValidator (client self) (blob_store_contains self) forks (eip2718 self) (eip1559 self)
    (eip4844 self) (eip7702 self) gas_limit (tx_fee_cap self) (minimum_priority_fee self)
    (validate_blob self) (local_transactions_config self) (max_tx_input_bytes self)
    (max_tx_gas_limit self) (disable_balance_check self) (other_tx_types self).

(** The timestamp and the gas limit of the new head. *)
Definition on_new_head_block self (timestamp gas_limit : Z) : EthTransactionValidator :=
  let spec := client self in
  let forks := fork_tracker self in
  with_forks self
    {| shanghai := if is_shanghai_active_at_timestamp spec timestamp then true else shanghai forks;
       cancun := if is_cancun_active_at_timestamp spec timestamp then true else cancun forks;
       prague := if is_prague_active_at_timestamp spec timestamp then true else prague forks;
       osaka := if is_osaka_active_at_timestamp spec timestamp then true else osaka forks;
       max_blob_count :=
         match blob_params_at_timestamp spec timestamp with
         | Some max_blobs_per_tx => max_blobs_per_tx
         | None => max_blob_count forks
         end |}
    gas_limit.

(** ** The builder *)

Record EthTransactionValidatorBuilder := mkBuilder {
  b_client : Client;
  b_shanghai : bool;
  b_cancun : bool;
  b_prague : bool;
  b_osaka : bool;
  b_max_blob_count : Z;
  b_eip2718 : bool;
  b_eip1559 : bool;
  b_eip4844 : bool;
  b_eip7702 : bool;
  b_block_gas_limit : Z;
  b_tx_fee_cap : option Z;
  b_minimum_priority_fee : option Z;
  b_local_transactions_config : LocalTransactionConfig;
  b_max_tx_input_bytes : Z;
  b_max_tx_gas_limit : option Z;
  b_disable_balance_check : bool;
  b_other_tx_types : Z;
}.

Definition builder_new (c : Client) : EthTransactionValidatorBuilder :=
  {| b_client := c;
     b_block_gas_limit := ETHEREUM_BLOCK_GAS_LIMIT_30M;
     b_minimum_priority_fee := None;
     b_local_transactions_config := local_config_default;
     b_max_tx_input_bytes := DEFAULT_MAX_TX_INPUT_BYTES;
     b_tx_fee_cap := Some (10 ^ 18);
     b_max_tx_gas_limit := None;
     b_eip2718 := true; b_eip1559 := true; b_eip4844 := true; b_eip7702 := true;
     b_shanghai := true; b_cancun := true; b_prague := true; b_osaka := false;
     b_max_blob_count := prague_max_blobs_per_tx;
     b_disable_balance_check := false;
     b_other_tx_types := 0 |}.

Implicit Types b : EthTransactionValidatorBuilder.

(** The fork flags and the blob count. *)
Definition set_forks b (sh ca pr os : bool) (blobs : Z) : EthTransactionValidatorBuilder :=
  mkBuilder (b_client b) sh ca pr os blobs (b_eip2718 b) (b_eip1559 b) (b_eip4844 b) (b_eip7702 b)
    (b_block_gas_limit b) (b_tx_fee_cap b) (b_minimum_priority_fee b)
    (b_local_transactions_config b) (b_max_tx_input_bytes b) (b_max_tx_gas_limit b)
    (b_disable_balance_check b) (b_other_tx_types b).

Definition set_shanghai b (f : bool) :=
  set_forks b f (b_cancun b) (b_prague b) (b_osaka b) (b_max_blob_count b).
Definition set_cancun b (f : bool) :=
  set_forks b (b_shanghai b) f (b_prague b) (b_osaka b) (b_max_blob_count b).
Definition set_prague b (f : bool) :=
  set_forks b (b_shanghai b) (b_cancun b) f (b_osaka b) (b_max_blob_count b).
Definition set_osaka b (f : bool) :=
  set_forks b (b_shanghai b) (b_cancun b) (b_prague b) f (b_max_blob_count b).

Definition with_head_timestamp b (timestamp : Z) : EthTransactionValidatorBuilder :=
  let spec := b_client b in
  set_forks b (is_shanghai_active_at_timestamp spec timestamp)
    (is_cancun_active_at_timestamp spec timestamp) (is_prague_active_at_timestamp spec timestamp)
    (is_osaka_active_at_timestamp spec timestamp)
    (default cancun_max_blobs_per_tx (blob_params_at_timestamp spec timestamp)).

(** The accepted transaction types. *)
Definition set_types b (t2718 t1559 t4844 : bool) (other : Z) : EthTransactionValidatorBuilder :=
  mkBuilder (b_client b) (b_shanghai b) (b_cancun b) (b_prague b) (b_osaka b) (b_max_blob_count b)
    t2718 t1559 t4844 (b_eip7702 b) (b_block_gas_limit b) (b_tx_fee_cap b)
    (b_minimum_priority_fee b) (b_local_transactions_config b) (b_max_tx_input_bytes b)
    (b_max_tx_gas_limit b) (b_disable_balance_check b) other.

Definition set_eip2718 b (f : bool) := set_types b f (b_eip1559 b) (b_eip4844 b) (b_other_tx_types b).
Definition set_eip1559 b (f : bool) := set_types b (b_eip2718 b) f (b_eip4844 b) (b_other_tx_types b).
Definition set_eip4844 b (f : bool) := set_types b (b_eip2718 b) (b_eip1559 b) f (b_other_tx_types b).
Definition with_custom_tx_type b (tx_type : Z) :=
  set_types b (b_eip2718 b) (b_eip1559 b) (b_eip4844 b)
    (Z.lor (b_other_tx_types b) (Z.shiftl 1 tx_type)).

(** The local settings. *)
Definition set_limits b (gas : Z) (cap prio : option Z) (conf : LocalTransactionConfig) (bytes : Z)
  (max_gas : option Z) (no_balance : bool) : EthTransactionValidatorBuilder :=
  mkBuilder (b_client b) (b_shanghai b) (b_cancun b) (b_prague b) (b_osaka b) (b_max_blob_count b)
    (b_eip2718 b) (b_eip1559 b) (b_eip4844 b) (b_eip7702 b) gas cap prio conf bytes max_gas
    no_balance (b_other_tx_types b).

Definition with_local_transactions_config b (conf : LocalTransactionConfig) :=
  set_limits b (b_block_gas_limit b) (b_tx_fee_cap b) (b_minimum_priority_fee b) conf
    (b_max_tx_input_bytes b) (b_max_tx_gas_limit b) (b_disable_balance_check b).
Definition with_minimum_priority_fee b (prio : option Z) :=
  set_limits b (b_block_gas_limit b) (b_tx_fee_cap b) prio (b_local_transactions_config b)
    (b_max_tx_input_bytes b) (b_max_tx_gas_limit b) (b_disable_balance_check b).
Definition with_max_tx_input_bytes b (bytes : Z) :=
  set_limits b (b_block_gas_limit b) (b_tx_fee_cap b) (b_minimum_priority_fee b)
    (b_local_transactions_config b) bytes (b_max_tx_gas_limit b) (b_disable_balance_check b).
Definition set_block_gas_limit b (gas : Z) :=
  set_limits b gas (b_tx_fee_cap b) (b_minimum_priority_fee b) (b_local_transactions_config b)
    (b_max_tx_input_bytes b) (b_max_tx_gas_limit b) (b_disable_balance_check b).
Definition set_tx_fee_cap b (cap : Z) :=
  set_limits b (b_block_gas_limit b) (Some cap) (b_minimum_priority_fee b)
    (b_local_transactions_config b) (b_max_tx_input_bytes b) (b_max_tx_gas_limit b)
    (b_disable_balance_check b).
Definition with_max_tx_gas_limit b (max_gas : option Z) :=
  set_limits b (b_block_gas_limit b) (b_tx_fee_cap b) (b_minimum_priority_fee b)
    (b_local_transactions_config b) (b_max_tx_input_bytes b) max_gas (b_disable_balance_check b).
Definition no_balance_check b :=
  set_limits b (b_block_gas_limit b) (b_tx_fee_cap b) (b_minimum_priority_fee b)
    (b_local_transactions_config b) (b_max_tx_input_bytes b) (b_max_tx_gas_limit b) true.

(** The blob store and the KZG settings are given by their effect. *)
Definition build b (contains : Z -> result bool string)
  (kzg : EthPooledTransaction -> BlobTransactionSidecarVariant ->
         result unit BlobTransactionValidationError) : EthTransactionValidator :=
  {| client := b_client b;
     blob_store_contains := contains;
     fork_tracker := mkForkTracker (b_shanghai b) (b_cancun b) (b_prague b) (b_osaka b)
                       (b_max_blob_count b);
     eip2718 := b_eip2718 b; eip1559 := b_eip1559 b; eip4844 := b_eip4844 b; eip7702 := b_eip7702 b;
     block_gas_limit := b_block_gas_limit b;
     tx_fee_cap := b_tx_fee_cap b;
     minimum_priority_fee := b_minimum_priority_fee b;
     validate_blob := kzg;
     local_transactions_config := b_local_transactions_config b;
     max_tx_input_bytes := b_max_tx_input_bytes b;
     max_tx_gas_limit := b_max_tx_gas_limit b;
     disable_balance_check := b_disable_balance_check b;
     other_tx_types := b_other_tx_types b |}.

End validator.

End Validator.
