(* ===== verification/EthValidatorProps.v ===== *)
(** * Properties of the validator *)

From S2P Require Import Prelude Ordered TxErrors TxIdentifier TxState TxTypes EthTransaction EthValidator.
Import TxErrors TxTypes EthTx Validator.

Module ValidatorProps.

Section props.
Context `{AlloyConstants} `{AlloyTypes} `{ValidatorConstants}.
Implicit Types (self : EthTransactionValidator) (tx : EthPooledTransaction).

(** ** What a transaction must satisfy *)

Definition tx_types : list Z :=
  [LEGACY_TX_TYPE_ID; EIP2930_TX_TYPE_ID; EIP1559_TX_TYPE_ID; EIP4844_TX_TYPE_ID; EIP7702_TX_TYPE_ID].

Definition accepted_type self (ty : Z) : Prop :=
  ty = LEGACY_TX_TYPE_ID \/
  (ty = EIP2930_TX_TYPE_ID /\ eip2718 self = true) \/
  (ty = EIP1559_TX_TYPE_ID /\ eip1559 self = true) \/
  (ty = EIP4844_TX_TYPE_ID /\ eip4844 self = true) \/
  (ty = EIP7702_TX_TYPE_ID /\ eip7702 self = true) \/
  (ty ∉ tx_types /\ Z.testbit (other_tx_types self) ty = true).

(** The gas a transaction needs to start. *)
Definition intrinsic_gas self tx : InitialAndFloorGas :=
  let forks := fork_tracker self in
  calculate_initial_tx_gas (if prague forks then PRAGUE else if shanghai forks then SHANGHAI else MERGE)
    (s_input (signed tx)) (s_is_create (signed tx))
    (Z.of_nat (length (default [] (s_access_list (signed tx)))))
    (foldr (fun i acc => Z.of_nat (length i.2) + acc) 0 (default [] (s_access_list (signed tx))))
    (Z.of_nat (length (default [] (s_authorization_list (signed tx))))).

Definition is_local_tx self (origin : TransactionOrigin) tx : bool :=
  config_is_local (local_transactions_config self) origin (s_signer (signed tx)).

(** The conditions that do not depend on the state. *)
Record stateless_ok self (origin : TransactionOrigin) tx : Prop := {
  so_type : accepted_type self (s_ty (signed tx));
  so_nonce : s_nonce (signed tx) <> u64_modulus - 1;
  so_size : (if pooled_is_eip4844 tx then input_len tx else encoded_length tx) <= max_tx_input_bytes self;
  so_init : shanghai (fork_tracker self) = true -> s_is_create (signed tx) = true ->
    input_len tx <= MAX_INIT_CODE_BYTE_SIZE;
  so_gas : s_gas_limit (signed tx) <= block_gas_limit self;
  so_max_gas g : max_tx_gas_limit self = Some g -> s_gas_limit (signed tx) <= g;
  so_tip f : s_max_priority_fee_per_gas (signed tx) = Some f -> f <= s_max_fee_per_gas (signed tx);
  so_cap c : is_local_tx self origin tx = true -> tx_fee_cap self = Some c -> c <> 0 ->
    saturating_mul_u128 (s_max_fee_per_gas (signed tx)) (s_gas_limit (signed tx)) <= c;
  so_prio m : is_local_tx self origin tx = false -> s_is_dynamic_fee (signed tx) = true ->
    minimum_priority_fee self = Some m ->
    exists f, s_max_priority_fee_per_gas (signed tx) = Some f /\ m <= f;
  so_chain i : s_chain_id (signed tx) = Some i -> i = chain_id self;
  so_auth : s_ty (signed tx) = EIP7702_TX_TYPE_ID ->
    prague (fork_tracker self) = true /\ default [] (s_authorization_list (signed tx)) <> [];
  so_intrinsic : initial_gas (intrinsic_gas self tx) <= s_gas_limit (signed tx) /\
    floor_gas (intrinsic_gas self tx) <= s_gas_limit (signed tx);
  so_blobs : pooled_is_eip4844 tx = true ->
    cancun (fork_tracker self) = true /\ 0 < blob_count tx <= max_blob_count (fork_tracker self);
  so_osaka : osaka (fork_tracker self) = true -> s_gas_limit (signed tx) <= MAX_TX_GAS_LIMIT_OSAKA;
}.

(** The sidecar of a blob transaction is known already, or of the right kind and proved. *)
Definition blobs_ok self tx : Prop :=
  match blob_sidecar tx with
  | SidecarNone => False
  | SidecarMissing => blob_store_contains self (s_hash (signed tx)) = Ok true
  | SidecarPresent s =>
      (if osaka (fork_tracker self) then sidecar_is_eip4844 s else sidecar_is_eip7594 s) = false /\
      exists u, validate_blob self (take_blob tx).1 s = Ok u
  end.

(** The conditions on the account of the sender. *)
Record stateful_ok self tx (state : StateProvider) (acc : Account) : Prop := {
  st_code h : acc_bytecode_hash acc = Some h -> prague (fork_tracker self) = true /\
    exists c, bytecode_by_hash state h = Ok c /\ bytecode_is_eip7702 (default bytecode_default c) = true;
  st_nonce : acc_nonce acc <= s_nonce (signed tx);
  st_balance : disable_balance_check self = false -> pooled_cost tx <= acc_balance acc;
  st_blobs : pooled_is_eip4844 tx = true -> blobs_ok self tx;
}.

(** ** The checks, one by one *)

Lemma enabled_ok (b : bool) (err : InvalidTransactionError) :
  (exists u, (if negb b then Err err else Ok tt) = Ok u) <-> b = true.
Proof. destruct b; simpl; split; try done; [eauto|]. by intros [u Hu]. Qed.

Lemma check_tx_type_ok self tx :
  NoDup tx_types ->
  (exists u, check_tx_type self tx = Ok u) <-> accepted_type self (s_ty (signed tx)).
Proof.
  intros Hnd. unfold tx_types in Hnd. rewrite !NoDup_cons, !not_elem_of_cons in Hnd.
  destruct Hnd as ((N1 & N2 & N3 & N4 & _) & (N5 & N6 & N7 & _) & (N8 & N9 & _) & (N10 & _) & _).
  unfold check_tx_type, accepted_type, tx_types. rewrite !not_elem_of_cons.
  set (ty := s_ty (signed tx)).
  destruct (Z.eqb_spec ty LEGACY_TX_TYPE_ID) as [E|E0]; [split; eauto|].
  destruct (Z.eqb_spec ty EIP2930_TX_TYPE_ID) as [E|E1]; [rewrite enabled_ok, E; clear - N5 N6 N7 N1; naive_solver|].
  destruct (Z.eqb_spec ty EIP1559_TX_TYPE_ID) as [E|E2]; [rewrite enabled_ok, E; clear - N2 N5 N8 N9; naive_solver|].
  destruct (Z.eqb_spec ty EIP4844_TX_TYPE_ID) as [E|E3]; [rewrite enabled_ok, E; clear - N3 N6 N8 N10; naive_solver|].
  destruct (Z.eqb_spec ty EIP7702_TX_TYPE_ID) as [E|E4]; [rewrite enabled_ok, E; clear - N4 N7 N9 N10; naive_solver|].
  rewrite enabled_ok. pose proof (not_elem_of_nil ty) as E5. naive_solver.
Qed.

(** The result of a check holds. *)
Abbreviation passes r := (exists u : unit, r = Ok u).

Lemma passes_if (b : bool) (err : InvalidPoolTransactionError) :
  passes (if b then Err err else Ok tt) <-> b = false.
Proof. destruct b; split; try done; [by intros [u Hu]|eauto]. Qed.

Lemma check_size_ok self tx :
  passes (check_size self tx) <->
  (if pooled_is_eip4844 tx then input_len tx else encoded_length tx) <= max_tx_input_bytes self.
Proof. unfold check_size. destruct (pooled_is_eip4844 tx); by rewrite passes_if, Z.ltb_ge. Qed.

Lemma check_init_ok self tx :
  passes (if shanghai (fork_tracker self)
          then ensure_max_init_code_size tx MAX_INIT_CODE_BYTE_SIZE else Ok tt) <->
  (shanghai (fork_tracker self) = true -> s_is_create (signed tx) = true ->
   input_len tx <= MAX_INIT_CODE_BYTE_SIZE).
Proof.
  destruct (shanghai (fork_tracker self)); [|split; [done|eauto]].
  unfold ensure_max_init_code_size. rewrite passes_if, andb_false_iff, Z.ltb_ge.
  destruct (s_is_create (signed tx)); naive_solver.
Qed.

Lemma check_gas_limit_ok self tx :
  passes (check_gas_limit self tx) <->
  s_gas_limit (signed tx) <= block_gas_limit self /\
  forall g, max_tx_gas_limit self = Some g -> s_gas_limit (signed tx) <= g.
Proof.
  unfold check_gas_limit. destruct (_ <? _) eqn:E; bools.
  - split; [by intros [u Hu]|lia].
  - destruct (max_tx_gas_limit self) as [g|].
    + rewrite passes_if, Z.ltb_ge. naive_solver.
    + naive_solver.
Qed.

Lemma check_tip_ok tx :
  passes (ensure_not (opt_ltb (Some (s_max_fee_per_gas (signed tx)))
            (s_max_priority_fee_per_gas (signed tx))) (Consensus TipAboveFeeCap)) <->
  forall f, s_max_priority_fee_per_gas (signed tx) = Some f -> f <= s_max_fee_per_gas (signed tx).
Proof.
  unfold ensure_not. rewrite passes_if.
  destruct (s_max_priority_fee_per_gas (signed tx)) as [f|]; simpl; [|naive_solver].
  rewrite Z.ltb_ge. naive_solver.
Qed.

Lemma check_fee_cap_ok self tx (is_local : bool) :
  passes (if is_local then check_fee_cap self tx else Ok tt) <->
  (forall c, is_local = true -> tx_fee_cap self = Some c -> c <> 0 ->
   saturating_mul_u128 (s_max_fee_per_gas (signed tx)) (s_gas_limit (signed tx)) <= c).
Proof.
  destruct is_local; [|naive_solver]. unfold check_fee_cap.
  destruct (tx_fee_cap self) as [c|]; [|naive_solver].
  destruct (Z.eqb_spec c 0); [naive_solver|]. rewrite passes_if, Z.ltb_ge. naive_solver.
Qed.

Lemma check_prio_ok self tx (is_local : bool) :
  (negb is_local && s_is_dynamic_fee (signed tx) &&
   opt_ltb (s_max_priority_fee_per_gas (signed tx)) (minimum_priority_fee self))%bool = false <->
  (forall m, is_local = false -> s_is_dynamic_fee (signed tx) = true ->
     minimum_priority_fee self = Some m ->
     exists f, s_max_priority_fee_per_gas (signed tx) = Some f /\ m <= f).
Proof.
  destruct is_local; simpl; [naive_solver|].
  destruct (s_is_dynamic_fee (signed tx)); simpl; [|naive_solver].
  destruct (minimum_priority_fee self) as [m|], (s_max_priority_fee_per_gas (signed tx)) as [f|]; simpl.
  - rewrite Z.ltb_ge. naive_solver.
  - split; [done|]. intros Hm. by destruct (Hm m eq_refl eq_refl eq_refl) as (? & ? & _).
  - naive_solver.
  - naive_solver.
Qed.

Lemma check_chain_ok self tx :
  passes (match s_chain_id (signed tx) with
          | Some id => ensure_not (negb (id =? chain_id self)) (Consensus ChainIdMismatch)
          | None => Ok tt
          end) <->
  forall i, s_chain_id (signed tx) = Some i -> i = chain_id self.
Proof.
  destruct (s_chain_id (signed tx)) as [i|]; [|naive_solver].
  unfold ensure_not. rewrite passes_if, negb_false_iff, Z.eqb_eq. naive_solver.
Qed.

Lemma check_eip7702_ok self tx :
  passes (check_eip7702 self tx) <->
  (s_ty (signed tx) = EIP7702_TX_TYPE_ID ->
   prague (fork_tracker self) = true /\ default [] (s_authorization_list (signed tx)) <> []).
Proof.
  unfold check_eip7702. destruct (Z.eqb_spec (s_ty (signed tx)) EIP7702_TX_TYPE_ID); [|naive_solver].
  destruct (prague (fork_tracker self)); simpl.
  - destruct (s_authorization_list (signed tx)) as [[|a l]|]; simpl; naive_solver.
  - split; [by intros [u Hu]|naive_solver].
Qed.

Lemma intrinsic_ok self tx :
  passes (ensure_intrinsic_gas tx (fork_tracker self)) <->
  initial_gas (intrinsic_gas self tx) <= s_gas_limit (signed tx) /\
  floor_gas (intrinsic_gas self tx) <= s_gas_limit (signed tx).
Proof.
  unfold ensure_intrinsic_gas. fold (intrinsic_gas self tx).
  by rewrite passes_if, orb_false_iff, !Z.ltb_ge.
Qed.

Lemma blob_count_nonneg tx : 0 <= blob_count tx.
Proof. unfold blob_count. destruct (s_blob_versioned_hashes (signed tx)); lia. Qed.

Lemma check_blobs_ok self tx :
  passes (check_blobs self tx) <->
  (pooled_is_eip4844 tx = true ->
   cancun (fork_tracker self) = true /\ 0 < blob_count tx <= max_blob_count (fork_tracker self)).
Proof.
  unfold check_blobs. destruct (pooled_is_eip4844 tx); [|naive_solver].
  destruct (cancun (fork_tracker self)); simpl; [|split; [by intros [u Hu]|naive_solver]].
  pose proof (blob_count_nonneg tx). destruct (Z.eqb_spec (blob_count tx) 0) as [E|E].
  - split; [by intros [u Hu]|]. rewrite E. naive_solver lia.
  - rewrite passes_if, Z.ltb_ge. naive_solver lia.
Qed.

Lemma check_osaka_ok self tx :
  passes (ensure_not (osaka (fork_tracker self) && (MAX_TX_GAS_LIMIT_OSAKA <? s_gas_limit (signed tx)))%bool
            (Consensus GasLimitTooHigh)) <->
  (osaka (fork_tracker self) = true -> s_gas_limit (signed tx) <= MAX_TX_GAS_LIMIT_OSAKA).
Proof.
  unfold ensure_not. rewrite passes_if, andb_false_iff, Z.ltb_ge.
  destruct (osaka (fork_tracker self)); naive_solver.
Qed.

(** ** The stateless checks together *)

Lemma or_invalid_ok {A} tx r (k : option (result A TransactionValidationOutcome)) a :
  or_invalid tx r k = Some (Ok a) <-> passes r /\ k = Some (Ok a).
Proof. destruct r as [u|e]; simpl; [naive_solver|]. split; [done|]. by intros [[u Hu] _]. Qed.

Lemma no_state_ok self origin tx :
  NoDup tx_types ->
  validate_one_no_state self origin tx = Some (Ok tx) <-> stateless_ok self origin tx.
Proof.
  intros Hnd. unfold validate_one_no_state. rewrite !or_invalid_ok.
  rewrite check_size_ok, check_init_ok, check_gas_limit_ok, check_tip_ok, check_fee_cap_ok.
  fold (is_local_tx self origin tx).
  assert (Htype : passes (match check_tx_type self tx with Err e => Err (Consensus e) | Ok _ => Ok tt end) <->
                  accepted_type self (s_ty (signed tx))).
  { rewrite <- check_tx_type_ok by done. destruct (check_tx_type self tx); naive_solver. }
  rewrite Htype. clear Htype Hnd.
  assert (Hnonce : passes (ensure_not (s_nonce (signed tx) =? u64_modulus - 1) Eip2681) <->
                   s_nonce (signed tx) <> u64_modulus - 1).
  { unfold ensure_not. by rewrite passes_if, Z.eqb_neq. }
  rewrite Hnonce. clear Hnonce.
  pose proof (check_prio_ok self tx (is_local_tx self origin tx)) as Hprio.
  destruct (_ && _ && _)%bool.
  - split.
    + intros (_ & _ & _ & _ & _ & _ & _ & Hn). by destruct (minimum_priority_fee self).
    + intros []. exfalso. assert (true = false); [|done]. apply Hprio. auto.
  - destruct Hprio as [Hprio _]. specialize (Hprio eq_refl).
    rewrite !or_invalid_ok, check_chain_ok, check_eip7702_ok, intrinsic_ok, check_blobs_ok, check_osaka_ok.
    split.
    + intros (? & ? & ? & ? & [? ?] & ? & ? & ? & ? & ? & ? & ? & _). by split.
    + intros [? ? ? ? ? ? ? ? ? ? ? Hi ? ?]. split_and!; first [assumption|reflexivity|apply Hi].
Qed.

Lemma or_invalid_settles tx r k :
  (k = Some (Ok tx) \/ exists err, k = Some (Err (OutcomeInvalid tx err))) ->
  or_invalid tx r k = Some (Ok tx) \/ exists err, or_invalid tx r k = Some (Err (OutcomeInvalid tx err)).
Proof. intros Hk. destruct r; simpl; [done|]. right. eauto. Qed.

(** The stateless checks do not panic, and a transaction they reject comes back
    unchanged. *)
Lemma no_state_settles self origin tx :
  validate_one_no_state self origin tx = Some (Ok tx) \/
  exists err, validate_one_no_state self origin tx = Some (Err (OutcomeInvalid tx err)).
Proof.
  unfold validate_one_no_state. do 7 apply or_invalid_settles. destruct (_ && _ && _)%bool eqn:E.
  - right. destruct (minimum_priority_fee self) as [m|]; [simpl; eauto|]. bools.
    by destruct (s_max_priority_fee_per_gas (signed tx)).
  - do 5 apply or_invalid_settles. by left.
Qed.

(** ** The checks against the state *)

Lemma bytecode_ok self tx acc state :
  (exists u, validate_sender_bytecode self tx acc state = Ok (Ok u)) <->
  forall h, acc_bytecode_hash acc = Some h -> prague (fork_tracker self) = true /\
    exists c, bytecode_by_hash state h = Ok c /\ bytecode_is_eip7702 (default bytecode_default c) = true.
Proof.
  unfold validate_sender_bytecode. destruct (acc_bytecode_hash acc) as [h|]; [|naive_solver].
  destruct (prague (fork_tracker self)); simpl.
  - destruct (bytecode_by_hash state h) as [c|e] eqn:Ec; simpl.
    + destruct (bytecode_is_eip7702 (default bytecode_default c)) eqn:Ed; simpl.
      * split; [|eauto]. intros _ h' [= <-]. eauto.
      * split; [by intros [u Hu]|]. intros Hh. destruct (Hh h eq_refl) as (_ & c' & Hc & Hd). congruence.
    + split; [by intros [u Hu]|]. intros Hh. destruct (Hh h eq_refl) as (_ & c' & Hc & _). congruence.
  - split; [by intros [u Hu]|]. intros Hh. by destruct (Hh h eq_refl).
Qed.

Lemma take_blob_keeps tx :
  signed (take_blob tx).1 = signed tx /\ pooled_cost (take_blob tx).1 = pooled_cost tx.
Proof. unfold take_blob. by destruct (pooled_is_eip4844 tx). Qed.

Lemma validate_eip4844_keeps self tx :
  signed (validate_eip4844 self tx).1 = signed tx /\
  pooled_cost (validate_eip4844 self tx).1 = pooled_cost tx.
Proof.
  pose proof (take_blob_keeps tx) as Ht. unfold validate_eip4844.
  destruct (pooled_is_eip4844 tx); [|done]. by destruct (take_blob tx).
Qed.

Lemma validate_eip4844_ok self tx :
  (exists r, (validate_eip4844 self tx).2 = Ok r) <-> (pooled_is_eip4844 tx = true -> blobs_ok self tx).
Proof.
  unfold validate_eip4844, blobs_ok, take_blob. destruct (pooled_is_eip4844 tx) eqn:E; [|naive_solver].
  simpl. destruct (blob_sidecar tx) as [| |s].
  - split; [by intros [r Hr]|]. intros Hf. by destruct Hf.
  - destruct (blob_store_contains self _) as [[|]|e]; naive_solver.
  - destruct (osaka (fork_tracker self)); simpl.
    + destruct (sidecar_is_eip4844 s); simpl; [naive_solver|].
      destruct (validate_blob self _ s); naive_solver.
    + destruct (sidecar_is_eip7594 s); simpl; [naive_solver|].
      destruct (validate_blob self _ s); naive_solver.
Qed.

(** What a valid outcome reports. *)
Definition reports self (origin : TransactionOrigin) tx (acc : Account)
  (o : TransactionValidationOutcome) : Prop :=
  forall balance n h vt propagate authorities,
    o = OutcomeValid balance n h vt propagate authorities ->
    balance = acc_balance acc /\ n = acc_nonce acc /\ h = acc_bytecode_hash acc /\
    pool_transaction (valid_transaction vt) = pool_transaction tx /\
    propagate = origin_propagates self origin /\ authorities = recover_authorities tx /\
    match vt with
    | ValidTx _ => pooled_is_eip4844 tx = true ->
        blob_sidecar tx = SidecarMissing /\ blob_store_contains self (s_hash (signed tx)) = Ok true
    | ValidWithSidecar _ s => blob_sidecar tx = SidecarPresent s
    end.

Lemma validate_eip4844_sidecar self tx r :
  (validate_eip4844 self tx).2 = Ok r ->
  match r with
  | None => pooled_is_eip4844 tx = true ->
      blob_sidecar tx = SidecarMissing /\ blob_store_contains self (s_hash (signed tx)) = Ok true
  | Some s => blob_sidecar tx = SidecarPresent s
  end.
Proof.
  unfold validate_eip4844, take_blob. destruct (pooled_is_eip4844 tx) eqn:E; [|by intros [= <-]].
  simpl. destruct (blob_sidecar tx) as [| |s]; [done| |].
  - by destruct (blob_store_contains self _) as [[|]|e]; intros [= <-].
  - repeat case_match; by intros [= <-].
Qed.

Lemma against_state_spec self origin tx state oacc :
  basic_account state (s_signer (signed tx)) = Ok oacc ->
  let acc := default account_default oacc in
  let o := validate_one_against_state self origin tx state in
  outcome_tx_hash o = s_hash (signed tx) /\ (is_valid o = true <-> stateful_ok self tx state acc) /\
  reports self origin tx acc o.
Proof.
  intros Hacc. cbv zeta. unfold validate_one_against_state. rewrite Hacc.
  set (acc := default account_default oacc).
  pose proof (bytecode_ok self tx acc state) as Hcode.
  destruct (validate_sender_bytecode self tx acc state) as [[u|e]|o] eqn:Eb.
  2:{ split_and!; [done| |done]. split; [done|]. intros []. destruct Hcode as [_ Hcode].
      destruct (Hcode ltac:(done)) as [? ?]. congruence. }
  2:{ assert (o = OutcomeError (s_hash (signed tx)) match o with OutcomeError _ e => e | _ => EmptyString end) as ->.
      { unfold validate_sender_bytecode in Eb. destruct (acc_bytecode_hash acc) as [h|]; [|done].
        destruct (prague _); [destruct (bytecode_by_hash state h)|]; simpl in Eb;
          try (by destruct (negb _)); by simplify_eq. }
      split_and!; [done| |done]. split; [done|]. intros []. destruct Hcode as [_ Hcode].
      destruct (Hcode ltac:(done)) as [? ?]. congruence. }
  destruct Hcode as [Hcode _]. specialize (Hcode (ex_intro _ u eq_refl)).
  unfold validate_sender_nonce. destruct (_ <? acc_nonce acc) eqn:En; bools.
  { split_and!; [done| |done]. split; [done|]. intros []. lia. }
  unfold validate_sender_balance. destruct (negb _ && _)%bool eqn:Ebal.
  { split_and!; [done| |done]. bools. split; [done|]. intros [_ _ Hb _]. specialize (Hb ltac:(done)). lia. }
  pose proof (validate_eip4844_keeps self tx) as [Hk1 Hk2].
  pose proof (validate_eip4844_ok self tx) as Hblob.
  pose proof (validate_eip4844_sidecar self tx) as Hsc.
  destruct (validate_eip4844 self tx) as [tx' [r|e]]; simpl in *.
  - specialize (Hsc r eq_refl). assert (Hpt : pool_transaction tx' = pool_transaction tx)
      by (unfold pool_transaction; by rewrite Hk1, Hk2).
    split_and!.
    + destruct r; simpl; by rewrite Hk1.
    + split; [|done]. intros _. split; [done|done| |apply Hblob; eauto].
      intros Hd. rewrite Hd in Ebal. simpl in Ebal. bools. done.
    + intros bal n h vt pr au [= <- <- <- <- <- <-]. split_and!; try done.
      * destruct r; done.
      * unfold recover_authorities. by rewrite Hk1.
      * by destruct r.
  - split_and!; [by rewrite Hk1| |done]. split; [done|]. intros [_ _ _ Hb].
    apply Hblob in Hb as [? ?]. done.
Qed.

Lemma validate_one_ok self origin tx state oacc :
  NoDup tx_types -> latest (client self) = Ok state ->
  basic_account state (s_signer (signed tx)) = Ok oacc ->
  let acc := default account_default oacc in
  exists o, validate_one self origin tx = Some o /\
    outcome_tx_hash o = s_hash (signed tx) /\
    (is_valid o = true <-> stateless_ok self origin tx /\ stateful_ok self tx state acc) /\
    reports self origin tx acc o.
Proof.
  intros Hnd Hlatest Hacc acc. unfold validate_one, validate_one_with_provider.
  pose proof (no_state_ok self origin tx Hnd) as Hno.
  destruct (no_state_settles self origin tx) as [Hs|[err Hs]]; rewrite Hs in *; simpl.
  - rewrite Hlatest. simpl. eexists. split; [done|].
    destruct (against_state_spec self origin tx state oacc Hacc) as (H1' & H2' & H3').
    split_and!; [done| |done]. rewrite H2'. naive_solver.
  - eexists. split; [done|]. split_and!; [done| |done]. split; [done|].
    intros [Hok _]. by apply Hno in Hok.
Qed.

(** C37: what the validator accepts.  When the state can be read, validation
    does not panic, reports on the transaction it was given, and finds it
    valid if and only if it satisfies every stateless condition
    ([stateless_ok]) and every condition on the account of its sender
    ([stateful_ok]); a valid outcome carries the account's balance, nonce and
    code, the transaction as the pool reads it, whether to propagate it, and its
    sidecar (a blob transaction without one has it in the blob store). *)
Theorem validate_one_spec self origin tx state oacc :
  NoDup tx_types -> latest (client self) = Ok state ->
  basic_account state (s_signer (signed tx)) = Ok oacc ->
  let acc := default account_default oacc in
  exists o, validate_one self origin tx = Some o /\
    outcome_tx_hash o = s_hash (signed tx) /\
    (is_valid o = true <-> stateless_ok self origin tx /\ stateful_ok self tx state acc) /\
    reports self origin tx acc o.
Proof. exact (validate_one_ok self origin tx state oacc). Qed.

(** A provider that is shared is the one the client would return. *)
Definition shared self (provider : option StateProvider) : Prop :=
  forall s, provider = Some s -> latest (client self) = Ok s.

Lemma with_provider_step self origin tx provider : shared self provider ->
  exists o provider', shared self provider' /\ validate_one self origin tx = Some o /\
    validate_one_with_provider self origin tx provider = Some (o, provider').
Proof.
  intros Hp. unfold validate_one, validate_one_with_provider.
  destruct (no_state_settles self origin tx) as [Hs|[err Hs]]; rewrite Hs; simpl; [|by eauto].
  destruct provider as [s|].
  - rewrite (Hp s eq_refl). simpl. by eauto.
  - destruct (latest (client self)) as [s|e] eqn:El; simpl; do 2 eexists; (split_and!; [|done..]).
    + intros ? [= <-]. done.
    + done.
Qed.

Lemma validate_batch_from_one self txs provider : shared self provider ->
  validate_batch_from self txs provider = mapM (fun p => validate_one self p.1 p.2) txs.
Proof.
  revert provider. induction txs as [|[origin tx] txs IH]; intros provider Hp; [done|].
  destruct (with_provider_step self origin tx provider Hp) as (o & p' & Hp' & Hone & Hwith).
  cbn [validate_batch_from mapM]. rewrite Hwith. cbn. rewrite Hone. cbn. by rewrite (IH p').
Qed.

(** Whatever can be read: an outcome, on the transaction that was given. *)
Lemma validate_one_settles self origin tx :
  exists o, validate_one self origin tx = Some o /\ outcome_tx_hash o = s_hash (signed tx) /\
    (is_valid o = true -> exists acc, acc_nonce acc <= s_nonce (signed tx) /\ reports self origin tx acc o).
Proof.
  unfold validate_one, validate_one_with_provider.
  destruct (no_state_settles self origin tx) as [Hs|[err Hs]]; rewrite Hs; simpl; [|by eexists].
  destruct (latest (client self)) as [state|err]; simpl; [|by eexists].
  eexists. split; [done|]. destruct (basic_account state (s_signer (signed tx))) as [oacc|err] eqn:Ha.
  - destruct (against_state_spec self origin tx state oacc Ha) as (H1' & H2' & H3').
    split; [done|]. intros Hv. apply H2' in Hv. exists (default account_default oacc).
    split; [apply (st_nonce _ _ _ _ Hv)|done].
  - unfold validate_one_against_state. by rewrite Ha.
Qed.

(** A batch is validated as its transactions one by one would be, in the
    same order, although the state provider is fetched once and shared. *)
Theorem validate_batch_equiv self (txs : list (TransactionOrigin * EthPooledTransaction)) :
  validate_batch self txs = mapM (fun p => validate_one self p.1 p.2) txs.
Proof. by apply validate_batch_from_one. Qed.

(** ** The fork tracker *)

(** The forks as the chain specification has them at a timestamp. *)
Definition tracker_at (c : Client) (t : Z) : ForkTracker :=
  mkForkTracker (is_shanghai_active_at_timestamp c t) (is_cancun_active_at_timestamp c t)
    (is_prague_active_at_timestamp c t) (is_osaka_active_at_timestamp c t)
    (default cancun_max_blobs_per_tx (blob_params_at_timestamp c t)).

(** A fork that is active stays active. *)
Record spec_monotone (c : Client) : Prop := {
  sm_shanghai t t' : t <= t' -> is_shanghai_active_at_timestamp c t = true ->
    is_shanghai_active_at_timestamp c t' = true;
  sm_cancun t t' : t <= t' -> is_cancun_active_at_timestamp c t = true ->
    is_cancun_active_at_timestamp c t' = true;
  sm_prague t t' : t <= t' -> is_prague_active_at_timestamp c t = true ->
    is_prague_active_at_timestamp c t' = true;
  sm_osaka t t' : t <= t' -> is_osaka_active_at_timestamp c t = true ->
    is_osaka_active_at_timestamp c t' = true;
  sm_blobs t t' : t <= t' -> is_Some (blob_params_at_timestamp c t) ->
    is_Some (blob_params_at_timestamp c t');
}.

Lemma sticky (b b' : bool) : (b = true -> b' = true) -> (if b' then true else b) = b'.
Proof. destruct b, b'; naive_solver. Qed.

Lemma new_head_exact self t t' gas :
  spec_monotone (client self) -> t <= t' -> fork_tracker self = tracker_at (client self) t ->
  fork_tracker (on_new_head_block self t' gas) = tracker_at (client self) t' /\
  client (on_new_head_block self t' gas) = client self /\
  block_gas_limit (on_new_head_block self t' gas) = gas.
Proof.
  intros [M1 M2 M3 M4 M5] Ht Hf. split_and!; [|done|done]. unfold on_new_head_block. simpl.
  rewrite Hf. unfold tracker_at. simpl. rewrite !sticky by eauto. f_equal.
  destruct (blob_params_at_timestamp (client self) t') eqn:E'; [done|]. simpl.
  destruct (blob_params_at_timestamp (client self) t) eqn:E; [|done].
  destruct (M5 t t' Ht) as [? ?]; [by rewrite E|congruence].
Qed.

(** The validator follows the forks.  Built for a head block and told of
    new heads with non-decreasing timestamps, its fork flags and blob limit are
    those of the chain specification at the last head, and its gas limit is that
    of the last head, provided that forks are never deactivated. *)
Theorem fork_tracker_exact c contains kzg t0 (blocks : list (Z * Z)) :
  spec_monotone c -> StronglySorted Z.le (t0 :: blocks.*1) ->
  let self0 := build (with_head_timestamp (builder_new c) t0) contains kzg in
  let self := foldl (fun self b => on_new_head_block self b.1 b.2) self0 blocks in
  fork_tracker self = tracker_at c (List.last blocks.*1 t0) /\
  block_gas_limit self = List.last blocks.*2 ETHEREUM_BLOCK_GAS_LIMIT_30M.
Proof.
  intros Hmono Hsorted self0 self.
  assert (Hgen : forall self t gas, client self = c -> fork_tracker self = tracker_at c t ->
    block_gas_limit self = gas -> StronglySorted Z.le (t :: blocks.*1) ->
    let self' := foldl (fun self b => on_new_head_block self b.1 b.2) self blocks in
    fork_tracker self' = tracker_at c (List.last blocks.*1 t) /\
    block_gas_limit self' = List.last blocks.*2 gas).
  { clear -Hmono. induction blocks as [|[t1 g1] blocks IH]; intros self t gas Hc Hf Hg Hs; [done|].
    rewrite !fmap_cons, !last_cons_default. rewrite fmap_cons in Hs. cbn [fst snd foldl] in *.
    apply StronglySorted_inv in Hs as [Hs' Hall]. apply Forall_cons in Hall as [Ht _].
    subst c. destruct (new_head_exact self t t1 g1) as (E1 & E2 & E3); [done..|].
    destruct (IH (on_new_head_block self t1 g1) t1 g1 E2 E1 E3 Hs') as [IH1 IH2].
    by rewrite IH1, IH2. }
  by apply Hgen.
Qed.

(** ** Costs *)

(** The cost of a pooled transaction.  For 128-bit fees, 64-bit gas and a
    256-bit value the gas part never saturates; the cost is the sum of the gas
    part, the value and, for a blob transaction, the blob part (capped at 128
    bits), capped at the largest 256-bit number, so it never wraps around. *)
Theorem pooled_cost_exact (t : SignedTransaction) len :
  0 <= s_max_fee_per_gas t <= u128_max -> is_u64 (s_gas_limit t) -> 0 <= s_value t <= u256_max ->
  (forall f g, s_max_fee_per_blob_gas t = Some f -> s_blob_gas_used t = Some g -> 0 <= f * g) ->
  pooled_cost (pooled_new t len) =
    Z.min (s_max_fee_per_gas t * s_gas_limit t + s_value t +
           match s_blob_gas_used t, s_max_fee_per_blob_gas t with
           | Some g, Some f => Z.min (f * g) u128_max
           | _, _ => 0
           end) u256_max.
Proof.
  intros Hfee Hgas Hval Hblob. unfold pooled_new, saturating_add_u256, saturating_mul_u256, saturating_mul_u128.
  assert (Hmul : s_max_fee_per_gas t * s_gas_limit t <= u256_max).
  { unfold is_u64, u64_modulus, u128_max, u256_max in *.
    transitivity ((2 ^ 128 - 1) * 2 ^ 64); [|done]. apply Z.mul_le_mono_nonneg; lia. }
  assert (0 <= s_max_fee_per_gas t * s_gas_limit t) by (unfold is_u64 in *; nia).
  rewrite (Z.min_l (s_max_fee_per_gas t * s_gas_limit t)) by done.
  destruct (s_blob_gas_used t) as [g|], (s_max_fee_per_blob_gas t) as [f|]; simpl; try (f_equal; lia).
  specialize (Hblob f g eq_refl eq_refl).
  assert (0 <= u128_max) by done. lia.
Qed.

End props.

(** ** Examples *)

#[local] Existing Instance mainnet_constants.

#[local] Existing Instance example_alloy.

#[local] Instance example_validator_constants : ValidatorConstants :=
  {| LEGACY_TX_TYPE_ID := 0; EIP2930_TX_TYPE_ID := 1; EIP1559_TX_TYPE_ID := 2;
     EIP7702_TX_TYPE_ID := 4; MAX_INITCODE_SIZE := 49152;
     cancun_max_blobs_per_tx := 6; prague_max_blobs_per_tx := 9;
     calculate_initial_tx_gas _ input _ _ _ _ :=
       mkInitialGas (21000 + 16 * Z.of_nat (length input)) 21000 |}.

(** Shanghai at 10, Cancun at 20, Prague at 30; account 7 holds 10^18. *)
Definition example_state : StateProvider :=
  mkState (fun a => Ok (if a =? 7 then Some (mkAccount 3 (10 ^ 18) None) else None))
    (fun _ => Ok None).

Definition example_client : Client :=
  mkClient 2024 (Z.leb 10) (Z.leb 20) (Z.leb 30) (fun _ => false)
    (fun t => if 30 <=? t then Some 9 else if 20 <=? t then Some 6 else None) (Ok example_state).

Definition example_validator : EthTransactionValidator :=
  build (with_head_timestamp (builder_new example_client) 25) (fun _ => Ok false) (fun _ _ => Ok tt).

Definition example_signed (ty nonce : Z) : SignedTransaction :=
  {| s_hash := 99; s_signer := 7; s_ty := ty; s_chain_id := Some 2024; s_nonce := nonce;
     s_gas_limit := 30000; s_max_fee_per_gas := 100; s_max_priority_fee_per_gas := Some 2;
     s_max_fee_per_blob_gas := if ty =? 3 then Some 5 else None; s_is_dynamic_fee := true;
     s_is_create := false; s_value := 1000; s_input := [1; 2]; s_access_list := None;
     s_blob_versioned_hashes := if ty =? 3 then Some [11; 12] else None;
     s_blob_gas_used := if ty =? 3 then Some 262144 else None; s_authorization_list := None;
     s_size := 120 |}.

Definition example_pooled (ty nonce : Z) : EthPooledTransaction := pooled_new (example_signed ty nonce) 110.

(** A dynamic fee transaction with the account's nonce is accepted; one with a
    used nonce and a blob transaction whose sidecar is missing are not. *)
Lemma validate_one_spec_witness :
  (exists o, validate_one example_validator External (example_pooled 2 3) = Some o /\ is_valid o = true /\
     outcome_tx_hash o = 99) /\
  as_invalid <$> validate_one example_validator External (example_pooled 2 2) =
    Some (Some (Consensus (NonceNotConsistent 2 3))) /\
  as_invalid <$> validate_one example_validator External (example_pooled 3 3) =
    Some (Some (Eip4844 MissingEip4844BlobSidecar)).
Proof.
  split_and!; [|vm_compute; reflexivity..].
  destruct (validate_one_spec example_validator External (example_pooled 2 3) example_state
              (Some (mkAccount 3 (10 ^ 18) None))) as (o & Ho & Hh & Hv & _);
    [apply (bool_decide_unpack _); vm_compute; exact I | reflexivity | reflexivity |].
  exists o. split; [exact Ho|]. split; [|exact Hh].
  assert (Hc : is_valid <$> validate_one example_validator External (example_pooled 2 3) = Some true)
    by (vm_compute; reflexivity).
  rewrite Ho in Hc. injection Hc as Hc. exact Hc.
Defined.

Lemma example_monotone : spec_monotone example_client.
Proof.
  split; simpl; intros t t' Ht; rewrite ?Z.leb_le; try lia.
  repeat case_match; rewrite ?Z.leb_le, ?Z.leb_gt in *; try done; lia.
Qed.

Lemma fork_tracker_exact_witness :
  let self0 := build (with_head_timestamp (builder_new example_client) 15) (fun _ => Ok false)
                 (fun _ _ => Ok tt) in
  fork_tracker (foldl (fun self b => on_new_head_block self b.1 b.2) self0 [(18, 5); (32, 6)]) =
    mkForkTracker true true true false 9.
Proof.
  intros self0.
  destruct (fork_tracker_exact example_client (fun _ => Ok false) (fun _ _ => Ok tt) 15 [(18, 5); (32, 6)])
    as [Hf _]; [exact example_monotone|simpl; repeat first [lia | apply List.Forall_nil | apply List.Forall_cons | constructor 1 | constructor 2]|].
  exact Hf.
Defined.

Lemma pooled_cost_exact_witness :
  pooled_cost (example_pooled 3 3) = 100 * 30000 + 1000 + 5 * 262144.
Proof.
  assert (Hb := pooled_cost_exact (example_signed 3 3) 110).
  unfold example_pooled. rewrite Hb; [reflexivity|unfold u128_max; simpl; lia|
    unfold is_u64, u64_modulus; simpl; lia|unfold u256_max; simpl; lia|].
  simpl. intros f g [= <-] [= <-]. lia.
Defined.

End ValidatorProps.
