(* ===== verification/BlobStore.v ===== *)
(** * The blob store

    The trait [BlobStore] of [crates/transaction-pool/src/blobstore/mod.rs] as a
    class, the store in memory ([mem.rs]), the store that keeps nothing
    ([noop.rs]), and the tracker of blobs in canonical blocks ([tracker.rs]).
    The lock and the atomics of a store are its state.  The order in which a
    [HashMap] is iterated is unspecified: it is an argument of the operations that
    depend on it. *)

From S2P Require Import Prelude Ordered TxErrors TxIdentifier TxTypes EthTransaction.
Import TxErrors TxTypes EthTx.

(** What the stores use of the sidecars of the [alloy] crates. *)
Class SidecarTypes `{AlloyTypes} := {
  sidecar_size : BlobTransactionSidecarVariant -> Z;
  sidecar_size_nonneg s : 0 <= sidecar_size s;
  BlobAndProofV1 : Type;
  BlobAndProofV2 : Type;
  (** [match_versioned_hashes]: the positions of the hashes that are found *)
  match_hashes_v1 : BlobTransactionSidecarVariant -> list Z -> list (nat * BlobAndProofV1);
  match_hashes_v2 : BlobTransactionSidecarVariant -> list Z -> list (nat * BlobAndProofV2);
}.

Module BlobStore.

Section stores.
Context `{AlloyTypes} `{!SidecarTypes}.
Abbreviation Sidecar := BlobTransactionSidecarVariant.

Inductive BlobStoreError :=
| MissingSidecar (hash : Z)
| DecodeError (err : string)
| StoreOther (err : string).

Record BlobStoreCleanupStat := mkCleanupStat { delete_succeed : Z; delete_failed : Z }.
Definition cleanup_default : BlobStoreCleanupStat := mkCleanupStat 0 0.

Abbreviation Res S := (S * result unit BlobStoreError)%type.

(** ** The trait *)

Class BlobStoreTrait (S : Type) := {
  bs_insert : S -> Z -> Sidecar -> Res S;
  bs_insert_all : S -> list (Z * Sidecar) -> Res S;
  bs_delete : S -> Z -> Res S;
  bs_delete_all : S -> list Z -> Res S;
  bs_cleanup : S -> S * BlobStoreCleanupStat;
  bs_get : S -> Z -> result (option Sidecar) BlobStoreError;
  bs_contains : S -> Z -> result bool BlobStoreError;
  bs_get_all : S -> list Z -> result (list (Z * Sidecar)) BlobStoreError;
  bs_get_exact : S -> list Z -> result (list Sidecar) BlobStoreError;
  bs_data_size_hint : S -> option Z;
  bs_blobs_len : S -> Z;
}.

(** ** The size of a store *)

Record BlobStoreSize := mkStoreSize { data_size : Z; num_blobs : Z }.

Definition add_size (s : BlobStoreSize) (add : Z) : BlobStoreSize :=
  mkStoreSize (wrapping_add_u64 (data_size s) add) (num_blobs s).
Definition sub_size (s : BlobStoreSize) (sub : Z) : BlobStoreSize :=
  mkStoreSize (saturating_sub_u64 (data_size s) sub) (num_blobs s).
Definition update_len (s : BlobStoreSize) (len : Z) : BlobStoreSize := mkStoreSize (data_size s) len.
Definition inc_len (s : BlobStoreSize) (add : Z) : BlobStoreSize :=
  mkStoreSize (data_size s) (wrapping_add_u64 (num_blobs s) add).
Definition sub_len (s : BlobStoreSize) (sub : Z) : BlobStoreSize :=
  mkStoreSize (data_size s) (saturating_sub_u64 (num_blobs s) sub).

(** ** The store in memory *)

Record InMemoryBlobStore := mkMemStore {
  store : gmap Z Sidecar;
  size_tracker : BlobStoreSize;
}.

Definition mem_default : InMemoryBlobStore := mkMemStore ∅ (mkStoreSize 0 0).
Implicit Types self : InMemoryBlobStore.

Definition remove_size (m : gmap Z Sidecar) (tx : Z) : gmap Z Sidecar * Z :=
  (delete tx m, match m !! tx with Some rem => sidecar_size rem | None => 0 end).

Definition insert_size (m : gmap Z Sidecar) (tx : Z) (blob : Sidecar) : gmap Z Sidecar * Z :=
  (<[tx := blob]> m, sidecar_size blob).

Definition store_len (m : gmap Z Sidecar) : Z := Z.of_nat (size m).

Definition mem_insert self (tx : Z) (data : Sidecar) : Res InMemoryBlobStore :=
  let '(m, add) := insert_size (store self) tx data in
  (mkMemStore m (update_len (add_size (size_tracker self) add) (store_len m)), Ok tt).

(** The loop of [insert_all], with [total_add]. *)
Fixpoint insert_loop (m : gmap Z Sidecar) (txs : list (Z * Sidecar)) (total_add : Z)
  : gmap Z Sidecar * Z :=
  match txs with
  | [] => (m, total_add)
  | (tx, data) :: txs =>
      let '(m, add) := insert_size m tx data in insert_loop m txs (wrapping_add_u64 total_add add)
  end.

Definition mem_insert_all self (txs : list (Z * Sidecar)) : Res InMemoryBlobStore :=
  match txs with
  | [] => (self, Ok tt)
  | _ =>
      let '(m, total_add) := insert_loop (store self) txs 0 in
      (mkMemStore m (update_len (add_size (size_tracker self) total_add) (store_len m)), Ok tt)
  end.

Definition mem_delete self (tx : Z) : Res InMemoryBlobStore :=
  let '(m, sub) := remove_size (store self) tx in
  (mkMemStore m (update_len (sub_size (size_tracker self) sub) (store_len m)), Ok tt).

(** The loop of [delete_all], with [total_sub]. *)
Fixpoint delete_loop (m : gmap Z Sidecar) (txs : list Z) (total_sub : Z) : gmap Z Sidecar * Z :=
  match txs with
  | [] => (m, total_sub)
  | tx :: txs =>
      let '(m, sub) := remove_size m tx in delete_loop m txs (wrapping_add_u64 total_sub sub)
  end.

Definition mem_delete_all self (txs : list Z) : Res InMemoryBlobStore :=
  match txs with
  | [] => (self, Ok tt)
  | _ =>
      let '(m, total_sub) := delete_loop (store self) txs 0 in
      (mkMemStore m (update_len (sub_size (size_tracker self) total_sub) (store_len m)), Ok tt)
  end.

Definition mem_get self (tx : Z) : result (option Sidecar) BlobStoreError := Ok (store self !! tx).
Definition mem_contains self (tx : Z) : result bool BlobStoreError :=
  Ok (bool_decide (is_Some (store self !! tx))).
Definition mem_get_all self (txs : list Z) : result (list (Z * Sidecar)) BlobStoreError :=
  Ok (omap (fun tx => pair tx <$> store self !! tx) txs).
Definition mem_get_exact self (txs : list Z) : result (list Sidecar) BlobStoreError :=
  Ok (omap (fun tx => store self !! tx) txs).

#[export] Instance mem_store : BlobStoreTrait InMemoryBlobStore := {
  bs_insert := mem_insert;
  bs_insert_all := mem_insert_all;
  bs_delete := mem_delete;
  bs_delete_all := mem_delete_all;
  bs_cleanup self := (self, cleanup_default);
  bs_get := mem_get;
  bs_contains := mem_contains;
  bs_get_all := mem_get_all;
  bs_get_exact := mem_get_exact;
  bs_data_size_hint self := Some (data_size (size_tracker self));
  bs_blobs_len self := num_blobs (size_tracker self);
}.

(** *** Look-up by the hashes of the blobs *)

(** [for (hash_idx, match_result) in .. { result[hash_idx] = Some(match_result) }];
    an index out of range panics. *)
Fixpoint put_matches {B} (ms : list (nat * B)) (found : list (option B)) : option (list (option B)) :=
  match ms with
  | [] => Some found
  | (hash_idx, match_result) :: ms =>
      if (hash_idx <? length found)%nat then put_matches ms (<[hash_idx := Some match_result]> found)
      else None
  end.

Definition all_found {B} (found : list (option B)) : bool :=
  forallb (fun b => match b with Some _ => true | None => false end) found.

(** The loop over the store, in the order of iteration. *)
Fixpoint find_loop {B} (matches : Sidecar -> option (list (nat * B)))
  (entries : list (Z * Sidecar)) (found : list (option B)) : option (list (option B)) :=
  match entries with
  | [] => Some found
  | (_, blob_sidecar) :: entries =>
      found ← match matches blob_sidecar with
              | Some ms => put_matches ms found
              | None => Some found
              end;
      if all_found found then Some found else find_loop matches entries found
  end.

Definition matches_v1 (hashes : list Z) (s : Sidecar) : option (list (nat * BlobAndProofV1)) :=
  if sidecar_is_eip4844 s then Some (match_hashes_v1 s hashes) else None.
Definition matches_v2 (hashes : list Z) (s : Sidecar) : option (list (nat * BlobAndProofV2)) :=
  if sidecar_is_eip7594 s then Some (match_hashes_v2 s hashes) else None.

Definition get_by_versioned_hashes_v1 (iteration : list (Z * Sidecar)) (versioned_hashes : list Z)
  : option (result (list (option BlobAndProofV1)) BlobStoreError) :=
  found ← find_loop (matches_v1 versioned_hashes) iteration (replicate (length versioned_hashes) None);
  Some (Ok found).

Definition get_by_versioned_hashes_v2 (iteration : list (Z * Sidecar)) (versioned_hashes : list Z)
  : option (result (option (list BlobAndProofV2)) BlobStoreError) :=
  found ← find_loop (matches_v2 versioned_hashes) iteration (replicate (length versioned_hashes) None);
  if all_found found then blobs ← mapM id found; Some (Ok (Some blobs)) else Some (Ok None).

(** ** The store that keeps nothing *)

Inductive NoopBlobStore := mkNoopStore.

#[export] Instance noop_store : BlobStoreTrait NoopBlobStore := {
  bs_insert st _ _ := (st, Ok tt);
  bs_insert_all st _ := (st, Ok tt);
  bs_delete st _ := (st, Ok tt);
  bs_delete_all st _ := (st, Ok tt);
  bs_cleanup st := (st, cleanup_default);
  bs_get _ _ := Ok None;
  bs_contains _ _ := Ok false;
  bs_get_all _ _ := Ok [];
  bs_get_exact _ txs := match txs with [] => Ok [] | tx :: _ => Err (MissingSidecar tx) end;
  bs_data_size_hint _ := Some 0;
  bs_blobs_len _ := 0;
}.

(** ** The tracker of canonical blobs *)

Record BlobStoreCanonTracker := mkTracker { blob_txs_in_blocks : gmap Z (list Z) }.

Definition tracker_default : BlobStoreCanonTracker := mkTracker ∅.

Definition add_block (t : BlobStoreCanonTracker) (block_number : Z) (blob_txs : list Z)
  : BlobStoreCanonTracker := mkTracker (<[block_number := blob_txs]> (blob_txs_in_blocks t)).

Fixpoint add_blocks (t : BlobStoreCanonTracker) (blocks : list (Z * list Z)) : BlobStoreCanonTracker :=
  match blocks with
  | [] => t
  | (block_number, blob_txs) :: blocks => add_blocks (add_block t block_number blob_txs) blocks
  end.

(** The transactions of a block are given by type and hash. *)
Definition add_new_chain_blocks `{AlloyConstants} (t : BlobStoreCanonTracker)
  (blocks : list (Z * list (Z * Z))) : BlobStoreCanonTracker :=
  add_blocks t
    ((fun b => (b.1, (List.filter (fun tx => tx.1 =? EIP4844_TX_TYPE_ID) b.2).*2)) <$> blocks).

Inductive BlobStoreUpdates := NoUpdates | Finalized (blobs : list Z).

(** [while let Some(entry) = self.blob_txs_in_blocks.first_entry()]. *)
Fixpoint finalize_loop (fuel : nat) (blocks : gmap Z (list Z)) (finalized_block : Z)
  (finalized : list Z) : option (gmap Z (list Z) * list Z) :=
  match fuel with
  | O => None
  | S fuel =>
      match bt_entries blocks with
      | [] => Some (blocks, finalized)
      | (number, blobs) :: _ =>
          if number <=? finalized_block
          then finalize_loop fuel (delete number blocks) finalized_block (finalized ++ blobs)
          else Some (blocks, finalized)
      end
  end.

(** Every round but the last removes a block. *)
Definition on_finalized_block (t : BlobStoreCanonTracker) (finalized_block : Z)
  : option (BlobStoreCanonTracker * BlobStoreUpdates) :=
  r ← finalize_loop (S (size (blob_txs_in_blocks t))) (blob_txs_in_blocks t) finalized_block [];
  Some (mkTracker r.1, match r.2 with [] => NoUpdates | blobs => Finalized blobs end).

(** ** Properties *)

(** *** The tracker *)

(** The blobs of the blocks up to [n], in the order of the blocks. *)
Definition blobs_up_to (blocks : gmap Z (list Z)) (n : Z) : list Z :=
  concat (List.filter (fun e => e.1 <=? n) (bt_entries blocks)).*2.

(** Finalising a block ends.  Exactly the blocks up to it leave the tracker, and
    exactly their blobs are reported, in the order of the blocks. *)
Lemma finalize_loop_exact fuel blocks n acc :
  (size blocks < fuel)%nat ->
  finalize_loop fuel blocks n acc =
    Some (filter (fun e => n < e.1) blocks, acc ++ blobs_up_to blocks n).
Proof.
  unfold blobs_up_to. revert blocks acc. induction fuel as [|fuel IH]; intros blocks acc Hf; [lia|].
  simpl. destruct (bt_entries blocks) as [|[k v] l] eqn:He.
  - assert (blocks = ∅) as -> by (by rewrite <- (list_to_map_bt_entries blocks), He).
    rewrite map_filter_empty. simpl. by rewrite app_nil_r.
  - assert (Hk : blocks !! k = Some v) by (apply elem_of_bt_entries; rewrite He; by left).
    assert (Hs := bt_entries_sorted blocks). rewrite He in Hs. apply StronglySorted_inv in Hs as [_ Hall].
    simpl. destruct (k <=? n) eqn:Ek; bools.
    + rewrite IH.
      * rewrite (bt_entries_delete_head _ _ _ _ He). simpl. rewrite <- app_assoc. f_equal. f_equal.
        apply map_eq. intros i. apply option_eq. intros w.
        rewrite !map_lookup_filter_Some, lookup_delete_Some. simpl. split; [naive_solver|].
        intros [Hi Hn]. split; [|done]. split; [|done]. intros <-. lia.
      * assert (size blocks <> 0)%nat by (intros E; apply map_size_empty_inv in E; by simplify_map_eq).
        rewrite map_size_delete_Some by eauto. lia.
    + assert (Hlt : forall e, e ∈ (k, v) :: l -> n < e.1).
      { intros e [->|Hin]%elem_of_cons; [done|]. rewrite Forall_forall in Hall.
        specialize (Hall e Hin). unfold entry_le in Hall. simpl in Hall. lia. }
      rewrite (map_filter_id (fun e => n < e.1)).
      * replace (List.filter _ l) with (@nil (Z * list Z)); [by rewrite app_nil_r|].
        clear -Hlt. induction l as [|e l IH]; [done|]. simpl.
        assert (n < e.1) by (apply Hlt; right; by left). destruct (Z.leb_spec e.1 n); [lia|].
        apply IH. intros e' He'. apply Hlt. rewrite !elem_of_cons in *. naive_solver.
      * intros i w Hi. apply (Hlt (i, w)). rewrite <- He. by apply elem_of_bt_entries.
Qed.

Lemma elem_of_blobs_up_to blocks n h :
  h ∈ blobs_up_to blocks n <->
  exists number blobs, blocks !! number = Some blobs /\ number <= n /\ h ∈ blobs.
Proof.
  unfold blobs_up_to. rewrite list_elem_of_In, in_concat. split.
  - intros (bs & Hbs%list_elem_of_In & Hh%list_elem_of_In).
    apply list_elem_of_fmap in Hbs as ([k v] & -> & Hin%list_elem_of_In).
    apply filter_In in Hin as [Hin%list_elem_of_In%elem_of_bt_entries Hk%Z.leb_le]. eauto.
  - intros (k & v & Hk & Hn & Hh). exists v. rewrite <- !list_elem_of_In. split; [|done].
    apply list_elem_of_fmap. exists (k, v). split; [done|].
    apply list_elem_of_In, filter_In. rewrite <- list_elem_of_In, elem_of_bt_entries.
    split; [done|by apply Z.leb_le].
Qed.

(** Finalising a block ends; the tracker keeps exactly the blocks above it
    and hands out exactly the blobs of the others, those of lower blocks first. *)
Theorem tracker_finalized_exact (t : BlobStoreCanonTracker) n :
  exists t' blobs,
    on_finalized_block t n = Some (t', match blobs with [] => NoUpdates | bs => Finalized bs end) /\
    blob_txs_in_blocks t' = filter (fun e => n < e.1) (blob_txs_in_blocks t) /\
    (forall h, h ∈ blobs <-> exists number bs,
       blob_txs_in_blocks t !! number = Some bs /\ number <= n /\ h ∈ bs) /\
    blobs = concat (List.filter (fun e => e.1 <=? n) (bt_entries (blob_txs_in_blocks t))).*2.
Proof.
  unfold on_finalized_block. rewrite finalize_loop_exact by lia. simpl.
  exists (mkTracker (filter (fun e => n < e.1) (blob_txs_in_blocks t))), (blobs_up_to (blob_txs_in_blocks t) n).
  split; [by destruct (blobs_up_to _ n)|]. split; [reflexivity|]. split; [|reflexivity].
  intros h. apply elem_of_blobs_up_to.
Qed.

(** *** The sizes of the store in memory *)

Definition total_bytes (m : gmap Z Sidecar) : Z := map_fold (fun _ s acc => sidecar_size s + acc) 0 m.

Lemma total_bytes_insert m h s :
  m !! h = None -> total_bytes (<[h := s]> m) = sidecar_size s + total_bytes m.
Proof. intros Hh. unfold total_bytes. rewrite map_fold_insert_L; [done| |done]. intros. lia. Qed.

Lemma total_bytes_delete m h :
  total_bytes m = match m !! h with Some s => sidecar_size s | None => 0 end + total_bytes (delete h m).
Proof.
  destruct (m !! h) as [s|] eqn:E; [|by rewrite delete_id].
  rewrite <- (insert_delete_id m h s E) at 1. by rewrite total_bytes_insert by apply lookup_delete_eq.
Qed.

Lemma total_bytes_nonneg m : 0 <= total_bytes m.
Proof.
  induction m as [|h s m Hh IH] using map_ind; [done|].
  rewrite total_bytes_insert by done. pose proof (sidecar_size_nonneg s). lia.
Qed.

(** The steps of a store whose size fits the counter and into which no hash is
    inserted twice. *)
Inductive mem_step : InMemoryBlobStore -> InMemoryBlobStore -> Prop :=
| step_insert self h s : store self !! h = None ->
    total_bytes (<[h := s]> (store self)) < u64_modulus -> mem_step self (mem_insert self h s).1
| step_insert_all self l : NoDup l.*1 -> (forall h, h ∈ l.*1 -> store self !! h = None) ->
    total_bytes (list_to_map l ∪ store self) < u64_modulus -> mem_step self (mem_insert_all self l).1
| step_delete self h : mem_step self (mem_delete self h).1
| step_delete_all self l : mem_step self (mem_delete_all self l).1.

Record mem_ok self : Prop := {
  mo_bytes : data_size (size_tracker self) = total_bytes (store self);
  mo_fits : total_bytes (store self) < u64_modulus;
  mo_len : num_blobs (size_tracker self) = store_len (store self);
}.

Lemma insert_loop_exact l m acc :
  NoDup l.*1 -> (forall h, h ∈ l.*1 -> m !! h = None) -> 0 <= acc ->
  acc + (total_bytes (list_to_map l ∪ m) - total_bytes m) < u64_modulus ->
  insert_loop m l acc = (list_to_map l ∪ m, acc + (total_bytes (list_to_map l ∪ m) - total_bytes m)).
Proof.
  revert m acc. induction l as [|[h s] l IH]; intros m acc Hnd Hm Hacc Hfit; csimpl.
  - rewrite (left_id_L ∅ (∪)). f_equal. lia.
  - csimpl in *. apply NoDup_cons in Hnd as [Hh Hnd].
    assert (Hmap : <[h := s]> (list_to_map l) ∪ m = list_to_map l ∪ <[h := s]> m).
    { rewrite <- insert_union_l, insert_union_r; [done|]. by apply not_elem_of_list_to_map_1. }
    rewrite Hmap in *. pose proof (total_bytes_nonneg m).
    assert (Hge : total_bytes (<[h := s]> m) <= total_bytes (list_to_map l ∪ <[h := s]> m)).
    { clear -Hnd Hm Hh. assert (Hf : forall k, k ∈ l.*1 -> <[h := s]> m !! k = None).
      { intros k Hk. rewrite lookup_insert_ne by (by intros ->). apply Hm. by right. }
      revert Hf. generalize (<[h := s]> m). clear Hm Hh m. induction l as [|[k v] l IH]; intros m Hf; csimpl.
      - by rewrite (left_id_L ∅ (∪)).
      - csimpl in *. apply NoDup_cons in Hnd as [Hk Hnd].
        rewrite <- insert_union_l, total_bytes_insert.
        + specialize (IH Hnd m ltac:(intros; apply Hf; by right)). pose proof (sidecar_size_nonneg v). lia.
        + apply lookup_union_None. split; [by apply not_elem_of_list_to_map_1|apply Hf; by left]. }
    assert (Hs : total_bytes (<[h := s]> m) = sidecar_size s + total_bytes m)
      by (apply total_bytes_insert, Hm; by left).
    pose proof (sidecar_size_nonneg s). unfold wrapping_add_u64.
    rewrite wrap_u64_small by (unfold is_u64; lia).
    rewrite IH; [f_equal; lia|done| |lia|lia].
    intros k Hk. rewrite lookup_insert_ne by (by intros ->). apply Hm. by right.
Qed.

Lemma delete_loop_exact l m acc :
  0 <= acc -> acc + total_bytes m < u64_modulus ->
  exists m', delete_loop m l acc = (m', acc + (total_bytes m - total_bytes m')) /\
    total_bytes m' <= total_bytes m /\ forall h, m' !! h = if bool_decide (h ∈ l) then None else m !! h.
Proof.
  revert m acc. induction l as [|k l IH]; intros m acc Hacc Hfit; simpl.
  - exists m. split_and!; [f_equal; lia|lia|done].
  - pose proof (total_bytes_delete m k) as Hd.
    set (sub := match m !! k with Some s => sidecar_size s | None => 0 end) in *.
    assert (0 <= sub) by (subst sub; destruct (m !! k); [apply sidecar_size_nonneg|done]).
    pose proof (total_bytes_nonneg (delete k m)).
    unfold wrapping_add_u64. rewrite wrap_u64_small by (unfold is_u64; lia).
    destruct (IH (delete k m) (acc + sub)) as (m' & -> & Hle & Hm'); [lia|lia|].
    exists m'. split_and!; [f_equal; lia|lia|]. intros h. rewrite Hm'.
    destruct (decide (h = k)) as [->|Hne].
    + rewrite lookup_delete_eq. rewrite (bool_decide_eq_true_2 (k ∈ k :: l)) by (by left). by case_bool_decide.
    + rewrite lookup_delete_ne by done. repeat case_bool_decide; try done; exfalso;
        rewrite elem_of_cons in *; naive_solver.
Qed.

Lemma mem_step_ok self self' : mem_ok self -> mem_step self self' -> mem_ok self'.
Proof.
  intros [Hb Hf Hl] Hs. pose proof (total_bytes_nonneg (store self)) as Hpos.
  destruct Hs as [self h s Hh Hfit|self l Hnd Hfresh Hfit|self h|self l]; simpl.
  - split; simpl; [|done|done]. rewrite total_bytes_insert in * by done. rewrite Hb.
    pose proof (sidecar_size_nonneg s). unfold wrapping_add_u64. rewrite wrap_u64_small; [lia|].
    unfold is_u64. lia.
  - unfold mem_insert_all. destruct l as [|e l]; [done|].
    pose proof (insert_loop_exact (e :: l) (store self) 0 Hnd Hfresh ltac:(lia) ltac:(lia)) as ->.
    split; simpl; [|done|done]. rewrite Hb. unfold wrapping_add_u64.
    rewrite wrap_u64_small; [lia|]. unfold is_u64.
    pose proof (total_bytes_nonneg (list_to_map (e :: l) ∪ store self)). simpl in *. lia.
  - pose proof (total_bytes_delete (store self) h). pose proof (total_bytes_nonneg (delete h (store self))).
    split; simpl; [|unfold remove_size in *|done].
    + rewrite Hb. unfold saturating_sub_u64. lia.
    + destruct (store self !! h) as [s|]; [pose proof (sidecar_size_nonneg s)|]; lia.
  - unfold mem_delete_all. destruct l as [|k l]; [done|].
    destruct (delete_loop_exact (k :: l) (store self) 0 ltac:(lia) ltac:(lia)) as (m' & -> & Hle & _).
    pose proof (total_bytes_nonneg m').
    split; simpl; [|lia|done]. rewrite Hb. unfold saturating_sub_u64. lia.
Qed.

(** The counters of the store in memory are exact: in every state reached by
    inserting new hashes and deleting, while the sizes fit 64 bits, the recorded size is the sum of the
    sizes of the stored sidecars and the recorded number is how many there are. *)
Theorem mem_sizes_exact self :
  rtc mem_step mem_default self ->
  bs_data_size_hint self = Some (total_bytes (store self)) /\
  bs_blobs_len self = Z.of_nat (size (store self)).
Proof.
  intros Hr. enough (Hok : mem_ok self) by (destruct Hok as [Hb _ Hl]; simpl; by rewrite Hb, Hl).
  assert (H0' : mem_ok mem_default) by (by split). revert H0'.
  induction Hr as [|s1 s2 s3 Hs _ IH]; [done|]. eauto using mem_step_ok.
Qed.

(** *** A store as a map *)

(** What the pool relies on of a store: it is a map from hashes to sidecars. *)
Class BlobStoreLaws (S : Type) `{!BlobStoreTrait S} := {
  bs_view : S -> gmap Z Sidecar;
  bsl_get s h : bs_get s h = Ok (bs_view s !! h);
  bsl_contains s h : bs_contains s h = Ok (bool_decide (is_Some (bs_view s !! h)));
  bsl_insert s h x : bs_view (bs_insert s h x).1 = <[h := x]> (bs_view s);
  bsl_delete s h : bs_view (bs_delete s h).1 = delete h (bs_view s);
  bsl_delete_all s l h : bs_view (bs_delete_all s l).1 !! h =
    if bool_decide (h ∈ l) then None else bs_view s !! h;
  bsl_cleanup s : bs_view (bs_cleanup s).1 = bs_view s;
}.

Lemma delete_loop_lookup l m acc h :
  (delete_loop m l acc).1 !! h = if bool_decide (h ∈ l) then None else m !! h.
Proof.
  revert m acc. induction l as [|k l IH]; intros m acc; simpl; [done|]. rewrite IH.
  destruct (decide (h = k)) as [->|Hne].
  - rewrite lookup_delete_eq, (bool_decide_eq_true_2 (k ∈ k :: l)) by (by left). by case_bool_decide.
  - rewrite lookup_delete_ne by done. repeat case_bool_decide; try done; exfalso;
      rewrite elem_of_cons in *; naive_solver.
Qed.

#[export] Instance mem_laws : BlobStoreLaws InMemoryBlobStore.
Proof.
  refine {| bs_view := store |}; try done.
  intros s l h. simpl. unfold mem_delete_all. destruct l as [|k l]; [done|].
  rewrite <- (delete_loop_lookup (k :: l) (store s) 0 h). by destruct (delete_loop _ _ _).
Defined.

(** *** Look-up by the hashes of the blobs *)

Definition is_found {B} (found : list (option B)) (i : nat) : Prop := exists b, found !! i = Some (Some b).

Lemma all_found_spec {B} (found : list (option B)) :
  all_found found = true <-> forall i, (i < length found)%nat -> is_found found i.
Proof.
  unfold all_found. rewrite forallb_forall. split.
  - intros Hall i Hi. destruct (lookup_lt_is_Some_2 found i Hi) as [ob Hob].
    specialize (Hall ob (proj1 (list_elem_of_In _ _) (list_elem_of_lookup_2 _ _ _ Hob))).
    destruct ob as [b|]; [|done]. by exists b.
  - intros Hall ob Hin%list_elem_of_In. apply list_elem_of_lookup_1 in Hin as [i Hi].
    destruct (Hall i) as [b Hb]; [by eapply lookup_lt_Some|]. rewrite Hi in Hb. by simplify_eq.
Qed.

Lemma put_matches_spec {B} (ms : list (nat * B)) found :
  (forall i b, (i, b) ∈ ms -> (i < length found)%nat) ->
  exists found', put_matches ms found = Some found' /\ length found' = length found /\
    (forall i b, found' !! i = Some (Some b) -> found !! i = Some (Some b) \/ (i, b) ∈ ms) /\
    (forall i, is_found found i \/ (exists b, (i, b) ∈ ms) -> is_found found' i).
Proof.
  revert found. induction ms as [|[k b] ms IH]; intros found Hin; simpl.
  - exists found. split_and!; try done; [by left|]. intros i [?|[b Hb]]; [done|by apply elem_of_nil in Hb].
  - assert (Hk : (k < length found)%nat) by (apply (Hin k b); by left).
    destruct (Nat.ltb_spec k (length found)); [|lia].
    destruct (IH (<[k := Some b]> found)) as (found' & -> & Hlen & Hfrom & Hto).
    { intros i b' Hb'. rewrite length_insert. apply (Hin i b'). by right. }
    rewrite length_insert in Hlen. exists found'. split_and!; [done|done| |].
    + intros i b' Hb'. destruct (Hfrom i b' Hb') as [Hl|Hl]; [|right; by right].
      rewrite list_lookup_insert in Hl. case_decide as E; [|by left].
      right. destruct E as [-> _]. simplify_eq. by left.
    + intros i Hi. apply Hto. destruct (decide (i = k)) as [->|Hne].
      * left. exists b. by rewrite list_lookup_insert_eq.
      * destruct Hi as [[b' Hb']|[b' Hb']]; [left; exists b'; by rewrite list_lookup_insert_ne|].
        right. exists b'. apply elem_of_cons in Hb' as [?|?]; [by simplify_eq|done].
Qed.

(** Indices that the sidecars report are positions of the request. *)
Definition in_range {B} (matches : Sidecar -> option (list (nat * B))) (n : nat) : Prop :=
  forall s ms i b, matches s = Some ms -> (i, b) ∈ ms -> (i < n)%nat.

Lemma find_loop_spec {B} (matches : Sidecar -> option (list (nat * B))) entries found :
  in_range matches (length found) ->
  exists found', find_loop matches entries found = Some found' /\ length found' = length found /\
    (forall i b, found' !! i = Some (Some b) -> found !! i = Some (Some b) \/
       exists h s ms, (h, s) ∈ entries /\ matches s = Some ms /\ (i, b) ∈ ms) /\
    (forall i, is_found found i \/
       (exists h s ms b, (h, s) ∈ entries /\ matches s = Some ms /\ (i, b) ∈ ms) -> is_found found' i).
Proof.
  revert found. induction entries as [|[h s] entries IH]; intros found Hr; simpl.
  { exists found. split_and!; try done; [by left|]. intros i [?|(? & ? & ? & ? & Hn & _)]; [done|].
    by apply elem_of_nil in Hn. }
  assert (Hput : exists found1, match matches s with
      | Some ms => put_matches ms found | None => Some found end = Some found1 /\
      length found1 = length found /\
      (forall i b, found1 !! i = Some (Some b) -> found !! i = Some (Some b) \/
         exists ms, matches s = Some ms /\ (i, b) ∈ ms) /\
      (forall i, is_found found i \/ (exists ms b, matches s = Some ms /\ (i, b) ∈ ms) -> is_found found1 i)).
  { destruct (matches s) as [ms|] eqn:E.
    - destruct (put_matches_spec ms found) as (f1 & -> & Hlen & Hfrom & Hto); [by intros; eapply Hr|].
      exists f1. split_and!; [done|done|naive_solver|naive_solver].
    - exists found. split_and!; [done|done|by left|naive_solver]. }
  destruct Hput as (found1 & -> & Hlen1 & Hfrom1 & Hto1). simpl.
  destruct (all_found found1) eqn:Eall.
  - exists found1. split_and!; [done|done| |].
    + intros i b Hb. destruct (Hfrom1 i b Hb) as [?|(ms & ? & ?)]; [by left|right].
      exists h, s, ms. split; [by left|done].
    + intros i Hi. apply (all_found_spec found1); [done|]. rewrite Hlen1.
      destruct Hi as [[b Hb]|(h' & s' & ms & b & _ & Hm & Hb)]; [by eapply lookup_lt_Some|by eapply Hr].
  - destruct (IH found1) as (found' & -> & Hlen & Hfrom & Hto); [by rewrite Hlen1|].
    exists found'. split_and!; [done|congruence| |].
    + intros i b Hb. destruct (Hfrom i b Hb) as [Hl|(h' & s' & ms & Hin & ? & ?)].
      * destruct (Hfrom1 i b Hl) as [?|(ms & ? & ?)]; [by left|right].
        exists h, s, ms. split; [by left|done].
      * right. exists h', s', ms. split; [by right|done].
    + intros i Hi. apply Hto. destruct Hi as [Hi|(h' & s' & ms & b & Hin & Hm & Hb)]; [left; by apply Hto1; left|].
      apply elem_of_cons in Hin as [Heq|Hin]; [simplify_eq; left; apply Hto1; right; by exists ms, b|].
      right. by exists h', s', ms, b.
Qed.

Lemma not_found_initially {B} n i : ~ is_found (replicate n (@None B)) i.
Proof. intros [b Hb]. by apply lookup_replicate in Hb as [? _]. Qed.

(** Looking blobs up by their versioned hashes.  In whatever order the store
    is iterated, and although the search stops early, version 1 answers every
    hash that a stored sidecar of the first kind has, with a blob of such a
    sidecar, and no other; version 2 answers if and only if every hash is found
    in a stored sidecar of the second kind, and then it answers all of them. *)
Theorem versioned_hashes_complete self iteration hashes :
  iteration ≡ₚ map_to_list (store self) ->
  in_range (matches_v1 hashes) (length hashes) -> in_range (matches_v2 hashes) (length hashes) ->
  (exists found, get_by_versioned_hashes_v1 iteration hashes = Some (Ok found) /\
     length found = length hashes /\
     (forall i b, found !! i = Some (Some b) ->
        exists h s, store self !! h = Some s /\ sidecar_is_eip4844 s = true /\ (i, b) ∈ match_hashes_v1 s hashes) /\
     forall h s i b, store self !! h = Some s -> sidecar_is_eip4844 s = true ->
       (i, b) ∈ match_hashes_v1 s hashes -> is_found found i) /\
  (exists answer, get_by_versioned_hashes_v2 iteration hashes = Some (Ok answer) /\
     (is_Some answer <-> forall i, (i < length hashes)%nat ->
        exists h s b, store self !! h = Some s /\ sidecar_is_eip7594 s = true /\ (i, b) ∈ match_hashes_v2 s hashes) /\
     forall blobs, answer = Some blobs -> length blobs = length hashes /\
       forall i b, blobs !! i = Some b ->
         exists h s, store self !! h = Some s /\ (i, b) ∈ match_hashes_v2 s hashes).
Proof.
  intros Hit Hr1 Hr2.
  assert (Hin : forall h s, (h, s) ∈ iteration <-> store self !! h = Some s)
    by (intros; by rewrite Hit, elem_of_map_to_list).
  split.
  - destruct (find_loop_spec (matches_v1 hashes) iteration (replicate (length hashes) None))
      as (found & Hf & Hlen & Hfrom & Hto); [by rewrite length_replicate|].
    unfold get_by_versioned_hashes_v1. rewrite Hf. simpl. exists found.
    rewrite length_replicate in Hlen. split_and!; [done|done| |].
    + intros i b Hb. destruct (Hfrom i b Hb) as [Hn|(h & s & ms & Hhs & Hm & Hb')].
      { exfalso. apply (not_found_initially (B := BlobAndProofV1) (length hashes) i). by exists b. }
      apply Hin in Hhs. unfold matches_v1 in Hm. destruct (sidecar_is_eip4844 s) eqn:E; [|done].
      simplify_eq. by exists h, s.
    + intros h s i b Hs Hk Hb. apply Hto. right. exists h, s, (match_hashes_v1 s hashes), b.
      rewrite Hin. unfold matches_v1. by rewrite Hk.
  - destruct (find_loop_spec (matches_v2 hashes) iteration (replicate (length hashes) None))
      as (found & Hf & Hlen & Hfrom & Hto); [by rewrite length_replicate|].
    unfold get_by_versioned_hashes_v2. rewrite Hf. simpl. rewrite length_replicate in Hlen.
    assert (Hsrc : forall i b, found !! i = Some (Some b) -> exists h s,
      store self !! h = Some s /\ sidecar_is_eip7594 s = true /\ (i, b) ∈ match_hashes_v2 s hashes).
    { intros i b Hb. destruct (Hfrom i b Hb) as [Hn|(h & s & ms & Hhs & Hm & Hb')].
      { exfalso. apply (not_found_initially (B := BlobAndProofV2) (length hashes) i). by exists b. }
      apply Hin in Hhs. unfold matches_v2 in Hm. destruct (sidecar_is_eip7594 s) eqn:E; [|done].
      simplify_eq. by exists h, s. }
    destruct (all_found found) eqn:Eall.
    + pose proof (proj1 (all_found_spec found) Eall) as Hall.
      assert (exists blobs, mapM id found = Some blobs) as [blobs Hblobs].
      { apply mapM_is_Some_2. apply Forall_forall. intros ob [i Hi]%list_elem_of_lookup_1.
        destruct (Hall i) as [b Hb]; [by eapply lookup_lt_Some|]. rewrite Hi in Hb. simplify_eq. by exists b. }
      rewrite Hblobs. simpl. exists (Some blobs). split_and!; [done| |].
      * split; [|by eauto]. intros _ i Hi. destruct (Hall i) as [b Hb]; [lia|].
        destruct (Hsrc i b Hb) as (h & s & ?). by exists h, s, b.
      * intros bs [= <-]. pose proof (length_mapM _ _ _ Hblobs). split; [congruence|].
        intros i b Hb. apply mapM_Some in Hblobs.
        destruct (Forall2_lookup_r _ _ _ _ _ Hblobs Hb) as (ob & Hob & Heq).
        simpl in Heq. subst ob. destruct (Hsrc i b Hob) as (h & s & ? & _ & ?). by exists h, s.
    + exists None. split_and!; [done| |done]. split; [by intros [? ?]|].
      intros Hex. exfalso. apply not_true_iff_false in Eall. apply Eall, all_found_spec.
      intros i Hi. destruct (Hex i) as (h & s & b & Hs & Hk & Hb); [lia|].
      apply Hto. right. exists h, s, (match_hashes_v2 s hashes), b. rewrite Hin. unfold matches_v2. by rewrite Hk.
Qed.

End stores.

(** ** Examples *)

Section examples.
#[local] Existing Instance example_alloy.

(** Sidecars of one blob of 100 bytes; a sidecar of either version has the blob
    with hash 1 or 2. *)
#[local] Instance example_sidecars : SidecarTypes.
Proof.
  refine {| sidecar_size _ := 100; BlobAndProofV1 := Z; BlobAndProofV2 := Z;
     match_hashes_v1 _ hs := (fun e => (e.1, 10)) <$> List.filter (fun e => e.2 =? 1) (imap pair hs);
     match_hashes_v2 _ hs := (fun e => (e.1, 20)) <$> List.filter (fun e => e.2 =? 2) (imap pair hs) |}.
  intros _. lia.
Defined.

Definition example_sidecar (b : bool) : @BlobTransactionSidecarVariant example_alloy := b.

Definition example_store : InMemoryBlobStore :=
  (mem_insert (mem_insert mem_default 5 (example_sidecar false)).1 6 (example_sidecar true)).1.

Lemma mem_sizes_exact_witness :
  bs_data_size_hint (mem_delete example_store 5).1 = Some 100 /\
  bs_blobs_len (mem_delete example_store 5).1 = 1.
Proof.
  destruct (mem_sizes_exact (mem_delete example_store 5).1) as [H1 H2].
  - eapply rtc_l; [apply (step_insert mem_default 5 (example_sidecar false)); vm_compute; reflexivity|].
    eapply rtc_l; [apply (step_insert _ 6 (example_sidecar true)); vm_compute; reflexivity|].
    eapply rtc_l; [apply step_delete|apply rtc_refl].
  - rewrite H1, H2. split; vm_compute; reflexivity.
Defined.

Lemma versioned_hashes_complete_witness :
  exists found, get_by_versioned_hashes_v1 (map_to_list (store example_store)) [1; 3] = Some (Ok found) /\
    is_found found 0.
Proof.
  destruct (versioned_hashes_complete example_store (map_to_list (store example_store)) [1; 3])
    as [(found & Hf & _ & _ & Hall) _].
  - reflexivity.
  - intros s ms i b. unfold matches_v1. destruct (sidecar_is_eip4844 s); [|discriminate].
    intros [= <-]. simpl. intros [[= -> ->]|Hn]%elem_of_cons; [lia|by apply elem_of_nil in Hn].
  - intros s ms i b. unfold matches_v2. destruct (sidecar_is_eip7594 s); [|discriminate].
    intros [= <-]. simpl. intros Hn. by apply elem_of_nil in Hn.
  - exists found. split; [exact Hf|]. apply (Hall 5 (example_sidecar false) 0%nat 10); [reflexivity|reflexivity|].
    simpl. by left.
Defined.

(** [get_exact] is documented to return an error if a blob is missing; the store
    in memory leaves the missing ones out. *)
Theorem mem_get_exact_skips : bs_get_exact example_store [5; 9; 6] = Ok [example_sidecar false; example_sidecar true].
Proof. vm_compute. reflexivity. Qed.

(** Inserting a hash again counts its size twice, and deleting it does not undo it. *)
Theorem mem_reinsert_drifts :
  let self := (mem_insert example_store 5 (example_sidecar false)).1 in
  bs_data_size_hint self = Some 300 /\ bs_blobs_len self = 2 /\
  bs_data_size_hint (mem_delete_all self [5; 6]).1 = Some 100 /\ bs_blobs_len (mem_delete_all self [5; 6]).1 = 0.
Proof. vm_compute. by split_and!. Qed.

End examples.

End BlobStore.
