(* ===== verification/PoolEvents.v ===== *)
(** * Events and listeners of the pool

    [crates/transaction-pool/src/pool/events.rs] and [pool/listener.rs]: the
    events of transactions, and the listeners they are sent to.  A channel is
    shared by its sender, which the pool keeps, and its receiver, which the
    subscriber keeps: channels live in a store and both ends are names in it.  What
    is in a channel's queue has been sent and not been received yet. *)

From S2P Require Import Prelude Ordered TxErrors TxIdentifier TxState TxTypes EthTransaction.
Import TxErrors Identifier TxState TxTypes EthTx.

(** ** Channels *)

(** A channel of [tokio::sync::mpsc]; [None] is an unbounded one. *)
Record Channel (A : Type) := mkChannel {
  capacity : option Z;
  queue : list A;
  rx_dropped : bool;
}.
Arguments mkChannel {A}.
Arguments capacity {A}.
Arguments queue {A}.
Arguments rx_dropped {A}.

Record Channels (A : Type) := mkChannels {
  chan : gmap Z (Channel A);
  next_chan : Z;
}.
Arguments mkChannels {A}.
Arguments chan {A}.
Arguments next_chan {A}.

Inductive SendResult := Sent | Full | Closed.

Definition no_channels {A} : Channels A := mkChannels ∅ 0.

Definition new_channel {A} (cs : Channels A) (cap : option Z) : Channels A * Z :=
  (mkChannels (<[next_chan cs := mkChannel cap [] false]> (chan cs)) (next_chan cs + 1), next_chan cs).

Definition is_full {A} (c : Channel A) : bool :=
  match capacity c with
  | Some n => n <=? Z.of_nat (length (queue c))
  | None => false
  end.

(** [try_send] of a bounded, [send] of an unbounded channel. *)
Definition try_send {A} (cs : Channels A) (id : Z) (x : A) : Channels A * SendResult :=
  match chan cs !! id with
  | None => (cs, Closed)
  | Some c =>
      if rx_dropped c then (cs, Closed)
      else if is_full c then (cs, Full)
      else (mkChannels (<[id := mkChannel (capacity c) (queue c ++ [x]) false]> (chan cs)) (next_chan cs), Sent)
  end.

(** [Vec::retain] with a closure that sends [x] to each sender. *)
Fixpoint retain_send {A} (keep : SendResult -> bool) (cs : Channels A) (senders : list Z) (x : A)
  : Channels A * list Z :=
  match senders with
  | [] => (cs, [])
  | id :: senders =>
      let '(cs, r) := try_send cs id x in
      let '(cs, kept) := retain_send keep cs senders x in
      (cs, if keep r then id :: kept else kept)
  end.

(** The subscriber's side: receiving the next message, and dropping the receiver. *)
Definition receive {A} (cs : Channels A) (id : Z) : Channels A * option A :=
  match chan cs !! id with
  | Some (mkChannel cap (x :: q) false) =>
      (mkChannels (<[id := mkChannel cap q false]> (chan cs)) (next_chan cs), Some x)
  | _ => (cs, None)
  end.

Definition drop_receiver {A} (cs : Channels A) (id : Z) : Channels A :=
  match chan cs !! id with
  | Some c => mkChannels (<[id := mkChannel (capacity c) (queue c) true]> (chan cs)) (next_chan cs)
  | None => cs
  end.

Module PoolEvents.

Section events.
Context `{AlloyConstants} `{AlloyTypes}.

(** ** Events *)

Inductive PropagateKind := PropagateFull (peer : Z) | PropagateHash (peer : Z).

Inductive FullTransactionEvent :=
| FullPending (hash : Z)
| FullQueued (hash : Z)
| FullMined (tx_hash block_hash : Z)
| FullReplaced (transaction : ValidPoolTransaction) (replaced_by : Z)
| FullDiscarded (hash : Z)
| FullInvalid (hash : Z)
| FullPropagated (peers : list PropagateKind).

Inductive TransactionEvent :=
| EvPending
| EvQueued
| EvMined (block_hash : Z)
| EvReplaced (replaced_by : Z)
| EvDiscarded
| EvInvalid
| EvPropagated (peers : list PropagateKind).

Definition is_final (self : TransactionEvent) : bool :=
  match self with EvReplaced _ | EvMined _ | EvDiscarded => true | _ => false end.

Record NewTransactionEvent := mkNewTransactionEvent {
  event_subpool : SubPool;
  event_transaction : ValidPoolTransaction;
}.

Definition event_pending (transaction : ValidPoolTransaction) : NewTransactionEvent :=
  mkNewTransactionEvent Pending transaction.

Record NewBlobSidecar := mkNewBlobSidecar {
  sidecar_tx_hash : Z;
  new_sidecar : BlobTransactionSidecarVariant;
}.

(** ** Broadcasting events *)

Definition TX_POOL_EVENT_CHANNEL_SIZE : Z := 1024.

(** The senders are names of channels of [tx_events] and [all_events]. *)
Record PoolEventBroadcast := mkBroadcast {
  all_events_broadcaster : list Z;
  broadcasters_by_hash : gmap Z (list Z);
  all_events : Channels FullTransactionEvent;
  tx_events : Channels TransactionEvent;
}.

Definition broadcast_default : PoolEventBroadcast := mkBroadcast [] ∅ no_channels no_channels.
Implicit Types self : PoolEventBroadcast.

(** [AllPoolEventsBroadcaster::broadcast] and [PoolEventBroadcaster::broadcast]:
    which senders are kept. *)
Definition keep_unless_closed (r : SendResult) : bool := match r with Closed => false | _ => true end.
Definition keep_if_sent (r : SendResult) : bool := match r with Sent => true | _ => false end.

Definition broadcast_event self (hash : Z) (event : TransactionEvent) (pool_event : FullTransactionEvent)
  : PoolEventBroadcast :=
  let '(by_hash, tx_chans) :=
    match broadcasters_by_hash self !! hash with
    | Some senders =>
        let '(cs, senders) := retain_send keep_if_sent (tx_events self) senders event in
        (if (match senders with [] => true | _ => false end || is_final event)%bool
         then delete hash (broadcasters_by_hash self)
         else <[hash := senders]> (broadcasters_by_hash self), cs)
    | None => (broadcasters_by_hash self, tx_events self)
    end in
  let '(all_chans, all) :=
    retain_send keep_unless_closed (all_events self) (all_events_broadcaster self) pool_event in
  mkBroadcast all by_hash all_chans tx_chans.

Definition broadcast_is_empty self : bool :=
  (match all_events_broadcaster self with [] => true | _ => false end &&
   bool_decide (broadcasters_by_hash self = ∅))%bool.

(** Subscribing returns the name of the new channel. *)
Definition subscribe self (tx_hash : Z) : PoolEventBroadcast * Z :=
  let '(cs, tx) := new_channel (tx_events self) None in
  (mkBroadcast (all_events_broadcaster self)
     (<[tx_hash := default [] (broadcasters_by_hash self !! tx_hash) ++ [tx]]> (broadcasters_by_hash self))
     (all_events self) cs, tx).

Definition subscribe_all self : PoolEventBroadcast * Z :=
  let '(cs, tx) := new_channel (all_events self) (Some TX_POOL_EVENT_CHANNEL_SIZE) in
  (mkBroadcast (all_events_broadcaster self ++ [tx]) (broadcasters_by_hash self) cs (tx_events self), tx).

Definition replaced self (tx : ValidPoolTransaction) (replaced_by : Z) : PoolEventBroadcast :=
  broadcast_event self (vhash tx) (EvReplaced replaced_by) (FullReplaced tx replaced_by).

Definition pending self (tx : Z) (replaced_tx : option ValidPoolTransaction) : PoolEventBroadcast :=
  let self := broadcast_event self tx EvPending (FullPending tx) in
  match replaced_tx with
  | Some replaced_tx => replaced self replaced_tx tx
  | None => self
  end.

Definition queued self (tx : Z) : PoolEventBroadcast := broadcast_event self tx EvQueued (FullQueued tx).
Definition propagated self (tx : Z) (peers : list PropagateKind) : PoolEventBroadcast :=
  broadcast_event self tx (EvPropagated peers) (FullPropagated peers).
Definition discarded self (tx : Z) : PoolEventBroadcast :=
  broadcast_event self tx EvDiscarded (FullDiscarded tx).
Definition invalid self (tx : Z) : PoolEventBroadcast :=
  broadcast_event self tx EvInvalid (FullInvalid tx).
Definition mined self (tx block_hash : Z) : PoolEventBroadcast :=
  broadcast_event self tx (EvMined block_hash) (FullMined tx block_hash).

Definition discarded_many self (txs : list ValidPoolTransaction) : PoolEventBroadcast :=
  if broadcast_is_empty self then self else foldl (fun self tx => discarded self (vhash tx)) self txs.

(** ** Listeners for new transactions *)

Inductive TransactionListenerKind := All | PropagateOnly.

Definition is_propagate_only (self : TransactionListenerKind) : bool :=
  match self with PropagateOnly => true | All => false end.

(** [PendingTransactionHashListener] and [TransactionListener]. *)
Record Listener := mkListener { listener_sender : Z; listener_kind : TransactionListenerKind }.

(** A vector of listeners and their channels. *)
Record Listeners (A : Type) := mkListeners { listeners : list Listener; listener_chans : Channels A }.

(** [send_all] of both: it stops at the first message that cannot be sent. *)
Fixpoint send_all {A} (cs : Channels A) (sender : Z) (items : list A) : Channels A * bool :=
  match items with
  | [] => (cs, true)
  | x :: items =>
      match try_send cs sender x with
      | (cs, Sent) => send_all cs sender items
      | (cs, Full) => (cs, true)
      | (cs, Closed) => (cs, false)
      end
  end.

Definition sender_is_closed {A} (cs : Channels A) (sender : Z) : bool :=
  match chan cs !! sender with Some c => rx_dropped c | None => true end.

(** [retain_mut] over the listeners with a closure that sends. *)
Fixpoint retain_listeners {A} (f : Channels A -> Listener -> Channels A * bool)
  (cs : Channels A) (ls : list Listener) : Channels A * list Listener :=
  match ls with
  | [] => (cs, [])
  | l :: ls =>
      let '(cs, keep) := f cs l in
      let '(cs, kept) := retain_listeners f cs ls in
      (cs, if keep then l :: kept else kept)
  end.

(** [PendingTransactionIter] and [FullPendingTransactionIter]: the transactions a
    listener of this kind is told about. *)
Definition listener_txs (kind : TransactionListenerKind) (txs : list ValidPoolTransaction)
  : list ValidPoolTransaction :=
  List.filter (fun tx => negb (is_propagate_only kind && negb (propagate tx))) txs.

(** ** What subscribers receive *)

Lemma try_send_spec {A} (cs cs' : Channels A) id x r j :
  try_send cs id x = (cs', r) ->
  next_chan cs' = next_chan cs /\
  (j <> id -> chan cs' !! j = chan cs !! j) /\
  (forall c, chan cs !! id = Some c -> rx_dropped c = false -> is_full c = false ->
     r = Sent /\ chan cs' !! id = Some (mkChannel (capacity c) (queue c ++ [x]) false)) /\
  (is_Some (chan cs !! j) -> is_Some (chan cs' !! j)) /\
  (forall c, chan cs !! j = Some c -> exists c', chan cs' !! j = Some c' /\ capacity c' = capacity c).
Proof.
  unfold try_send. destruct (chan cs !! id) as [c|] eqn:E; [|intros [= <- <-]; split_and!; [done|done|congruence|done|eauto]].
  destruct (rx_dropped c) eqn:Ed; [intros [= <- <-]; split_and!; [done|done|congruence|done|eauto]|].
  destruct (is_full c) eqn:Ef; [intros [= <- <-]; split_and!; [done|done|congruence|done|eauto]|].
  intros [= <- <-]. simpl. split_and!; [done|by intros; rewrite lookup_insert_ne| | |].
  - intros c' [= <-] _ _. split; [done|]. by rewrite lookup_insert_eq.
  - intros Hj. destruct (decide (j = id)) as [->|Hne]; [by rewrite lookup_insert_eq|by rewrite lookup_insert_ne].
  - intros c' Hj. destruct (decide (j = id)) as [->|Hne].
    + rewrite lookup_insert_eq. eexists. split; [done|]. simpl. congruence.
    + rewrite lookup_insert_ne by done. eauto.
Qed.

Lemma retain_send_spec {A} keep (x : A) senders cs cs' kept :
  retain_send keep cs senders x = (cs', kept) -> NoDup senders ->
  next_chan cs' = next_chan cs /\ kept `sublist_of` senders /\
  (forall j, j ∉ senders -> chan cs' !! j = chan cs !! j) /\
  (forall j c, j ∈ senders -> chan cs !! j = Some c -> rx_dropped c = false -> is_full c = false ->
     (keep Sent = true -> j ∈ kept) /\ chan cs' !! j = Some (mkChannel (capacity c) (queue c ++ [x]) false)) /\
  (forall j c, chan cs !! j = Some c -> exists c', chan cs' !! j = Some c' /\ capacity c' = capacity c).
Proof.
  revert cs kept. induction senders as [|id senders IH]; intros cs kept; simpl.
  { intros [= <- <-] _. split_and!; [done|done|done| |naive_solver]. intros j c Hj. by apply elem_of_nil in Hj. }
  destruct (try_send cs id x) as [cs1 r] eqn:E1. destruct (retain_send keep cs1 senders x) as [cs2 k2] eqn:E2.
  intros [= <- <-] [Hid Hnd]%NoDup_cons.
  destruct (IH cs1 k2 E2 Hnd) as (N2 & S2 & O2 & D2 & C2).
  pose proof (fun j => try_send_spec cs cs1 id x r j E1) as T. destruct (T id) as (N1 & _).
  split_and!.
  - congruence.
  - destruct (keep r); by constructor.
  - intros j [Hj1 Hj2]%not_elem_of_cons. rewrite O2 by done. by apply (T j).
  - intros j c [->|Hj]%elem_of_cons Hc Hd Hf.
    + destruct (T id) as (_ & _ & Hsend & _). destruct (Hsend c Hc Hd Hf) as [-> Hs].
      rewrite O2 by done. split; [|done]. intros ->. by left.
    + assert (j <> id) by (by intros ->). destruct (T j) as (_ & Hsame & _).
      rewrite <- Hsame in Hc by done. destruct (D2 j c Hj Hc Hd Hf) as [Hk ?].
      split; [|done]. intros Hkeep. destruct (keep r); [right|]; by apply Hk.
  - intros j c Hc. destruct (T j) as (_ & _ & _ & _ & Hcap). destruct (Hcap c Hc) as (c1 & Hc1 & E).
    destruct (C2 j c1 Hc1) as (c2 & Hc2 & E'). exists c2. split; [done|congruence].
Qed.

(** The names in use are new ones, each with one hash; subscriptions are
    unbounded. *)
Record bus_ok self : Prop := {
  bk_NoDup h l : broadcasters_by_hash self !! h = Some l -> NoDup l;
  bk_one h h' l l' id : broadcasters_by_hash self !! h = Some l ->
    broadcasters_by_hash self !! h' = Some l' -> id ∈ l -> id ∈ l' -> h = h';
  bk_below h l id : broadcasters_by_hash self !! h = Some l -> id ∈ l -> id < next_chan (tx_events self);
  bk_unbounded id c : chan (tx_events self) !! id = Some c -> capacity c = None;
}.

(** What the pool does with the broadcaster. *)
Inductive bus_step : PoolEventBroadcast -> PoolEventBroadcast -> Prop :=
| bus_event self h ev full : bus_step self (broadcast_event self h ev full)
| bus_subscribe self h : bus_step self (subscribe self h).1
| bus_subscribe_all self : bus_step self (subscribe_all self).1.

(** The channel [id] gets no more events. *)
Definition settled_channel self (id : Z) : Prop :=
  id < next_chan (tx_events self) /\ forall h l, broadcasters_by_hash self !! h = Some l -> id ∉ l.

Lemma broadcast_event_ok self h ev full :
  bus_ok self ->
  let self' := broadcast_event self h ev full in
  bus_ok self' /\ next_chan (tx_events self') = next_chan (tx_events self) /\
  (forall h' l', broadcasters_by_hash self' !! h' = Some l' ->
     exists l, broadcasters_by_hash self !! h' = Some l /\ l' `sublist_of` l /\ (h' = h -> is_final ev = false)) /\
  (forall id, (forall l, broadcasters_by_hash self !! h = Some l -> id ∉ l) ->
     chan (tx_events self') !! id = chan (tx_events self) !! id) /\
  (forall l id c, broadcasters_by_hash self !! h = Some l -> id ∈ l ->
     chan (tx_events self) !! id = Some c -> rx_dropped c = false ->
     chan (tx_events self') !! id = Some (mkChannel None (queue c ++ [ev]) false) /\
     (is_final ev = false -> exists l', broadcasters_by_hash self' !! h = Some l' /\ id ∈ l')).
Proof.
  intros [B1 B2 B3 B4]. cbv zeta. unfold broadcast_event.
  destruct (retain_send keep_unless_closed _ _ _) as [acs all].
  destruct (broadcasters_by_hash self !! h) as [l|] eqn:Eh.
  2:{ split_and!; [by split|done| |done|done]. simpl. intros h' l' Hl'. exists l'.
      split_and!; [done|done|]. intros ->. congruence. }
  destruct (retain_send keep_if_sent (tx_events self) l ev) as [cs kept] eqn:Er.
  destruct (retain_send_spec _ _ _ _ _ _ Er (B1 h l Eh)) as (N & S & O & D & C).
  set (by_hash := if (_ || _)%bool then _ else _).
  assert (Hsub : forall h' l', by_hash !! h' = Some l' ->
    exists l0, broadcasters_by_hash self !! h' = Some l0 /\ l' `sublist_of` l0 /\ (h' = h -> is_final ev = false)).
  { intros h' l'. unfold by_hash. destruct (_ || _)%bool eqn:Eb.
    - rewrite lookup_delete_Some. intros [Hne Hl]. exists l'. by split_and!.
    - apply orb_false_iff in Eb as [_ Ef]. destruct (decide (h' = h)) as [->|Hne].
      + rewrite lookup_insert_eq. intros [= <-]. by exists l.
      + rewrite lookup_insert_ne by done. intros Hl. exists l'. by split_and!. }
  assert (Hcap : forall id c, chan cs !! id = Some c -> capacity c = None).
  { intros id c Hc. destruct (chan (tx_events self) !! id) as [c0|] eqn:E0.
    - destruct (C id c0 E0) as (c' & Hc' & E'). rewrite Hc in Hc'. simplify_eq. rewrite E'. by eapply B4.
    - destruct (decide (id ∈ l)) as [Hin|Hin]; [|rewrite O in Hc by done; congruence].
      clear -Er Hc E0. exfalso. revert kept Er E0. generalize (tx_events self) as cs0. induction l as [|k l IH]; intros cs0 kept; simpl.
      { intros [= -> <-]. congruence. }
      destruct (try_send cs0 k ev) as [cs1 r] eqn:E1. destruct (retain_send _ cs1 l ev) as [cs2 k2] eqn:E2.
      intros [= <- <-] H0'. apply (IH cs1 k2 E2). unfold try_send in E1.
      destruct (chan cs0 !! k) as [c1|] eqn:Ek; [|by simplify_eq].
      destruct (rx_dropped c1); [by simplify_eq|]. destruct (is_full c1); [by simplify_eq|]. simplify_eq. simpl.
      rewrite lookup_insert_ne; [done|]. intros ->. congruence. }
  split_and!; simpl; try done.
  - split; simpl; [| | |done].
    + intros h' l' Hl'. destruct (Hsub h' l' Hl') as (l0 & Hl0 & Hs & _). eapply sublist_NoDup; [|exact Hs]. eauto.
    + intros h1 h2 l1 l2 id H1 H2 I1 I2. destruct (Hsub _ _ H1) as (m1 & M1 & S1 & _).
      destruct (Hsub _ _ H2) as (m2 & M2 & S2 & _).
      apply (B2 _ _ _ _ id M1 M2); [exact (elem_of_sublist _ _ _ I1 S1)|exact (elem_of_sublist _ _ _ I2 S2)].
    + intros h' l' id Hl' Hi. destruct (Hsub _ _ Hl') as (l0 & Hl0 & Hs & _). rewrite N.
      eapply B3; [done|]. by eapply elem_of_sublist.
  - intros id Hid. apply O. by apply Hid.
  - intros l0 id c [= <-] Hin Hc Hd.
    assert (Hcn := B4 id c Hc). destruct (D id c Hin Hc Hd) as [Hk Hch]; [unfold is_full; by rewrite Hcn|].
    rewrite Hcn in Hch. split; [done|]. intros Hf. exists kept. split; [|by apply Hk].
    unfold by_hash. rewrite Hf, orb_false_r. destruct kept; [|by rewrite lookup_insert_eq].
    specialize (Hk eq_refl). by apply elem_of_nil in Hk.
Qed.

Lemma subscribe_ok self h :
  bus_ok self ->
  let '(self', id) := subscribe self h in
  bus_ok self' /\ id = next_chan (tx_events self) /\ next_chan (tx_events self') = id + 1 /\
  (forall j, j <> id -> chan (tx_events self') !! j = chan (tx_events self) !! j) /\
  chan (tx_events self') !! id = Some (mkChannel None [] false) /\
  (forall h' l', broadcasters_by_hash self' !! h' = Some l' ->
     forall j, j ∈ l' -> j = id \/ exists l, broadcasters_by_hash self !! h' = Some l /\ j ∈ l) /\
  exists l, broadcasters_by_hash self' !! h = Some l /\ id ∈ l.
Proof.
  intros [B1 B2 B3 B4]. unfold subscribe. simpl. set (n := next_chan (tx_events self)) in *.
  set (l0 := default [] (broadcasters_by_hash self !! h)).
  assert (Hl0 : forall j, j ∈ l0 -> exists l, broadcasters_by_hash self !! h = Some l /\ j ∈ l).
  { intros j. unfold l0. destruct (broadcasters_by_hash self !! h) as [l|]; simpl; [eauto|].
    intros Hj. by apply elem_of_nil in Hj. }
  assert (Hfrom : forall h' l', <[h := l0 ++ [n]]> (broadcasters_by_hash self) !! h' = Some l' ->
    forall j, j ∈ l' -> (j = n /\ h' = h) \/ exists l, broadcasters_by_hash self !! h' = Some l /\ j ∈ l).
  { intros h' l' Hl' j Hj. destruct (decide (h' = h)) as [->|Hne].
    - rewrite lookup_insert_eq in Hl'. simplify_eq. apply elem_of_app in Hj as [Hj|Hj%list_elem_of_singleton].
      + right. by apply Hl0.
      + by left.
    - rewrite lookup_insert_ne in Hl' by done. right. eauto. }
  assert (Hold : forall h' l j, broadcasters_by_hash self !! h' = Some l -> j ∈ l -> j <> n).
  { intros h' l j Hl Hj ->. specialize (B3 _ _ _ Hl Hj). lia. }
  split_and!; [|done|done|by intros; rewrite lookup_insert_ne|by rewrite lookup_insert_eq| |].
  - split; simpl.
    + intros h' l' Hl'. destruct (decide (h' = h)) as [->|Hne]; [|rewrite lookup_insert_ne in Hl' by done; eauto].
      rewrite lookup_insert_eq in Hl'. simplify_eq. apply NoDup_app. split_and!.
      * unfold l0. destruct (broadcasters_by_hash self !! h) as [l|] eqn:E; simpl; [eauto|constructor].
      * intros j Hj ->%list_elem_of_singleton. destruct (Hl0 _ Hj) as (l & Hl & Hin). by eapply Hold.
      * apply NoDup_singleton.
    + intros h1 h2 l1 l2 j H1 H2 I1 I2.
      destruct (Hfrom _ _ H1 j I1) as [[E1 E1']|(m1 & M1 & J1)], (Hfrom _ _ H2 j I2) as [[E2 E2']|(m2 & M2 & J2)];
        [congruence|by destruct (Hold _ _ _ M2 J2)|by destruct (Hold _ _ _ M1 J1)|eauto].
    + intros h' l' j Hl' Hj. destruct (Hfrom _ _ Hl' j Hj) as [[-> _]|(l & Hl & Hin)]; [lia|].
      specialize (B3 _ _ _ Hl Hin). lia.
    + intros j c. destruct (decide (j = n)) as [->|Hne].
      * rewrite lookup_insert_eq. intros [= <-]. done.
      * rewrite lookup_insert_ne by done. eauto.
  - intros h' l' Hl' j Hj. destruct (Hfrom _ _ Hl' j Hj) as [[-> _]|?]; [by left|by right].
  - exists (l0 ++ [n]). rewrite lookup_insert_eq. split; [done|]. apply elem_of_app. right. by left.
Qed.

Lemma bus_step_settled self self' id :
  bus_ok self -> settled_channel self id -> bus_step self self' ->
  bus_ok self' /\ settled_channel self' id /\ chan (tx_events self') !! id = chan (tx_events self) !! id.
Proof.
  intros Hok [Hlt Hout] Hs. destruct Hs as [self h ev full|self h|self].
  - destruct (broadcast_event_ok self h ev full Hok) as (Hok' & N & Hsub & Hsame & _).
    split_and!; [done| |apply Hsame; eauto]. split; [by rewrite N|].
    intros h' l' Hl' Hin. destruct (Hsub h' l' Hl') as (l & Hl & Hs & _). eapply Hout; [done|].
    by eapply elem_of_sublist.
  - pose proof (subscribe_ok self h Hok) as Hsub. destruct (subscribe self h) as [self' k]. simpl.
    destruct Hsub as (Hok' & -> & N & Hsame & _ & Hfrom & _).
    split_and!; [done| |apply Hsame; lia]. split; [lia|].
    intros h' l' Hl' Hin. destruct (Hfrom h' l' Hl' id Hin) as [->|(l & Hl & Hi)]; [lia|]. by eapply Hout.
  - split_and!; [|done|done]. destruct Hok. by split.
Qed.

Lemma bus_default_ok : bus_ok broadcast_default.
Proof. split; simpl; intros *; rewrite ?lookup_empty; done. Qed.

Lemma bus_step_ok self self' : bus_ok self -> bus_step self self' -> bus_ok self'.
Proof.
  intros Hok Hs. destruct Hs as [self h ev full|self h|self].
  - by apply broadcast_event_ok.
  - pose proof (subscribe_ok self h Hok) as Hsub. by destruct (subscribe self h), Hsub.
  - destruct Hok. by split.
Qed.

(** The subscriber reads its channel or drops it. *)
Inductive reader_step : PoolEventBroadcast -> PoolEventBroadcast -> Prop :=
| reader_receive self id : reader_step self
    (mkBroadcast (all_events_broadcaster self) (broadcasters_by_hash self) (all_events self)
       (receive (tx_events self) id).1)
| reader_drop self id : reader_step self
    (mkBroadcast (all_events_broadcaster self) (broadcasters_by_hash self) (all_events self)
       (drop_receiver (tx_events self) id)).

Lemma reader_step_ok self self' : bus_ok self -> reader_step self self' -> bus_ok self'.
Proof.
  intros [B1 B2 B3 B4] Hs.
  assert (Hgen : forall cs, next_chan cs = next_chan (tx_events self) ->
    (forall j c, chan cs !! j = Some c -> capacity c = None) ->
    bus_ok (mkBroadcast (all_events_broadcaster self) (broadcasters_by_hash self) (all_events self) cs)).
  { intros cs N C. split; simpl; rewrite ?N; done. }
  destruct Hs as [self id|self id]; apply Hgen.
  - unfold receive. by repeat case_match.
  - unfold receive. intros j c. destruct (chan (tx_events self) !! id) as [[cap [|x q] []]|] eqn:E; simpl; eauto.
    destruct (decide (j = id)) as [->|Hne]; [|rewrite lookup_insert_ne by done; eauto].
    rewrite lookup_insert_eq. intros [= <-]. exact (B4 id _ E).
  - unfold drop_receiver. by case_match.
  - unfold drop_receiver. intros j c. destruct (chan (tx_events self) !! id) as [c0|] eqn:E; simpl; eauto.
    destruct (decide (j = id)) as [->|Hne]; [|rewrite lookup_insert_ne by done; eauto].
    rewrite lookup_insert_eq. intros [= <-]. exact (B4 id _ E).
Qed.

(** Events of a transaction.  In every state reached by broadcasting,
    subscribing, receiving and dropping, a subscriber of a hash that has not
    dropped its receiver gets each event of that hash, appended to what it
    received before, and none of other hashes; it stays subscribed until a final event
    (mined, replaced, discarded), and after that one, whatever the pool does, it
    gets nothing more. *)
Theorem events_until_final self h l id c :
  rtc (fun s s' => bus_step s s' \/ reader_step s s') broadcast_default self ->
  broadcasters_by_hash self !! h = Some l -> id ∈ l ->
  chan (tx_events self) !! id = Some c -> rx_dropped c = false ->
  (forall h' ev full, h' <> h -> let self' := broadcast_event self h' ev full in
     chan (tx_events self') !! id = Some c /\ broadcasters_by_hash self' !! h = Some l) /\
  (forall ev full, is_final ev = false -> let self' := broadcast_event self h ev full in
     chan (tx_events self') !! id = Some (mkChannel None (queue c ++ [ev]) false) /\
     exists l', broadcasters_by_hash self' !! h = Some l' /\ id ∈ l') /\
  (forall ev full self', is_final ev = true -> rtc bus_step (broadcast_event self h ev full) self' ->
     chan (tx_events self') !! id = Some (mkChannel None (queue c ++ [ev]) false)).
Proof.
  intros Hreach Hl Hid Hc Hd.
  assert (Hok : bus_ok self).
  { assert (H0' := bus_default_ok). revert H0'.
    induction Hreach as [|s1 s2 s3 [Hs|Hs] _ IH]; [done| |]; intros Hok; apply IH; try done;
      eauto using bus_step_ok, reader_step_ok. }
  split_and!.
  - intros h' ev full Hne. cbv zeta. destruct (broadcast_event_ok self h' ev full Hok) as (_ & _ & _ & Hsame & _).
    split.
    + rewrite Hsame; [done|]. intros l' Hl' Hin. apply Hne. by eapply (bk_one _ Hok _ _ _ _ id Hl' Hl).
    + unfold broadcast_event. destruct (retain_send keep_unless_closed _ _ _).
      destruct (broadcasters_by_hash self !! h') as [l'|]; [|done].
      destruct (retain_send keep_if_sent _ _ _). simpl.
      destruct (_ || _)%bool; [by rewrite lookup_delete_ne|by rewrite lookup_insert_ne].
  - intros ev full Hf. destruct (broadcast_event_ok self h ev full Hok) as (_ & _ & _ & _ & Hto).
    destruct (Hto l id c Hl Hid Hc Hd) as [? ?]. auto.
  - intros ev full self' Hf Hsteps.
    destruct (broadcast_event_ok self h ev full Hok) as (Hok1 & N & Hsub & _ & Hto).
    destruct (Hto l id c Hl Hid Hc Hd) as [Hch _]. set (s1 := broadcast_event self h ev full) in *.
    assert (Hset : settled_channel s1 id).
    { split; [rewrite N; by eapply bk_below|]. intros h' l' Hl' Hin.
      destruct (Hsub h' l' Hl') as (l0 & Hl0 & Hs & Hnf).
      assert (h' = h) as -> by (eapply (bk_one _ Hok _ _ _ _ id Hl0 Hl); [by eapply elem_of_sublist|done]).
      rewrite Hnf in Hf; done. }
    rewrite <- Hch. clear Hch Hto Hsub N. clearbody s1.
    induction Hsteps as [|s1 s2 s3 Hs _ IH]; [done|].
    destruct (bus_step_settled s1 s2 id Hok1 Hset Hs) as (Hok2 & Hset2 & <-). by apply IH.
Qed.

End events.

Arguments mkListeners {A}.
Arguments listeners {A}.
Arguments listener_chans {A}.

(** ** Witness *)

Section examples.
#[local] Existing Instance mainnet_constants.

Definition example_bus : PoolEventBroadcast := (subscribe broadcast_default 5).1.

(** A subscriber of hash 5 sees that it is discarded, and not what comes after. *)
Lemma events_until_final_witness :
  chan (tx_events (queued (discarded example_bus 5) 5)) !! 0 = Some (mkChannel None [EvDiscarded] false).
Proof.
  destruct (events_until_final example_bus 5 [0] 0 (mkChannel None [] false)) as (_ & _ & Hfinal).
  - eapply rtc_l; [left; apply (bus_subscribe broadcast_default 5)|apply rtc_refl].
  - vm_compute. reflexivity.
  - by left.
  - vm_compute. reflexivity.
  - reflexivity.
  - apply (Hfinal EvDiscarded (FullDiscarded 5) (queued (discarded example_bus 5) 5)); [reflexivity|].
    eapply rtc_l; [apply (bus_event (discarded example_bus 5) 5 EvQueued (FullQueued 5))|apply rtc_refl].
Defined.

End examples.

End PoolEvents.
