(* ===== verification/SubPoolSpec.v ===== *)
(** * What the pool expects of a sub-pool

    The pending, parked and blob pools hold transactions by identifier and
    differ in the indices they keep beside it.  [SubPoolImpl] is what the pool
    that owns them ([TxPool]) relies on: seen as a finite map from identifier
    to transaction, adding inserts, removing deletes, and neither panics.

    The file also has the loop shape the fee updates of all sub-pools share:
    walk the transactions by sender and nonce and, at the first one of a sender
    that fails a test, drop it with everything of that sender behind it. *)

From S2P Require Import Prelude Ordered TxErrors TxIdentifier TxState TxTypes.
Import Identifier TxState TxTypes.

Module SubPoolSpec.

(** ** Total size of a set of transactions *)

Definition total_size (m : gmap TransactionId ValidPoolTransaction) : Z :=
  map_fold (fun _ tx acc => vsize tx + acc) 0 m.

Lemma total_size_empty : total_size ∅ = 0.
Proof. apply map_fold_empty. Qed.

Lemma total_size_insert m i tx :
  m !! i = None -> total_size (<[i := tx]> m) = vsize tx + total_size m.
Proof.
  intros Hi. unfold total_size.
  rewrite (map_fold_insert_L (fun _ tx acc => vsize tx + acc)); [done| |done].
  intros. lia.
Qed.

Lemma total_size_delete m i tx :
  m !! i = Some tx -> total_size (delete i m) = total_size m - vsize tx.
Proof.
  intros Hi. rewrite <- (insert_delete_id m i tx Hi) at 2.
  rewrite total_size_insert by apply lookup_delete_eq. lia.
Qed.

(** ** The interface *)

Class SubPoolImpl (P : Type) := {
  (** the transactions held *)
  sp_txs : P -> gmap TransactionId ValidPoolTransaction;
  (** the invariant between the indices *)
  sp_ok : P -> Prop;
  (** additions left before the submission counter wraps around *)
  sp_room : P -> Z;
  (** what may be added without a panic *)
  sp_accepts : ValidPoolTransaction -> Prop;
  (** the operations; [None] is a panic *)
  sp_add : Z -> P -> ValidPoolTransaction -> option P;
  sp_remove : P -> TransactionId -> option (P * option ValidPoolTransaction);
  sp_len : P -> Z;
  sp_size : P -> Z;

  sp_ids p i tx : sp_ok p -> sp_txs p !! i = Some tx -> transaction_id tx = i;
  sp_add_ok bf p tx :
    sp_ok p -> sp_txs p !! transaction_id tx = None -> sp_accepts tx -> 0 < sp_room p ->
    exists p', sp_add bf p tx = Some p' /\ sp_ok p' /\
      sp_txs p' = <[transaction_id tx := tx]> (sp_txs p) /\ sp_room p' = sp_room p - 1;
  sp_remove_ok p i :
    sp_ok p ->
    exists p', sp_remove p i = Some (p', sp_txs p !! i) /\ sp_ok p' /\
      sp_txs p' = delete i (sp_txs p) /\ sp_room p' = sp_room p;
  sp_len_ok p : sp_len p = Z.of_nat (size (sp_txs p));
  sp_size_ok p : sp_ok p -> sp_size p = wrap_u64 (total_size (sp_txs p));
}.

(** ** Evictions *)

Abbreviation TxMap := (gmap TransactionId ValidPoolTransaction) (only parsing).

(** Removing a list of transactions from a set of them, one by one. *)
Definition delete_txs (m : TxMap) (removed : list ValidPoolTransaction) : TxMap :=
  foldl (fun m tx => delete (transaction_id tx) m) m removed.

(** [removed] are distinct transactions of [m]; [m'] is what is left. *)
Record evicts (m : TxMap) (removed : list ValidPoolTransaction) (m' : TxMap) : Prop := {
  ev_rest : m' = delete_txs m removed;
  ev_NoDup : NoDup (transaction_id <$> removed);
  ev_from tx : tx ∈ removed -> m !! transaction_id tx = Some tx;
}.

Lemma lookup_delete_txs m removed i :
  delete_txs m removed !! i =
  if bool_decide (i ∈ transaction_id <$> removed) then None else m !! i.
Proof.
  revert m. induction removed as [|tx removed IH]; intros m; simpl; [done|].
  rewrite IH. destruct (decide (i = transaction_id tx)) as [->|Hi].
  - rewrite lookup_delete_eq. rewrite (bool_decide_eq_true_2 (_ ∈ _ :: _)) by set_solver.
    by case_bool_decide.
  - rewrite lookup_delete_ne by done. repeat case_bool_decide; set_solver.
Qed.

Lemma evicts_nil m : evicts m [] m.
Proof. split; [done|constructor|set_solver]. Qed.

Lemma evicts_app m r1 m1 r2 m2 :
  evicts m r1 m1 -> evicts m1 r2 m2 -> evicts m (r1 ++ r2) m2.
Proof.
  intros [E1 N1 F1] [E2 N2 F2]. split.
  - unfold delete_txs. rewrite foldl_app. by rewrite E2, E1.
  - rewrite fmap_app, NoDup_app. split_and!; [done| |done].
    intros i Hi (tx & -> & Htx)%list_elem_of_fmap. specialize (F2 tx Htx).
    rewrite E1, lookup_delete_txs, bool_decide_eq_true_2 in F2; done.
  - intros tx [Htx|Htx]%elem_of_app; [auto|]. specialize (F2 tx Htx).
    rewrite E1, lookup_delete_txs in F2. by case_bool_decide.
Qed.

Lemma evicts_one m tx :
  m !! transaction_id tx = Some tx -> evicts m [tx] (delete (transaction_id tx) m).
Proof. intros Htx. split; [done| |set_solver]. apply NoDup_singleton. Qed.

Lemma evicts_lookup m r m' i tx :
  evicts m r m' -> m' !! i = Some tx -> m !! i = Some tx.
Proof. intros [-> _ _]. rewrite lookup_delete_txs. by case_bool_decide. Qed.

Lemma evicts_removed m r m' i tx :
  evicts m r m' -> m !! i = Some tx -> m' !! i = None -> tx ∈ r.
Proof.
  intros [-> _ F] Hm. rewrite lookup_delete_txs. case_bool_decide as Hi; [|congruence].
  intros _. apply list_elem_of_fmap in Hi as (tx' & -> & Hin). rewrite (F tx') in Hm by done.
  by simplify_eq.
Qed.

Lemma evicts_cons m tx r m' :
  evicts m (tx :: r) m' ->
  m !! transaction_id tx = Some tx /\ evicts (delete (transaction_id tx) m) r m'.
Proof.
  intros [E N F]. rewrite fmap_cons, NoDup_cons in N. destruct N as [N1 N2].
  split; [apply F; set_solver|]. split; [done|done|].
  intros tx' Htx'. rewrite lookup_delete_ne; [set_solver|].
  intros Heq. apply N1. rewrite Heq. by apply list_elem_of_fmap_2.
Qed.

Lemma evicts_perm m r r' m' : r ≡ₚ r' -> evicts m r m' -> evicts m r' m'.
Proof.
  intros Hp [E N F]. split.
  - apply map_eq. intros i. rewrite E, !lookup_delete_txs.
    apply (f_equal (fun b : bool => if b then None else m !! i)), bool_decide_ext. by rewrite Hp.
  - by rewrite <- Hp.
  - intros tx Htx. apply F. by rewrite Hp.
Qed.

Lemma evicts_intro m r m' :
  NoDup (transaction_id <$> r) -> (forall tx, tx ∈ r -> m !! transaction_id tx = Some tx) ->
  (forall i, m' !! i = if bool_decide (i ∈ transaction_id <$> r) then None else m !! i) -> evicts m r m'.
Proof. intros Hnd Hr Hm. split; [|done|done]. apply map_eq. intros i. by rewrite Hm, lookup_delete_txs. Qed.

Lemma evicts_size m r m' : evicts m r m' -> size m = (length r + size m')%nat.
Proof.
  revert m. induction r as [|tx r IH]; intros m Hev; simpl; [by rewrite (ev_rest _ _ _ Hev)|].
  apply evicts_cons in Hev as [Htx Hev]. rewrite <- (IH _ Hev).
  rewrite <- (insert_delete_id m _ _ Htx) at 1.
  by rewrite map_size_insert_None by apply lookup_delete_eq.
Qed.

Lemma evicts_total_size m r m' :
  evicts m r m' -> total_size m' = total_size m - foldr (fun tx acc => vsize tx + acc) 0 r.
Proof.
  revert m. induction r as [|tx r IH]; intros m Hev; simpl.
  - rewrite (ev_rest _ _ _ Hev). simpl. lia.
  - apply evicts_cons in Hev as [Htx Hev]. rewrite (IH _ Hev), (total_size_delete _ _ _ Htx). lia.
Qed.

(** Deleting identifiers from a map. *)
Definition delete_ids {A} (m : gmap TransactionId A) (ids : list TransactionId)
  : gmap TransactionId A := foldl (fun m i => delete i m) m ids.

Lemma lookup_delete_ids {A} (m : gmap TransactionId A) ids i :
  delete_ids m ids !! i = if bool_decide (i ∈ ids) then None else m !! i.
Proof.
  revert m. induction ids as [|j ids IH]; intros m; simpl; [done|].
  rewrite IH. destruct (decide (i = j)) as [->|Hi].
  - rewrite lookup_delete_eq. rewrite (bool_decide_eq_true_2 (_ ∈ _ :: _)) by set_solver.
    by case_bool_decide.
  - rewrite lookup_delete_ne by done. repeat case_bool_decide; set_solver.
Qed.

(** ** Walking the transactions sender by sender *)

Section scan.
Context {A : Type} (bad : A -> bool).
Implicit Types (l : list (TransactionId * A)) (skip : option SenderId).

(** [while let Some((id, tx)) = iter.next()] with the inner [while let
    Some((peek, _)) = iter.peek()] loop as the state [skip]: [Some s] while the
    inner loop is discarding the entries of sender [s].  Returns the entries
    that were kept and those that were dropped. *)
Fixpoint scan_senders skip l : list (TransactionId * A) * list (TransactionId * A) :=
  match l with
  | [] => ([], [])
  | (i, a) :: l =>
      if bool_decide (skip = Some (sender i)) then
        let '(kept, dropped) := scan_senders skip l in (kept, (i, a) :: dropped)
      else if bad a then
        let '(kept, dropped) := scan_senders (Some (sender i)) l in (kept, (i, a) :: dropped)
      else
        let '(kept, dropped) := scan_senders None l in ((i, a) :: kept, dropped)
  end.

Lemma scan_perm skip l :
  (scan_senders skip l).1 ++ (scan_senders skip l).2 ≡ₚ l.
Proof.
  revert skip. induction l as [|[i a] l IH]; intros skip; simpl; [done|].
  case_bool_decide; [specialize (IH skip)|
    destruct (bad a); [specialize (IH (Some (sender i)))|specialize (IH None)]].
  all: destruct (scan_senders _ l) as [kept dropped]; simpl in *; rewrite <- IH.
  1,2: by rewrite <- Permutation_middle.
  done.
Qed.

Lemma scan_kept_elem skip l p : p ∈ (scan_senders skip l).1 -> p ∈ l.
Proof. intros Hp. rewrite <- (scan_perm skip l). by apply elem_of_app; left. Qed.

Lemma scan_dropped_elem skip l p : p ∈ (scan_senders skip l).2 -> p ∈ l.
Proof. intros Hp. rewrite <- (scan_perm skip l). by apply elem_of_app; right. Qed.

Lemma scan_keys_NoDup skip l :
  NoDup l.*1 -> NoDup ((scan_senders skip l).1.*1 ++ (scan_senders skip l).2.*1).
Proof. intros Hnd. rewrite <- fmap_app. by rewrite scan_perm. Qed.

(** A kept entry: neither it nor an earlier one of its sender is bad. *)
Definition sender_prefix_good l (i : TransactionId) : Prop :=
  forall j b, (j, b) ∈ l -> sender j = sender i -> id_le j i -> bad b = false.

Lemma scan_kept_spec skip l i a :
  StronglySorted (entry_le (V:=A)) l -> NoDup l.*1 ->
  (forall s, skip = Some s -> Forall (fun p => s <= sender p.1) l) ->
  (i, a) ∈ (scan_senders skip l).1 <->
  (i, a) ∈ l /\ skip <> Some (sender i) /\ sender_prefix_good l i.
Proof.
  intros Hs. revert skip. induction Hs as [|[j b] l Hs IH Hall]; intros skip Hnd Hskip; simpl.
  { set_solver. }
  rewrite fmap_cons, NoDup_cons in Hnd. destruct Hnd as [Hj Hnd].
  rewrite Forall_forall in Hall. unfold entry_le in Hall; simpl in Hall.
  assert (Htail : forall p, p ∈ l -> sender j <= sender p.1).
  { intros p Hp. specialize (Hall p Hp). unfold key_le in Hall; simpl in Hall. unfold id_le in Hall. lia. }
  assert (Hhd : (i, a) ∈ l -> id_le j i) by (intros Hin; exact (Hall _ Hin)).
  assert (Hnot : (i, a) ∈ l -> j <> i).
  { intros Hin ->. apply Hj. by apply (list_elem_of_fmap_2 fst l (i, a)). }
  assert (Hgood : (i, a) ∈ l -> sender_prefix_good ((j, b) :: l) i <->
            (sender j = sender i -> bad b = false) /\ sender_prefix_good l i).
  { intros Hin. unfold sender_prefix_good. setoid_rewrite elem_of_cons. split.
    - intros H. split; [|naive_solver]. intros Hsnd. apply (H j b); auto.
    - intros [H1 H2] k c [[= -> ->]|Hk]; [auto|]. by apply H2. }
  case_bool_decide as Hsk; [|destruct (bad b) eqn:Hb].
  - destruct (scan_senders skip l) as [kept dropped] eqn:Hscan. simpl.
    specialize (IH skip Hnd). rewrite Hscan in IH. simpl in IH. rewrite IH.
    2:{ intros s ->. simplify_eq. by apply Forall_forall. }
    rewrite elem_of_cons. split.
    + intros (Hin & Hne & Hg). split_and!; [auto|done|].
      apply Hgood; [done|]. split; [|done]. intros Heq. congruence.
    + intros ([[= -> ->]|Hin] & Hne & Hg); [done|]. split_and!; [done|done|].
      by apply Hgood in Hg as [_ ?].
  - destruct (scan_senders (Some (sender j)) l) as [kept dropped] eqn:Hscan. simpl.
    specialize (IH (Some (sender j)) Hnd). rewrite Hscan in IH. simpl in IH. rewrite IH.
    2:{ intros s [= <-]. by apply Forall_forall. }
    rewrite elem_of_cons. split.
    + intros (Hin & Hne & Hg). split_and!; [auto| |].
      * intros Heq. subst skip. specialize (Hskip _ eq_refl). rewrite Forall_forall in Hskip.
        specialize (Hskip (j, b) ltac:(set_solver)). simpl in Hskip.
        specialize (Htail _ Hin). simpl in Htail. congruence || (apply Hsk; f_equal; lia).
      * apply Hgood; [done|]. split; [|done]. intros Heq. congruence.
    + intros ([[= -> ->]|Hin] & Hne & Hg).
      { specialize (Hg j b ltac:(set_solver) eq_refl). rewrite Hg in Hb; [done|].
        unfold id_le. lia. }
      apply Hgood in Hg as [Hg1 Hg2]; [|done]. split_and!; [done| |done].
      intros [= Heq]. specialize (Hg1 Heq). congruence.
  - destruct (scan_senders None l) as [kept dropped] eqn:Hscan. simpl.
    specialize (IH None Hnd). rewrite Hscan in IH. simpl in IH.
    rewrite !elem_of_cons, IH by done. split.
    + intros [[= -> ->]|(Hin & _ & Hg)].
      * split_and!; [auto|done|]. intros k c [[= -> ->]|Hk]%elem_of_cons Hsnd Hle; [done|].
        exfalso. specialize (Hall _ Hk). simpl in Hall.
        assert (k = j) as -> by (by apply (anti_symm id_le)).
        apply Hj. by apply (list_elem_of_fmap_2 fst l (j, c)).
      * split_and!; [auto| |apply Hgood; auto].
        intros ->. specialize (Hskip _ eq_refl). rewrite Forall_forall in Hskip.
        specialize (Hskip (j, b) ltac:(set_solver)). simpl in Hskip.
        specialize (Htail _ Hin). simpl in Htail. apply Hsk. f_equal. lia.
    + intros ([[= -> ->]|Hin] & Hne & Hg); [auto|]. right.
      apply Hgood in Hg as [_ ?]; done.
Qed.

End scan.

(** On the entries of a map: kept are exactly the transactions for which no
    transaction of the sender with a lower or the same nonce is bad. *)
Lemma scan_map_spec {A} (bad : A -> bool) (m : gmap TransactionId A) i a :
  (i, a) ∈ (scan_senders bad None (bt_entries m)).1 <->
  m !! i = Some a /\
  (forall j b, m !! j = Some b -> sender j = sender i -> nonce j <= nonce i -> bad b = false).
Proof.
  rewrite scan_kept_spec; [|apply bt_entries_sorted|apply NoDup_bt_keys|done].
  rewrite elem_of_bt_entries. unfold sender_prefix_good. setoid_rewrite elem_of_bt_entries.
  split.
  - intros (? & _ & Hg). split; [done|]. intros j b Hj Hs Hn. apply (Hg j b Hj Hs).
    unfold id_le. lia.
  - intros (? & Hg). split_and!; [done|done|]. intros j b Hj Hs Hle. apply (Hg j b Hj Hs).
    unfold id_le in Hle. lia.
Qed.

(** The dropped transactions are an eviction that leaves the kept ones. *)
Lemma scan_evicts {A} (proj : A -> ValidPoolTransaction) (bad : A -> bool)
    (m : gmap TransactionId A) :
  (forall i a, m !! i = Some a -> transaction_id (proj a) = i) ->
  let r := scan_senders bad None (bt_entries m) in
  evicts (proj <$> m) ((fun e => proj e.2) <$> r.2) (proj <$> (list_to_map r.1 : gmap _ _)).
Proof.
  intros Hkey r.
  pose proof (scan_keys_NoDup bad None (bt_entries m) (NoDup_bt_keys m)) as Hnd.
  fold r in Hnd. apply NoDup_app in Hnd as (Hnd1 & Hdisj & Hnd2).
  assert (Hin : forall e, e ∈ r.2 -> m !! e.1 = Some e.2).
  { intros [i a] He%scan_dropped_elem. by apply elem_of_bt_entries. }
  assert (Hids : transaction_id <$> ((fun e => proj e.2) <$> r.2) = r.2.*1).
  { rewrite <- list_fmap_compose. apply list_fmap_ext. intros n e He. simpl.
    apply list_elem_of_lookup_2 in He. by apply Hkey, Hin. }
  split.
  - apply map_eq. intros i. rewrite lookup_delete_txs, Hids, !lookup_fmap.
    case_bool_decide as Hi.
    + assert (i ∉ r.1.*1) as Hk by (intros Hk; by apply (Hdisj i)).
      by rewrite (not_elem_of_list_to_map_1 _ _ Hk).
    + f_equal. destruct (m !! i) as [a|] eqn:Ha.
      * apply lookup_list_to_map_keys; [done|].
        apply elem_of_bt_entries in Ha. rewrite <- (scan_perm bad None) in Ha.
        apply elem_of_app in Ha as [|Ha]; [done|]. destruct Hi.
        by apply (list_elem_of_fmap_2 fst _ (i, a)).
      * apply not_elem_of_list_to_map_1. intros ([k a] & -> & Hk%scan_kept_elem)%list_elem_of_fmap.
        apply elem_of_bt_entries in Hk. simpl in *. congruence.
  - by rewrite Hids.
  - intros tx ([k a] & -> & Hk%Hin)%list_elem_of_fmap. simpl in *.
    rewrite (Hkey k) by done. by rewrite lookup_fmap, Hk.
Qed.

End SubPoolSpec.
