(* ===== verification/ParkedPool.v ===== *)
(** * Parked sub-pools

    [crates/transaction-pool/src/pool/parked.rs]: [ParkedPool], the pool behind
    both the base-fee and the queued sub-pool.  A [None] result of an operation
    is a panic ([unreachable!], [assert!], [expect]) or a loop that has not
    ended within its fuel; the theorems exclude both. *)

From S2P Require Import Prelude Ordered TxErrors TxIdentifier TxState TxTypes SubPoolSpec.
Import Identifier TxState TxTypes SubPoolSpec.

Module Parked.

(** ** Data *)

Record ParkedPoolTransaction := mkParked {
  pt_submission_id : Z;
  pt_transaction : ValidPoolTransaction;
}.

Record SubmissionSenderId := mkSubmission { sub_sender : SenderId; sub_id : Z }.

Record SenderTransactionCount := mkCount { cnt : Z; last_submission_id : Z }.

Record ParkedPool := mkParkedPool {
  submission_id : Z;
  by_id : gmap TransactionId ParkedPoolTransaction;
  last_sender_submission : list SubmissionSenderId;
  sender_transaction_count : gmap SenderId SenderTransactionCount;
  size_of : SizeTracker;
}.

Definition parked_default : ParkedPool := mkParkedPool 0 ∅ [] ∅ size_default.

(** [impl Ord for SubmissionSenderId]: reverse order of the submission. *)
Definition submission_cmp (a b : SubmissionSenderId) : comparison :=
  Z.compare (sub_id b) (sub_id a).

(** [Ordering::then_with]. *)
Definition then_with (a b : comparison) : comparison :=
  match a with Eq => b | _ => a end.

(** [BasefeeOrd], [QueuedOrd] and [Ord for ParkedPoolTransaction]. *)
Definition basefee_cmp (a b : ValidPoolTransaction) : comparison :=
  Z.compare (vmax_fee_per_gas a) (vmax_fee_per_gas b).

Definition queued_cmp (a b : ValidPoolTransaction) : comparison :=
  then_with (Z.compare (vmax_fee_per_gas a) (vmax_fee_per_gas b))
    (Z.compare (timestamp b) (timestamp a)).

Definition parked_cmp (ord : ValidPoolTransaction -> ValidPoolTransaction -> comparison)
  (a b : ParkedPoolTransaction) : comparison :=
  then_with (ord (pt_transaction a) (pt_transaction b))
    (Z.compare (pt_submission_id b) (pt_submission_id a)).

(** ** Operations *)

Definition next_id (self : ParkedPool) : ParkedPool * Z :=
  let id := submission_id self in
  (mkParkedPool (wrapping_add_u64 (submission_id self) 1) (by_id self)
     (last_sender_submission self) (sender_transaction_count self) (size_of self), id).

Definition add_sender_count (self : ParkedPool) (sender : SenderId) (submission : Z)
  : ParkedPool :=
  let '(last, value) :=
    match sender_transaction_count self !! sender with
    | Some value =>
        ((bset_remove submission_cmp (mkSubmission sender (last_submission_id value))
            (last_sender_submission self)).1,
         mkCount (wrapping_add_u64 (cnt value) 1) submission)
    | None => (last_sender_submission self, mkCount 1 submission)
    end in
  mkParkedPool (submission_id self) (by_id self)
    (bset_insert submission_cmp (mkSubmission sender submission) last)
    (<[sender := value]> (sender_transaction_count self)) (size_of self).

Definition add_transaction (self : ParkedPool) (tx : ValidPoolTransaction) : ParkedPool :=
  let id := transaction_id tx in
  let '(self, submission) := next_id self in
  let self := mkParkedPool (submission_id self) (by_id self) (last_sender_submission self)
    (sender_transaction_count self) (size_add (size_of self) (vsize tx)) in
  let self := add_sender_count self (vsender_id tx) submission in
  mkParkedPool (submission_id self) (<[id := mkParked submission tx]> (by_id self))
    (last_sender_submission self) (sender_transaction_count self) (size_of self).

(** Panics when the sender has no count ([unreachable!]) or its last
    submission is not tracked ([assert!]). *)
Definition remove_sender_count (self : ParkedPool) (sender_id : SenderId) : option ParkedPool :=
  match sender_transaction_count self !! sender_id with
  | None => None
  | Some value =>
      let value := mkCount (wrap_u64 (cnt value - 1)) (last_submission_id value) in
      if cnt value =? 0 then
        let '(last, found) := bset_remove submission_cmp
          (mkSubmission sender_id (last_submission_id value)) (last_sender_submission self) in
        if found then
          Some (mkParkedPool (submission_id self) (by_id self) last
                  (delete sender_id (sender_transaction_count self)) (size_of self))
        else None
      else
        Some (mkParkedPool (submission_id self) (by_id self) (last_sender_submission self)
                (<[sender_id := value]> (sender_transaction_count self)) (size_of self))
  end.

Definition remove_transaction (self : ParkedPool) (id : TransactionId)
  : option (ParkedPool * option ValidPoolTransaction) :=
  match by_id self !! id with
  | None => Some (self, None)
  | Some tx =>
      let self := mkParkedPool (submission_id self) (delete id (by_id self))
        (last_sender_submission self) (sender_transaction_count self) (size_of self) in
      self ← remove_sender_count self (vsender_id (pt_transaction tx));
      Some (mkParkedPool (submission_id self) (by_id self) (last_sender_submission self)
              (sender_transaction_count self)
              (size_sub (size_of self) (vsize (pt_transaction tx))),
            Some (pt_transaction tx))
  end.

Definition get_txs_by_sender (self : ParkedPool) (sender : SenderId) : list TransactionId :=
  (sender_range (start_bound sender) (by_id self)).*1.

Definition all (self : ParkedPool) : list ValidPoolTransaction :=
  (fun p => pt_transaction p.2) <$> bt_entries (by_id self).

Definition pool_size (self : ParkedPool) : Z := size_into_usize (size_of self).
Definition len (self : ParkedPool) : Z := Z.of_nat (size (by_id self)).
Definition exceeds (self : ParkedPool) (limit : SubPoolLimit) : bool :=
  limit_is_exceeded limit (len self) (pool_size self).
Definition contains (self : ParkedPool) (id : TransactionId) : bool :=
  bool_decide (is_Some (by_id self !! id)).
Definition get (self : ParkedPool) (id : TransactionId) : option ParkedPoolTransaction :=
  by_id self !! id.

(** The [for] loop of [truncate_pool], which ends early once the pool is
    within the limit. *)
Fixpoint truncate_sender (limit : SubPoolLimit) (self : ParkedPool)
  (txids : list TransactionId) (removed : list ValidPoolTransaction)
  : option (ParkedPool * list ValidPoolTransaction) :=
  match txids with
  | [] => Some (self, removed)
  | txid :: txids =>
      r ← remove_transaction self txid;
      let '(self, tx) := r in
      let removed := match tx with Some tx => removed ++ [tx] | None => removed end in
      if negb (exceeds self limit) then Some (self, removed)
      else truncate_sender limit self txids removed
  end.

(** The [while] loop of [truncate_pool]. *)
Fixpoint truncate_loop (fuel : nat) (limit : SubPoolLimit) (self : ParkedPool)
  (removed : list ValidPoolTransaction) : option (ParkedPool * list ValidPoolTransaction) :=
  match fuel with
  | O => None
  | S fuel =>
      match last (last_sender_submission self) with
      | None => Some (self, removed)
      | Some s =>
          if exceeds self limit then
            r ← truncate_sender limit self
                  (reverse (get_txs_by_sender self (sub_sender s))) removed;
            truncate_loop fuel limit r.1 r.2
          else Some (self, removed)
      end
  end.

Definition truncate_pool (self : ParkedPool) (limit : SubPoolLimit)
  : option (ParkedPool * list ValidPoolTransaction) :=
  if negb (exceeds self limit) then Some (self, [])
  else truncate_loop (S (size (by_id self))) limit self [].

(** ** Operations of the base-fee pool *)

Definition satisfy_base_fee_ids (self : ParkedPool) (basefee : Z) : list TransactionId :=
  (scan_senders (fun tx => vmax_fee_per_gas (pt_transaction tx) <? basefee) None
     (bt_entries (by_id self))).1.*1.

(** [expect("transaction exists")] is the [None]. *)
Definition satisfy_base_fee_transactions (self : ParkedPool) (basefee : Z)
  : option (list ValidPoolTransaction) :=
  mapM (fun id => pt_transaction <$> get self id) (satisfy_base_fee_ids self basefee).

(** [for id in ids { if let Some(tx) = self.remove_transaction(&id) { .. } }]:
    the transactions handed to the handler, in order. *)
Fixpoint remove_each (self : ParkedPool) (ids : list TransactionId)
  : option (ParkedPool * list ValidPoolTransaction) :=
  match ids with
  | [] => Some (self, [])
  | id :: ids =>
      r ← remove_transaction self id;
      rest ← remove_each r.1 ids;
      Some (rest.1, match r.2 with Some tx => tx :: rest.2 | None => rest.2 end)
  end.

Definition enforce_basefee_with (self : ParkedPool) (basefee : Z)
  : option (ParkedPool * list ValidPoolTransaction) :=
  remove_each self (satisfy_base_fee_ids self basefee).

(** ** The invariant *)

#[export] Instance submission_cmp_total : TotalCmp submission_cmp.
Proof.
  unfold submission_cmp. split.
  - intros x y. apply Z.compare_antisym.
  - intros x y z. rewrite !Z.compare_lt_iff. lia.
  - intros x y z. rewrite Z.compare_eq_iff. by intros ->.
Qed.

Definition txs (self : ParkedPool) : gmap TransactionId ValidPoolTransaction :=
  pt_transaction <$> by_id self.

(** How the indices of the pool belong together: entries are filed under their
    identifier, the count of a sender is the number of its transactions, and
    the set of last submissions has exactly one entry per sender.  The
    submission counter has not wrapped around. *)
Record parked_ok (p : ParkedPool) : Prop := {
  ok_key i pt : by_id p !! i = Some pt -> transaction_id (pt_transaction pt) = i;
  ok_nonce i pt : by_id p !! i = Some pt -> 0 <= nonce i;
  ok_count s : match sender_transaction_count p !! s with
    | Some c => cnt c = Z.of_nat (sender_count s (by_id p)) /\ sender_count s (by_id p) <> 0%nat /\
                last_submission_id c < submission_id p
    | None => sender_count s (by_id p) = 0%nat
    end;
  ok_sorted : bset_sorted submission_cmp (last_sender_submission p);
  ok_last x : x ∈ last_sender_submission p <->
    exists c, sender_transaction_count p !! sub_sender x = Some c /\ last_submission_id c = sub_id x;
  ok_fresh : Z.of_nat (size (by_id p)) <= submission_id p < u64_modulus;
  ok_size : pool_size p = wrap_u64 (total_size (txs p));
}.

Lemma parked_ok_default : parked_ok parked_default.
Proof.
  split; simpl.
  - intros i pt. by rewrite lookup_empty.
  - intros i pt. by rewrite lookup_empty.
  - intros s. rewrite lookup_empty. apply sender_count_zero. intros. apply lookup_empty.
  - constructor.
  - intros x. rewrite lookup_empty. set_solver.
  - by vm_compute.
  - done.
Qed.

(** Removing the last submission of a sender from the set. *)
Lemma last_without p s c :
  parked_ok p -> sender_transaction_count p !! s = Some c ->
  let r := bset_remove submission_cmp (mkSubmission s (last_submission_id c))
             (last_sender_submission p) in
  bset_sorted submission_cmp r.1 /\
  (forall x, x ∈ r.1 <-> x ∈ last_sender_submission p /\ sub_sender x <> s) /\ r.2 = true.
Proof.
  intros Hok Hc. set (e := mkSubmission s (last_submission_id c)). intros r.
  assert (He : e ∈ last_sender_submission p) by (apply (ok_last p Hok); eauto).
  destruct (bset_remove_spec submission_cmp e _ (ok_sorted p Hok)) as (Hs & Hin & Hfound).
  split_and!; [done| |apply Hfound; exists e; split; [done|apply cmp_refl, _]].
  intros x. subst r. rewrite Hin. split; intros [Hx Hne]; (split; [done|]).
  - intros Hs'. apply Hne. apply (ok_last p Hok) in Hx as (c' & Hc' & Hl).
    rewrite Hs', Hc in Hc'. simplify_eq. unfold submission_cmp; simpl.
    apply Z.compare_eq_iff. done.
  - intros Heq. apply Hne.
    by rewrite <- (bset_sorted_unique submission_cmp _ e x (ok_sorted p Hok) He Hx Heq).
Qed.

(** What [add_sender_count] does to the two indices. *)
Lemma add_sender_count_ok p s n :
  parked_ok p -> submission_id p = n ->
  let p' := add_sender_count p s n in
  bset_sorted submission_cmp (last_sender_submission p') /\
  (forall x, x ∈ last_sender_submission p' <->
     exists c, sender_transaction_count p' !! sub_sender x = Some c /\ last_submission_id c = sub_id x) /\
  (exists v, sender_transaction_count p' = <[s := v]> (sender_transaction_count p) /\
     last_submission_id v = n /\
     cnt v = wrap_u64 (Z.of_nat (sender_count s (by_id p)) + 1)).
Proof.
  intros Hok Hn p'.
  assert (exists l v,
    p' = mkParkedPool (submission_id p) (by_id p) (bset_insert submission_cmp (mkSubmission s n) l)
           (<[s := v]> (sender_transaction_count p)) (size_of p) /\
    last_submission_id v = n /\ cnt v = wrap_u64 (Z.of_nat (sender_count s (by_id p)) + 1) /\
    bset_sorted submission_cmp l /\
    (forall x, x ∈ l <-> x ∈ last_sender_submission p /\ sub_sender x <> s))
    as (l & v & -> & Hv & Hcnt & Hs & Hl).
  { subst p'. unfold add_sender_count. pose proof (ok_count p Hok s) as Hc.
    destruct (sender_transaction_count p !! s) as [c|] eqn:Es.
    - destruct (last_without p s c Hok Es) as (H1 & H2 & _). destruct Hc as (Hc & _ & _).
      do 2 eexists; split_and!; [done|done| |done|done]. simpl. by rewrite Hc.
    - do 2 eexists; split_and!; [done|done| |apply Hok|].
      + rewrite Hc. done.
      + intros x. split; [|tauto]. intros Hx. split; [done|]. intros Hs. subst s.
        apply (ok_last p Hok) in Hx as (c & Hc' & _). congruence. }
  simpl. split_and!; [by apply bset_insert_sorted; [apply _|]| |eauto].
  intros x. rewrite (bset_insert_fresh submission_cmp), Hl.
  - destruct (decide (sub_sender x = s)) as [<-|Hne].
    + rewrite lookup_insert_eq. split; [intros [->|[_ ?]]; [eauto|done]|].
      intros (c & [= <-] & Hx). left. destruct x; simpl in *. congruence.
    + rewrite lookup_insert_ne by done. rewrite (ok_last p Hok). split; [|naive_solver].
      intros [->|?]; [done|naive_solver].
  - intros z [Hz _]%Hl. apply (ok_last p Hok) in Hz as (c & Hc & Hid).
    pose proof (ok_count p Hok (sub_sender z)) as Hlt. rewrite Hc in Hlt.
    unfold submission_cmp; simpl. rewrite Z.compare_eq_iff. lia.
Qed.

(** One entry per sender: what [assert_invariants] checks. *)
Lemma last_submissions_length p :
  parked_ok p -> length (last_sender_submission p) = size (sender_transaction_count p).
Proof.
  intros Hok. rewrite <- (length_map_to_list (sender_transaction_count p)).
  rewrite <- (length_fmap fst (map_to_list _)), <- (length_fmap sub_sender).
  apply Permutation_length, NoDup_Permutation; [|apply NoDup_fst_map_to_list|].
  - apply NoDup_fmap_2_strong.
    + intros [s n] [s' n'] (c & Hc & Hn)%(ok_last p Hok) (c' & Hc' & Hn')%(ok_last p Hok) Heq.
      simpl in *. congruence.
    + eapply bset_sorted_NoDup; [apply _|apply (ok_sorted p Hok)].
  - intros s. rewrite !list_elem_of_fmap. split.
    + intros ([s' n] & -> & (c & Hc & _)%(ok_last p Hok)). simpl in *.
      exists (s', c). split; [done|]. by apply elem_of_map_to_list.
    + intros ([s' c] & -> & Hc%elem_of_map_to_list).
      exists (mkSubmission s' (last_submission_id c)). split; [done|]. apply (ok_last p Hok). eauto.
Qed.

Lemma txs_insert p i n tx :
  pt_transaction <$> <[i := mkParked n tx]> (by_id p) = <[i := tx]> (txs p).
Proof. unfold txs. by rewrite fmap_insert. Qed.

(** ** Adding and removing *)

Lemma parked_add_transaction_eq p tx :
  let n := submission_id p in
  let q := add_sender_count p (vsender_id tx) n in
  add_transaction p tx =
  mkParkedPool (wrapping_add_u64 n 1) (<[transaction_id tx := mkParked n tx]> (by_id p))
    (last_sender_submission q) (sender_transaction_count q) (size_add (size_of p) (vsize tx)).
Proof.
  unfold add_transaction, add_sender_count, next_id. simpl.
  by destruct (sender_transaction_count p !! vsender_id tx).
Qed.

Lemma parked_add_transaction_ok p tx :
  parked_ok p -> by_id p !! transaction_id tx = None -> 0 <= nonce (transaction_id tx) ->
  submission_id p < u64_modulus - 1 ->
  parked_ok (add_transaction p tx) /\
  txs (add_transaction p tx) = <[transaction_id tx := tx]> (txs p) /\
  submission_id (add_transaction p tx) = submission_id p + 1.
Proof.
  intros Hok Hnew Hnonce Hroom. rewrite parked_add_transaction_eq.
  destruct (add_sender_count_ok p (vsender_id tx) _ Hok eq_refl)
    as (Hs & Hl & v & Hv & Hvl & Hvc).
  pose proof (ok_fresh p Hok) as Hfr.
  assert (Hw : wrapping_add_u64 (submission_id p) 1 = submission_id p + 1).
  { apply wrap_u64_small. unfold is_u64. lia. }
  cbv zeta. split_and!; [|unfold txs at 1; simpl; apply txs_insert|done]. split; simpl.
  - intros i pt. destruct (decide (transaction_id tx = i)) as [<-|Hi];
      rewrite ?lookup_insert_eq, ?lookup_insert_ne by done; [naive_solver|apply (ok_key p Hok)].
  - intros i pt. destruct (decide (transaction_id tx = i)) as [<-|Hi];
      rewrite ?lookup_insert_eq, ?lookup_insert_ne by done; [naive_solver|apply (ok_nonce p Hok)].
  - intros s. rewrite Hv, sender_count_insert by done. fold (vsender_id tx).
    pose proof (ok_count p Hok s) as Hc. pose proof (sender_count_le s (by_id p)).
    case_bool_decide as Hsnd.
    + rewrite Hsnd, lookup_insert_eq in *. split_and!; [|done|lia].
      rewrite Hvc. rewrite wrap_u64_small; unfold is_u64; lia.
    + rewrite lookup_insert_ne by done.
      destruct (sender_transaction_count p !! s); [|done]. naive_solver lia.
  - done.
  - done.
  - rewrite map_size_insert_None by done. lia.
  - unfold pool_size; simpl. unfold txs; simpl. rewrite txs_insert, size_add_usize.
    fold (pool_size p). rewrite (ok_size p Hok), total_size_insert.
    + rewrite wrap_u64_add_l. f_equal. lia.
    + unfold txs. by rewrite lookup_fmap, Hnew.
Qed.

Lemma remove_sender_count_ok p s c :
  parked_ok p -> sender_transaction_count p !! s = Some c ->
  exists last counts,
    remove_sender_count p s =
      Some (mkParkedPool (submission_id p) (by_id p) last counts (size_of p)) /\
    bset_sorted submission_cmp last /\
    (forall x, x ∈ last <->
       exists c, counts !! sub_sender x = Some c /\ last_submission_id c = sub_id x) /\
    counts = (if cnt c =? 1 then delete s (sender_transaction_count p)
              else <[s := mkCount (cnt c - 1) (last_submission_id c)]> (sender_transaction_count p)).
Proof.
  intros Hok Hc. unfold remove_sender_count. rewrite Hc. simpl.
  pose proof (ok_count p Hok s) as Hcnt. rewrite Hc in Hcnt. destruct Hcnt as (Hcnt & Hpos & _).
  pose proof (ok_fresh p Hok). pose proof (sender_count_le s (by_id p)).
  rewrite wrap_u64_small by (unfold is_u64; lia).
  replace (cnt c - 1 =? 0) with (cnt c =? 1) by (apply Bool.eq_iff_eq_true; rewrite !Z.eqb_eq; lia).
  destruct (cnt c =? 1).
  - destruct (last_without p s c Hok Hc) as (Hs & Hin & Hf).
    destruct (bset_remove _ _ _) as [last found]. simpl in *. subst found.
    do 2 eexists. split_and!; [done|done| |done]. intros x. rewrite Hin, (ok_last p Hok).
    destruct (decide (sub_sender x = s)) as [<-|Hne].
    + rewrite lookup_delete_eq. naive_solver.
    + rewrite lookup_delete_ne by done. naive_solver.
  - do 2 eexists. split_and!; [done|apply Hok| |done]. intros x. rewrite (ok_last p Hok).
    destruct (decide (sub_sender x = s)) as [<-|Hne].
    + rewrite lookup_insert_eq, Hc. naive_solver.
    + by rewrite lookup_insert_ne.
Qed.

Lemma parked_remove_transaction_eq p i tx :
  by_id p !! i = Some tx ->
  remove_transaction p i =
  q ← remove_sender_count p (vsender_id (pt_transaction tx));
  Some (mkParkedPool (submission_id p) (delete i (by_id p)) (last_sender_submission q)
          (sender_transaction_count q) (size_sub (size_of p) (vsize (pt_transaction tx))),
        Some (pt_transaction tx)).
Proof.
  intros Hi. unfold remove_transaction, remove_sender_count. rewrite Hi. simpl.
  destruct (sender_transaction_count p !! _) as [c|]; [|done].
  case_match; [|done]. by destruct (bset_remove _ _ _) as [? []].
Qed.

(** Removals do not touch the last submission of the senders that stay. *)
Definition keeps_last (p p' : ParkedPool) : Prop :=
  forall s c', sender_transaction_count p' !! s = Some c' ->
    exists c, sender_transaction_count p !! s = Some c /\
      last_submission_id c = last_submission_id c'.

#[export] Instance keeps_last_preorder : PreOrder keeps_last.
Proof. split; [intros p s c; eauto|]. intros p q r H1 H2 s c (c' & Hc' & <-)%H2. eauto. Qed.

Lemma parked_remove_transaction_ok p i :
  parked_ok p ->
  exists p', remove_transaction p i = Some (p', txs p !! i) /\ parked_ok p' /\
    txs p' = delete i (txs p) /\ submission_id p' = submission_id p /\ keeps_last p p'.
Proof.
  intros Hok. destruct (by_id p !! i) as [pt|] eqn:Hi.
  2:{ exists p. unfold remove_transaction, txs. rewrite Hi, lookup_fmap, Hi.
      split_and!; [done|done| |done|done]. rewrite delete_id; [done|]. by rewrite lookup_fmap, Hi. }
  rewrite (parked_remove_transaction_eq p i pt Hi).
  pose proof (ok_key p Hok _ _ Hi) as Hkey.
  assert (Hsnd : vsender_id (pt_transaction pt) = sender i) by (unfold vsender_id; by rewrite Hkey).
  pose proof (ok_count p Hok (sender i)) as Hc.
  pose proof (sender_count_delete (sender i) _ _ _ Hi) as Hdel.
  rewrite bool_decide_eq_true_2 in Hdel by done.
  destruct (sender_transaction_count p !! sender i) as [c|] eqn:Ec; [|lia].
  destruct (remove_sender_count_ok p (sender i) c Hok Ec) as (l & cs & Heq & Hs & Hl & Hcs).
  rewrite Hsnd, Heq. simpl.
  assert (Htx : txs p !! i = Some (pt_transaction pt)) by (unfold txs; by rewrite lookup_fmap, Hi).
  eexists. split_and!; [by rewrite Htx| |unfold txs; simpl; by rewrite fmap_delete|done|].
  2:{ intros s c'. simpl. subst cs. destruct (cnt c =? 1).
      - intros [_ ?]%lookup_delete_Some. eauto.
      - intros [[<- <-]|[_ ?]]%lookup_insert_Some; eauto. }
  split; simpl.
  - intros j pt' [_ Hj]%lookup_delete_Some. by apply (ok_key p Hok).
  - intros j pt' [_ Hj]%lookup_delete_Some. by apply (ok_nonce p Hok j pt').
  - intros s. pose proof (ok_count p Hok s) as Hcs'.
    pose proof (sender_count_delete s _ _ _ Hi) as Hds.
    subst cs. destruct (decide (sender i = s)) as [<-|Hne].
    + rewrite Ec in Hcs'. destruct (cnt c =? 1) eqn:E1; bools.
      * rewrite lookup_delete_eq. lia.
      * rewrite lookup_insert_eq. simpl. naive_solver lia.
    + rewrite bool_decide_eq_false_2 in Hds by done. rewrite <- Hds.
      destruct (cnt c =? 1); rewrite ?lookup_delete_ne, ?lookup_insert_ne by done; done.
  - done.
  - done.
  - pose proof (ok_fresh p Hok). rewrite (map_size_delete_Some _ _ (mk_is_Some _ _ Hi)). lia.
  - unfold pool_size; simpl. unfold txs; simpl. rewrite size_sub_usize, fmap_delete.
    fold (pool_size p) (txs p). rewrite (ok_size p Hok), wrap_u64_sub_l.
    by rewrite (total_size_delete _ _ _ Htx).
Qed.

Lemma parked_txs_key p i tx : parked_ok p -> txs p !! i = Some tx -> transaction_id tx = i.
Proof.
  intros Hok. unfold txs. rewrite lookup_fmap. intros (pt & Hpt & ->)%fmap_Some.
  by apply (ok_key p Hok).
Qed.

(** The interface: both parked pools are sub-pools. *)
#[export] Instance parked_impl : SubPoolImpl ParkedPool.
Proof.
  refine {| sp_txs := txs; sp_ok := parked_ok;
     sp_room := fun p => u64_modulus - 1 - submission_id p;
     sp_accepts := fun tx => 0 <= nonce (transaction_id tx);
     sp_add := fun _ p tx => Some (add_transaction p tx);
     sp_remove := remove_transaction; sp_len := len; sp_size := pool_size |}.
  - apply parked_txs_key.
  - intros _ p tx Hok Hnew Hn Hroom. eexists. split; [done|].
    destruct (parked_add_transaction_ok p tx) as (? & ? & ?); [done| |done|lia|].
    + unfold txs in Hnew. rewrite lookup_fmap in Hnew. by apply fmap_None in Hnew.
    + split_and!; [done|done|lia].
  - intros p i Hok. destruct (parked_remove_transaction_ok p i Hok) as (p' & ? & ? & ? & Hsub & _).
    exists p'. split_and!; [done|done|done|lia].
  - intros p. unfold len, txs. by rewrite map_size_fmap.
  - apply ok_size.
Defined.

(** ** Removing a list of transactions *)

Lemma elem_of_get_txs_by_sender p s i :
  parked_ok p -> i ∈ get_txs_by_sender p s <-> is_Some (txs p !! i) /\ sender i = s.
Proof.
  intros Hok. unfold get_txs_by_sender, txs. rewrite lookup_fmap, fmap_is_Some, list_elem_of_fmap.
  split.
  - intros [[j pt] [-> Hj]]. apply elem_of_sender_range in Hj as (Hj & Hs & _). simpl in *. eauto.
  - intros [[pt Hpt] <-]. exists (i, pt). split; [done|]. apply elem_of_sender_range.
    split_and!; [done|done|]. by apply (ok_nonce p Hok i pt).
Qed.

(** In descending order of the nonces. *)
Lemma get_txs_by_sender_desc p s :
  StronglySorted (fun i j => nonce j < nonce i) (reverse (get_txs_by_sender p s)).
Proof.
  unfold get_txs_by_sender. generalize (sender_range_sorted (start_bound s) (by_id p)).
  generalize (sender_range (start_bound s) (by_id p)) as l.
  induction 1 as [|[i pt] l Hs IH Hall]; [constructor|].
  rewrite fmap_cons, reverse_cons. apply StronglySorted_app_2; [|done|repeat constructor].
  intros j k Hj ->%list_elem_of_singleton. rewrite elem_of_reverse in Hj.
  apply list_elem_of_fmap in Hj as (q & -> & Hq). rewrite Forall_forall in Hall. by apply Hall.
Qed.

Lemma parked_remove_each_ok p ids :
  parked_ok p -> NoDup ids -> (forall i, i ∈ ids -> is_Some (txs p !! i)) ->
  exists p' removed, remove_each p ids = Some (p', removed) /\ parked_ok p' /\
    evicts (txs p) removed (txs p') /\ transaction_id <$> removed = ids /\
    submission_id p' = submission_id p.
Proof.
  revert p. induction ids as [|i ids IH]; intros p Hok Hnd Hin.
  { exists p, []. split_and!; [done|done|apply evicts_nil|done|done]. }
  apply NoDup_cons in Hnd as [Hi Hnd].
  destruct (parked_remove_transaction_ok p i Hok) as (p1 & Hr & Hok1 & Ht1 & Hn1 & _).
  destruct (Hin i ltac:(set_solver)) as [tx Htx]. pose proof (parked_txs_key _ _ _ Hok Htx) as Hkey.
  destruct (IH p1 Hok1 Hnd) as (p2 & removed & Heq & Hok2 & Hev & Hids & Hn2).
  { intros j Hj. rewrite Ht1, lookup_delete_ne by set_solver. set_solver. }
  exists p2, (tx :: removed). simpl. rewrite Hr. simpl. rewrite Heq. simpl. rewrite Htx.
  split_and!; [done|done| |by f_equal|congruence].
  apply (evicts_app _ [tx] (txs p1)); [|done]. rewrite Ht1, <- Hkey. apply evicts_one.
  by rewrite Hkey.
Qed.

(** ** Truncation *)

(** The inner loop removes an initial part of the list it is given, all of it
    unless the pool came below the limit. *)
Lemma truncate_sender_ok limit p ids acc :
  parked_ok p -> NoDup ids -> (forall i, i ∈ ids -> is_Some (txs p !! i)) ->
  exists p' r, truncate_sender limit p ids acc = Some (p', acc ++ r) /\ parked_ok p' /\
    evicts (txs p) r (txs p') /\ keeps_last p p' /\ submission_id p' = submission_id p /\
    exists rest, ids = (transaction_id <$> r) ++ rest /\
      (rest = [] \/ exceeds p' limit = false) /\ (ids <> [] -> r <> []).
Proof.
  revert p acc. induction ids as [|i ids IH]; intros p acc Hok Hnd Hin.
  { exists p, []. simpl. rewrite app_nil_r.
    split_and!; [done|done|apply evicts_nil|done|done|]. exists []. auto. }
  apply NoDup_cons in Hnd as [Hi Hnd]. simpl.
  destruct (parked_remove_transaction_ok p i Hok) as (p1 & Hr & Hok1 & Ht1 & Hsub1 & Hk1).
  destruct (Hin i ltac:(set_solver)) as [tx Htx]. pose proof (parked_txs_key _ _ _ Hok Htx) as Hkey.
  assert (Hev1 : evicts (txs p) [tx] (txs p1)).
  { rewrite Ht1, <- Hkey. apply evicts_one. by rewrite Hkey. }
  rewrite Hr, Htx. simpl. destruct (exceeds p1 limit) eqn:Hex; simpl.
  - destruct (IH p1 (acc ++ [tx]) Hok1 Hnd) as (p2 & r & Heq & Hok2 & Hev & Hk2 & Hsub2 & rest & Hids & Hst & _).
    { intros j Hj. rewrite Ht1, lookup_delete_ne by set_solver. set_solver. }
    exists p2, (tx :: r). rewrite Heq, <- app_assoc.
    split_and!; [done|done|by apply (evicts_app _ [tx] (txs p1))|by etrans|congruence|].
    exists rest. csimpl. rewrite Hids, Hkey. auto.
  - exists p1, [tx]. split_and!; [done|done|done|done|done|]. exists ids. csimpl. rewrite Hkey. auto.
Qed.

(** What a truncation step or a sequence of them has removed: of every sender
    the highest nonces, and nothing of a sender while one whose last
    submission is older still has transactions. *)
Record lru_evicted (p p' : ParkedPool) (removed : list ValidPoolTransaction) : Prop := {
  lru_evicts : evicts (txs p) removed (txs p');
  lru_submission : submission_id p' = submission_id p;
  lru_nonces tx j : tx ∈ removed -> is_Some (txs p' !! j) -> sender j = vsender_id tx ->
    nonce j < nonce (transaction_id tx);
  lru_order tx j c c' :
    tx ∈ removed -> is_Some (txs p' !! j) -> sender j <> vsender_id tx ->
    sender_transaction_count p !! vsender_id tx = Some c ->
    sender_transaction_count p !! sender j = Some c' ->
    last_submission_id c < last_submission_id c';
}.

Lemma lru_nil p : lru_evicted p p [].
Proof. split; [apply evicts_nil|done|set_solver|set_solver]. Qed.

Lemma count_is_Some p i :
  parked_ok p -> is_Some (txs p !! i) -> is_Some (sender_transaction_count p !! sender i).
Proof.
  intros Hok Hi. unfold txs in Hi. rewrite lookup_fmap, fmap_is_Some in Hi. destruct Hi as [pt Hi].
  pose proof (ok_count p Hok (sender i)) as Hc.
  destruct (sender_transaction_count p !! sender i); [eauto|].
  pose proof (proj1 (sender_count_zero _ _) Hc i eq_refl). congruence.
Qed.

(** The sender that is truncated next is the one whose last submission is the
    oldest, and it has transactions. *)
Lemma truncate_next p x :
  parked_ok p -> last (last_sender_submission p) = Some x ->
  get_txs_by_sender p (sub_sender x) <> [] /\
  (forall c s c', sender_transaction_count p !! sub_sender x = Some c ->
     sender_transaction_count p !! s = Some c' -> s <> sub_sender x ->
     last_submission_id c < last_submission_id c').
Proof.
  intros Hok Hlast. apply last_Some in Hlast as [l Hl].
  assert (Hx : x ∈ last_sender_submission p) by (rewrite Hl; set_solver).
  pose proof (proj1 (ok_last p Hok x) Hx) as (c & Hc & Hid). split.
  - pose proof (ok_count p Hok (sub_sender x)) as Hcnt. rewrite Hc in Hcnt.
    destruct Hcnt as (_ & Hne & _). intros Hnil. apply Hne, sender_count_zero. intros i Hi.
    destruct (by_id p !! i) as [pt|] eqn:Hpt; [|done].
    assert (i ∈ get_txs_by_sender p (sub_sender x)) as Hin.
    { apply elem_of_get_txs_by_sender; [done|]. unfold txs. rewrite lookup_fmap, Hpt. eauto. }
    rewrite Hnil in Hin. set_solver.
  - intros c0 s c' Hc0 Hc' Hne. simplify_eq.
    assert (Hy : mkSubmission s (last_submission_id c') ∈ last_sender_submission p)
      by (apply (ok_last p Hok); eauto).
    pose proof (ok_sorted p Hok) as Hs. rewrite Hl in Hs, Hy.
    apply elem_of_app in Hy as [Hy|Hy].
    + unfold bset_sorted in Hs.
      pose proof (StronglySorted_app_1_elem_of _ _ _ _ _ Hs Hy (list_elem_of_here x [])) as Hlt.
      change (sub_id x < last_submission_id c') in Hlt. lia.
    + apply list_elem_of_singleton in Hy. subst x. done.
Qed.

Lemma lru_trans p p1 p2 r1 r2 :
  parked_ok p1 -> keeps_last p p1 ->
  lru_evicted p p1 r1 -> lru_evicted p1 p2 r2 -> lru_evicted p p2 (r1 ++ r2).
Proof.
  intros Hok1 Hk [E1 S1 N1 O1] [E2 S2 N2 O2].
  assert (Hback : forall j, is_Some (txs p2 !! j) -> is_Some (txs p1 !! j)).
  { intros j [tx Hj]. exists tx. by eapply evicts_lookup. }
  split; [by eapply evicts_app|congruence| |].
  - intros tx j [Htx|Htx]%elem_of_app Hj Hs; eauto.
  - intros tx j c c' [Htx|Htx]%elem_of_app Hj Hs Hc Hc'; [eauto|].
    destruct (count_is_Some p1 (transaction_id tx) Hok1) as [d Hd].
    { exists tx. by apply (ev_from _ _ _ E2). }
    destruct (count_is_Some p1 j Hok1 (Hback j Hj)) as [d' Hd'].
    destruct (Hk _ _ Hd) as (e & He & Hle). destruct (Hk _ _ Hd') as (e' & He' & Hle').
    unfold vsender_id in *. simplify_eq. rewrite Hle, Hle'. by apply (O2 tx j d d').
Qed.

(** One round of the outer loop. *)
Lemma truncate_round limit p x acc :
  parked_ok p -> last (last_sender_submission p) = Some x ->
  exists p' r,
    truncate_sender limit p (reverse (get_txs_by_sender p (sub_sender x))) acc = Some (p', acc ++ r) /\
    parked_ok p' /\ keeps_last p p' /\ lru_evicted p p' r /\ r <> [].
Proof.
  intros Hok Hlast. destruct (truncate_next p x Hok Hlast) as [Hne Holdest].
  set (ids := reverse (get_txs_by_sender p (sub_sender x))).
  assert (Hin : forall i, i ∈ ids <-> is_Some (txs p !! i) /\ sender i = sub_sender x).
  { intros i. subst ids. by rewrite elem_of_reverse, elem_of_get_txs_by_sender. }
  assert (Hdesc : StronglySorted (fun i j => nonce j < nonce i) ids) by apply get_txs_by_sender_desc.
  destruct (truncate_sender_ok limit p ids acc Hok) as (p' & r & Heq & Hok' & Hev & Hk & Hsub & rest & Hids & _ & Hr).
  { subst ids. rewrite reverse_Permutation. apply sender_range_keys_NoDup. }
  { naive_solver. }
  assert (Hsnd : forall tx, tx ∈ r -> vsender_id tx = sub_sender x).
  { intros tx Htx. apply Hin. rewrite Hids. apply elem_of_app. left. by apply list_elem_of_fmap_2. }
  exists p', r. split_and!; [done|done|done| |].
  - split; [done|done| |].
    + intros tx j Htx [txj Hj] Hs.
      assert (Hjr : j ∈ rest).
      { assert (j ∈ ids) as Hjin.
        { apply Hin. split; [exists txj; by eapply evicts_lookup|]. by rewrite Hs, Hsnd. }
        rewrite Hids in Hjin. apply elem_of_app in Hjin as [Hjin|]; [|done].
        rewrite (ev_rest _ _ _ Hev), lookup_delete_txs, bool_decide_eq_true_2 in Hj; done. }
      rewrite Hids in Hdesc.
      apply (StronglySorted_app_1_elem_of _ _ _ _ _ Hdesc); [by apply list_elem_of_fmap_2|done].
    + intros tx j c c' Htx Hj Hs Hc Hc'. rewrite (Hsnd tx Htx) in *. eauto.
  - apply Hr. subst ids. intros Hnil. apply Hne. by apply (f_equal reverse) in Hnil; rewrite reverse_involutive in Hnil.
Qed.

Lemma parked_truncate_loop_ok fuel limit p acc :
  parked_ok p -> (size (by_id p) < fuel)%nat ->
  exists p' r, truncate_loop fuel limit p acc = Some (p', acc ++ r) /\ parked_ok p' /\
    lru_evicted p p' r /\ (exceeds p' limit = false \/ last_sender_submission p' = []).
Proof.
  revert p acc. induction fuel as [|fuel IH]; intros p acc Hok Hfuel; [lia|]. simpl.
  destruct (last (last_sender_submission p)) as [x|] eqn:Hlast.
  2:{ exists p, []. rewrite app_nil_r. apply last_None in Hlast. split_and!; [done|done|apply lru_nil|auto]. }
  destruct (exceeds p limit) eqn:Hex.
  2:{ exists p, []. rewrite app_nil_r. split_and!; [done|done|apply lru_nil|auto]. }
  destruct (truncate_round limit p x acc Hok Hlast) as (p1 & r1 & Heq & Hok1 & Hk & Hl & Hne).
  rewrite Heq. simpl.
  destruct (IH p1 (acc ++ r1) Hok1) as (p2 & r2 & Heq2 & Hok2 & Hl2 & Hend).
  { pose proof (evicts_size _ _ _ (lru_evicts _ _ _ Hl)) as Hsz.
    unfold txs in Hsz. rewrite !map_size_fmap in Hsz. destruct r1; [done|]. simpl in Hsz. lia. }
  exists p2, (r1 ++ r2). rewrite app_assoc. split_and!; [done|done| |done].
  by apply (lru_trans p p1 p2).
Qed.

(** A pool without senders is empty, hence within any limit. *)
Lemma no_senders_empty p : parked_ok p -> last_sender_submission p = [] -> by_id p = ∅.
Proof.
  intros Hok Hnil. apply map_empty. intros i. destruct (by_id p !! i) as [pt|] eqn:Hi; [|done].
  destruct (count_is_Some p i Hok) as [c Hc].
  { unfold txs. rewrite lookup_fmap, Hi. eauto. }
  assert (mkSubmission (sender i) (last_submission_id c) ∈ last_sender_submission p) as Hin
    by (apply (ok_last p Hok); eauto).
  rewrite Hnil in Hin. set_solver.
Qed.

Lemma empty_within_limit p limit :
  parked_ok p -> by_id p = ∅ -> 0 <= max_txs limit -> 0 <= max_size limit ->
  exceeds p limit = false.
Proof.
  intros Hok He H1 H2. unfold exceeds, limit_is_exceeded, len.
  rewrite (ok_size p Hok). unfold txs. rewrite He, fmap_empty, total_size_empty, map_size_empty.
  apply orb_false_iff. split; apply Z.ltb_ge; done.
Qed.

Lemma parked_truncate_pool_ok p limit :
  parked_ok p -> 0 <= max_txs limit -> 0 <= max_size limit ->
  exists p' removed, truncate_pool p limit = Some (p', removed) /\ parked_ok p' /\
    exceeds p' limit = false /\ lru_evicted p p' removed.
Proof.
  intros Hok H1 H2. unfold truncate_pool. destruct (exceeds p limit) eqn:Hex; simpl.
  - destruct (parked_truncate_loop_ok (S (size (by_id p))) limit p [] Hok ltac:(lia))
      as (p' & r & Heq & Hok' & Hl & Hend).
    exists p', r. split_and!; [done|done| |done].
    destruct Hend as [?|Hnil]; [done|]. auto using empty_within_limit, no_senders_empty.
  - exists p, []. split_and!; [done|done|done|apply lru_nil].
Qed.

(** ** The base-fee queries *)

Lemma satisfy_base_fee_ids_spec p basefee i :
  i ∈ satisfy_base_fee_ids p basefee <->
  is_Some (txs p !! i) /\
  (forall j tx, txs p !! j = Some tx -> sender j = sender i -> nonce j <= nonce i ->
     basefee <= vmax_fee_per_gas tx).
Proof.
  unfold satisfy_base_fee_ids, txs. rewrite list_elem_of_fmap. split.
  - intros ([k pt] & -> & Hin). apply scan_map_spec in Hin as [Hk Hall]. simpl.
    rewrite lookup_fmap, Hk. split; [eauto|]. intros j tx Hj Hs Hn.
    rewrite lookup_fmap in Hj. apply fmap_Some in Hj as (pj & Hj & ->).
    specialize (Hall j pj Hj Hs Hn). by bools.
  - rewrite lookup_fmap, fmap_is_Some. intros [[pt Hpt] Hall]. exists (i, pt). split; [done|].
    apply scan_map_spec. split; [done|]. intros j pj Hj Hs Hn. apply Z.ltb_ge.
    apply (Hall j); [|done|done]. by rewrite lookup_fmap, Hj.
Qed.

Lemma satisfy_base_fee_ids_NoDup p basefee : NoDup (satisfy_base_fee_ids p basefee).
Proof.
  unfold satisfy_base_fee_ids.
  match goal with |- context [scan_senders ?f None ?l] =>
    pose proof (scan_keys_NoDup f None l (NoDup_bt_keys _)) as H end.
  by apply NoDup_app in H as [? _].
Qed.

Lemma enforce_basefee_with_ok p basefee :
  parked_ok p ->
  exists p' removed, enforce_basefee_with p basefee = Some (p', removed) /\ parked_ok p' /\
    evicts (txs p) removed (txs p') /\
    transaction_id <$> removed = satisfy_base_fee_ids p basefee /\
    submission_id p' = submission_id p.
Proof.
  intros Hok. apply parked_remove_each_ok; [done|apply satisfy_base_fee_ids_NoDup|].
  intros i Hi. by apply satisfy_base_fee_ids_spec in Hi as [? _].
Qed.

(** ** Reachable pools *)

(** What [TxPool] does with a parked pool.  Transactions are only added when
    their identifier is not in it. *)
Inductive parked_step : ParkedPool -> ParkedPool -> Prop :=
| step_add p tx :
    by_id p !! transaction_id tx = None -> 0 <= nonce (transaction_id tx) ->
    submission_id p < u64_modulus - 1 -> parked_step p (add_transaction p tx)
| step_remove p i p' r : remove_transaction p i = Some (p', r) -> parked_step p p'
| step_truncate p limit p' r :
    0 <= max_txs limit -> 0 <= max_size limit ->
    truncate_pool p limit = Some (p', r) -> parked_step p p'
| step_enforce p basefee p' r :
    enforce_basefee_with p basefee = Some (p', r) -> parked_step p p'.

Lemma parked_step_ok p p' : parked_ok p -> parked_step p p' -> parked_ok p'.
Proof.
  intros Hok Hstep. destruct Hstep as [p tx|p i p' r Hr|p limit p' r H1 H2 Hr|p bf p' r Hr].
  - by apply parked_add_transaction_ok.
  - destruct (parked_remove_transaction_ok p i Hok) as (? & ? & ? & _). congruence.
  - destruct (parked_truncate_pool_ok p limit Hok H1 H2) as (? & ? & ? & ? & _). congruence.
  - destruct (enforce_basefee_with_ok p bf Hok) as (? & ? & ? & ? & _). congruence.
Qed.

Lemma parked_steps_ok p p' : rtc parked_step p p' -> parked_ok p -> parked_ok p'.
Proof. induction 1; eauto using parked_step_ok. Qed.

(** A pool with two senders, for the witnesses. *)
Definition example_parked : ParkedPool :=
  foldl add_transaction parked_default
    [example_tx 1 7 0 50 0; example_tx 2 9 4 90 0; example_tx 3 7 1 80 0; example_tx 4 9 5 20 0].

Lemma example_parked_reachable : rtc parked_step parked_default example_parked.
Proof.
  unfold example_parked. simpl.
  do 4 (eapply rtc_r; [|apply step_add; [reflexivity|done|done]]). apply rtc_refl.
Qed.

(** ** Properties *)

(** The indices of a parked pool never get out of step.  In every pool
    reachable from the empty one, the count kept for a sender is the number of
    its transactions, the set of last submissions has exactly one entry per
    sender with transactions, the tracked size is the sum of the sizes, and
    none of the operations can panic from there. *)
Theorem parked_reachable_ok p :
  rtc parked_step parked_default p ->
  parked_ok p /\
  length (last_sender_submission p) = size (sender_transaction_count p) /\
  (forall i, exists p' r, remove_transaction p i = Some (p', r)) /\
  (forall bf, exists p' r, enforce_basefee_with p bf = Some (p', r)).
Proof.
  intros Hr.
  assert (Hok : parked_ok p).
  { eapply parked_steps_ok; [done|apply parked_ok_default]. }
  split_and!; [done| | |].
  - apply last_submissions_length, Hok.
  - intros i. destruct (parked_remove_transaction_ok p i Hok) as (p' & ? & _). eauto.
  - intros bf. destruct (enforce_basefee_with_ok p bf Hok) as (p' & r & ? & _). eauto.
Qed.

Lemma parked_reachable_ok_witness :
  parked_ok example_parked /\ size (sender_transaction_count example_parked) = 2%nat.
Proof.
  destruct (parked_reachable_ok example_parked example_parked_reachable) as (Hok & Hlen & _).
  split; [exact Hok|]. rewrite <- Hlen. reflexivity.
Defined.

(** Truncation ends, never panics, and brings the pool within its limit.
    It removes transactions of the least recently active senders first: of
    every sender it removes the highest nonces, and it only touches a sender
    when every sender whose last submission is older has been emptied. *)
Theorem truncate_pool_lru p limit :
  parked_ok p -> 0 <= max_txs limit -> 0 <= max_size limit ->
  exists p' removed, truncate_pool p limit = Some (p', removed) /\ parked_ok p' /\
    exceeds p' limit = false /\
    evicts (txs p) removed (txs p') /\
    (forall tx j, tx ∈ removed -> is_Some (txs p' !! j) -> sender j = vsender_id tx ->
       nonce j < nonce (transaction_id tx)) /\
    (forall tx j c c', tx ∈ removed -> is_Some (txs p' !! j) -> sender j <> vsender_id tx ->
       sender_transaction_count p !! vsender_id tx = Some c ->
       sender_transaction_count p !! sender j = Some c' ->
       last_submission_id c < last_submission_id c').
Proof.
  intros Hok H1 H2.
  destruct (parked_truncate_pool_ok p limit Hok H1 H2) as (p' & r & Heq & Hok' & Hex & [L1 _ L2 L3]).
  exists p', r. by split_and!.
Qed.

Lemma truncate_pool_lru_witness :
  exists p', truncate_pool example_parked (mkSubPoolLimit 3 1000) =
               Some (p', [example_tx 3 7 1 80 0]) /\ parked_ok p'.
Proof.
  destruct (truncate_pool_lru example_parked (mkSubPoolLimit 3 1000)) as (p' & r & Heq & Hok & _).
  - exact (parked_steps_ok _ _ example_parked_reachable parked_ok_default).
  - done.
  - done.
  - exists p'. split; [|exact Hok]. rewrite Heq. vm_compute in Heq. by simplify_eq.
Defined.

(** Enforcing a base fee on the base-fee pool takes out exactly the
    transactions that can now be afforded together with everything before them:
    a transaction leaves iff it and every transaction of its sender with a
    lower nonce in the pool pay the base fee.  Exactly those are handed to the
    handler, each once; the call does not panic and the read-only query lists
    the same transactions. *)
Theorem enforce_basefee_exact p basefee :
  parked_ok p ->
  exists p' removed,
    enforce_basefee_with p basefee = Some (p', removed) /\ parked_ok p' /\
    evicts (txs p) removed (txs p') /\
    satisfy_base_fee_transactions p basefee = Some removed /\
    (forall tx, tx ∈ removed <->
       txs p !! transaction_id tx = Some tx /\
       forall j tx', txs p !! j = Some tx' -> sender j = vsender_id tx ->
         nonce j <= nonce (transaction_id tx) -> basefee <= vmax_fee_per_gas tx').
Proof.
  intros Hok.
  destruct (enforce_basefee_with_ok p basefee Hok) as (p' & r & Heq & Hok' & Hev & Hids & _).
  exists p', r. split_and!; [done|done|done| |].
  - unfold satisfy_base_fee_transactions. rewrite <- Hids. apply mapM_Some.
    apply Forall2_fmap_l, Forall_Forall2_diag, Forall_forall. intros tx Htx.
    pose proof (ev_from _ _ _ Hev tx Htx) as Hl. unfold txs in Hl. by rewrite lookup_fmap in Hl.
  - intros tx. split.
    + intros Htx. split; [by apply (ev_from _ _ _ Hev)|]. unfold vsender_id.
      apply (satisfy_base_fee_ids_spec p basefee). rewrite <- Hids. by apply list_elem_of_fmap_2.
    + intros [Htx Hall]. apply (evicts_removed _ _ _ (transaction_id tx) tx Hev Htx).
      rewrite (ev_rest _ _ _ Hev), lookup_delete_txs, bool_decide_eq_true_2; [done|].
      rewrite Hids. apply satisfy_base_fee_ids_spec. eauto.
Qed.

Lemma enforce_basefee_exact_witness :
  exists p', enforce_basefee_with example_parked 60 = Some (p', [example_tx 2 9 4 90 0]) /\
    parked_ok p'.
Proof.
  destruct (enforce_basefee_exact example_parked 60) as (p' & r & Heq & Hok & _).
  - exact (parked_steps_ok _ _ example_parked_reachable parked_ok_default).
  - exists p'. split; [|exact Hok]. rewrite Heq. vm_compute in Heq. by simplify_eq.
Defined.

End Parked.
