(* ===== verification/PendingPool.v ===== *)
(** * The pending sub-pool

    [crates/transaction-pool/src/pool/pending.rs]: transactions that are ready
    for the next block, with an index of the lowest and of the highest nonce of
    every sender.  The broadcast channel to running iterators is not part of
    the state here; the iterators model their end of it ([BestTxs]). *)

From S2P Require Import Prelude Ordered TxErrors TxIdentifier TxState TxTypes SubPoolSpec.
Import Identifier TxState TxTypes SubPoolSpec.

Module Pending.

Section pending.
Context `{AlloyConstants} {ordering : TransactionOrdering}.

(** ** Data *)

Record PendingTransaction := mkPending {
  pd_submission_id : Z;
  pd_transaction : ValidPoolTransaction;
  pd_priority : Priority PriorityValue;
}.

Record PendingPool := mkPendingPool {
  submission_id : Z;
  by_id : gmap TransactionId PendingTransaction;
  highest_nonces : gmap SenderId PendingTransaction;
  independent_transactions : gmap SenderId PendingTransaction;
  size_of : SizeTracker;
}.

Definition pending_new : PendingPool := mkPendingPool 0 ∅ ∅ ∅ size_default.

(** [impl Ord for PendingTransaction]: by priority, then older first. *)
Definition pending_cmp (a b : PendingTransaction) : comparison :=
  match priority_cmp (pd_priority a) (pd_priority b) with
  | Eq => Z.compare (pd_submission_id b) (pd_submission_id a)
  | c => c
  end.

Definition unlocks (tx : PendingTransaction) : TransactionId :=
  descendant (transaction_id (pd_transaction tx)).

Implicit Types (self p : PendingPool) (tx : PendingTransaction).

(** ** Operations *)

Definition pool_size self : Z := size_into_usize (size_of self).
Definition len self : Z := Z.of_nat (size (by_id self)).
Definition exceeds self (limit : SubPoolLimit) : bool :=
  limit_is_exceeded limit (len self) (pool_size self).
Definition contains self (id : TransactionId) : bool := bool_decide (is_Some (by_id self !! id)).
Definition get self (id : TransactionId) : option PendingTransaction := by_id self !! id.

Definition ancestor self (id : TransactionId) : option PendingTransaction :=
  a ← unchecked_ancestor id; get self a.

Definition get_txs_by_sender self (sender : SenderId) : list TransactionId :=
  (sender_range (start_bound sender) (by_id self)).*1.

Definition all self : list ValidPoolTransaction :=
  (fun e => pd_transaction e.2) <$> bt_entries (by_id self).

Definition next_id self : PendingPool * Z :=
  let id := submission_id self in
  (mkPendingPool (wrapping_add_u64 (submission_id self) 1) (by_id self) (highest_nonces self)
     (independent_transactions self) (size_of self), id).

(** Empties the pool without resetting the submission counter; returns the
    transactions that were in it. *)
Definition clear_transactions self : PendingPool * gmap TransactionId PendingTransaction :=
  (mkPendingPool (submission_id self) ∅ ∅ ∅ (size_reset (size_of self)), by_id self).

Definition update_independents_and_highest_nonces self tx : PendingPool :=
  let s := vsender_id (pd_transaction tx) in
  let n := vnonce (pd_transaction tx) in
  let highest :=
    match highest_nonces self !! s with
    | Some e => if vnonce (pd_transaction e) <? n then <[s := tx]> (highest_nonces self)
                else highest_nonces self
    | None => <[s := tx]> (highest_nonces self)
    end in
  let independent :=
    match independent_transactions self !! s with
    | Some e => if n <? vnonce (pd_transaction e) then <[s := tx]> (independent_transactions self)
                else independent_transactions self
    | None => <[s := tx]> (independent_transactions self)
    end in
  mkPendingPool (submission_id self) (by_id self) highest independent (size_of self).

Definition add_size self (n : Z) : PendingPool :=
  mkPendingPool (submission_id self) (by_id self) (highest_nonces self)
    (independent_transactions self) (size_add (size_of self) n).

Definition insert_by_id self (id : TransactionId) tx : PendingPool :=
  mkPendingPool (submission_id self) (<[id := tx]> (by_id self)) (highest_nonces self)
    (independent_transactions self) (size_of self).

(** The body of the rebuilding loops for a transaction that stays. *)
Definition reinsert self (e : TransactionId * PendingTransaction) : PendingPool :=
  let self := add_size self (vsize (pd_transaction e.2)) in
  let self := update_independents_and_highest_nonces self e.2 in
  insert_by_id self e.1 e.2.

Definition blob_fee_unmet (blob_fee : Z) tx : bool :=
  (vis_eip4844 (pd_transaction tx) &&
   option_lt (vmax_fee_per_blob_gas (pd_transaction tx)) blob_fee)%bool.

Definition update_blob_fee self (blob_fee : Z) : PendingPool * list ValidPoolTransaction :=
  let '(self, transactions) := clear_transactions self in
  let '(kept, removed) := scan_senders (blob_fee_unmet blob_fee) None (bt_entries transactions) in
  (foldl reinsert self kept, (fun e => pd_transaction e.2) <$> removed).

Definition base_fee_unmet (base_fee : Z) tx : bool :=
  vmax_fee_per_gas (pd_transaction tx) <? base_fee.

(** [tx.priority = self.ordering.priority(&tx.transaction.transaction, base_fee)]. *)
Definition reprioritize (base_fee : Z) (e : TransactionId * PendingTransaction)
  : TransactionId * PendingTransaction :=
  (e.1, mkPending (pd_submission_id e.2) (pd_transaction e.2)
          (priority (transaction (pd_transaction e.2)) base_fee)).

Definition update_base_fee self (base_fee : Z) : PendingPool * list ValidPoolTransaction :=
  let '(self, transactions) := clear_transactions self in
  let '(kept, removed) := scan_senders (base_fee_unmet base_fee) None (bt_entries transactions) in
  (foldl (fun self e => reinsert self (reprioritize base_fee e)) self kept,
   (fun e => pd_transaction e.2) <$> removed).

Definition add_transaction self (tx : ValidPoolTransaction) (base_fee : Z) : PendingPool :=
  let self := add_size self (vsize tx) in
  let tx_id := transaction_id tx in
  let '(self, submission_id) := next_id self in
  let tx := mkPending submission_id tx (priority (transaction tx) base_fee) in
  let self := update_independents_and_highest_nonces self tx in
  insert_by_id self tx_id tx.

(** The first part of [remove_transaction]: when the lowest nonce of the
    sender goes, the next one becomes independent. *)
Definition advance_independent self (id : TransactionId) : PendingPool :=
  match independent_transactions self !! sender id with
  | Some lowest =>
      if vnonce (pd_transaction lowest) =? nonce id then
        let independent := delete (sender id) (independent_transactions self) in
        let independent :=
          match get self (descendant id) with
          | Some unlocked => <[sender id := unlocked]> independent
          | None => independent
          end in
        mkPendingPool (submission_id self) (by_id self) (highest_nonces self) independent
          (size_of self)
      else self
  | None => self
  end.

Definition remove_transaction self (id : TransactionId)
  : PendingPool * option ValidPoolTransaction :=
  let self := advance_independent self id in
  match by_id self !! id with
  | None => (self, None)
  | Some tx =>
      let self := mkPendingPool (submission_id self) (delete id (by_id self)) (highest_nonces self)
        (independent_transactions self) (size_sub (size_of self) (vsize (pd_transaction tx))) in
      let highest :=
        match highest_nonces self !! sender id with
        | Some highest =>
            let h := if vnonce (pd_transaction highest) =? nonce id
                     then delete (sender id) (highest_nonces self) else highest_nonces self in
            match ancestor self id with
            | Some ancestor => <[sender id := ancestor]> h
            | None => h
            end
        | None => highest_nonces self
        end in
      (mkPendingPool (submission_id self) (by_id self) highest (independent_transactions self)
         (size_of self), Some (pd_transaction tx))
  end.

(** [for id in &removed { if let Some(tx) = self.remove_transaction(id) {
    end_removed.push(tx) } }]. *)
Fixpoint remove_each self (ids : list TransactionId) (end_removed : list ValidPoolTransaction)
  : PendingPool * list ValidPoolTransaction :=
  match ids with
  | [] => (self, end_removed)
  | id :: ids =>
      let '(self, tx) := remove_transaction self id in
      remove_each self ids (match tx with Some tx => end_removed ++ [tx] | None => end_removed end)
  end.

(** [worst_transactions.sort()]. *)
Definition pending_le (a b : PendingTransaction) : Prop := pending_cmp a b <> Gt.

#[export] Instance pending_le_dec : RelDecision pending_le.
Proof. intros a b. unfold pending_le. apply _. Defined.

Definition worst_transactions self : list PendingTransaction :=
  merge_sort pending_le (snd <$> map_to_list (highest_nonces self)).

(** The mutable variables of [remove_to_limit] that live across the rounds of
    its loop. *)
Record LimitState := mkLimitState {
  removed : list TransactionId;
  total_removed : Z;
  total_size : Z;
  non_local_senders : Z;
  local_senders : gset SenderId;
}.

Section limit.
Context (limit : SubPoolLimit) (remove_locals : bool) (original_length original_size : Z).

(** The [for tx in worst_transactions] loop; [true] when it returns early. *)
Fixpoint limit_scan (worst : list PendingTransaction) (st : LimitState) : bool * LimitState :=
  match worst with
  | [] => (false, st)
  | tx :: worst =>
      if (negb (limit_is_exceeded limit (wrap_u64 (original_length - total_removed st))
                  (wrap_u64 (original_size - total_size st)))
          || (non_local_senders st =? 0))%bool
      then (true, st)
      else if (negb remove_locals && vis_local (pd_transaction tx))%bool then
        let sender_id := vsender_id (pd_transaction tx) in
        if bool_decide (sender_id ∈ local_senders st) then limit_scan worst st
        else limit_scan worst
               (mkLimitState (removed st) (total_removed st) (total_size st)
                  (wrap_u64 (non_local_senders st - 1)) ({[sender_id]} ∪ local_senders st))
      else limit_scan worst
             (mkLimitState (removed st ++ [transaction_id (pd_transaction tx)])
                (wrap_u64 (total_removed st + 1))
                (wrap_u64 (total_size st + vsize (pd_transaction tx)))
                (non_local_senders st) (local_senders st))
  end.

(** The [loop]. *)
Fixpoint limit_loop (fuel : nat) self (unique_senders : Z) (st : LimitState)
  (end_removed : list ValidPoolTransaction) : option (PendingPool * list ValidPoolTransaction) :=
  match fuel with
  | O => None
  | S fuel =>
      let senders := Z.of_nat (size (highest_nonces self)) in
      let unique_removed := wrap_u64 (unique_senders - senders) in
      let st := mkLimitState [] (total_removed st) (total_size st)
        (wrap_u64 (non_local_senders st - unique_removed)) (local_senders st) in
      let '(early, st) := limit_scan (worst_transactions self) st in
      let '(self, end_removed) := remove_each self (removed st) end_removed in
      if early then Some (self, end_removed)
      else if (negb (exceeds self limit) || (non_local_senders st =? 0))%bool
      then Some (self, end_removed)
      else limit_loop fuel self senders st end_removed
  end.

End limit.

Definition remove_to_limit self (limit : SubPoolLimit) (remove_locals : bool)
  (end_removed : list ValidPoolTransaction) : option (PendingPool * list ValidPoolTransaction) :=
  let senders := Z.of_nat (size (highest_nonces self)) in
  limit_loop limit remove_locals (len self) (pool_size self) (S (size (by_id self))) self senders
    (mkLimitState [] 0 0 senders ∅) end_removed.

Definition truncate_pool self (limit : SubPoolLimit)
  : option (PendingPool * list ValidPoolTransaction) :=
  if negb (exceeds self limit) then Some (self, [])
  else
    r ← remove_to_limit self limit false [];
    let '(self, removed) := r in
    if negb (exceeds self limit) then Some (self, removed)
    else remove_to_limit self limit true removed.

(** ** The invariant *)

Definition txs self : gmap TransactionId ValidPoolTransaction := pd_transaction <$> by_id self.

(** Every entry of a per-sender index is a transaction of that sender that is
    in the pool. *)
Definition index_ok (m : gmap TransactionId PendingTransaction)
  (index : gmap SenderId PendingTransaction) : Prop :=
  forall s t, index !! s = Some t ->
    vsender_id (pd_transaction t) = s /\ m !! transaction_id (pd_transaction t) = Some t.

Record pending_ok p : Prop := {
  ok_key i t : by_id p !! i = Some t -> transaction_id (pd_transaction t) = i;
  ok_nonce i t : by_id p !! i = Some t -> vnonce (pd_transaction t) = nonce i /\ is_u64 (nonce i);
  ok_sub i t : by_id p !! i = Some t -> 0 <= pd_submission_id t < submission_id p;
  ok_sub_inj i j t t' : by_id p !! i = Some t -> by_id p !! j = Some t' ->
    pd_submission_id t = pd_submission_id t' -> i = j;
  ok_high : index_ok (by_id p) (highest_nonces p);
  ok_ind : index_ok (by_id p) (independent_transactions p);
  ok_counter : is_u64 (submission_id p);
  ok_size : pool_size p = wrap_u64 (SubPoolSpec.total_size (txs p));
}.

(** The per-sender indices name the lowest and the highest nonce. *)
Definition lowest_exact p : Prop := forall i t, by_id p !! i = Some t ->
  exists t', independent_transactions p !! sender i = Some t' /\ vnonce (pd_transaction t') <= nonce i.
Definition highest_exact p : Prop := forall i t, by_id p !! i = Some t ->
  exists t', highest_nonces p !! sender i = Some t' /\ nonce i <= vnonce (pd_transaction t').

(** The nonces of a sender are consecutive. *)
Definition gapless (m : gmap TransactionId PendingTransaction) : Prop :=
  forall i j, is_Some (m !! i) -> is_Some (m !! j) -> sender i = sender j -> nonce i < nonce j ->
    is_Some (m !! mkTransactionId (sender i) (nonce i + 1)).

Lemma pending_ok_new : pending_ok pending_new.
Proof. split; try (intros ?; intros; simplify_map_eq; done); done. Qed.

Lemma index_ok_insert m index i t :
  index_ok m index -> m !! i = None -> index_ok (<[i := t]> m) index.
Proof.
  intros Hi Hm s t' Ht'. destruct (Hi s t' Ht') as [Hs Hl]. split; [done|].
  rewrite lookup_insert_ne; [done|]. intros ->. congruence.
Qed.

Lemma index_ok_update m index s t :
  index_ok m index -> vsender_id (pd_transaction t) = s ->
  m !! transaction_id (pd_transaction t) = Some t -> index_ok m (<[s := t]> index).
Proof.
  intros Hi Hs Hm s' t'. destruct (decide (s = s')) as [<-|Hne].
  - rewrite lookup_insert_eq. by intros [= <-].
  - rewrite lookup_insert_ne by done. apply Hi.
Qed.

(** ** Inserting *)

Lemma reinsert_by_id p e : by_id (reinsert p e) = <[e.1 := e.2]> (by_id p).
Proof. done. Qed.

Lemma reinsert_submission_id p e : submission_id (reinsert p e) = submission_id p.
Proof. done. Qed.

Lemma reinsert_ok p i t :
  pending_ok p -> by_id p !! i = None -> transaction_id (pd_transaction t) = i ->
  vnonce (pd_transaction t) = nonce i -> is_u64 (nonce i) ->
  0 <= pd_submission_id t < submission_id p ->
  (forall j t', by_id p !! j = Some t' -> pd_submission_id t' <> pd_submission_id t) ->
  pending_ok (reinsert p (i, t)).
Proof.
  intros Hok Hnew Hkey Hnonce Hu Hsub Hfresh.
  assert (Hidx : forall index, index_ok (by_id p) index ->
    index_ok (<[i := t]> (by_id p)) index /\
    index_ok (<[i := t]> (by_id p)) (<[vsender_id (pd_transaction t) := t]> index)).
  { intros index Hi. pose proof (index_ok_insert _ _ _ t Hi Hnew). split; [done|].
    apply index_ok_update; [done|done|]. by rewrite Hkey, lookup_insert_eq. }
  split; simpl.
  - intros j t'. rewrite lookup_insert_Some. intros [[<- <-]|[_ Hj]]; [done|by apply (ok_key p Hok)].
  - intros j t'. rewrite lookup_insert_Some. intros [[<- <-]|[_ Hj]]; [done|by apply (ok_nonce p Hok)].
  - intros j t'. rewrite lookup_insert_Some. intros [[<- <-]|[_ Hj]]; [done|by apply (ok_sub p Hok j)].
  - intros j k t1 t2. rewrite !lookup_insert_Some.
    intros [[<- <-]|[_ Hj]] [[<- <-]|[_ Hk]] Heq; [done| | |by eapply (ok_sub_inj p Hok)].
    + by destruct (Hfresh _ _ Hk).
    + by destruct (Hfresh _ _ Hj).
  - repeat case_match; by apply Hidx, Hok.
  - repeat case_match; by apply Hidx, Hok.
  - apply Hok.
  - unfold pool_size, txs; simpl. rewrite size_add_usize, fmap_insert. fold (pool_size p) (txs p).
    rewrite (ok_size p Hok), total_size_insert.
    + rewrite wrap_u64_add_l. f_equal. lia.
    + unfold txs. by rewrite lookup_fmap, Hnew.
Qed.

Lemma reinsert_exact p i t :
  transaction_id (pd_transaction t) = i -> vnonce (pd_transaction t) = nonce i ->
  lowest_exact p /\ highest_exact p ->
  lowest_exact (reinsert p (i, t)) /\ highest_exact (reinsert p (i, t)).
Proof.
  intros Hkey Hn [Hl Hh].
  assert (Hs : vsender_id (pd_transaction t) = sender i) by (unfold vsender_id; by rewrite Hkey).
  split; intros j t' Hj; simpl in Hj; apply lookup_insert_Some in Hj; simpl; rewrite Hs, Hn.
  - destruct (independent_transactions p !! sender i) as [e|] eqn:He.
    + destruct (nonce i <? vnonce (pd_transaction e)) eqn:Hlt; bools;
        (destruct Hj as [[<- _]|[_ Hj]];
         [|destruct (Hl _ _ Hj) as (t0 & Ht0 & Hle); destruct (decide (sender j = sender i)) as [E|E]]);
        rewrite ?E in *; simplify_map_eq; eexists; split_and!; try done; lia.
    + destruct Hj as [[<- _]|[_ Hj]].
      * rewrite lookup_insert_eq. eexists. split; [done|]. lia.
      * destruct (Hl _ _ Hj) as (t0 & Ht0 & Hle). exists t0. split; [|done].
        rewrite lookup_insert_ne; [done|]. congruence.
  - destruct (highest_nonces p !! sender i) as [e|] eqn:He.
    + destruct (vnonce (pd_transaction e) <? nonce i) eqn:Hlt; bools;
        (destruct Hj as [[<- _]|[_ Hj]];
         [|destruct (Hh _ _ Hj) as (t0 & Ht0 & Hle); destruct (decide (sender j = sender i)) as [E|E]]);
        rewrite ?E in *; simplify_map_eq; eexists; split_and!; try done; lia.
    + destruct Hj as [[<- _]|[_ Hj]].
      * rewrite lookup_insert_eq. eexists. split; [done|]. lia.
      * destruct (Hh _ _ Hj) as (t0 & Ht0 & Hle). exists t0. split; [|done].
        rewrite lookup_insert_ne; [done|]. congruence.
Qed.

Lemma pending_add_transaction_eq p (tx : ValidPoolTransaction) bf :
  add_transaction p tx bf =
  reinsert (next_id p).1
    (transaction_id tx, mkPending (submission_id p) tx (priority (transaction tx) bf)).
Proof. reflexivity. Qed.

Definition accepts (tx : ValidPoolTransaction) : Prop :=
  vnonce tx = nonce (transaction_id tx) /\ is_u64 (nonce (transaction_id tx)).

Lemma next_id_ok p :
  pending_ok p -> submission_id p < u64_modulus - 1 ->
  pending_ok (next_id p).1 /\ submission_id (next_id p).1 = submission_id p + 1.
Proof.
  intros Hok Hroom. pose proof (ok_counter p Hok) as Hc. unfold is_u64 in Hc.
  assert (Hw : wrapping_add_u64 (submission_id p) 1 = submission_id p + 1).
  { apply wrap_u64_small. unfold is_u64. lia. }
  split; [|done]. destruct Hok. split; simpl; try done.
  - intros i t Ht. rewrite Hw. specialize (ok_sub0 i t Ht). lia.
  - rewrite Hw. unfold is_u64. lia.
Qed.

Lemma pending_add_transaction_ok p (tx : ValidPoolTransaction) bf :
  pending_ok p -> by_id p !! transaction_id tx = None -> accepts tx ->
  submission_id p < u64_modulus - 1 ->
  pending_ok (add_transaction p tx bf) /\
  txs (add_transaction p tx bf) = <[transaction_id tx := tx]> (txs p) /\
  submission_id (add_transaction p tx bf) = submission_id p + 1.
Proof.
  intros Hok Hnew [Hn Hu] Hroom. destruct (next_id_ok p Hok Hroom) as [Hok1 Hsub1].
  pose proof (ok_counter p Hok) as [Hc _]. rewrite pending_add_transaction_eq. split_and!.
  - apply reinsert_ok; [done..|simpl in *; lia|].
    intros j t' Hj Heq. apply (ok_sub p Hok) in Hj. simpl in Heq. lia.
  - unfold txs. rewrite reinsert_by_id. simpl. by rewrite fmap_insert.
  - by rewrite reinsert_submission_id.
Qed.

(** ** Rebuilding after a fee change *)

(** Entries that are those of [p] up to the priority. *)
Definition same_entry p (e : TransactionId * PendingTransaction) : Prop :=
  exists t, by_id p !! e.1 = Some t /\ pd_transaction e.2 = pd_transaction t /\
    pd_submission_id e.2 = pd_submission_id t.

Lemma rebuild_ok p l q :
  pending_ok p -> pending_ok q -> submission_id q = submission_id p ->
  lowest_exact q /\ highest_exact q ->
  NoDup l.*1 -> Forall (same_entry p) l ->
  (forall i t, by_id q !! i = Some t -> same_entry p (i, t) /\ i ∉ l.*1) ->
  let p' := foldl reinsert q l in
  pending_ok p' /\ (lowest_exact p' /\ highest_exact p') /\ submission_id p' = submission_id p /\
  by_id p' = list_to_map l ∪ by_id q.
Proof.
  intros Hp. revert q. induction l as [|[i t] l IH]; intros q Hq Hsub Hex Hnd Hall Hqin; simpl.
  { by rewrite (left_id ∅ (∪)). }
  rewrite fmap_cons, NoDup_cons in Hnd. destruct Hnd as [Hi Hnd].
  apply Forall_cons in Hall as [(t0 & Ht0 & Htx & Hsid) Hall]. simpl in *.
  assert (Hnew : by_id q !! i = None).
  { destruct (by_id q !! i) as [b|] eqn:E; [|done]. apply Hqin in E as [_ E]. set_solver. }
  pose proof (ok_key p Hp i t0 Ht0) as Hkey. pose proof (ok_nonce p Hp i t0 Ht0) as [Hn Hu].
  rewrite <- Htx in Hkey, Hn.
  assert (Hq1 : pending_ok (reinsert q (i, t))).
  { apply reinsert_ok; [done..| |].
    - rewrite Hsub, Hsid. by apply (ok_sub p Hp i).
    - intros j t' Hj Heq. pose proof (Hqin _ _ Hj) as [(t1 & Ht1 & _ & Hs1) _]. simpl in *.
      assert (j = i) as ->; [|congruence]. eapply (ok_sub_inj p Hp); [done..|]. congruence. }
  destruct (IH (reinsert q (i, t))) as (? & ? & ? & Hby); [done|done|by apply reinsert_exact|done|done| |].
  { intros j t'. rewrite reinsert_by_id, lookup_insert_Some. simpl.
    intros [[<- <-]|[Hne Hj]]; [split; [by exists t0|done]|].
    destruct (Hqin _ _ Hj) as [? ?]. split; [done|set_solver]. }
  split_and!; [done|tauto|tauto|done|].
  rewrite Hby, reinsert_by_id. simpl. rewrite <- insert_union_l, insert_union_r; [done|].
  by apply not_elem_of_list_to_map_1.
Qed.

Lemma cleared_ok p :
  pending_ok p ->
  let q := (clear_transactions p).1 in pending_ok q /\ (lowest_exact q /\ highest_exact q).
Proof.
  intros Hok. split.
  - split; simpl; try (intros ?; intros; simplify_map_eq; done); [apply Hok|done].
  - split; intros i t; simpl; by rewrite lookup_empty.
Qed.

(** The rebuilding of both fee updates: [f] only changes priorities. *)
Lemma rebuild_scan p (bad : PendingTransaction -> bool)
    (f : TransactionId * PendingTransaction -> TransactionId * PendingTransaction) :
  pending_ok p ->
  (forall e, (f e).1 = e.1 /\ pd_transaction (f e).2 = pd_transaction e.2 /\
     pd_submission_id (f e).2 = pd_submission_id e.2) ->
  let r := scan_senders bad None (bt_entries (by_id p)) in
  let p' := foldl reinsert (clear_transactions p).1 (f <$> r.1) in
  pending_ok p' /\ (lowest_exact p' /\ highest_exact p') /\ submission_id p' = submission_id p /\
  evicts (txs p) ((fun e => pd_transaction e.2) <$> r.2) (txs p') /\
  (forall i t', by_id p' !! i = Some t' <->
     exists t, by_id p !! i = Some t /\ t' = (f (i, t)).2 /\
       (forall j b, by_id p !! j = Some b -> sender j = sender i -> nonce j <= nonce i -> bad b = false)).
Proof.
  intros Hok Hf r p'. destruct (cleared_ok p Hok) as [Hq Hqe].
  pose proof (scan_keys_NoDup bad None _ (NoDup_bt_keys (by_id p))) as Hnd.
  fold r in Hnd. apply NoDup_app in Hnd as (Hnd & _ & _).
  assert (Hkeys : (f <$> r.1).*1 = r.1.*1).
  { rewrite <- list_fmap_compose. apply list_fmap_ext. intros n e _. apply Hf. }
  destruct (rebuild_ok p (f <$> r.1) (clear_transactions p).1 Hok Hq eq_refl Hqe)
    as (Hok' & Hex' & Hsub' & Hby).
  - by rewrite Hkeys.
  - apply Forall_fmap, Forall_forall. intros [i t] Hin%scan_kept_elem%elem_of_bt_entries.
    destruct (Hf (i, t)) as (H1 & H2 & H3). exists t. unfold compose. by rewrite H1.
  - intros i t. simpl. by rewrite lookup_empty.
  - assert (Hlook : forall i t', by_id p' !! i = Some t' <-> exists t, (i, t) ∈ r.1 /\ t' = (f (i, t)).2).
    { intros i t'. subst p'. rewrite Hby. simpl. rewrite (right_id ∅ (∪)).
      rewrite lookup_list_to_map_keys by (by rewrite Hkeys). rewrite list_elem_of_fmap. split.
      - intros ([k t] & Heq & Hin). destruct (Hf (k, t)) as (H1 & _ & _). rewrite <- Heq in H1.
        simpl in H1. subst k. exists t. split; [done|]. by rewrite <- Heq.
      - intros (t & Hin & ->). exists (i, t). split; [|done]. destruct (Hf (i, t)) as (H1 & _ & _).
        destruct (f (i, t)); simpl in *. congruence. }
    split_and!; [done|tauto|tauto|done| |].
    + replace (txs p') with (pd_transaction <$> (list_to_map r.1 : gmap TransactionId PendingTransaction)).
      { apply scan_evicts. intros i t. apply (ok_key p Hok). }
      apply map_eq. intros i. unfold txs. rewrite !lookup_fmap. apply option_eq. intros tx.
      rewrite !fmap_Some. setoid_rewrite lookup_list_to_map_keys; [|done]. setoid_rewrite Hlook.
      split; [intros (t & Hin & ->)|intros (t' & (t & Hin & ->) & ->)];
        (eexists; split; [eauto|]); by destruct (Hf (i, t)) as (_ & ? & _).
    + intros i t'. rewrite Hlook. unfold r. setoid_rewrite scan_map_spec. naive_solver.
Qed.

Lemma update_base_fee_eq p bf :
  let r := scan_senders (base_fee_unmet bf) None (bt_entries (by_id p)) in
  update_base_fee p bf =
  (foldl reinsert (clear_transactions p).1 (reprioritize bf <$> r.1),
   (fun e => pd_transaction e.2) <$> r.2).
Proof.
  intros r. unfold update_base_fee. simpl. fold r. destruct r as [kept dropped]. simpl.
  f_equal. generalize (mkPendingPool (submission_id p) ∅ ∅ ∅ (size_reset (size_of p))).
  induction kept as [|e kept IH]; intros q; [done|]. simpl. by rewrite IH.
Qed.

Lemma update_blob_fee_eq p fee :
  let r := scan_senders (blob_fee_unmet fee) None (bt_entries (by_id p)) in
  update_blob_fee p fee =
  (foldl reinsert (clear_transactions p).1 ((fun e => e) <$> r.1),
   (fun e => pd_transaction e.2) <$> r.2).
Proof.
  intros r. unfold update_blob_fee. simpl. fold r. destruct r as [kept dropped]. simpl.
  by rewrite list_fmap_id.
Qed.

(** ** Removing *)

Lemma descendant_ne i : is_u64 (nonce i) -> descendant i <> i.
Proof.
  intros Hu Heq. apply (f_equal nonce) in Heq. unfold descendant, next_nonce, wrapping_add_u64 in Heq.
  simpl in Heq. unfold is_u64 in Hu.
  destruct (decide (nonce i = u64_modulus - 1)) as [E|E].
  - rewrite E in Heq. done.
  - rewrite wrap_u64_small in Heq; unfold is_u64; lia.
Qed.

Lemma unchecked_ancestor_Some i a :
  unchecked_ancestor i = Some a -> sender a = sender i /\ nonce a = nonce i - 1.
Proof. unfold unchecked_ancestor. destruct (nonce i =? 0); naive_solver. Qed.

Lemma id_eta i s n : sender i = s -> nonce i = n -> i = mkTransactionId s n.
Proof. destruct i; simpl; congruence. Qed.

Lemma id_ne_nonce i j : sender i = sender j -> i <> j -> nonce i <> nonce j.
Proof. destruct i, j; simpl; congruence. Qed.

(** The transaction an index names for a sender. *)
Lemma index_id p index s t :
  pending_ok p -> index_ok (by_id p) index -> index !! s = Some t ->
  transaction_id (pd_transaction t) = mkTransactionId s (vnonce (pd_transaction t)).
Proof.
  intros Hok Hi Ht. destruct (Hi s t Ht) as [Hs Hm].
  apply id_eta; [done|]. symmetry. by apply (ok_nonce p Hok).
Qed.

Lemma index_ok_delete m index i :
  index_ok m index ->
  (forall t, index !! sender i = Some t -> transaction_id (pd_transaction t) <> i) ->
  index_ok (delete i m) index.
Proof.
  intros Hi Hne s t Ht. destruct (Hi s t Ht) as [Hs Hm]. split; [done|].
  rewrite lookup_delete_ne; [done|]. intros ->. apply (Hne t); [|done].
  unfold vsender_id in Hs. by rewrite Hs.
Qed.

(** The independent transactions after the lowest nonce is taken out. *)
Lemma advance_independent_spec p i t :
  pending_ok p -> by_id p !! i = Some t ->
  let q := advance_independent p i in
  q = mkPendingPool (submission_id p) (by_id p) (highest_nonces p) (independent_transactions q)
        (size_of p) /\
  index_ok (delete i (by_id p)) (independent_transactions q) /\
  (forall s, s <> sender i -> independent_transactions q !! s = independent_transactions p !! s).
Proof.
  intros Hok Hi q. pose proof (ok_ind p Hok) as Hind. subst q. unfold advance_independent.
  destruct (independent_transactions p !! sender i) as [lo|] eqn:Elo.
  2:{ split_and!; [by destruct p| |done]. apply index_ok_delete; [done|]. intros t'. by rewrite Elo. }
  pose proof (index_id p _ _ _ Hok Hind Elo) as Hlo.
  destruct (_ =? _) eqn:En; bools.
  2:{ split_and!; [by destruct p| |done]. apply index_ok_delete; [done|].
      intros t'. rewrite Elo. intros [= <-] Heq. rewrite Hlo in Heq. apply En.
      by apply (f_equal nonce) in Heq. }
  simpl. split_and!; [done| |].
  - assert (Hd : index_ok (delete i (by_id p)) (delete (sender i) (independent_transactions p))).
    { apply index_ok_delete; [|by rewrite lookup_delete_eq].
      intros s t' [_ Ht']%lookup_delete_Some. by apply Hind. }
    unfold get. destruct (by_id p !! descendant i) as [u|] eqn:Eu; [|done].
    pose proof (ok_key p Hok _ _ Eu) as Hu. apply index_ok_update; [done| |].
    + unfold vsender_id. by rewrite Hu.
    + rewrite Hu, lookup_delete_ne; [done|]. apply not_eq_sym, descendant_ne.
      by apply (ok_nonce p Hok i t).
  - intros s Hs. destruct (get p (descendant i)); by simplify_map_eq.
Qed.

Lemma pending_remove_transaction_eq p i t :
  pending_ok p -> by_id p !! i = Some t ->
  let q := advance_independent p i in
  remove_transaction p i =
  (mkPendingPool (submission_id p) (delete i (by_id p))
     (match highest_nonces p !! sender i with
      | Some hi =>
          let h := if vnonce (pd_transaction hi) =? nonce i
                   then delete (sender i) (highest_nonces p) else highest_nonces p in
          match (a ← unchecked_ancestor i; delete i (by_id p) !! a) with
          | Some a => <[sender i := a]> h
          | None => h
          end
      | None => highest_nonces p
      end)
     (independent_transactions q) (size_sub (size_of p) (vsize (pd_transaction t))),
   Some (pd_transaction t)).
Proof.
  intros Hok Hi q. unfold remove_transaction.
  destruct (advance_independent_spec p i t Hok Hi) as (Hq & _). fold q in Hq |- *.
  rewrite Hq. simpl. by rewrite Hi.
Qed.

Lemma highest_after_remove p i :
  pending_ok p ->
  index_ok (delete i (by_id p))
    (match highest_nonces p !! sender i with
     | Some hi =>
         let h := if vnonce (pd_transaction hi) =? nonce i
                  then delete (sender i) (highest_nonces p) else highest_nonces p in
         match (a ← unchecked_ancestor i; delete i (by_id p) !! a) with
         | Some a => <[sender i := a]> h
         | None => h
         end
     | None => highest_nonces p
     end).
Proof.
  intros Hok. pose proof (ok_high p Hok) as Hhigh.
  destruct (highest_nonces p !! sender i) as [hi|] eqn:Ehi.
  2:{ apply index_ok_delete; [done|]. intros t. by rewrite Ehi. }
  pose proof (index_id p _ _ _ Hok Hhigh Ehi) as Hid. cbv zeta.
  set (h := if _ =? _ then _ else _).
  assert (Hh : index_ok (delete i (by_id p)) h).
  { subst h. destruct (_ =? _) eqn:En; bools.
    - apply index_ok_delete; [|by rewrite lookup_delete_eq].
      intros s t' [_ Ht']%lookup_delete_Some. by apply Hhigh.
    - apply index_ok_delete; [done|]. intros t'. rewrite Ehi. intros [= <-] Heq.
      rewrite Hid in Heq. apply En. by apply (f_equal nonce) in Heq. }
  destruct (unchecked_ancestor i) as [a|] eqn:Ea; simpl; [|done].
  destruct (delete i (by_id p) !! a) as [t|] eqn:Et; [|done].
  pose proof Et as [_ Et']%lookup_delete_Some. pose proof (ok_key p Hok _ _ Et') as Hk.
  apply index_ok_update; [done| |by rewrite Hk].
  unfold vsender_id. rewrite Hk. by apply unchecked_ancestor_Some in Ea as [? _].
Qed.

Lemma remove_transaction_absent p i :
  pending_ok p -> by_id p !! i = None -> remove_transaction p i = (p, None).
Proof.
  intros Hok Hi. assert (Hadv : advance_independent p i = p).
  { unfold advance_independent.
    destruct (independent_transactions p !! sender i) as [lo|] eqn:Elo; [|done].
    pose proof (index_id p _ _ _ Hok (ok_ind p Hok) Elo) as Hlo.
    destruct (_ =? _) eqn:En; [|done]. bools. destruct (ok_ind p Hok _ _ Elo) as [_ Hm].
    rewrite Hlo, En in Hm. destruct i; simpl in *; congruence. }
  unfold remove_transaction. by rewrite Hadv, Hi.
Qed.

Lemma pending_remove_transaction_ok p i :
  pending_ok p ->
  let p' := (remove_transaction p i).1 in
  (remove_transaction p i).2 = txs p !! i /\ pending_ok p' /\
  by_id p' = delete i (by_id p) /\ submission_id p' = submission_id p /\
  (forall s, s <> sender i -> highest_nonces p' !! s = highest_nonces p !! s) /\
  (is_Some (highest_nonces p' !! sender i) -> is_Some (highest_nonces p !! sender i)).
Proof.
  intros Hok. destruct (by_id p !! i) as [t|] eqn:Hi.
  2:{ rewrite remove_transaction_absent by done. simpl. unfold txs. rewrite lookup_fmap, Hi.
      split_and!; try done. by rewrite delete_id. }
  rewrite (pending_remove_transaction_eq p i t Hok Hi). simpl.
  destruct (advance_independent_spec p i t Hok Hi) as (_ & Hind & _).
  assert (Htx : txs p !! i = Some (pd_transaction t)) by (unfold txs; by rewrite lookup_fmap, Hi).
  split_and!; [done| |done|done| |].
  - split; simpl.
    + intros j t' [_ Hj]%lookup_delete_Some. by apply (ok_key p Hok).
    + intros j t' [_ Hj]%lookup_delete_Some. by apply (ok_nonce p Hok).
    + intros j t' [_ Hj]%lookup_delete_Some. by apply (ok_sub p Hok j).
    + intros j k t1 t2 [_ Hj]%lookup_delete_Some [_ Hk]%lookup_delete_Some.
      by apply (ok_sub_inj p Hok).
    + apply highest_after_remove; done.
    + done.
    + apply Hok.
    + unfold pool_size, txs; simpl. rewrite size_sub_usize, fmap_delete. fold (pool_size p) (txs p).
      rewrite (ok_size p Hok), wrap_u64_sub_l. by rewrite (total_size_delete _ _ _ Htx).
  - intros s Hs. destruct (highest_nonces p !! sender i); [|done].
    repeat case_match; by simplify_map_eq.
  - destruct (highest_nonces p !! sender i) eqn:E; [eauto|]. by rewrite E.
Qed.

Lemma pending_txs_key p i (tx0 : ValidPoolTransaction) : pending_ok p -> txs p !! i = Some tx0 -> transaction_id tx0 = i.
Proof.
  intros Hok. unfold txs. rewrite lookup_fmap. intros (t & Ht & ->)%fmap_Some.
  by apply (ok_key p Hok).
Qed.

(** The interface. *)
#[export] Instance pending_impl : SubPoolImpl PendingPool.
Proof.
  refine {| sp_txs := txs; sp_ok := pending_ok;
     sp_room := fun p => u64_modulus - 1 - submission_id p;
     sp_accepts := accepts;
     sp_add := fun bf p (tx : ValidPoolTransaction) => Some (add_transaction p tx bf);
     sp_remove := fun p i => Some (remove_transaction p i); sp_len := len; sp_size := pool_size |}.
  - apply pending_txs_key.
  - intros bf p vtx Hok Hnew Hacc Hroom. eexists. split; [done|].
    destruct (pending_add_transaction_ok p vtx bf) as (? & ? & ?); [done| |done|lia|].
    + unfold txs in Hnew. rewrite lookup_fmap in Hnew. by apply fmap_None in Hnew.
    + split_and!; [done|done|lia].
  - intros p i Hok. destruct (pending_remove_transaction_ok p i Hok) as (Hr & Hok' & Hby & Hsub & _).
    eexists. split_and!; [by rewrite <- Hr, <- surjective_pairing|done| |lia].
    unfold txs. by rewrite Hby, fmap_delete.
  - intros p. unfold len, txs. by rewrite map_size_fmap.
  - apply ok_size.
Defined.

(** ** Removing at the ends of a gapless run of nonces *)

Lemma gapless_between m i j n :
  gapless m -> is_Some (m !! i) -> is_Some (m !! j) -> sender i = sender j ->
  nonce i <= n <= nonce j -> is_Some (m !! mkTransactionId (sender i) n).
Proof.
  intros Hg Hi Hj Hs [H1 H2]. revert H2. pattern n. apply Zlt_lower_bound_ind with (z := nonce i); [|done].
  clear n H1. intros n IH Hn Hle. destruct (decide (n = nonce i)) as [->|Hne].
  - by destruct i.
  - destruct (IH (n - 1)) as [t Ht]; [lia|lia|].
    pose proof (Hg (mkTransactionId (sender i) (n - 1)) j) as H'. simpl in H'.
    replace (n - 1 + 1) with n in H' by lia. apply H'; [eauto|done|done|lia].
Qed.

Definition exact p : Prop := gapless (by_id p) /\ lowest_exact p /\ highest_exact p.

Lemma remove_lowest_exact p i t :
  pending_ok p -> exact p -> by_id p !! i = Some t ->
  lowest_exact (remove_transaction p i).1.
Proof.
  intros Hok (Hg & Hl & _) Hi j t' Hj.
  pose proof (pending_remove_transaction_eq p i t Hok Hi) as Heq.
  destruct (advance_independent_spec p i t Hok Hi) as (_ & _ & Hother).
  rewrite Heq in Hj |- *. simpl in *. apply lookup_delete_Some in Hj as [Hij Hj].
  destruct (Hl _ _ Hj) as (lo & Hlo & Hle).
  destruct (decide (sender j = sender i)) as [Hs|Hs].
  2:{ exists lo. by rewrite Hother. }
  rewrite Hs in *. unfold advance_independent. rewrite Hlo.
  destruct (_ =? _) eqn:En; bools; [|by exists lo].
  assert (Hlt : nonce i < nonce j).
  { pose proof (id_ne_nonce i j ltac:(done) ltac:(done)). lia. }
  destruct (Hg i j) as [u Hu]; [eauto|eauto|done|done|].
  destruct (ok_nonce p Hok _ _ Hj) as [_ Huj]. destruct (ok_nonce p Hok _ _ Hi) as [_ Hui].
  unfold is_u64 in *.
  assert (Hd : descendant i = mkTransactionId (sender i) (nonce i + 1)).
  { unfold descendant, next_nonce, wrapping_add_u64. rewrite wrap_u64_small; [done|]. unfold is_u64. lia. }
  unfold get. rewrite Hd, Hu. simpl. exists u. rewrite lookup_insert_eq. split; [done|].
  destruct (ok_nonce p Hok _ _ Hu) as [-> _]. simpl. lia.
Qed.

Definition is_lowest p (i : TransactionId) : Prop :=
  forall j, is_Some (by_id p !! j) -> sender j = sender i -> nonce i <= nonce j.
Definition is_highest p (i : TransactionId) : Prop :=
  forall j, is_Some (by_id p !! j) -> sender j = sender i -> nonce j <= nonce i.

Lemma remove_highest_exact p i t :
  pending_ok p -> exact p -> by_id p !! i = Some t -> is_lowest p i \/ is_highest p i ->
  highest_exact (remove_transaction p i).1.
Proof.
  intros Hok (Hg & _ & Hh) Hi Hend j t' Hj.
  pose proof (pending_remove_transaction_eq p i t Hok Hi) as Heq.
  rewrite Heq in Hj |- *. simpl in *. apply lookup_delete_Some in Hj as [Hij Hj].
  destruct (Hh _ _ Hj) as (hi & Hhi & Hle).
  destruct (decide (sender j = sender i)) as [Hs|Hs].
  2:{ exists hi. split; [|done]. repeat case_match; by rewrite ?lookup_insert_ne, ?lookup_delete_ne. }
  rewrite Hs in *. rewrite Hhi.
  assert (Hnij : nonce i <> nonce j) by (by apply id_ne_nonce).
  destruct (unchecked_ancestor i) as [a|] eqn:Ea; simpl.
  - apply unchecked_ancestor_Some in Ea as [Has Han].
    pose proof (id_eta a _ _ Has Han) as Ha.
    assert (Hane : a <> i) by (intros ->; lia).
    rewrite lookup_delete_ne by done.
    destruct (decide (nonce j < nonce i)) as [Hlt|Hge].
    + destruct (gapless_between (by_id p) j i (nonce i - 1) Hg) as [ta Hta]; [eauto|eauto|done|lia|].
      rewrite Hs, <- Ha in Hta. rewrite Hta. exists ta. rewrite lookup_insert_eq. split; [done|].
      destruct (ok_nonce p Hok _ _ Hta) as [-> _]. lia.
    + destruct Hend as [Hlo|Hhigh]; [|specialize (Hhigh j ltac:(eauto) Hs); lia].
      destruct (by_id p !! a) as [ta|] eqn:Eta; [specialize (Hlo a ltac:(eauto) Has); lia|].
      exists hi. split; [|done]. destruct (_ =? _) eqn:En; bools; [|done]. lia.
  - unfold unchecked_ancestor in Ea. destruct (nonce i =? 0) eqn:E0; [|done]. bools.
    pose proof (ok_nonce p Hok _ _ Hj) as [_ Hu]. unfold is_u64 in Hu.
    exists hi. split; [|done]. destruct (_ =? _) eqn:En; bools; [|done]. lia.
Qed.

Lemma remove_gapless p i :
  pending_ok p -> exact p -> is_lowest p i \/ is_highest p i ->
  gapless (by_id (remove_transaction p i).1).
Proof.
  intros Hok (Hg & _) Hend. destruct (pending_remove_transaction_ok p i Hok) as (_ & _ & -> & _).
  intros j k [tj [Hij Hj]%lookup_delete_Some] [tk [Hik Hk]%lookup_delete_Some] Hs Hlt.
  destruct (Hg j k) as [u Hu]; [eauto|eauto|done|done|]. exists u.
  apply lookup_delete_Some. split; [|done]. intros ->. simpl in *.
  destruct Hend as [Hlo|Hhi].
  - specialize (Hlo j ltac:(eauto) eq_refl). simpl in Hlo. lia.
  - specialize (Hhi k ltac:(eauto) ltac:(done)). simpl in Hhi.
    apply Hik. symmetry. apply id_eta; [done|lia].
Qed.

Lemma remove_exact p i t :
  pending_ok p -> exact p -> by_id p !! i = Some t -> is_lowest p i \/ is_highest p i ->
  exact (remove_transaction p i).1.
Proof.
  intros Hok Hex Hi Hend. split_and!;
    [by apply remove_gapless|by eapply remove_lowest_exact|by eapply remove_highest_exact].
Qed.

(** What is left of each sender is a prefix of what there was. *)
Definition prefix p p' : Prop :=
  (forall j, is_Some (by_id p' !! j) -> is_Some (by_id p !! j)) /\
  (forall i j, is_Some (by_id p' !! j) -> is_Some (by_id p !! i) -> sender i = sender j ->
     nonce i <= nonce j -> is_Some (by_id p' !! i)).

Definition keeps_exact p p' : Prop := exact p -> exact p' /\ prefix p p'.

Lemma keeps_exact_refl p : keeps_exact p p.
Proof. intros Hex. split; [done|]. by split. Qed.

Lemma keeps_exact_trans p1 p2 p3 : keeps_exact p1 p2 -> keeps_exact p2 p3 -> keeps_exact p1 p3.
Proof.
  intros H12 H23 Hex. destruct (H12 Hex) as [Hex2 [Hs2 Hp2]]. destruct (H23 Hex2) as [Hex3 [Hs3 Hp3]].
  split; [done|]. split; [auto|]. intros i j Hj Hi Hs Hn. apply (Hp3 i j); [done| |done|done].
  apply (Hp2 i j); auto.
Qed.

Lemma remove_highest_keeps p i t :
  pending_ok p -> by_id p !! i = Some t -> (exact p -> is_highest p i) ->
  keeps_exact p (remove_transaction p i).1.
Proof.
  intros Hok Hi Hhi Hex. specialize (Hhi Hex). split; [by eapply remove_exact; eauto|].
  destruct (pending_remove_transaction_ok p i Hok) as (_ & _ & Hby & _). split; [|intros j k]; rewrite Hby.
  { intros j [tj [_ Hj]%lookup_delete_Some]. eauto. }
  intros [tk [Hk1 Hk2]%lookup_delete_Some] [tj Hj] Hs Hn. exists tj. apply lookup_delete_Some.
  split; [|done]. intros <-. apply Hk1. specialize (Hhi k ltac:(eauto) ltac:(done)).
  destruct i, k; simpl in *. f_equal; [done|lia].
Qed.

(** ** Removing a list of transactions *)

Definition pd_id (t : PendingTransaction) : TransactionId := transaction_id (pd_transaction t).
Definition pd_sender (t : PendingTransaction) : SenderId := vsender_id (pd_transaction t).

(** A list of transactions named by the index of highest nonces, no two of the
    same sender. *)
Record heads p (r : list PendingTransaction) : Prop := {
  heads_in t : t ∈ r -> highest_nonces p !! pd_sender t = Some t;
  heads_NoDup : NoDup (pd_sender <$> r);
}.

Lemma heads_sublist p r r' : r' `sublist_of` r -> heads p r -> heads p r'.
Proof.
  intros Hsub [Hin Hnd]. split.
  - intros t Ht. apply Hin. by eapply elem_of_sublist.
  - apply (sublist_NoDup _ (pd_sender <$> r)); [done|by apply fmap_sublist].
Qed.

Lemma heads_by_id p r t : pending_ok p -> heads p r -> t ∈ r -> by_id p !! pd_id t = Some t.
Proof. intros Hok [Hin _] Ht. by destruct (ok_high p Hok _ _ (Hin t Ht)). Qed.

Lemma heads_tail p t r :
  pending_ok p -> heads p (t :: r) -> heads (remove_transaction p (pd_id t)).1 r.
Proof.
  intros Hok [Hin Hnd]. rewrite fmap_cons, NoDup_cons in Hnd. destruct Hnd as [Ht Hnd].
  destruct (pending_remove_transaction_ok p (pd_id t) Hok) as (_ & _ & _ & _ & Hother & _).
  split; [|done]. intros t' Ht'. rewrite Hother; [set_solver|].
  intros Heq. apply Ht. unfold pd_sender, vsender_id, pd_id in *. rewrite <- Heq.
  by apply (list_elem_of_fmap_2 pd_sender).
Qed.

Lemma remove_each_heads p r acc :
  pending_ok p -> heads p r ->
  let p' := (remove_each p (pd_id <$> r) acc).1 in
  (remove_each p (pd_id <$> r) acc).2 = acc ++ (pd_transaction <$> r) /\ pending_ok p' /\
  evicts (txs p) (pd_transaction <$> r) (txs p') /\ submission_id p' = submission_id p /\
  (forall s, s ∉ pd_sender <$> r -> highest_nonces p' !! s = highest_nonces p !! s) /\
  (forall s, is_Some (highest_nonces p' !! s) -> is_Some (highest_nonces p !! s)) /\
  keeps_exact p p'.
Proof.
  revert p acc. induction r as [|t r IH]; intros p acc Hok Hh; csimpl.
  { rewrite app_nil_r. split_and!; try done. apply evicts_nil. }
  pose proof (heads_by_id p _ t Hok Hh ltac:(set_solver)) as Ht.
  pose proof (heads_tail p t r Hok Hh) as Hh1.
  destruct (pending_remove_transaction_ok p (pd_id t) Hok) as (Hr & Hok1 & Hby & Hsub & Hother & Hsome).
  assert (Htx : txs p !! pd_id t = Some (pd_transaction t)) by (unfold txs; by rewrite lookup_fmap, Ht).
  pose proof (remove_highest_keeps p (pd_id t) t Hok Ht) as Hex1.
  destruct (remove_transaction p (pd_id t)) as [p1 o]. simpl in *. subst o. rewrite Htx.
  destruct (IH p1 (acc ++ [pd_transaction t]) Hok1 Hh1) as (Hacc & Hok2 & Hev & Hsub2 & Hoth2 & Hsome2 & Hex2).
  split_and!; [by rewrite Hacc, <- app_assoc|done| |congruence| | |].
  - apply (evicts_app _ [pd_transaction t] (txs p1)); [|done].
    replace (txs p1) with (delete (pd_id t) (txs p)) by (unfold txs; by rewrite Hby, fmap_delete).
    by apply evicts_one.
  - intros s Hs. rewrite not_elem_of_cons in Hs. destruct Hs as [Hs1 Hs2].
    rewrite Hoth2 by done. by apply Hother.
  - intros s Hs%Hsome2. destruct (decide (s = sender (pd_id t))) as [->|Hne]; [auto|].
    by rewrite Hother in Hs.
  - apply (keeps_exact_trans _ p1); [|done]. apply Hex1. intros Hex j [tj Hj] Hs.
    destruct Hex as (_ & _ & Hhi). destruct (Hhi j tj Hj) as (hi & Hhi' & Hle).
    rewrite Hs in Hhi'. pose proof (heads_in p _ Hh t ltac:(set_solver)) as Hhead.
    unfold pd_sender, vsender_id in Hhead. unfold pd_id in *. simplify_eq.
    destruct (ok_nonce p Hok _ _ Ht) as [Hn _]. lia.
Qed.

(** ** Removing down to a limit *)

Lemma size_bound p : pending_ok p -> Z.of_nat (size (by_id p)) < u64_modulus.
Proof.
  intros Hok. pose proof (ok_counter p Hok) as [Hc1 Hc2].
  set (subs := (fun e => pd_submission_id e.2) <$> map_to_list (by_id p)).
  assert (Hlen : length subs = size (by_id p)) by (unfold subs; by rewrite length_fmap, length_map_to_list).
  assert (subs ⊆+ seqZ 0 (submission_id p)) as Hsub.
  { apply NoDup_submseteq.
    - apply NoDup_fmap_2_strong; [|apply NoDup_map_to_list].
      intros [i t] [j t'] Hi%elem_of_map_to_list Hj%elem_of_map_to_list Heq. simpl in Heq.
      assert (i = j) as -> by (by eapply (ok_sub_inj p Hok)). congruence.
    - intros n ([i t] & -> & Hi%elem_of_map_to_list)%list_elem_of_fmap.
      apply elem_of_seqZ. apply (ok_sub p Hok) in Hi. simpl. lia. }
  apply submseteq_length in Hsub. rewrite Hlen, length_seqZ in Hsub. lia.
Qed.

Lemma heads_length p r : pending_ok p -> heads p r -> (length r <= size (by_id p))%nat.
Proof.
  intros Hok Hh. rewrite <- (length_fmap pd_id r).
  rewrite <- (size_list_to_set (C:=gset TransactionId) (pd_id <$> r)).
  - rewrite <- size_dom. apply subseteq_size. intros i Hi%elem_of_list_to_set.
    apply list_elem_of_fmap in Hi as (t & -> & Ht).
    apply elem_of_dom. exists t. by apply (heads_by_id p r).
  - destruct Hh as [_ Hnd]. apply (NoDup_fmap_1 sender).
    by rewrite <- list_fmap_compose.
Qed.

Definition senders p : gset SenderId := dom (highest_nonces p).

Lemma senders_size p : size (senders p) = size (highest_nonces p).
Proof. apply size_dom. Qed.

Lemma worst_heads p : pending_ok p -> heads p (worst_transactions p).
Proof.
  intros Hok. unfold worst_transactions. split.
  - intros t. rewrite merge_sort_Permutation. intros ([s t'] & -> & Ht%elem_of_map_to_list)%list_elem_of_fmap.
    simpl. by destruct (ok_high p Hok _ _ Ht) as [<- _].
  - rewrite merge_sort_Permutation, <- list_fmap_compose.
    rewrite (list_fmap_ext _ fst (map_to_list _)); [apply NoDup_fst_map_to_list|].
    intros n [s t] He%list_elem_of_lookup_2%elem_of_map_to_list. simpl.
    by destruct (ok_high p Hok _ _ He) as [<- _].
Qed.

Lemma senders_le p : pending_ok p -> (size (senders p) <= size (by_id p))%nat.
Proof.
  intros Hok. rewrite senders_size.
  rewrite <- (heads_length p (worst_transactions p) Hok (worst_heads p Hok)).
  unfold worst_transactions. by rewrite merge_sort_Permutation, length_fmap, length_map_to_list.
Qed.

Lemma worst_complete p s t :
  highest_nonces p !! s = Some t -> t ∈ worst_transactions p.
Proof.
  intros Ht. unfold worst_transactions. rewrite merge_sort_Permutation.
  apply list_elem_of_fmap. exists (s, t). split; [done|]. by apply elem_of_map_to_list.
Qed.

Definition sum_sizes (r : list PendingTransaction) : Z :=
  foldr (fun t acc => vsize (pd_transaction t) + acc) 0 r.

Lemma sum_sizes_app r1 r2 : sum_sizes (r1 ++ r2) = sum_sizes r1 + sum_sizes r2.
Proof. induction r1 as [|t r1 IH]; simpl; [done|]. rewrite IH. lia. Qed.

Lemma size_without (X L : gset SenderId) s :
  s ∈ X -> s ∉ L -> size (X ∖ L) = S (size (X ∖ ({[s]} ∪ L))).
Proof.
  intros HX HL. replace (X ∖ L) with ({[s]} ∪ X ∖ ({[s]} ∪ L)).
  - rewrite size_union by set_solver. by rewrite size_singleton.
  - apply set_eq. intros x. destruct (decide (x = s)); set_solver.
Qed.

Section limit_proofs.
Context (limit : SubPoolLimit) (remove_locals : bool) (original_length original_size : Z).
Context (Hlen : is_u64 original_length).

(** The counters during a round, with [r] the transactions chosen so far. *)
Record scan_inv p (st : LimitState) (r : list PendingTransaction) : Prop := {
  si_heads : heads p r;
  si_removed : removed st = pd_id <$> r;
  si_count : total_removed st = original_length - len p + Z.of_nat (length r);
  si_len : len p <= original_length;
  si_size : wrap_u64 (original_size - total_size st) = wrap_u64 (pool_size p - sum_sizes r);
  si_non_local : non_local_senders st = Z.of_nat (size (senders p ∖ local_senders st));
  si_local s : s ∈ local_senders st -> remove_locals = false /\
    exists t, highest_nonces p !! s = Some t /\ vis_local (pd_transaction t) = true;
  si_kind t : t ∈ r -> remove_locals = true \/ vis_local (pd_transaction t) = false;
}.

Lemma limit_scan_inv p worst st r :
  pending_ok p -> heads p (r ++ worst) -> scan_inv p st r ->
  let res := limit_scan limit remove_locals original_length original_size worst st in
  exists r', scan_inv p res.2 (r ++ r') /\ heads p (r ++ r') /\
    local_senders st ⊆ local_senders res.2 /\
    (res.1 = true ->
       limit_is_exceeded limit (len p - Z.of_nat (length (r ++ r')))
         (wrap_u64 (pool_size p - sum_sizes (r ++ r'))) = false \/ non_local_senders res.2 = 0) /\
    (res.1 = false -> forall t, t ∈ worst -> t ∈ r' \/ pd_sender t ∈ local_senders res.2).
Proof.
  intros Hok. revert st r. induction worst as [|t worst IH]; intros st r Hh Hinv res.
  { subst res. exists []. rewrite app_nil_r in *. simpl. split_and!; [done..|set_solver]. }
  pose proof (si_count _ _ _ Hinv) as Hcount. pose proof (si_len _ _ _ Hinv) as Hle.
  pose proof (heads_length p _ Hok Hh) as Hhl. rewrite length_app in Hhl. simpl in Hhl.
  assert (Hlp : len p = Z.of_nat (size (by_id p))) by done.
  unfold is_u64 in Hlen. subst res. simpl.
  rewrite (wrap_u64_small (original_length - total_removed st)) by (unfold is_u64; lia).
  rewrite (si_size _ _ _ Hinv).
  replace (original_length - total_removed st) with (len p - Z.of_nat (length r)) by lia.
  destruct (_ || _)%bool eqn:Eearly.
  { exists []. rewrite app_nil_r. simpl. split_and!; [done|apply Hinv|done| |done].
    intros _. apply orb_true_iff in Eearly as [E|E]; bools; auto. }
  bools. pose proof (heads_in _ _ Hh t ltac:(set_solver)) as Hhead.
  assert (Hskip : heads p (r ++ worst)).
  { eapply heads_sublist; [|done]. apply sublist_app; [done|by constructor]. }
  destruct (_ && _)%bool eqn:Eloc.
  - (* a local transaction stays *)
    bools. fold (pd_sender t). 
    set (st1 := mkLimitState (removed st) (total_removed st) (total_size st)
                  (wrap_u64 (non_local_senders st - 1)) ({[pd_sender t]} ∪ local_senders st)).
    set (st' := if bool_decide (pd_sender t ∈ local_senders st) then st else st1).
    assert (Hst' : scan_inv p st' r /\ local_senders st' = {[pd_sender t]} ∪ local_senders st).
    { subst st'. case_bool_decide as Hmem; [split; [done|set_solver]|]. split; [|done].
      destruct Hinv as [I1 I2 I3 I4 I5 I6 I7 I8]. split; simpl; try done.
      - pose proof (size_bound p Hok). pose proof (senders_le p Hok).
        assert (size (senders p ∖ local_senders st) <= size (senders p))%nat
          by (apply subseteq_size; set_solver).
        pose proof (size_without (senders p) _ _ (elem_of_dom_2 _ _ _ Hhead) Hmem).
        rewrite I6. replace (_ - 1)
          with (Z.of_nat (size (senders p ∖ ({[pd_sender t]} ∪ local_senders st)))) by lia.
        apply wrap_u64_small. unfold is_u64. lia.
      - intros s [->%elem_of_singleton|Hs]%elem_of_union; [|auto]. eauto. }
    destruct Hst' as [Hinv' Hloc'].
    assert (Hif : (if bool_decide (pd_sender t ∈ local_senders st)
        then limit_scan limit remove_locals original_length original_size worst st
        else limit_scan limit remove_locals original_length original_size worst st1) =
      limit_scan limit remove_locals original_length original_size worst st')
      by (subst st'; by case_bool_decide).
    rewrite Hif. clear Hif.
    destruct (IH st' r Hskip Hinv') as (r' & C1 & C2 & C3 & C4 & C5).
    exists r'. split_and!; [done|done|set_solver|done|].
    intros He t' [->|Ht']%elem_of_cons; [right; set_solver|auto].
  - (* it is chosen *)
    set (st' := mkLimitState _ _ _ _ _).
    assert (Hinv' : scan_inv p st' (r ++ [t])).
    { subst st'. destruct Hinv as [I1 I2 I3 I4 I5 I6 I7 I8]. split; simpl; try done.
      - eapply heads_sublist; [|exact Hh]. apply sublist_app; [done|].
        constructor. apply sublist_nil_l.
      - by rewrite I2, fmap_app.
      - rewrite length_app. simpl. rewrite wrap_u64_small; [lia|]. unfold is_u64. lia.
      - rewrite sum_sizes_app. simpl. rewrite wrap_u64_sub_r.
        replace (original_size - (total_size st + vsize (pd_transaction t)))
          with (original_size - total_size st - vsize (pd_transaction t)) by lia.
        rewrite <- wrap_u64_sub_l, I5, wrap_u64_sub_l. f_equal. lia.
      - intros t' [Ht'| ->%list_elem_of_singleton]%elem_of_app; [auto|].
        apply andb_false_iff in Eloc as [E|E]; bools; auto. }
    rewrite cons_middle, app_assoc in Hh.
    destruct (IH st' (r ++ [t]) Hh Hinv') as (r' & C1 & C2 & C3 & C4 & C5).
    exists (t :: r'). rewrite <- app_assoc in *. simpl in *. split_and!; [done|done|done|done|].
    intros He t' [->|Ht']%elem_of_cons; [left; set_solver|]. destruct (C5 He t' Ht'); set_solver.
Qed.

(** The outcome of removing down to the limit. *)
Record limit_post p (removed : list ValidPoolTransaction) p' : Prop := {
  lp_ok : pending_ok p';
  lp_evicts : evicts (txs p) removed (txs p');
  lp_submission : submission_id p' = submission_id p;
  lp_exact : keeps_exact p p';
  lp_kind (vtx : ValidPoolTransaction) : vtx ∈ removed -> remove_locals = true \/ vis_local vtx = false;
}.

Definition limit_done p : Prop :=
  exceeds p limit = false \/
  forall s t, highest_nonces p !! s = Some t -> remove_locals = false /\ vis_local (pd_transaction t) = true.

(** The counters between two rounds. *)
Record loop_inv p (unique : Z) (st : LimitState) : Prop := {
  li_count : total_removed st = original_length - len p;
  li_len : len p <= original_length;
  li_size : wrap_u64 (original_size - total_size st) = pool_size p;
  li_non_local : wrap_u64 (non_local_senders st - wrap_u64 (unique - Z.of_nat (size (senders p)))) =
    Z.of_nat (size (senders p ∖ local_senders st));
  li_local s : s ∈ local_senders st -> remove_locals = false /\
    exists t, highest_nonces p !! s = Some t /\ vis_local (pd_transaction t) = true;
}.

Lemma pool_size_u64 p : wrap_u64 (pool_size p) = pool_size p.
Proof. apply wrap_u64_small, wrap_u64_is_u64. Qed.

Lemma loop_scan_inv p unique st :
  loop_inv p unique st ->
  scan_inv p
    (mkLimitState [] (total_removed st) (total_size st)
       (wrap_u64 (non_local_senders st - wrap_u64 (unique - Z.of_nat (size (highest_nonces p)))))
       (local_senders st)) [].
Proof.
  intros [L1 L2 L3 L4 L5]. split; simpl; try done.
  - split; [set_solver|constructor].
  - lia.
  - by rewrite Z.sub_0_r, pool_size_u64.
  - by rewrite <- senders_size.
  - set_solver.
Qed.

(** After the transactions of a round are removed. *)
Lemma round_post p st r p' :
  pending_ok p -> scan_inv p st r -> pending_ok p' -> evicts (txs p) (pd_transaction <$> r) (txs p') ->
  (forall s, s ∉ pd_sender <$> r -> highest_nonces p' !! s = highest_nonces p !! s) ->
  (forall s, is_Some (highest_nonces p' !! s) -> is_Some (highest_nonces p !! s)) ->
  len p' = len p - Z.of_nat (length r) /\ pool_size p' = wrap_u64 (pool_size p - sum_sizes r) /\
  loop_inv p' (Z.of_nat (size (highest_nonces p))) st.
Proof.
  intros Hok [I1 I2 I3 I4 I5 I6 I7 I8] Hok' Hev Hsame Hsub.
  assert (Hl : len p' = len p - Z.of_nat (length r)).
  { apply evicts_size in Hev. unfold txs in Hev. rewrite !map_size_fmap, length_fmap in Hev.
    unfold len. lia. }
  assert (Hsz : pool_size p' = wrap_u64 (pool_size p - sum_sizes r)).
  { rewrite (ok_size p' Hok'), (ok_size p Hok),  (evicts_total_size _ _ _ Hev), wrap_u64_sub_l. do 2 f_equal.
    unfold sum_sizes. clear. induction r as [|t r IH]; csimpl; [done|]. by rewrite IH. }
  assert (Hloc : forall s, s ∈ local_senders st ->
    highest_nonces p' !! s = highest_nonces p !! s).
  { intros s Hs. apply Hsame. intros (t & -> & Ht)%list_elem_of_fmap.
    destruct (I7 _ Hs) as (Hrl & t' & Ht' & Hlt). rewrite (heads_in _ _ I1 t Ht) in Ht'.
    simplify_eq. destruct (I8 _ Ht); congruence. }
  assert (Hsenders : senders p' ⊆ senders p).
  { intros s. unfold senders. rewrite !elem_of_dom. apply Hsub. }
  assert (HL : local_senders st ⊆ senders p').
  { intros s Hs. apply elem_of_dom. rewrite Hloc by done. destruct (I7 _ Hs) as (_ & t & -> & _). eauto. }
  split_and!; [done|done|]. split.
  - lia.
  - lia.
  - by rewrite I5, Hsz.
  - pose proof (size_bound p Hok). pose proof (senders_le p Hok).
    pose proof (subseteq_size _ _ Hsenders).
    rewrite I6, <- senders_size, !size_difference by set_solver.
    pose proof (subseteq_size _ _ HL).
    rewrite (wrap_u64_small (Z.of_nat (size (senders p)) - _)) by (unfold is_u64; lia).
    rewrite wrap_u64_small by (unfold is_u64; lia). lia.
  - intros s Hs. rewrite Hloc by done. auto.
Qed.

Lemma limit_loop_ok fuel p unique st acc :
  pending_ok p -> (size (by_id p) < fuel)%nat -> loop_inv p unique st ->
  exists p' r, limit_loop limit remove_locals original_length original_size fuel p unique st acc =
                 Some (p', acc ++ r) /\ limit_post p r p' /\ limit_done p'.
Proof.
  revert p unique st acc.
  induction fuel as [|fuel IH]; intros p unique st acc Hok Hfuel Hinv; [lia|]. simpl.
  pose proof (loop_scan_inv p unique st Hinv) as Hsi.
  destruct (limit_scan_inv p (worst_transactions p) _ [] Hok (worst_heads p Hok) Hsi)
    as (r & Hsi' & Hh & _ & Hearly & Hcomplete).
  destruct (limit_scan _ _ _ _ _ _) as [early st1]. simpl in Hsi', Hh, Hearly, Hcomplete.
  pose proof (remove_each_heads p r acc Hok Hh) as (Hacc & Hok' & Hev & Hsub & Hsame & Hsome & Hex).
  rewrite (si_removed _ _ _ Hsi').
  destruct (remove_each p (pd_id <$> r) acc) as [p' acc']. simpl in Hacc, Hok', Hev, Hsub, Hsame, Hsome, Hex.
  destruct (round_post p st1 r p' Hok Hsi' Hok' Hev Hsame Hsome) as (Hl & Hsz & Hinv').
  assert (Hpost : limit_post p (pd_transaction <$> r) p').
  { split; [done..|]. intros tx0 (t & -> & Ht)%list_elem_of_fmap. by apply (si_kind _ _ _ Hsi'). }
  assert (Hnl : non_local_senders st1 = 0 -> limit_done p').
  { intros Hz. right. intros s t Ht. rewrite (si_non_local _ _ _ Hsi') in Hz.
    assert (He : senders p ∖ local_senders st1 = ∅) by (apply leibniz_equiv, size_empty_iff; lia).
    assert (Hs : s ∈ local_senders st1).
    { assert (s ∈ senders p) by (apply elem_of_dom, Hsome; eauto). set_solver. }
    destruct (li_local _ _ _ Hinv' s Hs) as (? & t' & Ht' & ?). split; [done|]. congruence. }
  destruct early.
  { exists p', (pd_transaction <$> r). rewrite Hacc. split_and!; [done|done|].
    destruct (Hearly eq_refl) as [E|E]; [left|auto].
    unfold exceeds. by rewrite Hl, Hsz. }
  destruct (_ || _)%bool eqn:Eend.
  { exists p', (pd_transaction <$> r). rewrite Hacc. split_and!; [done|done|].
    apply orb_true_iff in Eend as [E|E]; bools; [by left|auto]. }
  bools. destruct (IH p' (Z.of_nat (size (highest_nonces p))) st1 acc' Hok') as (p2 & r2 & Heq & Hpost2 & Hdone);
    [|done|].
  { assert (r <> []) as Hne; [|unfold len in Hl; destruct r; [done|simpl in Hl; lia]].
    intros ->. apply H1. rewrite (si_non_local _ _ _ Hsi').
    rewrite (proj2 (size_empty_iff _)); [done|]. intros s. split; [|set_solver].
    intros [Hdom Hs]%elem_of_difference. unfold senders in Hdom. apply elem_of_dom in Hdom as [t Ht].
    destruct (Hcomplete eq_refl t (worst_complete p s t Ht)) as [?|Hin]; [set_solver|].
    destruct (ok_high p Hok s t Ht) as [<- _]. done. }
  exists p2, ((pd_transaction <$> r) ++ r2). rewrite Heq, Hacc, app_assoc.
  split_and!; [done| |done]. destruct Hpost2 as [Q1 Q2 Q3 Q4 Q5]. split; [done| |congruence| |].
  - by eapply evicts_app.
  - by apply (keeps_exact_trans _ p').
  - intros tx0 [Htx|Htx]%elem_of_app; [by apply (lp_kind _ _ _ Hpost)|auto].
Qed.

End limit_proofs.

Lemma remove_to_limit_ok p limit remove_locals acc :
  pending_ok p ->
  exists p' r, remove_to_limit p limit remove_locals acc = Some (p', acc ++ r) /\
    limit_post remove_locals p r p' /\ limit_done limit remove_locals p'.
Proof.
  intros Hok. pose proof (size_bound p Hok) as Hb. pose proof (senders_le p Hok) as Hs.
  unfold remove_to_limit. apply limit_loop_ok; [|done|lia|].
  - unfold is_u64, len. lia.
  - split; simpl.
    + lia.
    + done.
    + rewrite Z.sub_0_r. apply pool_size_u64.
    + rewrite <- senders_size, Z.sub_diag, difference_empty_L.
      change (wrap_u64 0) with 0. rewrite Z.sub_0_r. apply wrap_u64_small. unfold is_u64. lia.
    + set_solver.
Qed.

(** Truncation: the pool ends within the limit, unless no sender is left in
    the index of highest nonces; local transactions only go when removing all
    others was not enough. *)
Lemma pending_truncate_pool_ok p limit :
  pending_ok p ->
  exists p' removed, truncate_pool p limit = Some (p', removed) /\ pending_ok p' /\
    evicts (txs p) removed (txs p') /\ submission_id p' = submission_id p /\
    keeps_exact p p' /\
    (exceeds p' limit = false \/ highest_nonces p' = ∅).
Proof.
  intros Hok. unfold truncate_pool. destruct (exceeds p limit) eqn:E0; simpl.
  2:{ exists p, []. split_and!; try done; [apply evicts_nil|auto]. }
  destruct (remove_to_limit_ok p limit false [] Hok) as (p1 & r1 & Heq1 & [A1 A2 A3 A4 A5] & _).
  rewrite Heq1. simpl. destruct (exceeds p1 limit) eqn:E1; simpl.
  2:{ exists p1, r1. split_and!; auto. }
  destruct (remove_to_limit_ok p1 limit true r1 A1) as (p2 & r2 & Heq2 & [B1 B2 B3 B4 B5] & Hd).
  exists p2, (r1 ++ r2). rewrite Heq2.
  split_and!; [done|done|by eapply evicts_app|congruence|by apply (keeps_exact_trans _ p1)|].
  destruct Hd as [?|Hd]; [auto|right]. apply map_empty. intros s.
  destruct (highest_nonces p2 !! s) as [t|] eqn:Ht; [|done]. by destruct (Hd s t Ht).
Qed.

(** An exact pool without highest nonces is empty, hence within the limit. *)
Lemma exact_no_heads p limit :
  pending_ok p -> exact p -> highest_nonces p = ∅ -> 0 <= max_txs limit -> 0 <= max_size limit ->
  exceeds p limit = false.
Proof.
  intros Hok (_ & _ & Hh) He Hm Hs.
  assert (Hem : by_id p = ∅).
  { apply map_empty. intros i. destruct (by_id p !! i) as [t|] eqn:Hi; [|done].
    destruct (Hh _ _ Hi) as (t' & Ht' & _). by rewrite He, lookup_empty in Ht'. }
  unfold exceeds, limit_is_exceeded, len. rewrite (ok_size p Hok). unfold txs.
  rewrite Hem, fmap_empty, total_size_empty, map_size_empty.
  apply orb_false_iff. split; apply Z.ltb_ge; done.
Qed.

Lemma update_base_fee_ok p bf :
  pending_ok p ->
  let p' := (update_base_fee p bf).1 in
  pending_ok p' /\ (lowest_exact p' /\ highest_exact p') /\ submission_id p' = submission_id p /\
  evicts (txs p) (update_base_fee p bf).2 (txs p') /\
  (forall i t', by_id p' !! i = Some t' <->
     exists t, by_id p !! i = Some t /\ t' = (reprioritize bf (i, t)).2 /\
       (forall j b, by_id p !! j = Some b -> sender j = sender i -> nonce j <= nonce i ->
          base_fee_unmet bf b = false)).
Proof. intros Hok. rewrite update_base_fee_eq. by apply rebuild_scan. Qed.

Lemma update_blob_fee_ok p fee :
  pending_ok p ->
  let p' := (update_blob_fee p fee).1 in
  pending_ok p' /\ (lowest_exact p' /\ highest_exact p') /\ submission_id p' = submission_id p /\
  evicts (txs p) (update_blob_fee p fee).2 (txs p') /\
  (forall i t', by_id p' !! i = Some t' <->
     exists t, by_id p !! i = Some t /\ t' = t /\
       (forall j b, by_id p !! j = Some b -> sender j = sender i -> nonce j <= nonce i ->
          blob_fee_unmet fee b = false)).
Proof. intros Hok. rewrite update_blob_fee_eq. by apply (rebuild_scan p _ (fun e => e)). Qed.

(** Dropping the tail of each sender keeps the nonces consecutive. *)
Lemma gapless_prefix m m' :
  gapless m -> (forall i, is_Some (m' !! i) -> is_Some (m !! i)) ->
  (forall i j, is_Some (m' !! j) -> is_Some (m !! i) -> sender i = sender j -> nonce i <= nonce j ->
     is_Some (m' !! i)) ->
  gapless m'.
Proof.
  intros Hg Hsub Hdown i j Hi Hj Hs Hlt. apply (Hdown _ j); [done|by apply (Hg i j); auto|done|].
  simpl. lia.
Qed.

(** ** Sequences of operations *)

(** All that [TxPool] does with the pending pool. *)
Inductive pending_step : PendingPool -> PendingPool -> Prop :=
| step_add p (tx : ValidPoolTransaction) bf :
    by_id p !! transaction_id tx = None -> accepts tx -> submission_id p < u64_modulus - 1 ->
    pending_step p (add_transaction p tx bf)
| step_remove p i : pending_step p (remove_transaction p i).1
| step_base_fee p bf : pending_step p (update_base_fee p bf).1
| step_blob_fee p fee : pending_step p (update_blob_fee p fee).1
| step_truncate p limit p' r : truncate_pool p limit = Some (p', r) -> pending_step p p'.

Lemma pending_step_ok p p' : pending_ok p -> pending_step p p' -> pending_ok p'.
Proof.
  intros Hok Hs. destruct Hs as [p tx bf|p i|p bf|p fee|p limit p' r Hr].
  - by apply pending_add_transaction_ok.
  - by apply pending_remove_transaction_ok.
  - by apply update_base_fee_ok.
  - by apply update_blob_fee_ok.
  - destruct (pending_truncate_pool_ok p limit Hok) as (? & ? & ? & ? & _). congruence.
Qed.

Lemma pending_steps_ok p p' : rtc pending_step p p' -> pending_ok p -> pending_ok p'.
Proof. induction 1; eauto using pending_step_ok. Qed.

(** The operations at the ends of a sender's run of nonces: a transaction is
    appended or starts a run, the first or the last one is removed. *)
Definition appends p (i : TransactionId) : Prop :=
  forall j, is_Some (by_id p !! j) -> sender j = sender i ->
    nonce j < nonce i /\ is_Some (by_id p !! mkTransactionId (sender i) (nonce i - 1)).

Inductive end_step : PendingPool -> PendingPool -> Prop :=
| end_add p (tx : ValidPoolTransaction) bf :
    by_id p !! transaction_id tx = None -> accepts tx -> submission_id p < u64_modulus - 1 ->
    appends p (transaction_id tx) -> end_step p (add_transaction p tx bf)
| end_remove p i : is_lowest p i \/ is_highest p i -> end_step p (remove_transaction p i).1
| end_base_fee p bf : end_step p (update_base_fee p bf).1
| end_blob_fee p fee : end_step p (update_blob_fee p fee).1
| end_truncate p limit p' r : truncate_pool p limit = Some (p', r) -> end_step p p'.

Lemma end_step_pending p p' : end_step p p' -> pending_step p p'.
Proof. intros []; by econstructor. Qed.

Lemma add_exact p (vtx : ValidPoolTransaction) bf :
  pending_ok p -> exact p -> by_id p !! transaction_id vtx = None -> accepts vtx ->
  appends p (transaction_id vtx) -> exact (add_transaction p vtx bf).
Proof.
  intros Hok (Hg & Hl & Hh) Hnew [Hn Hu] Happ. rewrite pending_add_transaction_eq. split.
  - rewrite reinsert_by_id. simpl. intros i j.
    rewrite !lookup_insert_is_Some'. intros [Hi|Hi] [Hj|Hj] Hs Hlt.
    + subst. lia.
    + subst i. destruct (Happ j Hj) as [? _]; [done|]. lia.
    + subst j. destruct (Happ i Hi Hs) as [_ Hprev].
      destruct (decide (nonce i + 1 = nonce (transaction_id vtx))) as [E|E].
      * left. destruct (transaction_id vtx); simpl in *. congruence.
      * right. rewrite <- Hs in Hprev. eapply (Hg i); [done|exact Hprev|done|simpl; lia].
    + right. by apply (Hg i j).
  - by apply reinsert_exact.
Qed.

Lemma end_step_exact p p' : pending_ok p -> exact p -> end_step p p' -> exact p'.
Proof.
  intros Hok Hex Hs. destruct Hs as [p tx bf|p i Hend|p bf|p fee|p limit p' r Hr].
  - by apply add_exact.
  - destruct (by_id p !! i) as [t|] eqn:Hi; [by eapply remove_exact|].
    by rewrite remove_transaction_absent.
  - destruct (update_base_fee_ok p bf Hok) as (_ & He & _ & _ & Hlook). split; [|done].
    apply (gapless_prefix (by_id p)); [apply Hex| |].
    + intros i [t' (t & Ht & _)%Hlook]. eauto.
    + intros i j [tj (t & Ht & _ & Hall)%Hlook] [ti Hi] Hs Hle. eexists. apply Hlook.
      eexists. split_and!; [done|done|]. intros k b Hk Hs' Hn. apply (Hall k b Hk); [congruence|lia].
  - destruct (update_blob_fee_ok p fee Hok) as (_ & He & _ & _ & Hlook). split; [|done].
    apply (gapless_prefix (by_id p)); [apply Hex| |].
    + intros i [t' (t & Ht & _)%Hlook]. eauto.
    + intros i j [tj (t & Ht & _ & Hall)%Hlook] [ti Hi] Hs Hle. eexists. apply Hlook.
      eexists. split_and!; [done|done|]. intros k b Hk Hs' Hn. apply (Hall k b Hk); [congruence|lia].
  - destruct (pending_truncate_pool_ok p limit Hok) as (? & ? & ? & _ & _ & _ & He & _).
    simplify_eq. by apply He.
Qed.

Lemma end_steps_exact p p' :
  rtc end_step p p' -> pending_ok p -> exact p -> pending_ok p' /\ exact p'.
Proof. induction 1; eauto using end_step_exact, pending_step_ok, end_step_pending. Qed.

Lemma exact_new : exact pending_new.
Proof.
  split_and!; [intros i j [t Ht]|intros i t Ht|intros i t Ht]; simpl in Ht;
    by rewrite lookup_empty in Ht.
Qed.

(** ** Properties *)

(** The per-sender indices of the pending pool only ever name
    transactions that are in it.  In every pool reachable from the empty one
    the independent and the highest transaction of a sender are transactions of
    that sender that the pool holds, submission identifiers are unique, and the
    tracked size is the sum of the sizes. *)
Theorem pending_reachable_ok p :
  rtc pending_step pending_new p ->
  pending_ok p /\
  (forall s t, independent_transactions p !! s = Some t \/ highest_nonces p !! s = Some t ->
     vsender_id (pd_transaction t) = s /\ txs p !! transaction_id (pd_transaction t) = Some (pd_transaction t)).
Proof.
  intros Hr. assert (Hok : pending_ok p) by (eapply pending_steps_ok; [done|apply pending_ok_new]).
  split; [done|]. intros s t Ht.
  assert (Hi : vsender_id (pd_transaction t) = s /\ by_id p !! transaction_id (pd_transaction t) = Some t).
  { destruct Ht; [by apply (ok_ind p Hok)|by apply (ok_high p Hok)]. }
  destruct Hi as [? Hi]. split; [done|]. unfold txs. by rewrite lookup_fmap, Hi.
Qed.

(** While transactions are appended to and removed from the ends of a
    sender's run of nonces, in any interleaving with fee updates and
    truncations, the nonces of every sender stay consecutive, the independent
    transaction is its lowest and the tracked head its highest nonce. *)
Theorem pending_ends_exact p :
  rtc end_step pending_new p ->
  (forall i j, is_Some (txs p !! i) -> is_Some (txs p !! j) -> sender i = sender j ->
     forall n, nonce i <= n <= nonce j -> is_Some (txs p !! mkTransactionId (sender i) n)) /\
  (forall i, is_Some (txs p !! i) ->
     exists lo hi, independent_transactions p !! sender i = Some lo /\
       highest_nonces p !! sender i = Some hi /\
       vnonce (pd_transaction lo) <= nonce i <= vnonce (pd_transaction hi)).
Proof.
  intros Hr. destruct (end_steps_exact _ _ Hr pending_ok_new exact_new) as [Hok (Hg & Hl & Hh)].
  assert (Hin : forall i, is_Some (txs p !! i) <-> is_Some (by_id p !! i)).
  { intros i. unfold txs. by rewrite lookup_fmap, fmap_is_Some. }
  split.
  - intros i j. rewrite !Hin. intros Hi Hj Hs n Hn. rewrite Hin. by eapply gapless_between.
  - intros i. rewrite Hin. intros [t Ht].
    destruct (Hl _ _ Ht) as (lo & ? & ?). destruct (Hh _ _ Ht) as (hi & ? & ?). by exists lo, hi.
Qed.

(** Truncating the pending pool ends and removes only transactions of the
    pool, each once.  Starting from exact indices the pool is within its limit
    afterwards, the indices are still exact and what is left of each sender is
    a prefix of its nonces; a local transaction is only
    removed when the pool still exceeded the limit after the pass that spares
    local transactions. *)
Theorem pending_truncate p limit :
  pending_ok p -> exact p -> 0 <= max_txs limit -> 0 <= max_size limit ->
  exists p' removed, truncate_pool p limit = Some (p', removed) /\
    pending_ok p' /\ exact p' /\ prefix p p' /\ exceeds p' limit = false /\
    evicts (txs p) removed (txs p') /\
    (forall vtx, vtx ∈ removed -> vis_local vtx = true ->
       exists p1 r1, remove_to_limit p limit false [] = Some (p1, r1) /\ exceeds p1 limit = true).
Proof.
  intros Hok Hex Hm Hs.
  destruct (pending_truncate_pool_ok p limit Hok) as (p' & r & Heq & Hok' & Hev & _ & Hex' & Hend).
  destruct (Hex' Hex) as [Hex1 Hpre]. exists p', r. split_and!; auto.
  - destruct Hend as [?|Hend]; [done|]. by apply exact_no_heads.
  - intros vtx Hv Hloc. unfold truncate_pool in Heq. destruct (exceeds p limit) eqn:E0; simpl in Heq.
    2:{ simplify_eq. set_solver. }
    destruct (remove_to_limit_ok p limit false [] Hok) as (p1 & r1 & Heq1 & [_ _ _ _ Hk] & _).
    rewrite Heq1 in *. simpl in *. exists p1, r1. split; [done|].
    destruct (exceeds p1 limit) eqn:E1; [done|]. simpl in Heq. simplify_eq.
    destruct (Hk vtx Hv); congruence.
Qed.

(** A base fee update keeps exactly the transactions that are still
    affordable together with everything before them: a transaction stays iff
    it and every transaction of its sender with a lower nonce pay the base fee.
    What stays is re-prioritised under the new fee, what goes is returned, each
    once, and both per-sender indices are exact afterwards. *)
Theorem update_base_fee_exact p bf :
  pending_ok p ->
  let '(p', removed) := update_base_fee p bf in
  pending_ok p' /\ lowest_exact p' /\ highest_exact p' /\
  evicts (txs p) removed (txs p') /\
  (forall i t', by_id p' !! i = Some t' <->
     exists t, by_id p !! i = Some t /\
       t' = mkPending (pd_submission_id t) (pd_transaction t)
              (priority (transaction (pd_transaction t)) bf) /\
       (forall j b, by_id p !! j = Some b -> sender j = sender i -> nonce j <= nonce i ->
          bf <= vmax_fee_per_gas (pd_transaction b))).
Proof.
  intros Hok. pose proof (update_base_fee_ok p bf Hok) as (? & [? ?] & _ & ? & Hlook).
  destruct (update_base_fee p bf) as [p' removed]. simpl in *. split_and!; [done..|].
  intros i t'. rewrite Hlook. unfold base_fee_unmet. simpl. setoid_rewrite Z.ltb_ge. done.
Qed.

(** A blob fee update removes a transaction exactly when it, or one of its
    sender with a lower nonce, is a blob transaction whose blob fee cap is below
    the new fee (a blob transaction without one counts as below). *)
Theorem update_blob_fee_exact p fee :
  pending_ok p ->
  let '(p', removed) := update_blob_fee p fee in
  pending_ok p' /\ evicts (txs p) removed (txs p') /\
  (forall vtx, vtx ∈ removed <->
     txs p !! transaction_id vtx = Some vtx /\
     exists j b, by_id p !! j = Some b /\ sender j = vsender_id vtx /\
       nonce j <= nonce (transaction_id vtx) /\ vis_eip4844 (pd_transaction b) = true /\
       match vmax_fee_per_blob_gas (pd_transaction b) with Some f => f < fee | None => True end).
Proof.
  intros Hok. pose proof (update_blob_fee_ok p fee Hok) as (Hok' & _ & _ & Hev & Hlook).
  destruct (update_blob_fee p fee) as [p' removed]. simpl in *. split_and!; [done..|].
  assert (Hunmet : forall b, blob_fee_unmet fee b = true <-> vis_eip4844 (pd_transaction b) = true /\
    match vmax_fee_per_blob_gas (pd_transaction b) with Some f => f < fee | None => True end).
  { intros b. unfold blob_fee_unmet, option_lt. rewrite andb_true_iff.
    destruct (vmax_fee_per_blob_gas _); rewrite ?Z.ltb_lt; tauto. }
  intros vtx. set (i := transaction_id vtx). split.
  - intros Hv. pose proof (ev_from _ _ _ Hev vtx Hv) as Hin. split; [done|].
    unfold txs in Hin. rewrite lookup_fmap in Hin. apply fmap_Some in Hin as (t & Ht & _). fold i in Ht.
    destruct (decide (map_Forall (fun j b => sender j = sender i -> nonce j <= nonce i ->
      blob_fee_unmet fee b = false) (by_id p))) as [Hall|Hnot].
    + assert (by_id p' !! i = Some t) as Hp' by (apply Hlook; eauto).
      pose proof (ev_rest _ _ _ Hev) as Hrest. apply (f_equal (lookup i)) in Hrest.
      rewrite lookup_delete_txs, bool_decide_eq_true_2 in Hrest by (by apply list_elem_of_fmap_2).
      unfold txs in Hrest. rewrite lookup_fmap, Hp' in Hrest. done.
    + apply map_not_Forall in Hnot as (j & b & Hj & Hn); [|apply _]. exists j, b.
      destruct (blob_fee_unmet fee b) eqn:Eb; [|by destruct Hn].
      apply Hunmet in Eb as [? ?].
      destruct (decide (sender j = sender i)); [|exfalso; apply Hn; intros; congruence].
      destruct (decide (nonce j <= nonce i)); [|exfalso; apply Hn; intros; lia].
      by split_and!.
  - intros (Hin & j & b & Hj & Hs & Hn & Hb). apply (evicts_removed _ _ _ i vtx Hev Hin).
    unfold txs. rewrite lookup_fmap. destruct (by_id p' !! i) as [t'|] eqn:Ht'; [|done].
    apply Hlook in Ht' as (t & _ & _ & Hall). apply Hunmet in Hb.
    rewrite (Hall j b Hj) in Hb; done.
Qed.

End pending.

(** ** Examples and witnesses *)

Section examples.
#[local] Existing Instance mainnet_constants.
#[local] Instance example_ordering : TransactionOrdering := CoinbaseTipOrdering example_tip.

(** Three consecutive transactions of one sender and one of another. *)
Definition example_txs : list ValidPoolTransaction :=
  [example_tx 1 7 0 100 0; example_tx 2 7 1 90 0; example_tx 3 7 2 120 0; example_tx 4 9 5 80 0].

Definition example_pending : PendingPool :=
  foldl (fun p tx => add_transaction p tx 10) pending_new example_txs.

Lemma appends_by_keys p i :
  forallb (fun j => negb (sender j =? sender i) ||
    ((nonce j <? nonce i) && bool_decide (is_Some (by_id p !! mkTransactionId (sender i) (nonce i - 1)))))%bool
    (map_to_list (by_id p)).*1 = true -> appends p i.
Proof.
  rewrite forallb_forall. intros Hall j [t Hj] Hs.
  specialize (Hall j). rewrite <- list_elem_of_In, list_elem_of_fmap in Hall.
  specialize (Hall (ex_intro _ (j, t) (conj eq_refl (proj2 (elem_of_map_to_list _ _ _) Hj)))).
  apply orb_true_iff in Hall as [E|E]; bools; done.
Qed.

Lemma example_pending_ends : rtc end_step pending_new example_pending.
Proof.
  unfold example_pending. simpl.
  do 4 (eapply rtc_r; [|apply end_add; [reflexivity|split; done|done|
    apply appends_by_keys; vm_compute; reflexivity]]).
  apply rtc_refl.
Qed.

Lemma example_pending_ok : pending_ok example_pending /\ exact example_pending.
Proof. exact (end_steps_exact _ _ example_pending_ends pending_ok_new exact_new). Qed.

Lemma pending_reachable_ok_witness : pending_ok example_pending.
Proof.
  apply pending_reachable_ok. eapply (rtc_subrel end_step pending_step);
    [exact end_step_pending|exact example_pending_ends].
Defined.

Lemma pending_ends_exact_witness :
  exists lo hi, independent_transactions example_pending !! 7 = Some lo /\
    highest_nonces example_pending !! 7 = Some hi /\
    vnonce (pd_transaction lo) <= 1 <= vnonce (pd_transaction hi).
Proof.
  destruct (pending_ends_exact example_pending example_pending_ends) as [_ H].
  apply (H (mkTransactionId 7 1)). vm_compute. eauto.
Defined.

Lemma pending_truncate_witness :
  exists p' removed, truncate_pool example_pending (mkSubPoolLimit 2 1000) = Some (p', removed) /\
    vhash <$> removed = [4; 3] /\ exceeds p' (mkSubPoolLimit 2 1000) = false.
Proof.
  destruct example_pending_ok as [Hok Hex].
  destruct (pending_truncate example_pending (mkSubPoolLimit 2 1000) Hok Hex)
    as (p' & r & Heq & _ & _ & _ & Hlim & _); [done|done|].
  exists p', r. split; [exact Heq|]. split; [|exact Hlim].
  vm_compute in Heq. by simplify_eq.
Defined.

Lemma update_base_fee_exact_witness :
  vhash <$> (update_base_fee example_pending 95).2 = [2; 3; 4] /\
  pending_ok (update_base_fee example_pending 95).1.
Proof.
  split; [vm_compute; reflexivity|].
  pose proof (update_base_fee_exact example_pending 95 (proj1 example_pending_ok)) as H.
  destruct (update_base_fee example_pending 95) as [p' r]. apply H.
Defined.

Lemma update_blob_fee_exact_witness :
  (update_blob_fee example_pending 5).2 = [] /\ pending_ok (update_blob_fee example_pending 5).1.
Proof.
  split; [vm_compute; reflexivity|].
  pose proof (update_blob_fee_exact example_pending 5 (proj1 example_pending_ok)) as H.
  destruct (update_blob_fee example_pending 5) as [p' r]. apply H.
Defined.

(** Replacing a transaction in the middle of a run loses the head of the
    run.  The pool removes the old transaction and adds the new one; removing
    resets the tracked highest nonce to the predecessor, so that afterwards the
    index names nonce 1 although nonce 2 is still in the pool. *)
Theorem replacement_loses_highest :
  let p := add_transaction (remove_transaction example_pending (mkTransactionId 7 1)).1
             (example_tx 5 7 1 110 0) 10 in
  (fun t => vnonce (pd_transaction t)) <$> highest_nonces p !! 7 = Some 1 /\
  is_Some (by_id p !! mkTransactionId 7 2) /\
  (fun t => vnonce (pd_transaction t)) <$> highest_nonces example_pending !! 7 = Some 2.
Proof. split_and!; [reflexivity|vm_compute; eauto|reflexivity]. Qed.

End examples.

End Pending.
