(* ===== verification/BestTxs.v ===== *)
(** * Iterators over the best transactions

    [crates/transaction-pool/src/pool/best.rs] and the constructors of the
    iterators in [pool/pending.rs].  An iterator is a state and [next] a state
    transformer; the loops of [next] have fuel, and the theorems show that the
    fuel given is enough.  The receiving end of the broadcast channel is the list of
    what [try_recv] will return: transactions, or a report that the receiver
    lagged behind; on an empty list it fails ([Empty] or [Closed]). *)

From S2P Require Import Prelude Ordered TxErrors TxIdentifier TxState TxTypes SubPoolSpec PendingPool.
Import TxErrors Identifier TxState TxTypes.

Module Best.
Import PendingPool.Pending.

(** ** The trait

    [trait BestTransactions] of [traits.rs], over an iterator of validated
    transactions.  [bi_next] is [None] only when a loop has not ended within
    its fuel. *)
Class BestTransactionsTrait `{AlloyConstants} (I : Type) := {
  bi_next : I -> option (I * option ValidPoolTransaction);
  bi_mark_invalid : I -> ValidPoolTransaction -> InvalidPoolTransactionError -> I;
  bi_no_updates : I -> I;
  bi_set_skip_blobs : I -> bool -> I;
  (** a bound on the number of transactions it can still return *)
  bi_fuel : I -> nat;
}.

Definition bi_skip_blobs `{AlloyConstants} {I : Type} `{!BestTransactionsTrait I} (self : I) : I := bi_set_skip_blobs self true.
Definition without_updates `{AlloyConstants} {I : Type} `{!BestTransactionsTrait I} (self : I) : I := bi_no_updates self.
Definition without_blobs `{AlloyConstants} {I : Type} `{!BestTransactionsTrait I} (self : I) : I := bi_skip_blobs self.

Section best.
Context `{AlloyConstants} {ordering : TransactionOrdering}.

(** ** The iterator over the pending pool *)

Inductive Received := RecvOk (tx : PendingTransaction) | RecvLagged (skipped : Z).

Record BestTransactions := mkBest {
  best_all : gmap TransactionId PendingTransaction;
  independent : list PendingTransaction;
  invalid : gset SenderId;
  new_transaction_receiver : option (list Received);
  last_priority : option (Priority PriorityValue);
  skip_blobs : bool;
}.

Implicit Types self : BestTransactions.

Definition best (p : PendingPool) : BestTransactions :=
  {| best_all := by_id p;
     independent := bset_of_list pending_cmp (snd <$> map_to_list (independent_transactions p));
     invalid := ∅;
     new_transaction_receiver := Some [];
     last_priority := None;
     skip_blobs := false |}.

Definition mark_invalid self (tx : ValidPoolTransaction) (kind : InvalidPoolTransactionError)
  : BestTransactions :=
  mkBest (best_all self) (independent self) ({[vsender_id tx]} ∪ invalid self)
    (new_transaction_receiver self) (last_priority self) (skip_blobs self).

Definition best_ancestor self (id : TransactionId) : option PendingTransaction :=
  a ← unchecked_ancestor id; best_all self !! a.

Definition with_receiver self (q : option (list Received)) : BestTransactions :=
  mkBest (best_all self) (independent self) (invalid self) q (last_priority self) (skip_blobs self).

(** [&tx.priority > last_priority]. *)
Definition above_last (last : option (Priority PriorityValue)) (tx : PendingTransaction) : bool :=
  match last with
  | Some last_priority =>
      match priority_cmp (pd_priority tx) last_priority with Gt => true | _ => false end
  | None => false
  end.

(** The loop of [try_recv], on the messages of the receiver. *)
Fixpoint recv_loop (last : option (Priority PriorityValue)) (q : list Received)
  : list Received * option PendingTransaction :=
  match q with
  | [] => ([], None)
  | RecvOk tx :: q => if above_last last tx then (q, None) else (q, Some tx)
  | RecvLagged _ :: q => recv_loop last q
  end.

Definition try_recv self : BestTransactions * option PendingTransaction :=
  match new_transaction_receiver self with
  | None => (self, None)
  | Some q =>
      let '(q, tx) := recv_loop (last_priority self) q in (with_receiver self (Some q), tx)
  end.

Definition pop_best self : BestTransactions * option PendingTransaction :=
  match last (independent self) with
  | None => (self, None)
  | Some best =>
      (mkBest (delete (transaction_id (pd_transaction best)) (best_all self))
         (removelast (independent self)) (invalid self) (new_transaction_receiver self)
         (last_priority self) (skip_blobs self), Some best)
  end.

(** The body of the loop of [add_new_transactions], and of the one of
    [best_with_unlocked_and_attributes]. *)
Definition add_pending self (pending_tx : PendingTransaction) : BestTransactions :=
  let tx_id := transaction_id (pd_transaction pending_tx) in
  let ind := match best_ancestor self tx_id with
             | None => bset_insert pending_cmp pending_tx (independent self)
             | Some _ => independent self
             end in
  mkBest (<[tx_id := pending_tx]> (best_all self)) ind (invalid self)
    (new_transaction_receiver self) (last_priority self) (skip_blobs self).

Definition queue_length self : nat :=
  match new_transaction_receiver self with Some q => length q | None => 0 end.

Fixpoint add_new_loop (fuel : nat) self : option BestTransactions :=
  match fuel with
  | O => None
  | S fuel =>
      match try_recv self with
      | (self, None) => Some self
      | (self, Some pending_tx) => add_new_loop fuel (add_pending self pending_tx)
      end
  end.

Definition add_new_transactions self : option BestTransactions :=
  add_new_loop (S (queue_length self)) self.

Definition no_updates self : BestTransactions :=
  mkBest (best_all self) (independent self) (invalid self) None None (skip_blobs self).

Definition set_skip_blobs self (skip : bool) : BestTransactions :=
  mkBest (best_all self) (independent self) (invalid self) (new_transaction_receiver self)
    (last_priority self) skip.

(** Insert the transaction unlocked by [best]. *)
Definition unlock_next self (best : PendingTransaction) : BestTransactions :=
  match best_all self !! unlocks best with
  | Some unlocked =>
      mkBest (best_all self) (bset_insert pending_cmp unlocked (independent self)) (invalid self)
        (new_transaction_receiver self) (last_priority self) (skip_blobs self)
  | None => self
  end.

(** [if self.new_transaction_receiver.is_some() { self.last_priority = .. }]. *)
Definition record_priority self (best : PendingTransaction) : BestTransactions :=
  match new_transaction_receiver self with
  | Some q =>
      mkBest (best_all self) (independent self) (invalid self) (Some q) (Some (pd_priority best))
        (skip_blobs self)
  | None => self
  end.

(** The loop of [next]. *)
Fixpoint next_loop (fuel : nat) self : option (BestTransactions * option ValidPoolTransaction) :=
  match fuel with
  | O => None
  | S fuel =>
      self ← add_new_transactions self;
      match pop_best self with
      | (self, None) => Some (self, None)
      | (self, Some best) =>
          if bool_decide (vsender_id (pd_transaction best) ∈ invalid self) then next_loop fuel self
          else
            let self := unlock_next self best in
            if (skip_blobs self && vis_eip4844 (pd_transaction best))%bool then
              next_loop fuel (mark_invalid self (pd_transaction best) (Eip4844 NoEip4844Blobs))
            else Some (record_priority self best, Some (pd_transaction best))
      end
  end.

(** Every round takes a transaction from [independent], and one that puts
    another there marks a new sender as invalid. *)
Definition next_fuel self : nat :=
  (3 * (queue_length self + size (best_all self) + length (independent self)))%nat.

Definition next self : option (BestTransactions * option ValidPoolTransaction) :=
  next_loop (S (next_fuel self)) self.

#[export] Instance BestTransactions_trait : BestTransactionsTrait BestTransactions := {
  bi_next := next;
  bi_mark_invalid := mark_invalid;
  bi_no_updates := no_updates;
  bi_set_skip_blobs := set_skip_blobs;
  bi_fuel := next_fuel;
}.

(** ** With fees *)

Record BestTransactionsWithFees := mkBestWithFees {
  fees_best : BestTransactions;
  wf_base_fee : Z;
  wf_base_fee_per_blob_gas : Z;
}.

Definition best_with_basefee_and_blobfee (p : PendingPool) (base_fee base_fee_per_blob_gas : Z)
  : BestTransactionsWithFees := mkBestWithFees (best p) base_fee base_fee_per_blob_gas.

(** The loop of [best_with_unlocked_and_attributes]. *)
Fixpoint add_unlocked (base_fee : Z) self (submission_id : Z) (unlocked : list ValidPoolTransaction)
  : BestTransactions :=
  match unlocked with
  | [] => self
  | tx :: unlocked =>
      let submission_id := wrap_u64 (submission_id + 1) in
      add_unlocked base_fee
        (add_pending self (mkPending submission_id tx (priority (transaction tx) base_fee)))
        submission_id unlocked
  end.

Definition best_with_unlocked_and_attributes (p : PendingPool)
  (unlocked : list ValidPoolTransaction) (base_fee base_fee_per_blob_gas : Z)
  : BestTransactionsWithFees :=
  mkBestWithFees (add_unlocked base_fee (best p) (submission_id p) unlocked)
    base_fee base_fee_per_blob_gas.

(** The test of the loop: the fees are satisfied. *)
Definition satisfies_fees (base_fee base_fee_per_blob_gas : Z) (tx : ValidPoolTransaction) : bool :=
  ((base_fee <=? vmax_fee_per_gas tx) &&
   match vmax_fee_per_blob_gas tx with
   | Some fee => base_fee_per_blob_gas <=? fee
   | None => true
   end)%bool.

Definition fees_mark_invalid (self : BestTransactionsWithFees) (tx : ValidPoolTransaction)
  (kind : InvalidPoolTransactionError) : BestTransactionsWithFees :=
  mkBestWithFees (mark_invalid (fees_best self) tx kind) (wf_base_fee self)
    (wf_base_fee_per_blob_gas self).

Fixpoint fees_next_loop (fuel : nat) (self : BestTransactionsWithFees)
  : option (BestTransactionsWithFees * option ValidPoolTransaction) :=
  match fuel with
  | O => None
  | S fuel =>
      r ← next (fees_best self);
      let self := mkBestWithFees r.1 (wf_base_fee self) (wf_base_fee_per_blob_gas self) in
      match r.2 with
      | None => Some (self, None)
      | Some best =>
          if satisfies_fees (wf_base_fee self) (wf_base_fee_per_blob_gas self) best
          then Some (self, Some best)
          else fees_next_loop fuel (fees_mark_invalid self best Underpriced)
      end
  end.

Definition fees_next (self : BestTransactionsWithFees)
  : option (BestTransactionsWithFees * option ValidPoolTransaction) :=
  fees_next_loop (S (next_fuel (fees_best self))) self.

#[export] Instance BestTransactionsWithFees_trait : BestTransactionsTrait BestTransactionsWithFees := {
  bi_next := fees_next;
  bi_mark_invalid := fees_mark_invalid;
  bi_no_updates (self : BestTransactionsWithFees) :=
    mkBestWithFees (no_updates (fees_best self)) (wf_base_fee self) (wf_base_fee_per_blob_gas self);
  bi_set_skip_blobs (self : BestTransactionsWithFees) skip :=
    mkBestWithFees (set_skip_blobs (fees_best self) skip) (wf_base_fee self)
      (wf_base_fee_per_blob_gas self);
  bi_fuel (self : BestTransactionsWithFees) := next_fuel (fees_best self);
}.

End best.

(** ** Filtering

    The predicate is an [FnMut]: it may keep state of its own. *)

Section filter.
Context `{AlloyConstants} {I : Type} `{!BestTransactionsTrait I}.
Context {S : Type} (predicate : S -> ValidPoolTransaction -> S * bool).

Record BestTransactionFilter := mkFilter { filter_best : I; filter_state : S }.

Fixpoint filter_next_loop (fuel : nat) (self : BestTransactionFilter)
  : option (BestTransactionFilter * option ValidPoolTransaction) :=
  match fuel with
  | O => None
  | Datatypes.S fuel =>
      r ← bi_next (filter_best self);
      match r.2 with
      | None => Some (mkFilter r.1 (filter_state self), None)
      | Some best =>
          let '(st, keep) := predicate (filter_state self) best in
          if (keep : bool) then Some (mkFilter r.1 st, Some best)
          else filter_next_loop fuel
                 (mkFilter (bi_mark_invalid r.1 best (Consensus TxTypeNotSupported)) st)
      end
  end.

Definition filter_next (self : BestTransactionFilter)
  : option (BestTransactionFilter * option ValidPoolTransaction) :=
  filter_next_loop (Datatypes.S (bi_fuel (filter_best self))) self.

#[export] Instance BestTransactionFilter_trait : BestTransactionsTrait BestTransactionFilter := {
  bi_next := filter_next;
  bi_mark_invalid self tx kind :=
    mkFilter (bi_mark_invalid (filter_best self) tx kind) (filter_state self);
  bi_no_updates self := mkFilter (bi_no_updates (filter_best self)) (filter_state self);
  bi_set_skip_blobs self skip :=
    mkFilter (bi_set_skip_blobs (filter_best self) skip) (filter_state self);
  bi_fuel self := bi_fuel (filter_best self);
}.

End filter.

Arguments BestTransactionFilter : clear implicits.

(** ** Prioritised senders *)

Section prioritized.
Context `{AlloyConstants} {I : Type} `{!BestTransactionsTrait I}.

Record BestTransactionsWithPrioritizedSenders := mkPrioritized {
  inner : I;
  prioritized_senders : gset Z;
  max_prioritized_gas : Z;
  buffer : list ValidPoolTransaction;
  prioritized_gas : Z;
}.

Definition prioritized_new (senders : gset Z) (max_gas : Z) (it : I)
  : BestTransactionsWithPrioritizedSenders := mkPrioritized it senders max_gas [] 0.

Implicit Types self : BestTransactionsWithPrioritizedSenders.

Definition prioritizes self (item : ValidPoolTransaction) : bool :=
  (bool_decide (tx_sender (transaction item) ∈ prioritized_senders self) &&
   (wrap_u64 (prioritized_gas self + gas_limit (transaction item)) <=? max_prioritized_gas self))%bool.

(** [for item in &mut self.inner { .. }]: the item that is returned early, if
    any. *)
Fixpoint prioritize_loop (fuel : nat) self
  : option (BestTransactionsWithPrioritizedSenders * option ValidPoolTransaction) :=
  match fuel with
  | O => None
  | S fuel =>
      r ← bi_next (inner self);
      match r.2 with
      | None =>
          Some (mkPrioritized r.1 (prioritized_senders self) (max_prioritized_gas self)
                  (buffer self) (prioritized_gas self), None)
      | Some item =>
          if prioritizes self item then
            Some (mkPrioritized r.1 (prioritized_senders self) (max_prioritized_gas self)
                    (buffer self)
                    (wrap_u64 (prioritized_gas self + gas_limit (transaction item))), Some item)
          else prioritize_loop fuel
                 (mkPrioritized r.1 (prioritized_senders self) (max_prioritized_gas self)
                    (buffer self ++ [item]) (prioritized_gas self))
      end
  end.

Definition prioritized_next self
  : option (BestTransactionsWithPrioritizedSenders * option ValidPoolTransaction) :=
  r ← (if prioritized_gas self <? max_prioritized_gas self
       then prioritize_loop (S (bi_fuel (inner self))) self
       else Some (self, None));
  let '(self, item) := r in
  match item with
  | Some item => Some (self, Some item)
  | None =>
      match buffer self with
      | item :: rest =>
          Some (mkPrioritized (inner self) (prioritized_senders self) (max_prioritized_gas self)
                  rest (prioritized_gas self), Some item)
      | [] =>
          r ← bi_next (inner self);
          Some (mkPrioritized r.1 (prioritized_senders self) (max_prioritized_gas self)
                  [] (prioritized_gas self), r.2)
      end
  end.

Definition prioritized_set_skip_blobs self (skip : bool) : BestTransactionsWithPrioritizedSenders :=
  let buffer :=
    if skip then List.filter (fun tx => negb (vis_eip4844 tx)) (buffer self) else buffer self in
  mkPrioritized (bi_set_skip_blobs (inner self) skip) (prioritized_senders self)
    (max_prioritized_gas self) buffer (prioritized_gas self).

#[export] Instance BestTransactionsWithPrioritizedSenders_trait
  : BestTransactionsTrait BestTransactionsWithPrioritizedSenders := {
  bi_next := prioritized_next;
  bi_mark_invalid self tx kind :=
    mkPrioritized (bi_mark_invalid (inner self) tx kind) (prioritized_senders self)
      (max_prioritized_gas self) (buffer self) (prioritized_gas self);
  bi_no_updates self :=
    mkPrioritized (bi_no_updates (inner self)) (prioritized_senders self)
      (max_prioritized_gas self) (buffer self) (prioritized_gas self);
  bi_set_skip_blobs := prioritized_set_skip_blobs;
  bi_fuel self := (bi_fuel (inner self) + length (buffer self))%nat;
}.

End prioritized.

Arguments BestTransactionsWithPrioritizedSenders : clear implicits.

End Best.
