(* ===== verification/BestProps.v ===== *)
(** * Properties of the iterators over the best transactions

    That [next] returns in every state; the reference semantics [iter_next] of
    an iterator over a set of transactions, and that the iterators of
    [BestTxs] refine it; what wrappers may rely on ([BestLaws]). *)

From S2P Require Import Prelude Ordered TxErrors TxIdentifier TxState TxTypes SubPoolSpec PendingPool BestTxs.
Import TxErrors Identifier TxState TxTypes SubPoolSpec.

Module BestProps.
Import PendingPool.Pending BestTxs.Best.

Section props.
Context `{AlloyConstants} {ordering : TransactionOrdering}.
Implicit Types (self : BestTransactions) (t : PendingTransaction).

#[export] Instance pending_cmp_total : TotalCmp pending_cmp.
Proof.
  split; unfold pending_cmp.
  - intros x y. rewrite (cmp_antisym (cmp:=priority_cmp) (pd_priority x)).
    destruct (priority_cmp (pd_priority x) (pd_priority y)); simpl; try done.
    apply (cmp_antisym (cmp:=Z.compare)).
  - intros x y z. destruct (priority_cmp (pd_priority x) (pd_priority y)) eqn:E1; try done.
    + rewrite (cmp_eq_trans _ _ _ E1). destruct (priority_cmp (pd_priority y) (pd_priority z)); try done.
      rewrite !Z.compare_lt_iff. lia.
    + intros _. destruct (priority_cmp (pd_priority y) (pd_priority z)) eqn:E2; try done.
      * by rewrite <- (cmp_eq_trans_r priority_cmp _ _ _ E2), E1.
      * by rewrite (cmp_lt_trans _ _ _ E1 E2).
  - intros x y z. destruct (priority_cmp (pd_priority x) (pd_priority y)) eqn:E1; try done.
    rewrite (cmp_eq_trans _ _ _ E1), Z.compare_eq_iff. by intros ->.
Qed.

(** ** [next] returns in every state *)

(** The senders of the transactions an iterator holds, less the invalid ones. *)
Definition senders_in (l : list PendingTransaction) : gset SenderId := list_to_set (pd_sender <$> l).
Definition held self : list PendingTransaction :=
  independent self ++ (snd <$> map_to_list (best_all self)).
Definition open_senders self : gset SenderId := senders_in (held self) ∖ invalid self.

Lemma elem_of_open s self :
  s ∈ open_senders self <->
  (exists t, (t ∈ independent self \/ exists i, best_all self !! i = Some t) /\ pd_sender t = s) /\
  s ∉ invalid self.
Proof.
  unfold open_senders, senders_in, held.
  rewrite elem_of_difference, elem_of_list_to_set, list_elem_of_fmap. f_equiv. f_equiv. intros t.
  rewrite elem_of_app, list_elem_of_fmap. split.
  - intros [-> [Ht|[[i t'] [-> Ht]]]]; [eauto|]. apply elem_of_map_to_list in Ht. eauto.
  - intros [[Ht|[i Ht]] <-]; [eauto|]. split; [done|right].
    exists (i, t). split; [done|]. by apply elem_of_map_to_list.
Qed.

(** What a round of [next] makes smaller. *)
Definition rounds self : nat :=
  (3 * queue_length self + 2 * size (open_senders self) + length (independent self))%nat.

Lemma size_list_to_set_le (l : list SenderId) : (size (list_to_set l : gset SenderId) <= length l)%nat.
Proof.
  induction l as [|s l IH]; cbn [list_to_set length]; [by rewrite size_empty|].
  rewrite size_union_alt, size_singleton.
  assert (size ((list_to_set l : gset SenderId) ∖ {[s]}) <= size (list_to_set l : gset SenderId))%nat
    by (apply subseteq_size; set_solver).
  lia.
Qed.

Lemma rounds_fuel self : (rounds self <= next_fuel self)%nat.
Proof.
  unfold rounds, next_fuel.
  assert (size (open_senders self) <= length (held self))%nat as Hle.
  { unfold open_senders, senders_in. rewrite <- (length_fmap pd_sender (held self)).
    etrans; [|apply size_list_to_set_le]. apply subseteq_size. set_solver. }
  unfold held in Hle. rewrite length_app, length_fmap, length_map_to_list in Hle. lia.
Qed.

Lemma bset_insert_length t l : (length (bset_insert pending_cmp t l) <= S (length l))%nat.
Proof. induction l as [|x l IH]; simpl; [done|]. destruct (pending_cmp t x); simpl; lia. Qed.

Lemma recv_loop_length last q q' r :
  recv_loop last q = (q', r) ->
  (length q' <= length q)%nat /\ (is_Some r -> (length q' < length q)%nat).
Proof.
  revert q' r. induction q as [|[tx|n] q IH]; intros q' r; simpl.
  - intros [= <- <-]. split; [done|]. by intros [? ?].
  - destruct (above_last last tx); intros [= <- <-]; split; lia.
  - intros [H1 H2]%IH. split; [lia|]. intros Hr. specialize (H2 Hr). lia.
Qed.

(** What receiving leaves alone. *)
Definition same_control self self' : Prop :=
  invalid self' = invalid self /\ skip_blobs self' = skip_blobs self.

Lemma try_recv_rounds self self' r :
  try_recv self = (self', r) ->
  same_control self self' /\ best_all self' = best_all self /\ independent self' = independent self /\
  (queue_length self' <= queue_length self)%nat /\
  (is_Some r -> (queue_length self' < queue_length self)%nat).
Proof.
  unfold try_recv, queue_length. destruct (new_transaction_receiver self) as [q|] eqn:E.
  - destruct (recv_loop (last_priority self) q) as [q' r'] eqn:Er. intros [= <- <-]. simpl.
    apply recv_loop_length in Er. destruct Er; split_and!; done.
  - intros [= <- <-]. rewrite E. split_and!; try done.
Qed.

Lemma open_senders_grow self self' t :
  invalid self' = invalid self ->
  (forall x, x ∈ independent self' -> x = t \/ x ∈ independent self) ->
  (forall i x, best_all self' !! i = Some x -> x = t \/ exists j, best_all self !! j = Some x) ->
  open_senders self' ⊆ {[pd_sender t]} ∪ open_senders self.
Proof.
  intros Hinv Hind Hall s. rewrite elem_of_union, elem_of_singleton, !elem_of_open, Hinv.
  intros [(x & Hx & <-) Hs]. destruct Hx as [Hx|[i Hx]].
  - destruct (Hind x Hx) as [->|?]; [by left|right; eauto 6].
  - destruct (Hall i x Hx) as [->|[j ?]]; [by left|right; eauto 6].
Qed.

Lemma add_pending_rounds self t :
  (rounds (add_pending self t) <= rounds self + 3)%nat /\ same_control self (add_pending self t).
Proof.
  split; [|done]. unfold rounds. change (queue_length (add_pending self t)) with (queue_length self).
  assert (open_senders (add_pending self t) ⊆ {[pd_sender t]} ∪ open_senders self) as Hsub.
  { apply open_senders_grow; [done| |].
    - intros x. simpl. destruct (best_ancestor self _); [by right|].
      intros Hx. by apply (bset_insert_incl pending_cmp) in Hx.
    - intros i x. simpl. rewrite lookup_insert_Some. naive_solver. }
  apply subseteq_size in Hsub. rewrite size_union_alt, size_singleton in Hsub.
  assert (size (open_senders self ∖ {[pd_sender t]}) <= size (open_senders self))%nat
    by (apply subseteq_size; set_solver).
  assert (length (independent (add_pending self t)) <= S (length (independent self)))%nat.
  { simpl. destruct (best_ancestor self _); [lia|]. apply bset_insert_length. }
  lia.
Qed.

Lemma add_new_loop_rounds fuel self :
  (queue_length self < fuel)%nat ->
  exists self', add_new_loop fuel self = Some self' /\ (rounds self' <= rounds self)%nat /\
    same_control self self'.
Proof.
  revert self. induction fuel as [|fuel IH]; intros self Hf; [lia|]. simpl.
  destruct (try_recv self) as [self1 r] eqn:E.
  apply try_recv_rounds in E as ([Hi1 Hi2] & Hall & Hind & Hq & Hlt).
  assert (open_senders self1 = open_senders self) as Ho
    by (unfold open_senders, held; by rewrite Hi1, Hall, Hind).
  destruct r as [t|].
  - specialize (Hlt ltac:(eauto)). destruct (add_pending_rounds self1 t) as [Hr [Hc1 Hc2]].
    destruct (IH (add_pending self1 t)) as (self' & Heq & Hle & Hs1 & Hs2).
    { change (queue_length (add_pending self1 t)) with (queue_length self1). lia. }
    exists self'. split; [done|]. split; [|split; congruence].
    unfold rounds in *. rewrite Ho, Hind in *. lia.
  - exists self1. split; [done|]. split; [|done]. unfold rounds. rewrite Ho, Hind. lia.
Qed.

Lemma add_new_transactions_rounds self :
  exists self', add_new_transactions self = Some self' /\ (rounds self' <= rounds self)%nat /\
    same_control self self'.
Proof. apply add_new_loop_rounds. lia. Qed.

Lemma last_app_removelast {A} (l : list A) x : last l = Some x -> l = removelast l ++ [x].
Proof.
  intros Hl. apply last_Some in Hl as [l' ->]. by rewrite removelast_last.
Qed.

Lemma pop_best_Some self self' t :
  pop_best self = (self', Some t) ->
  last (independent self) = Some t /\ independent self = independent self' ++ [t] /\
  best_all self' = delete (pd_id t) (best_all self) /\ same_control self self' /\
  new_transaction_receiver self' = new_transaction_receiver self /\
  (rounds self' < rounds self)%nat.
Proof.
  unfold pop_best. destruct (last (independent self)) as [t'|] eqn:El; [|done].
  intros [= <- <-]. pose proof (last_app_removelast _ _ El) as Happ.
  set (self1 := mkBest _ _ _ _ _ _). split_and!; try done.
  assert (Hlen : length (independent self) = S (length (independent self1))).
  { rewrite Happ. rewrite length_app. simpl. lia. }
  assert (Hsub : open_senders self1 ⊆ open_senders self).
  { intros s. rewrite !elem_of_open. intros [(x & Hx & <-) Hs]. split; [|done]. exists x.
    split; [|done]. destruct Hx as [Hx|[i Hx]]; [left; rewrite Happ; set_solver|right].
    simpl in Hx. apply lookup_delete_Some in Hx. naive_solver. }
  apply subseteq_size in Hsub. unfold rounds.
  change (queue_length self1) with (queue_length self). lia.
Qed.

Lemma unlock_next_open self t : open_senders (unlock_next self t) ⊆ open_senders self.
Proof.
  unfold unlock_next. destruct (best_all self !! unlocks t) as [u|] eqn:E; [|done].
  intros s. rewrite !elem_of_open. simpl. intros [(x & Hx & <-) Hs]. split; [|done].
  exists x. split; [|done]. destruct Hx as [Hx|?]; [|by right].
  apply (bset_insert_incl pending_cmp) in Hx as [->|?]; eauto.
Qed.

(** Marking the sender of the transaction just taken closes it. *)
Lemma reject_rounds self self1 t kind :
  pop_best self = (self1, Some t) -> pd_sender t ∉ invalid self ->
  (rounds (mark_invalid (unlock_next self1 t) (pd_transaction t) kind) < rounds self)%nat.
Proof.
  intros Hpop Hinv. apply pop_best_Some in Hpop as (_ & Happ & Hall & [Hi _] & Hq & Hlt).
  assert (pd_sender t ∈ open_senders self) as Hin.
  { apply elem_of_open. split; [|done]. exists t. split; [|done]. left.
    rewrite Happ. apply elem_of_app. right. apply list_elem_of_here. }
  set (self2 := mark_invalid _ _ _).
  assert (open_senders self2 ⊆ open_senders self ∖ {[pd_sender t]}) as Hsub.
  { intros s Hs. assert (s ∈ open_senders (unlock_next self1 t) /\ s <> pd_sender t) as [Hs1 Hs2].
    { unfold self2 in Hs. rewrite elem_of_open in *. simpl in Hs. split; [|set_solver].
      split; [naive_solver|]. set_solver. }
    apply elem_of_difference. split; [|set_solver].
    apply unlock_next_open in Hs1. rewrite elem_of_open in *. split; [|rewrite <- Hi; apply Hs1].
    destruct Hs1 as [(x & Hx & <-) _]. exists x. split; [|done].
    destruct Hx as [Hx|[i Hx]]; [left; rewrite Happ; apply elem_of_app; by left|right].
    rewrite Hall in Hx. apply lookup_delete_Some in Hx. naive_solver. }
  apply subseteq_size in Hsub. rewrite size_difference, size_singleton in Hsub by set_solver.
  assert (0 < size (open_senders self))%nat.
  { destruct (decide (size (open_senders self) = 0%nat)) as [Hz|]; [|lia].
    apply size_empty_inv in Hz. set_solver. }
  assert (length (independent self2) <= S (length (independent self1)))%nat.
  { subst self2. simpl. unfold unlock_next. destruct (best_all self1 !! _); simpl; [|lia].
    apply bset_insert_length. }
  assert (queue_length self2 = queue_length self) as Hql.
  { subst self2. unfold queue_length; simpl. unfold unlock_next.
    destruct (best_all self1 !! _); simpl; by rewrite Hq. }
  unfold rounds in *. rewrite Hql. rewrite Happ, length_app in *. simpl in *. lia.
Qed.

(** A round that goes on takes a step down, and so does rejecting what is
    returned. *)
Lemma next_loop_total fuel self kind :
  (rounds self < fuel)%nat ->
  exists self' r, next_loop fuel self = Some (self', r) /\
    forall v, r = Some v -> (rounds (mark_invalid self' v kind) < rounds self)%nat.
Proof.
  revert self. induction fuel as [|fuel IH]; intros self Hf; [lia|]. simpl.
  destruct (add_new_transactions_rounds self) as (self1 & -> & Hle & _). simpl.
  destruct (pop_best self1) as [self2 [t|]] eqn:Ep; [|eexists _, _; split; [done|]; done].
  pose proof Ep as (_ & _ & _ & [Hi _] & _ & Hlt)%pop_best_Some. fold (pd_sender t).
  case_bool_decide as Hinv.
  { destruct (IH self2 ltac:(lia)) as (self' & r & -> & Hr). eexists _, _. split; [done|].
    intros v Hv. specialize (Hr v Hv). lia. }
  rewrite Hi in Hinv. destruct (_ && _)%bool.
  - pose proof (reject_rounds self1 self2 t (Eip4844 NoEip4844Blobs) Ep Hinv) as Hrej.
    edestruct IH as (self' & r & -> & Hr); [eapply Nat.lt_le_trans; [exact Hrej|lia]|].
    eexists _, _. split; [done|]. intros v Hv. specialize (Hr v Hv). lia.
  - pose proof (reject_rounds self1 self2 t kind Ep Hinv) as Hrej.
    eexists _, _. split; [done|]. intros v [= <-].
    enough (rounds (mark_invalid (record_priority (unlock_next self2 t) t) (pd_transaction t) kind) =
            rounds (mark_invalid (unlock_next self2 t) (pd_transaction t) kind)) by lia.
    unfold record_priority. destruct (new_transaction_receiver (unlock_next self2 t)) eqn:E; [|done].
    unfold rounds, queue_length. simpl. by rewrite E.
Qed.

Lemma next_progress self kind :
  exists self' r, next self = Some (self', r) /\
    forall v, r = Some v -> (rounds (mark_invalid self' v kind) < rounds self)%nat.
Proof. apply next_loop_total. pose proof (rounds_fuel self). lia. Qed.

Lemma next_total self : exists self' r, next self = Some (self', r).
Proof. destruct (next_progress self Underpriced) as (self' & r & ? & _). eauto. Qed.

(** A transaction that can pay the fees of a block. *)
Definition pays_fees (base_fee blob_fee : Z) (v : ValidPoolTransaction) : Prop :=
  base_fee <= vmax_fee_per_gas v /\
  forall fee, vmax_fee_per_blob_gas v = Some fee -> blob_fee <= fee.

Lemma satisfies_fees_spec base_fee blob_fee v :
  satisfies_fees base_fee blob_fee v = true <-> pays_fees base_fee blob_fee v.
Proof.
  unfold satisfies_fees, pays_fees. rewrite andb_true_iff, Z.leb_le.
  destruct (vmax_fee_per_blob_gas v); rewrite ?Z.leb_le; naive_solver.
Qed.

Lemma fees_next_loop_total fuel (w : BestTransactionsWithFees) :
  (rounds (fees_best w) < fuel)%nat ->
  exists w' r, fees_next_loop fuel w = Some (w', r) /\
    wf_base_fee w' = wf_base_fee w /\
    wf_base_fee_per_blob_gas w' = wf_base_fee_per_blob_gas w /\
    forall v, r = Some v -> satisfies_fees (wf_base_fee w) (wf_base_fee_per_blob_gas w) v = true.
Proof.
  revert w. induction fuel as [|fuel IH]; intros w Hf; [lia|]. simpl.
  destruct (next_progress (fees_best w) Underpriced) as (b & r & -> & Hr). simpl.
  destruct r as [v|]; [|eexists _, _; split_and!; done].
  destruct (satisfies_fees _ _ v) eqn:E; [eexists _, _; split_and!; try done; by intros v' [= <-]|].
  destruct (IH (fees_mark_invalid
    (mkBestWithFees b (wf_base_fee w) (wf_base_fee_per_blob_gas w)) v Underpriced))
    as (w' & r' & -> & H1 & H2 & H3).
  { simpl. specialize (Hr v eq_refl). lia. }
  eexists _, _. split_and!; done.
Qed.

Lemma fees_next_total (w : BestTransactionsWithFees) :
  exists w' r, fees_next w = Some (w', r) /\
    wf_base_fee w' = wf_base_fee w /\
    wf_base_fee_per_blob_gas w' = wf_base_fee_per_blob_gas w /\
    forall v, r = Some v -> satisfies_fees (wf_base_fee w) (wf_base_fee_per_blob_gas w) v = true.
Proof.
  apply fees_next_loop_total. pose proof (rounds_fuel (fees_best w)). lia.
Qed.

(** ** What is never returned *)

Lemma next_loop_sound fuel self self' r :
  next_loop fuel self = Some (self', r) ->
  invalid self ⊆ invalid self' /\ skip_blobs self' = skip_blobs self /\
  (forall v, r = Some v -> vsender_id v ∉ invalid self /\
     (skip_blobs self = true -> vis_eip4844 v = false)).
Proof.
  revert self. induction fuel as [|fuel IH]; intros self; [done|]. simpl.
  destruct (add_new_transactions_rounds self) as (self1 & -> & _ & Hi1 & Hs1). simpl.
  destruct (pop_best self1) as [self2 [t|]] eqn:Ep.
  2:{ unfold pop_best in Ep. destruct (last _); [done|]. simplify_eq.
      intros [= <- <-]. rewrite Hi1. done. }
  apply pop_best_Some in Ep as (_ & _ & _ & [Hi2 Hs2] & _).
  rewrite <- Hs1, <- Hi1, <- Hs2, <- Hi2. clear Hs1 Hi1 Hs2 Hi2.
  case_bool_decide as Hinv; [apply IH|].
  assert (Hu : same_control self2 (unlock_next self2 t))
    by (unfold unlock_next; by destruct (_ !! _)).
  destruct Hu as [Hu1 Hu2]. destruct (_ && _)%bool eqn:Eb.
  - intros (Hsub & Hsk & Hv)%IH. simpl in *. rewrite Hu1, Hu2 in *.
    split_and!; [set_solver|done|]. intros v Hr. destruct (Hv v Hr). split; [set_solver|done].
  - intros [= <- <-]. unfold record_priority.
    destruct (new_transaction_receiver (unlock_next self2 t)); simpl;
      rewrite ?Hu1, ?Hu2 in *; (split_and!; [done|done|]); intros v [= <-]; split; try done;
      intros Hsk; rewrite Hsk in Eb; done.
Qed.

(** The calls a consumer makes, and the messages the pool sends. *)
Inductive BestOp :=
| OpNext
| OpMarkInvalid (tx : ValidPoolTransaction) (kind : InvalidPoolTransactionError)
| OpNoUpdates
| OpSetSkipBlobs (skip : bool)
| OpReceive (msg : Received).

Definition receive self (msg : Received) : BestTransactions :=
  match new_transaction_receiver self with
  | Some q => with_receiver self (Some (q ++ [msg]))
  | None => self
  end.

Definition run_best_op self (op : BestOp) : option (BestTransactions * list ValidPoolTransaction) :=
  match op with
  | OpNext => r ← next self; Some (r.1, option_list r.2)
  | OpMarkInvalid tx kind => Some (mark_invalid self tx kind, [])
  | OpNoUpdates => Some (no_updates self, [])
  | OpSetSkipBlobs skip => Some (set_skip_blobs self skip, [])
  | OpReceive msg => Some (receive self msg, [])
  end.

(** The transactions returned by a sequence of calls. *)
Fixpoint run_best self (ops : list BestOp) : option (BestTransactions * list ValidPoolTransaction) :=
  match ops with
  | [] => Some (self, [])
  | op :: ops =>
      r ← run_best_op self op; rest ← run_best r.1 ops; Some (rest.1, r.2 ++ rest.2)
  end.

Lemma run_best_op_sound self op self' ys :
  run_best_op self op = Some (self', ys) ->
  invalid self ⊆ invalid self' /\ forall v, v ∈ ys -> vsender_id v ∉ invalid self.
Proof.
  destruct op; simpl.
  - destruct (next self) as [[self1 r]|] eqn:E; [|done]. intros [= <- <-]. simpl.
    apply next_loop_sound in E as (Hsub & _ & Hv). split; [done|].
    intros v Hin. destruct r as [v'|]; simpl in Hin; [|by apply not_elem_of_nil in Hin].
    apply list_elem_of_singleton in Hin as ->. by apply Hv.
  - intros [= <- <-]. simpl. split; [set_solver|]. intros v Hin. by apply not_elem_of_nil in Hin.
  - intros [= <- <-]. split; [done|]. intros v Hin. by apply not_elem_of_nil in Hin.
  - intros [= <- <-]. split; [done|]. intros v Hin. by apply not_elem_of_nil in Hin.
  - intros [= <- <-]. split; [|intros v Hin; by apply not_elem_of_nil in Hin].
    unfold receive. by destruct (new_transaction_receiver self).
Qed.

Lemma run_best_sound ops self self' ys :
  run_best self ops = Some (self', ys) -> forall v, v ∈ ys -> vsender_id v ∉ invalid self.
Proof.
  revert self self' ys. induction ops as [|op ops IH]; intros self self' ys; simpl.
  - intros [= <- <-] v Hin. by apply not_elem_of_nil in Hin.
  - destruct (run_best_op self op) as [[self1 y1]|] eqn:E1; [|done]. simpl.
    destruct (run_best self1 ops) as [[self2 y2]|] eqn:E2; [|done]. simpl. intros [= <- <-].
    apply run_best_op_sound in E1 as [Hsub Hv]. intros v [Hin|Hin]%elem_of_app; [auto|].
    pose proof (IH _ _ _ E2 v Hin). set_solver.
Qed.

Lemma run_best_total ops self : exists self' ys, run_best self ops = Some (self', ys).
Proof.
  revert self. induction ops as [|op ops IH]; intros self; simpl; [eauto|].
  assert (exists self1 y1, run_best_op self op = Some (self1, y1)) as (self1 & y1 & ->).
  { destruct op; simpl; eauto. destruct (next_total self) as (s1 & r & ->). simpl. eauto. }
  simpl. destruct (IH self1) as (self2 & y2 & ->). simpl. eauto.
Qed.

(** ** The reference semantics

    An iterator over a set of transactions: the best of the transactions that
    are first of their sender is next; a rejected transaction takes all of
    its sender with it. *)

Abbreviation PendingMap := (gmap TransactionId PendingTransaction) (only parsing).

Definition head_of (m : PendingMap) t : Prop :=
  m !! pd_id t = Some t /\
  forall j t', m !! j = Some t' -> sender j = pd_sender t -> nonce (pd_id t) <= nonce j.

Definition best_of (m : PendingMap) t : Prop :=
  head_of m t /\ forall t', head_of m t' -> pending_cmp t' t <> Gt.

Definition without_sender (s : SenderId) (m : PendingMap) : PendingMap :=
  filter (fun p => sender p.1 <> s) m.

Inductive iter_next (rejected : ValidPoolTransaction -> bool)
  : PendingMap -> option PendingTransaction -> PendingMap -> Prop :=
| iter_done : iter_next rejected ∅ None ∅
| iter_yield m t :
    best_of m t -> rejected (pd_transaction t) = false ->
    iter_next rejected m (Some t) (delete (pd_id t) m)
| iter_reject m t r m' :
    best_of m t -> rejected (pd_transaction t) = true ->
    iter_next rejected (without_sender (pd_sender t) m) r m' -> iter_next rejected m r m'.

Lemma lookup_without_sender s m i t :
  without_sender s m !! i = Some t <-> m !! i = Some t /\ sender i <> s.
Proof. unfold without_sender. by rewrite map_lookup_filter_Some. Qed.

(** ** The invariant of an iterator no messages arrive at

    [ex] are the senders whose first transaction may be missing from
    [independent]. *)
Record best_inv (ex : gset SenderId) self : Prop := {
  bv_key i t : best_all self !! i = Some t -> pd_id t = i;
  bv_nonce i t : best_all self !! i = Some t -> is_u64 (nonce i);
  bv_uniq i j t t' : best_all self !! i = Some t -> best_all self !! j = Some t' ->
    pd_submission_id t = pd_submission_id t' -> i = j;
  bv_sorted : bset_sorted pending_cmp (independent self);
  bv_ready t : t ∈ independent self -> head_of (best_all self) t;
  bv_cover i t : best_all self !! i = Some t -> sender i ∉ invalid self -> sender i ∉ ex ->
    exists t', t' ∈ independent self /\ pd_sender t' = sender i;
  bv_gapless : gapless (best_all self);
  bv_quiet : queue_length self = O;
}.

(** What is left to return. *)
Definition live self : PendingMap :=
  filter (fun p => sender p.1 ∉ invalid self) (best_all self).

Lemma lookup_live self i t :
  live self !! i = Some t <-> best_all self !! i = Some t /\ sender i ∉ invalid self.
Proof. unfold live. by rewrite map_lookup_filter_Some. Qed.

Lemma id_eq (i j : TransactionId) : sender i = sender j -> nonce i = nonce j -> i = j.
Proof. destruct i, j; simpl. congruence. Qed.

Lemma head_of_unique m t t' :
  head_of m t -> head_of m t' -> pd_sender t = pd_sender t' -> t = t'.
Proof.
  intros [H1 H2] [H3 H4] Hs.
  assert (pd_id t = pd_id t') as Hid.
  { apply id_eq; [exact Hs|].
    pose proof (H2 _ _ H3 (eq_sym Hs)). pose proof (H4 _ _ H1 Hs). lia. }
  rewrite Hid in H1. congruence.
Qed.

Lemma bset_sorted_snoc (l : list PendingTransaction) t :
  bset_sorted pending_cmp (l ++ [t]) ->
  bset_sorted pending_cmp l /\ forall x, x ∈ l -> pending_cmp x t = Lt.
Proof.
  unfold bset_sorted. induction l as [|y l IH]; simpl.
  { intros _. split; [constructor|]. intros x Hx. by apply not_elem_of_nil in Hx. }
  intros Hs. inversion Hs as [|? ? Hs' Hall]; subst. destruct (IH Hs') as [IH1 IH2].
  rewrite Forall_forall in Hall. split.
  - constructor; [done|]. apply Forall_forall. intros x Hx. apply Hall, elem_of_app. by left.
  - intros x [->|Hx]%elem_of_cons; [|auto]. apply Hall, elem_of_app. right. apply list_elem_of_here.
Qed.

Lemma quiet_receive self : queue_length self = O -> add_new_transactions self = Some self.
Proof.
  unfold add_new_transactions, queue_length. intros Hq. rewrite Hq. simpl.
  unfold try_recv. destruct self as [all ind inv q lp sk]; simpl in *.
  destruct q as [[|? ?]|]; done.
Qed.

(** Taking the last of [independent]: its sender may now be uncovered. *)
Lemma pop_inv self self1 t :
  best_inv ∅ self -> pop_best self = (self1, Some t) ->
  best_inv {[pd_sender t]} self1 /\ head_of (best_all self) t /\
  (forall x, x ∈ independent self1 -> pd_sender x <> pd_sender t) /\
  (forall x, x ∈ independent self -> pending_cmp x t <> Gt).
Proof.
  intros Hinv Hpop. apply pop_best_Some in Hpop as (_ & Happ & Hall & [Hi Hs] & Hq & _).
  pose proof (bv_sorted _ _ Hinv) as Hsorted. rewrite Happ in Hsorted.
  destruct (bset_sorted_snoc _ _ Hsorted) as [Hs1 Hlt].
  assert (Hin : forall x, x ∈ independent self <-> x ∈ independent self1 \/ x = t).
  { intros x. rewrite Happ, elem_of_app, list_elem_of_singleton. done. }
  assert (Ht : head_of (best_all self) t) by (apply (bv_ready _ _ Hinv), Hin; by right).
  assert (Hother : forall x, x ∈ independent self1 -> pd_sender x <> pd_sender t).
  { intros x Hx Heq. assert (x = t) as ->.
    { apply (head_of_unique (best_all self)); [|done|done]. apply (bv_ready _ _ Hinv), Hin. by left. }
    specialize (Hlt t Hx). by rewrite cmp_refl in Hlt by apply _. }
  assert (Hsub : forall i x, best_all self1 !! i = Some x -> best_all self !! i = Some x).
  { intros i x. rewrite Hall, lookup_delete_Some. naive_solver. }
  split_and!; [|done|done|].
  - split.
    + intros i x Hx. by apply (bv_key _ _ Hinv), Hsub.
    + intros i x Hx. by eapply (bv_nonce _ _ Hinv), Hsub.
    + intros i j x y Hx Hy. apply (bv_uniq _ _ Hinv); by apply Hsub.
    + done.
    + intros x Hx. destruct (bv_ready _ _ Hinv x) as [Hx1 Hx2]; [apply Hin; by left|]. split.
      * rewrite Hall, lookup_delete_Some. split; [|done]. intros Heq.
        apply (Hother x Hx). unfold pd_sender, vsender_id. unfold pd_id in Heq. by rewrite Heq.
      * intros j y Hy. by eapply Hx2, Hsub.
    + intros i x Hx. rewrite Hi. intros Hni Hne. apply Hsub in Hx.
      destruct (bv_cover _ _ Hinv i x Hx Hni) as (y & Hy & Hys); [set_solver|].
      exists y. split; [|done]. apply Hin in Hy as [Hy| ->]; [done|]. set_solver.
    + intros i j [x Hx] [y Hy] Hsd Hn. rewrite Hall in *.
      destruct (bv_gapless _ _ Hinv i j) as [z Hz];
        [apply lookup_delete_Some in Hx as [_ Hx]; eauto|apply lookup_delete_Some in Hy as [_ Hy]; eauto|
         done|done|].
      exists z. apply lookup_delete_Some. split; [|done]. intros Heq.
      apply lookup_delete_Some in Hx as [_ Hx]. destruct Ht as [_ Hlow].
      pose proof (Hlow i x Hx) as Hle. rewrite Heq in Hle. simpl in Hle.
      assert (sender i = pd_sender t) by (unfold pd_sender, vsender_id; unfold pd_id in Heq; by rewrite Heq).
      specialize (Hle ltac:(done)). lia.
    + unfold queue_length. rewrite Hq. apply (bv_quiet _ _ Hinv).
  - intros x [Hx| ->]%Hin; [by rewrite Hlt|]. by rewrite cmp_refl by apply _.
Qed.

Lemma best_inv_ex ex ex' self :
  best_inv ex self -> (forall s, s ∈ ex -> s ∈ ex' \/ s ∈ invalid self) -> best_inv ex' self.
Proof.
  intros [] Hex. split; try done. intros i t Hi Hni Hne. apply (bv_cover0 i t Hi Hni). naive_solver.
Qed.

(** The next transaction of the sender, if there is one, has the nonce after
    that of its first one. *)
Lemma unlocked_head self t u :
  best_inv ∅ self -> head_of (best_all self) t ->
  delete (pd_id t) (best_all self) !! unlocks t = Some u ->
  head_of (delete (pd_id t) (best_all self)) u /\ pd_sender u = pd_sender t.
Proof.
  intros Hinv [Ht Hlow] Hu. pose proof Hu as [Hne Hu']%lookup_delete_Some.
  pose proof (bv_key _ _ Hinv _ _ Hu') as Hid.
  assert (Hs : pd_sender u = pd_sender t).
  { unfold pd_sender, vsender_id. unfold pd_id in Hid. by rewrite Hid. }
  split; [|done]. split; [by rewrite Hid|]. intros j x [Hj Hx]%lookup_delete_Some Hsj.
  pose proof (Hlow _ _ Hu' eq_refl) as Hle. pose proof (Hlow _ _ Hx ltac:(congruence)) as Hlej.
  pose proof (bv_nonce _ _ Hinv _ _ Hu') as Hun. pose proof (bv_nonce _ _ Hinv _ _ Ht) as Htn.
  rewrite Hid. unfold unlocks, descendant, next_nonce, wrapping_add_u64 in *. simpl in *.
  fold (pd_id t) in *.
  assert (nonce j <> nonce (pd_id t)).
  { intros Heq. apply Hj, id_eq; [|done]. rewrite Hsj. by rewrite Hs. }
  assert (nonce (pd_id t) + 1 < u64_modulus \/ wrap_u64 (nonce (pd_id t) + 1) = 0) as [Hsm|Hz].
  { unfold is_u64, wrap_u64 in *. destruct (decide (nonce (pd_id t) + 1 < u64_modulus)); [by left|right].
    replace (nonce (pd_id t) + 1) with u64_modulus by lia. by apply Z.mod_same. }
  - rewrite wrap_u64_small by (unfold is_u64 in *; lia). lia.
  - rewrite Hz. unfold is_u64 in *. pose proof (bv_nonce _ _ Hinv _ _ Hx) as Hxn. unfold is_u64 in Hxn. lia.
Qed.

Lemma no_unlocked self t :
  best_inv ∅ self -> head_of (best_all self) t ->
  delete (pd_id t) (best_all self) !! unlocks t = None ->
  forall j x, delete (pd_id t) (best_all self) !! j = Some x -> sender j <> pd_sender t.
Proof.
  intros Hinv [Ht Hlow] Hu j x [Hj Hx]%lookup_delete_Some Hs.
  pose proof (Hlow _ _ Hx Hs) as Hle. pose proof (bv_nonce _ _ Hinv _ _ Hx) as Hxn.
  pose proof (bv_nonce _ _ Hinv _ _ Ht) as Htn.
  assert (nonce j <> nonce (pd_id t)) by (intros Heq; by apply Hj, id_eq).
  destruct (bv_gapless _ _ Hinv (pd_id t) j) as [z Hz]; [eauto|eauto|done|lia|].
  apply lookup_delete_None in Hu. unfold unlocks, descendant, next_nonce, wrapping_add_u64 in Hu.
  fold (pd_id t) in Hu. rewrite wrap_u64_small in Hu by (unfold is_u64 in *; lia).
  destruct Hu as [Hu|Hu]; [|congruence].
  apply (f_equal nonce) in Hu. simpl in Hu. lia.
Qed.

Lemma pending_cmp_Eq t t' : pending_cmp t t' = Eq -> pd_submission_id t = pd_submission_id t'.
Proof.
  unfold pending_cmp. destruct (priority_cmp _ _); try done. by intros <-%Z.compare_eq_iff.
Qed.

Lemma unlock_inv self self1 t :
  best_inv ∅ self -> pop_best self = (self1, Some t) -> best_inv ∅ (unlock_next self1 t).
Proof.
  intros Hinv Hpop. destruct (pop_inv self self1 t Hinv Hpop) as (Hinv1 & Ht & Hother & _).
  apply pop_best_Some in Hpop as (_ & _ & Hall & _). destruct Hinv1 as [K N U So R C G Q].
  unfold unlock_next. destruct (best_all self1 !! unlocks t) as [u|] eqn:Eu.
  - rewrite Hall in Eu. destruct (unlocked_head self t u Hinv Ht Eu) as [Hu Hus].
    rewrite <- Hall in Hu, Eu.
    assert (Hfresh : forall z, z ∈ independent self1 -> pending_cmp u z <> Eq).
    { intros z Hz Hc%pending_cmp_Eq. destruct (R z Hz) as [Hz1 _]. destruct Hu as [Hu1 _].
      apply (Hother z Hz). rewrite <- Hus. unfold pd_sender, vsender_id.
      pose proof (U _ _ _ _ Hu1 Hz1 Hc) as Hid. unfold pd_id in Hid. by rewrite Hid. }
    split; simpl; try done.
    + apply bset_insert_sorted; [apply _|done].
    + intros x. rewrite (bset_insert_fresh pending_cmp) by exact Hfresh. intros [->|Hx]; [exact Hu|exact (R x Hx)].
    + intros i x Hx Hni _. destruct (decide (sender i = pd_sender t)) as [Heq|Hne].
      * exists u. split; [|congruence]. apply (bset_insert_fresh pending_cmp); [exact Hfresh|by left].
      * destruct (C i x Hx Hni) as (y & Hy & Hys); [set_solver|].
        exists y. split; [|done]. apply (bset_insert_fresh pending_cmp); [exact Hfresh|by right].
  - split; try done. intros i x Hx Hni _. apply (C i x Hx Hni).
    rewrite Hall in Eu, Hx. pose proof (no_unlocked self t Hinv Ht Eu i x Hx). set_solver.
Qed.

Lemma popped_best self self1 t :
  best_inv ∅ self -> pop_best self = (self1, Some t) -> pd_sender t ∉ invalid self ->
  best_of (live self) t.
Proof.
  intros Hinv Hpop Hni. destruct (pop_inv self self1 t Hinv Hpop) as (_ & [Ht Hlow] & _ & Hmax).
  assert (Hht : head_of (live self) t).
  { split; [by apply lookup_live|]. intros j x [Hx _]%lookup_live. by apply Hlow with x. }
  split; [done|]. intros t' [Ht' Hlow']. apply lookup_live in Ht' as [Ha' Hni'].
  destruct (bv_cover _ _ Hinv _ _ Ha' Hni') as (y & Hy & Hys); [set_solver|].
  assert (y = t') as ->; [|by apply Hmax].
  destruct (bv_ready _ _ Hinv y Hy) as [Hy1 Hy2]. apply (head_of_unique (live self)); [| |done].
  - split; [apply lookup_live; split; [done|]|].
    + replace (sender (pd_id y)) with (sender (pd_id t')) by exact (eq_sym Hys). done.
    + intros j x [Hx _]%lookup_live. by apply Hy2 with x.
  - split; [by apply lookup_live|done].
Qed.

(** ** Refinement *)

(** What the iterator itself rejects. *)
Definition skips self (v : ValidPoolTransaction) : bool := (skip_blobs self && vis_eip4844 v)%bool.

Lemma live_delete self self1 t :
  best_all self1 = delete (pd_id t) (best_all self) -> invalid self1 = invalid self ->
  live self1 = delete (pd_id t) (live self).
Proof.
  intros Ha Hi. apply map_eq. intros i. apply option_eq. intros x.
  rewrite lookup_delete_Some, !lookup_live, Ha, Hi, lookup_delete_Some. naive_solver.
Qed.

Lemma unlock_same self t :
  best_all (unlock_next self t) = best_all self /\ invalid (unlock_next self t) = invalid self /\
  skip_blobs (unlock_next self t) = skip_blobs self.
Proof. unfold unlock_next. by destruct (_ !! _). Qed.

Lemma record_inv ex self t :
  best_inv ex self ->
  best_inv ex (record_priority self t) /\ live (record_priority self t) = live self /\
  skip_blobs (record_priority self t) = skip_blobs self /\
  best_all (record_priority self t) = best_all self.
Proof.
  intros Hinv. unfold record_priority. destruct (new_transaction_receiver self) as [q|] eqn:E; [|done].
  split; [|done]. destruct Hinv. split; try done. unfold queue_length in *. simpl. by rewrite E in *.
Qed.

Lemma mark_inv ex self tx kind : best_inv ex self -> best_inv ex (mark_invalid self tx kind).
Proof.
  intros []. split; try done. simpl. intros i t Hi Hni. apply (bv_cover0 i t Hi). set_solver.
Qed.

Lemma live_mark self v kind :
  live (mark_invalid self v kind) = without_sender (vsender_id v) (live self).
Proof.
  apply map_eq. intros i. apply option_eq. intros x.
  rewrite lookup_without_sender, !lookup_live. simpl. set_solver.
Qed.

Lemma next_loop_refines fuel self self' r :
  best_inv ∅ self -> next_loop fuel self = Some (self', r) ->
  best_inv ∅ self' /\ skip_blobs self' = skip_blobs self /\ best_all self' ⊆ best_all self /\
  exists ot, r = pd_transaction <$> ot /\ iter_next (skips self) (live self) ot (live self').
Proof.
  revert self. induction fuel as [|fuel IH]; intros self Hinv; [done|]. simpl.
  rewrite quiet_receive by apply (bv_quiet _ _ Hinv). simpl.
  destruct (pop_best self) as [self1 [t|]] eqn:Ep.
  2:{ unfold pop_best in Ep. destruct (last (independent self)) eqn:El; [done|]. simplify_eq.
      intros [= <- <-]. split_and!; try done. exists None. split; [done|].
      assert (live self1 = ∅) as ->; [|constructor].
      apply map_empty. intros i. apply eq_None_not_Some. intros [x [Hx Hni]%lookup_live].
      destruct (bv_cover _ _ Hinv i x Hx Hni) as (y & Hy & _); [set_solver|].
      apply last_None in El. rewrite El in Hy. by apply not_elem_of_nil in Hy. }
  pose proof (pop_inv _ _ _ Hinv Ep) as (Hinv1 & _). pose proof (unlock_inv _ _ _ Hinv Ep) as Hinv2.
  pose proof (popped_best _ _ _ Hinv Ep) as Hbest.
  apply pop_best_Some in Ep as (_ & _ & Hall & [Hi Hs] & _).
  assert (Hsub : best_all self1 ⊆ best_all self) by (rewrite Hall; apply delete_subseteq).
  fold (pd_sender t). case_bool_decide as Hmem.
  - intros (H1 & H2 & H3 & t' & H4 & H5)%IH; [|apply (best_inv_ex _ _ _ Hinv1); set_solver].
    split_and!; [done|congruence|by etrans|]. exists t'. split; [done|].
    unfold skips in *. rewrite Hs in H5. replace (live self) with (live self1); [done|].
    rewrite (live_delete self self1 t Hall Hi). apply delete_id, eq_None_not_Some.
    intros [x [_ Hni]%lookup_live]. apply Hni. by rewrite <- Hi.
  - rewrite Hi in Hmem. specialize (Hbest Hmem).
    destruct (unlock_same self1 t) as (Ha2 & Hi2 & Hs2).
    pose proof (live_delete self (unlock_next self1 t) t ltac:(congruence) ltac:(congruence)) as Hlive.
    assert (Hsk : skips (unlock_next self1 t) = skips self) by (unfold skips; by rewrite Hs2, Hs).
    fold (skips (unlock_next self1 t) (pd_transaction t)). rewrite Hsk.
    destruct (skips self (pd_transaction t)) eqn:Erej.
    + intros (H1 & H2 & H3 & t' & H4 & H5)%IH; [|by apply mark_inv].
      split_and!; [done|simpl in H2; congruence|simpl in H3; rewrite Ha2 in H3; by etrans|].
      exists t'. split; [done|]. apply (iter_reject _ _ t); [done|done|].
      rewrite live_mark, Hlive in H5. unfold skips in *. simpl in H5. rewrite Hs2, Hs in H5.
      replace (without_sender (pd_sender t) (live self)) with
        (without_sender (pd_sender t) (delete (pd_id t) (live self))); [done|].
      apply map_eq. intros i. apply option_eq. intros x.
      rewrite !lookup_without_sender, lookup_delete_Some. split; [naive_solver|].
      intros [? Hne]. split_and!; [|done|done]. intros Heq. apply Hne. by rewrite <- Heq.
    + intros [= <- <-]. destruct (record_inv ∅ (unlock_next self1 t) t Hinv2) as (H1 & H2 & H3 & H4).
      split_and!; [done|congruence|rewrite H4, Ha2; done|]. exists (Some t). split; [done|].
      rewrite H2, Hlive. by constructor.
Qed.

(** ** Starting from the pending pool *)

Lemma independent_lookup (p : PendingPool) t :
  pending_ok p ->
  t ∈ independent (best p) <-> independent_transactions p !! pd_sender t = Some t.
Proof.
  intros Hok. simpl. pose proof (ok_ind p Hok) as Hind.
  assert (Hin : forall x, x ∈ snd <$> map_to_list (independent_transactions p) <->
                          independent_transactions p !! pd_sender x = Some x).
  { intros x. rewrite list_elem_of_fmap. split.
    - intros ([s y] & -> & Hy%elem_of_map_to_list). simpl. destruct (Hind s y Hy) as [<- _]. done.
    - intros Hx. exists (pd_sender x, x). split; [done|]. by apply elem_of_map_to_list. }
  rewrite bset_of_list_elem; [apply Hin|apply _| |].
  - intros a b Ha%Hin Hb%Hin Hc%pending_cmp_Eq.
    destruct (Hind _ _ Ha) as [_ Ha2]. destruct (Hind _ _ Hb) as [_ Hb2].
    pose proof (ok_sub_inj p Hok _ _ _ _ Ha2 Hb2 Hc) as Hid. rewrite Hid in Ha2. congruence.
  - apply NoDup_fmap_2_strong; [|apply NoDup_map_to_list].
    intros [s x] [s' y] Hx%elem_of_map_to_list Hy%elem_of_map_to_list Heq. simpl in Heq. subst y.
    destruct (Hind _ _ Hx) as [<- _]. destruct (Hind _ _ Hy) as [<- _]. done.
Qed.

Lemma best_inv_best (p : PendingPool) :
  pending_ok p -> gapless (by_id p) -> lowest_exact p -> best_inv ∅ (best p).
Proof.
  intros Hok Hg Hlow. split.
  - intros i t Hi. by apply (ok_key p Hok).
  - intros i t Hi. by destruct (ok_nonce p Hok i t Hi).
  - intros i j t t'. apply (ok_sub_inj p Hok).
  - apply bset_of_list_sorted, _.
  - intros t Ht%independent_lookup; [|done]. destruct (ok_ind p Hok _ _ Ht) as [_ Hby].
    split; [done|]. intros j x Hj Hs. destruct (Hlow j x Hj) as (y & Hy & Hle).
    rewrite Hs in Hy. assert (y = t) as -> by congruence.
    destruct (ok_nonce p Hok _ _ Hby) as [Hn _]. unfold pd_id. lia.
  - intros i t Hi _ _. destruct (Hlow i t Hi) as (y & Hy & _).
    destruct (ok_ind p Hok _ _ Hy) as [Hs _]. exists y. split; [|done].
    apply independent_lookup; [done|]. unfold pd_sender. by rewrite Hs.
  - done.
  - done.
Qed.

Lemma live_best (p : PendingPool) : live (best p) = by_id p.
Proof. apply map_filter_id. intros i t _. simpl. set_solver. Qed.

(** ** The reference semantics, to the end *)

Inductive iter_all (rejected : ValidPoolTransaction -> bool)
  : PendingMap -> list PendingTransaction -> Prop :=
| iter_all_nil m m' : iter_next rejected m None m' -> iter_all rejected m []
| iter_all_cons m t m' l :
    iter_next rejected m (Some t) m' -> iter_all rejected m' l -> iter_all rejected m (t :: l).

(** Neither a transaction nor one before it of the same sender is rejected. *)
Definition accepted (rejected : ValidPoolTransaction -> bool) (m : PendingMap) t : Prop :=
  m !! pd_id t = Some t /\
  forall j t', m !! j = Some t' -> sender j = pd_sender t -> nonce j <= nonce (pd_id t) ->
    rejected (pd_transaction t') = false.

Section reference.
Context (rejected : ValidPoolTransaction -> bool).

Lemma accepted_without m t x :
  head_of m t -> rejected (pd_transaction t) = true ->
  accepted rejected (without_sender (pd_sender t) m) x <-> accepted rejected m x.
Proof.
  intros [Ht Hlow] Hrej. split.
  - intros [[Hx Hne]%lookup_without_sender Hall]. split; [done|]. intros j t' Hj Hs Hn.
    apply (Hall j t'); [|done|done]. apply lookup_without_sender. split; [done|].
    rewrite Hs. done.
  - intros [Hx Hall]. split.
    + apply lookup_without_sender. split; [done|]. intros Heq.
      rewrite (Hall (pd_id t) t Ht) in Hrej; [done|done|]. by apply (Hlow _ x).
    + intros j t' [Hj _]%lookup_without_sender. by apply Hall.
Qed.

Lemma accepted_delete m t x :
  head_of m t -> rejected (pd_transaction t) = false ->
  accepted rejected (delete (pd_id t) m) x <-> accepted rejected m x /\ x <> t.
Proof.
  intros [Ht Hlow] Hrej. split.
  - intros [[Hne Hx]%lookup_delete_Some Hall]. split; [|naive_solver]. split; [done|].
    intros j t' Hj Hs Hn. destruct (decide (j = pd_id t)) as [->|Hj']; [congruence|].
    apply (Hall j t'); [|done|done]. by apply lookup_delete_Some.
  - intros [[Hx Hall] Hne]. split.
    + apply lookup_delete_Some. split; [|done]. intros Heq. rewrite Heq in Ht. congruence.
    + intros j t' [_ Hj]%lookup_delete_Some. by apply Hall.
Qed.

Lemma iter_next_accepted m r m' :
  iter_next rejected m r m' ->
  match r with
  | Some t => accepted rejected m t /\
      (forall x, accepted rejected m x -> pd_sender x = pd_sender t -> nonce (pd_id t) <= nonce (pd_id x)) /\
      (forall x, accepted rejected m' x <-> accepted rejected m x /\ x <> t)
  | None => m' = ∅ /\ forall x, ~ accepted rejected m x
  end.
Proof.
  induction 1 as [|m t [Hhead Hmax] Hrej|m t r m' [Hhead Hmax] Hrej Hnext IH].
  - split; [done|]. intros x [Hx _]. done.
  - split_and!.
    + destruct Hhead as [Ht Hlow]. split; [done|]. intros j t' Hj Hs Hn.
      assert (j = pd_id t) as ->.
      { apply id_eq; [exact Hs|]. pose proof (Hlow j t' Hj Hs). lia. }
      congruence.
    + intros x [Hx _] Hs. destruct Hhead as [_ Hlow]. by apply (Hlow _ x).
    + intros x. by apply accepted_delete.
  - pose proof (accepted_without m t) as Hw. destruct r as [t'|].
    + destruct IH as (IH1 & IH2 & IH3). split_and!.
      * by apply Hw in IH1.
      * intros x Hx. apply IH2. by apply Hw.
      * intros x. by rewrite IH3, Hw.
    + destruct IH as [IH1 IH2]. split; [done|]. intros x Hx. apply (IH2 x). by apply Hw.
Qed.

(** What the reference semantics returns in the end, and in which order for
    each sender. *)
Lemma iter_all_accepted m l :
  iter_all rejected m l ->
  NoDup l /\ (forall x, x ∈ l <-> accepted rejected m x) /\
  StronglySorted (fun a b => pd_sender a = pd_sender b -> nonce (pd_id a) < nonce (pd_id b)) l.
Proof.
  induction 1 as [m m' Hn%iter_next_accepted|m t m' l Hn%iter_next_accepted Hall (IH1 & IH2 & IH3)].
  - destruct Hn as [_ Hnone]. split_and!; [constructor| |constructor].
    intros x. split; [intros Hx; by apply not_elem_of_nil in Hx|]. intros Hx. by destruct (Hnone x).
  - destruct Hn as (Ha & Hlow & Hrest). split_and!.
    + constructor; [|done]. rewrite IH2, Hrest. naive_solver.
    + intros x. rewrite elem_of_cons, IH2, Hrest. split; [naive_solver|].
      intros Hx. destruct Ha as [Ht _]. destruct (decide (pd_id x = pd_id t)) as [Heq|Hne].
      * left. destruct Hx as [Hx _]. rewrite Heq in Hx. congruence.
      * right. split; [done|]. naive_solver.
    + constructor; [done|]. apply Forall_forall. intros x Hx. apply IH2, Hrest in Hx as [Hx Hne].
      intros Hs. pose proof (Hlow x Hx (eq_sym Hs)) as Hle.
      assert (nonce (pd_id t) <> nonce (pd_id x)); [|lia].
      intros Heq. assert (pd_id t = pd_id x) as Hid by (apply id_eq; [exact Hs|done]).
      destruct Ha as [Ht _]. destruct Hx as [Hx _]. rewrite Hid in Ht. congruence.
Qed.

End reference.

(** Rejecting in two stages is rejecting by either test. *)
Lemma iter_next_stage rej1 rej2 m t m' r m'' :
  iter_next rej1 m (Some t) m' -> rej2 (pd_transaction t) = true ->
  iter_next (fun v => rej1 v || rej2 v)%bool (without_sender (pd_sender t) m') r m'' ->
  iter_next (fun v => rej1 v || rej2 v)%bool m r m''.
Proof.
  intros Hn Hrej. remember (Some t) as ot eqn:Eot.
  induction Hn as [|m t0 Hbest Hrej0|m t0 r0 m0 Hbest Hrej0 Hn IH]; simplify_eq.
  - intros Hrest. apply (iter_reject _ _ t); [done|by rewrite Hrej, orb_true_r|].
    replace (without_sender (pd_sender t) m) with (without_sender (pd_sender t) (delete (pd_id t) m));
      [done|].
    apply map_eq. intros i. apply option_eq. intros x.
    rewrite !lookup_without_sender, lookup_delete_Some. split; [naive_solver|].
    intros [? Hne]. split_and!; [|done|done]. intros Heq. apply Hne. by rewrite <- Heq.
  - intros Hrest. apply (iter_reject _ _ t0); [done|by rewrite Hrej0|]. by apply IH.
Qed.

Lemma iter_next_weaken rej1 rej2 m r m' :
  iter_next rej1 m r m' -> (forall t, r = Some t -> rej2 (pd_transaction t) = false) ->
  iter_next (fun v => rej1 v || rej2 v)%bool m r m'.
Proof.
  induction 1 as [|m t Hbest Hrej|m t r m' Hbest Hrej Hn IH]; intros Hr.
  - constructor.
  - constructor; [done|]. by rewrite Hrej, Hr.
  - apply (iter_reject _ _ t); [done|by rewrite Hrej|]. by apply IH.
Qed.

End props.
End BestProps.
