(* ===== verification/BestWrap.v ===== *)
(** * What the wrappers of the iterators rely on

    [BestLaws] is the contract of the trait [BestTransactions]: seen as the set
    of the transactions it may still return, an iterator returns one that is
    first of its sender and drops whole senders only.  The iterator over the
    pending pool, the one with fees and every filter over a lawful iterator
    satisfy it; the iterator with prioritised senders is a client of it. *)

From S2P Require Import Prelude Ordered TxErrors TxIdentifier TxState TxTypes SubPoolSpec PendingPool.
From S2P Require Import BestTxs BestProps.
Import TxErrors Identifier TxState TxTypes SubPoolSpec.

Module BestWrap.
Import PendingPool.Pending BestTxs.Best BestProps.BestProps.

(** ** Sets of transactions *)

Definition drop_senders {A} (ss : gset SenderId) (m : gmap TransactionId A) : gmap TransactionId A :=
  filter (fun p => sender p.1 ∉ ss) m.

Lemma lookup_drop_senders {A} ss (m : gmap TransactionId A) i x :
  drop_senders ss m !! i = Some x <-> m !! i = Some x /\ sender i ∉ ss.
Proof. unfold drop_senders. by rewrite map_lookup_filter_Some. Qed.

Lemma drop_none {A} (m : gmap TransactionId A) : drop_senders ∅ m = m.
Proof. apply map_filter_id. intros. set_solver. Qed.

Lemma drop_size {A} ss (m : gmap TransactionId A) : (size (drop_senders ss m) <= size m)%nat.
Proof. apply map_subseteq_size, map_filter_subseteq. Qed.

Lemma drop_drop {A} ss ss' (m : gmap TransactionId A) :
  drop_senders ss (drop_senders ss' m) = drop_senders (ss ∪ ss') m.
Proof.
  apply map_eq. intros i. apply option_eq. intros x. rewrite !lookup_drop_senders. set_solver.
Qed.

Lemma drop_delete {A} ss (m : gmap TransactionId A) i :
  sender i ∈ ss -> drop_senders ss (delete i m) = drop_senders ss m.
Proof.
  intros Hi. apply map_eq. intros j. apply option_eq. intros x.
  rewrite !lookup_drop_senders, lookup_delete_Some. split; [naive_solver|].
  intros [? Hj]. split_and!; [|done|done]. intros <-. done.
Qed.

Lemma delete_drop {A} ss (m : gmap TransactionId A) i :
  delete i (drop_senders ss m) = drop_senders ss (delete i m).
Proof.
  apply map_eq. intros j. apply option_eq. intros x.
  rewrite lookup_delete_Some, !lookup_drop_senders, lookup_delete_Some. naive_solver.
Qed.

Definition first_of (m : TxMap) (v : ValidPoolTransaction) : Prop :=
  m !! transaction_id v = Some v /\
  forall j w, m !! j = Some w -> sender j = vsender_id v -> nonce (transaction_id v) <= nonce j.

Lemma first_of_drop ss m v : first_of (drop_senders ss m) v -> first_of m v /\ vsender_id v ∉ ss.
Proof.
  intros [[Hv Hss]%lookup_drop_senders Hlow]. split; [|done]. split; [done|].
  intros j w Hj Hs. apply (Hlow j w); [|done]. apply lookup_drop_senders. by rewrite Hs.
Qed.

(** ** The contract *)

Class BestLaws `{AlloyConstants} (I : Type) `{!BestTransactionsTrait I} := {
  bl_ok : I -> Prop;
  (** the transactions that may still be returned *)
  bl_left : I -> TxMap;
  bl_fuel it : bl_ok it -> (size (bl_left it) <= bi_fuel it)%nat;
  bl_next it : bl_ok it ->
    exists it' r, bi_next it = Some (it', r) /\ bl_ok it' /\
      match r with
      | Some v => first_of (bl_left it) v /\ exists ss, vsender_id v ∉ ss /\
                    bl_left it' = drop_senders ss (delete (transaction_id v) (bl_left it))
      | None => bl_left it' = ∅
      end;
  bl_mark it v kind : bl_ok it ->
    bl_ok (bi_mark_invalid it v kind) /\
    bl_left (bi_mark_invalid it v kind) = drop_senders {[vsender_id v]} (bl_left it);
  bl_no_updates it : bl_ok it -> bl_ok (bi_no_updates it) /\ bl_left (bi_no_updates it) = bl_left it;
  bl_skip it skip : bl_ok it ->
    bl_ok (bi_set_skip_blobs it skip) /\ bl_left (bi_set_skip_blobs it skip) = bl_left it;
}.

(** All that an iterator returns when it is called until it has nothing left. *)
Fixpoint bi_drain `{AlloyConstants} {I : Type} `{!BestTransactionsTrait I} (fuel : nat) (it : I)
  : option (list ValidPoolTransaction) :=
  match fuel with
  | O => None
  | S fuel =>
      r ← bi_next it;
      match r.2 with
      | None => Some []
      | Some v => rest ← bi_drain fuel r.1; Some (v :: rest)
      end
  end.

Section client.
Context `{AlloyConstants} {I : Type} `{!BestTransactionsTrait I} `{!BestLaws I}.

Lemma next_shrinks (it it' : I) v :
  bl_ok it -> bi_next it = Some (it', Some v) ->
  bl_left it' ⊆ bl_left it /\ bl_left it' !! transaction_id v = None /\
  (size (bl_left it') < size (bl_left it))%nat.
Proof.
  intros Hok Hn. destruct (bl_next it Hok) as (it1 & r & Hn' & _ & Hr). simplify_eq.
  destruct Hr as [[Hv _] (ss & _ & ->)]. split_and!.
  - etrans; [apply map_filter_subseteq|apply delete_subseteq].
  - apply eq_None_not_Some. intros [x [Hx _]%lookup_drop_senders].
    by rewrite lookup_delete_eq in Hx.
  - eapply Nat.le_lt_trans; [apply drop_size|]. rewrite map_size_delete_Some by eauto.
    assert (size (bl_left it) <> 0%nat); [|lia]. intros Hz%map_size_empty_inv. by rewrite Hz in Hv.
Qed.

(** Any lawful iterator ends, and never returns a transaction before one it
    depends on. *)
Lemma drain_dependencies fuel (it : I) :
  bl_ok it -> (size (bl_left it) < fuel)%nat ->
  exists l, bi_drain fuel it = Some l /\ NoDup l /\
    (forall v, v ∈ l -> bl_left it !! transaction_id v = Some v) /\
    forall l1 v l2, l = l1 ++ v :: l2 ->
      forall j w, bl_left it !! j = Some w -> sender j = vsender_id v ->
        nonce j < nonce (transaction_id v) -> w ∈ l1.
Proof.
  revert it. induction fuel as [|fuel IH]; intros it Hok Hf; [lia|]. simpl.
  destruct (bl_next it Hok) as (it' & r & Hn & Hok' & Hr). rewrite Hn. simpl.
  destruct r as [v|].
  2:{ exists []. split_and!; [done|constructor|intros v Hv; by apply not_elem_of_nil in Hv|].
      intros l1 v l2 Heq. by destruct l1. }
  destruct (next_shrinks it it' v Hok Hn) as (Hsub & Hgone & Hsize).
  destruct Hr as [[Hv Hlow] (ss & Hss & Hleft)].
  destruct (IH it' Hok' ltac:(lia)) as (l & -> & Hnd & Hin & Hdep). simpl.
  exists (v :: l). split_and!; [done| | |].
  - constructor; [|done]. intros Hvl%Hin. congruence.
  - intros x [->|Hx]%elem_of_cons; [done|]. eapply lookup_weaken; [by apply Hin|done].
  - intros l1 x l2 Heq j w Hj Hs Hn'. destruct l1 as [|y l1]; simplify_eq/=.
    { pose proof (Hlow j w Hj Hs). lia. }
    destruct (decide (j = transaction_id y)) as [->|Hne].
    { assert (w = y) as -> by congruence. apply list_elem_of_here. }
    apply list_elem_of_further, (Hdep l1 x l2 eq_refl j w); [|done|done].
    rewrite Hleft. apply lookup_drop_senders. split; [by apply lookup_delete_Some|].
    assert (Hx : x ∈ l1 ++ x :: l2) by (apply elem_of_app; right; apply list_elem_of_here).
    apply Hin in Hx. rewrite Hleft in Hx. apply lookup_drop_senders in Hx as [_ Hx].
    by rewrite Hs.
Qed.

End client.

(** ** The iterators over the pending pool *)

Section instances.
Context `{AlloyConstants} {ordering : TransactionOrdering}.

Definition left_of (self : BestTransactions) : TxMap := pd_transaction <$> live self.

Lemma lookup_left_of self i v :
  left_of self !! i = Some v <-> exists t, live self !! i = Some t /\ pd_transaction t = v.
Proof.
  unfold left_of. rewrite lookup_fmap_Some. naive_solver.
Qed.

Lemma iter_next_drops rejected m r m' :
  iter_next rejected m r m' ->
  match r with
  | Some t => head_of m t /\ exists ss, pd_sender t ∉ ss /\
                m' = drop_senders ss (delete (pd_id t) m)
  | None => m' = ∅
  end.
Proof.
  induction 1 as [|m t [Hh _] _|m t r m' [Hh _] _ Hn IH]; [done| |].
  - split; [done|]. exists ∅. split; [set_solver|]. by rewrite drop_none.
  - destruct r as [t'|]; [|done]. destruct IH as [[Ht' Hlow] (ss & Hss & ->)].
    apply lookup_without_sender in Ht' as [Ht' Hne]. split.
    { split; [done|]. intros j x Hj Hs. apply (Hlow j x); [|done].
      apply lookup_without_sender. split; [done|]. by rewrite Hs. }
    exists (ss ∪ {[pd_sender t]}). split; [set_solver|].
    apply map_eq. intros i. apply option_eq. intros x.
    rewrite !lookup_drop_senders, !lookup_delete_Some, lookup_without_sender. set_solver.
Qed.

Lemma fmap_drop ss m :
  (pd_transaction <$> drop_senders ss m : TxMap) = drop_senders ss (pd_transaction <$> m).
Proof.
  apply map_eq. intros i. apply option_eq. intros v.
  rewrite lookup_fmap_Some, lookup_drop_senders, lookup_fmap_Some.
  setoid_rewrite lookup_drop_senders. naive_solver.
Qed.

(** A step of the reference semantics, as the contract sees it. *)
Lemma iter_next_left rejected self self' ot :
  iter_next rejected (live self) ot (live self') ->
  match pd_transaction <$> ot with
  | Some v => first_of (left_of self) v /\ exists ss, vsender_id v ∉ ss /\
                left_of self' = drop_senders ss (delete (transaction_id v) (left_of self))
  | None => left_of self' = ∅
  end.
Proof.
  intros Hn%iter_next_drops. destruct ot as [t|]; simpl.
  - destruct Hn as [[Ht Hlow] (ss & Hss & Hm)]. split; [split|].
    + apply lookup_left_of. eauto.
    + intros j w (x & Hx & <-)%lookup_left_of. apply (Hlow j x Hx).
    + exists ss. split; [done|]. unfold left_of. by rewrite Hm, fmap_drop, fmap_delete.
  - unfold left_of. by rewrite Hn, fmap_empty.
Qed.

Lemma left_size self : (size (left_of self) <= next_fuel self)%nat.
Proof.
  unfold left_of, next_fuel. rewrite map_size_fmap.
  assert (size (live self) <= size (best_all self))%nat by apply map_subseteq_size, map_filter_subseteq.
  lia.
Qed.

Lemma left_mark self v kind :
  left_of (mark_invalid self v kind) = drop_senders {[vsender_id v]} (left_of self).
Proof.
  unfold left_of. rewrite live_mark, <- fmap_drop. f_equal.
  apply map_eq. intros i. apply option_eq. intros x.
  rewrite lookup_without_sender, lookup_drop_senders. set_solver.
Qed.

Lemma no_updates_inv self : best_inv ∅ self -> best_inv ∅ (no_updates self).
Proof. intros []. by split. Qed.

Lemma skip_inv self skip : best_inv ∅ self -> best_inv ∅ (set_skip_blobs self skip).
Proof. intros []. by split. Qed.

#[export] Instance best_laws : BestLaws BestTransactions.
Proof.
  refine (Build_BestLaws _ _ _ (best_inv ∅) left_of _ _ _ _ _).
  - intros it _. apply left_size.
  - intros it Hok. destruct (next_total it) as (it' & r & Hn). exists it', r. split; [done|].
    destruct (next_loop_refines _ _ _ _ Hok Hn) as (Hok' & _ & _ & ot & -> & Hi).
    split; [done|]. by apply iter_next_left in Hi.
  - intros it v kind Hok. split; [by apply mark_inv|apply left_mark].
  - intros it Hok. split; [by apply no_updates_inv|done].
  - intros it skip Hok. split; [by apply skip_inv|done].
Defined.

(** ** With fees *)

Definition fees_reject (w : BestTransactionsWithFees) (v : ValidPoolTransaction) : bool :=
  (skips (fees_best w) v ||
   negb (satisfies_fees (wf_base_fee w) (wf_base_fee_per_blob_gas w) v))%bool.

Lemma fees_loop_refines fuel w w' r :
  best_inv ∅ (fees_best w) -> fees_next_loop fuel w = Some (w', r) ->
  best_inv ∅ (fees_best w') /\ fees_reject w' = fees_reject w /\
  best_all (fees_best w') ⊆ best_all (fees_best w) /\
  exists ot, r = pd_transaction <$> ot /\
    iter_next (fees_reject w) (live (fees_best w)) ot (live (fees_best w')).
Proof.
  revert w. induction fuel as [|fuel IH]; intros w Hinv; [done|]. simpl.
  destruct (next_total (fees_best w)) as (b & r0 & Hn). rewrite Hn. simpl.
  destruct (next_loop_refines _ _ _ _ Hinv Hn) as (Hinv' & Hs & Hsub & ot & -> & Hi).
  assert (Hrej : forall b', skip_blobs b' = skip_blobs (fees_best w) ->
    fees_reject (mkBestWithFees b' (wf_base_fee w) (wf_base_fee_per_blob_gas w)) = fees_reject w).
  { intros b' Hb'. unfold fees_reject, skips. simpl. by rewrite Hb'. }
  destruct ot as [t|]; simpl.
  - destruct (satisfies_fees _ _ _) eqn:E.
    + intros [= <- <-]. split_and!; [done|by apply Hrej|done|]. exists (Some t). split; [done|].
      apply (iter_next_weaken (skips (fees_best w))); [done|]. intros t' [= <-]. by rewrite E.
    + intros (H1 & H2 & H3 & ot & -> & H5)%IH; [|by apply mark_inv].
      unfold fees_mark_invalid in *. simpl in *. rewrite Hrej in H2, H5 by done.
      split_and!; [done|done|by etrans|]. exists ot. split; [done|].
      rewrite live_mark in H5. eapply iter_next_stage; [done|by rewrite E|exact H5].
  - intros [= <- <-]. split_and!; [done|by apply Hrej|done|]. exists None. split; [done|].
    by apply (iter_next_weaken (skips (fees_best w))).
Qed.

#[export] Instance fees_laws : BestLaws BestTransactionsWithFees.
Proof.
  refine (Build_BestLaws _ _ _ (fun w => best_inv ∅ (fees_best w))
            (fun w => left_of (fees_best w)) _ _ _ _ _).
  - intros w _. apply left_size.
  - intros w Hok. destruct (fees_next_total w) as (w' & r & Hn & _). exists w', r. split; [done|].
    destruct (fees_loop_refines _ _ _ _ Hok Hn) as (Hok' & _ & _ & ot & -> & Hi).
    split; [done|]. by apply iter_next_left in Hi.
  - intros w v kind Hok. split; [by apply mark_inv|apply left_mark].
  - intros w Hok. split; [by apply no_updates_inv|done].
  - intros w skip Hok. split; [by apply skip_inv|done].
Defined.

End instances.

(** ** Filters *)

Section filter.
Context `{AlloyConstants} {I : Type} `{!BestTransactionsTrait I} `{!BestLaws I}.
Context {St : Type} (predicate : St -> ValidPoolTransaction -> St * bool).

Lemma filter_loop_laws fuel (self : BestTransactionFilter I St) :
  bl_ok (filter_best self) -> (size (bl_left (filter_best self)) < fuel)%nat ->
  exists self' r, filter_next_loop predicate fuel self = Some (self', r) /\
    bl_ok (filter_best self') /\
    match r with
    | Some v => first_of (bl_left (filter_best self)) v /\
        (exists st, (predicate st v).2 = true) /\
        exists ss, vsender_id v ∉ ss /\
        bl_left (filter_best self') =
          drop_senders ss (delete (transaction_id v) (bl_left (filter_best self)))
    | None => bl_left (filter_best self') = ∅
    end.
Proof.
  revert self. induction fuel as [|fuel IH]; intros self Hok Hf; [lia|]. simpl.
  destruct (bl_next (filter_best self) Hok) as (it & r & Hn & Hok' & Hr). rewrite Hn. simpl.
  destruct r as [v|]; [|eexists _, _; split_and!; [done|done|exact Hr]].
  destruct (predicate (filter_state self) v) as [st keep] eqn:Ep. destruct keep.
  { eexists _, _. split_and!; [done|done|]. destruct Hr as [H1 H2]. split_and!; [done| |done].
    exists (filter_state self). by rewrite Ep. }
  destruct (next_shrinks _ _ _ Hok Hn) as (_ & _ & Hsize).
  destruct Hr as [[Hv Hlow] (ss & Hss & Hleft)].
  destruct (bl_mark it v (Consensus TxTypeNotSupported) Hok') as [Hok2 Hleft2].
  set (self2 := mkFilter (bi_mark_invalid it v (Consensus TxTypeNotSupported)) st).
  assert (Hl2 : bl_left (filter_best self2) =
                drop_senders ({[vsender_id v]} ∪ ss) (bl_left (filter_best self))).
  { change (filter_best self2) with (bi_mark_invalid it v (Consensus TxTypeNotSupported)).
    rewrite Hleft2, Hleft, drop_drop. apply drop_delete. set_solver. }
  destruct (IH self2 Hok2) as (self' & r & -> & Hok3 & Hr).
  { change (filter_best self2) with (bi_mark_invalid it v (Consensus TxTypeNotSupported)).
    rewrite Hleft2. pose proof (drop_size {[vsender_id v]} (bl_left it)). lia. }
  exists self', r. split_and!; [done|done|]. destruct r as [w|]; [|done].
  destruct Hr as (Hfirst & Hp & ss' & Hss' & ->). rewrite Hl2 in Hfirst.
  apply first_of_drop in Hfirst as [Hfirst Hw]. split_and!; [done|done|].
  exists (ss' ∪ ({[vsender_id v]} ∪ ss)). split; [set_solver|].
  by rewrite Hl2, delete_drop, drop_drop.
Qed.

Lemma filter_next_laws (self : BestTransactionFilter I St) :
  bl_ok (filter_best self) ->
  exists self' r, filter_next predicate self = Some (self', r) /\
    bl_ok (filter_best self') /\
    match r with
    | Some v => first_of (bl_left (filter_best self)) v /\
        (exists st, (predicate st v).2 = true) /\
        exists ss, vsender_id v ∉ ss /\
        bl_left (filter_best self') =
          drop_senders ss (delete (transaction_id v) (bl_left (filter_best self)))
    | None => bl_left (filter_best self') = ∅
    end.
Proof.
  intros Hok. apply filter_loop_laws; [done|]. pose proof (bl_fuel (filter_best self) Hok). lia.
Qed.

#[export] Instance filter_laws
  : @BestLaws _ (BestTransactionFilter I St) (BestTransactionFilter_trait predicate).
Proof.
  refine (Build_BestLaws _ _ _ (fun f => bl_ok (filter_best f))
            (fun f => bl_left (filter_best f)) _ _ _ _ _).
  - intros f Hok. exact (bl_fuel (filter_best f) Hok).
  - intros f Hok. destruct (filter_next_laws f Hok) as (f' & r & Hn & Hok' & Hr).
    exists f', r. split_and!; [done|done|]. destruct r; naive_solver.
  - intros f v kind Hok. exact (bl_mark (filter_best f) v kind Hok).
  - intros f Hok. exact (bl_no_updates (filter_best f) Hok).
  - intros f skip Hok. exact (bl_skip (filter_best f) skip Hok).
Defined.

End filter.

(** ** Prioritised senders *)

Section drains.
Context `{AlloyConstants} {I : Type} `{!BestTransactionsTrait I} `{!BestLaws I}.

(** Called until it has nothing left, the iterator returns [l]. *)
Definition drains (it : I) (l : list ValidPoolTransaction) : Prop :=
  bl_ok it /\ exists fuel, bi_drain fuel it = Some l.

Lemma drains_exists (it : I) : bl_ok it -> exists l, drains it l.
Proof.
  intros Hok. destruct (drain_dependencies (S (size (bl_left it))) it Hok ltac:(lia)) as (l & Hl & _).
  exists l. split; [done|eauto].
Qed.

Lemma exhausted (it : I) : bl_ok it -> bl_left it = ∅ -> drains it [].
Proof.
  intros Hok Hl. split; [done|]. destruct (bl_next it Hok) as (it' & r & Hn & _ & Hr).
  exists 1%nat. simpl. rewrite Hn. simpl. destruct r as [v|]; [|done].
  destruct Hr as [[Hv _] _]. by rewrite Hl in Hv.
Qed.

Lemma drains_step (it : I) l :
  drains it l ->
  exists it' r, bi_next it = Some (it', r) /\
    match r with
    | Some v => exists l', l = v :: l' /\ drains it' l'
    | None => l = [] /\ drains it' []
    end.
Proof.
  intros [Hok [[|fuel] Hd]]; [done|]. simpl in Hd.
  destruct (bl_next it Hok) as (it' & r & Hn & Hok' & Hr). rewrite Hn in Hd. simpl in Hd.
  exists it', r. split; [done|]. destruct r as [v|].
  - destruct (bi_drain fuel it') as [l'|] eqn:E; [|done]. simplify_eq/=.
    exists l'. split; [done|]. split; [done|]. eauto.
  - simplify_eq. split; [done|]. by apply exhausted.
Qed.

Lemma drains_length (it : I) l : drains it l -> (length l <= bi_fuel it)%nat.
Proof.
  intros Hd. pose proof Hd as [Hok _]. etrans; [|by apply bl_fuel].
  revert it Hd Hok. induction l as [|v l IH]; intros it Hd Hok; simpl; [lia|].
  destruct (drains_step it _ Hd) as (it' & r & Hn & Hr).
  destruct r as [v'|]; [|by destruct Hr]. destruct Hr as (l' & [= <- <-] & Hd').
  destruct (next_shrinks it it' v Hok Hn) as (_ & _ & Hsize).
  specialize (IH it' Hd' (proj1 Hd')). lia.
Qed.

Lemma drains_enough (it : I) l fuel : drains it l -> (length l < fuel)%nat -> bi_drain fuel it = Some l.
Proof.
  revert it l. induction fuel as [|fuel IH]; intros it l Hd Hf; [lia|]. simpl.
  destruct (drains_step it l Hd) as (it' & r & Hn & Hr). rewrite Hn. simpl.
  destruct r as [v|]; [|by destruct Hr as [-> _]]. destruct Hr as (l' & -> & Hd').
  rewrite (IH it' l' Hd'); [done|]. simpl in Hf. lia.
Qed.

End drains.

Section prioritized.
Context `{AlloyConstants} {I : Type} `{!BestTransactionsTrait I} `{!BestLaws I}.
Implicit Types self : BestTransactionsWithPrioritizedSenders I.

(** A transaction [v] is taken out of turn: it is behind [l1] in what the inner
    iterator returns, and its gas limit is added to the budget. *)
Definition taken_early self self' (v : ValidPoolTransaction) : Prop :=
  tx_sender (transaction v) ∈ prioritized_senders self /\
  prioritized_gas self' = wrap_u64 (prioritized_gas self + gas_limit (transaction v)) /\
  prioritized_gas self' <= max_prioritized_gas self.

Definition same_budget self self' : Prop :=
  max_prioritized_gas self' = max_prioritized_gas self /\
  prioritized_senders self' = prioritized_senders self.

Lemma prioritize_loop_spec fuel self l :
  drains (inner self) l -> (length l < fuel)%nat ->
  exists self' r, prioritize_loop fuel self = Some (self', r) /\ same_budget self self' /\
    match r with
    | Some v => taken_early self self' v /\
        exists l1 l2, l = l1 ++ v :: l2 /\ drains (inner self') l2 /\ buffer self' = buffer self ++ l1
    | None => prioritized_gas self' = prioritized_gas self /\ drains (inner self') [] /\
        buffer self' = buffer self ++ l
    end.
Proof.
  revert self l. induction fuel as [|fuel IH]; intros self l Hd Hf; [lia|]. simpl.
  destruct (drains_step _ l Hd) as (it & r & Hn & Hr). rewrite Hn. simpl.
  destruct r as [v|].
  2:{ destruct Hr as [-> Hd']. eexists _, _. split; [done|]. split; [done|]. split; [done|].
      split; [done|]. by rewrite app_nil_r. }
  destruct Hr as (l' & -> & Hd'). destruct (prioritizes self v) eqn:Ep.
  - eexists _, _. split; [done|]. unfold prioritizes in Ep. bools. split; [done|]. split; [done|].
    exists [], l'. simpl. by rewrite app_nil_r.
  - match goal with |- context [prioritize_loop fuel ?s] => set (self1 := s) end.
    destruct (IH self1 l' Hd') as (self' & r & -> & Hg & Hr); [simpl in Hf; lia|].
    exists self', r. split; [done|]. split; [exact Hg|]. destruct r as [w|].
    + destruct Hr as (He & l1 & l2 & -> & Hd2 & Hb). split; [exact He|].
      exists (v :: l1), l2. split_and!; [done|done|]. rewrite Hb. simpl. by rewrite <- app_assoc.
    + destruct Hr as (He & Hd2 & Hb). split_and!; [exact He|done|].
      rewrite Hb. simpl. by rewrite <- app_assoc.
Qed.

Lemma prioritized_next_spec self l :
  drains (inner self) l ->
  exists self' r l', prioritized_next self = Some (self', r) /\ same_budget self self' /\
    drains (inner self') l' /\
    match r with
    | Some v =>
        (taken_early self self' v /\ exists l1, l = l1 ++ v :: l' /\ buffer self' = buffer self ++ l1) \/
        (prioritized_gas self' = prioritized_gas self /\ l' `sublist_of` l /\
         buffer self ++ l = v :: (buffer self' ++ l'))
    | None => buffer self = [] /\ l = []
    end.
Proof.
  intros Hd. unfold prioritized_next.
  assert (exists self1 r1,
    (if prioritized_gas self <? max_prioritized_gas self
     then prioritize_loop (S (bi_fuel (inner self))) self else Some (self, None)) = Some (self1, r1) /\
    same_budget self self1 /\
    match r1 with
    | Some v => taken_early self self1 v /\
        exists l1 l2, l = l1 ++ v :: l2 /\ drains (inner self1) l2 /\ buffer self1 = buffer self ++ l1
    | None => prioritized_gas self1 = prioritized_gas self /\
        exists l1, drains (inner self1) l1 /\ l1 `sublist_of` l /\ buffer self1 ++ l1 = buffer self ++ l
    end) as (self1 & r1 & -> & Hg & Hr).
  { destruct (_ <? _).
    - pose proof (drains_length _ _ Hd) as Hlen.
      destruct (prioritize_loop_spec (S (bi_fuel (inner self))) self l Hd ltac:(lia))
        as (self1 & r1 & -> & Hg & Hr).
      exists self1, r1. split_and!; [done|done|]. destruct r1; [done|].
      destruct Hr as (He & Hd' & Hb). split; [done|]. exists []. split_and!; [done|apply sublist_nil_l|by rewrite Hb, app_nil_r].
    - eexists _, _. split_and!; [done|done|]. split; [done|]. exists l. done. }
  simpl. destruct r1 as [v|].
  { destruct Hr as (He & l1 & l2 & -> & Hd' & Hb). exists self1, (Some v), l2.
    split_and!; try done. left. split; [done|]. exists l1. done. }
  destruct Hr as (He & l1 & Hd1 & Hsub & Hb). destruct (buffer self1) as [|item rest] eqn:Eb.
  - simpl in Hb. destruct (drains_step _ _ Hd1) as (it & r & Hn & Hr). rewrite Hn. simpl.
    destruct r as [v|].
    + destruct Hr as (l' & -> & Hd'). eexists _, _, l'. split_and!; [done|exact Hg|done|].
      right. split_and!; [exact He|by apply sublist_cons_l in Hsub as (? & ? & -> & ?);
        apply sublist_inserts_l, sublist_cons|simpl; by rewrite <- Hb].
    + destruct Hr as [-> Hd']. eexists _, _, []. split_and!; [done|exact Hg|done|].
      symmetry in Hb. by apply app_nil in Hb.
  - eexists _, _, l1. split_and!; [done|exact Hg|done|]. right. split_and!; [exact He|done|by rewrite <- Hb].
Qed.

Definition total_gas (l : list ValidPoolTransaction) : Z :=
  foldr (fun v acc => gas_limit (transaction v) + acc) 0 l.

(** The budget: [early] are taken out of turn, the others keep their order. *)
Lemma prioritized_drain fuel self l :
  drains (inner self) l -> (length (buffer self ++ l) < fuel)%nat ->
  0 <= prioritized_gas self <= max_prioritized_gas self ->
  Forall (fun v => 0 <= gas_limit (transaction v) /\
            max_prioritized_gas self + gas_limit (transaction v) < u64_modulus) l ->
  exists l' early rest, bi_drain fuel self = Some l' /\
    l' ≡ₚ early ++ rest /\ buffer self ++ l ≡ₚ early ++ rest /\
    rest `sublist_of` l' /\ rest `sublist_of` buffer self ++ l /\
    early `sublist_of` l' /\ early `sublist_of` l /\
    Forall (fun v => tx_sender (transaction v) ∈ prioritized_senders self) early /\
    prioritized_gas self + total_gas early <= max_prioritized_gas self.
Proof.
  revert self l. induction fuel as [|fuel IH]; intros self l Hd Hf Hg Hgas; [lia|]. simpl.
  destruct (prioritized_next_spec self l Hd) as (self' & r & l1 & -> & [Hm Hs] & Hd' & Hr). simpl.
  destruct r as [v|].
  2:{ destruct Hr as [-> ->]. exists [], [], []. simpl. split_and!; try done. lia. }
  destruct Hr as [(He & l2 & -> & Hb)|(Hsame & Hsub & Hb)].
  - apply Forall_app in Hgas as [Hg1 [[Hv1 Hv2] Hg2]%Forall_cons].
    destruct He as (He1 & He2 & He3).
    rewrite wrap_u64_small in He2 by (unfold is_u64; lia).
    destruct (IH self' l1 Hd') as (l' & early & rest & -> & P1 & P2 & S1 & S2 & S3 & S4 & F & G).
    { rewrite Hb. rewrite !length_app in *. simpl in *. lia. }
    { rewrite Hm. lia. }
    { by rewrite Hm. }
    simpl. exists (v :: l'), (v :: early), rest. rewrite Hb in P2, S2. split_and!.
    + done.
    + simpl. by rewrite P1.
    + simpl. rewrite <- P2, app_assoc. symmetry. apply Permutation_middle.
    + by constructor.
    + etrans; [exact S2|]. rewrite <- app_assoc. apply sublist_app; [done|].
      apply sublist_app; [done|]. by apply sublist_cons.
    + by constructor.
    + apply sublist_inserts_l. by apply sublist_skip.
    + constructor; [done|]. by rewrite <- Hs.
    + simpl. rewrite Hm in G. lia.
  - assert (Hlen : length (buffer self ++ l) = S (length (buffer self' ++ l1))) by by rewrite Hb.
    destruct (IH self' l1 Hd') as (l' & early & rest & -> & P1 & P2 & S1 & S2 & S3 & S4 & F & G).
    { lia. }
    { rewrite Hm, Hsame. done. }
    { rewrite Hm. rewrite Forall_forall in *. intros x Hx. apply Hgas. by eapply elem_of_sublist. }
    simpl. exists (v :: l'), early, (v :: rest). rewrite Hb. split_and!.
    + done.
    + rewrite <- Permutation_middle, P1. done.
    + rewrite <- Permutation_middle, P2. done.
    + by constructor.
    + by constructor.
    + by constructor.
    + by etrans.
    + by rewrite <- Hs.
    + by rewrite <- Hsame, <- Hm.
Qed.

End prioritized.

End BestWrap.
