(* ===== verification/BestClaims.v ===== *)
(** * What the iterators over the best transactions guarantee

    The properties of [BestTxs], with concrete runs. *)

From S2P Require Import Prelude Ordered TxErrors TxIdentifier TxState TxTypes SubPoolSpec PendingPool.
From S2P Require Import BestTxs BestProps BestWrap.
Import TxErrors Identifier TxState TxTypes SubPoolSpec.

Module BestClaims.
Import PendingPool.Pending BestTxs.Best BestProps.BestProps BestWrap.BestWrap.

Section claims.
Context `{AlloyConstants} {ordering : TransactionOrdering}.

(** Lists of one sender come in increasing order of nonces. *)
Definition nonce_ordered (l : list PendingTransaction) : Prop :=
  StronglySorted (fun a b => pd_sender a = pd_sender b -> nonce (pd_id a) < nonce (pd_id b)) l.

Lemma live_shrinks rejected m t m' :
  iter_next rejected m (Some t) m' -> (size m' < size m)%nat.
Proof.
  intros [[Ht _] (ss & _ & ->)]%iter_next_drops.
  eapply Nat.le_lt_trans; [apply drop_size|]. rewrite map_size_delete_Some by eauto.
  assert (size m <> 0%nat); [|lia]. intros Hz%map_size_empty_inv. by rewrite Hz in Ht.
Qed.

Lemma best_drains fuel self :
  best_inv ∅ self -> (size (live self) < fuel)%nat ->
  exists l, bi_drain fuel self = Some (pd_transaction <$> l) /\ iter_all (skips self) (live self) l.
Proof.
  revert self. induction fuel as [|fuel IH]; intros self Hinv Hf; [lia|]. simpl.
  destruct (next_total self) as (self' & r & Hn). rewrite Hn. simpl.
  destruct (next_loop_refines _ _ _ _ Hinv Hn) as (Hinv' & Hs & _ & ot & -> & Hi).
  destruct ot as [t|]; simpl; [|exists []; split; [done|by econstructor]].
  pose proof (live_shrinks _ _ _ _ Hi) as Hsize.
  destruct (IH self' Hinv' ltac:(lia)) as (l & -> & Hl). exists (t :: l). split; [done|].
  replace (skips self') with (skips self) in Hl by (unfold skips; by rewrite Hs).
  by econstructor.
Qed.

Lemma fees_drains fuel w :
  best_inv ∅ (fees_best w) -> (size (live (fees_best w)) < fuel)%nat ->
  exists l, bi_drain fuel w = Some (pd_transaction <$> l) /\
    iter_all (fees_reject w) (live (fees_best w)) l.
Proof.
  revert w. induction fuel as [|fuel IH]; intros w Hinv Hf; [lia|]. simpl.
  destruct (fees_next_total w) as (w' & r & Hn & _). rewrite Hn. simpl.
  destruct (fees_loop_refines _ _ _ _ Hinv Hn) as (Hinv' & Hrej & _ & ot & -> & Hi).
  destruct ot as [t|]; simpl; [|exists []; split; [done|by econstructor]].
  pose proof (live_shrinks _ _ _ _ Hi) as Hsize.
  destruct (IH w' Hinv' ltac:(lia)) as (l & -> & Hl). exists (t :: l). split; [done|].
  rewrite Hrej in Hl. by econstructor.
Qed.

(** One priority is higher than another: by the order of the values that the ordering of the pool assigns (the tips, for
    the coinbase tip ordering), and any value is higher than none. *)
Definition higher (a b : Priority PriorityValue) : Prop :=
  match a, b with
  | Value v, Value w => value_cmp v w = Gt
  | Value _, NoPriority => True
  | NoPriority, _ => False
  end.
Definition as_high (a b : Priority PriorityValue) : Prop :=
  match a, b with
  | Value v, Value w => value_cmp v w = Eq
  | NoPriority, NoPriority => True
  | _, _ => False
  end.

(** A transaction goes before another: it has the higher priority, or the same priority and was submitted earlier. *)
Definition outranks (a b : PendingTransaction) : Prop :=
  higher (pd_priority a) (pd_priority b) \/
  (as_high (pd_priority a) (pd_priority b) /\ pd_submission_id a < pd_submission_id b).

Lemma pending_cmp_outranks a b : pending_cmp b a = Lt -> outranks a b.
Proof.
  unfold pending_cmp, outranks. destruct (pd_priority a) as [v|], (pd_priority b) as [w|]; simpl; try (by left) || done.
  - rewrite (cmp_antisym (cmp := value_cmp) w v). destruct (value_cmp w v); simpl; try done; [|by left].
    rewrite Z.compare_lt_iff. by right.
  - rewrite Z.compare_lt_iff. by right.
Qed.

(** In a list of returned transactions: each outranks all that come later and were first of their sender at the time. *)
Definition ranked (l : list PendingTransaction) : Prop :=
  forall l1 t l2 t', l = l1 ++ t :: l2 -> t' ∈ l2 ->
    (forall u, u ∈ t :: l2 -> pd_sender u = pd_sender t' -> nonce (pd_id t') <= nonce (pd_id u)) -> outranks t t'.

Definition submissions_differ (m : gmap TransactionId PendingTransaction) : Prop :=
  forall i j t t', m !! i = Some t -> m !! j = Some t' -> pd_submission_id t = pd_submission_id t' -> i = j.

Lemma iter_next_all m t m' : iter_next (fun _ => false) m (Some t) m' -> best_of m t /\ m' = delete (pd_id t) m.
Proof. by inversion 1. Qed.

(** What is left after the first transaction is what the list returns later. *)
Lemma iter_all_rest m t m' l x : best_of m t -> m' = delete (pd_id t) m -> iter_all (fun _ => false) m' l ->
  x ∈ l <-> m !! pd_id x = Some x /\ pd_id x <> pd_id t.
Proof.
  intros Hb -> Hl. destruct (iter_all_accepted _ _ _ Hl) as (_ & Hin & _). rewrite Hin. unfold accepted.
  rewrite lookup_delete_Some. naive_solver.
Qed.

Lemma best_outranks m t m' l t' : submissions_differ m -> (forall i u, m !! i = Some u -> pd_id u = i) ->
  best_of m t -> m' = delete (pd_id t) m -> iter_all (fun _ => false) m' l -> t' ∈ l ->
  (forall u, u ∈ t :: l -> pd_sender u = pd_sender t' -> nonce (pd_id t') <= nonce (pd_id u)) -> outranks t t'.
Proof.
  intros Hdiff Hkey Hb Hm' Hl Ht' Hfirst. pose proof (iter_all_rest m t m' l t' Hb Hm' Hl) as Hrest.
  destruct Hb as [[Ht Hlow] Hmax] eqn:E. clear E. apply Hrest in Ht' as [Ht' Hne]. clear Hrest.
  assert (pending_cmp t' t <> Gt) as Hc.
  { apply Hmax. split; [done|]. intros j u Hu Hs. pose proof (Hkey j u Hu) as <-. apply Hfirst; [|done].
    destruct (decide (pd_id u = pd_id t)) as [Hid|Hid].
    - assert (u = t) as -> by congruence. apply elem_of_cons. by left.
    - apply elem_of_cons. right. by apply (iter_all_rest m t m' l u). }
  destruct (pending_cmp t' t) eqn:E; [|by apply pending_cmp_outranks|done].
  apply pending_cmp_Eq in E. destruct Hne. by apply (Hdiff _ _ t' t).
Qed.

Lemma iter_all_ranked m l : iter_all (fun _ => false) m l -> submissions_differ m -> (forall i u, m !! i = Some u -> pd_id u = i) -> ranked l.
Proof.
  induction 1 as [m m' Hn|m x m' l Hn Hl IH]; intros Hdiff Hkey l1 t l2 t' Heq Hin Hfirst; [by destruct l1|].
  apply iter_next_all in Hn as [Hb Hm']. destruct l1 as [|y l1]; simplify_eq/=; [by eapply best_outranks|].
  eapply IH; [|..|done|done|done].
  - intros i j u u' [_ Hu]%lookup_delete_Some [_ Hu']%lookup_delete_Some. by eapply Hdiff.
  - intros i u [_ Hu]%lookup_delete_Some. by apply Hkey.
Qed.

(** C36: the iterator over the pending pool.  Called until it has nothing left
    while no new transactions arrive, it ends and has returned every pending
    transaction exactly once; the nonces of a sender come in increasing order; and each time it returned the best
    of the transactions that were first of their sender: whatever is returned later, and had no transaction
    of its own sender before it then, has a lower priority, or the same priority and was submitted later. *)
Theorem best_order (p : PendingPool) :
  pending_ok p -> gapless (by_id p) -> lowest_exact p ->
  exists l, bi_drain (S (size (by_id p))) (best p) = Some (pd_transaction <$> l) /\
    NoDup l /\ (forall t, t ∈ l <-> by_id p !! pd_id t = Some t) /\ nonce_ordered l /\ ranked l.
Proof.
  intros Hok Hg Hlow. pose proof (best_inv_best p Hok Hg Hlow) as Hinv.
  destruct (best_drains (S (size (by_id p))) (best p) Hinv) as (l & Hd & Hl).
  { rewrite live_best. lia. }
  rewrite live_best in Hl. change (skips (best p)) with (fun _ : ValidPoolTransaction => false) in Hl.
  destruct (iter_all_accepted _ _ _ Hl) as (Hnd & Hin & Hs). exists l. split_and!; try done.
  - intros t. rewrite Hin. unfold accepted. naive_solver.
  - apply (iter_all_ranked _ _ Hl); [exact (ok_sub_inj p Hok)|exact (ok_key p Hok)].
Qed.

(** The iterator with fees returns exactly what the fees allow: a pending
    transaction is returned if and only if it and all pending transactions
    before it of the same sender pay the base fee and, if they carry blobs, the
    blob fee.  It returns each once, in the order of the reference semantics,
    and ends. *)
Theorem best_with_fees_exact (p : PendingPool) (base_fee blob_fee : Z) :
  pending_ok p -> gapless (by_id p) -> lowest_exact p ->
  exists l,
    bi_drain (S (size (by_id p))) (best_with_basefee_and_blobfee p base_fee blob_fee) =
      Some (pd_transaction <$> l) /\
    iter_all (fun v => negb (satisfies_fees base_fee blob_fee v)) (by_id p) l /\ NoDup l /\ nonce_ordered l /\
    forall t, t ∈ l <-> by_id p !! pd_id t = Some t /\
      forall j t', by_id p !! j = Some t' -> sender j = pd_sender t -> nonce j <= nonce (pd_id t) ->
        pays_fees base_fee blob_fee (pd_transaction t').
Proof.
  intros Hok Hg Hlow. pose proof (best_inv_best p Hok Hg Hlow) as Hinv.
  destruct (fees_drains (S (size (by_id p))) (best_with_basefee_and_blobfee p base_fee blob_fee) Hinv)
    as (l & Hd & Hl).
  { simpl. rewrite live_best. lia. }
  simpl in Hl. rewrite live_best in Hl.
  change (fees_reject _) with (fun v => negb (satisfies_fees base_fee blob_fee v)) in Hl.
  destruct (iter_all_accepted _ _ _ Hl) as (Hnd & Hin & Hs). exists l. split_and!; try done.
  intros t. rewrite Hin. unfold accepted. setoid_rewrite negb_false_iff. by setoid_rewrite satisfies_fees_spec.
Qed.

(** Once a transaction is marked as invalid nothing of its sender is
    returned any more, whatever the consumer calls and whatever the pool sends
    afterwards; and every one of these calls returns. *)
Theorem invalid_never_returned self tx kind ops :
  exists self' ys, run_best (mark_invalid self tx kind) ops = Some (self', ys) /\
    forall v, v ∈ ys -> vsender_id v <> vsender_id tx.
Proof.
  destruct (run_best_total ops (mark_invalid self tx kind)) as (self' & ys & Hr).
  exists self', ys. split; [done|]. intros v Hv.
  pose proof (run_best_sound _ _ _ _ Hr v Hv) as Hn. simpl in Hn. set_solver.
Qed.

End claims.

(** A filter over any iterator that keeps the contract of the trait
    ends, returns no transaction twice, returns only what its predicate
    accepted, and never returns a transaction before one of the same sender with a lower nonce
    that the filtered iterator still had. *)
Theorem filter_dependencies `{AlloyConstants} {I : Type} `{!BestTransactionsTrait I} `{!BestLaws I}
  {St : Type} (predicate : St -> ValidPoolTransaction -> St * bool) (it : I) (st : St) :
  bl_ok it ->
  exists l, @bi_drain _ _ (BestTransactionFilter_trait predicate) (S (size (bl_left it)))
              (mkFilter it st) = Some l /\
    NoDup l /\
    (forall v, v ∈ l -> bl_left it !! transaction_id v = Some v /\
                        exists st', (predicate st' v).2 = true) /\
    forall l1 v l2, l = l1 ++ v :: l2 ->
      forall j w, bl_left it !! j = Some w -> sender j = vsender_id v ->
        nonce j < nonce (transaction_id v) -> w ∈ l1.
Proof.
  intros Hok.
  destruct (drain_dependencies (BestLaws0 := filter_laws predicate) (S (size (bl_left it)))
    (mkFilter it st) Hok ltac:(simpl; lia)) as (l & Hd & Hnd & Hin & Hdep).
  exists l. split_and!; [exact Hd|done| |exact Hdep].
  intros v Hv. split; [exact (Hin v Hv)|]. clear Hnd Hin Hdep.
  assert (Hok' : bl_ok (filter_best (mkFilter it st))) by exact Hok. clear Hok.
  revert Hd Hok' Hv. generalize (S (size (bl_left it))) as fuel, (mkFilter it st) as f.
  clear it st. intros fuel. revert l. induction fuel as [|fuel IH]; intros l f; [done|].
  simpl. intros Hd Hok Hv. destruct (filter_next_laws predicate f Hok) as (f' & r & Hn & Hok' & Hr).
  rewrite Hn in Hd. simpl in Hd. destruct r as [w|].
  - destruct (bi_drain fuel f') as [l'|] eqn:E; [|done]. simplify_eq/=.
    apply elem_of_cons in Hv as [->|Hv]; [naive_solver|by eapply IH].
  - simplify_eq/=. by apply not_elem_of_nil in Hv.
Qed.

(** Prioritised senders only change the order.  Over an iterator that
    keeps the contract of the trait, and as long as the gas limits do not
    overflow the 64-bit sum, the iterator ends and returns exactly the
    transactions the iterator below it would have returned, each once.  Those
    taken out of turn ([early]) are of prioritised senders and their gas limits
    together do not exceed the maximum; all others come in the original order. *)
Theorem prioritized_order `{AlloyConstants} {I : Type} `{!BestTransactionsTrait I}
  `{!BestLaws I} (it : I) (senders : gset Z) (max_gas : Z) :
  bl_ok it -> 0 <= max_gas ->
  (forall v, bl_left it !! transaction_id v = Some v ->
     0 <= gas_limit (transaction v) /\ max_gas + gas_limit (transaction v) < u64_modulus) ->
  exists l l' early rest, bi_drain (S (bi_fuel it)) it = Some l /\
    bi_drain (S (bi_fuel it)) (prioritized_new senders max_gas it) = Some l' /\
    l' ≡ₚ l /\ l' ≡ₚ early ++ rest /\
    rest `sublist_of` l' /\ rest `sublist_of` l /\ early `sublist_of` l' /\ early `sublist_of` l /\
    Forall (fun v => tx_sender (transaction v) ∈ senders) early /\ total_gas early <= max_gas.
Proof.
  intros Hok Hmax Hgas. pose proof (bl_fuel it Hok) as Hfuel.
  destruct (drain_dependencies (S (bi_fuel it)) it Hok ltac:(lia)) as (l & Hl & _ & Hin & _).
  assert (Hd : drains it l) by (split; eauto).
  pose proof (drains_length it l Hd) as Hlen.
  destruct (prioritized_drain (S (bi_fuel it)) (prioritized_new senders max_gas it) l Hd)
    as (l' & early & rest & H1 & H2 & H3 & H4 & H5 & H6 & H7 & H8 & H9); simpl in *; [lia|lia| |].
  { apply Forall_forall. intros v Hv. by apply Hgas, Hin. }
  exists l, l', early, rest. split_and!; try done. by rewrite H2, H3.
Qed.

(** ** Examples, witnesses and findings *)

Section examples.
#[local] Existing Instance mainnet_constants.
#[local] Existing Instance example_ordering.

Lemma example_best_inv : bl_ok (best example_pending).
Proof.
  destruct example_pending_ok as [Hok (Hg & Hlow & _)]. by apply best_inv_best.
Qed.

(** The hashes of what was returned. *)
Definition hashes (o : option (list ValidPoolTransaction)) : list Z :=
  match o with Some l => vhash <$> l | None => [] end.

(** Two transactions of a sender of which the first pays no tip, and one submitted later that pays one. *)
Definition ranked_pending : PendingPool :=
  foldl (fun p tx => add_transaction p tx 10) pending_new [example_tx 1 7 0 10 0; example_tx 2 7 1 90 0; example_tx 3 9 5 80 0].

Lemma ranked_pending_ok : pending_ok ranked_pending /\ exact ranked_pending.
Proof.
  apply (end_steps_exact pending_new); [|exact pending_ok_new|exact exact_new]. unfold ranked_pending. simpl.
  do 3 (eapply rtc_r; [|apply end_add; [reflexivity|split; done|done|apply appends_by_keys; vm_compute; reflexivity]]).
  apply rtc_refl.
Qed.

Lemma best_order_witness :
  exists l, bi_drain 4 (best ranked_pending) = Some (pd_transaction <$> l) /\
    vhash ∘ pd_transaction <$> l = [3; 1; 2] /\ NoDup l /\ ranked l.
Proof.
  destruct ranked_pending_ok as [Hok (Hg & Hlow & _)].
  destruct (best_order ranked_pending Hok Hg Hlow) as (l & Hd & Hnd & _ & _ & Hr).
  change (S (size (by_id ranked_pending))) with 4%nat in Hd.
  exists l. split; [exact Hd|]. split; [|split; [exact Hnd|exact Hr]].
  assert (Hh : hashes (bi_drain 4 (best ranked_pending)) = [3; 1; 2]) by (vm_compute; reflexivity).
  rewrite Hd in Hh. simpl in Hh. rewrite <- list_fmap_compose in Hh. exact Hh.
Defined.

Lemma best_with_fees_exact_witness :
  exists l, bi_drain 5 (best_with_basefee_and_blobfee example_pending 95 1) =
      Some (pd_transaction <$> l) /\
    vhash ∘ pd_transaction <$> l = [1] /\ NoDup l.
Proof.
  destruct example_pending_ok as [Hok (Hg & Hlow & _)].
  destruct (best_with_fees_exact example_pending 95 1 Hok Hg Hlow) as (l & Hd & _ & Hnd & _).
  change (S (size (by_id example_pending))) with 5%nat in Hd.
  exists l. split; [exact Hd|]. split; [|exact Hnd].
  assert (Hr : hashes (bi_drain 5 (best_with_basefee_and_blobfee example_pending 95 1)) = [1])
    by (vm_compute; reflexivity).
  rewrite Hd in Hr. simpl in Hr. rewrite <- list_fmap_compose in Hr. exact Hr.
Defined.

(** A predicate that counts its calls and rejects the second transaction. *)
Definition example_predicate (n : nat) (v : ValidPoolTransaction) : nat * bool :=
  (S n, negb (n =? 1)%nat).

Lemma filter_dependencies_witness :
  exists l, @bi_drain _ _ (BestTransactionFilter_trait example_predicate) 5
              (mkFilter (best example_pending) 0%nat) = Some l /\
    vhash <$> l = [1; 4] /\ NoDup l.
Proof.
  destruct (filter_dependencies example_predicate (best example_pending) 0%nat example_best_inv)
    as (l & Hd & Hnd & _).
  change (S (size (bl_left (best example_pending)))) with 5%nat in Hd.
  exists l. split; [exact Hd|]. split; [|exact Hnd].
  assert (Hr : hashes (@bi_drain _ _ (BestTransactionFilter_trait example_predicate) 5
      (mkFilter (best example_pending) 0%nat)) = [1; 4]) by (vm_compute; reflexivity).
  rewrite Hd in Hr. exact Hr.
Defined.

Lemma prioritized_order_witness :
  exists l', bi_drain (S (bi_fuel (best example_pending)))
      (prioritized_new ({[1009%Z]} : gset Z) 30000 (best example_pending)) = Some l' /\
    vhash <$> l' = [4; 1; 2; 3].
Proof.
  destruct (prioritized_order (best example_pending) ({[1009%Z]} : gset Z) 30000 example_best_inv)
    as (l & l' & early & rest & _ & Hd & _); [lia| |].
  - intros v Hv. apply lookup_left_of in Hv as (t & [Ht _]%lookup_live & <-).
    assert (Hall : forallb (fun e => (0 <=? gas_limit (transaction (pd_transaction e.2))) &&
      (30000 + gas_limit (transaction (pd_transaction e.2)) <? u64_modulus))%bool
      (map_to_list (best_all (best example_pending))) = true) by (vm_compute; reflexivity).
    rewrite forallb_forall in Hall. apply elem_of_map_to_list, list_elem_of_In in Ht.
    specialize (Hall _ Ht). simpl in Hall. bools. done.
  - exists l'. split; [exact Hd|].
    assert (Hr : hashes (bi_drain (S (bi_fuel (best example_pending)))
      (prioritized_new ({[1009%Z]} : gset Z) 30000 (best example_pending))) = [4; 1; 2; 3])
      by (vm_compute; reflexivity).
    rewrite Hd in Hr. exact Hr.
Defined.

(** A pending transaction of sender [s] with the given priority. *)
Definition example_message (sub h s n tip : Z) : Received :=
  RecvOk (mkPending sub (example_tx h s n 100 0) (Value tip)).

(** A gap in the nonces.  The iterator returns a transaction; then two
    consecutive transactions of a new sender become pending, the first with a
    higher priority than what was returned.  The first is dropped from the
    channel, and the second, whose predecessor the iterator does not know, is
    returned without it. *)
Theorem best_returns_orphan :
  exists self ys,
    run_best (best (add_transaction pending_new (example_tx 1 7 0 100 0) 10))
      [OpNext; OpReceive (example_message 1 2 8 0 5); OpReceive (example_message 2 3 8 1 1);
       OpNext; OpNext; OpNext] = Some (self, ys) /\
    (fun v => (vsender_id v, vnonce v)) <$> ys = [(7, 0); (8, 1)].
Proof. eexists _, _. split; [vm_compute; reflexivity|reflexivity]. Qed.

(** A transaction with the given gas limit. *)
Definition example_gas_tx (h s n gas : Z) : ValidPoolTransaction :=
  let v := example_tx h s n 100 0 in
  let t := transaction v in
  {| transaction :=
       {| tx_hash := tx_hash t; tx_sender := tx_sender t; tx_nonce := tx_nonce t; ty := ty t;
          cost := cost t; max_fee_per_gas := max_fee_per_gas t;
          max_priority_fee_per_gas := max_priority_fee_per_gas t;
          max_fee_per_blob_gas := max_fee_per_blob_gas t; gas_limit := gas; tx_size := tx_size t |};
     transaction_id := transaction_id v; propagate := propagate v; timestamp := timestamp v;
     origin := origin v; authority_ids := authority_ids v |}.

(** Prioritising breaks the order of nonces.  When the first transaction
    of a prioritised sender does not fit the gas budget and the second one does,
    the second is returned before the first. *)
Theorem prioritized_breaks_nonce_order :
  let p := add_transaction (add_transaction pending_new (example_gas_tx 1 7 0 50000) 10)
             (example_gas_tx 2 7 1 21000) 10 in
  exists l, bi_drain 10 (prioritized_new ({[1007%Z]} : gset Z) 30000 (best p)) = Some l /\ vnonce <$> l = [1; 0].
Proof. eexists. split; [vm_compute; reflexivity|reflexivity]. Qed.

End examples.

End BestClaims.
