(* ===== verification/BlobFee.v ===== *)
(** * Fee distances of blob transactions

    The fee functions of [crates/transaction-pool/src/pool/blob.rs]: [fee_delta]
    computes in [f64], which is modelled bit for bit with the binary64
    instance of the Standard Library's executable IEEE-754 specification. *)

From Stdlib Require Import SpecFloat.
From S2P Require Import Prelude TxErrors TxTypes.
Import TxTypes.

Module BlobFee.

(** ** [f64] *)

Definition f64_div : spec_float -> spec_float -> spec_float := SFdiv 53 1024.
Definition f64_sub : spec_float -> spec_float -> spec_float := SFsub 53 1024.
(** [n as f64] of an unsigned integer. *)
Definition f64_of (n : Z) : spec_float := binary_normalize 53 1024 n 0 false.
Definition f64_zero : spec_float := S754_zero false.

(** [as i64]: truncation towards zero, saturating; NaN gives 0. *)
Definition saturate_i64 (z : Z) : Z := Z.max (- 2 ^ 63) (Z.min z (2 ^ 63 - 1)).

(** [rounding] of a finite value [m * 2^e] to an integer, as [i64]. *)
Definition f64_to_i64 (rounding : Z -> Z -> Z) (x : spec_float) : Z :=
  match x with
  | S754_zero _ | S754_nan => 0
  | S754_infinity false => 2 ^ 63 - 1
  | S754_infinity true => - 2 ^ 63
  | S754_finite s m e =>
      let m := if s then Zneg m else Zpos m in
      saturate_i64 (if 0 <=? e then m * 2 ^ e else rounding m (2 ^ (- e)))
  end.

Definition truncate_i64 : spec_float -> Z := f64_to_i64 Z.quot.
Definition floor_i64 : spec_float -> Z := f64_to_i64 Z.div.
Definition ceil_i64 : spec_float -> Z := f64_to_i64 (fun m d => - ((- m) / d)).

(** [i64::ilog2], which panics on non-positive arguments. *)
Definition ilog2_i64 (z : Z) : option Z := if 0 <? z then Some (Z.log2 z) else None.

(** ** Priorities *)

(** 0.16992500144231237. *)
Definition LOG_2_1_125 : spec_float := S754_finite false 0x15c01a39fbd688 (-55).

Definition jumps (fee : Z) : spec_float :=
  if fee =? 0 then f64_zero else f64_div (f64_of (Z.log2 fee)) LOG_2_1_125.

(** [None] is a panic of [ilog2]. *)
Definition fee_delta (max_tx_fee current_fee : Z) : option Z :=
  if max_tx_fee =? current_fee then Some 0
  else
    let max_tx_fee_jumps := jumps max_tx_fee in
    let current_fee_jumps := jumps current_fee in
    let j := f64_sub max_tx_fee_jumps current_fee_jumps in
    match Z.compare (truncate_i64 j) 0 with
    | Eq => Some 0
    | Gt => ilog2_i64 (ceil_i64 j)
    | Lt => Z.opp <$> ilog2_i64 (- floor_i64 j)
    end.

Definition blob_tx_priority (blob_fee_cap blob_fee max_priority_fee base_fee : Z) : option Z :=
  delta_blob_fee ← fee_delta blob_fee_cap blob_fee;
  delta_priority_fee ← fee_delta max_priority_fee base_fee;
  Some (Z.min (Z.min delta_blob_fee delta_priority_fee) 0).

(** The test vectors of the crate. *)
Example fee_delta_vectors :
  fee_delta 10 7 = Some 2 /\ fee_delta 17200000000 17200000000 = Some 0 /\
  fee_delta 11085092510 9853941692 = Some 0 /\ fee_delta 10356781100 11544106391 = Some 0 /\
  fee_delta 7 17200000000 = Some (-7) /\ fee_delta 17200000000 7 = Some 7.
Proof. vm_compute. by split_and!. Qed.

(** ** Totality and signs, by exhaustive computation on the logarithms *)

Definition is_u128 (z : Z) : Prop := 0 <= z < 2 ^ 128.

(** [fee_delta] only looks at the binary logarithms, or zero. *)
Definition representative (k : Z) : Z := if k =? -1 then 0 else 2 ^ k.
Definition bucket (fee : Z) : Z := if fee =? 0 then -1 else Z.log2 fee.

Lemma bucket_range fee : is_u128 fee -> -1 <= bucket fee < 128.
Proof.
  unfold is_u128, bucket. intros Hf. destruct (fee =? 0) eqn:E; bools; [lia|].
  pose proof (Z.log2_nonneg fee). split; [lia|]. apply Z.log2_lt_pow2; lia.
Qed.

Lemma jumps_bucket fee : 0 <= fee -> jumps fee = jumps (representative (bucket fee)).
Proof.
  intros Hf. unfold bucket, representative, jumps. destruct (fee =? 0) eqn:E; bools; [done|].
  pose proof (Z.log2_nonneg fee). rewrite (proj2 (Z.eqb_neq (Z.log2 fee) (-1))) by lia.
  pose proof (Z.pow_pos_nonneg 2 (Z.log2 fee)).
  rewrite (proj2 (Z.eqb_neq (2 ^ Z.log2 fee) 0)) by lia. by rewrite Z.log2_pow2.
Qed.

Definition delta_of_jumps (j : spec_float) : option Z :=
  match Z.compare (truncate_i64 j) 0 with
  | Eq => Some 0
  | Gt => ilog2_i64 (ceil_i64 j)
  | Lt => Z.opp <$> ilog2_i64 (- floor_i64 j)
  end.

(** The jumps of every bucket, computed once. *)
Definition jumps_table : list (Z * spec_float) :=
  Eval vm_compute in (fun k => (k, jumps (representative k))) <$> seqZ (-1) 129.

Lemma jumps_table_ok : (fun k => (k, jumps (representative k))) <$> seqZ (-1) 129 = jumps_table.
Proof. vm_compute. reflexivity. Qed.

Lemma bucket_in_table fee : is_u128 fee -> (bucket fee, jumps fee) ∈ jumps_table.
Proof.
  intros Hf. rewrite <- jumps_table_ok. apply list_elem_of_fmap. exists (bucket fee).
  pose proof (bucket_range fee Hf). unfold is_u128 in Hf.
  rewrite jumps_bucket by lia. split; [done|]. apply elem_of_seqZ. lia.
Qed.

(** All pairs of buckets at once: the difference of their jumps has a
    logarithm, of the sign of the difference and at most 9. *)
Definition delta_ok (x y : Z * spec_float) : bool :=
  let '(k, l) := (x.1, y.1) in
  match delta_of_jumps (f64_sub x.2 y.2) with
  | None => false
  | Some d =>
      ((-9 <=? d) && (d <=? 9) && implb (l <? k) (0 <=? d) && implb (k <? l) (d <=? 0) &&
       implb ((0 <=? l) && (l <? k)) (0 <? d) && implb ((0 <=? k) && (k <? l)) (d <? 0) &&
       implb (k =? l) (d =? 0))%bool
  end.

Lemma delta_ok_all : forallb (fun x => forallb (delta_ok x) jumps_table) jumps_table = true.
Proof. vm_compute. reflexivity. Qed.

Lemma delta_ok_fees a b :
  is_u128 a -> is_u128 b -> delta_ok (bucket a, jumps a) (bucket b, jumps b) = true.
Proof.
  intros Ha Hb. pose proof delta_ok_all as Hall. rewrite forallb_forall in Hall.
  specialize (Hall (bucket a, jumps a)). rewrite <- list_elem_of_In in Hall.
  specialize (Hall (bucket_in_table a Ha)). rewrite forallb_forall in Hall.
  apply Hall. rewrite <- list_elem_of_In. by apply bucket_in_table.
Qed.

Lemma bucket_mono a b : is_u128 a -> is_u128 b -> a <= b -> bucket a <= bucket b.
Proof.
  unfold is_u128, bucket. intros Ha Hb Hle.
  destruct (a =? 0) eqn:E, (b =? 0) eqn:F; bools; try lia.
  - pose proof (Z.log2_nonneg b). lia.
  - by apply Z.log2_le_mono.
Qed.

Lemma fee_delta_spec a b :
  is_u128 a -> is_u128 b ->
  exists d, fee_delta a b = Some d /\ -9 <= d <= 9 /\
    (b <= a -> 0 <= d) /\ (a <= b -> d <= 0) /\
    (0 < b -> Z.log2 b < Z.log2 a -> 0 < d) /\ (0 < a -> Z.log2 a < Z.log2 b -> d < 0).
Proof.
  intros Ha Hb. unfold fee_delta. destruct (a =? b) eqn:E; bools.
  { subst. exists 0. split_and!; try done; lia. }
  pose proof (delta_ok_fees a b Ha Hb) as Hok. unfold delta_ok in Hok. simpl in Hok.
  unfold delta_of_jumps in Hok.
  match goal with |- exists d, ?x = _ /\ _ => destruct x as [d|]; [|done] end.
  exists d. split; [done|].
  rewrite !andb_true_iff, !implb_true_iff, !andb_true_iff, !Z.leb_le, !Z.ltb_lt, !Z.eqb_eq in Hok.
  destruct Hok as ((((((H1 & H2) & H3) & H4) & H5) & H6) & H7).
  pose proof (bucket_mono a b Ha Hb). pose proof (bucket_mono b a Hb Ha).
  assert (Hlog : forall x, 0 < x -> bucket x = Z.log2 x).
  { intros x Hx. unfold bucket. by rewrite (proj2 (Z.eqb_neq x 0)) by lia. }
  split_and!; [done|done| | | |].
  - intros Hle. destruct (decide (bucket b < bucket a)); [auto|]. rewrite H7; lia.
  - intros Hle. destruct (decide (bucket a < bucket b)); [auto|]. rewrite H7; lia.
  - intros Hpos Hlt. pose proof (Z.log2_nonneg b).
    assert (0 < a). { destruct (decide (a = 0)) as [->|]; [simpl in Hlt; lia|unfold is_u128 in *; lia]. }
    apply H5. rewrite !Hlog by done. lia.
  - intros Hpos Hlt. pose proof (Z.log2_nonneg a).
    assert (0 < b). { destruct (decide (b = 0)) as [->|]; [simpl in Hlt; lia|unfold is_u128 in *; lia]. }
    apply H6. rewrite !Hlog by done. lia.
Qed.

Lemma blob_tx_priority_spec a b c d :
  is_u128 a -> is_u128 b -> is_u128 c -> is_u128 d ->
  exists p, blob_tx_priority a b c d = Some p /\ -9 <= p <= 0 /\
    (b <= a -> d <= c -> p = 0) /\
    (0 < a -> Z.log2 a < Z.log2 b -> p < 0) /\ (0 < c -> Z.log2 c < Z.log2 d -> p < 0).
Proof.
  intros Ha Hb Hc Hd. unfold blob_tx_priority.
  destruct (fee_delta_spec a b Ha Hb) as (x & -> & Hx & X1 & X2 & X3 & X4).
  destruct (fee_delta_spec c d Hc Hd) as (y & -> & Hy & Y1 & Y2 & Y3 & Y4).
  simpl. eexists. split; [done|]. split_and!; [lia|lia|intros ? ?|intros ? ?|intros ? ?]; try lia.
Qed.

(** ** Properties *)

(** The fee distance of blob transactions is total on 128-bit fees: the
    logarithm is never taken of a number that is not positive, the result is
    within 9 of zero, it has the sign of the difference of the fees, and it is
    strictly positive or negative as soon as the fees differ in their binary
    order of magnitude. *)
Theorem fee_delta_total a b :
  is_u128 a -> is_u128 b ->
  exists d, fee_delta a b = Some d /\ -9 <= d <= 9 /\
    (b <= a -> 0 <= d) /\ (a <= b -> d <= 0) /\
    (0 < b -> Z.log2 b < Z.log2 a -> 0 < d) /\ (0 < a -> Z.log2 a < Z.log2 b -> d < 0).
Proof. apply fee_delta_spec. Qed.

Lemma fee_delta_total_witness : exists d, fee_delta 17200000000 7 = Some d /\ 0 < d.
Proof.
  destruct (fee_delta_total 17200000000 7) as (d & Hd & _ & _ & _ & Hpos & _); [done|done|].
  exists d. split; [exact Hd|]. by apply Hpos.
Defined.

End BlobFee.
