(* ===== verification/BlobPool.v ===== *)
(** * The blob sub-pool

    [crates/transaction-pool/src/pool/blob.rs]: blob transactions that are not
    pending, by identifier and in the order of their distance from being
    executable.  A [None] result is a panic, or a loop out of fuel. *)

From S2P Require Import Prelude Ordered TxErrors TxIdentifier TxState TxTypes SubPoolSpec BlobFee.
Import Identifier TxState TxTypes SubPoolSpec BlobFee.

Module BlobTxs.

Section blob.
Context `{AlloyConstants}.

(** ** Data *)

Record BlobOrd := mkBlobOrd { ord_submission_id : Z; ord_priority : Z }.

Record BlobTransaction := mkBlob { bl_transaction : ValidPoolTransaction; bl_ord : BlobOrd }.

Record BlobTransactions := mkBlobPool {
  submission_id : Z;
  by_id : gmap TransactionId BlobTransaction;
  all : list BlobTransaction;
  pending_fees : PendingFees;
  size_of : SizeTracker;
}.

Definition blob_default : BlobTransactions := mkBlobPool 0 ∅ [] pending_fees_default size_default.

(** [impl Ord for BlobOrd]: lower priorities are greater. *)
Definition ord_cmp (a b : BlobOrd) : comparison :=
  match Z.compare (ord_priority b) (ord_priority a) with
  | Eq => Z.compare (ord_submission_id a) (ord_submission_id b)
  | c => c
  end.

Definition blob_cmp (a b : BlobTransaction) : comparison := ord_cmp (bl_ord a) (bl_ord b).

(** [BlobTransaction::new] and [update_priority]. *)
Definition current_priority (tx : ValidPoolTransaction) (fees : PendingFees) : option Z :=
  blob_tx_priority (blob_fee fees) (default 0 (vmax_fee_per_blob_gas tx)) (base_fee fees)
    (vmax_fee_per_gas tx).

Definition blob_new (tx : ValidPoolTransaction) (submission : Z) (fees : PendingFees)
  : option BlobTransaction :=
  priority ← current_priority tx fees;
  Some (mkBlob tx (mkBlobOrd submission priority)).

Definition update_priority (fees : PendingFees) (tx : BlobTransaction) : option BlobTransaction :=
  priority ← current_priority (bl_transaction tx) fees;
  Some (mkBlob (bl_transaction tx) (mkBlobOrd (ord_submission_id (bl_ord tx)) priority)).

Implicit Types self p : BlobTransactions.

(** ** Operations *)

Definition pool_size self : Z := size_into_usize (size_of self).
Definition len self : Z := Z.of_nat (size (by_id self)).
Definition exceeds self (limit : SubPoolLimit) : bool :=
  limit_is_exceeded limit (len self) (pool_size self).
Definition contains self (id : TransactionId) : bool := bool_decide (is_Some (by_id self !! id)).
Definition get self (id : TransactionId) : option BlobTransaction := by_id self !! id.

Definition next_id self : BlobTransactions * Z :=
  let id := submission_id self in
  (mkBlobPool (wrapping_add_u64 (submission_id self) 1) (by_id self) (all self)
     (pending_fees self) (size_of self), id).

(** Panics on a transaction that is not a blob transaction or is already in
    the pool. *)
Definition add_transaction self (tx : ValidPoolTransaction) : option BlobTransactions :=
  if negb (vis_eip4844 tx) then None
  else
    let id := transaction_id tx in
    if contains self id then None
    else
      let '(self, submission) := next_id self in
      let size_of := size_add (size_of self) (vsize tx) in
      transaction ← blob_new tx submission (pending_fees self);
      Some (mkBlobPool (submission_id self) (<[id := transaction]> (by_id self))
              (bset_insert blob_cmp transaction (all self)) (pending_fees self) size_of).

Definition remove_transaction self (id : TransactionId)
  : BlobTransactions * option ValidPoolTransaction :=
  match by_id self !! id with
  | None => (self, None)
  | Some tx =>
      (mkBlobPool (submission_id self) (delete id (by_id self))
         (bset_remove blob_cmp tx (all self)).1 (pending_fees self)
         (size_sub (size_of self) (vsize (bl_transaction tx))), Some (bl_transaction tx))
  end.

Definition attributes_unmet (attributes : BestTransactionsAttributes) (fee : Z)
  (tx : BlobTransaction) : bool :=
  ((default 0 (vmax_fee_per_blob_gas (bl_transaction tx)) <? fee) ||
   (vmax_fee_per_gas (bl_transaction tx) <? attr_basefee attributes))%bool.

Definition satisfy_attributes self (attributes : BestTransactionsAttributes)
  : list ValidPoolTransaction :=
  match attr_blob_fee attributes with
  | Some blob_fee_to_satisfy =>
      (fun e => bl_transaction e.2) <$>
        (scan_senders (attributes_unmet attributes blob_fee_to_satisfy) None
           (bt_entries (by_id self))).1
  | None => []
  end.

Definition fees_unmet (fees : PendingFees) (tx : BlobTransaction) : bool :=
  (option_lt (vmax_fee_per_blob_gas (bl_transaction tx)) (blob_fee fees) ||
   (vmax_fee_per_gas (bl_transaction tx) <? base_fee fees))%bool.

Definition satisfy_pending_fee_ids self (fees : PendingFees) : list TransactionId :=
  (scan_senders (fees_unmet fees) None (bt_entries (by_id self))).1.*1.

(** Both collections are updated; the set is rebuilt. *)
Definition reprioritize self : option BlobTransactions :=
  txs ← mapM (update_priority (pending_fees self)) (all self);
  entries ← mapM (fun e => (pair e.1) <$> update_priority (pending_fees self) e.2)
              (bt_entries (by_id self));
  Some (mkBlobPool (submission_id self) (list_to_map entries) (bset_of_list blob_cmp txs)
          (pending_fees self) (size_of self)).

(** [.map(|id| self.remove_transaction(&id).expect("transaction exists"))]. *)
Fixpoint remove_each self (ids : list TransactionId)
  : option (BlobTransactions * list ValidPoolTransaction) :=
  match ids with
  | [] => Some (self, [])
  | id :: ids =>
      let '(self, tx) := remove_transaction self id in
      tx ← tx;
      rest ← remove_each self ids;
      Some (rest.1, tx :: rest.2)
  end.

Definition enforce_pending_fees self (fees : PendingFees)
  : option (BlobTransactions * list ValidPoolTransaction) :=
  r ← remove_each self (satisfy_pending_fee_ids self fees);
  let '(self, removed) := r in
  self ← reprioritize (mkBlobPool (submission_id self) (by_id self) (all self) fees (size_of self));
  Some (self, removed).

(** [while self.exceeds(&limit)]. *)
Fixpoint truncate_loop (fuel : nat) self (limit : SubPoolLimit) (removed : list ValidPoolTransaction)
  : option (BlobTransactions * list ValidPoolTransaction) :=
  match fuel with
  | O => None
  | S fuel =>
      if exceeds self limit then
        tx ← last (all self);
        let '(self, r) := remove_transaction self (transaction_id (bl_transaction tx)) in
        r ← r;
        truncate_loop fuel self limit (removed ++ [r])
      else Some (self, removed)
  end.

Definition truncate_pool self (limit : SubPoolLimit)
  : option (BlobTransactions * list ValidPoolTransaction) :=
  truncate_loop (S (size (by_id self))) self limit [].

(** ** The invariant *)

#[export] Instance blob_cmp_total : TotalCmp blob_cmp.
Proof.
  unfold blob_cmp, ord_cmp. split.
  - intros x y. rewrite (Z.compare_antisym (ord_priority (bl_ord y)) (ord_priority (bl_ord x))).
    destruct (Z.compare (ord_priority (bl_ord y)) _); simpl; [apply Z.compare_antisym|done|done].
  - intros x y z.
    destruct (Z.compare_spec (ord_priority (bl_ord y)) (ord_priority (bl_ord x)));
    destruct (Z.compare_spec (ord_priority (bl_ord z)) (ord_priority (bl_ord y)));
    destruct (Z.compare_spec (ord_priority (bl_ord z)) (ord_priority (bl_ord x)));
      rewrite ?Z.compare_lt_iff; intros; try done; lia.
  - intros x y z.
    destruct (Z.compare_spec (ord_priority (bl_ord y)) (ord_priority (bl_ord x))) as [E| |]; [|done|done].
    rewrite E, Z.compare_eq_iff. by intros ->.
Qed.

Definition txs self : gmap TransactionId ValidPoolTransaction := bl_transaction <$> by_id self.

Definition accepts (tx : ValidPoolTransaction) : Prop :=
  vis_eip4844 tx = true /\ is_u128 (vmax_fee_per_gas tx) /\
  is_u128 (default 0 (vmax_fee_per_blob_gas tx)).

Definition fees_ok (fees : PendingFees) : Prop := is_u128 (blob_fee fees) /\ is_u128 (base_fee fees).

(** The set in eviction order holds exactly the entries of the map. *)
Record blob_ok p : Prop := {
  ok_key i t : by_id p !! i = Some t -> transaction_id (bl_transaction t) = i;
  ok_accepts i t : by_id p !! i = Some t -> accepts (bl_transaction t);
  ok_sub i t : by_id p !! i = Some t -> 0 <= ord_submission_id (bl_ord t) < submission_id p;
  ok_sub_inj i j t t' : by_id p !! i = Some t -> by_id p !! j = Some t' ->
    ord_submission_id (bl_ord t) = ord_submission_id (bl_ord t') -> i = j;
  ok_sorted : bset_sorted blob_cmp (all p);
  ok_all t : t ∈ all p <-> by_id p !! transaction_id (bl_transaction t) = Some t;
  ok_fees : fees_ok (pending_fees p);
  ok_counter : is_u64 (submission_id p);
  ok_size : pool_size p = wrap_u64 (total_size (txs p));
}.

Lemma blob_ok_default : is_u128 BLOB_TX_MIN_BLOB_GASPRICE -> blob_ok blob_default.
Proof.
  intros Hmin. split; simpl; try (intros ?; intros; simplify_map_eq; done); try done; [constructor|].
  intros t. rewrite lookup_empty. set_solver.
Qed.

Lemma blob_cmp_eq a b : blob_cmp a b = Eq -> ord_submission_id (bl_ord a) = ord_submission_id (bl_ord b).
Proof.
  unfold blob_cmp, ord_cmp.
  destruct (Z.compare_spec (ord_priority (bl_ord b)) (ord_priority (bl_ord a))); [|done|done].
  apply Z.compare_eq_iff.
Qed.

Lemma cmp_eq_entry p a b : blob_ok p -> a ∈ all p -> b ∈ all p -> blob_cmp a b = Eq -> a = b.
Proof. intros Hok. apply bset_sorted_unique; [apply _|apply Hok]. Qed.

Lemma current_priority_Some tx fees :
  accepts tx -> fees_ok fees -> exists n, current_priority tx fees = Some n.
Proof.
  intros (_ & H1 & H2) [F1 F2]. unfold current_priority.
  destruct (blob_tx_priority_spec (blob_fee fees) (default 0 (vmax_fee_per_blob_gas tx))
    (base_fee fees) (vmax_fee_per_gas tx)) as (n & Hn & _); eauto.
Qed.

(** ** Adding and removing *)

Lemma blob_add_transaction_ok p tx :
  blob_ok p -> by_id p !! transaction_id tx = None -> accepts tx ->
  submission_id p < u64_modulus - 1 ->
  exists p', add_transaction p tx = Some p' /\ blob_ok p' /\
    txs p' = <[transaction_id tx := tx]> (txs p) /\ submission_id p' = submission_id p + 1.
Proof.
  intros Hok Hnew Hacc Hroom. unfold add_transaction, contains, blob_new.
  destruct (current_priority_Some tx (pending_fees p) Hacc (ok_fees p Hok)) as [n Hn].
  pose proof (ok_counter p Hok) as Hc. unfold is_u64 in Hc.
  assert (Hw : wrapping_add_u64 (submission_id p) 1 = submission_id p + 1).
  { apply wrap_u64_small. unfold is_u64. lia. }
  rewrite (proj1 Hacc), Hnew. simpl. rewrite Hn. simpl. rewrite Hw.
  set (t := mkBlob tx _). eexists. split; [done|].
  split_and!; [|unfold txs; simpl; by rewrite fmap_insert|done].
  assert (Hfresh : forall z, z ∈ all p -> blob_cmp t z <> Eq).
  { intros z Hz%(ok_all p Hok) Heq%blob_cmp_eq. apply (ok_sub p Hok) in Hz. simpl in Heq. lia. }
  split; simpl.
  - intros j t'. rewrite lookup_insert_Some. intros [[<- <-]|[_ Hj]]; [done|by apply (ok_key p Hok)].
  - intros j t'. rewrite lookup_insert_Some. intros [[<- <-]|[_ Hj]]; [done|by apply (ok_accepts p Hok j)].
  - intros j t'. rewrite lookup_insert_Some. intros [[<- <-]|[_ Hj]]; simpl; [lia|].
    apply (ok_sub p Hok) in Hj. lia.
  - intros j k t1 t2. rewrite !lookup_insert_Some.
    intros [[<- <-]|[_ Hj]] [[<- <-]|[_ Hk]] Heq; [done| | |by eapply (ok_sub_inj p Hok)].
    + apply (ok_sub p Hok) in Hk. simpl in Heq. lia.
    + apply (ok_sub p Hok) in Hj. simpl in Heq. lia.
  - apply bset_insert_sorted; [apply _|apply Hok].
  - intros t'. rewrite (bset_insert_fresh blob_cmp), lookup_insert_Some, (ok_all p Hok) by done.
    split.
    + intros [->|Hin]; [by left|]. destruct (decide (transaction_id tx = transaction_id (bl_transaction t')));
        [congruence|by right].
    + intros [[_ <-]|[_ ?]]; auto.
  - apply Hok.
  - unfold is_u64. lia.
  - unfold pool_size, txs; simpl. rewrite size_add_usize, fmap_insert. fold (pool_size p) (txs p).
    rewrite (ok_size p Hok), total_size_insert.
    + rewrite wrap_u64_add_l. f_equal. simpl. lia.
    + unfold txs. by rewrite lookup_fmap, Hnew.
Qed.

Lemma blob_remove_transaction_ok p i :
  blob_ok p ->
  let p' := (remove_transaction p i).1 in
  (remove_transaction p i).2 = txs p !! i /\ blob_ok p' /\ by_id p' = delete i (by_id p) /\
  submission_id p' = submission_id p /\ pending_fees p' = pending_fees p.
Proof.
  intros Hok. unfold remove_transaction, txs. rewrite lookup_fmap.
  destruct (by_id p !! i) as [t|] eqn:Hi; simpl.
  2:{ split_and!; try done. by rewrite delete_id. }
  pose proof (ok_key p Hok _ _ Hi) as Hkey.
  assert (Hin : t ∈ all p) by (apply (ok_all p Hok); by rewrite Hkey).
  destruct (bset_remove_spec blob_cmp t _ (ok_sorted p Hok)) as (Hs & Hmem & _).
  split_and!; try done. split; simpl.
  - intros j t' [_ Hj]%lookup_delete_Some. by apply (ok_key p Hok).
  - intros j t' [_ Hj]%lookup_delete_Some. by apply (ok_accepts p Hok j).
  - intros j t' [_ Hj]%lookup_delete_Some. by apply (ok_sub p Hok j).
  - intros j k t1 t2 [_ Hj]%lookup_delete_Some [_ Hk]%lookup_delete_Some. by apply (ok_sub_inj p Hok).
  - done.
  - intros t'. rewrite Hmem, lookup_delete_Some, (ok_all p Hok). split; intros [H1 H2].
    + split; [|done]. intros Heq. rewrite <- Heq, Hi in H1. simplify_eq.
      by rewrite (cmp_refl blob_cmp) in H2.
    + split; [done|]. intros Heq. apply H1. rewrite <- Hkey. f_equal. f_equal.
      apply (cmp_eq_entry p); [done|done| |done]. by apply (ok_all p Hok).
  - apply Hok.
  - apply Hok.
  - unfold pool_size, txs; simpl. rewrite size_sub_usize, fmap_delete. fold (pool_size p) (txs p).
    rewrite (ok_size p Hok), wrap_u64_sub_l. rewrite (total_size_delete _ i (bl_transaction t)); [done|].
    unfold txs. by rewrite lookup_fmap, Hi.
Qed.

Lemma blob_txs_key p i tx : blob_ok p -> txs p !! i = Some tx -> transaction_id tx = i.
Proof.
  intros Hok. unfold txs. rewrite lookup_fmap. intros (t & Ht & ->)%fmap_Some.
  by apply (ok_key p Hok).
Qed.

Lemma txs_None p i : txs p !! i = None <-> by_id p !! i = None.
Proof. unfold txs. by rewrite lookup_fmap, fmap_None. Qed.

(** The interface. *)
#[export] Instance blob_impl : SubPoolImpl BlobTransactions.
Proof.
  refine {| sp_txs := txs; sp_ok := blob_ok;
     sp_room := fun p => u64_modulus - 1 - submission_id p;
     sp_accepts := accepts;
     sp_add := fun _ p tx => add_transaction p tx;
     sp_remove := fun p i => Some (remove_transaction p i); sp_len := len; sp_size := pool_size |}.
  - apply blob_txs_key.
  - intros _ p tx Hok Hnew%txs_None Hacc Hroom.
    destruct (blob_add_transaction_ok p tx) as (p' & ? & ? & ? & ?); [done|done|done|lia|].
    exists p'. split_and!; [done|done|done|lia].
  - intros p i Hok. destruct (blob_remove_transaction_ok p i Hok) as (Hr & Hok' & Hby & Hsub & _).
    eexists. split_and!; [by rewrite <- Hr, <- surjective_pairing|done| |lia].
    unfold txs. by rewrite Hby, fmap_delete.
  - intros p. unfold len, txs. by rewrite map_size_fmap.
  - apply ok_size.
Defined.

(** ** Changing the fees *)

(** The stored priorities are those of the current fees. *)
Definition prio_current p : Prop := forall i t, by_id p !! i = Some t ->
  current_priority (bl_transaction t) (pending_fees p) = Some (ord_priority (bl_ord t)).

Definition updated (fees : PendingFees) (t : BlobTransaction) : BlobTransaction :=
  mkBlob (bl_transaction t)
    (mkBlobOrd (ord_submission_id (bl_ord t)) (default 0 (current_priority (bl_transaction t) fees))).

Lemma update_priority_updated fees t :
  accepts (bl_transaction t) -> fees_ok fees -> update_priority fees t = Some (updated fees t).
Proof.
  intros Ha Hf. unfold update_priority, updated.
  by destruct (current_priority_Some _ fees Ha Hf) as [n ->].
Qed.

Lemma mapM_pure {A B} (f : A -> option B) (g : A -> B) l :
  (forall x, x ∈ l -> f x = Some (g x)) -> mapM f l = Some (g <$> l).
Proof.
  intros Hl. apply mapM_Some, Forall2_fmap_r, Forall_Forall2_diag, Forall_forall. done.
Qed.

Lemma reprioritize_eq p :
  blob_ok p ->
  reprioritize p = Some (mkBlobPool (submission_id p) (updated (pending_fees p) <$> by_id p)
    (bset_of_list blob_cmp (updated (pending_fees p) <$> all p)) (pending_fees p) (size_of p)).
Proof.
  intros Hok. unfold reprioritize.
  rewrite (mapM_pure _ (updated (pending_fees p))).
  2:{ intros t Ht%(ok_all p Hok). apply update_priority_updated; [by eapply ok_accepts|apply Hok]. }
  simpl. rewrite (mapM_pure _ (prod_map Datatypes.id (updated (pending_fees p)))).
  2:{ intros [i t] Ht%elem_of_bt_entries. simpl.
      rewrite update_priority_updated; [done|by eapply ok_accepts|apply Hok]. }
  simpl. by rewrite list_to_map_fmap, list_to_map_bt_entries.
Qed.

Lemma reprioritize_ok p :
  blob_ok p ->
  exists p', reprioritize p = Some p' /\ blob_ok p' /\ txs p' = txs p /\
    submission_id p' = submission_id p /\ prio_current p'.
Proof.
  intros Hok. eexists. split; [by apply reprioritize_eq|].
  set (f := updated (pending_fees p)).
  assert (Htxs : bl_transaction <$> (f <$> by_id p) = txs p).
  { rewrite <- map_fmap_compose. apply map_fmap_ext. done. }
  assert (Hinj : forall a b, a ∈ all p -> b ∈ all p ->
            ord_submission_id (bl_ord a) = ord_submission_id (bl_ord b) -> a = b).
  { intros a b Ha%(ok_all p Hok) Hb%(ok_all p Hok) Heq.
    pose proof (ok_sub_inj p Hok _ _ _ _ Ha Hb Heq). congruence. }
  assert (Hlook : forall i t', (f <$> by_id p) !! i = Some t' <->
            exists t, by_id p !! i = Some t /\ t' = f t).
  { intros i t'. rewrite lookup_fmap, fmap_Some. naive_solver. }
  split_and!; [|done|done|].
  2:{ intros i t' (t & Ht & ->)%Hlook. simpl.
      destruct (current_priority_Some (bl_transaction t) (pending_fees p)) as [n Hn];
        [by eapply ok_accepts|apply Hok|]. by rewrite Hn. }
  split; simpl.
  - intros i t' (t & Ht & ->)%Hlook. by apply (ok_key p Hok i t).
  - intros i t' (t & Ht & ->)%Hlook. by apply (ok_accepts p Hok i t).
  - intros i t' (t & Ht & ->)%Hlook. by apply (ok_sub p Hok i t).
  - intros i j t1 t2 (a & Ha & ->)%Hlook (b & Hb & ->)%Hlook. by apply (ok_sub_inj p Hok i j a b).
  - apply bset_of_list_sorted. apply _.
  - intros t'. rewrite bset_of_list_elem; [|apply _| |].
    + rewrite list_elem_of_fmap, Hlook. split.
      * intros (t & -> & Ht%(ok_all p Hok)). exists t. split; [exact Ht|done].
      * intros (t & Ht & ->). exists t. split; [done|]. simpl in Ht. by apply (ok_all p Hok).
    + intros a b (a' & -> & Ha)%list_elem_of_fmap (b' & -> & Hb)%list_elem_of_fmap Heq%blob_cmp_eq.
      f_equal. by apply Hinj.
    + apply NoDup_fmap_2_strong; [|apply (bset_sorted_NoDup blob_cmp), Hok].
      intros a b Ha Hb Heq. apply Hinj; [done|done|]. by apply (f_equal (fun t => ord_submission_id (bl_ord t))) in Heq.
  - apply Hok.
  - apply Hok.
  - unfold pool_size, txs; simpl. rewrite Htxs. apply Hok.
Qed.

Lemma blob_remove_each_ok p ids :
  blob_ok p -> NoDup ids -> (forall i, i ∈ ids -> is_Some (txs p !! i)) ->
  exists p' removed, remove_each p ids = Some (p', removed) /\ blob_ok p' /\
    evicts (txs p) removed (txs p') /\ transaction_id <$> removed = ids /\
    submission_id p' = submission_id p.
Proof.
  revert p. induction ids as [|i ids IH]; intros p Hok Hnd Hin.
  { exists p, []. split_and!; [done|done|apply evicts_nil|done|done]. }
  apply NoDup_cons in Hnd as [Hi Hnd]. simpl.
  destruct (blob_remove_transaction_ok p i Hok) as (Hr & Hok1 & Hby & Hn1 & _).
  destruct (remove_transaction p i) as [p1 r]. simpl in *. subst r.
  assert (Ht1 : txs p1 = delete i (txs p)) by (unfold txs; by rewrite Hby, fmap_delete).
  destruct (Hin i ltac:(set_solver)) as [tx Htx]. pose proof (blob_txs_key _ _ _ Hok Htx) as Hkey.
  destruct (IH p1 Hok1 Hnd) as (p2 & removed & Heq & Hok2 & Hev & Hids & Hn2).
  { intros j Hj. rewrite Ht1, lookup_delete_ne by set_solver. set_solver. }
  exists p2, (tx :: removed). rewrite Htx. simpl. rewrite Heq. simpl.
  split_and!; [done|done| |by f_equal|congruence].
  apply (evicts_app _ [tx] (txs p1)); [|done]. rewrite Ht1, <- Hkey. apply evicts_one.
  by rewrite Hkey.
Qed.

Lemma satisfy_pending_fee_ids_NoDup p fees : NoDup (satisfy_pending_fee_ids p fees).
Proof.
  pose proof (scan_keys_NoDup (fees_unmet fees) None _ (NoDup_bt_keys (by_id p))) as Hnd.
  by apply NoDup_app in Hnd as [? _].
Qed.

Lemma satisfy_pending_fee_ids_spec p fees i :
  i ∈ satisfy_pending_fee_ids p fees <->
  exists t, by_id p !! i = Some t /\
    (forall j b, by_id p !! j = Some b -> sender j = sender i -> nonce j <= nonce i ->
       fees_unmet fees b = false).
Proof.
  unfold satisfy_pending_fee_ids. rewrite list_elem_of_fmap. split.
  - intros ([k t] & -> & Hin). apply scan_map_spec in Hin as [? ?]. eauto.
  - intros (t & Ht & Hall). exists (i, t). split; [done|]. by apply scan_map_spec.
Qed.

Lemma enforce_pending_fees_ok p fees :
  blob_ok p -> fees_ok fees ->
  exists p' removed, enforce_pending_fees p fees = Some (p', removed) /\ blob_ok p' /\
    evicts (txs p) removed (txs p') /\ transaction_id <$> removed = satisfy_pending_fee_ids p fees /\
    submission_id p' = submission_id p /\ prio_current p'.
Proof.
  intros Hok Hf. unfold enforce_pending_fees.
  destruct (blob_remove_each_ok p (satisfy_pending_fee_ids p fees) Hok)
    as (p1 & removed & Heq & Hok1 & Hev & Hids & Hsub1).
  - apply satisfy_pending_fee_ids_NoDup.
  - intros i (t & Ht & _)%satisfy_pending_fee_ids_spec. unfold txs. rewrite lookup_fmap, Ht. eauto.
  - rewrite Heq. simpl. set (q := mkBlobPool _ _ _ fees _).
    assert (Hq : blob_ok q) by (destruct Hok1; by split).
    destruct (reprioritize_ok q Hq) as (p2 & Hr & Hok2 & Htxs & Hsub2 & Hprio).
    rewrite Hr. exists p2, removed. split_and!; [done|done| |done| |done].
    + by rewrite Htxs.
    + by rewrite Hsub2.
Qed.

(** ** Truncation *)

Lemma remove_last_all p t l :
  blob_ok p -> all p = l ++ [t] ->
  all (remove_transaction p (transaction_id (bl_transaction t))).1 = l.
Proof.
  intros Hok Hl. unfold remove_transaction.
  assert (Ht : by_id p !! transaction_id (bl_transaction t) = Some t)
    by (apply (ok_all p Hok); rewrite Hl; set_solver).
  rewrite Ht. simpl. pose proof (ok_sorted p Hok) as Hs. rewrite Hl in *. clear Ht Hl Hok.
  unfold bset_sorted in Hs. induction l as [|x l IH]; simpl in *.
  - by rewrite (cmp_refl blob_cmp).
  - inversion Hs as [|? ? Hs' Hall]; subst. rewrite Forall_forall in Hall.
    rewrite (proj2 (cmp_gt_lt blob_cmp t x)) by (apply Hall; set_solver).
    specialize (IH Hs'). destruct (bset_remove blob_cmp t (l ++ [t])). simpl in *. by rewrite IH.
Qed.

Lemma blob_truncate_loop_ok fuel p limit acc :
  blob_ok p -> (size (by_id p) < fuel)%nat -> 0 <= max_txs limit -> 0 <= max_size limit ->
  exists p' r, truncate_loop fuel p limit acc = Some (p', acc ++ (bl_transaction <$> r)) /\
    blob_ok p' /\ exceeds p' limit = false /\ submission_id p' = submission_id p /\
    evicts (txs p) (bl_transaction <$> r) (txs p') /\ all p = all p' ++ reverse r.
Proof.
  intros Hok0 Hfuel0 H1 H2. revert p acc Hok0 Hfuel0.
  induction fuel as [|fuel IH]; intros p acc Hok Hfuel; [lia|]. simpl.
  destruct (exceeds p limit) eqn:Hex.
  2:{ exists p, []. csimpl. rewrite !app_nil_r. split_and!; try done. apply evicts_nil. }
  destruct (last (all p)) as [t|] eqn:Hlast.
  2:{ exfalso. apply last_None in Hlast. assert (Hem : by_id p = ∅).
      { apply map_empty. intros i. destruct (by_id p !! i) as [t|] eqn:Hi; [|done].
        assert (t ∈ all p) as Hin by (apply (ok_all p Hok); by rewrite (ok_key p Hok _ _ Hi)).
        rewrite Hlast in Hin. set_solver. }
      unfold exceeds, limit_is_exceeded, len in Hex. rewrite (ok_size p Hok) in Hex. unfold txs in Hex.
      rewrite Hem, fmap_empty, total_size_empty, map_size_empty in Hex.
      change (wrap_u64 0) with 0 in Hex. apply orb_true_iff in Hex as [E|E]; bools; lia. }
  simpl. apply last_Some in Hlast as [l Hl].
  assert (Ht : by_id p !! transaction_id (bl_transaction t) = Some t)
    by (apply (ok_all p Hok); rewrite Hl; set_solver).
  pose proof (remove_last_all p t l Hok Hl) as Hall.
  destruct (blob_remove_transaction_ok p (transaction_id (bl_transaction t)) Hok) as (Hr & Hok1 & Hby & Hn1 & _).
  destruct (remove_transaction p _) as [p1 r]. simpl in *. subst r.
  assert (Htx : txs p !! transaction_id (bl_transaction t) = Some (bl_transaction t))
    by (unfold txs; by rewrite lookup_fmap, Ht).
  rewrite Htx. simpl.
  destruct (IH p1 (acc ++ [bl_transaction t]) Hok1) as (p2 & r & Heq & Hok2 & Hex2 & Hs2 & Hev & Hrev).
  { rewrite Hby, (map_size_delete_Some _ _ (mk_is_Some _ _ Ht)). 
    pose proof (map_size_ne_0_lookup_2 _ _ (mk_is_Some _ _ Ht)). lia. }
  exists p2, (t :: r). rewrite Heq, <- app_assoc. split_and!; [done|done|done|congruence| |].
  - apply (evicts_app _ [bl_transaction t] (txs p1)); [|done].
    replace (txs p1) with (delete (transaction_id (bl_transaction t)) (txs p))
      by (unfold txs; by rewrite Hby, fmap_delete).
    by apply evicts_one.
  - by rewrite Hl, <- Hall, Hrev, reverse_cons, app_assoc.
Qed.

Lemma blob_truncate_pool_ok p limit :
  blob_ok p -> 0 <= max_txs limit -> 0 <= max_size limit ->
  exists p' r, truncate_pool p limit = Some (p', bl_transaction <$> r) /\
    blob_ok p' /\ exceeds p' limit = false /\ submission_id p' = submission_id p /\
    evicts (txs p) (bl_transaction <$> r) (txs p') /\ all p = all p' ++ reverse r.
Proof.
  intros Hok H1 H2.
  destruct (blob_truncate_loop_ok (S (size (by_id p))) p limit [] Hok ltac:(lia) H1 H2)
    as (p' & r & Heq & ?). exists p', r. by split.
Qed.

(** ** Properties *)

(** All that the pool does with its blob transactions. *)
Inductive blob_step : BlobTransactions -> BlobTransactions -> Prop :=
| step_add p tx p' : by_id p !! transaction_id tx = None -> accepts tx ->
    submission_id p < u64_modulus - 1 -> add_transaction p tx = Some p' -> blob_step p p'
| step_remove p i : blob_step p (remove_transaction p i).1
| step_fees p fees p' r : fees_ok fees -> enforce_pending_fees p fees = Some (p', r) -> blob_step p p'
| step_truncate p limit p' r : 0 <= max_txs limit -> 0 <= max_size limit ->
    truncate_pool p limit = Some (p', r) -> blob_step p p'.

Lemma blob_step_ok p p' : blob_ok p -> blob_step p p' -> blob_ok p'.
Proof.
  intros Hok Hs. destruct Hs as [p tx p' Hnew Hacc Hroom Hadd|p i|p fees p' r Hf He|p limit p' r H1 H2 Ht].
  - destruct (blob_add_transaction_ok p tx Hok Hnew Hacc Hroom) as (? & ? & ? & _). congruence.
  - by apply blob_remove_transaction_ok.
  - destruct (enforce_pending_fees_ok p fees Hok Hf) as (? & ? & ? & ? & _). congruence.
  - destruct (blob_truncate_pool_ok p limit Hok H1 H2) as (? & ? & ? & ? & _). congruence.
Qed.

Lemma blob_steps_ok p p' : rtc blob_step p p' -> blob_ok p -> blob_ok p'.
Proof. induction 1; eauto using blob_step_ok. Qed.

(** The two collections of the blob pool stay in bijection.  In every pool
    reachable from the empty one the ordered set has exactly the entries of the
    map, in strictly increasing order, so that a removal always finds its entry
    in the set and the sizes agree. *)
Theorem blob_reachable_ok p :
  is_u128 BLOB_TX_MIN_BLOB_GASPRICE -> rtc blob_step blob_default p ->
  bset_sorted blob_cmp (all p) /\
  (forall t, t ∈ all p <-> by_id p !! transaction_id (bl_transaction t) = Some t) /\
  length (all p) = size (by_id p) /\
  pool_size p = wrap_u64 (total_size (txs p)).
Proof.
  intros Hmin Hr. assert (Hok : blob_ok p) by (eapply blob_steps_ok; [done|by apply blob_ok_default]).
  split_and!; [apply Hok|apply Hok| |apply Hok].
  rewrite <- length_map_to_list, <- (length_fmap snd (map_to_list _)).
  apply Permutation_length, NoDup_Permutation.
  - apply (bset_sorted_NoDup blob_cmp), Hok.
  - apply NoDup_fmap_2_strong; [|apply NoDup_map_to_list].
    intros [i t] [j t'] Hi%elem_of_map_to_list Hj%elem_of_map_to_list Heq. simpl in Heq. subst t'.
    apply (ok_key p Hok) in Hi as <-. apply (ok_key p Hok) in Hj as <-. done.
  - intros t. rewrite (ok_all p Hok), list_elem_of_fmap. split.
    + intros Ht. exists (transaction_id (bl_transaction t), t). by rewrite elem_of_map_to_list.
    + intros ([i t'] & -> & Hi%elem_of_map_to_list). simpl. by rewrite (ok_key p Hok i t').
Qed.

(** Truncating the blob pool ends without panic within the limit, and what
    it removes is, entry for entry, the end of the eviction order: everything
    removed compares greater than everything that stays. *)
Theorem blob_truncate_order p limit :
  blob_ok p -> 0 <= max_txs limit -> 0 <= max_size limit ->
  exists p' r, truncate_pool p limit = Some (p', bl_transaction <$> r) /\
    blob_ok p' /\ exceeds p' limit = false /\
    evicts (txs p) (bl_transaction <$> r) (txs p') /\
    all p = all p' ++ reverse r /\
    (forall t t', t ∈ r -> t' ∈ all p' -> blob_cmp t' t = Lt).
Proof.
  intros Hok H1 H2.
  destruct (blob_truncate_pool_ok p limit Hok H1 H2) as (p' & r & Heq & Hok' & Hex & _ & Hev & Hall).
  exists p', r. split_and!; [done..|]. intros t t' Ht Ht'.
  pose proof (ok_sorted p Hok) as Hs. rewrite Hall in Hs.
  apply (StronglySorted_app_1_elem_of _ _ _ _ _ Hs Ht'). by apply elem_of_reverse.
Qed.

(** Enforcing new pending fees moves out exactly the blob transactions
    that, with everything of their sender before them, pay both the base fee
    and the blob fee; the rest is re-sorted under the new fees.  It never
    panics. *)
Theorem enforce_pending_fees_exact p fees :
  blob_ok p -> fees_ok fees ->
  exists p' removed, enforce_pending_fees p fees = Some (p', removed) /\ blob_ok p' /\
    prio_current p' /\ evicts (txs p) removed (txs p') /\
    (forall tx, tx ∈ removed <->
       txs p !! transaction_id tx = Some tx /\
       forall j tx', txs p !! j = Some tx' -> sender j = vsender_id tx ->
         nonce j <= nonce (transaction_id tx) ->
         base_fee fees <= vmax_fee_per_gas tx' /\
         exists cap, vmax_fee_per_blob_gas tx' = Some cap /\ blob_fee fees <= cap).
Proof.
  intros Hok Hf.
  destruct (enforce_pending_fees_ok p fees Hok Hf) as (p' & r & Heq & Hok' & Hev & Hids & _ & Hprio).
  exists p', r. split_and!; [done..|].
  assert (Hunmet : forall b, fees_unmet fees b = false <->
    base_fee fees <= vmax_fee_per_gas (bl_transaction b) /\
    exists cap, vmax_fee_per_blob_gas (bl_transaction b) = Some cap /\ blob_fee fees <= cap).
  { intros b. unfold fees_unmet, option_lt. rewrite orb_false_iff, Z.ltb_ge.
    destruct (vmax_fee_per_blob_gas _); rewrite ?Z.ltb_ge; naive_solver. }
  assert (Htxs : forall j tx', txs p !! j = Some tx' <-> exists b, by_id p !! j = Some b /\ tx' = bl_transaction b).
  { intros j tx'. unfold txs. rewrite lookup_fmap, fmap_Some. naive_solver. }
  assert (Hiff : forall tx, txs p !! transaction_id tx = Some tx ->
    transaction_id tx ∈ satisfy_pending_fee_ids p fees <->
    forall j tx', txs p !! j = Some tx' -> sender j = vsender_id tx ->
         nonce j <= nonce (transaction_id tx) ->
         base_fee fees <= vmax_fee_per_gas tx' /\
         exists cap, vmax_fee_per_blob_gas tx' = Some cap /\ blob_fee fees <= cap).
  { intros tx (t & Ht & _)%Htxs. rewrite satisfy_pending_fee_ids_spec. split.
    - intros (_ & _ & Hall) j tx' (b & Hb & ->)%Htxs Hs Hn. apply Hunmet. by apply (Hall j).
    - intros Hall. exists t. split; [done|]. intros j b Hj Hs Hn. apply Hunmet.
      apply (Hall j); [apply Htxs; eauto|done|done]. }
  intros tx. rewrite <- Hids in Hiff. split.
  - intros Htx. pose proof (ev_from _ _ _ Hev tx Htx) as Hin. split; [done|].
    apply Hiff; [done|]. by apply list_elem_of_fmap_2.
  - intros [Hin Hall]. apply (evicts_removed _ _ _ (transaction_id tx) tx Hev Hin).
    rewrite (ev_rest _ _ _ Hev), lookup_delete_txs, bool_decide_eq_true_2; [done|]. by apply Hiff.
Qed.

(** The eviction order prefers to evict what is executable.  The priority
    of a transaction is computed with the pool's fee in the place of the cap:
    one whose caps are both at most the pending fees (it cannot be included) has
    the best priority 0, one whose blob fee cap is in a higher binary order of
    magnitude than the pending blob fee has a negative one, so the second is
    greater in the order and truncated first. *)
Theorem blob_eviction_prefers_executable fees low high n m tl th :
  fees_ok fees -> 0 < blob_fee fees -> accepts low -> accepts high ->
  default 0 (vmax_fee_per_blob_gas low) <= blob_fee fees -> vmax_fee_per_gas low <= base_fee fees ->
  Z.log2 (blob_fee fees) < Z.log2 (default 0 (vmax_fee_per_blob_gas high)) ->
  blob_new low n fees = Some tl -> blob_new high m fees = Some th ->
  ord_priority (bl_ord tl) = 0 /\ ord_priority (bl_ord th) < 0 /\ blob_cmp tl th = Lt.
Proof.
  intros [F1 F2] Hpos (_ & L1 & L2) (_ & G1 & G2) Hlow1 Hlow2 Hhigh. unfold blob_new, current_priority.
  destruct (blob_tx_priority_spec (blob_fee fees) (default 0 (vmax_fee_per_blob_gas low))
    (base_fee fees) (vmax_fee_per_gas low)) as (a & -> & _ & Ha & _); [done..|].
  destruct (blob_tx_priority_spec (blob_fee fees) (default 0 (vmax_fee_per_blob_gas high))
    (base_fee fees) (vmax_fee_per_gas high)) as (b & -> & _ & _ & Hb & _); [done..|].
  simpl. intros [= <-] [= <-]. simpl.
  assert (a = 0) as -> by auto. assert (b < 0) by auto. split_and!; [done|done|].
  unfold blob_cmp, ord_cmp. simpl. by rewrite (proj2 (Z.compare_lt_iff b 0)).
Qed.

End blob.

(** ** Witnesses *)

Section examples.
#[local] Existing Instance mainnet_constants.

Definition example_blob_tx (h s n fee blob : Z) : ValidPoolTransaction :=
  {| transaction :=
       {| tx_hash := h; tx_sender := 1000 + s; tx_nonce := n; ty := 3; cost := 0;
          max_fee_per_gas := fee; max_priority_fee_per_gas := Some 1;
          max_fee_per_blob_gas := Some blob; gas_limit := 21000; tx_size := 100 |};
     transaction_id := mkTransactionId s n;
     propagate := true; timestamp := 0; origin := External; authority_ids := None |}.

(** The pool after adding two transactions under high fees. *)
Definition example_fees : PendingFees := mkPendingFees 1000 500.

Definition example_blob : BlobTransactions :=
  default blob_default
    (p ← fst <$> enforce_pending_fees blob_default example_fees;
     p ← add_transaction p (example_blob_tx 1 7 0 100 50);
     add_transaction p (example_blob_tx 2 9 0 5000 4000)).

Lemma example_accepts h s n fee blob :
  is_u128 fee -> is_u128 blob -> accepts (example_blob_tx h s n fee blob).
Proof. intros Hf Hb. split; [reflexivity|]. by split. Qed.

Lemma example_blob_reachable : rtc blob_step blob_default example_blob.
Proof.
  unfold example_blob.
  destruct (enforce_pending_fees blob_default example_fees) as [[p r]|] eqn:E1; [|apply rtc_refl].
  assert (Hp : by_id p = ∅ /\ submission_id p = 0).
  { vm_compute in E1. by simplify_eq. }
  destruct Hp as [Hp1 Hp2]. simpl.
  destruct (add_transaction p _) as [p1|] eqn:E2; [|apply rtc_refl]. simpl.
  assert (Hstep1 : blob_step blob_default p).
  { eapply step_fees; [|exact E1]. split; by vm_compute. }
  assert (Hstep2 : blob_step p p1).
  { eapply step_add; [| | |exact E2].
    - by rewrite Hp1.
    - by apply example_accepts; vm_compute.
    - by rewrite Hp2. }
  assert (Hok : blob_ok p) by (eapply blob_step_ok; [by apply blob_ok_default|done]).
  destruct (blob_add_transaction_ok p (example_blob_tx 1 7 0 100 50) Hok) as (p1' & E2' & _ & Ht & Hs);
    [by rewrite Hp1|by apply example_accepts; vm_compute|by rewrite Hp2|].
  rewrite E2 in E2'. simplify_eq.
  destruct (add_transaction p1' _) as [p2|] eqn:E3; [|apply rtc_refl]. simpl.
  eapply rtc_l; [exact Hstep1|]. eapply rtc_l; [exact Hstep2|]. apply rtc_once.
  eapply step_add; [| | |exact E3].
  - apply txs_None. rewrite Ht. unfold txs. by rewrite Hp1.
  - by apply example_accepts; vm_compute.
  - by rewrite Hs, Hp2.
Qed.

Lemma example_blob_ok : blob_ok example_blob.
Proof. eapply blob_steps_ok; [apply example_blob_reachable|by apply blob_ok_default]. Qed.

Lemma blob_reachable_ok_witness : length (all example_blob) = size (by_id example_blob).
Proof. apply blob_reachable_ok; [done|exact example_blob_reachable]. Defined.

Lemma blob_truncate_order_witness :
  exists p' r, truncate_pool example_blob (mkSubPoolLimit 1 1000) = Some (p', bl_transaction <$> r) /\
    bl_transaction <$> r = [example_blob_tx 2 9 0 5000 4000] /\ blob_ok p'.
Proof.
  destruct (blob_truncate_order example_blob (mkSubPoolLimit 1 1000) example_blob_ok)
    as (p' & r & Heq & Hok & _); [done|done|].
  exists p', r. split; [exact Heq|]. split; [|exact Hok].
  assert (Hv : snd <$> truncate_pool example_blob (mkSubPoolLimit 1 1000) =
    Some [example_blob_tx 2 9 0 5000 4000]) by (vm_compute; reflexivity).
  rewrite Heq in Hv. exact (inj Some _ _ Hv).
Defined.

Lemma enforce_pending_fees_exact_witness :
  exists p' removed, enforce_pending_fees example_blob (mkPendingFees 1000 500) = Some (p', removed) /\
    removed = [example_blob_tx 2 9 0 5000 4000] /\ prio_current p'.
Proof.
  destruct (enforce_pending_fees_exact example_blob (mkPendingFees 1000 500) example_blob_ok)
    as (p' & r & Heq & _ & Hp & _); [split; by vm_compute|].
  exists p', r. split; [exact Heq|]. split; [|exact Hp].
  assert (Hv : snd <$> enforce_pending_fees example_blob (mkPendingFees 1000 500) =
    Some [example_blob_tx 2 9 0 5000 4000]) by (vm_compute; reflexivity).
  rewrite Heq in Hv. exact (inj Some _ _ Hv).
Defined.

Lemma blob_eviction_prefers_executable_witness :
  exists tl th, blob_new (example_blob_tx 1 7 0 100 50) 0 example_fees = Some tl /\
    blob_new (example_blob_tx 2 9 0 5000 4000) 1 example_fees = Some th /\ blob_cmp tl th = Lt.
Proof.
  assert (Hnew : forall h s n fee blob k, is_u128 fee -> is_u128 blob ->
    exists t, blob_new (example_blob_tx h s n fee blob) k example_fees = Some t).
  { intros h s n fee blob k Hf Hb. unfold blob_new.
    destruct (current_priority_Some (example_blob_tx h s n fee blob) example_fees) as [x ->];
      [by apply example_accepts|split; by vm_compute|]. by eexists. }
  pose proof (Hnew 1 7 0 100 50 0 ltac:(by vm_compute) ltac:(by vm_compute)) as Hlow.
  pose proof (Hnew 2 9 0 5000 4000 1 ltac:(by vm_compute) ltac:(by vm_compute)) as Hhigh.
  destruct Hlow as [tl E1], Hhigh as [th E2].
  exists tl, th. split; [exact E1|]. split; [exact E2|].
  refine (proj2 (proj2 (blob_eviction_prefers_executable example_fees
    (example_blob_tx 1 7 0 100 50) (example_blob_tx 2 9 0 5000 4000) 0 1 tl th
    _ _ _ _ _ _ _ E1 E2))).
  3,4: apply example_accepts.
  1: split.
  all: clear; by vm_compute.
Defined.

End examples.

End BlobTxs.
