(* ===== verification/AllTransactions.v ===== *)
(** * The set of all transactions

    [AllTransactions] of [crates/transaction-pool/src/pool/txpool.rs]: every
    transaction of the pool by identifier and by hash, with its state flags, the
    cumulative cost of its sender and the sub-pool it belongs to.  Its operations
    return the moves between sub-pools that [TxPool] has to carry out. *)

From S2P Require Import Prelude Ordered TxErrors TxIdentifier TxState TxTypes SubPoolSpec BlobFee.
Import Identifier TxState TxTypes SubPoolSpec BlobFee.

Module AllTxs.

Section all_transactions.
Context `{AlloyConstants}.

(** ** Data *)

Record PoolInternalTransaction := mkInternal {
  it_transaction : ValidPoolTransaction;
  it_subpool : SubPool;
  it_state : TxState;
  cumulative_cost : Z;
}.

Definition next_cumulative_cost (tx : PoolInternalTransaction) : Z :=
  add_u256 (cumulative_cost tx) (vcost (it_transaction tx)).

(** The setters behind [tx.state.insert(..)], [tx.cumulative_cost = ..] and
    [tx.subpool = tx.state.into()]. *)
Definition set_state (tx : PoolInternalTransaction) (s : TxState) : PoolInternalTransaction :=
  mkInternal (it_transaction tx) (it_subpool tx) s (cumulative_cost tx).
Definition state_insert (tx : PoolInternalTransaction) (f : TxState) : PoolInternalTransaction :=
  set_state tx (insert (it_state tx) f).
Definition state_remove (tx : PoolInternalTransaction) (f : TxState) : PoolInternalTransaction :=
  set_state tx (remove (it_state tx) f).
(** [if b { insert } else { remove }]. *)
Definition state_set (b : bool) (tx : PoolInternalTransaction) (f : TxState) : PoolInternalTransaction :=
  if b then state_insert tx f else state_remove tx f.
Definition set_cost (tx : PoolInternalTransaction) (c : Z) : PoolInternalTransaction :=
  mkInternal (it_transaction tx) (it_subpool tx) (it_state tx) c.
Definition set_subpool (tx : PoolInternalTransaction) : PoolInternalTransaction :=
  mkInternal (it_transaction tx) (into_subpool (it_state tx)) (it_state tx) (cumulative_cost tx).

Record AllTransactions := mkAll {
  a_minimal_protocol_basefee : Z;
  block_gas_limit : Z;
  a_max_account_slots : Z;
  by_hash : gmap Z ValidPoolTransaction;
  txs : gmap TransactionId PoolInternalTransaction;
  tx_counter : gmap SenderId Z;
  last_seen_block_number : Z;
  last_seen_block_hash : Z;
  pending_fees : PendingFees;
  a_price_bumps : PriceBumpConfig;
  a_local_config : LocalTransactionConfig;
  auths : gmap SenderId (gset Z);
}.

Definition all_new (config : PoolConfig) : AllTransactions :=
  {| a_minimal_protocol_basefee := minimal_protocol_basefee config;
     block_gas_limit := config_gas_limit config;
     a_max_account_slots := max_account_slots config;
     by_hash := ∅; txs := ∅; tx_counter := ∅;
     last_seen_block_number := 0; last_seen_block_hash := 0;
     pending_fees := pending_fees_default;
     a_price_bumps := price_bumps config;
     a_local_config := local_transactions_config config;
     auths := ∅ |}.

Implicit Types (self : AllTransactions) (tx : PoolInternalTransaction).

(** Updates of the fields the operations write. *)
Definition with_maps self (h : gmap Z ValidPoolTransaction)
  (m : gmap TransactionId PoolInternalTransaction) (c : gmap SenderId Z)
  (a : gmap SenderId (gset Z)) : AllTransactions :=
  mkAll (a_minimal_protocol_basefee self) (block_gas_limit self) (a_max_account_slots self)
    h m c (last_seen_block_number self) (last_seen_block_hash self) (pending_fees self)
    (a_price_bumps self) (a_local_config self) a.
Definition with_txs self m : AllTransactions :=
  with_maps self (by_hash self) m (tx_counter self) (auths self).
Definition with_fees self (fees : PendingFees) : AllTransactions :=
  mkAll (a_minimal_protocol_basefee self) (block_gas_limit self) (a_max_account_slots self)
    (by_hash self) (txs self) (tx_counter self) (last_seen_block_number self)
    (last_seen_block_hash self) fees (a_price_bumps self) (a_local_config self) (auths self).

(** ** Counters and look-ups *)

Definition contains self (tx_hash : Z) : bool := bool_decide (is_Some (by_hash self !! tx_hash)).
Definition get self (id : TransactionId) : option PoolInternalTransaction := txs self !! id.
Definition len self : Z := Z.of_nat (size (txs self)).

Definition tx_inc (counter : gmap SenderId Z) (sender : SenderId) : gmap SenderId Z :=
  <[sender := wrapping_add_u64 (default 0 (counter !! sender)) 1]> counter.

Definition tx_decr (counter : gmap SenderId Z) (sender : SenderId) : gmap SenderId Z :=
  match counter !! sender with
  | Some count =>
      if count =? 1 then delete sender counter
      else <[sender := wrap_u64 (count - 1)]> counter
  | None => counter
  end.

Definition set_block_info self (info : BlockInfo) : AllTransactions :=
  mkAll (a_minimal_protocol_basefee self) (info_block_gas_limit info) (a_max_account_slots self)
    (by_hash self) (txs self) (tx_counter self)
    (info_last_seen_block_number info) (info_last_seen_block_hash info)
    (mkPendingFees (pending_basefee info)
       (default (blob_fee (pending_fees self)) (pending_blob_fee info)))
    (a_price_bumps self) (a_local_config self) (auths self).

Definition txs_iter self (sender : SenderId) : list (TransactionId * PoolInternalTransaction) :=
  sender_range (start_bound sender) (txs self).

Definition descendant_txs_inclusive self (id : TransactionId)
  : list (TransactionId * PoolInternalTransaction) := sender_range id (txs self).

Definition descendant_txs_exclusive self (id : TransactionId)
  : list (TransactionId * PoolInternalTransaction) :=
  take_while (fun e => sender e.1 =? sender id) (bt_range_after id (txs self)).

(** ** Rechecking all transactions against changed accounts *)

Definition update_tx_base_fee (pending_block_base_fee : Z) tx : PoolInternalTransaction :=
  match Z.compare (vmax_fee_per_gas (it_transaction tx)) pending_block_base_fee with
  | Gt | Eq => state_insert tx ENOUGH_FEE_CAP_BLOCK
  | Lt => state_remove tx ENOUGH_FEE_CAP_BLOCK
  end.

Definition record_subpool_update tx : PoolInternalTransaction * list PoolUpdate :=
  let current_pool := it_subpool tx in
  let tx := set_subpool tx in
  (tx, if bool_decide (current_pool <> it_subpool tx)
       then [mkPoolUpdate (transaction_id (it_transaction tx)) current_pool (ToPool (it_subpool tx))]
       else []).

(** Where the loops of [update] are: at the top of the [while] loop
    ([AtHead]), in [next_sender!] ([SkipSender]), or in the inner loop over the
    consecutive transactions of a sender ([InChain]) with its local variables. *)
Inductive UpdateMode :=
| AtHead
| SkipSender (s : SenderId)
| InChain (s : SenderId) (next_nonce_in_line : Z) (cumulative : Z) (has_parked_ancestor : bool)
    (changed_balance : option Z).

(** The first transaction of a sender. *)
Definition update_head (changed_accounts : gmap SenderId SenderInfo) (pending_base_fee : Z)
  (id : TransactionId) tx : UpdateMode * PoolInternalTransaction * list PoolUpdate :=
  let continue_with changed_balance tx :=
    if has_nonce_gap (it_state tx) then (SkipSender (sender id), tx, [])
    else
      let tx := state_insert tx NO_PARKED_ANCESTORS in
      let tx := update_tx_base_fee pending_base_fee tx in
      let '(tx, updates) := record_subpool_update tx in
      (InChain (sender id) (saturating_add_u64 (vnonce (it_transaction tx)) 1)
         (next_cumulative_cost tx) (negb (is_pending (it_state tx))) changed_balance, tx, updates) in
  match changed_accounts !! sender id with
  | Some info =>
      if nonce id <? state_nonce info then
        (AtHead, tx,
         [mkPoolUpdate (transaction_id (it_transaction tx)) (it_subpool tx) Discard])
      else
        let tx :=
          match Identifier.ancestor (nonce id) (state_nonce info) (sender id) with
          | None =>
              let tx := state_insert tx NO_NONCE_GAPS in
              let tx := state_insert tx NO_PARKED_ANCESTORS in
              let tx := set_cost tx 0 in
              state_set (negb (balance info <? vcost (it_transaction tx))) tx ENOUGH_BALANCE
          | Some _ => tx
          end in
        continue_with (Some (balance info)) tx
  | None => continue_with None tx
  end.

(** One further transaction of the same sender, directly after the last. *)
Definition update_chain (pending_base_fee : Z) (s : SenderId) (next_nonce cumulative : Z)
  (has_parked_ancestor : bool) (changed_balance : option Z) tx
  : UpdateMode * PoolInternalTransaction * list PoolUpdate :=
  let tx := state_insert tx NO_NONCE_GAPS in
  let next_nonce := saturating_add_u64 next_nonce 1 in
  let tx := set_cost tx cumulative in
  let cumulative := next_cumulative_cost tx in
  let tx :=
    match changed_balance with
    | Some changed_balance => state_set (negb (changed_balance <? cumulative)) tx ENOUGH_BALANCE
    | None => tx
    end in
  let tx := state_set (negb has_parked_ancestor) tx NO_PARKED_ANCESTORS in
  let has_parked_ancestor := negb (is_pending (it_state tx)) in
  let tx := update_tx_base_fee pending_base_fee tx in
  let '(tx, updates) := record_subpool_update tx in
  (InChain s next_nonce cumulative has_parked_ancestor changed_balance, tx, updates).

Definition update_step (changed_accounts : gmap SenderId SenderInfo) (pending_base_fee : Z)
  (mode : UpdateMode) (id : TransactionId) tx
  : UpdateMode * PoolInternalTransaction * list PoolUpdate :=
  match mode with
  | AtHead => update_head changed_accounts pending_base_fee id tx
  | SkipSender s =>
      if sender id =? s then (SkipSender s, tx, [])
      else update_head changed_accounts pending_base_fee id tx
  | InChain s next_nonce cumulative has_parked_ancestor changed_balance =>
      if negb (sender id =? s) then update_head changed_accounts pending_base_fee id tx
      else if vnonce (it_transaction tx) =? next_nonce then
        update_chain pending_base_fee s next_nonce cumulative has_parked_ancestor changed_balance tx
      else (SkipSender s, tx, [])
  end.

Fixpoint update_loop (changed_accounts : gmap SenderId SenderInfo) (pending_base_fee : Z)
  (mode : UpdateMode) (entries : list (TransactionId * PoolInternalTransaction))
  : list (TransactionId * PoolInternalTransaction) * list PoolUpdate :=
  match entries with
  | [] => ([], [])
  | (id, tx) :: entries =>
      let '(mode, tx, updates) := update_step changed_accounts pending_base_fee mode id tx in
      let '(rest, rest_updates) := update_loop changed_accounts pending_base_fee mode entries in
      ((id, tx) :: rest, updates ++ rest_updates)
  end.

Definition update self (changed_accounts : gmap SenderId SenderInfo)
  : AllTransactions * list PoolUpdate :=
  let '(entries, updates) :=
    update_loop changed_accounts (base_fee (pending_fees self)) AtHead (bt_entries (txs self)) in
  (with_txs self (list_to_map entries), updates).

(** ** Removing *)

(** [remove_auths]: a no-op unless the transaction has authorities. *)
Definition remove_auths (a : gmap SenderId (gset Z)) tx : gmap SenderId (gset Z) :=
  match authority_ids (it_transaction tx) with
  | None => a
  | Some ids =>
      foldl (fun a auth =>
        match a !! auth with
        | Some list =>
            let list := list ∖ {[vhash (it_transaction tx)]} in
            if bool_decide (list = ∅) then delete auth a else <[auth := list]> a
        | None => a
        end) a ids
  end.

Definition remove_transaction_by_hash self (tx_hash : Z)
  : AllTransactions * option (ValidPoolTransaction * SubPool) :=
  match by_hash self !! tx_hash with
  | None => (self, None)
  | Some tx =>
      let h := delete tx_hash (by_hash self) in
      match txs self !! transaction_id tx with
      | None => (with_maps self h (txs self) (tx_counter self) (auths self), None)
      | Some internal =>
          (with_maps self h (delete (transaction_id tx) (txs self))
             (tx_decr (tx_counter self) (vsender_id tx)) (remove_auths (auths self) internal),
           Some (tx, it_subpool internal))
      end
  end.

Definition remove_transaction_by_id self (tx_id : TransactionId)
  : AllTransactions * option (ValidPoolTransaction * SubPool) :=
  match txs self !! tx_id with
  | None => (self, None)
  | Some internal =>
      let m := delete tx_id (txs self) in
      match by_hash self !! vhash (it_transaction internal) with
      | None => (with_maps self (by_hash self) m (tx_counter self) (auths self), None)
      | Some tx =>
          (with_maps self (delete (vhash (it_transaction internal)) (by_hash self)) m
             (tx_decr (tx_counter self) (vsender_id tx)) (remove_auths (auths self) internal),
           Some (tx, it_subpool internal))
      end
  end.

Definition remove_transaction self (id : TransactionId)
  : AllTransactions * option (ValidPoolTransaction * SubPool) :=
  match txs self !! id with
  | None => (self, None)
  | Some internal =>
      let counter := tx_decr (tx_counter self) (vsender_id (it_transaction internal)) in
      let hash := vhash (it_transaction internal) in
      let result := (fun v : ValidPoolTransaction => (v, it_subpool internal)) <$> by_hash self !! hash in
      (with_maps self (delete hash (by_hash self)) (delete id (txs self)) counter
         (remove_auths (auths self) internal), result)
  end.

(** One descendant of a removed transaction. *)
Definition park_one (id : TransactionId) tx : PoolInternalTransaction * list PoolUpdate :=
  let current_pool := it_subpool tx in
  let tx := set_subpool (state_remove tx NO_NONCE_GAPS) in
  (tx, if bool_decide (current_pool <> it_subpool tx)
       then [mkPoolUpdate id current_pool (ToPool (it_subpool tx))] else []).

Definition park_descendant_transactions self (tx_id : TransactionId)
  : AllTransactions * list PoolUpdate :=
  let parked := (fun e => (e.1, park_one e.1 e.2)) <$> descendant_txs_inclusive self tx_id in
  (with_txs self (list_to_map ((fun e => (e.1, e.2.1)) <$> parked) ∪ txs self),
   concat ((fun e => e.2.2) <$> parked)).

(** ** Inserting *)

Inductive InsertErr :=
| Underpriced (transaction : ValidPoolTransaction) (existing : Z)
| BlobTxHasNonceGap (transaction : ValidPoolTransaction)
| Overdraft (transaction : ValidPoolTransaction)
| FeeCapBelowMinimumProtocolFeeCap (transaction : ValidPoolTransaction) (fee_cap : Z)
| ExceededSenderTransactionsCapacity (transaction : ValidPoolTransaction)
| TxGasLimitMoreThanAvailableBlockGas (transaction : ValidPoolTransaction)
    (block_gas_limit tx_gas_limit : Z)
| TxTypeConflict (transaction : ValidPoolTransaction).

Record InsertOk := mkInsertOk {
  io_transaction : ValidPoolTransaction;
  io_move_to : SubPool;
  io_state : TxState;
  io_replaced_tx : option (ValidPoolTransaction * SubPool);
  io_updates : list PoolUpdate;
}.

Definition contains_conflicting_transaction self (tx : ValidPoolTransaction) : bool :=
  match txs_iter self (vsender_id tx) with
  | (_, existing) :: _ => tx_type_conflicts_with tx (it_transaction existing)
  | [] => false
  end.

Definition ensure_valid self (transaction : ValidPoolTransaction) (on_chain_nonce : Z)
  : result ValidPoolTransaction InsertErr :=
  if (negb (config_is_local (a_local_config self) (origin transaction)
              (tx_sender (TxTypes.transaction transaction))) &&
      (a_max_account_slots self <=? default 0 (tx_counter self !! vsender_id transaction)) &&
      (on_chain_nonce <? vnonce transaction))%bool
  then Err (ExceededSenderTransactionsCapacity transaction)
  else if block_gas_limit self <? gas_limit (TxTypes.transaction transaction)
  then Err (TxGasLimitMoreThanAvailableBlockGas transaction (block_gas_limit self)
              (gas_limit (TxTypes.transaction transaction)))
  else if contains_conflicting_transaction self transaction
  then Err (TxTypeConflict transaction)
  else Ok transaction.

(** The [for] loop over the descendants of a replaced blob transaction. *)
Fixpoint shifts_overdraft (on_chain_balance cumulative : Z)
  (descendants : list (TransactionId * PoolInternalTransaction)) : bool :=
  match descendants with
  | [] => false
  | (_, tx) :: descendants =>
      let cumulative := add_u256 cumulative (vcost (it_transaction tx)) in
      if (vis_eip4844 (it_transaction tx) && (on_chain_balance <? cumulative))%bool then true
      else shifts_overdraft on_chain_balance cumulative descendants
  end.

Definition ensure_valid_blob_transaction self (new_blob_tx : ValidPoolTransaction)
  (on_chain_balance : Z) (ancestor : option TransactionId)
  : result ValidPoolTransaction InsertErr :=
  match ancestor with
  | Some ancestor =>
      match txs self !! ancestor with
      | None => Err (BlobTxHasNonceGap new_blob_tx)
      | Some ancestor_tx =>
          if has_nonce_gap (it_state ancestor_tx) then Err (BlobTxHasNonceGap new_blob_tx)
          else
            let cumulative := add_u256 (next_cumulative_cost ancestor_tx) (vcost new_blob_tx) in
            if on_chain_balance <? cumulative then Err (Overdraft new_blob_tx)
            else
              match descendant_txs_inclusive self (transaction_id new_blob_tx) with
              | (maybe_replacement, _) :: descendants =>
                  if (bool_decide (maybe_replacement = transaction_id new_blob_tx) &&
                      shifts_overdraft on_chain_balance cumulative descendants)%bool
                  then Err (Overdraft new_blob_tx) else Ok new_blob_tx
              | [] => Ok new_blob_tx
              end
      end
  | None =>
      if on_chain_balance <? vcost new_blob_tx then Err (Overdraft new_blob_tx)
      else Ok new_blob_tx
  end.

(** One round of the traversal of [insert_tx] over the sender's transactions
    from the on-chain nonce on. *)
Definition insert_one (on_chain_balance cumulative : Z) (has_parked_ancestor : bool) tx
  : PoolInternalTransaction :=
  let tx := state_insert tx NO_NONCE_GAPS in
  let tx := set_cost tx cumulative in
  let tx := state_set (negb (on_chain_balance <? next_cumulative_cost tx)) tx ENOUGH_BALANCE in
  let tx := state_set (negb has_parked_ancestor) tx NO_PARKED_ANCESTORS in
  set_subpool tx.

(** Returns the rewritten entries, the state of the inserted transaction if it
    was reached, and the updates. *)
Fixpoint insert_traverse (inserted_tx_id : TransactionId) (on_chain_balance : Z)
  (next_nonce cumulative : Z) (has_parked_ancestor : bool) (state : TxState)
  (entries : list (TransactionId * PoolInternalTransaction))
  : list (TransactionId * PoolInternalTransaction) * TxState * list PoolUpdate :=
  match entries with
  | [] => ([], state, [])
  | (id, tx) :: entries =>
      let current_pool := it_subpool tx in
      if negb (next_nonce =? nonce id) then ([], state, [])
      else
        let tx := insert_one on_chain_balance cumulative has_parked_ancestor tx in
        let cumulative := next_cumulative_cost tx in
        let has_parked_ancestor := negb (is_pending (it_state tx)) in
        let '(state, updates) :=
          if bool_decide (inserted_tx_id = id) then (it_state tx, [])
          else (state,
                if bool_decide (current_pool <> it_subpool tx)
                then [mkPoolUpdate id current_pool (ToPool (it_subpool tx))] else []) in
        let '(rest, state, rest_updates) :=
          insert_traverse inserted_tx_id on_chain_balance (Identifier.next_nonce id) cumulative
            has_parked_ancestor state entries in
        ((id, tx) :: rest, state, updates ++ rest_updates)
  end.

(** The state of a new transaction before the traversal. *)
Definition initial_state self (transaction : ValidPoolTransaction) (no_ancestor : bool) : TxState :=
  let state := insert 0 NOT_TOO_MUCH_GAS in
  let state :=
    if vis_eip4844 transaction then
      let state := insert state BLOB_TRANSACTION in
      if blob_fee (pending_fees self) <=? default 0 (vmax_fee_per_blob_gas transaction)
      then insert state ENOUGH_BLOB_FEE_CAP_BLOCK else state
    else insert state ENOUGH_BLOB_FEE_CAP_BLOCK in
  let state :=
    if no_ancestor then insert (insert state NO_NONCE_GAPS) NO_PARKED_ANCESTORS else state in
  if base_fee (pending_fees self) <=? vmax_fee_per_gas transaction
  then insert state ENOUGH_FEE_CAP_BLOCK else state.

(** [self.auths.entry(auth).or_default().insert(tx_hash)] for each authority. *)
Definition insert_auths (a : gmap SenderId (gset Z)) (tx : ValidPoolTransaction)
  : gmap SenderId (gset Z) :=
  match authority_ids tx with
  | None => a
  | Some ids => foldl (fun a auth => <[auth := {[vhash tx]} ∪ default ∅ (a !! auth)]> a) a ids
  end.

(** [None] is the panic of the assertion on the nonce.  On an error nothing
    has been changed. *)
Definition insert_tx self (transaction : ValidPoolTransaction) (on_chain_balance on_chain_nonce : Z)
  : option (result (AllTransactions * InsertOk) InsertErr) :=
  if negb (on_chain_nonce <=? vnonce transaction) then None
  else Some (
    transaction <-? ensure_valid self transaction on_chain_nonce;
    let inserted_tx_id := transaction_id transaction in
    let ancestor := Identifier.ancestor (vnonce transaction) on_chain_nonce (sender inserted_tx_id) in
    transaction <-? (if vis_eip4844 transaction
                     then ensure_valid_blob_transaction self transaction on_chain_balance ancestor
                     else Ok transaction);
    let state := initial_state self transaction (bool_decide (ancestor = None)) in
    let fee_cap := vmax_fee_per_gas transaction in
    if fee_cap <? a_minimal_protocol_basefee self
    then Err (FeeCapBelowMinimumProtocolFeeCap transaction fee_cap)
    else
      let pool_tx := mkInternal transaction (into_subpool state) state 0 in
      r <-? (match txs self !! inserted_tx_id with
             | None =>
                 Ok (<[vhash transaction := transaction]> (by_hash self), auths self, None)
             | Some existing =>
                 if is_underpriced (it_transaction existing) transaction (a_price_bumps self)
                 then Err (Underpriced transaction (vhash (it_transaction existing)))
                 else Ok (<[vhash transaction := transaction]>
                            (delete (vhash (it_transaction existing)) (by_hash self)),
                          remove_auths (auths self) existing,
                          Some (it_transaction existing, it_subpool existing))
             end);
      let '(hashes, a, replaced_tx) := r in
      let a := insert_auths a transaction in
      let m := <[inserted_tx_id := pool_tx]> (txs self) in
      let on_chain_id := mkTransactionId (vsender_id transaction) on_chain_nonce in
      let '(entries, state, updates) :=
        insert_traverse inserted_tx_id on_chain_balance on_chain_nonce 0 false state
          (sender_range on_chain_id m) in
      let counter := if bool_decide (replaced_tx = None)
                     then tx_inc (tx_counter self) (sender inserted_tx_id) else tx_counter self in
      Ok (with_maps self hashes (list_to_map entries ∪ m) counter a,
          mkInsertOk transaction (into_subpool state) state replaced_tx updates))%reth.

(** ** Invariants of a single transaction *)

(** The flags agree with the kind of the transaction: the blob flag is set for
    blob transactions only, and a transaction without blobs always satisfies the
    blob fee. *)
Definition coherent tx : Prop :=
  is_u8 (it_state tx) /\
  TxState.contains (it_state tx) BLOB_TRANSACTION = vis_eip4844 (it_transaction tx) /\
  (vis_eip4844 (it_transaction tx) = false ->
   TxState.contains (it_state tx) ENOUGH_BLOB_FEE_CAP_BLOCK = true).

(** The recorded sub-pool is the one of the flags. *)
Definition settled tx : Prop := coherent tx /\ it_subpool tx = into_subpool (it_state tx).

Lemma coherent_insert tx f :
  f ∈ flags -> f <> BLOB_TRANSACTION -> coherent tx -> coherent (state_insert tx f).
Proof.
  intros Hf Hne (Hu & Hb & He). unfold coherent, state_insert, set_state. simpl. split_and!.
  - by apply insert_u8.
  - rewrite contains_insert, bool_decide_eq_false_2; [done|done|done|done|flag_in].
  - intros Hn. rewrite contains_insert, (He Hn), orb_true_r; [done|done|done|flag_in].
Qed.

Lemma coherent_remove tx f :
  f ∈ flags -> f <> BLOB_TRANSACTION ->
  f <> ENOUGH_BLOB_FEE_CAP_BLOCK \/ vis_eip4844 (it_transaction tx) = true ->
  coherent tx -> coherent (state_remove tx f).
Proof.
  intros Hf Hne Hor (Hu & Hb & He). unfold coherent, state_remove, set_state. simpl. split_and!.
  - by apply remove_u8.
  - rewrite contains_remove, bool_decide_eq_false_2; [done|done|done|done|flag_in].
  - intros Hn. destruct Hor as [Hor|Hor]; [|congruence].
    rewrite contains_remove, (He Hn), bool_decide_eq_false_2; [done|done|done|done|flag_in].
Qed.

Lemma coherent_set b tx f :
  f ∈ flags -> f <> BLOB_TRANSACTION -> f <> ENOUGH_BLOB_FEE_CAP_BLOCK ->
  coherent tx -> coherent (state_set b tx f).
Proof. intros. destruct b; [by apply coherent_insert|apply coherent_remove; auto]. Qed.

Lemma coherent_cost tx c : coherent tx -> coherent (set_cost tx c).
Proof. done. Qed.

Lemma settle tx : coherent tx -> settled (set_subpool tx).
Proof. intros Hc. by split. Qed.

Lemma coherent_base_fee bf tx : coherent tx -> coherent (update_tx_base_fee bf tx).
Proof.
  intros Hc. unfold update_tx_base_fee.
  destruct (Z.compare _ _); (apply coherent_insert || apply coherent_remove); try done;
    try flag_in; by left.
Qed.

Ltac coherent_tac :=
  repeat first
    [ assumption
    | apply coherent_cost
    | apply coherent_base_fee
    | apply coherent_set; [flag_in|done|done|]
    | apply coherent_insert; [flag_in|done|] ].

(** ** Rewriting entries in place *)

(** One entry rewritten with the update it reports. *)
Definition entry_step (id : TransactionId) tx tx' (us : list PoolUpdate) : Prop :=
  it_transaction tx' = it_transaction tx /\ settled tx' /\
  ((us = [] /\ it_subpool tx' = it_subpool tx) \/
   us = [mkPoolUpdate id (it_subpool tx) (ToPool (it_subpool tx'))] \/
   (us = [mkPoolUpdate id (it_subpool tx) Discard] /\ tx' = tx)).

Lemma record_entry_step id tx tx' :
  it_transaction tx' = it_transaction tx -> it_subpool tx' = it_subpool tx ->
  transaction_id (it_transaction tx) = id -> coherent tx' ->
  entry_step id tx (record_subpool_update tx').1 (record_subpool_update tx').2.
Proof.
  intros Ht Hp Hid Hc. unfold entry_step, record_subpool_update. simpl. split_and!; [done| |].
  - by apply settle.
  - rewrite Ht, Hid, Hp. case_bool_decide as Hd; [right; by left|left].
    split; [done|]. destruct (decide (into_subpool (it_state tx') = it_subpool tx)); [done|].
    exfalso. naive_solver.
Qed.

Lemma keep_entry_step id tx : settled tx -> entry_step id tx tx [].
Proof. intros Hs. split_and!; [done|done|by left]. Qed.

Lemma state_set_transaction b tx f : it_transaction (state_set b tx f) = it_transaction tx.
Proof. by destruct b. Qed.
Lemma state_set_subpool b tx f : it_subpool (state_set b tx f) = it_subpool tx.
Proof. by destruct b. Qed.
Lemma base_fee_transaction bf tx : it_transaction (update_tx_base_fee bf tx) = it_transaction tx.
Proof. unfold update_tx_base_fee. by destruct (Z.compare _ _). Qed.
Lemma base_fee_subpool bf tx : it_subpool (update_tx_base_fee bf tx) = it_subpool tx.
Proof. unfold update_tx_base_fee. by destruct (Z.compare _ _). Qed.

(** A transaction whose gap flag was just set has no nonce gap. *)
Lemma no_gap_inserted b tx :
  coherent tx ->
  has_nonce_gap (it_state (state_set b (set_cost (state_insert (state_insert tx NO_NONCE_GAPS)
    NO_PARKED_ANCESTORS) 0) ENOUGH_BALANCE)) = false.
Proof.
  intros Hc. pose proof Hc as [Hu _].
  assert (Hc' : coherent (set_cost (state_insert (state_insert tx NO_NONCE_GAPS) NO_PARKED_ANCESTORS) 0))
    by coherent_tac.
  assert (Hin : TxState.contains (it_state (state_insert (state_insert tx NO_NONCE_GAPS) NO_PARKED_ANCESTORS))
                  NO_NONCE_GAPS = true).
  { simpl. rewrite !contains_insert; try flag_in; try done. by apply insert_u8; [|flag_in]. }
  destruct b; simpl in *; rewrite has_nonce_gap_flag.
  - rewrite contains_insert, Hin; [done|apply Hc'|flag_in|flag_in].
  - apply insert_u8; [apply Hc'|flag_in].
  - rewrite contains_remove, Hin; [done|apply Hc'|flag_in|flag_in].
  - apply remove_u8; [apply Hc'|flag_in].
Qed.

Lemma update_head_step changed bf id tx :
  transaction_id (it_transaction tx) = id -> settled tx ->
  let r := update_head changed bf id tx in entry_step id tx r.1.2 r.2.
Proof.
  intros Hid Hset. unfold update_head.
  assert (Hcont : forall b tx1, it_transaction tx1 = it_transaction tx ->
    it_subpool tx1 = it_subpool tx -> coherent tx1 ->
    (has_nonce_gap (it_state tx1) = true -> tx1 = tx) ->
    let r := (if has_nonce_gap (it_state tx1) then (SkipSender (sender id), tx1, [])
       else
        let tx2 := update_tx_base_fee bf (state_insert tx1 NO_PARKED_ANCESTORS) in
        let '(tx3, us) := record_subpool_update tx2 in
        (InChain (sender id) (saturating_add_u64 (vnonce (it_transaction tx3)) 1)
           (next_cumulative_cost tx3) (negb (is_pending (it_state tx3))) b, tx3, us)) in
    entry_step id tx r.1.2 r.2).
  { intros b tx1 E1 E2 Hc Hgap. destruct (has_nonce_gap (it_state tx1)) eqn:Eg.
    - simpl. rewrite Hgap by done. by apply keep_entry_step.
    - cbv zeta. set (tx2 := update_tx_base_fee _ _).
      pose proof (record_entry_step id tx tx2) as Hrec.
      destruct (record_subpool_update tx2) as [tx3 us]. simpl in *. apply Hrec; [| |done|].
      + subst tx2. by rewrite base_fee_transaction.
      + subst tx2. by rewrite base_fee_subpool.
      + subst tx2. coherent_tac. }
  pose proof Hset as [Hc _].
  destruct (changed !! sender id) as [info|]; [|by apply Hcont].
  destruct (nonce id <? state_nonce info).
  { simpl. split_and!; [done|done|]. right. right. by rewrite Hid. }
  destruct (Identifier.ancestor _ _ _) eqn:Ea; [by apply Hcont|]. apply Hcont.
  - by rewrite state_set_transaction.
  - by rewrite state_set_subpool.
  - coherent_tac.
  - by rewrite no_gap_inserted.
Qed.

Lemma update_chain_step bf s n c parked b id tx :
  transaction_id (it_transaction tx) = id -> settled tx ->
  let r := update_chain bf s n c parked b tx in entry_step id tx r.1.2 r.2.
Proof.
  intros Hid [Hc _]. unfold update_chain. cbv zeta.
  set (tx1 := match b with Some _ => _ | None => _ end).
  assert (H1 : it_transaction tx1 = it_transaction tx /\ it_subpool tx1 = it_subpool tx /\ coherent tx1).
  { subst tx1. destruct b; rewrite ?state_set_transaction, ?state_set_subpool;
      (split_and!; [done|done|coherent_tac]). }
  destruct H1 as (E1 & E2 & Hc1). set (tx2 := update_tx_base_fee _ _).
  pose proof (record_entry_step id tx tx2) as Hrec.
  destruct (record_subpool_update tx2) as [tx3 us]. simpl in *. apply Hrec; [| |done|].
  - subst tx2. by rewrite base_fee_transaction, state_set_transaction.
  - subst tx2. by rewrite base_fee_subpool, state_set_subpool.
  - subst tx2. coherent_tac.
Qed.

Lemma update_step_entry changed bf mode id tx :
  transaction_id (it_transaction tx) = id -> settled tx ->
  let r := update_step changed bf mode id tx in entry_step id tx r.1.2 r.2.
Proof.
  intros Hid Hs. unfold update_step. destruct mode as [|s|s n c parked b].
  - by apply update_head_step.
  - destruct (_ =? _); [by apply keep_entry_step|by apply update_head_step].
  - destruct (negb _); [by apply update_head_step|].
    destruct (_ =? _); [by apply update_chain_step|by apply keep_entry_step].
Qed.

Lemma park_one_step id tx : settled tx -> entry_step id tx (park_one id tx).1 (park_one id tx).2.
Proof.
  intros [Hc Hp]. unfold park_one, entry_step. simpl. split_and!; [done| |].
  - apply settle. apply coherent_remove; [flag_in|done|by left|done].
  - case_bool_decide as Hd; [right; by left|left]. split; [done|].
    destruct (decide (into_subpool (remove (it_state tx) NO_NONCE_GAPS) = it_subpool tx)); [done|].
    exfalso. naive_solver.
Qed.

(** A list of entries rewritten one by one, possibly ending early.  The
    transaction [ins] that is being inserted reports no update. *)
Inductive rewrites (ins : option TransactionId) :
  list (TransactionId * PoolInternalTransaction) ->
  list (TransactionId * PoolInternalTransaction) -> list PoolUpdate -> Prop :=
| rewrites_stop l : rewrites ins l [] []
| rewrites_cons id tx tx' us l l' rest :
    ins <> Some id -> entry_step id tx tx' us -> rewrites ins l l' rest ->
    rewrites ins ((id, tx) :: l) ((id, tx') :: l') (us ++ rest)
| rewrites_ins id tx tx' l l' rest :
    ins = Some id -> it_transaction tx' = it_transaction tx -> settled tx' -> rewrites ins l l' rest ->
    rewrites ins ((id, tx) :: l) ((id, tx') :: l') rest.

Definition entry_ok (e : TransactionId * PoolInternalTransaction) : Prop :=
  transaction_id (it_transaction e.2) = e.1 /\ settled e.2.

Lemma update_loop_rewrites changed bf mode l :
  Forall entry_ok l ->
  rewrites None l (update_loop changed bf mode l).1 (update_loop changed bf mode l).2.
Proof.
  intros Hall. revert mode. induction Hall as [|[id tx] l [Hid Hs] Hall IH]; intros mode; simpl;
    [constructor|]. simpl in *.
  pose proof (update_step_entry changed bf mode id tx Hid Hs) as Hstep.
  destruct (update_step changed bf mode id tx) as [[mode' tx'] us]. simpl in Hstep.
  specialize (IH mode'). destruct (update_loop changed bf mode' l) as [l' rest]. simpl in *.
  by constructor.
Qed.

Lemma update_loop_keys changed bf mode l : (update_loop changed bf mode l).1.*1 = l.*1.
Proof.
  revert mode. induction l as [|[id tx] l IH]; intros mode; simpl; [done|].
  destruct (update_step changed bf mode id tx) as [[mode' tx'] us].
  specialize (IH mode'). destruct (update_loop changed bf mode' l) as [l' rest].
  simpl in *. by f_equal.
Qed.

Lemma park_rewrites l :
  Forall entry_ok l ->
  let parked := (fun e => (e.1, park_one e.1 e.2)) <$> l in
  rewrites None l ((fun e => (e.1, e.2.1)) <$> parked) (concat ((fun e => e.2.2) <$> parked)).
Proof.
  induction 1 as [|[id tx] l [Hid Hs] Hall IH]; [constructor|].
  csimpl. constructor; [done|by apply park_one_step|done].
Qed.

Lemma insert_one_settled bal c parked tx : coherent tx -> settled (insert_one bal c parked tx).
Proof. intros Hc. unfold insert_one. apply settle. coherent_tac. Qed.

Lemma insert_one_transaction bal c parked tx :
  it_transaction (insert_one bal c parked tx) = it_transaction tx.
Proof. unfold insert_one. simpl. by rewrite !state_set_transaction. Qed.

Lemma insert_traverse_rewrites ins bal n c parked state l :
  Forall entry_ok l ->
  let r := insert_traverse ins bal n c parked state l in rewrites (Some ins) l r.1.1 r.2.
Proof.
  intros Hall. revert n c parked state.
  induction Hall as [|[id tx] l [Hid [Hc Hp]] Hall IH]; intros n c parked state; cbn [insert_traverse];
    [constructor|]. simpl in Hid, Hc, Hp.
  destruct (negb (n =? nonce id)); [constructor|].
  set (tx' := insert_one bal c parked tx).
  pose proof (insert_one_settled bal c parked tx Hc) as Hset.
  pose proof (insert_one_transaction bal c parked tx) as Htx. fold tx' in Hset, Htx.
  destruct (bool_decide (ins = id)) eqn:Eins; bools.
  - specialize (IH (Identifier.next_nonce id) (next_cumulative_cost tx')
      (negb (is_pending (it_state tx'))) (it_state tx')).
    destruct (insert_traverse _ _ _ _ _ _ l) as [[l' st] rest]. simpl in IH |- *.
    apply rewrites_ins; [congruence|done|done|done].
  - specialize (IH (Identifier.next_nonce id) (next_cumulative_cost tx')
      (negb (is_pending (it_state tx'))) state).
    destruct (insert_traverse _ _ _ _ _ _ l) as [[l' st] rest]. simpl in IH |- *.
    apply rewrites_cons; [congruence| |done]. split_and!; [done|done|].
    case_bool_decide as Hd; [right; by left|left]. split; [done|].
    destruct (decide (it_subpool tx' = it_subpool tx)); [done|]. exfalso. naive_solver.
Qed.

(** ** Where the transactions are, and updates still to be carried out *)

Abbreviation Locs := (gmap TransactionId (ValidPoolTransaction * SubPool)) (only parsing).

Definition loc_of tx : ValidPoolTransaction * SubPool := (it_transaction tx, it_subpool tx).
Definition locs (m : gmap TransactionId PoolInternalTransaction) : Locs := loc_of <$> m.
Definition pool_txs (m : gmap TransactionId PoolInternalTransaction)
  : gmap TransactionId ValidPoolTransaction := it_transaction <$> m.

(** [m] is ahead of the sub-pools [loc] by the updates [us]. *)
Record synced (m : gmap TransactionId PoolInternalTransaction) (loc : Locs) (us : list PoolUpdate)
  : Prop := {
  sy_NoDup : NoDup (update_id <$> us);
  sy_other i : i ∉ update_id <$> us -> locs m !! i = loc !! i;
  sy_update u : u ∈ us -> exists t, m !! update_id u = Some t /\
    loc !! update_id u = Some (it_transaction t, update_current u) /\
    match update_destination u with
    | ToPool p => it_subpool t = p
    | Discard => it_subpool t = update_current u
    end;
}.

Lemma synced_nil m : synced m (locs m) [].
Proof. split; [constructor|done|set_solver]. Qed.

Lemma synced_done m loc : synced m loc [] -> loc = locs m.
Proof. intros [_ Ho _]. apply map_eq. intros i. symmetry. apply Ho. set_solver. Qed.

Lemma locs_lookup m i v p :
  locs m !! i = Some (v, p) <-> exists t, m !! i = Some t /\ v = it_transaction t /\ p = it_subpool t.
Proof. unfold locs, loc_of. rewrite lookup_fmap, fmap_Some. naive_solver. Qed.

Lemma synced_step m loc rest id tx tx' us :
  synced m loc rest -> id ∉ update_id <$> rest -> m !! id = Some tx -> entry_step id tx tx' us ->
  synced (<[id := tx']> m) loc (us ++ rest).
Proof.
  intros [Hnd Ho Hu] Hid Hm (Ht & _ & Hcase).
  assert (Hloc : loc !! id = Some (loc_of tx)).
  { rewrite <- Ho by done. unfold locs. by rewrite lookup_fmap, Hm. }
  assert (Hkeep : it_subpool tx' = it_subpool tx -> loc_of tx' = loc_of tx)
    by (intros E; unfold loc_of; congruence).
  assert (Hold : forall u, u ∈ rest -> exists t, <[id := tx']> m !! update_id u = Some t /\
    loc !! update_id u = Some (it_transaction t, update_current u) /\
    match update_destination u with
    | ToPool p => it_subpool t = p | Discard => it_subpool t = update_current u end).
  { intros u Hin. destruct (Hu u Hin) as (t & Ht' & ?). exists t. split; [|done].
    rewrite lookup_insert_ne; [done|]. intros ->. apply Hid. by apply list_elem_of_fmap_2. }
  assert (Hnew : forall i, i <> id -> locs (<[id := tx']> m) !! i = locs m !! i).
  { intros i Hne. unfold locs. by rewrite !lookup_fmap, lookup_insert_ne. }
  assert (Hat : locs (<[id := tx']> m) !! id = Some (loc_of tx')).
  { unfold locs. by rewrite lookup_fmap, lookup_insert_eq. }
  destruct Hcase as [[-> Hp]|[->|[-> ->]]]; simpl.
  - split; [done| |done]. intros i Hi. destruct (decide (i = id)) as [->|Hne].
    + by rewrite Hat, Hloc, Hkeep.
    + rewrite Hnew by done. auto.
  - split.
    + rewrite fmap_cons. by constructor.
    + intros i. rewrite fmap_cons, not_elem_of_cons. simpl. intros [Hne Hi]. rewrite Hnew by done. auto.
    + intros u [->|Hin]%elem_of_cons; [|auto]. simpl. exists tx'. rewrite lookup_insert_eq.
      split_and!; [done| |done]. rewrite Hloc. unfold loc_of. by rewrite Ht.
  - split.
    + rewrite fmap_cons. by constructor.
    + intros i. rewrite fmap_cons, not_elem_of_cons. simpl. intros [Hne Hi]. rewrite Hnew by done. auto.
    + intros u [->|Hin]%elem_of_cons; [|auto]. simpl. exists tx. by rewrite lookup_insert_eq.
Qed.

Lemma synced_insert m loc us id tx :
  synced m loc us -> id ∉ update_id <$> us ->
  synced (<[id := tx]> m) (<[id := loc_of tx]> loc) us.
Proof.
  intros [Hnd Ho Hu] Hid. split; [done| |].
  - intros i Hi. unfold locs. rewrite fmap_insert. destruct (decide (i = id)) as [->|Hne].
    + by rewrite !lookup_insert_eq.
    + rewrite !lookup_insert_ne by done. by apply Ho.
  - intros u Hin. destruct (Hu u Hin) as (t & Ht & Hl & Hd). exists t.
    assert (id <> update_id u) by (intros ->; apply Hid; by apply list_elem_of_fmap_2).
    by rewrite !lookup_insert_ne.
Qed.

(** The sub-pools as seen from [m], with the inserted transaction where [m']
    has it. *)
Definition locs_from (ins : option TransactionId) (m m' : gmap TransactionId PoolInternalTransaction)
  : Locs :=
  match ins with
  | Some i => match m' !! i with Some t => <[i := loc_of t]> (locs m) | None => locs m end
  | None => locs m
  end.

Lemma rewrites_ids ins l l' us : rewrites ins l l' us -> update_id <$> us ⊆ l.*1.
Proof.
  induction 1 as [l|id tx tx' us l l' rest Hne (_ & _ & Hs) Hr IH|id tx tx' l l' rest ? ? ? Hr IH].
  - set_solver.
  - rewrite fmap_app, fmap_cons. destruct Hs as [[-> _]|[->|[-> _]]]; csimpl; set_solver.
  - rewrite fmap_cons. set_solver.
Qed.

Lemma rewrites_keys ins l l' us : rewrites ins l l' us -> l'.*1 `prefix_of` l.*1.
Proof. induction 1; csimpl; [apply prefix_nil| |]; by apply prefix_cons. Qed.

Lemma rewrites_synced ins m l l' us :
  rewrites ins l l' us -> NoDup l.*1 -> (forall e, e ∈ l -> m !! e.1 = Some e.2) ->
  let m' := list_to_map l' ∪ m in
  synced m' (locs_from ins m m') us /\ pool_txs m' = pool_txs m /\
  (forall i t, m' !! i = Some t -> settled t \/ m !! i = Some t).
Proof.
  induction 1 as [l|id tx tx' us l l' rest Hne Hs Hr IH|id tx tx' l l' rest Hins Htx Hset Hr IH];
    intros Hnd Hin m'.
  { assert (Hm' : m' = m) by (subst m'; apply (left_id ∅ (∪))). rewrite Hm'.
    split_and!; [|done|intros i t Ht; by right].
    destruct ins as [i|]; simpl; [|apply synced_nil].
    destruct (m !! i) as [t|] eqn:Ei; [|apply synced_nil].
    rewrite insert_id; [apply synced_nil|]. unfold locs. by rewrite lookup_fmap, Ei. }
  all: rewrite fmap_cons, NoDup_cons in Hnd; destruct Hnd as [Hid Hnd].
  all: destruct IH as (Hsy & Hpt & Hst); [done|set_solver|].
  all: set (M := list_to_map l' ∪ m) in *.
  all: assert (HM : m' = <[id := tx']> M) by (subst m' M; simpl; by rewrite insert_union_l).
  all: assert (Hlook : M !! id = Some tx).
  1,3: subst M; rewrite lookup_union_r; [exact (Hin (id, tx) ltac:(set_solver))|];
       apply not_elem_of_list_to_map_1; intros Hk; apply Hid;
       destruct (rewrites_keys _ _ _ _ Hr) as [k Hk']; rewrite Hk'; set_solver.
  all: assert (Hnid : id ∉ update_id <$> rest) by (intros Hk; by apply Hid, (rewrites_ids _ _ _ _ Hr)).
  all: rewrite HM.
  - assert (Hlf : locs_from ins m (<[id := tx']> M) = locs_from ins m M).
    { destruct ins as [i|]; simpl; [|done]. rewrite lookup_insert_ne; [done|]. congruence. }
    rewrite Hlf. split_and!; [by eapply synced_step| |].
    + rewrite <- Hpt. unfold pool_txs. rewrite fmap_insert, insert_id; [done|].
      rewrite lookup_fmap, Hlook. simpl. by rewrite (proj1 Hs).
    + intros i t [[<- <-]|[_ Hi]]%lookup_insert_Some; [left; apply Hs|auto].
  - subst ins. simpl in *. rewrite Hlook in Hsy. rewrite lookup_insert_eq. split_and!.
    + rewrite <- (insert_insert_eq (locs m) id (loc_of tx') (loc_of tx)). by apply synced_insert.
    + rewrite <- Hpt. unfold pool_txs. rewrite fmap_insert, insert_id; [done|].
      by rewrite lookup_fmap, Hlook, Htx.
    + intros i t [[<- <-]|[_ Hi]]%lookup_insert_Some; [auto|auto].
Qed.

(** ** The invariant of the set *)

(** What validation guarantees of a transaction: its identifier carries its
    nonce, and numbers are within their width. *)
Definition tx_ok (v : ValidPoolTransaction) : Prop :=
  vnonce v = nonce (transaction_id v) /\ is_u64 (nonce (transaction_id v)) /\
  is_u128 (vmax_fee_per_gas v) /\ is_u128 (default 0 (vmax_fee_per_blob_gas v)).

Definition counter_ok (c : gmap SenderId Z) (m : gmap TransactionId ValidPoolTransaction) : Prop :=
  forall s, c !! s =
    if decide (sender_count s m = 0%nat) then None else Some (Z.of_nat (sender_count s m)).

(** Look-ups by hash and by identifier agree, the counters count, and blob
    and other transactions of the same sender exclude each other. *)
Record all_ok self : Prop := {
  ao_tx i v : pool_txs (txs self) !! i = Some v -> transaction_id v = i /\ tx_ok v;
  ao_hash k v : by_hash self !! k = Some v <->
    vhash v = k /\ pool_txs (txs self) !! transaction_id v = Some v;
  ao_counter : counter_ok (tx_counter self) (pool_txs (txs self));
  ao_exclusive i j v w : pool_txs (txs self) !! i = Some v -> pool_txs (txs self) !! j = Some w ->
    sender i = sender j -> vis_eip4844 v = vis_eip4844 w;
  ao_settled i t : txs self !! i = Some t -> settled t;
  ao_bound : Z.of_nat (size (txs self)) < u64_modulus;
}.

Lemma pool_txs_lookup m i t : m !! i = Some t -> pool_txs m !! i = Some (it_transaction t).
Proof. intros Ht. unfold pool_txs. by rewrite lookup_fmap, Ht. Qed.

Lemma pool_txs_size m : size (pool_txs m) = size m.
Proof. apply map_size_fmap. Qed.

Lemma all_ok_new config : all_ok (all_new config).
Proof.
  assert (He : pool_txs (txs (all_new config)) = ∅) by apply fmap_empty.
  split; rewrite ?He.
  - intros i v. by rewrite lookup_empty.
  - intros k v. simpl. rewrite !lookup_empty. naive_solver.
  - intros s. simpl. rewrite lookup_empty. case_decide as Hd; [done|].
    exfalso. apply Hd, sender_count_zero. intros. apply lookup_empty.
  - intros i j v w. by rewrite lookup_empty.
  - intros i t. simpl. by rewrite lookup_empty.
  - done.
Qed.

(** Rewriting states keeps the invariant. *)
Lemma all_ok_rewrite self m' :
  all_ok self -> pool_txs m' = pool_txs (txs self) -> (forall i t, m' !! i = Some t -> settled t) ->
  all_ok (with_txs self m').
Proof.
  intros [A1 A2 A3 A4 A5 A6] Hpt Hset. split; simpl; rewrite ?Hpt; try done.
  by rewrite <- pool_txs_size, Hpt, pool_txs_size.
Qed.

Lemma entry_ok_of self i t : all_ok self -> txs self !! i = Some t -> entry_ok (i, t).
Proof.
  intros Hok Ht. split; simpl; [|by apply (ao_settled self Hok i)].
  by apply (ao_tx self Hok i), pool_txs_lookup.
Qed.

(** *** Rechecking changed accounts *)

Lemma update_ok self changed :
  all_ok self ->
  let r := update self changed in
  all_ok r.1 /\ pool_txs (txs r.1) = pool_txs (txs self) /\
  synced (txs r.1) (locs (txs self)) r.2 /\ pending_fees r.1 = pending_fees self.
Proof.
  intros Hok. unfold update. set (bf := base_fee (pending_fees self)).
  assert (Hall : Forall entry_ok (bt_entries (txs self))).
  { apply Forall_forall. intros [i t] Hi%elem_of_bt_entries. by apply (entry_ok_of self). }
  pose proof (update_loop_rewrites changed bf AtHead _ Hall) as Hr.
  pose proof (update_loop_keys changed bf AtHead (bt_entries (txs self))) as Hk.
  destruct (update_loop changed bf AtHead (bt_entries (txs self))) as [l us]. simpl in *.
  destruct (rewrites_synced None (txs self) _ l us Hr) as (Hsy & Hpt & Hset).
  - apply NoDup_bt_keys.
  - intros [i t] Hi. by apply elem_of_bt_entries.
  - assert (Hm : list_to_map l ∪ txs self = list_to_map l).
    { apply map_eq. intros i. destruct (list_to_map l !! i) as [t|] eqn:E.
      - by apply lookup_union_Some_l.
      - rewrite lookup_union_r by done. apply not_elem_of_list_to_map_2 in E.
        rewrite Hk in E. destruct (txs self !! i) as [t|] eqn:Et; [|done].
        exfalso. apply E, elem_of_bt_keys. eauto. }
    rewrite Hm in *. simpl in Hsy. split_and!; [|done|done|done].
    apply all_ok_rewrite; [done|done|]. intros i t Ht.
    destruct (Hset i t Ht) as [?|?]; [done|by apply (ao_settled self Hok i)].
Qed.

(** *** Parking descendants *)

Lemma park_ok self id :
  all_ok self ->
  let r := park_descendant_transactions self id in
  all_ok r.1 /\ pool_txs (txs r.1) = pool_txs (txs self) /\
  synced (txs r.1) (locs (txs self)) r.2 /\ pending_fees r.1 = pending_fees self.
Proof.
  intros Hok. unfold park_descendant_transactions, descendant_txs_inclusive. simpl.
  assert (Hall : Forall entry_ok (sender_range id (txs self))).
  { apply Forall_forall. intros [i t] (Hi & _)%elem_of_sender_range. by apply (entry_ok_of self). }
  pose proof (park_rewrites _ Hall) as Hr. simpl in Hr.
  destruct (rewrites_synced None (txs self) _ _ _ Hr) as (Hsy & Hpt & Hset).
  - apply sender_range_keys_NoDup.
  - intros [i t] (Hi & _)%elem_of_sender_range. done.
  - split_and!; [|done|done|done]. apply all_ok_rewrite; [done|done|]. intros i t Ht.
    destruct (Hset i t Ht) as [?|?]; [done|by apply (ao_settled self Hok i)].
Qed.

(** *** Removing *)

Lemma tx_decr_ok c m i v :
  counter_ok c m -> m !! i = Some v -> Z.of_nat (size m) < u64_modulus ->
  counter_ok (tx_decr c (sender i)) (delete i m).
Proof.
  intros Hc Hi Hb s. pose proof (sender_count_delete s m i v Hi) as Hd.
  unfold tx_decr. rewrite (Hc (sender i)).
  pose proof (sender_count_delete (sender i) m i v Hi) as Hd'.
  rewrite bool_decide_eq_true_2 in Hd' by done. rewrite decide_False by lia.
  pose proof (sender_count_le (sender i) m).
  destruct (decide (sender i = s)) as [<-|Hne].
  - destruct (_ =? 1) eqn:E1; bools.
    + rewrite lookup_delete_eq, decide_True; [done|lia].
    + rewrite lookup_insert_eq, decide_False by lia. f_equal.
      rewrite wrap_u64_small; unfold is_u64; lia.
  - rewrite bool_decide_eq_false_2 in Hd by done. rewrite <- Hd.
    destruct (_ =? 1); rewrite ?lookup_delete_ne, ?lookup_insert_ne by done; apply Hc.
Qed.

Definition removed self (i : TransactionId) (t : PoolInternalTransaction) : AllTransactions :=
  with_maps self (delete (vhash (it_transaction t)) (by_hash self)) (delete i (txs self))
    (tx_decr (tx_counter self) (sender i)) (remove_auths (auths self) t).

Lemma removed_ok self i t : all_ok self -> txs self !! i = Some t -> all_ok (removed self i t).
Proof.
  intros Hok Ht. pose proof (pool_txs_lookup _ _ _ Ht) as Hv. set (v := it_transaction t) in *.
  destruct (ao_tx self Hok i v Hv) as [Hid _].
  assert (Hdel : pool_txs (delete i (txs self)) = delete i (pool_txs (txs self)))
    by (unfold pool_txs; by rewrite fmap_delete).
  destruct Hok as [A1 A2 A3 A4 A5 A6]. split; simpl; rewrite ?Hdel.
  - intros j w [_ Hj]%lookup_delete_Some. eauto.
  - intros k w. rewrite !lookup_delete_Some, A2. split.
    + intros (Hne & Hk & Hw). split_and!; [done| |done]. intros Heq. apply Hne.
      rewrite <- Heq, Hv in Hw. by simplify_eq.
    + intros (Hk & Hne & Hw). split_and!; [|done|done]. intros Heq. apply Hne.
      assert (by_hash self !! k = Some v) as H1 by (apply A2; split; [done|by rewrite Hid]).
      assert (by_hash self !! k = Some w) as H2 by (by apply A2). congruence.
  - eapply tx_decr_ok; [done|done|]. by rewrite pool_txs_size.
  - intros j k w w' [_ Hj]%lookup_delete_Some [_ Hk]%lookup_delete_Some. eauto.
  - intros j t' [_ Hj]%lookup_delete_Some. eauto.
  - pose proof (map_subseteq_size _ _ (delete_subseteq (txs self) i)). lia.
Qed.

Lemma remove_transaction_spec self i :
  all_ok self ->
  remove_transaction self i =
  match txs self !! i with Some t => (removed self i t, Some (loc_of t)) | None => (self, None) end.
Proof.
  intros Hok. unfold remove_transaction. destruct (txs self !! i) as [t|] eqn:Ht; [|done].
  pose proof (pool_txs_lookup _ _ _ Ht) as Hv. destruct (ao_tx self Hok _ _ Hv) as [Hid _].
  assert (by_hash self !! vhash (it_transaction t) = Some (it_transaction t)) as ->.
  { apply (ao_hash self Hok). by rewrite Hid. }
  unfold removed, vsender_id, loc_of. by rewrite Hid.
Qed.

Lemma remove_transaction_by_id_spec self i :
  all_ok self ->
  remove_transaction_by_id self i =
  match txs self !! i with Some t => (removed self i t, Some (loc_of t)) | None => (self, None) end.
Proof.
  intros Hok. unfold remove_transaction_by_id. destruct (txs self !! i) as [t|] eqn:Ht; [|done].
  pose proof (pool_txs_lookup _ _ _ Ht) as Hv. destruct (ao_tx self Hok _ _ Hv) as [Hid _].
  assert (by_hash self !! vhash (it_transaction t) = Some (it_transaction t)) as ->.
  { apply (ao_hash self Hok). by rewrite Hid. }
  unfold removed, vsender_id, loc_of. by rewrite Hid.
Qed.

Lemma remove_transaction_by_hash_spec self h :
  all_ok self ->
  match by_hash self !! h with
  | None => remove_transaction_by_hash self h = (self, None)
  | Some v => exists t, txs self !! transaction_id v = Some t /\ it_transaction t = v /\ vhash v = h /\
      remove_transaction_by_hash self h = (removed self (transaction_id v) t, Some (loc_of t))
  end.
Proof.
  intros Hok. unfold remove_transaction_by_hash. destruct (by_hash self !! h) as [v|] eqn:Hh; [|done].
  apply (ao_hash self Hok) in Hh as [Hk Hv]. unfold pool_txs in Hv. rewrite lookup_fmap in Hv.
  apply fmap_Some in Hv as (t & Ht & Hvt). rewrite Ht. exists t.
  split_and!; [done|done|done|]. unfold removed, loc_of, vsender_id. by rewrite <- Hvt, Hk.
Qed.

(** *** Inserting *)

Lemma ensure_valid_Ok self v n v' :
  ensure_valid self v n = Ok v' -> v' = v /\ contains_conflicting_transaction self v = false.
Proof. unfold ensure_valid. repeat case_match; naive_solver. Qed.

Lemma ensure_valid_blob_Ok self v bal anc v' :
  ensure_valid_blob_transaction self v bal anc = Ok v' -> v' = v.
Proof. unfold ensure_valid_blob_transaction. repeat case_match; naive_solver. Qed.

Lemma no_conflict self v j w :
  all_ok self -> contains_conflicting_transaction self v = false ->
  pool_txs (txs self) !! j = Some w -> sender j = vsender_id v -> vis_eip4844 w = vis_eip4844 v.
Proof.
  intros Hok Hc Hj Hs. unfold contains_conflicting_transaction, txs_iter in Hc.
  unfold pool_txs in Hj. rewrite lookup_fmap in Hj. apply fmap_Some in Hj as (t & Ht & ->).
  assert (Hin : (j, t) ∈ sender_range (start_bound (vsender_id v)) (txs self)).
  { apply elem_of_sender_range. split_and!; [done|done|]. simpl.
    apply pool_txs_lookup in Ht. apply (ao_tx self Hok) in Ht as [<- (_ & [? _] & _)]. done. }
  destruct (sender_range _ _) as [|[i e] l] eqn:El; [set_solver|].
  assert (Hi : (i, e) ∈ sender_range (start_bound (vsender_id v)) (txs self)) by (rewrite El; set_solver).
  apply elem_of_sender_range in Hi as (Hi & Hsi & _). simpl in Hsi.
  unfold tx_type_conflicts_with in Hc. apply negb_false_iff, eqb_prop in Hc. rewrite Hc.
  apply (ao_exclusive self Hok j i); [by apply pool_txs_lookup|by apply pool_txs_lookup|congruence].
Qed.

Lemma initial_state_coherent self v b c :
  coherent (mkInternal v (into_subpool (initial_state self v b)) (initial_state self v b) c).
Proof.
  unfold coherent, initial_state, is_u8. simpl.
  destruct (vis_eip4844 v), b, (_ <=? vmax_fee_per_gas v); try destruct (_ <=? _); by vm_compute.
Qed.

Lemma insert_traverse_keys ins bal n c parked st l k :
  k ∈ (insert_traverse ins bal n c parked st l).1.1.*1 -> k ∈ l.*1.
Proof.
  revert n c parked st. induction l as [|[id tx] l IH]; intros n c parked st; cbn [insert_traverse];
    [done|].
  destruct (negb _); [set_solver|]. set (tx' := insert_one bal c parked tx).
  destruct (bool_decide (ins = id));
    (match goal with |- context [insert_traverse ?a ?b ?c ?d ?e ?f l] =>
       specialize (IH c d e f); destruct (insert_traverse a b c d e f l) as [[l' st'] rest] end;
     simpl in *; rewrite !elem_of_cons; naive_solver).
Qed.

Lemma insert_traverse_state ins bal n c parked st l :
  NoDup l.*1 ->
  let r := insert_traverse ins bal n c parked st l in
  r.1.2 = match (list_to_map r.1.1 : gmap TransactionId PoolInternalTransaction) !! ins with
          | Some t => it_state t | None => st end.
Proof.
  revert n c parked st. induction l as [|[id tx] l IH]; intros n c parked st Hnd; cbn [insert_traverse];
    [done|].
  rewrite fmap_cons, NoDup_cons in Hnd. destruct Hnd as [Hid Hnd].
  destruct (negb _); [done|]. set (tx' := insert_one bal c parked tx).
  set (st1 := if bool_decide (ins = id) then it_state tx' else st).
  set (us1 := if bool_decide (ins = id) then [] else if bool_decide (it_subpool tx <> it_subpool tx')
    then [mkPoolUpdate id (it_subpool tx) (ToPool (it_subpool tx'))] else []).
  replace (if bool_decide (ins = id) then (it_state tx', []) else _) with (st1, us1)
    by (subst st1 us1; by destruct (bool_decide (ins = id))).
  specialize (IH (Identifier.next_nonce id) (next_cumulative_cost tx') (negb (is_pending (it_state tx'))) st1 Hnd).
  pose proof (fun k => insert_traverse_keys ins bal (Identifier.next_nonce id) (next_cumulative_cost tx')
    (negb (is_pending (it_state tx'))) st1 l k) as Hkeys.
  destruct (insert_traverse _ _ _ _ _ _ l) as [[l' st'] rest]. simpl in *. rewrite IH.
  subst st1. destruct (decide (ins = id)) as [->|Hne].
  - rewrite bool_decide_eq_true_2, lookup_insert_eq by done.
    rewrite not_elem_of_list_to_map_1; [done|]. intros Hk. by apply Hid, Hkeys.
  - by rewrite bool_decide_eq_false_2, lookup_insert_ne by done.
Qed.

Lemma tx_inc_ok c m i v :
  counter_ok c m -> m !! i = None -> Z.of_nat (size m) + 1 < u64_modulus ->
  counter_ok (tx_inc c (sender i)) (<[i := v]> m).
Proof.
  intros Hc Hi Hb s. rewrite sender_count_insert by done. unfold tx_inc. rewrite (Hc (sender i)).
  pose proof (sender_count_le (sender i) m).
  destruct (decide (sender i = s)) as [<-|Hne].
  - rewrite lookup_insert_eq, bool_decide_eq_true_2 by done.
    destruct (decide (S _ = 0%nat)); [lia|]. f_equal. unfold wrapping_add_u64. case_decide as E; simpl;
      (rewrite wrap_u64_small; [|unfold is_u64; lia]); lia.
  - rewrite lookup_insert_ne, bool_decide_eq_false_2 by done. apply Hc.
Qed.

Lemma map_size_insert_le {A} (m : gmap TransactionId A) i x : (size (<[i := x]> m) <= S (size m))%nat.
Proof. rewrite map_size_insert. destruct (m !! i); simpl; lia. Qed.

(** The maps after a replacement or a new entry. *)
Lemma hashes_insert self v :
  all_ok self -> by_hash self !! vhash v = None ->
  let h := match txs self !! transaction_id v with
           | Some e => delete (vhash (it_transaction e)) (by_hash self)
           | None => by_hash self end in
  forall k w, <[vhash v := v]> h !! k = Some w <->
    vhash w = k /\ <[transaction_id v := v]> (pool_txs (txs self)) !! transaction_id w = Some w.
Proof.
  intros Hok Hnew h k w.
  assert (Hh : forall k w, h !! k = Some w <->
    vhash w = k /\ pool_txs (txs self) !! transaction_id w = Some w /\ transaction_id w <> transaction_id v).
  { clear k w. intros k w. subst h. destruct (txs self !! transaction_id v) as [e|] eqn:He.
    - pose proof (removed_ok self _ e Hok He) as Hrem. pose proof (ao_hash _ Hrem k w) as Hx. simpl in Hx.
      rewrite Hx. unfold pool_txs. rewrite fmap_delete, lookup_delete_Some. naive_solver.
    - rewrite (ao_hash self Hok). split; [|tauto]. intros [Hk Hw]. split_and!; [done|done|].
      intros Heq. rewrite Heq in Hw. unfold pool_txs in Hw. by rewrite lookup_fmap, He in Hw. }
  rewrite !lookup_insert_Some, Hh. split.
  - intros [[<- <-]|(Hne & Hk & Hw & Hid)]; [split; [done|by left]|]. split; [done|by right].
  - intros [Hk [[Hid <-]|[Hid Hw]]]; [by left|]. right. split_and!; [|done|done|done].
    intros Heq. rewrite <- Hk in Heq.
    assert (by_hash self !! vhash w = Some w) as Hx by (by apply (ao_hash self Hok)). congruence.
Qed.

Lemma insert_tx_inv self v bal ocn a r :
  insert_tx self v bal ocn = Some (Ok (a, r)) ->
  let id := transaction_id v in
  let ancestor := Identifier.ancestor (vnonce v) ocn (sender id) in
  let st := initial_state self v (bool_decide (ancestor = None)) in
  let m := <[id := mkInternal v (into_subpool st) st 0]> (txs self) in
  let tr := insert_traverse id bal ocn 0 false st (sender_range (mkTransactionId (vsender_id v) ocn) m) in
  ocn <= vnonce v /\ ensure_valid self v ocn = Ok v /\ a_minimal_protocol_basefee self <= vmax_fee_per_gas v /\
  (forall e, txs self !! id = Some e -> is_underpriced (it_transaction e) v (a_price_bumps self) = false) /\
  txs a = list_to_map tr.1.1 ∪ m /\
  by_hash a = <[vhash v := v]> (match txs self !! id with
    | Some e => delete (vhash (it_transaction e)) (by_hash self) | None => by_hash self end) /\
  tx_counter a = (match txs self !! id with
    | Some _ => tx_counter self | None => tx_inc (tx_counter self) (sender id) end) /\
  pending_fees a = pending_fees self /\ a_max_account_slots a = a_max_account_slots self /\
  r = mkInsertOk v (into_subpool tr.1.2) tr.1.2 (loc_of <$> txs self !! id) tr.2.
Proof.
  unfold insert_tx. destruct (ocn <=? vnonce v) eqn:En; simpl; [|done]. bools. intros [= Hins].
  apply result_bind_Ok in Hins as (v1 & Hval & Hins).
  pose proof (ensure_valid_Ok _ _ _ _ Hval) as [-> _].
  apply result_bind_Ok in Hins as (v2 & Hblob & Hins).
  assert (v2 = v) as ->.
  { destruct (vis_eip4844 v); [by eapply ensure_valid_blob_Ok|congruence]. }
  destruct (vmax_fee_per_gas v <? _) eqn:Efee; [done|]. bools.
  apply result_bind_Ok in Hins as ([[h au] rep] & Hrep & Hins). cbv zeta in Hins |- *.
  destruct (insert_traverse _ _ _ _ _ _ _) as [[l st'] us] eqn:Htr.
  destruct (txs self !! transaction_id v) as [e|] eqn:He; simpl in *.
  - destruct (is_underpriced _ _ _) eqn:Eu; [done|]. simplify_eq. simpl.
    split_and!; try done. intros e' [= <-]. done.
  - simplify_eq. simpl. by split_and!.
Qed.

Lemma insert_tx_ok self v bal ocn a r :
  all_ok self -> tx_ok v -> by_hash self !! vhash v = None ->
  Z.of_nat (size (txs self)) + 1 < u64_modulus ->
  insert_tx self v bal ocn = Some (Ok (a, r)) ->
  all_ok a /\ io_transaction r = v /\
  pool_txs (txs a) = <[transaction_id v := v]> (pool_txs (txs self)) /\
  pending_fees a = pending_fees self /\
  io_replaced_tx r = loc_of <$> txs self !! transaction_id v /\
  (exists t, txs a !! transaction_id v = Some t /\ it_subpool t = io_move_to r /\ it_state t = io_state r) /\
  synced (txs a) (<[transaction_id v := (v, io_move_to r)]> (locs (txs self))) (io_updates r).
Proof.
  intros Hok Hv Hnew Hroom Hins. apply insert_tx_inv in Hins. cbv zeta in Hins.
  set (id := transaction_id v) in *. set (st := initial_state self v _) in *.
  set (t0 := mkInternal v (into_subpool st) st 0) in *. set (m := <[id := t0]> (txs self)) in *.
  destruct Hins as (_ & Hval & _ & _ & Htxs & Hhash & Hcnt & Hfees & _ & ->).
  apply ensure_valid_Ok in Hval as [_ Hconf].
  assert (Ht0 : settled t0) by (split; [apply initial_state_coherent|done]).
  assert (Hall : Forall entry_ok (sender_range (mkTransactionId (vsender_id v) ocn) m)).
  { apply Forall_forall. intros [i t] (Hi & _)%elem_of_sender_range.
    apply lookup_insert_Some in Hi as [[<- <-]|[_ Hi]]; [done|by apply (entry_ok_of self)]. }
  pose proof (insert_traverse_rewrites id bal ocn 0 false st _ Hall) as Hr.
  pose proof (insert_traverse_state id bal ocn 0 false st _
    (sender_range_keys_NoDup (mkTransactionId (vsender_id v) ocn) m)) as Hst.
  destruct (insert_traverse _ _ _ _ _ _ _) as [[l st'] us]. simpl in Hr, Hst, Htxs |- *.
  destruct (rewrites_synced (Some id) m _ l us Hr) as (Hsy & Hpt & Hset).
  { apply sender_range_keys_NoDup. }
  { intros [i t] (Hi & _)%elem_of_sender_range. done. }
  rewrite <- Htxs in Hsy, Hpt, Hset.
  assert (Hptm : pool_txs m = <[id := v]> (pool_txs (txs self))).
  { unfold m, pool_txs. by rewrite fmap_insert. }
  rewrite Hptm in Hpt.
  assert (Hsettled : forall i t, txs a !! i = Some t -> settled t).
  { intros i t Ht. destruct (Hset i t Ht) as [|Hm]; [done|].
    apply lookup_insert_Some in Hm as [[<- <-]|[_ Hm]]; [done|by apply (ao_settled self Hok i)]. }
  assert (Hat : exists t, txs a !! id = Some t /\ it_transaction t = v /\ it_state t = st').
  { assert (Hin : pool_txs (txs a) !! id = Some v) by (rewrite Hpt; apply lookup_insert_eq).
    unfold pool_txs in Hin. rewrite lookup_fmap in Hin. apply fmap_Some in Hin as (t & Ht & Hvt).
    exists t. split_and!; [done|done|]. rewrite Hst. rewrite Htxs in Ht.
    destruct (list_to_map l !! id) as [t'|] eqn:El.
    - rewrite (lookup_union_Some_l _ _ _ _ El) in Ht. congruence.
    - rewrite lookup_union_r in Ht by done. unfold m in Ht. rewrite lookup_insert_eq in Ht.
      injection Ht as <-. done. }
  destruct Hat as (t & Ht & Hvt & Hstt). pose proof (Hsettled _ _ Ht) as [_ Hsub]. rewrite Hstt in Hsub.
  split_and!; [|done|done|done|done|by exists t|].
  - split; rewrite ?Hpt.
    + intros i w. rewrite lookup_insert_Some. intros [[<- <-]|[_ Hi]]; [done|by apply (ao_tx self Hok)].
    + rewrite Hhash. by apply hashes_insert.
    + rewrite Hcnt. destruct (txs self !! id) as [e|] eqn:He.
      * intros s. rewrite (ao_counter self Hok s).
        rewrite (sender_count_delete s (<[id := v]> _) id v) by apply lookup_insert_eq.
        rewrite delete_insert_eq.
        by rewrite (sender_count_delete s (pool_txs (txs self)) id _ (pool_txs_lookup _ _ _ He)).
      * apply tx_inc_ok; [apply Hok| |by rewrite pool_txs_size].
        unfold pool_txs. by rewrite lookup_fmap, He.
    + intros i j w w' [[<- <-]|[_ Hi]]%lookup_insert_Some [[<- <-]|[_ Hj]]%lookup_insert_Some Hs.
      * done.
      * symmetry. by apply (no_conflict self v j).
      * by apply (no_conflict self v i).
      * by apply (ao_exclusive self Hok i j).
    + done.
    + rewrite <- pool_txs_size, Hpt.
      pose proof (map_size_insert_le (pool_txs (txs self)) id v). rewrite pool_txs_size in *. lia.
  - simpl in Hsy. rewrite Ht in Hsy. unfold loc_of in Hsy at 1. rewrite Hvt, Hsub in Hsy.
    replace (<[id := (v, into_subpool st')]> (locs m)) with (<[id := (v, into_subpool st')]> (locs (txs self)))
      in Hsy; [done|].
    unfold m, locs. by rewrite fmap_insert, insert_insert_eq.
Qed.

(** *** The states after an insertion *)

(** What the transactions of sender [s] with the [k] nonces from [n] on cost,
    on top of [c]. *)
Fixpoint cost_before (m : gmap TransactionId PoolInternalTransaction) (s : SenderId) (c n : Z) (k : nat) : Z :=
  match k with
  | O => c
  | S k =>
      match m !! mkTransactionId s n with
      | Some t => cost_before m s (add_u256 c (vcost (it_transaction t))) (n + 1) k
      | None => c
      end
  end.

(** Whether the transaction with nonce [n] is pending. *)
Definition pending_at (m : gmap TransactionId PoolInternalTransaction) (s : SenderId) (n : Z) : bool :=
  match m !! mkTransactionId s n with Some t => is_pending (it_state t) | None => false end.

Record state_spec (t : PoolInternalTransaction) (bal c : Z) (no_parked : bool) : Prop := {
  ss_cost : cumulative_cost t = c;
  ss_gap : TxState.contains (it_state t) NO_NONCE_GAPS = true;
  ss_balance : TxState.contains (it_state t) ENOUGH_BALANCE = (add_u256 c (vcost (it_transaction t)) <=? bal);
  ss_parked : TxState.contains (it_state t) NO_PARKED_ANCESTORS = no_parked;
  ss_subpool : it_subpool t = into_subpool (it_state t);
}.

Lemma state_set_contains b t f g :
  is_u8 (it_state t) -> f ∈ flags -> g ∈ flags ->
  TxState.contains (it_state (state_set b t f)) g =
  if bool_decide (g = f) then b else TxState.contains (it_state t) g.
Proof.
  intros Hu Hf Hg. destruct b; simpl.
  - rewrite contains_insert by done. by case_bool_decide.
  - rewrite contains_remove by done. by case_bool_decide.
Qed.

Lemma state_set_u8 b t f : is_u8 (it_state t) -> f ∈ flags -> is_u8 (it_state (state_set b t f)).
Proof. intros Hu Hf. destruct b; simpl; [by apply insert_u8|by apply remove_u8]. Qed.

Lemma state_set_cost b t f : cumulative_cost (state_set b t f) = cumulative_cost t.
Proof. by destruct b. Qed.

Lemma insert_one_spec bal c parked t :
  coherent t -> state_spec (insert_one bal c parked t) bal c (negb parked).
Proof.
  intros (Hu & _). unfold insert_one. set (t1 := set_cost (state_insert t NO_NONCE_GAPS) c).
  assert (Hu1 : is_u8 (it_state t1)) by (apply insert_u8; [done|flag_in]).
  set (b := negb (bal <? next_cumulative_cost t1)).
  assert (Hu2 : is_u8 (it_state (state_set b t1 ENOUGH_BALANCE))) by (apply state_set_u8; [done|flag_in]).
  split; simpl.
  - by rewrite !state_set_cost.
  - rewrite !state_set_contains by (done || flag_in). simpl. rewrite contains_insert by (done || flag_in). done.
  - rewrite !state_set_transaction, !state_set_contains by (done || flag_in). simpl. unfold b.
    by rewrite Z.leb_antisym.
  - by rewrite state_set_contains by (done || flag_in).
  - done.
Qed.

(** The traversal reaches every transaction of the gapless run it starts at. *)
Lemma traverse_states ins bal s m l n c parked st k :
  StronglySorted (fun p q => nonce p.1 < nonce q.1) l ->
  Forall (fun e => sender e.1 = s /\ n <= nonce e.1 /\ coherent e.2) l ->
  (forall j, (j <= k)%nat -> mkTransactionId s (n + Z.of_nat j) ∈ l.*1) ->
  0 <= n -> n + Z.of_nat k < u64_modulus ->
  (forall e, e ∈ (insert_traverse ins bal n c parked st l).1.1 -> m !! e.1 = Some e.2) ->
  exists t, m !! mkTransactionId s (n + Z.of_nat k) = Some t /\
    state_spec t bal (cost_before m s c n k)
      (match k with O => negb parked | S k' => pending_at m s (n + Z.of_nat k') end).
Proof.
  revert l n c parked st. induction k as [|k IH]; intros l n c parked st Hs Hall Hin Hn Hk Hm.
  all: destruct l as [|[i t] l]; [by specialize (Hin 0%nat ltac:(lia)); apply not_elem_of_nil in Hin|].
  all: apply StronglySorted_inv in Hs as [Hs Hlt]; apply Forall_cons in Hall as [(Hsi & Hni & Hc) Hall]; simpl in *.
  all: rewrite Forall_forall in Hlt.
  all: assert (Hi : i = mkTransactionId s n).
  1,3: specialize (Hin 0%nat ltac:(lia)); rewrite Z.add_0_r, elem_of_cons in Hin;
    destruct Hin as [<-|Hin]; [done|]; apply list_elem_of_fmap in Hin as ([i' t'] & Heq & Hin);
    specialize (Hlt _ Hin); simpl in *; subst i'; simpl in *; lia.
  - subst i. simpl in Hm. rewrite Z.eqb_refl in Hm. simpl in Hm.
    assert (Hhd : m !! mkTransactionId s n = Some (insert_one bal c parked t)).
    { match type of Hm with context [if ?b then _ else _] => destruct b end;
        match type of Hm with context [insert_traverse ?a ?b ?c ?d ?e ?f l] =>
          destruct (insert_traverse a b c d e f l) as [[l' st'] rest] end;
        (apply (Hm (mkTransactionId s n, insert_one bal c parked t)); set_solver). }
    rewrite Z.add_0_r. exists (insert_one bal c parked t). split; [done|]. simpl. by apply insert_one_spec.
  - subst i. simpl in Hm. rewrite Z.eqb_refl in Hm. simpl in Hm.
    set (t' := insert_one bal c parked t) in *.
    assert (Hnext : Identifier.next_nonce (mkTransactionId s n) = n + 1).
    { unfold next_nonce, wrapping_add_u64. simpl. apply wrap_u64_small. unfold is_u64. lia. }
    rewrite Hnext in Hm.
    set (b := bool_decide (ins = mkTransactionId s n)) in Hm.
    set (st1 := if b then it_state t' else st).
    assert (Hm' : (forall e, e ∈ (insert_traverse ins bal (n + 1) (next_cumulative_cost t')
                     (negb (is_pending (it_state t'))) st1 l).1.1 -> m !! e.1 = Some e.2) /\
                  m !! mkTransactionId s n = Some t').
    { subst st1. destruct b;
        (destruct (insert_traverse _ _ _ _ _ _ l) as [[l' st'] rest]; simpl in *; split;
         [intros e He; apply Hm; set_solver|apply (Hm (mkTransactionId s n, t')); set_solver]). }
    destruct Hm' as [Hm' Hhd].
    assert (Htx : it_transaction t' = it_transaction t) by apply insert_one_transaction.
    assert (Hct : cumulative_cost t' = c) by (apply insert_one_spec with (parked := parked) (bal := bal); done).
    destruct (IH l (n + 1) (next_cumulative_cost t') (negb (is_pending (it_state t'))) st1) as (tk & Htk & Hspec).
    + done.
    + rewrite Forall_forall in Hall |- *. intros e He. destruct (Hall e He) as (? & ? & ?).
      specialize (Hlt e He). simpl in Hlt. split_and!; [done|lia|done].
    + intros j Hj. specialize (Hin (S j) ltac:(lia)). rewrite elem_of_cons in Hin.
      replace (n + 1 + Z.of_nat j) with (n + Z.of_nat (S j)) by lia.
      destruct Hin as [Heq|Hin]; [|done]. injection Heq as Heq. lia.
    + lia.
    + lia.
    + done.
    + replace (n + 1 + Z.of_nat k) with (n + Z.of_nat (S k)) in Htk by lia. exists tk. split; [done|].
      simpl. rewrite Hhd. unfold next_cumulative_cost in Hspec. rewrite Hct in Hspec.
      replace (match k with 0%nat => negb (negb (is_pending (it_state t'))) | S k' => pending_at m s (n + 1 + Z.of_nat k') end)
        with (pending_at m s (n + Z.of_nat k)) in Hspec; [done|].
      destruct k as [|k]; [|f_equal; lia]. unfold pending_at. by rewrite Z.add_0_r, Hhd, negb_involutive.
Qed.

Lemma insert_tx_spec self v bal ocn a r k :
  all_ok self -> tx_ok v -> 0 <= ocn -> insert_tx self v bal ocn = Some (Ok (a, r)) ->
  (forall j, (j <= k)%nat -> is_Some (txs a !! mkTransactionId (vsender_id v) (ocn + Z.of_nat j))) ->
  exists t, txs a !! mkTransactionId (vsender_id v) (ocn + Z.of_nat k) = Some t /\
    state_spec t bal (cost_before (txs a) (vsender_id v) 0 ocn k)
      (match k with O => true | S k' => pending_at (txs a) (vsender_id v) (ocn + Z.of_nat k') end).
Proof.
  intros Hok Hv Hn Hins Hrun. apply insert_tx_inv in Hins. cbv zeta in Hins.
  destruct Hins as (_ & _ & _ & _ & Htxs & _). set (s := vsender_id v) in *.
  set (st := initial_state self v _) in *. set (m := <[transaction_id v := _]> (txs self)) in *.
  set (l := sender_range (mkTransactionId s ocn) m) in *.
  assert (Hm : forall i t, m !! i = Some t -> entry_ok (i, t) /\ is_u64 (nonce i)).
  { intros i t [[<- <-]|[_ Hi]]%lookup_insert_Some.
    - split; [split; [done|split; [apply initial_state_coherent|done]]|apply Hv].
    - split; [by apply (entry_ok_of self)|]. apply pool_txs_lookup, (ao_tx self Hok) in Hi as [<- (_ & ? & _)]. done. }
  assert (Hl : forall e, e ∈ l -> m !! e.1 = Some e.2 /\ sender e.1 = s /\ ocn <= nonce e.1).
  { intros [i t] Hi. apply elem_of_sender_range in Hi as (? & ? & ?). done. }
  assert (Hall : Forall entry_ok l).
  { apply Forall_forall. intros [i t] Hi. apply (Hm i t), (Hl (i, t) Hi). }
  pose proof (rewrites_keys _ _ _ _ (insert_traverse_rewrites (transaction_id v) bal ocn 0 false st l Hall)) as Hpre.
  set (l' := (insert_traverse (transaction_id v) bal ocn 0 false st l).1.1) in *.
  assert (Hnd : NoDup l'.*1).
  { destruct Hpre as [rest Hrest]. pose proof (sender_range_keys_NoDup (mkTransactionId s ocn) m) as Hnd.
    fold l in Hnd. rewrite Hrest in Hnd. by apply NoDup_app in Hnd as [? _]. }
  assert (Hkeys : forall i, is_Some (txs a !! i) -> is_Some (m !! i)).
  { intros i [t Hi]. rewrite Htxs, lookup_write_back in Hi by done.
    destruct (list_to_map l' !! i) as [t'|] eqn:E; [|eauto].
    apply elem_of_list_to_map_2 in E. destruct Hpre as [rest Hrest].
    assert (Hin : i ∈ l.*1) by (rewrite Hrest; apply elem_of_app; left; by apply (list_elem_of_fmap_2 fst l' (i, t'))).
    apply list_elem_of_fmap in Hin as (e & -> & He). destruct (Hl e He) as [? _]. eauto. }
  apply (traverse_states (transaction_id v) bal s (txs a) l ocn 0 false st k).
  - apply sender_range_sorted.
  - apply Forall_forall. intros e He. destruct (Hl e He) as (Hx & ? & ?). split_and!; [done|done|].
    destruct e as [i t]. apply (Hm i t Hx).
  - intros j Hj. destruct (Hkeys _ (Hrun j Hj)) as [t Ht].
    apply (list_elem_of_fmap_2 fst _ (_, t)). apply elem_of_sender_range. split_and!; [done|done|]. simpl. lia.
  - done.
  - destruct (Hkeys _ (Hrun k ltac:(lia))) as [t Ht]. destruct (Hm _ _ Ht) as [_ [_ Hb]]. done.
  - intros [i t] Hi. rewrite Htxs, lookup_write_back by done.
    by rewrite (proj2 (lookup_list_to_map_keys l' i t Hnd) Hi).
Qed.

(** C6: after an insertion every transaction in the gapless run of the sender
    from the on-chain nonce on is marked accordingly: it has no nonce gap; its
    cumulative cost is what the ones before it cost; it has enough balance iff
    the balance covers it together with the ones before it; it has no parked
    ancestor iff its predecessor is pending; its sub-pool is the one of its
    flags.  In particular it is pending only if its predecessor is. *)
Theorem insert_tx_states self v bal ocn a r k :
  all_ok self -> tx_ok v -> 0 <= ocn -> insert_tx self v bal ocn = Some (Ok (a, r)) ->
  (forall j, (j <= k)%nat -> is_Some (txs a !! mkTransactionId (vsender_id v) (ocn + Z.of_nat j))) ->
  let before := cost_before (txs a) (vsender_id v) 0 ocn k in
  let ready := match k with O => true | S k' => pending_at (txs a) (vsender_id v) (ocn + Z.of_nat k') end in
  exists t, txs a !! mkTransactionId (vsender_id v) (ocn + Z.of_nat k) = Some t /\
    cumulative_cost t = before /\
    TxState.contains (it_state t) NO_NONCE_GAPS = true /\
    TxState.contains (it_state t) ENOUGH_BALANCE = (add_u256 before (vcost (it_transaction t)) <=? bal) /\
    TxState.contains (it_state t) NO_PARKED_ANCESTORS = ready /\
    it_subpool t = into_subpool (it_state t) /\
    (is_u8 (it_state t) -> is_pending (it_state t) = true -> ready = true).
Proof.
  intros Hok Hv Hn Hins Hrun before ready.
  destruct (insert_tx_spec self v bal ocn a r k Hok Hv Hn Hins Hrun) as (t & Ht & [S1 S2 S3 S4 S5]).
  exists t. split_and!; try done. intros Hu. rewrite is_pending_flags, S4 by done. fold ready. by destruct ready.
Qed.

End all_transactions.

(** ** Witness *)

Section examples.
#[local] Existing Instance mainnet_constants.

(** Sender 7 has nonces 1 and 2 and now fills the gap at nonce 0; its balance
    covers the first two. *)
Definition example_insert (self : AllTransactions) (tx : ValidPoolTransaction) : AllTransactions :=
  match insert_tx self tx 250 0 with Some (Ok (a, _)) => a | _ => self end.

Definition example_all : AllTransactions :=
  example_insert (example_insert (all_new pool_config_default) (example_tx 2 7 1 50 100)) (example_tx 3 7 2 50 100).

Lemma example_tx_ok h s n fee c : 0 <= n < 2 ^ 64 -> 0 <= fee < 2 ^ 128 -> tx_ok (example_tx h s n fee c).
Proof. intros Hn Hf. split_and!; [done|done|done|]. split; simpl; lia. Qed.

Lemma example_insert_ok self h n :
  all_ok self -> by_hash self !! h = None -> Z.of_nat (size (txs self)) + 1 < u64_modulus -> 0 <= n < 2 ^ 64 ->
  all_ok (example_insert self (example_tx h 7 n 50 100)).
Proof.
  intros Hok Hh Hsz Hn. unfold example_insert.
  destruct (insert_tx self (example_tx h 7 n 50 100) 250 0) as [[[a r]|e]|] eqn:E; [|done|done].
  apply insert_tx_ok in E as [? _]; [done|done|apply example_tx_ok; lia|done|done].
Qed.

Lemma example_all_ok : all_ok example_all.
Proof.
  unfold example_all. apply example_insert_ok; [apply example_insert_ok; [apply all_ok_new|..]|..];
    try (vm_compute; reflexivity); lia.
Qed.

Lemma insert_tx_states_witness :
  exists a r t, insert_tx example_all (example_tx 1 7 0 50 100) 250 0 = Some (Ok (a, r)) /\
    txs a !! mkTransactionId 7 2 = Some t /\ cumulative_cost t = 200 /\
    TxState.contains (it_state t) ENOUGH_BALANCE = false.
Proof.
  destruct (insert_tx example_all (example_tx 1 7 0 50 100) 250 0) as [[[a r]|e]|] eqn:E;
    [|vm_compute in E; discriminate E..].
  destruct (insert_tx_states example_all (example_tx 1 7 0 50 100) 250 0 a r 2 example_all_ok)
    as (t & Ht & Hc & _ & Hb & _).
  - apply example_tx_ok; lia.
  - lia.
  - exact E.
  - vm_compute in E. injection E as <- <-. intros [|[|[|j]]] Hj; [vm_compute; eauto..|lia].
  - exists a, r, t. split; [reflexivity|]. split; [exact Ht|]. split.
    + rewrite Hc. vm_compute in E. injection E as <- <-. vm_compute. reflexivity.
    + rewrite Hb. vm_compute in E. injection E as <- <-. vm_compute in Ht. injection Ht as <-.
      vm_compute. reflexivity.
Defined.

End examples.

End AllTxs.
