(* ===== verification/TxPool.v ===== *)
(** * The transaction pool

    [TxPool] of [crates/transaction-pool/src/pool/txpool.rs]: the set of all
    transactions and the four sub-pools, kept in step.  Every operation that
    can panic returns an option; [None] is the panic ([expect], [assert!],
    [unreachable!] of a sub-pool), or a loop that has not ended within its fuel.
    Handlers passed as closures are represented by the list of transactions they
    are called with, in order.  Metrics and tracing are left out. *)

From S2P Require Import Prelude Ordered TxErrors TxIdentifier TxState TxTypes SubPoolSpec.
From S2P Require Import ParkedPool PendingPool BlobFee BlobPool AllTransactions.
Import TxErrors Identifier TxState TxTypes SubPoolSpec.

Module Pool.

Section txpool.
Context `{AlloyConstants} {ordering : TransactionOrdering}.

(** ** Data *)

Record TxPool := mkTxPool {
  sender_info : gmap SenderId SenderInfo;
  pending_pool : Pending.PendingPool;
  config : PoolConfig;
  queued_pool : Parked.ParkedPool;
  basefee_pool : Parked.ParkedPool;
  blob_pool : BlobTxs.BlobTransactions;
  all_transactions : AllTxs.AllTransactions;
  latest_update_kind : option PoolUpdateKind;
}.

Definition pool_new (config : PoolConfig) : TxPool :=
  mkTxPool ∅ Pending.pending_new config Parked.parked_default Parked.parked_default
    BlobTxs.blob_default (AllTxs.all_new config) None.

Implicit Types (self : TxPool) (tx : ValidPoolTransaction).

(** Field updates. *)
Definition with_all self (a : AllTxs.AllTransactions) : TxPool :=
  mkTxPool (sender_info self) (pending_pool self) (config self) (queued_pool self)
    (basefee_pool self) (blob_pool self) a (latest_update_kind self).
Definition with_pending self (p : Pending.PendingPool) : TxPool :=
  mkTxPool (sender_info self) p (config self) (queued_pool self)
    (basefee_pool self) (blob_pool self) (all_transactions self) (latest_update_kind self).
Definition with_queued self (p : Parked.ParkedPool) : TxPool :=
  mkTxPool (sender_info self) (pending_pool self) (config self) p
    (basefee_pool self) (blob_pool self) (all_transactions self) (latest_update_kind self).
Definition with_basefee self (p : Parked.ParkedPool) : TxPool :=
  mkTxPool (sender_info self) (pending_pool self) (config self) (queued_pool self)
    p (blob_pool self) (all_transactions self) (latest_update_kind self).
Definition with_blob self (p : BlobTxs.BlobTransactions) : TxPool :=
  mkTxPool (sender_info self) (pending_pool self) (config self) (queued_pool self)
    (basefee_pool self) p (all_transactions self) (latest_update_kind self).
Definition with_senders self (s : gmap SenderId SenderInfo) : TxPool :=
  mkTxPool s (pending_pool self) (config self) (queued_pool self)
    (basefee_pool self) (blob_pool self) (all_transactions self) (latest_update_kind self).
Definition with_kind self (k : option PoolUpdateKind) : TxPool :=
  mkTxPool (sender_info self) (pending_pool self) (config self) (queued_pool self)
    (basefee_pool self) (blob_pool self) (all_transactions self) k.

Definition fees self : PendingFees := AllTxs.pending_fees (all_transactions self).
Definition set_base_fee self (f : Z) : TxPool :=
  with_all self (AllTxs.with_fees (all_transactions self) (mkPendingFees f (blob_fee (fees self)))).
Definition set_blob_fee self (f : Z) : TxPool :=
  with_all self (AllTxs.with_fees (all_transactions self) (mkPendingFees (base_fee (fees self)) f)).

(** ** Look-ups *)

Definition pool_len self : Z := AllTxs.len (all_transactions self).
Definition contains self (tx_hash : Z) : bool := AllTxs.contains (all_transactions self) tx_hash.
Definition get self (tx_hash : Z) : option ValidPoolTransaction :=
  AllTxs.by_hash (all_transactions self) !! tx_hash.
Definition get_transactions_by_sender self (s : SenderId) : list ValidPoolTransaction :=
  (fun e => AllTxs.it_transaction e.2) <$> AllTxs.txs_iter (all_transactions self) s.

Definition pool_size self : PoolSize :=
  {| size_pending := Pending.len (pending_pool self);
     size_pending_bytes := Pending.pool_size (pending_pool self);
     size_blob := BlobTxs.len (blob_pool self);
     size_blob_bytes := BlobTxs.pool_size (blob_pool self);
     size_basefee := Parked.len (basefee_pool self);
     size_basefee_bytes := Parked.pool_size (basefee_pool self);
     size_queued := Parked.len (queued_pool self);
     size_queued_bytes := Parked.pool_size (queued_pool self);
     size_total := AllTxs.len (all_transactions self) |}.

Definition is_exceeded self : bool := config_is_exceeded (config self) (pool_size self).

Definition block_info self : BlockInfo :=
  let a := all_transactions self in
  {| info_last_seen_block_hash := AllTxs.last_seen_block_hash a;
     info_last_seen_block_number := AllTxs.last_seen_block_number a;
     info_block_gas_limit := AllTxs.block_gas_limit a;
     pending_basefee := base_fee (fees self);
     pending_blob_fee := Some (blob_fee (fees self)) |}.

Definition get_highest_transaction_by_sender self (s : SenderId) : option ValidPoolTransaction :=
  (fun e => AllTxs.it_transaction e.2) <$> last (AllTxs.txs_iter (all_transactions self) s).

Definition get_highest_nonce_by_sender self (s : SenderId) : option Z :=
  vnonce <$> get_highest_transaction_by_sender self s.

(** The loop of [get_highest_consecutive_transaction_by_sender]. *)
Fixpoint last_consecutive (next_expected_nonce : Z) (last : option ValidPoolTransaction)
  (entries : list (TransactionId * AllTxs.PoolInternalTransaction)) : option ValidPoolTransaction :=
  match entries with
  | [] => last
  | (id, t) :: entries =>
      if negb (next_expected_nonce =? nonce id) then last
      else last_consecutive (next_nonce id) (Some (AllTxs.it_transaction t)) entries
  end.

Definition get_highest_consecutive_transaction_by_sender self (on_chain : TransactionId)
  : option ValidPoolTransaction :=
  let n := match sender_info self !! sender on_chain with
           | Some current => Z.max (nonce on_chain) (state_nonce current)
           | None => nonce on_chain
           end in
  last_consecutive n None
    (AllTxs.descendant_txs_inclusive (all_transactions self) (mkTransactionId (sender on_chain) n)).

(** ** Moving transactions between the sub-pools *)

Definition remove_from_subpool self (pool : SubPool) (id : TransactionId)
  : option (TxPool * option ValidPoolTransaction) :=
  match pool with
  | Queued =>
      r ← Parked.remove_transaction (queued_pool self) id; Some (with_queued self r.1, r.2)
  | TxState.Pending =>
      let r := Pending.remove_transaction (pending_pool self) id in
      Some (with_pending self r.1, r.2)
  | BaseFee =>
      r ← Parked.remove_transaction (basefee_pool self) id; Some (with_basefee self r.1, r.2)
  | Blob =>
      let r := BlobTxs.remove_transaction (blob_pool self) id in
      Some (with_blob self r.1, r.2)
  end.

Definition add_transaction_to_subpool self (pool : SubPool) tx : option TxPool :=
  match pool with
  | Queued => Some (with_queued self (Parked.add_transaction (queued_pool self) tx))
  | TxState.Pending =>
      Some (with_pending self
              (Pending.add_transaction (pending_pool self) tx (base_fee (fees self))))
  | BaseFee => Some (with_basefee self (Parked.add_transaction (basefee_pool self) tx))
  | Blob => p ← BlobTxs.add_transaction (blob_pool self) tx; Some (with_blob self p)
  end.

Definition add_new_transaction self tx (replaced : option (ValidPoolTransaction * SubPool))
  (pool : SubPool) : option TxPool :=
  self ← match replaced with
         | Some (replaced, replaced_pool) =>
             r ← remove_from_subpool self replaced_pool (transaction_id replaced); Some r.1
         | None => Some self
         end;
  add_transaction_to_subpool self pool tx.

Definition move_transaction self (from to : SubPool) (id : TransactionId)
  : option (TxPool * option ValidPoolTransaction) :=
  r ← remove_from_subpool self from id;
  let '(self, tx) := r in
  match tx with
  | None => Some (self, None)
  | Some tx => self ← add_transaction_to_subpool self to tx; Some (self, Some tx)
  end.

(** ** Removing from the entire pool *)

Definition remove_transaction self (id : TransactionId)
  : option (TxPool * option ValidPoolTransaction) :=
  let '(a, r) := AllTxs.remove_transaction (all_transactions self) id in
  let self := with_all self a in
  match r with
  | None => Some (self, None)
  | Some (tx, pool) => remove_from_subpool self pool (transaction_id tx)
  end.

Definition prune_transaction_by_hash self (tx_hash : Z)
  : option (TxPool * option ValidPoolTransaction) :=
  let '(a, r) := AllTxs.remove_transaction_by_hash (all_transactions self) tx_hash in
  let self := with_all self a in
  match r with
  | None => Some (self, None)
  | Some (tx, pool) => remove_from_subpool self pool (transaction_id tx)
  end.

Definition prune_transaction_by_id self (id : TransactionId)
  : option (TxPool * option ValidPoolTransaction) :=
  let '(a, r) := AllTxs.remove_transaction_by_id (all_transactions self) id in
  let self := with_all self a in
  match r with
  | None => Some (self, None)
  | Some (tx, pool) => remove_from_subpool self pool (transaction_id tx)
  end.

(** ** Applying updates *)

Fixpoint process_updates self (updates : list PoolUpdate) (outcome : UpdateOutcome)
  : option (TxPool * UpdateOutcome) :=
  match updates with
  | [] => Some (self, outcome)
  | mkPoolUpdate id current destination :: updates =>
      match destination with
      | Discard =>
          r ← prune_transaction_by_id self id;
          let '(self, tx) := r in
          process_updates self updates
            (match tx with
             | Some tx => mkUpdateOutcome (promoted outcome) (discarded outcome ++ [tx])
             | None => outcome
             end)
      | ToPool move_to =>
          r ← move_transaction self current move_to id;
          let '(self, moved) := r in
          process_updates self updates
            (match move_to, moved with
             | TxState.Pending, Some tx =>
                 mkUpdateOutcome (promoted outcome ++ [tx]) (discarded outcome)
             | _, _ => outcome
             end)
      end
  end.

Definition remove_transaction_by_hash self (tx_hash : Z)
  : option (TxPool * option ValidPoolTransaction) :=
  let '(a, r) := AllTxs.remove_transaction_by_hash (all_transactions self) tx_hash in
  match r with
  | None => Some (with_all self a, None)
  | Some (tx, pool) =>
      let '(a, updates) := AllTxs.park_descendant_transactions a (transaction_id tx) in
      u ← process_updates (with_all self a) updates update_outcome_default;
      remove_from_subpool u.1 pool (transaction_id tx)
  end.

Fixpoint remove_transactions self (hashes : list Z)
  : option (TxPool * list ValidPoolTransaction) :=
  match hashes with
  | [] => Some (self, [])
  | hash :: hashes =>
      r ← remove_transaction_by_hash self hash;
      rest ← remove_transactions r.1 hashes;
      Some (rest.1, match r.2 with Some tx => tx :: rest.2 | None => rest.2 end)
  end.

(** The [loop] of [remove_descendants]. *)
Fixpoint remove_descendants (fuel : nat) self (id : TransactionId)
  (removed : list ValidPoolTransaction) : option (TxPool * list ValidPoolTransaction) :=
  match fuel with
  | O => None
  | S fuel =>
      match AllTxs.descendant_txs_exclusive (all_transactions self) id with
      | (descendant, _) :: _ =>
          r ← remove_transaction self descendant;
          let '(self, tx) := r in
          remove_descendants fuel self descendant
            (match tx with Some tx => removed ++ [tx] | None => removed end)
      | [] => Some (self, removed)
      end
  end.

(** Every round removes a transaction from the set of all. *)
Definition descendants_fuel self : nat := S (size (AllTxs.txs (all_transactions self))).

Fixpoint remove_transactions_and_descendants self (hashes : list Z)
  (removed : list ValidPoolTransaction) : option (TxPool * list ValidPoolTransaction) :=
  match hashes with
  | [] => Some (self, removed)
  | hash :: hashes =>
      r ← remove_transaction_by_hash self hash;
      let '(self, tx) := r in
      match tx with
      | None => remove_transactions_and_descendants self hashes removed
      | Some tx =>
          d ← remove_descendants (descendants_fuel self) self (transaction_id tx) (removed ++ [tx]);
          remove_transactions_and_descendants d.1 hashes d.2
      end
  end.

Fixpoint remove_all self (ids : list TransactionId) : option (TxPool * list ValidPoolTransaction) :=
  match ids with
  | [] => Some (self, [])
  | id :: ids =>
      r ← remove_transaction self id;
      rest ← remove_all r.1 ids;
      Some (rest.1, match r.2 with Some tx => tx :: rest.2 | None => rest.2 end)
  end.

Definition remove_transactions_by_sender self (s : SenderId)
  : option (TxPool * list ValidPoolTransaction) :=
  remove_all self (transaction_id <$> get_transactions_by_sender self s).

(** ** Fee changes *)

(** [get_mut(tx.id()).expect(..)], then the given change of the state and
    [tx.subpool = tx.state.into()].  Returns the new sub-pool. *)
Definition restate self (id : TransactionId)
  (f : AllTxs.PoolInternalTransaction -> AllTxs.PoolInternalTransaction) : option (TxPool * SubPool) :=
  let a := all_transactions self in
  t ← AllTxs.txs a !! id;
  let t := AllTxs.set_subpool (f t) in
  Some (with_all self (AllTxs.with_txs a (<[id := t]> (AllTxs.txs a))), AllTxs.it_subpool t).

(** [for tx in removed { .. self.add_transaction_to_subpool(to, tx) }], with
    the promoted transactions. *)
Fixpoint relocate self (f : AllTxs.PoolInternalTransaction -> AllTxs.PoolInternalTransaction)
  (removed : list ValidPoolTransaction) : option (TxPool * list ValidPoolTransaction) :=
  match removed with
  | [] => Some (self, [])
  | tx :: removed =>
      r ← restate self (transaction_id tx) f;
      let '(self, to) := r in
      self ← add_transaction_to_subpool self to tx;
      rest ← relocate self f removed;
      Some (rest.1, if subpool_is_pending to then tx :: rest.2 else rest.2)
  end.

Definition update_blob_fee self (pending_blob_fee : Z) (base_fee_update : comparison)
  : option (TxPool * list ValidPoolTransaction) :=
  let previous := blob_fee (fees self) in
  let self := set_blob_fee self pending_blob_fee in
  match Z.compare (blob_fee (fees self)) previous, base_fee_update with
  | Eq, (Eq | Gt) => Some (self, [])
  | Gt, (Eq | Gt) =>
      let '(p, removed) := Pending.update_blob_fee (pending_pool self) (blob_fee (fees self)) in
      r ← relocate (with_pending self p)
            (fun t => AllTxs.state_remove t ENOUGH_BLOB_FEE_CAP_BLOCK) removed;
      Some (r.1, [])
  | Lt, _ | _, Lt =>
      b ← BlobTxs.enforce_pending_fees (blob_pool self) (fees self);
      relocate (with_blob self b.1)
        (fun t => AllTxs.state_insert (AllTxs.state_insert t ENOUGH_BLOB_FEE_CAP_BLOCK)
                    ENOUGH_FEE_CAP_BLOCK) b.2
  end.

(** The closure of [update_basefee] for a decreased fee: it does not add to
    the base-fee pool, whose entries it is called for. *)
Fixpoint promote_basefee self (removed : list ValidPoolTransaction)
  : option (TxPool * list ValidPoolTransaction) :=
  match removed with
  | [] => Some (self, [])
  | tx :: removed =>
      r ← restate self (transaction_id tx) (fun t => AllTxs.state_insert t ENOUGH_FEE_CAP_BLOCK);
      let '(self, subpool) := r in
      self ← match subpool with
             | BaseFee => Some self
             | _ => add_transaction_to_subpool self subpool tx
             end;
      rest ← promote_basefee self removed;
      Some (rest.1, if subpool_is_pending subpool then tx :: rest.2 else rest.2)
  end.

Definition update_basefee self (pending_basefee : Z)
  : option (TxPool * comparison * list ValidPoolTransaction) :=
  let previous := base_fee (fees self) in
  let self := set_base_fee self pending_basefee in
  match Z.compare (base_fee (fees self)) previous with
  | Eq => Some (self, Eq, [])
  | Gt =>
      let '(p, removed) := Pending.update_base_fee (pending_pool self) (base_fee (fees self)) in
      r ← relocate (with_pending self p) (fun t => AllTxs.state_remove t ENOUGH_FEE_CAP_BLOCK) removed;
      Some (r.1, Gt, [])
  | Lt =>
      b ← Parked.enforce_basefee_with (basefee_pool self) (base_fee (fees self));
      r ← promote_basefee (with_basefee self b.1) b.2;
      Some (r.1, Lt, r.2)
  end.

Definition set_block_info self (info : BlockInfo) : option TxPool :=
  r ← update_basefee self (pending_basefee info);
  let '(self, basefee_ordering, _) := r in
  self ← match pending_blob_fee info with
         | Some f => r ← update_blob_fee self f basefee_ordering; Some r.1
         | None => Some self
         end;
  Some (with_all self (AllTxs.set_block_info (all_transactions self) info)).

Definition update_pending_fees_only self (new_base_fee : Z) (new_blob_fee : option Z)
  : TxPool * Z * Z :=
  let prev_base := base_fee (fees self) in
  let prev_blob := blob_fee (fees self) in
  let self := set_base_fee self new_base_fee in
  (match new_blob_fee with Some f => set_blob_fee self f | None => self end, prev_base, prev_blob).

Definition apply_fee_updates self (prev_base_fee prev_blob_fee : Z) (outcome : UpdateOutcome)
  : option (TxPool * UpdateOutcome) :=
  let new_base_fee := base_fee (fees self) in
  let new_blob_fee := blob_fee (fees self) in
  if ((new_base_fee =? prev_base_fee) && (new_blob_fee =? prev_blob_fee))%bool
  then Some (self, outcome)
  else
    let self := set_blob_fee (set_base_fee self prev_base_fee) prev_blob_fee in
    r ← update_basefee self new_base_fee;
    let '(self, base_fee_ordering, p1) := r in
    r ← update_blob_fee self new_blob_fee base_fee_ordering;
    Some (r.1, mkUpdateOutcome (promoted outcome ++ p1 ++ r.2) (discarded outcome)).

(** ** Account changes and new blocks *)

Definition update_accounts self (changed_senders : gmap SenderId SenderInfo)
  : option (TxPool * UpdateOutcome) :=
  let '(a, updates) := AllTxs.update (all_transactions self) changed_senders in
  let self := with_senders (with_all self a) (changed_senders ∪ sender_info self) in
  process_updates self updates update_outcome_default.

Record OnNewCanonicalStateOutcome := mkCanonicalOutcome {
  oc_block_hash : Z;
  oc_mined : list Z;
  oc_promoted : list ValidPoolTransaction;
  oc_discarded : list ValidPoolTransaction;
}.

Fixpoint prune_mined self (mined_transactions : list Z) : option TxPool :=
  match mined_transactions with
  | [] => Some self
  | h :: mined => r ← prune_transaction_by_hash self h; prune_mined r.1 mined
  end.

Definition on_canonical_state_change self (info : BlockInfo) (mined_transactions : list Z)
  (changed_senders : gmap SenderId SenderInfo) (update_kind : PoolUpdateKind)
  : option (TxPool * OnNewCanonicalStateOutcome) :=
  self ← prune_mined self mined_transactions;
  let '(self, prev_base_fee, prev_blob_fee) :=
    update_pending_fees_only self (pending_basefee info) (pending_blob_fee info) in
  r ← update_accounts self changed_senders;
  let '(self, outcome) := r in
  r ← apply_fee_updates self prev_base_fee prev_blob_fee outcome;
  let '(self, outcome) := r in
  let self := with_all self (AllTxs.set_block_info (all_transactions self) info) in
  let self := with_kind self (Some update_kind) in
  Some (self, mkCanonicalOutcome (info_last_seen_block_hash info) mined_transactions
                (promoted outcome) (discarded outcome)).

(** ** Adding *)

Inductive AddedTransaction :=
| AddedPending (transaction : ValidPoolTransaction) (replaced : option ValidPoolTransaction)
    (promoted discarded : list ValidPoolTransaction)
| AddedParked (transaction : ValidPoolTransaction) (replaced : option ValidPoolTransaction)
    (subpool : SubPool) (queued_reason : option QueuedReason).

Definition delegated (on_chain_code_hash : option Z) : bool :=
  match on_chain_code_hash with
  | None => false
  | Some h => negb (h =? KECCAK_EMPTY)
  end.

Definition check_delegation_limit self tx (on_chain_nonce : Z) (on_chain_code_hash : option Z)
  : result unit PoolError :=
  if (negb (delegated on_chain_code_hash) &&
      negb (bool_decide (is_Some (AllTxs.auths (all_transactions self) !! vsender_id tx))))%bool
  then Ok tt
  else
    let txs_by_sender := Pending.get_txs_by_sender (pending_pool self) (vsender_id tx) in
    match txs_by_sender with
    | [] =>
        if max_inflight_delegated_slot_limit (config self) <=?
             saturating_sub_u64 (vnonce tx) on_chain_nonce
        then Err (mkPoolError (vhash tx) (InvalidTransaction (Eip7702 OutOfOrderTxFromDelegated)))
        else Ok tt
    | _ =>
        if bool_decide (transaction_id tx ∈ txs_by_sender) then Ok tt
        else if Z.of_nat (length txs_by_sender) <? max_inflight_delegated_slot_limit (config self)
        then Ok tt
        else Err (mkPoolError (vhash tx) (InvalidTransaction (Eip7702 InflightTxLimitReached)))
    end.

(** [txs_iter(sender_id).nth(1).is_some()] for one of the authorities. *)
Definition authority_busy self (s : SenderId) : bool :=
  (2 <=? length (AllTxs.txs_iter (all_transactions self) s))%nat.

Definition validate_auth self tx (on_chain_nonce : Z) (on_chain_code_hash : option Z)
  : result unit PoolError :=
  result_bind (check_delegation_limit self tx on_chain_nonce on_chain_code_hash) (fun _ =>
  match authority_ids tx with
  | Some authority_list =>
      if existsb (authority_busy self) authority_list
      then Err (mkPoolError (vhash tx) (InvalidTransaction (Eip7702 AuthorityReserved)))
      else Ok tt
  | None => Ok tt
  end).

(** The error a failed insertion is reported as. *)
Definition insert_error (on_chain_balance : Z) (err : AllTxs.InsertErr) : PoolError :=
  match err with
  | AllTxs.Underpriced tx _ => mkPoolError (vhash tx) ReplacementUnderpriced
  | AllTxs.FeeCapBelowMinimumProtocolFeeCap tx fee_cap =>
      mkPoolError (vhash tx) (FeeCapBelowMinimumProtocolFeeCap fee_cap)
  | AllTxs.ExceededSenderTransactionsCapacity tx =>
      mkPoolError (vhash tx) (SpammerExceededCapacity (tx_sender (transaction tx)))
  | AllTxs.TxGasLimitMoreThanAvailableBlockGas tx block_gas_limit tx_gas_limit =>
      mkPoolError (vhash tx) (InvalidTransaction (ExceedsGasLimit tx_gas_limit block_gas_limit))
  | AllTxs.BlobTxHasNonceGap tx => mkPoolError (vhash tx) (InvalidTransaction (Eip4844 Eip4844NonceGap))
  | AllTxs.Overdraft tx => mkPoolError (vhash tx) (InvalidTransaction (Overdraft (vcost tx) on_chain_balance))
  | AllTxs.TxTypeConflict tx =>
      mkPoolError (vhash tx)
        (ExistingConflictingTransactionType (tx_sender (transaction tx)) (ty (transaction tx)))
  end.

Definition add_transaction self tx (on_chain_balance on_chain_nonce : Z)
  (on_chain_code_hash : option Z) : option (TxPool * result AddedTransaction PoolError) :=
  if contains self (vhash tx) then Some (self, Err (mkPoolError (vhash tx) AlreadyImported))
  else
    match validate_auth self tx on_chain_nonce on_chain_code_hash with
    | Err e => Some (self, Err e)
    | Ok _ =>
        let self := with_senders self
          (<[vsender_id tx := mkSenderInfo on_chain_nonce on_chain_balance]> (sender_info self)) in
        r ← AllTxs.insert_tx (all_transactions self) tx on_chain_balance on_chain_nonce;
        match r with
        | Ok (a, AllTxs.mkInsertOk transaction move_to state replaced_tx updates) =>
            self ← add_new_transaction (with_all self a) transaction replaced_tx move_to;
            u ← process_updates self updates update_outcome_default;
            let '(self, outcome) := u in
            let replaced := fst <$> replaced_tx in
            Some (self,
                  Ok (if subpool_is_pending move_to
                      then AddedPending transaction replaced (promoted outcome) (discarded outcome)
                      else AddedParked transaction replaced move_to
                             (determine_queued_reason state move_to)))
        | Err err => Some (self, Err (insert_error on_chain_balance err))
        end
    end.

(** ** Enforcing the limits *)

(** What is done with the transactions truncated from a sub-pool: each leaves
    the set of all transactions, its descendants leave the entire pool. *)
Fixpoint drop_truncated self (truncated removed : list ValidPoolTransaction)
  : option (TxPool * list ValidPoolTransaction) :=
  match truncated with
  | [] => Some (self, removed)
  | tx :: truncated =>
      let self := with_all self
        (AllTxs.remove_transaction (all_transactions self) (transaction_id tx)).1 in
      d ← remove_descendants (descendants_fuel self) self (transaction_id tx) (removed ++ [tx]);
      drop_truncated d.1 truncated d.2
  end.

(** [while pool.exceeds(limit) { .. }] of the macro, for one sub-pool given
    by its test and its truncation. *)
Fixpoint discard_loop (fuel : nat) (exceeds : TxPool -> bool)
  (truncate : TxPool -> option (TxPool * list ValidPoolTransaction))
  self (removed : list ValidPoolTransaction) : option (TxPool * list ValidPoolTransaction) :=
  match fuel with
  | O => None
  | S fuel =>
      if exceeds self then
        r ← truncate self;
        d ← drop_truncated r.1 r.2 removed;
        discard_loop fuel exceeds truncate d.1 d.2
      else Some (self, removed)
  end.

Definition truncate_pending self : option (TxPool * list ValidPoolTransaction) :=
  r ← Pending.truncate_pool (pending_pool self) (pending_limit (config self));
  Some (with_pending self r.1, r.2).
Definition truncate_basefee self : option (TxPool * list ValidPoolTransaction) :=
  r ← Parked.truncate_pool (basefee_pool self) (basefee_limit (config self));
  Some (with_basefee self r.1, r.2).
Definition truncate_blob self : option (TxPool * list ValidPoolTransaction) :=
  r ← BlobTxs.truncate_pool (blob_pool self) (blob_limit (config self));
  Some (with_blob self r.1, r.2).
Definition truncate_queued self : option (TxPool * list ValidPoolTransaction) :=
  r ← Parked.truncate_pool (queued_pool self) (queued_limit (config self));
  Some (with_queued self r.1, r.2).

Definition pending_exceeds self : bool :=
  Pending.exceeds (pending_pool self) (pending_limit (config self)).
Definition basefee_exceeds self : bool :=
  Parked.exceeds (basefee_pool self) (basefee_limit (config self)).
Definition blob_exceeds self : bool :=
  BlobTxs.exceeds (blob_pool self) (blob_limit (config self)).
Definition queued_exceeds self : bool :=
  Parked.exceeds (queued_pool self) (queued_limit (config self)).

Definition discard_worst (fuel : nat) self : option (TxPool * list ValidPoolTransaction) :=
  r ← discard_loop fuel pending_exceeds truncate_pending self [];
  r ← discard_loop fuel basefee_exceeds truncate_basefee r.1 r.2;
  r ← discard_loop fuel blob_exceeds truncate_blob r.1 r.2;
  discard_loop fuel queued_exceeds truncate_queued r.1 r.2.

End txpool.

End Pool.
