(* ===== verification/TxPoolInv.v ===== *)
(** * The invariant of the transaction pool

    Every transaction of the set of all transactions is in exactly the
    sub-pool recorded for it, and the sub-pools hold nothing else.  The
    sub-pools are used through [SubPoolImpl] only. *)

From S2P Require Import Prelude Ordered TxErrors TxIdentifier TxState TxTypes SubPoolSpec.
From S2P Require Import ParkedPool PendingPool BlobFee BlobPool AllTransactions TxPool.
Import TxErrors Identifier TxState TxTypes SubPoolSpec BlobFee.
Import Pool.

Module PoolInv.

Abbreviation Locs := (gmap TransactionId (ValidPoolTransaction * SubPool)) (only parsing).
Abbreviation all_txs self := (AllTxs.txs (all_transactions self)).

#[local] Existing Instance Parked.parked_impl.
#[local] Existing Instance BlobTxs.blob_impl.
#[local] Existing Instance Pending.pending_impl.

Section inv.
Context `{AlloyConstants} {ordering : TransactionOrdering}.
Implicit Types (self : TxPool) (v : ValidPoolTransaction) (i : TransactionId).

(** ** The sub-pools as finite maps *)

Definition subpool_txs self (p : SubPool) : TxMap :=
  match p with
  | Queued => sp_txs (queued_pool self)
  | BaseFee => sp_txs (basefee_pool self)
  | Blob => sp_txs (blob_pool self)
  | TxState.Pending => sp_txs (pending_pool self)
  end.

Record pools_ok self : Prop := {
  po_queued : sp_ok (queued_pool self);
  po_basefee : sp_ok (basefee_pool self);
  po_blob : sp_ok (blob_pool self);
  po_pending : sp_ok (pending_pool self);
}.

(** At least [n] additions are possible before a submission counter wraps. *)
Record has_room self (n : Z) : Prop := {
  hr_queued : n <= sp_room (queued_pool self);
  hr_basefee : n <= sp_room (basefee_pool self);
  hr_blob : n <= sp_room (blob_pool self);
  hr_pending : n <= sp_room (pending_pool self);
}.

(** What is not touched by moving transactions between the sub-pools. *)
Definition frame self self' : Prop :=
  sender_info self' = sender_info self /\ config self' = config self /\
  all_transactions self' = all_transactions self /\
  latest_update_kind self' = latest_update_kind self.

#[export] Instance frame_preorder : PreOrder frame.
Proof. split; unfold frame; [done|]. intros a b c. naive_solver congruence. Qed.

Definition fits (p : SubPool) v : Prop := AllTxs.tx_ok v /\ (p = Blob -> vis_eip4844 v = true).

Lemma remove_from_subpool_ok self p i n :
  pools_ok self -> has_room self n ->
  exists self', remove_from_subpool self p i = Some (self', subpool_txs self p !! i) /\
    pools_ok self' /\ has_room self' n /\ frame self self' /\
    (forall q, subpool_txs self' q =
       if decide (q = p) then delete i (subpool_txs self p) else subpool_txs self q).
Proof.
  intros [O1 O2 O3 O4] [R1 R2 R3 R4]. destruct p; simpl.
  - destruct (sp_remove_ok (queued_pool self) i O1) as (p' & Hr & Hok & Ht & Hroom).
    simpl in Hr. rewrite Hr. simpl. eexists. split; [done|]. split_and!; [done| |done|].
    + split; simpl; try done. simpl in *. lia.
    + intros []; done.
  - destruct (sp_remove_ok (basefee_pool self) i O2) as (p' & Hr & Hok & Ht & Hroom).
    simpl in Hr. rewrite Hr. simpl. eexists. split; [done|]. split_and!; [done| |done|].
    + split; simpl; try done. simpl in *. lia.
    + intros []; done.
  - destruct (sp_remove_ok (blob_pool self) i O3) as (p' & Hr & Hok & Ht & Hroom).
    simpl in Hr. apply (inj Some) in Hr. rewrite Hr. simpl. eexists. split; [done|].
    split_and!; [done| |done|].
    + split; simpl; try done. simpl in *. lia.
    + intros []; done.
  - destruct (sp_remove_ok (pending_pool self) i O4) as (p' & Hr & Hok & Ht & Hroom).
    simpl in Hr. apply (inj Some) in Hr. rewrite Hr. simpl. eexists. split; [done|].
    split_and!; [done| |done|].
    + split; simpl; try done. simpl in *. lia.
    + intros []; done.
Qed.

Lemma add_to_subpool_ok self p v n :
  pools_ok self -> has_room self (n + 1) -> 0 <= n -> fits p v ->
  subpool_txs self p !! transaction_id v = None ->
  exists self', add_transaction_to_subpool self p v = Some self' /\
    pools_ok self' /\ has_room self' n /\ frame self self' /\
    (forall q, subpool_txs self' q =
       if decide (q = p) then <[transaction_id v := v]> (subpool_txs self p) else subpool_txs self q).
Proof.
  intros [O1 O2 O3 O4] [R1 R2 R3 R4] Hn [(F1 & F2 & F3 & F4) Fb] Hnew. destruct p; simpl.
  - destruct (sp_add_ok 0 (queued_pool self) v O1 Hnew) as (p' & Hr & Hok & Ht & Hroom);
      [apply F2|lia|]. simpl in Hr. apply (inj Some) in Hr. rewrite Hr. eexists. split; [done|].
    split_and!; [done| |done|by intros []]. split; simpl in *; lia.
  - destruct (sp_add_ok 0 (basefee_pool self) v O2 Hnew) as (p' & Hr & Hok & Ht & Hroom);
      [apply F2|lia|]. simpl in Hr. apply (inj Some) in Hr. rewrite Hr. eexists. split; [done|].
    split_and!; [done| |done|by intros []]. split; simpl in *; lia.
  - destruct (sp_add_ok 0 (blob_pool self) v O3 Hnew) as (p' & Hr & Hok & Ht & Hroom);
      [split_and!; auto|lia|]. simpl in Hr. rewrite Hr. simpl. eexists. split; [done|].
    split_and!; [done| |done|by intros []]. split; simpl in *; lia.
  - destruct (sp_add_ok (base_fee (fees self)) (pending_pool self) v O4 Hnew) as (p' & Hr & Hok & Ht & Hroom);
      [by split|lia|]. simpl in Hr. apply (inj Some) in Hr. rewrite Hr. eexists. split; [done|].
    split_and!; [done| |done|by intros []]. split; simpl in *; lia.
Qed.

(** ** Locations *)

(** The sub-pools hold exactly the transactions of [loc], where it says. *)
Record at_locs self (loc : Locs) (n : Z) : Prop := {
  al_pools : pools_ok self;
  al_room : has_room self n;
  al_placed p i v : subpool_txs self p !! i = Some v <-> loc !! i = Some (v, p);
}.

Lemma at_locs_room self loc n n' : at_locs self loc n -> n' <= n -> at_locs self loc n'.
Proof. intros [A [] C] Hle. split; [done| |done]. split; lia. Qed.

Lemma al_absent self loc n p i :
  at_locs self loc n -> (forall v, loc !! i <> Some (v, p)) -> subpool_txs self p !! i = None.
Proof.
  intros [_ _ Hp] Hne. destruct (subpool_txs self p !! i) as [v|] eqn:E; [|done].
  apply Hp in E. by destruct (Hne v).
Qed.

Lemma remove_located self loc n p i v :
  at_locs self loc n -> loc !! i = Some (v, p) ->
  exists self', remove_from_subpool self p i = Some (self', Some v) /\
    at_locs self' (delete i loc) n /\ frame self self'.
Proof.
  intros [Hok Hr Hp] Hi.
  destruct (remove_from_subpool_ok self p i n Hok Hr) as (self' & Heq & Hok' & Hr' & Hf & Ht).
  exists self'. rewrite Heq. split_and!; [by rewrite (proj2 (Hp p i v) Hi)| |done].
  split; [done|done|]. intros q j w. rewrite Ht, lookup_delete_Some, <- Hp.
  case_decide as Hq; [subst q; by rewrite lookup_delete_Some|].
  split; [|tauto]. intros Hw. split; [|done]. intros <-. apply Hp in Hw. congruence.
Qed.

Lemma remove_not_located self loc n p i :
  at_locs self loc n -> (forall v, loc !! i <> Some (v, p)) ->
  exists self', remove_from_subpool self p i = Some (self', None) /\
    at_locs self' loc n /\ frame self self'.
Proof.
  intros Hal Hi. pose proof (al_absent _ _ _ p i Hal Hi) as Hnone. destruct Hal as [Hok Hr Hp].
  destruct (remove_from_subpool_ok self p i n Hok Hr) as (self' & Heq & Hok' & Hr' & Hf & Ht).
  exists self'. rewrite Heq, Hnone. split_and!; [done| |done]. split; [done|done|].
  intros q j w. rewrite Ht. case_decide as Hq; [|apply Hp]. subst q. rewrite delete_id by done. apply Hp.
Qed.

Lemma add_located self loc n p v :
  at_locs self loc (n + 1) -> 0 <= n -> loc !! transaction_id v = None -> fits p v ->
  exists self', add_transaction_to_subpool self p v = Some self' /\
    at_locs self' (<[transaction_id v := (v, p)]> loc) n /\ frame self self'.
Proof.
  intros Hal Hn Hi Hfit.
  assert (Hnone : forall q, subpool_txs self q !! transaction_id v = None).
  { intros q. apply (al_absent _ _ _ q _ Hal). intros w. by rewrite Hi. }
  destruct Hal as [Hok Hr Hp].
  destruct (add_to_subpool_ok self p v n Hok Hr Hn Hfit (Hnone p)) as (self' & Heq & Hok' & Hr' & Hf & Ht).
  exists self'. split_and!; [done| |done]. split; [done|done|]. intros q j w. rewrite Ht.
  destruct (decide (transaction_id v = j)) as [<-|Hj].
  - rewrite lookup_insert_eq. case_decide as Hq; [subst q; rewrite lookup_insert_eq; naive_solver|].
    rewrite Hnone. naive_solver.
  - rewrite lookup_insert_ne by done. case_decide as Hq; [|apply Hp]. subst q.
    rewrite lookup_insert_ne by done. apply Hp.
Qed.

Lemma move_located self loc n from to i v :
  at_locs self loc (n + 1) -> 0 <= n -> loc !! i = Some (v, from) -> transaction_id v = i ->
  fits to v ->
  exists self', move_transaction self from to i = Some (self', Some v) /\
    at_locs self' (<[i := (v, to)]> loc) n /\ frame self self'.
Proof.
  intros Hal Hn Hi Hid Hfit. unfold move_transaction.
  destruct (remove_located self loc (n + 1) from i v Hal Hi) as (s1 & -> & Hal1 & Hf1). simpl.
  destruct (add_located s1 (delete i loc) n to v Hal1 Hn) as (s2 & -> & Hal2 & Hf2);
    [rewrite Hid; apply lookup_delete_eq|done|].
  simpl. exists s2. rewrite Hid, insert_delete_eq in Hal2. split_and!; [done|done|by etrans].
Qed.

(** A transaction recorded for the blob pool is a blob transaction. *)
Lemma settled_fits t :
  AllTxs.settled t -> AllTxs.tx_ok (AllTxs.it_transaction t) ->
  fits (AllTxs.it_subpool t) (AllTxs.it_transaction t).
Proof.
  intros [(Hu & Hb & _) Hp] Hv. split; [done|]. intros Hblob. rewrite Hp, into_subpool_flags in Hblob by done.
  rewrite <- Hb. destruct (TxState.contains _ BLOB_TRANSACTION); [done|].
  by repeat case_match.
Qed.


Lemma at_locs_all self a loc n : at_locs self loc n -> at_locs (with_all self a) loc n.
Proof. intros [[] [] Hp]. split; [by split|by split|]. intros [] i v; [apply (Hp Queued)|apply (Hp BaseFee)|apply (Hp Blob)|apply (Hp TxState.Pending)]. Qed.

Lemma at_locs_senders self s loc n : at_locs self loc n -> at_locs (with_senders self s) loc n.
Proof. intros [[] [] Hp]. split; [by split|by split|]. intros [] i v; [apply (Hp Queued)|apply (Hp BaseFee)|apply (Hp Blob)|apply (Hp TxState.Pending)]. Qed.

Lemma at_locs_kind self k loc n : at_locs self loc n -> at_locs (with_kind self k) loc n.
Proof. intros [[] [] Hp]. split; [by split|by split|]. intros [] i v; [apply (Hp Queued)|apply (Hp BaseFee)|apply (Hp Blob)|apply (Hp TxState.Pending)]. Qed.

(** ** Carrying out updates *)

Lemma synced_moved m loc u us t p :
  AllTxs.synced m loc (u :: us) -> update_destination u = ToPool p -> m !! update_id u = Some t ->
  AllTxs.synced m (<[update_id u := (AllTxs.it_transaction t, p)]> loc) us.
Proof.
  intros [Hnd Ho Hu] Hd Ht. rewrite fmap_cons, NoDup_cons in Hnd. destruct Hnd as [Hu1 Hnd].
  destruct (Hu u) as (t' & Ht' & Hl & Hp); [set_solver|]. rewrite Hd in Hp. simplify_eq.
  split; [done| |].
  - intros i Hi. destruct (decide (update_id u = i)) as [<-|Hne].
    + rewrite lookup_insert_eq. unfold AllTxs.locs. by rewrite lookup_fmap, Ht.
    + rewrite lookup_insert_ne by done. apply Ho. set_solver.
  - intros w Hw. rewrite lookup_insert_ne; [apply Hu; set_solver|].
    intros Heq. apply Hu1. rewrite Heq. by apply list_elem_of_fmap_2.
Qed.

Lemma synced_discarded m loc u us :
  AllTxs.synced m loc (u :: us) ->
  AllTxs.synced (delete (update_id u) m) (delete (update_id u) loc) us.
Proof.
  intros [Hnd Ho Hu]. rewrite fmap_cons, NoDup_cons in Hnd. destruct Hnd as [Hu1 Hnd].
  split; [done| |].
  - intros i Hi. unfold AllTxs.locs. rewrite fmap_delete.
    destruct (decide (update_id u = i)) as [<-|Hne]; [by rewrite !lookup_delete_eq|].
    rewrite !lookup_delete_ne by done. apply Ho. set_solver.
  - intros w Hw.
    assert (update_id u <> update_id w) as Hne
      by (intros Heq; apply Hu1; rewrite Heq; by apply list_elem_of_fmap_2).
    destruct (Hu w) as (t & Ht & Hl & Hp); [set_solver|].
    exists t. by rewrite !lookup_delete_ne.
Qed.

Lemma synced_length m loc us : AllTxs.synced m loc us -> (length us <= size m)%nat.
Proof.
  intros [Hnd _ Hu]. rewrite <- (length_fmap update_id), <- size_dom.
  rewrite <- (size_list_to_set (C := gset TransactionId)) by done.
  apply subseteq_size. intros i (u & -> & Hin)%elem_of_list_to_set%list_elem_of_fmap.
  destruct (Hu u Hin) as (t & Ht & _). apply elem_of_dom. eauto.
Qed.

(** Fields that no removal or move writes. *)
Definition same_settings self self' : Prop :=
  sender_info self' = sender_info self /\ config self' = config self /\
  latest_update_kind self' = latest_update_kind self /\ fees self' = fees self.

#[export] Instance same_settings_preorder : PreOrder same_settings.
Proof. split; unfold same_settings; [done|]. intros a b c. naive_solver congruence. Qed.

Lemma frame_settings self self' : frame self self' -> same_settings self self'.
Proof. unfold frame, same_settings, fees. intros (-> & -> & -> & ->). done. Qed.

(** Removing from the set of all and then from the recorded sub-pool; [loc]
    may be behind or ahead elsewhere. *)
Lemma remove_recorded self loc n i t :
  AllTxs.all_ok (all_transactions self) -> all_txs self !! i = Some t ->
  at_locs self loc n -> loc !! i = Some (AllTxs.loc_of t) ->
  exists self', remove_from_subpool (with_all self (AllTxs.removed (all_transactions self) i t))
      (AllTxs.it_subpool t) (transaction_id (AllTxs.it_transaction t))
      = Some (self', Some (AllTxs.it_transaction t)) /\
    at_locs self' (delete i loc) n /\ same_settings self self' /\
    all_transactions self' = AllTxs.removed (all_transactions self) i t.
Proof.
  intros Hok Ht Hal Hi.
  destruct (AllTxs.ao_tx _ Hok i _ (AllTxs.pool_txs_lookup _ _ _ Ht)) as [Hid _]. rewrite Hid.
  set (s0 := with_all _ _). pose proof (at_locs_all self _ loc n Hal : at_locs s0 loc n) as Hal0.
  destruct (remove_located s0 loc n _ i _ Hal0 Hi) as (s1 & -> & Hal1 & Hf).
  exists s1. split_and!; [done|done| |by destruct Hf as (_ & _ & -> & _)].
  etrans; [|by apply frame_settings]. done.
Qed.

(** The transactions with identifiers [ids]. *)
Definition txs_at (m : gmap TransactionId AllTxs.PoolInternalTransaction) (ids : list TransactionId)
  : list ValidPoolTransaction := omap (fun i => AllTxs.it_transaction <$> m !! i) ids.

Definition is_discard (u : PoolUpdate) : bool :=
  match update_destination u with Discard => true | _ => false end.
Definition is_promotion (u : PoolUpdate) : bool :=
  match update_destination u with ToPool TxState.Pending => true | _ => false end.

Definition discards (us : list PoolUpdate) : list TransactionId :=
  update_id <$> List.filter is_discard us.
Definition promotions (us : list PoolUpdate) : list TransactionId :=
  update_id <$> List.filter is_promotion us.

(** The report of the updates [us] made to the set [m]. *)
Definition reported m (us : list PoolUpdate) (outcome : UpdateOutcome) : UpdateOutcome :=
  mkUpdateOutcome (promoted outcome ++ txs_at m (promotions us))
    (discarded outcome ++ txs_at m (discards us)).

Lemma txs_at_delete m i ids : i ∉ ids -> txs_at (delete i m) ids = txs_at m ids.
Proof.
  induction ids as [|j ids IH]; simpl; [done|]. rewrite not_elem_of_cons. intros [Hj Hi].
  by rewrite lookup_delete_ne, IH.
Qed.

Lemma filter_ids f us i : i ∈ update_id <$> List.filter f us -> i ∈ update_id <$> us.
Proof.
  intros (u & -> & Hu)%list_elem_of_fmap. apply list_elem_of_fmap_2.
  by apply list_elem_of_In, filter_In in Hu as [?%list_elem_of_In _].
Qed.

Lemma reported_discard m us u t outcome :
  update_id u ∉ update_id <$> us -> m !! update_id u = Some t -> update_destination u = Discard ->
  reported (delete (update_id u) m) us
    (mkUpdateOutcome (promoted outcome) (discarded outcome ++ [AllTxs.it_transaction t]))
  = reported m (u :: us) outcome.
Proof.
  intros Hu Ht Hd. unfold reported, discards, promotions. simpl.
  rewrite !txs_at_delete by (intros ?%filter_ids; done).
  unfold is_discard at 2, is_promotion at 2. rewrite Hd. simpl. rewrite Ht. simpl. by rewrite <- app_assoc.
Qed.

Lemma reported_move m us u t p outcome :
  m !! update_id u = Some t -> update_destination u = ToPool p ->
  reported m us
    (match p with
     | TxState.Pending => mkUpdateOutcome (promoted outcome ++ [AllTxs.it_transaction t]) (discarded outcome)
     | _ => outcome
     end)
  = reported m (u :: us) outcome.
Proof.
  intros Ht Hd. unfold reported, discards, promotions. simpl.
  unfold is_discard at 2, is_promotion at 2. rewrite Hd. destruct p; simpl; [done..|].
  rewrite Ht. simpl. by rewrite <- app_assoc.
Qed.

(** After the updates every transaction is where it is recorded; [extra]
    stands for transactions already dropped from the set of all. *)
Lemma process_updates_ok us self extra loc n outcome :
  AllTxs.all_ok (all_transactions self) ->
  at_locs self (extra ∪ loc) (n + Z.of_nat (length us)) -> 0 <= n ->
  (forall i, is_Some (extra !! i) -> all_txs self !! i = None) ->
  AllTxs.synced (all_txs self) loc us ->
  exists self', process_updates self us outcome = Some (self', reported (all_txs self) us outcome) /\
    AllTxs.all_ok (all_transactions self') /\
    at_locs self' (extra ∪ AllTxs.locs (all_txs self')) n /\
    all_txs self' = delete_ids (all_txs self) (discards us) /\ same_settings self self'.
Proof.
  revert self loc outcome. induction us as [|u us IH]; intros self loc outcome Hok Hal Hn Hex Hsy.
  { apply AllTxs.synced_done in Hsy as ->. exists self. unfold reported. simpl. rewrite !app_nil_r.
    destruct outcome. split_and!; try done. apply (at_locs_room _ _ _ _ Hal). simpl. lia. }
  destruct (AllTxs.sy_update _ _ _ Hsy u) as (t & Ht & Hl & Hp); [set_solver|].
  assert (Hexu : extra !! update_id u = None).
  { destruct (extra !! update_id u) eqn:E; [|done]. rewrite Hex in Ht by eauto. done. }
  pose proof (AllTxs.pool_txs_lookup _ _ _ Ht) as Hv.
  destruct (AllTxs.ao_tx _ Hok _ _ Hv) as [Hid Htx].
  assert (Hnd : update_id u ∉ update_id <$> us).
  { pose proof (AllTxs.sy_NoDup _ _ _ Hsy) as Hnd. rewrite fmap_cons, NoDup_cons in Hnd. tauto. }
  pose proof (reported_discard (all_txs self) us u t outcome Hnd Ht) as Hrd.
  pose proof (fun p => reported_move (all_txs self) us u t p outcome Ht) as Hrm.
  rewrite length_cons in Hal. destruct u as [i cur d]. simpl in *.
  assert (Hli : (extra ∪ loc) !! i = Some (AllTxs.it_transaction t, cur)) by (by rewrite lookup_union_r).
  destruct d as [|p].
  - unfold prune_transaction_by_id. rewrite AllTxs.remove_transaction_by_id_spec, Ht by done.
    destruct (remove_recorded self _ _ i t Hok Ht Hal) as (s1 & Hr & Hal1 & Hs1 & Ha1).
    { rewrite Hli. unfold AllTxs.loc_of. by rewrite Hp. }
    simpl. rewrite Hr. simpl. rewrite <- Hrd by done.
    edestruct (IH s1 (delete i loc)) as (s2 & -> & Hok2 & Hal2 & Hsub & Hset2).
    + rewrite Ha1. by apply AllTxs.removed_ok.
    + apply (at_locs_room _ _ _ (n + Z.of_nat (length us))) in Hal1; [|lia].
      by rewrite delete_union, (delete_id extra) in Hal1.
    + done.
    + intros j Hj. rewrite Ha1. simpl. apply lookup_delete_None. right. auto.
    + rewrite Ha1. simpl. apply (synced_discarded _ _ _ _ Hsy).
    + exists s2. rewrite Ha1 in Hsub |- *. split_and!; [done|done|done|done|by etrans].
  - assert (Hfit : fits p (AllTxs.it_transaction t)).
    { subst p. apply settled_fits; [by apply (AllTxs.ao_settled _ Hok i)|done]. }
    destruct (move_located self _ (n + Z.of_nat (length us)) cur p i _
      ltac:(by apply (at_locs_room _ _ _ _ Hal); lia) ltac:(lia) Hli Hid Hfit) as (s1 & -> & Hal1 & Hf).
    simpl. pose proof Hf as (_ & _ & Ha1 & _). rewrite <- (Hrm p) by done.
    edestruct (IH s1 (<[i := (AllTxs.it_transaction t, p)]> loc)
      (match p with TxState.Pending => mkUpdateOutcome (promoted outcome ++ [AllTxs.it_transaction t])
        (discarded outcome) | _ => outcome end)) as (s2 & Heq & Hok2 & Hal2 & Hsub & Hset2).
    + by rewrite Ha1.
    + by rewrite insert_union_r in Hal1.
    + done.
    + by rewrite Ha1.
    + rewrite Ha1. by apply (synced_moved _ _ _ _ t p Hsy).
    + exists s2. rewrite Ha1 in Hsub, Heq. split_and!; [by destruct p|done|done|done|].
      etrans; [by apply frame_settings|done].
Qed.

(** ** The invariant *)

(** The transactions [T] are still in the set of all but no longer in a
    sub-pool; everything else is where it is recorded. *)
Record pool_inv self (T : list TransactionId) (n : Z) : Prop := {
  pi_all : AllTxs.all_ok (all_transactions self);
  pi_locs : at_locs self (delete_ids (AllTxs.locs (all_txs self)) T) n;
  pi_fees : BlobTxs.fees_ok (fees self);
}.

Abbreviation pool_ok self n := (pool_inv self [] n).

Lemma pool_inv_room self T n n' : pool_inv self T n -> n' <= n -> pool_inv self T n'.
Proof. intros [A B C] Hle. split; [done| |done]. by apply (at_locs_room _ _ n). Qed.

Lemma pool_ok_new conf n :
  BlobTxs.fees_ok pending_fees_default -> n <= u64_modulus - 1 -> pool_ok (pool_new conf) n.
Proof.
  intros Hf Hn. split; [apply AllTxs.all_ok_new| |done]. split.
  - split; [apply Parked.parked_ok_default|apply Parked.parked_ok_default| |apply Pending.pending_ok_new].
    apply BlobTxs.blob_ok_default, Hf.
  - split; simpl; lia.
  - intros q i v. simpl. unfold AllTxs.locs. rewrite fmap_empty, lookup_empty.
    destruct q; simpl; unfold Parked.txs, BlobTxs.txs, Pending.txs; simpl;
      by rewrite fmap_empty, lookup_empty.
Qed.

Lemma locs_delete m T i :
  delete i (delete_ids (AllTxs.locs m) T) = delete_ids (AllTxs.locs (delete i m)) T.
Proof.
  apply map_eq. intros j. unfold AllTxs.locs. rewrite fmap_delete, lookup_delete_ids.
  destruct (decide (i = j)) as [<-|Hne]; [rewrite !lookup_delete_eq; by case_bool_decide|].
  by rewrite !lookup_delete_ne, lookup_delete_ids by done.
Qed.

Lemma with_all_id self : with_all self (all_transactions self) = self.
Proof. by destruct self. Qed.

Lemma fees_ok_settings self self' :
  same_settings self self' -> BlobTxs.fees_ok (fees self) -> BlobTxs.fees_ok (fees self').
Proof. by intros (_ & _ & _ & ->). Qed.

(** A transaction leaves the set of all and its sub-pool, if it is still in it. *)
Lemma remove_internal_ok self T n i t :
  pool_inv self T n -> all_txs self !! i = Some t ->
  exists self' r, remove_from_subpool (with_all self (AllTxs.removed (all_transactions self) i t))
      (AllTxs.it_subpool t) (transaction_id (AllTxs.it_transaction t)) = Some (self', r) /\
    pool_inv self' T n /\ same_settings self self' /\
    all_transactions self' = AllTxs.removed (all_transactions self) i t /\
    (i ∉ T -> r = Some (AllTxs.it_transaction t)) /\ (i ∈ T -> r = None).
Proof.
  intros [Hok Hal Hf] Ht. pose proof (AllTxs.removed_ok _ i t Hok Ht) as Hok'.
  destruct (decide (i ∈ T)) as [HT|HT].
  - destruct (AllTxs.ao_tx _ Hok i _ (AllTxs.pool_txs_lookup _ _ _ Ht)) as [Hid _]. rewrite Hid.
    set (s0 := with_all _ _). pose proof (at_locs_all self _ _ n Hal : at_locs s0 _ n) as Hal0.
    destruct (remove_not_located s0 _ n (AllTxs.it_subpool t) i Hal0) as (s1 & -> & Hal1 & Hfr).
    { intros v. by rewrite lookup_delete_ids, bool_decide_eq_true_2. }
    assert (Hset : same_settings self s1) by (etrans; [|by apply frame_settings]; done).
    assert (Ha : all_transactions s1 = AllTxs.removed (all_transactions self) i t)
      by (by destruct Hfr as (_ & _ & -> & _)).
    exists s1, None. split_and!; [done| |done|done|done|done].
    split; [by rewrite Ha| |by eapply fees_ok_settings]. rewrite Ha. simpl. rewrite <- locs_delete.
    rewrite delete_id; [done|]. by rewrite lookup_delete_ids, bool_decide_eq_true_2.
  - destruct (remove_recorded self _ n i t Hok Ht Hal) as (s1 & -> & Hal1 & Hset & Ha).
    { rewrite lookup_delete_ids, bool_decide_eq_false_2 by done.
      unfold AllTxs.locs. by rewrite lookup_fmap, Ht. }
    exists s1, (Some (AllTxs.it_transaction t)). split_and!; [done| |done|done|done|done].
    split; [by rewrite Ha| |by eapply fees_ok_settings]. rewrite Ha. simpl. by rewrite <- locs_delete.
Qed.

Lemma remove_transaction_inv self T n i :
  pool_inv self T n ->
  exists self' r, remove_transaction self i = Some (self', r) /\ pool_inv self' T n /\
    same_settings self self' /\ all_txs self' = delete i (all_txs self) /\
    (i ∉ T -> r = AllTxs.it_transaction <$> all_txs self !! i) /\ (i ∈ T -> r = None).
Proof.
  intros Hinv. unfold remove_transaction. rewrite AllTxs.remove_transaction_spec by apply Hinv.
  destruct (all_txs self !! i) as [t|] eqn:Ht.
  - destruct (remove_internal_ok self T n i t Hinv Ht) as (s1 & r & Hr & Hi & Hs & Ha & Hres & Hnone).
    exists s1, r. simpl. rewrite Hr. split_and!; [done|done|done|by rewrite Ha|done|done].
  - exists self, None. rewrite with_all_id, delete_id by done. by split_and!.
Qed.

Lemma prune_by_id_inv self n i :
  pool_ok self n ->
  exists self', prune_transaction_by_id self i
      = Some (self', AllTxs.it_transaction <$> all_txs self !! i) /\
    pool_ok self' n /\ same_settings self self' /\ all_txs self' = delete i (all_txs self).
Proof.
  intros Hinv. unfold prune_transaction_by_id. rewrite AllTxs.remove_transaction_by_id_spec by apply Hinv.
  destruct (all_txs self !! i) as [t|] eqn:Ht.
  - destruct (remove_internal_ok self [] n i t Hinv Ht) as (s1 & r & Hr & Hi & Hs & Ha & Hres & _).
    exists s1. simpl. rewrite Hr, Hres by set_solver. split_and!; [done|done|done|by rewrite Ha].
  - exists self. rewrite with_all_id, delete_id by done. by split_and!.
Qed.

(** What is left of the set of all after the transaction with a hash is removed. *)
Definition without_hash self (h : Z) : gmap TransactionId AllTxs.PoolInternalTransaction :=
  match get self h with
  | Some v => delete (transaction_id v) (all_txs self)
  | None => all_txs self
  end.

Lemma prune_by_hash_inv self n h :
  pool_ok self n ->
  exists self', prune_transaction_by_hash self h = Some (self', get self h) /\
    pool_ok self' n /\ same_settings self self' /\ all_txs self' = without_hash self h.
Proof.
  intros Hinv. unfold prune_transaction_by_hash, without_hash, get.
  pose proof (AllTxs.remove_transaction_by_hash_spec (all_transactions self) h (pi_all _ _ _ Hinv)) as Hspec.
  destruct (AllTxs.by_hash _ !! h) as [v|] eqn:Hh.
  - destruct Hspec as (t & Ht & Hv & _ & ->). rewrite <- Hv in Ht |- *.
    destruct (remove_internal_ok self [] n _ t Hinv Ht) as (s1 & r & Hr & Hi & Hs & Ha & Hres & _).
    exists s1. simpl. rewrite Hr, Hres by set_solver. split_and!; [done|done|done|by rewrite Ha].
  - rewrite Hspec. exists self. rewrite with_all_id. by split_and!.
Qed.


(** ** Removal by hash parks the descendants *)

Lemma no_discards us : Forall (fun u => is_discard u = false) us -> discards us = [].
Proof. unfold discards. induction 1 as [|u us Hu _ IH]; [done|]. simpl. by rewrite Hu. Qed.

Lemma park_no_discards (a : AllTxs.AllTransactions) i :
  discards (AllTxs.park_descendant_transactions a i).2 = [].
Proof.
  apply no_discards. simpl. apply Forall_concat, Forall_fmap, Forall_fmap, Forall_forall.
  intros [j t] _. simpl. unfold AllTxs.park_one. simpl. case_bool_decide; by repeat constructor.
Qed.

Lemma locs_with m i t :
  m !! i = Some t -> AllTxs.locs m = {[i := AllTxs.loc_of t]} ∪ AllTxs.locs (delete i m).
Proof.
  intros Hi. rewrite <- insert_union_singleton_l. unfold AllTxs.locs.
  by rewrite <- fmap_insert, insert_delete_id.
Qed.

Lemma remove_by_hash_inv self n h :
  pool_ok self (n + Z.of_nat (size (all_txs self))) -> 0 <= n ->
  exists self', remove_transaction_by_hash self h = Some (self', get self h) /\
    pool_ok self' n /\ same_settings self self' /\
    AllTxs.pool_txs (all_txs self') = AllTxs.pool_txs (without_hash self h).
Proof.
  intros Hinv Hn. pose proof Hinv as [Hok Hal Hf]. unfold remove_transaction_by_hash, without_hash, get.
  pose proof (AllTxs.remove_transaction_by_hash_spec (all_transactions self) h Hok) as Hspec.
  destruct (AllTxs.by_hash _ !! h) as [v|] eqn:Hh.
  2:{ rewrite Hspec. exists self. rewrite with_all_id. split_and!; try done.
      apply (pool_inv_room _ _ _ _ Hinv). lia. }
  destruct Hspec as (t & Ht & Hv & _ & ->). set (i := transaction_id v) in *. unfold AllTxs.loc_of at 1.
  pose proof (AllTxs.removed_ok _ i t Hok Ht) as Hok1. set (a := AllTxs.removed _ i t) in *.
  destruct (AllTxs.park_ok a (transaction_id (AllTxs.it_transaction t)) Hok1) as (Hok2 & Hpt & Hsy & Hfees).
  pose proof (park_no_discards a (transaction_id (AllTxs.it_transaction t))) as Hnd.
  rewrite Hv in *. fold i in Hok2, Hpt, Hsy, Hfees, Hnd |- *.
  destruct (AllTxs.park_descendant_transactions a i) as [a2 us]. simpl in Hok2, Hpt, Hsy, Hfees, Hnd.
  assert (Hi2 : AllTxs.txs a2 !! i = None).
  { assert (AllTxs.pool_txs (AllTxs.txs a2) !! i = None) as Hx.
    { rewrite Hpt. unfold AllTxs.pool_txs. rewrite lookup_fmap. simpl. by rewrite lookup_delete_eq. }
    unfold AllTxs.pool_txs in Hx. by rewrite lookup_fmap, fmap_None in Hx. }
  assert (Hlen : (length us <= size (all_txs self))%nat).
  { apply synced_length in Hsy. rewrite <- AllTxs.pool_txs_size, Hpt, AllTxs.pool_txs_size in Hsy.
    pose proof (map_subseteq_size _ _ (delete_subseteq (all_txs self) i)). simpl in Hsy. lia. }
  destruct (process_updates_ok us (with_all self a2) {[i := AllTxs.loc_of t]} (AllTxs.locs (AllTxs.txs a)) n
    update_outcome_default) as (s2 & -> & Hok3 & Hal3 & Hm3 & Hset).
  - done.
  - apply at_locs_all. simpl. rewrite <- locs_with by done. apply (at_locs_room _ _ _ _ Hal). lia.
  - done.
  - intros j [x [<- _]%lookup_singleton_Some]. done.
  - done.
  - rewrite Hnd in Hm3. simpl in Hm3 |- *.
    destruct (remove_located s2 _ n (AllTxs.it_subpool t) i v Hal3) as (s3 & -> & Hal4 & Hf4).
    { rewrite (lookup_union_Some_l _ _ _ _ (lookup_singleton_eq _ _)). unfold AllTxs.loc_of. by rewrite Hv. }
    pose proof Hf4 as (_ & _ & Ha4 & _).
    assert (Hset3 : same_settings self s3).
    { etrans; [|by apply frame_settings]. destruct Hset as (? & ? & ? & Hfe).
      split_and!; [done|done|done|]. by rewrite Hfe. }
    exists s3. split_and!; [done| |done|].
    + split; [by rewrite Ha4| |by eapply fees_ok_settings]. rewrite Ha4, Hm3. simpl.
      rewrite <- insert_union_singleton_l, delete_insert_id in Hal4; [by rewrite Hm3 in Hal4|].
      rewrite Hm3. unfold AllTxs.locs. by rewrite lookup_fmap, Hi2.
    + by rewrite Ha4, Hm3, Hpt.
Qed.


(** The transactions left when all with one of the hashes are removed. *)
Definition without_hashes (m : TxMap) (hs : list Z) : TxMap :=
  filter (fun e => vhash e.2 ∉ hs) m.

Lemma without_hash_txs self h :
  AllTxs.all_ok (all_transactions self) ->
  AllTxs.pool_txs (without_hash self h) = without_hashes (AllTxs.pool_txs (all_txs self)) [h].
Proof.
  intros Hok. unfold without_hash, get, without_hashes.
  apply map_eq. intros i. apply option_eq. intros v.
  rewrite map_lookup_filter_Some. simpl. rewrite list_elem_of_singleton.
  destruct (AllTxs.by_hash _ !! h) as [w|] eqn:Hh.
  - pose proof Hh as [Hwh Hw]%(AllTxs.ao_hash _ Hok). unfold AllTxs.pool_txs at 1.
    rewrite fmap_delete, lookup_delete_Some. split.
    + intros [Hne Hv]. split; [done|]. intros Heq.
      destruct (AllTxs.ao_tx _ Hok i v Hv) as [Hid _].
      assert (AllTxs.by_hash (all_transactions self) !! h = Some v) as Hv'
        by (apply (AllTxs.ao_hash _ Hok); by rewrite Hid).
      congruence.
    + intros [Hv Hne]. split; [|done]. intros <-. unfold AllTxs.pool_txs in Hv, Hw. congruence.
  - split; [|tauto]. intros Hv. split; [done|]. intros Heq.
    destruct (AllTxs.ao_tx _ Hok i v Hv) as [Hid _].
    assert (AllTxs.by_hash (all_transactions self) !! h = Some v) as Hv'
      by (apply (AllTxs.ao_hash _ Hok); by rewrite Hid).
    congruence.
Qed.

Lemma without_hashes_cons m h hs :
  without_hashes (without_hashes m [h]) hs = without_hashes m (h :: hs).
Proof.
  apply map_eq. intros i. apply option_eq. intros v. unfold without_hashes.
  rewrite !map_lookup_filter_Some. set_solver.
Qed.

Lemma pool_txs_le m m' :
  AllTxs.pool_txs m' ⊆ AllTxs.pool_txs m -> (size m' <= size m)%nat.
Proof. intros Hsub%map_subseteq_size. by rewrite !AllTxs.pool_txs_size in Hsub. Qed.

Lemma remove_transactions_inv hs self n :
  pool_ok self (n + Z.of_nat (length hs * size (all_txs self))) -> 0 <= n ->
  exists self' removed, remove_transactions self hs = Some (self', removed) /\
    pool_ok self' n /\ same_settings self self' /\
    AllTxs.pool_txs (all_txs self') = without_hashes (AllTxs.pool_txs (all_txs self)) hs.
Proof.
  revert self. induction hs as [|h hs IH]; intros self Hinv Hn; simpl.
  { exists self, []. split_and!; [done| |done|].
    - apply (pool_inv_room _ _ _ _ Hinv). simpl. lia.
    - unfold without_hashes. rewrite map_filter_id; [done|set_solver]. }
  set (k := size (all_txs self)) in *.
  destruct (remove_by_hash_inv self (n + Z.of_nat (length hs * k)) h) as (s1 & -> & Hinv1 & Hs1 & Hp1);
    [apply (pool_inv_room _ _ _ _ Hinv); simpl; lia|lia|].
  rewrite without_hash_txs in Hp1 by apply Hinv.
  assert (Hk : (size (all_txs s1) <= k)%nat).
  { apply pool_txs_le. rewrite Hp1. apply map_filter_subseteq. }
  destruct (IH s1) as (s2 & r2 & Heq & Hinv2 & Hs2 & Hp2); [|done|].
  { apply (pool_inv_room _ _ _ _ Hinv1). nia. }
  exists s2, (match get self h with Some tx => tx :: r2 | None => r2 end).
  cbn. rewrite Heq. simpl. split_and!; [done|done|by etrans|].
  by rewrite Hp2, Hp1, without_hashes_cons.
Qed.

(** ** Removing descendants *)

Lemma elem_of_descendants (a : AllTxs.AllTransactions) i j t :
  (j, t) ∈ AllTxs.descendant_txs_exclusive a i <->
  AllTxs.txs a !! j = Some t /\ sender j = sender i /\ nonce i < nonce j.
Proof.
  unfold AllTxs.descendant_txs_exclusive.
  rewrite (take_while_sorted entry_le); [|apply filter_sorted, bt_entries_sorted|].
  - rewrite bt_range_after_elem, Z.eqb_eq. unfold key_le; simpl. unfold id_le.
    split; [|intros (? & ? & ?); split_and!; [done|lia| |done]; intros ->; lia].
    intros ((? & ? & Hne) & Hs). split_and!; [done|done|].
    destruct (decide (nonce i = nonce j)) as [Hn|]; [|lia]. destruct Hne. destruct i, j; simpl in *; congruence.
  - intros [x a1] [y a2] (_ & Hx & _)%bt_range_after_elem _ Hle Hne. simpl in *. bools.
    apply Z.eqb_neq. unfold entry_le, key_le in *; simpl in *. unfold id_le in *. lia.
Qed.

(** The first one has the lowest nonce. *)
Lemma descendants_first (a : AllTxs.AllTransactions) i d t l j t' :
  AllTxs.descendant_txs_exclusive a i = (d, t) :: l ->
  AllTxs.txs a !! j = Some t' -> sender j = sender i -> nonce i < nonce j -> nonce d <= nonce j.
Proof.
  intros Hl Hj Hs Hn.
  assert (Hd : (d, t) ∈ AllTxs.descendant_txs_exclusive a i) by (rewrite Hl; set_solver).
  apply elem_of_descendants in Hd as (_ & Hsd & _).
  assert (Hin : (j, t') ∈ AllTxs.descendant_txs_exclusive a i) by (by apply elem_of_descendants).
  assert (Hsort : StronglySorted entry_le (AllTxs.descendant_txs_exclusive a i))
    by apply take_while_StronglySorted, filter_sorted, bt_entries_sorted.
  rewrite Hl in Hin, Hsort. apply elem_of_cons in Hin as [[= -> ->]|Hin]; [done|].
  apply StronglySorted_inv in Hsort as [_ Hall]. rewrite Forall_forall in Hall. specialize (Hall _ Hin).
  unfold entry_le, key_le in Hall; simpl in Hall. unfold id_le in Hall. lia.
Qed.

(** The set without the transactions of the sender of [i] with a higher nonce. *)
Definition without_descendants (m : gmap TransactionId AllTxs.PoolInternalTransaction) i
  : gmap TransactionId AllTxs.PoolInternalTransaction :=
  filter (fun e => ~ (sender e.1 = sender i /\ nonce i < nonce e.1)) m.

Lemma remove_descendants_inv fuel self T n i acc :
  pool_inv self T n -> (size (all_txs self) < fuel)%nat ->
  exists self' removed, remove_descendants fuel self i acc = Some (self', acc ++ removed) /\
    pool_inv self' T n /\ same_settings self self' /\
    all_txs self' = without_descendants (all_txs self) i.
Proof.
  revert self i acc. induction fuel as [|fuel IH]; intros self i acc Hinv Hlt; [lia|]. simpl.
  destruct (AllTxs.descendant_txs_exclusive (all_transactions self) i) as [|[d t] l] eqn:El.
  - exists self, []. rewrite app_nil_r. split_and!; try done. symmetry. apply map_filter_id.
    intros j t Hj [Hs Hn]. simpl in *.
    assert (Hin : (j, t) ∈ AllTxs.descendant_txs_exclusive (all_transactions self) i)
      by (by apply elem_of_descendants).
    rewrite El in Hin. set_solver.
  - assert (Hd : (d, t) ∈ AllTxs.descendant_txs_exclusive (all_transactions self) i)
      by (rewrite El; set_solver).
    apply elem_of_descendants in Hd as (Hd & Hsd & Hnd).
    destruct (remove_transaction_inv self T n d Hinv) as (s1 & r & -> & Hinv1 & Hs1 & Hm1 & _).
    cbn. destruct (IH s1 d (match r with Some tx => acc ++ [tx] | None => acc end) Hinv1)
      as (s2 & r2 & -> & Hinv2 & Hs2 & Hm2).
    { rewrite Hm1. rewrite <- (insert_delete_id _ _ _ Hd), map_size_insert_None in Hlt
        by apply lookup_delete_eq. lia. }
    exists s2, (match r with Some tx => tx :: r2 | None => r2 end).
    split_and!; [by destruct r; rewrite <- ?app_assoc|done|by etrans|].
    rewrite Hm2, Hm1. apply map_eq. intros j. apply option_eq. intros t'. unfold without_descendants.
    rewrite !map_lookup_filter_Some, lookup_delete_Some. simpl. split.
    + intros ((Hne & Hj) & Hnot). split; [done|]. intros [Hs Hn].
      pose proof (descendants_first _ _ _ _ _ _ _ El Hj Hs Hn).
      apply Hnot. split; [congruence|]. destruct (decide (nonce d = nonce j)); [|lia].
      destruct Hne. destruct d, j; simpl in *; congruence.
    + intros (Hj & Hnot). split_and!; [|done|].
      * intros <-. by apply Hnot.
      * intros [Hs Hn]. apply Hnot. split; [congruence|lia].
Qed.
End inv.

(** Nothing is in flight, and [n] additions are possible. *)
Abbreviation pool_ok self n := (pool_inv self [] n).

End PoolInv.
