(* ===== verification/TxPoolOps.v ===== *)
(** * The operations of the pool keep the invariant

    Adding, removing, account changes and fee changes: each returns (no panic,
    enough fuel), leaves every transaction in the sub-pool recorded for it, and
    changes the set of transactions as stated. *)

From S2P Require Import Prelude Ordered TxErrors TxIdentifier TxState TxTypes SubPoolSpec.
From S2P Require Import ParkedPool PendingPool BlobFee BlobPool AllTransactions TxPool TxPoolInv.
Import TxErrors Identifier TxState TxTypes SubPoolSpec BlobFee.
Import Pool PoolInv.

Module PoolOps.

Section ops.
Context `{AlloyConstants} {ordering : TransactionOrdering}.
Implicit Types (self : TxPool) (v : ValidPoolTransaction) (i : TransactionId).

(** ** Removing with descendants, and by sender *)

#[local] Arguments remove_descendants : simpl never.

(** Transaction [i] is [w] or has the same sender and a higher nonce. *)
Definition behind (w : ValidPoolTransaction) i : Prop :=
  sender i = vsender_id w /\ nonce (transaction_id w) <= nonce i.

Lemma behind_trans w w' i : behind w (transaction_id w') -> behind w' i -> behind w i.
Proof. unfold behind, vsender_id. intros [] []. split; [congruence|lia]. Qed.

Lemma get_spec self T n h w :
  pool_inv self T n ->
  get self h = Some w <-> vhash w = h /\ AllTxs.pool_txs (all_txs self) !! transaction_id w = Some w.
Proof. intros Hinv. apply (AllTxs.ao_hash _ (pi_all _ _ _ Hinv)). Qed.

Lemma without_descendants_txs m i j v :
  AllTxs.pool_txs (without_descendants m i) !! j = Some v <->
  AllTxs.pool_txs m !! j = Some v /\ ~ (sender j = sender i /\ nonce i < nonce j).
Proof.
  unfold AllTxs.pool_txs, without_descendants. rewrite !lookup_fmap, !fmap_Some.
  setoid_rewrite map_lookup_filter_Some. naive_solver.
Qed.

(** One hash: the transaction and all behind it. *)
Lemma remove_one_and_descendants self s1 n w i v :
  pool_ok self n -> AllTxs.pool_txs (all_txs self) !! transaction_id w = Some w ->
  AllTxs.pool_txs (all_txs s1) = without_hashes (AllTxs.pool_txs (all_txs self)) [vhash w] ->
  AllTxs.pool_txs (without_descendants (all_txs s1) (transaction_id w)) !! i = Some v <->
  AllTxs.pool_txs (all_txs self) !! i = Some v /\ ~ behind w i.
Proof.
  intros Hinv Hw Hs1. rewrite without_descendants_txs, Hs1.
  unfold without_hashes, behind, vsender_id. rewrite map_lookup_filter_Some, list_elem_of_singleton. simpl.
  split.
  - intros [[Hi Hne] Hnot]. split; [done|]. intros [Hs Hn].
    destruct (decide (nonce (transaction_id w) = nonce i)); [|naive_solver lia].
    assert (i = transaction_id w) as -> by (destruct i, (transaction_id w); simpl in *; congruence).
    congruence.
  - intros [Hi Hnot]. split_and!; [done| |naive_solver lia].
    intros Heq. apply Hnot. destruct (AllTxs.ao_tx _ (pi_all _ _ _ Hinv) i v Hi) as [Hid _].
    assert (get self (vhash w) = Some w) as G1 by (by apply (get_spec _ _ _ _ _ Hinv)).
    assert (get self (vhash w) = Some v) as G2
      by (apply (get_spec _ _ _ _ _ Hinv); by rewrite Hid).
    assert (v = w) as -> by congruence. rewrite <- Hid. split; [done|lia].
Qed.

Lemma remove_and_descendants_inv hs self n acc :
  pool_ok self (n + Z.of_nat (length hs * size (all_txs self))) -> 0 <= n ->
  exists self' removed, remove_transactions_and_descendants self hs acc = Some (self', acc ++ removed) /\
    pool_ok self' n /\ same_settings self self' /\
    (forall i v, AllTxs.pool_txs (all_txs self') !! i = Some v <->
       AllTxs.pool_txs (all_txs self) !! i = Some v /\
       forall h w, h ∈ hs -> get self h = Some w -> ~ behind w i).
Proof.
  revert self acc. induction hs as [|h hs IH]; intros self acc Hinv Hn; simpl.
  { exists self, []. rewrite app_nil_r. split_and!; [done| |done|set_solver].
    apply (pool_inv_room _ _ _ _ Hinv). simpl. lia. }
  set (k := size (all_txs self)) in *.
  destruct (remove_by_hash_inv self (n + Z.of_nat (length hs * k)) h) as (s1 & -> & Hinv1 & Hs1 & Hp1);
    [apply (pool_inv_room _ _ _ _ Hinv); simpl; lia|lia|].
  rewrite without_hash_txs in Hp1 by apply Hinv. simpl.
  assert (Hk1 : (size (all_txs s1) <= k)%nat).
  { apply pool_txs_le. rewrite Hp1. apply map_filter_subseteq. }
  destruct (get self h) as [w|] eqn:Hw.
  - pose proof Hw as [<- Hwm]%(get_spec _ _ _ _ _ Hinv).
    destruct (remove_descendants_inv (descendants_fuel s1) s1 [] _ (transaction_id w) (acc ++ [w]) Hinv1)
      as (s2 & r2 & -> & Hinv2 & Hs2 & Hm2); [unfold descendants_fuel; lia|].
    pose proof (fun i v => remove_one_and_descendants self s1 _ w i v Hinv Hwm Hp1) as Hone.
    rewrite <- Hm2 in Hone.
    assert (Hk2 : (size (all_txs s2) <= k)%nat).
    { rewrite Hm2. etrans; [|done]. apply map_subseteq_size, map_filter_subseteq. }
    destruct (IH s2 ((acc ++ [w]) ++ r2)) as (s3 & r3 & Heq & Hinv3 & Hs3 & Hp3); [|done|].
    { apply (pool_inv_room _ _ _ _ Hinv2). nia. }
    exists s3, (w :: r2 ++ r3). cbn. rewrite Heq. split_and!; [by rewrite <- !app_assoc|done|by do 2 etrans|].
    intros i v. rewrite Hp3, Hone. split.
    + intros ([Hi Hnw] & Hall). split; [done|]. intros h' w' Hh' Hw' Hb.
      apply elem_of_cons in Hh' as [->|Hh']; [congruence|].
      destruct (AllTxs.pool_txs (all_txs s2) !! transaction_id w') as [x|] eqn:Hx.
      * pose proof Hx as [Hx1 _]%Hone.
        pose proof Hw' as [Hh1 Hx2]%(get_spec _ _ _ _ _ Hinv).
        apply (Hall h' w'); [done| |done]. apply (get_spec _ _ _ _ _ Hinv2). split; [done|congruence].
      * apply (get_spec _ _ _ _ _ Hinv) in Hw' as [_ Hw'].
        apply Hnw. eapply behind_trans; [|done]. apply dec_stable. intros Hnb.
        assert (AllTxs.pool_txs (all_txs s2) !! transaction_id w' = Some w') by (by apply Hone). congruence.
    + intros (Hi & Hall). split_and!; [done|by apply (Hall (vhash w)); [set_solver|]|].
      intros h' w' Hh' Hw'. apply (Hall h'); [set_solver|].
      apply (get_spec _ _ _ _ _ Hinv2) in Hw' as [Hx [Hw' _]%Hone].
      by apply (get_spec _ _ _ _ _ Hinv).
  - destruct (IH s1 acc) as (s3 & r3 & Heq & Hinv3 & Hs3 & Hp3); [|done|].
    { apply (pool_inv_room _ _ _ _ Hinv1). nia. }
    assert (Hsame : AllTxs.pool_txs (all_txs s1) = AllTxs.pool_txs (all_txs self)).
    { rewrite Hp1. apply map_filter_id. intros i v Hi Hh%list_elem_of_singleton. simpl in Hh.
      destruct (AllTxs.ao_tx _ (pi_all _ _ _ Hinv) i v Hi) as [Hid _].
      assert (get self h = Some v); [|congruence]. apply (get_spec _ _ _ _ _ Hinv). by rewrite Hid. }
    exists s3, r3. split_and!; [done|done|by etrans|]. intros i v. rewrite Hp3, Hsame.
    assert (Hg : forall h' w', get s1 h' = Some w' <-> get self h' = Some w').
    { intros h' w'. by rewrite (get_spec _ _ _ _ _ Hinv1), (get_spec _ _ _ _ _ Hinv), Hsame. }
    setoid_rewrite Hg. setoid_rewrite elem_of_cons. split; [|naive_solver].
    intros [Hi Hall]. split; [done|]. intros h' w' [->|Hh'] Hw'; [congruence|eauto].
Qed.

Lemma remove_all_inv ids self n :
  pool_ok self n -> NoDup ids ->
  exists self', remove_all self ids = Some (self', txs_at (all_txs self) ids) /\
    pool_ok self' n /\ same_settings self self' /\ all_txs self' = delete_ids (all_txs self) ids.
Proof.
  revert self. induction ids as [|i ids IH]; intros self Hinv Hnd; simpl; [by exists self|].
  apply NoDup_cons in Hnd as [Hi Hnd].
  destruct (remove_transaction_inv self [] n i Hinv) as (s1 & r & -> & Hinv1 & Hs1 & Hm1 & Hr & _). simpl.
  destruct (IH s1 Hinv1 Hnd) as (s2 & -> & Hinv2 & Hs2 & Hm2).
  exists s2. simpl. rewrite Hr by set_solver. rewrite Hm1 in Hm2 |- *. rewrite txs_at_delete by done.
  split_and!; [by destruct (_ <$> _)|done|by etrans|done].
Qed.

Lemma remove_by_sender_inv self n s :
  pool_ok self n ->
  exists self' removed, remove_transactions_by_sender self s = Some (self', removed) /\
    pool_ok self' n /\ same_settings self self' /\
    all_txs self' = filter (fun e => sender e.1 <> s) (all_txs self).
Proof.
  intros Hinv. pose proof (pi_all _ _ _ Hinv) as Hok. unfold remove_transactions_by_sender.
  assert (Hids : transaction_id <$> get_transactions_by_sender self s
    = (sender_range (start_bound s) (all_txs self)).*1).
  { unfold get_transactions_by_sender, AllTxs.txs_iter. rewrite <- list_fmap_compose.
    apply list_fmap_ext. intros k [i t] Hk%list_elem_of_lookup_2. simpl.
    apply elem_of_sender_range in Hk as (Hi & _). by apply (AllTxs.entry_ok_of _ i t Hok). }
  rewrite Hids.
  destruct (remove_all_inv _ self n Hinv (sender_range_keys_NoDup (start_bound s) (all_txs self)))
    as (s1 & -> & Hinv1 & Hs1 & Hm1).
  exists s1, (txs_at (all_txs self) (sender_range (start_bound s) (all_txs self)).*1).
  split_and!; [done|done|done|]. rewrite Hm1. apply map_eq. intros i. apply option_eq. intros t.
  rewrite lookup_delete_ids, map_lookup_filter_Some. simpl. case_bool_decide as Hin.
  - apply list_elem_of_fmap in Hin as ([j t'] & -> & (Hj & Hs & _)%elem_of_sender_range).
    simpl in *. naive_solver.
  - split; [|tauto]. intros Hi. split; [done|]. intros Hs. apply Hin.
    apply (list_elem_of_fmap_2 fst _ (i, t)). apply elem_of_sender_range. split_and!; [done|done|].
    apply AllTxs.pool_txs_lookup in Hi. apply (AllTxs.ao_tx _ Hok) in Hi as [<- (_ & [? _] & _)]. done.
Qed.

(** ** Account changes *)

(** The nonce of [i] is already used by its sender. *)
Definition stale (changed : gmap SenderId SenderInfo) i : Prop :=
  match changed !! sender i with Some info => nonce i < state_nonce info | None => False end.

#[export] Instance stale_dec changed i : Decision (stale changed i).
Proof. unfold stale. destruct (changed !! sender i); apply _. Defined.

Lemma discards_app us us' : discards (us ++ us') = discards us ++ discards us'.
Proof. unfold discards. by rewrite List.filter_app, fmap_app. Qed.

Lemma record_no_discards t : discards (AllTxs.record_subpool_update t).2 = [].
Proof. unfold AllTxs.record_subpool_update. simpl. by case_bool_decide. Qed.

(** The sender whose transactions the loop will not look at again as a first one. *)
Definition mode_sender (mode : AllTxs.UpdateMode) : option SenderId :=
  match mode with
  | AllTxs.AtHead => None
  | AllTxs.SkipSender s | AllTxs.InChain s _ _ _ _ => Some s
  end.

Lemma update_head_discards changed bf i t :
  transaction_id (AllTxs.it_transaction t) = i ->
  let r := AllTxs.update_head changed bf i t in
  if bool_decide (stale changed i) then mode_sender r.1.1 = None /\ discards r.2 = [i]
  else mode_sender r.1.1 = Some (sender i) /\ discards r.2 = [].
Proof.
  intros Hid. unfold AllTxs.update_head.
  assert (Hcont : forall b t1,
    let r := (if has_nonce_gap (AllTxs.it_state t1) then (AllTxs.SkipSender (sender i), t1, [])
       else
        let tx2 := AllTxs.update_tx_base_fee bf (AllTxs.state_insert t1 NO_PARKED_ANCESTORS) in
        let '(tx3, us) := AllTxs.record_subpool_update tx2 in
        (AllTxs.InChain (sender i) (saturating_add_u64 (vnonce (AllTxs.it_transaction tx3)) 1)
           (AllTxs.next_cumulative_cost tx3) (negb (is_pending (AllTxs.it_state tx3))) b, tx3, us)) in
    mode_sender r.1.1 = Some (sender i) /\ discards r.2 = []).
  { intros b t1. destruct (has_nonce_gap _); [done|]. cbv zeta.
    match goal with |- context [AllTxs.record_subpool_update ?x] =>
      pose proof (record_no_discards x) as Hd; destruct (AllTxs.record_subpool_update x) end.
    done. }
  destruct (changed !! sender i) as [info|] eqn:Ec.
  - destruct (Z.ltb_spec (nonce i) (state_nonce info)).
    + rewrite bool_decide_eq_true_2 by (unfold stale; by rewrite Ec). simpl. unfold discards. simpl. by rewrite Hid.
    + rewrite bool_decide_eq_false_2 by (unfold stale; rewrite Ec; lia). apply Hcont.
  - rewrite bool_decide_eq_false_2 by (unfold stale; rewrite Ec; tauto). apply Hcont.
Qed.

Lemma update_step_discards changed bf mode i t :
  transaction_id (AllTxs.it_transaction t) = i ->
  (mode_sender mode = Some (sender i) -> ~ stale changed i) ->
  let r := AllTxs.update_step changed bf mode i t in
  if bool_decide (stale changed i) then mode_sender r.1.1 = None /\ discards r.2 = [i]
  else mode_sender r.1.1 = Some (sender i) /\ discards r.2 = [].
Proof.
  intros Hid Hm. unfold AllTxs.update_step. destruct mode as [|s|s k c parked b]; simpl in Hm.
  - by apply update_head_discards.
  - destruct (Z.eqb_spec (sender i) s) as [Hs|]; [|by apply update_head_discards].
    rewrite bool_decide_eq_false_2 by (apply Hm; congruence). simpl. by rewrite Hs.
  - destruct (Z.eqb_spec (sender i) s) as [Hs|]; simpl; [|by apply update_head_discards].
    rewrite bool_decide_eq_false_2 by (apply Hm; congruence).
    destruct (_ =? k); [|simpl; by rewrite Hs]. unfold AllTxs.update_chain. cbv zeta.
    match goal with |- context [AllTxs.record_subpool_update ?x] =>
      pose proof (record_no_discards x) as Hd; destruct (AllTxs.record_subpool_update x) end.
    simpl. by rewrite Hs.
Qed.

Lemma update_loop_discards changed bf mode l i :
  StronglySorted entry_le l -> Forall AllTxs.entry_ok l ->
  (forall j t, (j, t) ∈ l -> mode_sender mode = Some (sender j) -> ~ stale changed j) ->
  i ∈ discards (AllTxs.update_loop changed bf mode l).2 <-> i ∈ l.*1 /\ stale changed i.
Proof.
  intros Hs Hok. revert mode. induction Hs as [|[j t] l Hs IH Hall]; intros mode Hm; simpl.
  { unfold discards. simpl. set_solver. }
  apply Forall_cons in Hok as [[Hid _] Hok]. simpl in Hid.
  pose proof (update_step_discards changed bf mode j t Hid (Hm j t ltac:(set_solver))) as Hstep.
  destruct (AllTxs.update_step changed bf mode j t) as [[mode' t'] us]. simpl in Hstep.
  specialize (IH Hok mode'). destruct (AllTxs.update_loop changed bf mode' l) as [l' rest]. simpl in *.
  rewrite discards_app, elem_of_app, IH, elem_of_cons.
  - case_bool_decide; destruct Hstep as [_ ->]; set_solver.
  - intros k tk Hk Hmk. rewrite Forall_forall in Hall. specialize (Hall _ Hk).
    unfold entry_le, key_le in Hall; simpl in Hall. unfold id_le in Hall.
    case_bool_decide as Hst; destruct Hstep as [Hms _]; [congruence|].
    assert (sender j = sender k) as Hsk by congruence. unfold stale in *. rewrite <- Hsk.
    destruct (changed !! sender j); [lia|done].
Qed.

Lemma update_discards (a : AllTxs.AllTransactions) changed i :
  AllTxs.all_ok a ->
  i ∈ discards (AllTxs.update a changed).2 <-> is_Some (AllTxs.txs a !! i) /\ stale changed i.
Proof.
  intros Hok. unfold AllTxs.update.
  pose proof (update_loop_discards changed (base_fee (AllTxs.pending_fees a)) AllTxs.AtHead
    (bt_entries (AllTxs.txs a)) i) as Hd.
  destruct (AllTxs.update_loop _ _ _ _) as [l us]. simpl in *. rewrite Hd, elem_of_bt_keys; [done| | |done].
  - apply bt_entries_sorted.
  - apply Forall_forall. intros [j t] Hj%elem_of_bt_entries. by apply (AllTxs.entry_ok_of a).
Qed.

(** Deleting the entries of identifiers evicts their transactions. *)
Lemma txs_at_ids m ids :
  (forall i, i ∈ ids -> exists t, m !! i = Some t /\ transaction_id (AllTxs.it_transaction t) = i) ->
  transaction_id <$> txs_at m ids = ids.
Proof.
  unfold txs_at. induction ids as [|i ids IH]; intros Hin; csimpl; [done|].
  destruct (Hin i) as (t & -> & Hid); [by left|]. csimpl. rewrite Hid, IH; [done|].
  intros j Hj. apply Hin. by right.
Qed.

Lemma elem_of_txs_at m ids v :
  v ∈ txs_at m ids <-> exists i, i ∈ ids /\ AllTxs.pool_txs m !! i = Some v.
Proof.
  unfold txs_at, AllTxs.pool_txs. rewrite list_elem_of_omap. by setoid_rewrite lookup_fmap.
Qed.

Lemma evicts_txs_at m ids :
  (forall i v, AllTxs.pool_txs m !! i = Some v -> transaction_id v = i) ->
  NoDup ids -> (forall i, i ∈ ids -> is_Some (m !! i)) ->
  evicts (AllTxs.pool_txs m) (txs_at m ids) (AllTxs.pool_txs (delete_ids m ids)).
Proof.
  intros Hkey Hnd Hin.
  assert (Hids : transaction_id <$> txs_at m ids = ids).
  { apply txs_at_ids. intros i Hi. destruct (Hin i Hi) as [t Ht]. exists t. split; [done|].
    apply Hkey. by apply AllTxs.pool_txs_lookup. }
  apply evicts_intro; rewrite ?Hids; [done| |].
  - intros v (i & Hi & Hv)%elem_of_txs_at. by rewrite (Hkey i v Hv).
  - intros i. unfold AllTxs.pool_txs. rewrite !lookup_fmap, lookup_delete_ids. by case_bool_decide.
Qed.

Lemma update_accounts_inv self n changed :
  pool_ok self (n + Z.of_nat (size (all_txs self))) -> 0 <= n ->
  let r := AllTxs.update (all_transactions self) changed in
  exists self', update_accounts self changed =
      Some (self', reported (AllTxs.txs r.1) r.2 update_outcome_default) /\
    pool_ok self' n /\ sender_info self' = changed ∪ sender_info self /\
    config self' = config self /\ fees self' = fees self /\
    all_txs self' = delete_ids (AllTxs.txs r.1) (discards r.2) /\
    AllTxs.pool_txs (all_txs self') = filter (fun e => ~ stale changed e.1) (AllTxs.pool_txs (all_txs self)) /\
    evicts (AllTxs.pool_txs (all_txs self)) (txs_at (AllTxs.txs r.1) (discards r.2))
      (AllTxs.pool_txs (all_txs self')).
Proof.
  intros [Hok Hal Hf] Hn r. unfold update_accounts.
  destruct (AllTxs.update_ok (all_transactions self) changed Hok) as (Hok1 & Hpt & Hsy & Hfees).
  pose proof (fun i => update_discards (all_transactions self) changed i Hok) as Hd.
  fold r in Hok1, Hpt, Hsy, Hfees, Hd |- *. destruct r as [a us]. simpl in *.
  assert (Hlen : (length us <= size (all_txs self))%nat).
  { apply synced_length in Hsy. by rewrite <- AllTxs.pool_txs_size, Hpt, AllTxs.pool_txs_size in Hsy. }
  set (s0 := with_senders _ _).
  destruct (process_updates_ok us s0 ∅ (AllTxs.locs (all_txs self)) n update_outcome_default)
    as (s1 & -> & Hok2 & Hal2 & Hm2 & Hset2); [done| |done|by intros i [x Hx]; rewrite lookup_empty in Hx|done|].
  { rewrite map_empty_union. apply at_locs_senders, at_locs_all, (at_locs_room _ _ _ _ Hal). lia. }
  destruct Hset2 as (Hs1 & Hs2 & Hs3 & Hs4). rewrite map_empty_union in Hal2.
  assert (Hfe : fees s1 = fees self) by (rewrite Hs4; unfold fees; simpl; by rewrite Hfees).
  exists s1. split_and!; try done.
  - split; [done|done|by rewrite Hfe].
  - rewrite Hm2. apply map_eq. intros i. apply option_eq. intros v. rewrite map_lookup_filter_Some. simpl.
    unfold AllTxs.pool_txs in *. rewrite lookup_fmap, lookup_delete_ids. simpl.
    assert (Hi : (AllTxs.it_transaction <$> AllTxs.txs a !! i) = (AllTxs.it_transaction <$> all_txs self !! i)).
    { by rewrite <- !lookup_fmap, Hpt. }
    rewrite lookup_fmap. case_bool_decide as Hin.
    + apply Hd in Hin as [_ ?]. naive_solver.
    + rewrite Hi. split; [|tauto]. intros Hv. split; [done|]. intros Hst. apply Hin, Hd. split; [|done].
      destruct (all_txs self !! i); [eauto|done].
  - rewrite Hm2. simpl. change (AllTxs.pool_txs (all_txs self)) with (AllTxs.pool_txs (AllTxs.txs (all_transactions self))).
    rewrite <- Hpt. apply evicts_txs_at.
    + intros i v Hv. by apply (AllTxs.ao_tx _ Hok1) in Hv as [? _].
    + unfold discards. destruct Hsy as [Hnd _ _ _ _]. clear -Hnd.
      induction us as [|u us IH]; simpl in *; [constructor|]. apply NoDup_cons in Hnd as [Hu Hnd].
      destruct (is_discard u); [|auto]. simpl. constructor; [|auto]. intros Hin. by apply Hu, (filter_ids is_discard).
    + intros i Hi. apply Hd in Hi as [[t Ht] _]. apply AllTxs.pool_txs_lookup in Ht. rewrite <- Hpt in Ht.
      unfold AllTxs.pool_txs in Ht. rewrite lookup_fmap in Ht. by destruct (AllTxs.txs a !! i).
Qed.

Lemma prune_mined_inv hs self n :
  pool_ok self n ->
  exists self', prune_mined self hs = Some self' /\ pool_ok self' n /\ same_settings self self' /\
    AllTxs.pool_txs (all_txs self') = without_hashes (AllTxs.pool_txs (all_txs self)) hs.
Proof.
  revert self. induction hs as [|h hs IH]; intros self Hinv; simpl.
  { exists self. split_and!; try done. symmetry. apply map_filter_id. set_solver. }
  destruct (prune_by_hash_inv self n h Hinv) as (s1 & -> & Hinv1 & Hs1 & Hm1). simpl.
  destruct (IH s1 Hinv1) as (s2 & -> & Hinv2 & Hs2 & Hm2).
  exists s2. split_and!; [done|done|by etrans|].
  by rewrite Hm2, Hm1, without_hash_txs, without_hashes_cons by apply Hinv.
Qed.

Lemma locs_Some m i v p :
  AllTxs.locs m !! i = Some (v, p) <->
  exists t, m !! i = Some t /\ AllTxs.it_transaction t = v /\ AllTxs.it_subpool t = p.
Proof.
  unfold AllTxs.locs, AllTxs.loc_of. rewrite lookup_fmap, fmap_Some. naive_solver.
Qed.

(** ** Adding *)

Lemma traverse_no_discards ins bal k c parked st l :
  discards (AllTxs.insert_traverse ins bal k c parked st l).2 = [].
Proof.
  revert k c parked st. induction l as [|[i t] l IH]; intros k c parked st; cbn [AllTxs.insert_traverse]; [done|].
  destruct (negb _); [done|]. set (t' := AllTxs.insert_one bal c parked t).
  destruct (bool_decide (ins = i));
    (match goal with |- context [AllTxs.insert_traverse ?a ?b ?c ?d ?e ?f l] =>
       specialize (IH c d e f); destruct (AllTxs.insert_traverse a b c d e f l) as [[l' st'] rest] end;
     simpl in *; rewrite ?discards_app, IH).
  - done.
  - by case_bool_decide.
Qed.

Lemma insert_tx_no_discards (a : AllTxs.AllTransactions) v bal ocn a' r :
  AllTxs.insert_tx a v bal ocn = Some (Ok (a', r)) -> discards (AllTxs.io_updates r) = [].
Proof. intros Hins%AllTxs.insert_tx_inv. cbv zeta in Hins. destruct_and! Hins. subst r. apply traverse_no_discards. Qed.

(** The new transaction takes its place, a replaced one gives it up. *)
Lemma add_new_transaction_inv self (m : gmap TransactionId AllTxs.PoolInternalTransaction) v p n :
  at_locs self (AllTxs.locs m) (n + 1) -> 0 <= n -> fits p v ->
  (forall t, m !! transaction_id v = Some t -> transaction_id (AllTxs.it_transaction t) = transaction_id v) ->
  exists self', add_new_transaction self v (AllTxs.loc_of <$> m !! transaction_id v) p = Some self' /\
    at_locs self' (<[transaction_id v := (v, p)]> (AllTxs.locs m)) n /\ frame self self'.
Proof.
  intros Hal Hn Hfit Hid. unfold add_new_transaction.
  destruct (m !! transaction_id v) as [t|] eqn:Ht; simpl.
  - rewrite (Hid t) by done.
    destruct (remove_located self _ (n + 1) (AllTxs.it_subpool t) (transaction_id v) (AllTxs.it_transaction t) Hal)
      as (s1 & -> & Hal1 & Hf1).
    { unfold AllTxs.locs. by rewrite lookup_fmap, Ht. }
    simpl. destruct (add_located s1 _ n p v Hal1 Hn) as (s2 & -> & Hal2 & Hf2);
      [apply lookup_delete_eq|done|].
    exists s2. rewrite insert_delete_eq in Hal2. split_and!; [done|done|by etrans].
  - destruct (add_located self _ n p v Hal Hn) as (s2 & -> & Hal2 & Hf2); [|done|].
    { unfold AllTxs.locs. by rewrite lookup_fmap, Ht. }
    by exists s2.
Qed.

(** What the returned value says. *)
Definition added_transaction (a : AddedTransaction) : ValidPoolTransaction :=
  match a with AddedPending tx _ _ _ | AddedParked tx _ _ _ => tx end.
Definition added_replaced (a : AddedTransaction) : option ValidPoolTransaction :=
  match a with AddedPending _ r _ _ | AddedParked _ r _ _ => r end.
Definition added_subpool (a : AddedTransaction) : SubPool :=
  match a with AddedPending _ _ _ _ => TxState.Pending | AddedParked _ _ p _ => p end.
Definition added_discarded (a : AddedTransaction) : list ValidPoolTransaction :=
  match a with AddedPending _ _ _ d => d | AddedParked _ _ _ _ => [] end.

(** The cached accounts with the one of the sender of [v]. *)
Definition account_cached self v (bal ocn : Z) : gmap SenderId SenderInfo := <[vsender_id v := mkSenderInfo ocn bal]> (sender_info self).

(** What an addition does to the rest of the pool. *)
Definition add_outcome self v (bal ocn : Z) self' (r : result AddedTransaction PoolError) : Prop :=
  match r with
  | Ok a => get self (vhash v) = None /\
      AllTxs.pool_txs (all_txs self') = <[transaction_id v := v]> (AllTxs.pool_txs (all_txs self)) /\
      added_transaction a = v /\
      added_replaced a = AllTxs.pool_txs (all_txs self) !! transaction_id v /\
      subpool_txs self' (added_subpool a) !! transaction_id v = Some v /\ added_discarded a = [] /\
      sender_info self' = account_cached self v bal ocn
  | Err e => (self' = self /\ (get self (vhash v) <> None -> e = mkPoolError (vhash v) AlreadyImported)) \/
      (get self (vhash v) = None /\ self' = with_senders self (account_cached self v bal ocn))
  end.

Lemma add_transaction_inv self n v bal ocn code :
  pool_ok self (n + Z.of_nat (size (all_txs self)) + 2) -> 0 <= n -> AllTxs.tx_ok v -> ocn <= vnonce v ->
  Z.of_nat (size (all_txs self)) + 1 < u64_modulus ->
  exists self' r, add_transaction self v bal ocn code = Some (self', r) /\ pool_ok self' n /\
    config self' = config self /\ fees self' = fees self /\ add_outcome self v bal ocn self' r.
Proof.
  intros Hinv Hn Hv Hnonce Hroom. pose proof Hinv as [Hok Hal Hf]. unfold add_transaction.
  assert (Hinv0 : forall s, pool_ok (with_senders self s) n).
  { intros s. split; [done| |done]. apply at_locs_senders, (at_locs_room _ _ _ _ Hal). lia. }
  assert (Hself : self = with_senders self (sender_info self)) by (by destruct self).
  unfold contains, AllTxs.contains. destruct (AllTxs.by_hash _ !! vhash v) as [w|] eqn:Hh.
  { rewrite bool_decide_eq_true_2 by eauto. exists self. eexists. split_and!; [done| |done|done|].
    - rewrite Hself. apply Hinv0.
    - by left. }
  rewrite bool_decide_eq_false_2 by (by intros [? ?]).
  destruct (validate_auth self v ocn code) as [[]|e].
  2:{ exists self. eexists. split_and!; [done| |done|done|].
      - rewrite Hself. apply Hinv0.
      - left. split; [done|]. by rewrite <- Hh. }
  set (s0 := with_senders self _). change (all_transactions s0) with (all_transactions self).
  destruct (AllTxs.insert_tx (all_transactions self) v bal ocn) as [[[a r]|e]|] eqn:Hins.
  3:{ exfalso. unfold AllTxs.insert_tx in Hins. by rewrite (proj2 (Z.leb_le _ _) Hnonce) in Hins. }
  2:{ exists s0. eexists. split_and!; [done|apply Hinv0|done|done|]. by right. }
  pose proof (insert_tx_no_discards _ _ _ _ _ _ Hins) as Hnd.
  destruct (AllTxs.insert_tx_ok _ v bal ocn a r Hok Hv Hh Hroom Hins)
    as (Hok1 & Hio & Hpt & Hfees & Hrep & (t & Ht & Hsub & _) & Hsy).
  assert (Htv : AllTxs.it_transaction t = v).
  { apply AllTxs.pool_txs_lookup in Ht. rewrite Hpt, lookup_insert_eq in Ht. congruence. }
  assert (Hfit : fits (AllTxs.io_move_to r) v).
  { rewrite <- Hsub, <- Htv. apply settled_fits; [by apply (AllTxs.ao_settled _ Hok1 _ _ Ht)|by rewrite Htv]. }
  destruct r as [tx move_to st rep us]. simpl in *. subst tx rep.
  assert (Hlen : (length us <= S (size (all_txs self)))%nat).
  { apply synced_length in Hsy. rewrite <- AllTxs.pool_txs_size, Hpt in Hsy.
    pose proof (AllTxs.map_size_insert_le (AllTxs.pool_txs (all_txs self)) (transaction_id v) v).
    rewrite AllTxs.pool_txs_size in *. lia. }
  destruct (add_new_transaction_inv (with_all s0 a) (all_txs self) v move_to (n + Z.of_nat (length us)))
    as (s1 & -> & Hal1 & Hf1).
  { apply at_locs_all, at_locs_senders, (at_locs_room _ _ _ _ Hal). lia. }
  { lia. }
  { done. }
  { intros t' Ht'. by apply (AllTxs.entry_ok_of _ _ _ Hok Ht'). }
  simpl. pose proof Hf1 as (Hs1 & Hc1 & Ha1 & _).
  destruct (process_updates_ok us s1 ∅ _ n update_outcome_default ltac:(by rewrite Ha1)
    ltac:(by rewrite map_empty_union) Hn ltac:(by intros i [x Hx]; rewrite lookup_empty in Hx)
    ltac:(rewrite Ha1; exact Hsy)) as (s2 & -> & Hok2 & Hal2 & Hm2 & (Hs2 & Hc2 & _ & Hf2)).
  simpl. rewrite map_empty_union in Hal2. rewrite Hnd, Ha1 in Hm2. simpl in Hm2.
  assert (Hfe : fees s2 = fees self) by (rewrite Hf2; unfold fees; rewrite Ha1; exact Hfees).
  exists s2. eexists. split_and!; [done| |by rewrite Hc2, Hc1|done|].
  - split; [done|done|by rewrite Hfe].
  - simpl. split_and!; [done|by rewrite Hm2|by destruct move_to| | | |by rewrite Hs2, Hs1].
    + unfold AllTxs.pool_txs. rewrite lookup_fmap. by destruct move_to, (all_txs self !! transaction_id v).
    + replace (added_subpool _) with move_to by (by destruct move_to).
      apply (al_placed _ _ _ Hal2). rewrite Hm2. apply locs_Some. by exists t.
    + unfold reported. rewrite Hnd. by destruct move_to.
Qed.

(** The account of another sender stays as it is. *)
Lemma add_outcome_senders self v bal ocn self' r k : add_outcome self v bal ocn self' r -> k <> vsender_id v ->
  sender_info self' !! k = sender_info self !! k.
Proof.
  intros Ho Hk. assert (sender_info self' = sender_info self \/ sender_info self' = account_cached self v bal ocn) as [->| ->]; [|done|].
  - destruct r as [a|e]; simpl in Ho; [naive_solver|]. destruct Ho as [[-> _]|[_ ->]]; auto.
  - by apply lookup_insert_ne.
Qed.

(** After an error only the cached accounts may differ. *)
Lemma add_outcome_err self v bal ocn self' e : add_outcome self v bal ocn self' (Err e) -> exists s, self' = with_senders self s.
Proof. intros [[-> _]|[_ ->]]; [exists (sender_info self); by destruct self|by eexists]. Qed.

(** ** Fee changes *)

(** A sub-pool gives up transactions; nothing else changes. *)
Record gives_up self (q : SubPool) (removed : list ValidPoolTransaction) self' : Prop := {
  gu_pools : pools_ok self';
  gu_room n : has_room self n -> has_room self' n;
  gu_frame : frame self self';
  gu_other p : p <> q -> subpool_txs self' p = subpool_txs self p;
  gu_evicts : evicts (subpool_txs self q) removed (subpool_txs self' q);
}.

(** What is known of the transactions given up. *)
Definition recorded self (q : SubPool) (vs : list ValidPoolTransaction) : Prop :=
  forall v, v ∈ vs -> exists t, all_txs self !! transaction_id v = Some t /\
    AllTxs.it_transaction t = v /\ AllTxs.it_subpool t = q.

Lemma subpool_subset self n q : pool_ok self n -> subpool_txs self q ⊆ AllTxs.pool_txs (all_txs self).
Proof.
  intros [_ [_ _ Hp] _]. apply map_subseteq_spec. intros i v Hi. apply Hp in Hi. simpl in Hi.
  apply locs_Some in Hi as (t & Ht & <- & _). by apply AllTxs.pool_txs_lookup.
Qed.

Lemma gives_up_inv self q removed self' n :
  pool_ok self n -> gives_up self q removed self' ->
  pool_inv self' (transaction_id <$> removed) n /\ recorded self' q removed /\
  (length removed <= size (all_txs self))%nat.
Proof.
  intros Hinv [Gp Gr Gf Go Ge]. pose proof Hinv as [Hok [Hpo Hr Hp] Hfees].
  pose proof Gf as (_ & _ & Ha & _).
  assert (Hrec : recorded self' q removed).
  { intros v Hv%(ev_from _ _ _ Ge). rewrite Ha. apply locs_Some, Hp, Hv. }
  split_and!; [|done|].
  - split; [by rewrite Ha| |by apply (fees_ok_settings self), Hfees; apply frame_settings].
    rewrite Ha. split; [done|auto|]. intros p i v. rewrite lookup_delete_ids.
    destruct (decide (p = q)) as [->|Hpq].
    + rewrite (ev_rest _ _ _ Ge), lookup_delete_txs. case_bool_decide; [done|]. apply Hp.
    + rewrite Go by done. rewrite Hp. simpl. case_bool_decide as Hin; [|done]. split; [|done]. intros Hl.
      apply list_elem_of_fmap in Hin as (w & -> & Hw). apply Hrec in Hw as (t & Ht & _ & Hq).
      apply locs_Some in Hl as (t' & Ht' & _ & Hp'). rewrite Ha in Ht. congruence.
  - pose proof (evicts_size _ _ _ Ge). pose proof (map_subseteq_size _ _ (subpool_subset _ _ q Hinv)).
    rewrite AllTxs.pool_txs_size in *. lia.
Qed.

(** [f] only touches flags that the kinds of the transactions [vs] allow. *)
Definition restates (f : AllTxs.PoolInternalTransaction -> AllTxs.PoolInternalTransaction)
  (vs : list ValidPoolTransaction) : Prop :=
  forall t, AllTxs.it_transaction t ∈ vs -> AllTxs.coherent t ->
    AllTxs.coherent (f t) /\ AllTxs.it_transaction (f t) = AllTxs.it_transaction t.

Definition restated f (ids : list TransactionId) (m : gmap TransactionId AllTxs.PoolInternalTransaction)
  : gmap TransactionId AllTxs.PoolInternalTransaction :=
  map_imap (fun i t => Some (if bool_decide (i ∈ ids) then AllTxs.set_subpool (f t) else t)) m.

Lemma restated_nil f m : restated f [] m = m.
Proof.
  apply map_eq. intros i. unfold restated. rewrite map_lookup_imap. simpl. by destruct (m !! i).
Qed.

Lemma restated_cons f i ids m t :
  i ∉ ids -> m !! i = Some t ->
  restated f ids (<[i := AllTxs.set_subpool (f t)]> m) = restated f (i :: ids) m.
Proof.
  intros Hi Ht. apply map_eq. intros j. unfold restated. rewrite !map_lookup_imap.
  destruct (decide (i = j)) as [<-|Hne].
  - rewrite lookup_insert_eq, Ht. simpl.
    by rewrite bool_decide_eq_false_2, bool_decide_eq_true_2 by set_solver.
  - rewrite lookup_insert_ne by done. destruct (m !! j); [|done]. simpl.
    repeat case_bool_decide; set_solver.
Qed.

Lemma add_to_subpool_all self p v self' :
  add_transaction_to_subpool self p v = Some self' -> all_transactions self' = all_transactions self.
Proof.
  destruct p; simpl; try by intros [= <-]. destruct (BlobTxs.add_transaction _ _); [by intros [= <-]|done].
Qed.

(** One transaction: new state, new sub-pool. *)
Lemma relocate_step self f v T n t :
  pool_inv self (transaction_id v :: T) (n + 1) -> 0 <= n -> transaction_id v ∉ T ->
  all_txs self !! transaction_id v = Some t -> AllTxs.it_transaction t = v ->
  AllTxs.coherent (f t) -> AllTxs.it_transaction (f t) = v ->
  exists self0 self', restate self (transaction_id v) f = Some (self0, into_subpool (AllTxs.it_state (f t))) /\
    add_transaction_to_subpool self0 (into_subpool (AllTxs.it_state (f t))) v = Some self' /\
    pool_inv self' T n /\ same_settings self self' /\
    all_txs self' = <[transaction_id v := AllTxs.set_subpool (f t)]> (all_txs self).
Proof.
  intros [Hok Hal Hf] Hn HT Ht Hv Hc Hfv. unfold restate. rewrite Ht. simpl.
  set (t' := AllTxs.set_subpool (f t)). set (i := transaction_id v) in *.
  set (m' := <[i := t']> (all_txs self)). set (a' := AllTxs.with_txs (all_transactions self) m').
  set (s0 := with_all self a').
  assert (Htx : AllTxs.tx_ok v).
  { rewrite <- Hv. by apply (AllTxs.ao_tx _ Hok i), AllTxs.pool_txs_lookup. }
  assert (Hset : AllTxs.settled t') by by apply AllTxs.settle.
  assert (Hok' : AllTxs.all_ok a').
  { apply AllTxs.all_ok_rewrite; [done| |].
    - unfold m', AllTxs.pool_txs. rewrite fmap_insert. apply insert_id. rewrite lookup_fmap, Ht. simpl. congruence.
    - intros j t1 [[_ <-]|[_ Hj]]%lookup_insert_Some; [done|by apply (AllTxs.ao_settled _ Hok j)]. }
  assert (Hal0 : at_locs s0 (delete_ids (AllTxs.locs (all_txs self)) (i :: T)) (n + 1)) by by apply at_locs_all.
  destruct (add_located s0 _ n (into_subpool (AllTxs.it_state (f t))) v Hal0 Hn) as (s1 & Hadd & Hal1 & Hf1).
  { rewrite lookup_delete_ids, bool_decide_eq_true_2 by set_solver. done. }
  { pose proof (settled_fits t' Hset) as Hfit. simpl in Hfit. rewrite Hfv in Hfit. by apply Hfit. }
  exists s0, s1. pose proof Hf1 as (_ & _ & Ha1 & _).
  assert (Hss : same_settings self s1) by (etrans; [|by apply frame_settings]; done).
  split_and!; [done|done| |done|by rewrite Ha1].
  split; [by rewrite Ha1| |by eapply fees_ok_settings]. rewrite Ha1. simpl.
  replace (delete_ids (AllTxs.locs m') T)
    with (<[i := (v, into_subpool (AllTxs.it_state (f t)))]> (delete_ids (AllTxs.locs (all_txs self)) (i :: T)));
    [done|].
  apply map_eq. intros j. unfold m', AllTxs.locs. rewrite fmap_insert.
  destruct (decide (i = j)) as [<-|Hne].
  - rewrite lookup_insert_eq, lookup_delete_ids, bool_decide_eq_false_2, lookup_insert_eq by done.
    unfold AllTxs.loc_of. simpl. by rewrite Hfv.
  - rewrite lookup_insert_ne, !lookup_delete_ids, lookup_insert_ne by done.
    repeat case_bool_decide; set_solver.
Qed.

Definition is_pending_at (m : gmap TransactionId AllTxs.PoolInternalTransaction) v : bool :=
  match m !! transaction_id v with
  | Some t => subpool_is_pending (AllTxs.it_subpool t)
  | None => false
  end.

Lemma relocate_inv f removed self q n :
  pool_inv self (transaction_id <$> removed) (n + Z.of_nat (length removed)) -> 0 <= n ->
  recorded self q removed -> restates f removed -> NoDup (transaction_id <$> removed) ->
  exists self', relocate self f removed =
      Some (self', List.filter (is_pending_at (restated f (transaction_id <$> removed) (all_txs self))) removed) /\
    pool_ok self' n /\ same_settings self self' /\
    all_txs self' = restated f (transaction_id <$> removed) (all_txs self).
Proof.
  revert self. induction removed as [|v removed IH]; intros self Hinv Hn Hrec Hres Hnd; csimpl.
  { exists self. rewrite restated_nil. split_and!; try done. apply (pool_inv_room _ _ _ _ Hinv). simpl. lia. }
  rewrite fmap_cons, NoDup_cons in Hnd. destruct Hnd as [Hv Hnd].
  destruct (Hrec v) as (t & Ht & Htv & Hq); [set_solver|].
  destruct (Hres t) as [Hc Hft]; [set_solver|by apply (AllTxs.ao_settled _ (pi_all _ _ _ Hinv) _ _ Ht)|].
  destruct (relocate_step self f v (transaction_id <$> removed) (n + Z.of_nat (length removed)) t)
    as (s0 & s1 & -> & Hadd & Hinv1 & Hs1 & Hm1); [|lia|done|done|done|done|congruence|].
  { apply (pool_inv_room _ _ _ _ Hinv). rewrite length_cons. lia. }
  csimpl. rewrite Hadd. csimpl. destruct (IH s1) as (s2 & -> & Hinv2 & Hs2 & Hm2); [done|done| | |done|].
  - intros w Hw. destruct (Hrec w) as (tw & Htw & ?); [set_solver|]. exists tw. rewrite Hm1.
    rewrite lookup_insert_ne; [done|]. intros Heq. apply Hv. rewrite Heq. by apply list_elem_of_fmap_2.
  - intros t' Ht'. apply Hres. set_solver.
  - exists s2. rewrite Hm1, restated_cons in Hm2 |- * by done. rewrite fmap_cons in *.
    split_and!; [|done|by etrans|done]. 
    assert (Hp : is_pending_at (restated f (transaction_id v :: (transaction_id <$> removed)) (all_txs self)) v
      = subpool_is_pending (into_subpool (AllTxs.it_state (f t)))).
    { unfold is_pending_at, restated. rewrite map_lookup_imap, Ht. simpl.
      by rewrite bool_decide_eq_true_2 by set_solver. }
    cbn [List.filter]. by rewrite Hp.
Qed.

(** A transaction of the base-fee pool that meets the base fee is pending. *)
Lemma basefee_promotes t :
  AllTxs.settled t -> AllTxs.it_subpool t = BaseFee ->
  into_subpool (insert (AllTxs.it_state t) ENOUGH_FEE_CAP_BLOCK) = TxState.Pending.
Proof.
  intros [(Hu & Hb & He) Hp] Hq. rewrite Hq, into_subpool_flags in Hp by done. symmetry in Hp.
  destruct (TxState.contains (AllTxs.it_state t) BLOB_TRANSACTION) eqn:Eb; [by repeat case_match|].
  rewrite <- Hb in He. specialize (He eq_refl).
  rewrite into_subpool_flags by (apply insert_u8; [done|flag_in]).
  rewrite !contains_insert by (first [done|flag_in]). rewrite He. simpl.
  destruct (TxState.contains _ NO_PARKED_ANCESTORS), (TxState.contains _ NO_NONCE_GAPS),
    (TxState.contains _ ENOUGH_BALANCE), (TxState.contains _ NOT_TOO_MUCH_GAS); simpl in *;
    by repeat case_match.
Qed.

Lemma promote_is_relocate removed self :
  NoDup (transaction_id <$> removed) ->
  (forall v t, v ∈ removed -> all_txs self !! transaction_id v = Some t ->
     into_subpool (insert (AllTxs.it_state t) ENOUGH_FEE_CAP_BLOCK) = TxState.Pending) ->
  promote_basefee self removed = relocate self (fun t => AllTxs.state_insert t ENOUGH_FEE_CAP_BLOCK) removed.
Proof.
  revert self. induction removed as [|v removed IH]; intros self Hnd Hp; csimpl; [done|].
  rewrite fmap_cons, NoDup_cons in Hnd. destruct Hnd as [Hv Hnd].
  unfold restate. destruct (all_txs self !! transaction_id v) as [t|] eqn:Ht; [|done]. simpl.
  rewrite (Hp v t) by (done || set_solver).
  destruct (add_transaction_to_subpool _ _ v) as [s1|] eqn:Hadd; [|done]. simpl.
  rewrite IH; [done|done|]. intros w tw Hw. rewrite (add_to_subpool_all _ _ _ _ Hadd). simpl.
  rewrite lookup_insert_ne; [apply Hp; set_solver|].
  intros Heq. apply Hv. rewrite Heq. by apply list_elem_of_fmap_2.
Qed.

(** Changing the recorded fees. *)
Lemma with_fees_ok (a : AllTxs.AllTransactions) fs : AllTxs.all_ok a -> AllTxs.all_ok (AllTxs.with_fees a fs).
Proof. intros []. by split. Qed.

Lemma set_fees_inv self T n fs :
  pool_inv self T n -> BlobTxs.fees_ok fs ->
  pool_inv (with_all self (AllTxs.with_fees (all_transactions self) fs)) T n.
Proof. intros [A B C] Hfs. split; [by apply with_fees_ok|by apply at_locs_all|done]. Qed.

(** What a fee change keeps. *)
Definition same_txs self self' : Prop :=
  sender_info self' = sender_info self /\ config self' = config self /\
  latest_update_kind self' = latest_update_kind self /\
  AllTxs.pool_txs (all_txs self') = AllTxs.pool_txs (all_txs self).

#[export] Instance same_txs_preorder : PreOrder same_txs.
Proof. split; unfold same_txs; [done|]. intros a b c. naive_solver congruence. Qed.

Lemma restated_txs f removed self T n q :
  pool_inv self T n -> restates f removed -> recorded self q removed ->
  AllTxs.pool_txs (restated f (transaction_id <$> removed) (all_txs self)) = AllTxs.pool_txs (all_txs self).
Proof.
  intros Hinv Hres Hrec. apply map_eq. intros i. unfold AllTxs.pool_txs, restated.
  rewrite !lookup_fmap, map_lookup_imap. destruct (all_txs self !! i) as [t|] eqn:Ht; [|done]. simpl.
  case_bool_decide as Hin; [|done]. simpl.
  apply list_elem_of_fmap in Hin as (v & -> & Hv). destruct (Hrec v Hv) as (t' & Ht' & Hv' & _).
  assert (t' = t) as -> by congruence. f_equal. apply Hres; [by rewrite Hv'|].
  apply (AllTxs.ao_settled _ (pi_all _ _ _ Hinv) _ _ Ht).
Qed.

(** The common end of all fee changes. *)
Lemma relocate_given_up f removed self q self1 n :
  pool_ok self (n + Z.of_nat (size (all_txs self))) -> 0 <= n ->
  gives_up self q removed self1 -> restates f removed ->
  exists self' promoted, relocate self1 f removed = Some (self', promoted) /\ pool_ok self' n /\
    same_txs self self' /\ fees self' = fees self /\
    all_txs self' = restated f (transaction_id <$> removed) (all_txs self) /\
    (forall v, v ∈ promoted <-> v ∈ removed /\ is_pending_at (all_txs self') v = true).
Proof.
  intros Hinv Hn Hg Hres. destruct (gives_up_inv _ _ _ _ _ Hinv Hg) as (Hinv1 & Hrec & Hlen).
  pose proof (gu_frame _ _ _ _ Hg) as Hf. pose proof Hf as (F1 & F2 & F3 & F4).
  destruct (relocate_inv f removed self1 q n) as (s2 & Heq & Hinv2 & (S1 & S2 & S3 & S4) & Hm2);
    [apply (pool_inv_room _ _ _ _ Hinv1); lia|done|done|done|apply (ev_NoDup _ _ _ (gu_evicts _ _ _ _ Hg))|].
  eexists s2, _. split_and!; [done|done| |by rewrite S4; unfold fees; rewrite F3| |].
  - split_and!; [congruence|congruence|congruence|].
    by rewrite Hm2, (restated_txs _ _ _ _ _ q Hinv1 Hres Hrec), F3.
  - by rewrite Hm2, F3.
  - intros v. rewrite list_elem_of_In, filter_In, <- list_elem_of_In. by rewrite Hm2.
Qed.

Lemma with_pending_gives_up self p' removed n :
  pool_ok self n -> Pending.pending_ok p' ->
  Pending.submission_id p' = Pending.submission_id (pending_pool self) ->
  evicts (Pending.txs (pending_pool self)) removed (Pending.txs p') ->
  gives_up self TxState.Pending removed (with_pending self p').
Proof.
  intros [_ [[P1 P2 P3 P4] _ _] _] Hp Hs He. split; [by split| |done|by intros []|done].
  intros k [R1 R2 R3 R4]. split; simpl in *; try done. by rewrite Hs.
Qed.

Lemma with_basefee_gives_up self p' removed n :
  pool_ok self n -> Parked.parked_ok p' ->
  Parked.submission_id p' = Parked.submission_id (basefee_pool self) ->
  evicts (Parked.txs (basefee_pool self)) removed (Parked.txs p') ->
  gives_up self BaseFee removed (with_basefee self p').
Proof.
  intros [_ [[P1 P2 P3 P4] _ _] _] Hp Hs He. split; [by split| |done|by intros []|done].
  intros k [R1 R2 R3 R4]. split; simpl in *; try done. by rewrite Hs.
Qed.

Lemma with_queued_gives_up self p' removed n :
  pool_ok self n -> Parked.parked_ok p' ->
  Parked.submission_id p' = Parked.submission_id (queued_pool self) ->
  evicts (Parked.txs (queued_pool self)) removed (Parked.txs p') ->
  gives_up self Queued removed (with_queued self p').
Proof.
  intros [_ [[P1 P2 P3 P4] _ _] _] Hp Hs He. split; [by split| |done|by intros []|done].
  intros k [R1 R2 R3 R4]. split; simpl in *; try done. by rewrite Hs.
Qed.

Lemma with_blob_gives_up self p' removed n :
  pool_ok self n -> BlobTxs.blob_ok p' ->
  BlobTxs.submission_id p' = BlobTxs.submission_id (blob_pool self) ->
  evicts (BlobTxs.txs (blob_pool self)) removed (BlobTxs.txs p') ->
  gives_up self Blob removed (with_blob self p').
Proof.
  intros [_ [[P1 P2 P3 P4] _ _] _] Hp Hs He. split; [by split| |done|by intros []|done].
  intros k [R1 R2 R3 R4]. split; simpl in *; try done. by rewrite Hs.
Qed.

Lemma restates_insert f removed :
  f ∈ flags -> f <> BLOB_TRANSACTION -> restates (fun t => AllTxs.state_insert t f) removed.
Proof. intros Hf Hne t _ Hc. split; [by apply AllTxs.coherent_insert|done]. Qed.

Lemma restates_remove f removed :
  f ∈ flags -> f <> BLOB_TRANSACTION ->
  f <> ENOUGH_BLOB_FEE_CAP_BLOCK \/ (forall v, v ∈ removed -> vis_eip4844 v = true) ->
  restates (fun t => AllTxs.state_remove t f) removed.
Proof.
  intros Hf Hne Hor t Ht Hc. split; [|done]. apply AllTxs.coherent_remove; [done|done| |done].
  destruct Hor as [?|Hb]; [by left|right; auto].
Qed.

(** *** The base fee *)

Lemma update_basefee_raise_inv self n bf :
  pool_ok self (n + Z.of_nat (size (all_txs self))) -> 0 <= n -> is_u128 bf -> base_fee (fees self) < bf ->
  exists self', update_basefee self bf = Some (self', Gt, []) /\ pool_ok self' n /\ same_txs self self' /\
    fees self' = mkPendingFees bf (blob_fee (fees self)) /\
    all_txs self' = restated (fun t => AllTxs.state_remove t ENOUGH_FEE_CAP_BLOCK)
      (transaction_id <$> (Pending.update_base_fee (pending_pool self) bf).2) (all_txs self).
Proof.
  intros Hinv Hn Hbf Hlt. unfold update_basefee. simpl. rewrite (proj2 (Z.compare_gt_iff _ _)) by done.
  set (s0 := set_base_fee self bf).
  assert (Hinv0 : pool_ok s0 (n + Z.of_nat (size (all_txs s0)))).
  { apply set_fees_inv; [done|]. split; [apply (pi_fees _ _ _ Hinv)|done]. }
  destruct (Pending.update_base_fee_ok (pending_pool s0) bf) as (Hok & _ & Hsub & Hev & _);
    [apply Hinv0|].
  change (pending_pool s0) with (pending_pool self) in *.
  destruct (Pending.update_base_fee (pending_pool self) bf) as [p' removed]. simpl in *.
  destruct (relocate_given_up (fun t => AllTxs.state_remove t ENOUGH_FEE_CAP_BLOCK) removed s0 TxState.Pending
    (with_pending s0 p') n Hinv0 Hn) as (s2 & pr & -> & Hinv2 & Hst & Hfe & Hm & _).
  { by eapply with_pending_gives_up. }
  { apply restates_remove; [flag_in|done|by left]. }
  exists s2. by split_and!.
Qed.

Lemma update_basefee_lower_inv self n bf :
  pool_ok self (n + Z.of_nat (size (all_txs self))) -> 0 <= n -> is_u128 bf -> bf < base_fee (fees self) ->
  exists self' promoted, update_basefee self bf = Some (self', Lt, promoted) /\ pool_ok self' n /\
    same_txs self self' /\ fees self' = mkPendingFees bf (blob_fee (fees self)) /\
    all_txs self' = restated (fun t => AllTxs.state_insert t ENOUGH_FEE_CAP_BLOCK)
      (Parked.satisfy_base_fee_ids (basefee_pool self) bf) (all_txs self) /\
    (forall v, v ∈ promoted <-> Parked.txs (basefee_pool self) !! transaction_id v = Some v /\
       transaction_id v ∈ Parked.satisfy_base_fee_ids (basefee_pool self) bf).
Proof.
  intros Hinv Hn Hbf Hlt. unfold update_basefee. simpl. rewrite (proj2 (Z.compare_lt_iff _ _)) by done.
  set (s0 := set_base_fee self bf).
  assert (Hinv0 : pool_ok s0 (n + Z.of_nat (size (all_txs s0)))).
  { apply set_fees_inv; [done|]. split; [apply (pi_fees _ _ _ Hinv)|done]. }
  destruct (Parked.enforce_basefee_with_ok (basefee_pool s0) bf) as (p' & removed & Heq & Hok & Hev & Hids & Hsub);
    [apply Hinv0|].
  change (basefee_pool s0) with (basefee_pool self) in *. rewrite Heq. simpl.
  assert (Hg : gives_up s0 BaseFee removed (with_basefee s0 p')) by (by eapply with_basefee_gives_up).
  destruct (gives_up_inv _ _ _ _ _ Hinv0 Hg) as (Hinv1 & Hrec & _).
  assert (Hsettled : forall v t, v ∈ removed -> all_txs (with_basefee s0 p') !! transaction_id v = Some t ->
    into_subpool (insert (AllTxs.it_state t) ENOUGH_FEE_CAP_BLOCK) = TxState.Pending).
  { intros v t Hv Ht. destruct (Hrec v Hv) as (t' & Ht' & _ & Hq). assert (t' = t) as -> by congruence.
    apply basefee_promotes; [|done]. apply (AllTxs.ao_settled _ (pi_all _ _ _ Hinv1) _ _ Ht). }
  rewrite promote_is_relocate; [|apply Hev|done].
  destruct (relocate_given_up (fun t => AllTxs.state_insert t ENOUGH_FEE_CAP_BLOCK) removed s0 BaseFee
    (with_basefee s0 p') n Hinv0 Hn Hg) as (s2 & pr & -> & Hinv2 & Hst & Hfe & Hm & Hpr).
  { apply restates_insert; [flag_in|done]. }
  exists s2, pr. rewrite <- Hids. simpl. split_and!; try done. intros v. rewrite Hpr. split.
  - intros [Hv _]. split; [by apply (ev_from _ _ _ Hev)|by apply list_elem_of_fmap_2].
  - intros [Hv (w & Hw & Hin)%list_elem_of_fmap].
    assert (w = v) as ->. { pose proof (ev_from _ _ _ Hev w Hin) as Hx. rewrite <- Hw in Hx. congruence. }
    split; [done|]. destruct (Hrec v Hin) as (t & Ht & _).
    unfold is_pending_at. rewrite Hm. unfold restated. rewrite map_lookup_imap.
    change (all_txs s0) with (all_txs (with_basefee s0 p')). rewrite Ht. simpl.
    rewrite bool_decide_eq_true_2 by by apply list_elem_of_fmap_2. simpl. by rewrite (Hsettled v t).
Qed.

(** In all cases. *)
Lemma update_basefee_inv self n bf :
  pool_ok self (n + Z.of_nat (size (all_txs self))) -> 0 <= n -> is_u128 bf ->
  exists self' promoted, update_basefee self bf = Some (self', Z.compare bf (base_fee (fees self)), promoted) /\
    pool_ok self' n /\ same_txs self self' /\ fees self' = mkPendingFees bf (blob_fee (fees self)).
Proof.
  intros Hinv Hn Hbf. destruct (Z.compare_spec bf (base_fee (fees self))) as [Heq|Hlt|Hgt].
  - unfold update_basefee. simpl. rewrite (proj2 (Z.compare_eq_iff _ _) Heq).
    eexists _, []. split_and!; [done| |done|done].
    apply set_fees_inv; [apply (pool_inv_room _ _ _ _ Hinv); lia|].
    split; [apply (pi_fees _ _ _ Hinv)|done].
  - destruct (update_basefee_lower_inv self n bf Hinv Hn Hbf Hlt) as (s1 & pr & ? & ? & ? & ? & _).
    exists s1, pr. by split_and!.
  - destruct (update_basefee_raise_inv self n bf Hinv Hn Hbf Hgt) as (s1 & ? & ? & ? & ? & _).
    exists s1, []. by split_and!.
Qed.

(** *** The blob fee *)

Lemma blob_evicted_are_blobs self n fee v :
  pool_ok self n -> v ∈ (Pending.update_blob_fee (pending_pool self) fee).2 -> vis_eip4844 v = true.
Proof.
  intros Hinv Hv. pose proof Hinv as [Hok [Hpo _ _] _].
  destruct (Pending.update_blob_fee_ok (pending_pool self) fee) as (_ & _ & _ & Hev & Hkept); [apply Hpo|].
  pose proof (ev_from _ _ _ Hev v Hv) as Hin.
  pose proof (subpool_subset self n TxState.Pending Hinv) as Hsub. simpl in Hsub.
  destruct (vis_eip4844 v) eqn:Ev; [done|]. exfalso.
  assert (Hnone : Pending.txs (Pending.update_blob_fee (pending_pool self) fee).1 !! transaction_id v = None).
  { rewrite (ev_rest _ _ _ Hev), lookup_delete_txs, bool_decide_eq_true_2; [done|]. by apply list_elem_of_fmap_2. }
  unfold Pending.txs in Hin. rewrite lookup_fmap in Hin. apply fmap_Some in Hin as (t & Ht & Hvt).
  assert (Hk : Pending.by_id (Pending.update_blob_fee (pending_pool self) fee).1 !! transaction_id v = Some t).
  { apply Hkept. exists t. split_and!; [done|done|]. intros j b Hj Hs _. unfold Pending.blob_fee_unmet.
    assert (vis_eip4844 (Pending.pd_transaction b) = false) as ->; [|done].
    rewrite <- Ev. apply (AllTxs.ao_exclusive _ Hok j (transaction_id v)); [| |done].
    - eapply lookup_weaken; [|exact Hsub]. unfold Pending.txs. by rewrite lookup_fmap, Hj.
    - eapply lookup_weaken; [|exact Hsub]. unfold Pending.txs. by rewrite lookup_fmap, Ht, Hvt. }
  unfold Pending.txs in Hnone. by rewrite lookup_fmap, Hk in Hnone.
Qed.

Lemma update_blob_fee_inv self n fee ord :
  pool_ok self (n + Z.of_nat (size (all_txs self))) -> 0 <= n -> is_u128 fee ->
  exists self' promoted, update_blob_fee self fee ord = Some (self', promoted) /\ pool_ok self' n /\
    same_txs self self' /\ fees self' = mkPendingFees (base_fee (fees self)) fee.
Proof.
  intros Hinv Hn Hfee. unfold update_blob_fee. simpl. set (s0 := set_blob_fee self fee).
  assert (Hinv0 : pool_ok s0 (n + Z.of_nat (size (all_txs s0)))).
  { apply set_fees_inv; [done|]. split; [done|apply (pi_fees _ _ _ Hinv)]. }
  assert (Hkeep : exists self' promoted, Some (s0, []) = Some (self', promoted : list ValidPoolTransaction) /\ pool_ok self' n /\
    same_txs self self' /\ fees self' = mkPendingFees (base_fee (fees self)) fee).
  { exists s0, []. split_and!; [done| |done|done]. apply (pool_inv_room _ _ _ _ Hinv0). lia. }
  assert (Hdemote : exists self' promoted,
    (let '(p, removed) := Pending.update_blob_fee (pending_pool self) fee in
     r ← relocate (with_pending s0 p) (fun t => AllTxs.state_remove t ENOUGH_BLOB_FEE_CAP_BLOCK) removed;
     Some (r.1, [])) = Some (self', promoted : list ValidPoolTransaction) /\ pool_ok self' n /\
    same_txs self self' /\ fees self' = mkPendingFees (base_fee (fees self)) fee).
  { destruct (Pending.update_blob_fee_ok (pending_pool s0) fee) as (Hok & _ & Hsub & Hev & _); [apply Hinv0|].
    pose proof (fun v => blob_evicted_are_blobs s0 _ fee v Hinv0) as Hblob.
    change (pending_pool s0) with (pending_pool self) in *.
    destruct (Pending.update_blob_fee (pending_pool self) fee) as [p' removed]. simpl in *.
    destruct (relocate_given_up (fun t => AllTxs.state_remove t ENOUGH_BLOB_FEE_CAP_BLOCK) removed s0
      TxState.Pending (with_pending s0 p') n Hinv0 Hn) as (s2 & pr & -> & Hinv2 & Hst & Hfe & _).
    { by eapply with_pending_gives_up. }
    { apply restates_remove; [flag_in|done|by right]. }
    exists s2, []. by split_and!. }
  assert (Hpromote : exists self' promoted,
    (b ← BlobTxs.enforce_pending_fees (blob_pool self) (fees s0);
     relocate (with_blob s0 b.1) (fun t => AllTxs.state_insert (AllTxs.state_insert t ENOUGH_BLOB_FEE_CAP_BLOCK)
                    ENOUGH_FEE_CAP_BLOCK) b.2) = Some (self', promoted) /\ pool_ok self' n /\
    same_txs self self' /\ fees self' = mkPendingFees (base_fee (fees self)) fee).
  { destruct (BlobTxs.enforce_pending_fees_ok (blob_pool s0) (fees s0)) as (p' & removed & Heq & Hok & Hev & _ & Hsub & _);
      [apply Hinv0|apply Hinv0|].
    change (blob_pool s0) with (blob_pool self) in *. rewrite Heq. simpl.
    match goal with |- context [relocate _ ?f removed] =>
      destruct (relocate_given_up f removed s0 Blob (with_blob s0 p') n Hinv0 Hn)
        as (s2 & pr & -> & Hinv2 & Hst & Hfe & _) end.
    { by eapply with_blob_gives_up. }
    { intros t _ Hc. split; [|done]. apply AllTxs.coherent_insert; [flag_in|done|].
      apply AllTxs.coherent_insert; [flag_in|done|done]. }
    exists s2, pr. by split_and!. }
  destruct (Z.compare fee (blob_fee (fees self))), ord; first [exact Hkeep|exact Hdemote|exact Hpromote].
Qed.

(** ** New blocks *)

Definition info_ok (info : BlockInfo) : Prop :=
  is_u128 (pending_basefee info) /\ (forall f, pending_blob_fee info = Some f -> is_u128 f).

(** The fees after a block: the blob fee stays if the block does not name one. *)
Definition info_fees (info : BlockInfo) (old : PendingFees) : PendingFees :=
  mkPendingFees (pending_basefee info) (default (blob_fee old) (pending_blob_fee info)).

Lemma info_fees_ok info old : info_ok info -> BlobTxs.fees_ok old -> BlobTxs.fees_ok (info_fees info old).
Proof.
  intros [Hb Hf] [Ho _]. split; [|done]. simpl. destruct (pending_blob_fee info); simpl; auto.
Qed.

Lemma same_txs_size self self' : same_txs self self' -> size (all_txs self') = size (all_txs self).
Proof. intros (_ & _ & _ & Hp). by rewrite <- AllTxs.pool_txs_size, Hp, AllTxs.pool_txs_size. Qed.

(** [AllTransactions::set_block_info] after the fees were already applied. *)
Lemma all_block_info_inv self n info :
  pool_ok self n -> info_ok info ->
  pool_ok (with_all self (AllTxs.set_block_info (all_transactions self) info)) n.
Proof.
  intros [A B C] Hi. split; [|by apply at_locs_all|by apply (info_fees_ok _ (fees self))].
  destruct A. by split.
Qed.

Lemma set_block_info_inv self n info :
  pool_ok self (n + 2 * Z.of_nat (size (all_txs self))) -> 0 <= n -> info_ok info ->
  exists self', set_block_info self info = Some self' /\ pool_ok self' n /\ same_txs self self' /\
    fees self' = info_fees info (fees self).
Proof.
  intros Hinv Hn Hi. unfold set_block_info. set (k := Z.of_nat (size (all_txs self))) in *.
  destruct (update_basefee_inv self (n + k) (pending_basefee info)) as (s1 & p1 & -> & Hinv1 & Hst1 & Hf1);
    [apply (pool_inv_room _ _ _ _ Hinv); lia|lia|exact (proj1 Hi)|].
  simpl. destruct (pending_blob_fee info) as [f|] eqn:Ef.
  - destruct (update_blob_fee_inv s1 n f (Z.compare (pending_basefee info) (base_fee (fees self))))
      as (s2 & p2 & -> & Hinv2 & Hst2 & Hf2); [|done|exact (proj2 Hi f Ef)|].
    { rewrite (same_txs_size _ _ Hst1). done. }
    simpl. eexists. split_and!; [done|by apply all_block_info_inv| |].
    + etrans; [done|]. by etrans.
    + unfold fees, info_fees. simpl. by rewrite Ef.
  - simpl. eexists. split_and!; [done| |done|].
    + apply all_block_info_inv; [|done]. apply (pool_inv_room _ _ _ _ Hinv1). lia.
    + unfold info_fees. unfold fees at 1. simpl. fold (fees s1). by rewrite Ef, Hf1.
Qed.

Lemma apply_fee_updates_inv self n b0 f0 outcome :
  pool_ok self (n + 2 * Z.of_nat (size (all_txs self))) -> 0 <= n -> is_u128 b0 -> is_u128 f0 ->
  exists self' outcome', apply_fee_updates self b0 f0 outcome = Some (self', outcome') /\ pool_ok self' n /\
    same_txs self self' /\ fees self' = fees self /\ discarded outcome' = discarded outcome.
Proof.
  intros Hinv Hn Hb Hf. unfold apply_fee_updates. set (k := Z.of_nat (size (all_txs self))) in *.
  destruct (_ && _)%bool.
  { exists self, outcome. split_and!; try done. apply (pool_inv_room _ _ _ _ Hinv). lia. }
  pose proof (pi_fees _ _ _ Hinv) as [Hfo Hbo]. set (s0 := set_blob_fee (set_base_fee self b0) f0).
  assert (Hinv0 : pool_ok s0 (n + 2 * k)).
  { apply set_fees_inv; [|done]. by apply set_fees_inv. }
  destruct (update_basefee_inv s0 (n + k) (base_fee (fees self))) as (s1 & p1 & -> & Hinv1 & Hst1 & Hf1);
    [apply (pool_inv_room _ _ _ _ Hinv0); unfold k; simpl; lia|lia|done|].
  simpl. destruct (update_blob_fee_inv s1 n (blob_fee (fees self)) (Z.compare (base_fee (fees self)) (base_fee (fees s0))))
    as (s2 & p2 & Heq & Hinv2 & Hst2 & Hf2); [|done|done|].
  { rewrite (same_txs_size _ _ Hst1). done. }
  simpl in Heq. rewrite Heq. simpl. eexists _, _. split_and!; [done|done| | |done].
  - etrans; [|etrans; [exact Hst1|exact Hst2]]. done.
  - rewrite Hf2, Hf1. by destruct (fees self).
Qed.

Lemma canonical_state_inv self n info mined changed kind :
  pool_ok self (n + 3 * Z.of_nat (size (all_txs self))) -> 0 <= n -> info_ok info ->
  exists self' outcome, on_canonical_state_change self info mined changed kind = Some (self', outcome) /\
    pool_ok self' n /\ config self' = config self /\ sender_info self' = changed ∪ sender_info self /\
    fees self' = info_fees info (fees self) /\ oc_mined outcome = mined /\
    evicts (without_hashes (AllTxs.pool_txs (all_txs self)) mined) (oc_discarded outcome)
      (AllTxs.pool_txs (all_txs self')) /\
    AllTxs.pool_txs (all_txs self') = filter (fun e => ~ stale changed e.1)
      (without_hashes (AllTxs.pool_txs (all_txs self)) mined).
Proof.
  intros Hinv Hn Hi. unfold on_canonical_state_change. set (k := Z.of_nat (size (all_txs self))) in *.
  destruct (prune_mined_inv mined self _ Hinv) as (s1 & -> & Hinv1 & (S1 & S2 & S3 & S4) & Hp1).
  assert (Hk1 : Z.of_nat (size (all_txs s1)) <= k).
  { unfold k. apply inj_le, pool_txs_le. rewrite Hp1. apply map_filter_subseteq. }
  cbn. set (s2 := match pending_blob_fee info with Some f => _ | None => _ end).
  assert (Hf2 : fees s2 = info_fees info (fees self)).
  { rewrite <- S4. unfold s2, info_fees. by destruct (pending_blob_fee info). }
  assert (Hinv2 : pool_ok s2 (n + 3 * k)).
  { unfold s2. destruct (pending_blob_fee info) as [f|] eqn:Ef.
    - apply set_fees_inv; [apply set_fees_inv; [done|]|]; (split; [|exact (proj1 Hi)]);
        [apply (pi_fees _ _ _ Hinv1)|exact (proj2 Hi f Ef)].
    - apply set_fees_inv; [done|]. split; [apply (pi_fees _ _ _ Hinv1)|exact (proj1 Hi)]. }
  assert (H2 : sender_info s2 = sender_info self /\ config s2 = config self /\ all_txs s2 = all_txs s1).
  { unfold s2. by destruct (pending_blob_fee info). }
  destruct H2 as (E1 & E2 & E3).
  destruct (update_accounts_inv s2 (n + 2 * k) changed) as (s3 & -> & Hinv3 & A1 & A2 & A3 & _ & Hp3 & Hev3);
    [apply (pool_inv_room _ _ _ _ Hinv2); rewrite E3; lia|lia|].
  assert (Hk3 : Z.of_nat (size (all_txs s3)) <= k).
  { etrans; [|exact Hk1]. apply inj_le. rewrite <- E3. apply pool_txs_le. rewrite Hp3. apply map_filter_subseteq. }
  cbn. pose proof (pi_fees _ _ _ Hinv1) as [Hfo Hbo].
  edestruct (apply_fee_updates_inv s3 n (base_fee (fees s1)) (blob_fee (fees s1)))
    as (s4 & o4 & -> & Hinv4 & (B1 & B2 & B3 & B4) & Hf4 & Hd4);
    [apply (pool_inv_room _ _ _ _ Hinv3); lia|done|done|done|].
  cbn. eexists _, _. split_and!; [done| | | | |done| |].
  - pose proof (all_block_info_inv s4 n info Hinv4 Hi) as [P1 P2 P3]. split; [done|by apply at_locs_kind|done].
  - simpl. congruence.
  - simpl. congruence.
  - unfold fees at 1. simpl. fold (fees s4). unfold info_fees. rewrite Hf4, A3, Hf2. simpl.
    by destruct (pending_blob_fee info).
  - simpl. rewrite B4, Hd4. simpl. by rewrite <- Hp1, <- E3.
  - simpl. by rewrite B4, Hp3, E3, Hp1.
Qed.

End ops.

End PoolOps.
