(* ===== verification/TxPoolLimits.v ===== *)
(** * Keeping the pool within its limits

    [TxPool::discard_worst]: every sub-pool over its limit is truncated, what
    it gives up leaves the set of all transactions, and the descendants of what
    it gives up leave the entire pool, until no limit is exceeded. *)

From S2P Require Import Prelude Ordered TxErrors TxIdentifier TxState TxTypes SubPoolSpec.
From S2P Require Import ParkedPool PendingPool BlobFee BlobPool AllTransactions TxPool TxPoolInv TxPoolOps.
Import TxErrors Identifier TxState TxTypes SubPoolSpec BlobFee.
Import Pool PoolInv PoolOps.

Module PoolLimits.

#[local] Existing Instance Parked.parked_impl.
#[local] Existing Instance BlobTxs.blob_impl.
#[local] Existing Instance Pending.pending_impl.

Section limits.
Context `{AlloyConstants} {ordering : TransactionOrdering}.
Implicit Types (self : TxPool) (v : ValidPoolTransaction) (i : TransactionId).

(** ** Dropping what was truncated *)

#[local] Arguments remove_descendants : simpl never.
#[local] Arguments AllTxs.remove_transaction : simpl never.

(** The truncated transaction leaves the set of all. *)
Lemma drop_one_inv self v T n :
  pool_inv self (transaction_id v :: T) n ->
  let self1 := with_all self (AllTxs.remove_transaction (all_transactions self) (transaction_id v)).1 in
  pool_inv self1 T n /\ same_settings self self1 /\ all_txs self1 = delete (transaction_id v) (all_txs self).
Proof.
  intros [Hok Hal Hf]. rewrite AllTxs.remove_transaction_spec by done. cbv zeta.
  assert (Hloc : delete_ids (AllTxs.locs (all_txs self)) (transaction_id v :: T)
    = delete_ids (AllTxs.locs (delete (transaction_id v) (all_txs self))) T).
  { simpl. unfold AllTxs.locs. by rewrite fmap_delete. }
  rewrite Hloc in Hal.
  destruct (all_txs self !! transaction_id v) as [t|] eqn:Ht; simpl.
  - split_and!; [|done|done]. split; [by apply AllTxs.removed_ok|by apply at_locs_all|done].
  - rewrite with_all_id. rewrite delete_id in Hal |- * by done. by split_and!.
Qed.

Lemma drop_truncated_inv truncated self n removed :
  pool_inv self (transaction_id <$> truncated) n ->
  exists self' more, drop_truncated self truncated removed = Some (self', removed ++ more) /\
    pool_ok self' n /\ same_settings self self' /\
    (forall i t, all_txs self' !! i = Some t <->
       all_txs self !! i = Some t /\ forall v, v ∈ truncated -> ~ behind v i).
Proof.
  revert self removed. induction truncated as [|v truncated IH]; intros self removed Hinv; csimpl.
  { exists self, []. rewrite app_nil_r. split_and!; try done. set_solver. }
  destruct (drop_one_inv self v _ n Hinv) as (Hinv1 & Hs1 & Hm1). cbv zeta.
  set (s1 := with_all self _) in *.
  destruct (remove_descendants_inv (descendants_fuel s1) s1 _ n (transaction_id v) (removed ++ [v]) Hinv1)
    as (s2 & r2 & -> & Hinv2 & Hs2 & Hm2); [unfold descendants_fuel; lia|].
  cbn. destruct (IH s2 ((removed ++ [v]) ++ r2) Hinv2) as (s3 & r3 & -> & Hinv3 & Hs3 & Hm3).
  exists s3, (v :: r2 ++ r3). rewrite <- !app_assoc. split_and!; [done|done|by do 2 etrans|].
  intros i t. rewrite Hm3, Hm2. unfold without_descendants. rewrite map_lookup_filter_Some, Hm1, lookup_delete_Some.
  simpl. setoid_rewrite elem_of_cons. unfold behind at 2. unfold vsender_id. split.
  - intros (((Hne & Hi) & Hnd) & Hall). split; [done|]. intros w [->|Hw]; [|by apply Hall].
    intros [Hs Hn]. destruct (decide (nonce (transaction_id v) = nonce i)); [|naive_solver lia].
    apply Hne. destruct (transaction_id v), i; simpl in *; congruence.
  - intros [Hi Hall]. split_and!; [|done| |].
    + intros <-. apply (Hall v); [by left|]. done.
    + intros [Hs Hn]. apply (Hall v); [by left|]. split; [done|lia].
    + intros w Hw. apply Hall. by right.
Qed.

(** ** One sub-pool *)

(** What the loop needs of a truncation: it gives up something whenever the
    pool exceeds its limit. *)
Definition truncates (q : SubPool) (exceeds : TxPool -> bool)
  (truncate : TxPool -> option (TxPool * list ValidPoolTransaction)) self : Prop :=
  exists self1 removed, truncate self = Some (self1, removed) /\ gives_up self q removed self1 /\
    (exceeds self = true -> removed <> []).

Definition subset self self' : Prop :=
  same_settings self self' /\ all_txs self' ⊆ all_txs self.

#[export] Instance subset_preorder : PreOrder subset.
Proof. split; unfold subset; [done|]. intros a b c [] []. split; by etrans. Qed.

Section loop.
Context (q : SubPool) (exceeds : TxPool -> bool)
  (truncate : TxPool -> option (TxPool * list ValidPoolTransaction))
  (good : TxPool -> Prop).
Context (good_truncates : forall self n, pool_ok self n -> good self -> truncates q exceeds truncate self).
Context (good_kept : forall self n self1 removed acc self2 acc', pool_ok self n -> good self ->
  truncate self = Some (self1, removed) -> drop_truncated self1 removed acc = Some (self2, acc') -> good self2).

Lemma discard_loop_inv fuel self n removed :
  pool_ok self n -> good self -> (size (all_txs self) < fuel)%nat ->
  exists self' more, discard_loop fuel exceeds truncate self removed = Some (self', removed ++ more) /\
    pool_ok self' n /\ good self' /\ exceeds self' = false /\ subset self self'.
Proof.
  revert self removed. induction fuel as [|fuel IH]; intros self removed Hinv Hgood Hlt; [lia|]. simpl.
  destruct (exceeds self) eqn:Hex.
  2:{ exists self, []. rewrite app_nil_r. by split_and!. }
  destruct (good_truncates self n Hinv Hgood) as (s1 & r & Htr & Hg & Hne). rewrite Htr. simpl.
  destruct (gives_up_inv _ _ _ _ _ Hinv Hg) as (Hinv1 & Hrec & _).
  destruct (drop_truncated_inv r s1 n removed Hinv1) as (s2 & m2 & Heq & Hinv2 & Hs2 & Hm2).
  rewrite Heq. simpl. pose proof (gu_frame _ _ _ _ Hg) as Hf. pose proof Hf as (_ & _ & Ha & _).
  assert (Hsub : all_txs s2 ⊆ all_txs self).
  { apply map_subseteq_spec. intros i t [Hi _]%Hm2. by rewrite Ha in Hi. }
  assert (Hsize : (size (all_txs s2) < size (all_txs self))%nat).
  { destruct r as [|v r]; [by destruct (Hne Hex)|].
    destruct (Hrec v) as (t & Ht & _); [set_solver|]. rewrite Ha in Ht.
    apply map_subset_size. split; [done|]. intros Hsup.
    pose proof (lookup_weaken _ _ _ _ Ht Hsup) as [_ Hx]%Hm2. apply (Hx v); [set_solver|]. done. }
  destruct (IH s2 (removed ++ m2)) as (s3 & m3 & -> & Hinv3 & Hg3 & Hx3 & Hsub3); [done|eauto|lia|].
  exists s3, (m2 ++ m3). rewrite app_assoc. split_and!; [done|done|done|done|].
  etrans; [|exact Hsub3]. split; [|done]. etrans; [by apply frame_settings|done].
Qed.

End loop.

(** ** The four sub-pools *)

Definition limit_ok (l : SubPoolLimit) : Prop := 0 <= max_txs l /\ 0 <= max_size l.
Definition limits_ok (c : PoolConfig) : Prop :=
  limit_ok (pending_limit c) /\ limit_ok (basefee_limit c) /\ limit_ok (blob_limit c) /\ limit_ok (queued_limit c).

(** Whether a sub-pool exceeds a limit only depends on its transactions. *)
Lemma exceeds_nonempty `{SubPoolImpl P} (p p' : P) limit removed :
  sp_ok p -> sp_ok p' -> evicts (sp_txs p) removed (sp_txs p') ->
  limit_is_exceeded limit (sp_len p) (sp_size p) = true ->
  limit_is_exceeded limit (sp_len p') (sp_size p') = false -> removed <> [].
Proof.
  intros Hp Hp' Hev H1 H2 ->. pose proof (ev_rest _ _ _ Hev) as Heq. simpl in Heq.
  rewrite !sp_len_ok, !sp_size_ok in H1, H2 by done. congruence.
Qed.

Lemma basefee_truncates self n :
  pool_ok self n -> limits_ok (config self) -> truncates BaseFee basefee_exceeds truncate_basefee self.
Proof.
  intros Hinv (_ & [L1 L2] & _ & _). unfold truncate_basefee.
  destruct (Parked.parked_truncate_pool_ok (basefee_pool self) (basefee_limit (config self)))
    as (p' & r & Heq & Hok & Hex & [E S _ _]); [apply Hinv|done|done|].
  unfold truncates, truncate_basefee. rewrite Heq. simpl. eexists _, _. split_and!; [done| |].
  - by eapply with_basefee_gives_up.
  - intros Hx. apply (exceeds_nonempty (basefee_pool self) p' (basefee_limit (config self))); try done. apply Hinv.
Qed.

Lemma queued_truncates self n :
  pool_ok self n -> limits_ok (config self) -> truncates Queued queued_exceeds truncate_queued self.
Proof.
  intros Hinv (_ & _ & _ & [L1 L2]).
  destruct (Parked.parked_truncate_pool_ok (queued_pool self) (queued_limit (config self)))
    as (p' & r & Heq & Hok & Hex & [E S _ _]); [apply Hinv|done|done|].
  unfold truncates, truncate_queued. rewrite Heq. simpl. eexists _, _. split_and!; [done| |].
  - by eapply with_queued_gives_up.
  - intros Hx. apply (exceeds_nonempty (queued_pool self) p' (queued_limit (config self))); try done. apply Hinv.
Qed.

Lemma blob_truncates self n :
  pool_ok self n -> limits_ok (config self) -> truncates Blob blob_exceeds truncate_blob self.
Proof.
  intros Hinv (_ & _ & [L1 L2] & _).
  destruct (BlobTxs.blob_truncate_pool_ok (blob_pool self) (blob_limit (config self)))
    as (p' & r & Heq & Hok & Hex & S & E & _); [apply Hinv|done|done|].
  unfold truncates, truncate_blob. rewrite Heq. simpl. eexists _, _. split_and!; [done| |].
  - by eapply with_blob_gives_up.
  - intros Hx. apply (exceeds_nonempty (blob_pool self) p' (blob_limit (config self))); try done. apply Hinv.
Qed.

Definition pending_good self : Prop := Pending.exact (pending_pool self) /\ limits_ok (config self).

Lemma pending_truncates self n :
  pool_ok self n -> pending_good self -> truncates TxState.Pending pending_exceeds truncate_pending self.
Proof.
  intros Hinv (Hexact & [L1 L2] & _).
  destruct (Pending.pending_truncate_pool_ok (pending_pool self) (pending_limit (config self)))
    as (p' & r & Heq & Hok & E & S & Hk & Hex); [apply Hinv|].
  unfold truncates, truncate_pending. rewrite Heq. simpl. eexists _, _. split_and!; [done| |].
  - by eapply with_pending_gives_up.
  - intros Hx. apply (exceeds_nonempty (pending_pool self) p' (pending_limit (config self))); try done; [apply Hinv|].
    destruct Hex as [?|He]; [done|]. by apply Pending.exact_no_heads; [|apply Hk| | |].
Qed.

(** *** The pending pool is not touched while its own evictions are dropped *)

Lemma remove_absent_pending self q i self' r :
  Pending.pending_ok (pending_pool self) -> Pending.by_id (pending_pool self) !! i = None ->
  remove_from_subpool self q i = Some (self', r) -> pending_pool self' = pending_pool self.
Proof.
  intros Hok Hi. destruct q; simpl.
  - destruct (Parked.remove_transaction _ _); [by intros [= <- _]|done].
  - destruct (Parked.remove_transaction _ _); [by intros [= <- _]|done].
  - by intros [= <- _].
  - rewrite Pending.remove_transaction_absent by done. by intros [= <- _].
Qed.

Lemma remove_transaction_pending self T n i self' r :
  pool_inv self T n -> Pending.by_id (pending_pool self) !! i = None ->
  remove_transaction self i = Some (self', r) -> pending_pool self' = pending_pool self.
Proof.
  intros Hinv Hi. unfold remove_transaction. rewrite AllTxs.remove_transaction_spec by apply Hinv.
  destruct (all_txs self !! i) as [t|] eqn:Ht; simpl; [|by intros [= <- _]].
  pose proof (AllTxs.entry_ok_of _ _ _ (pi_all _ _ _ Hinv) Ht) as [Hid _]. simpl in Hid. rewrite Hid.
  intros Hr. apply remove_absent_pending in Hr; [done|apply (po_pending _ (al_pools _ _ _ (pi_locs _ _ _ Hinv)))|done].
Qed.

Lemma remove_descendants_pending fuel self T n i acc self' acc' :
  pool_inv self T n ->
  (forall j, is_Some (Pending.by_id (pending_pool self) !! j) -> ~ (sender j = sender i /\ nonce i < nonce j)) ->
  remove_descendants fuel self i acc = Some (self', acc') -> pending_pool self' = pending_pool self.
Proof.
  revert self i acc. induction fuel as [|fuel IH]; intros self i acc Hinv Hnone; [done|].
  unfold remove_descendants; fold remove_descendants.
  destruct (AllTxs.descendant_txs_exclusive (all_transactions self) i) as [|[d t] l] eqn:El; [intros; congruence|].
  assert (Hd : (d, t) ∈ AllTxs.descendant_txs_exclusive (all_transactions self) i) by (rewrite El; set_solver).
  apply elem_of_descendants in Hd as (_ & Hsd & Hnd).
  destruct (remove_transaction_inv self T n d Hinv) as (s1 & r & Hr & Hinv1 & _). rewrite Hr. simpl.
  apply (remove_transaction_pending _ _ _ _ _ _ Hinv) in Hr.
  2:{ destruct (_ !! d) eqn:E; [|done]. destruct (Hnone d); eauto. }
  intros Heq. rewrite <- Hr. apply (IH _ _ _ Hinv1) in Heq; [done|]. rewrite Hr.
  intros j Hj [Hs Hn]. apply (Hnone j Hj). split; [congruence|lia].
Qed.

Lemma drop_truncated_pending truncated self n acc self' acc' :
  pool_inv self (transaction_id <$> truncated) n ->
  (forall v j, v ∈ truncated -> is_Some (Pending.by_id (pending_pool self) !! j) -> ~ behind v j) ->
  drop_truncated self truncated acc = Some (self', acc') -> pending_pool self' = pending_pool self.
Proof.
  revert self acc. induction truncated as [|v truncated IH]; intros self acc Hinv Hnone; csimpl; [intros; congruence|].
  destruct (drop_one_inv self v _ n Hinv) as (Hinv1 & _ & _). cbv zeta. set (s1 := with_all self _) in *.
  destruct (remove_descendants_inv (descendants_fuel s1) s1 _ n (transaction_id v) (acc ++ [v]) Hinv1)
    as (s2 & r2 & Hr & Hinv2 & _); [unfold descendants_fuel; lia|].
  rewrite Hr. cbn. apply (remove_descendants_pending _ _ _ _ _ _ _ _ Hinv1) in Hr.
  2:{ intros j Hj [Hs Hn]. apply (Hnone v j); [set_solver|done|]. split; [done|lia]. }
  intros Heq. apply (IH s2) in Heq; [by rewrite Heq, Hr|done|].
  rewrite Hr. intros w j Hw. apply Hnone. set_solver.
Qed.

Lemma drop_settings truncated self n acc self' acc' :
  pool_inv self (transaction_id <$> truncated) n ->
  drop_truncated self truncated acc = Some (self', acc') -> same_settings self self'.
Proof.
  intros Hinv Heq. destruct (drop_truncated_inv truncated self n acc Hinv) as (s & m & Heq' & _ & Hs & _). congruence.
Qed.

(** The configuration is kept by every round. *)
Lemma limits_kept q exceeds truncate self n self1 removed acc self2 acc' :
  truncates q exceeds truncate self -> pool_ok self n -> truncate self = Some (self1, removed) ->
  drop_truncated self1 removed acc = Some (self2, acc') ->
  limits_ok (config self) -> limits_ok (config self2).
Proof.
  intros (s1 & r & Htr & Hg & _) Hinv Htr' Hdrop. assert (s1 = self1 /\ r = removed) as [-> ->] by (split; congruence).
  destruct (gives_up_inv _ _ _ _ _ Hinv Hg) as (Hinv1 & _).
  apply (drop_settings _ _ _ _ _ _ Hinv1) in Hdrop as (_ & -> & _).
  by destruct (gu_frame _ _ _ _ Hg) as (_ & -> & _).
Qed.

Lemma pending_good_kept self n self1 removed acc self2 acc' :
  pool_ok self n -> pending_good self -> truncate_pending self = Some (self1, removed) ->
  drop_truncated self1 removed acc = Some (self2, acc') -> pending_good self2.
Proof.
  intros Hinv Hgood Htr Hdrop. pose proof (pending_truncates self n Hinv Hgood) as Htrunc.
  split; [|by eapply limits_kept; [exact Htrunc|done|done|done|apply Hgood]].
  destruct Htrunc as (s1 & r & Htr' & Hg & _). assert (s1 = self1 /\ r = removed) as [-> ->] by (split; congruence).
  destruct (gives_up_inv _ _ _ _ _ Hinv Hg) as (Hinv1 & _).
  unfold truncate_pending in Htr.
  destruct (Pending.pending_truncate_pool_ok (pending_pool self) (pending_limit (config self)))
    as (p' & r' & Heq & Hok & E & _ & Hk & _); [apply Hinv|].
  rewrite Heq in Htr. simpl in Htr. injection Htr as <- <-. destruct (Hk (proj1 Hgood)) as [Hexact [_ Hpre]].
  apply (drop_truncated_pending _ _ _ _ _ _ Hinv1) in Hdrop; [by rewrite Hdrop|].
  intros v j Hv Hj [Hs Hn]. simpl in Hj. pose proof (ev_from _ _ _ E v Hv) as Hin.
  destruct (Hpre (transaction_id v) j Hj) as [x Hx]; [|done|done|].
  { unfold Pending.txs in Hin. rewrite lookup_fmap in Hin. by destruct (Pending.by_id (pending_pool self) !! transaction_id v). }
  assert (Hnone : Pending.txs p' !! transaction_id v = None).
  { rewrite (ev_rest _ _ _ E), lookup_delete_txs, bool_decide_eq_true_2; [done|]. by apply list_elem_of_fmap_2. }
  unfold Pending.txs in Hnone. by rewrite lookup_fmap, Hx in Hnone.
Qed.

(** ** Fewer transactions stay within a limit *)

Definition sizes_ok (m : TxMap) : Prop :=
  (forall i v, m !! i = Some v -> 0 <= vsize v) /\ total_size m < u64_modulus.

Lemma total_size_subset m m' :
  m' ⊆ m -> (forall i v, m !! i = Some v -> 0 <= vsize v) -> 0 <= total_size m' <= total_size m.
Proof.
  revert m'. induction m as [|i x m Hi IH] using map_ind; intros m' Hsub Hpos.
  { assert (m' = ∅) as ->; [|by rewrite total_size_empty].
    apply map_empty. intros j. destruct (m' !! j) eqn:Hj; [|done].
    apply (lookup_weaken _ _ _ _ Hj) in Hsub. by rewrite lookup_empty in Hsub. }
  assert (Hpos' : forall j v, m !! j = Some v -> 0 <= vsize v).
  { intros j v Hj. apply (Hpos j). rewrite lookup_insert_ne; [done|]. intros <-. congruence. }
  assert (Hdel : delete i m' ⊆ m).
  { apply map_subseteq_spec. intros j v [Hne Hj]%lookup_delete_Some.
    apply (lookup_weaken _ _ _ _ Hj) in Hsub. by rewrite lookup_insert_ne in Hsub. }
  specialize (IH _ Hdel Hpos'). rewrite total_size_insert by done.
  pose proof (Hpos i x (lookup_insert_eq _ _ _)) as Hx.
  destruct (m' !! i) as [y|] eqn:Hy.
  - assert (y = x) as ->.
    { apply (lookup_weaken _ _ _ _ Hy) in Hsub. rewrite lookup_insert_eq in Hsub. congruence. }
    rewrite (total_size_delete _ _ _ Hy) in IH. lia.
  - rewrite delete_id in IH by done. lia.
Qed.

Lemma exceeds_mono `{SubPoolImpl P} (p p' : P) limit :
  sp_ok p -> sp_ok p' -> sp_txs p' ⊆ sp_txs p -> sizes_ok (sp_txs p) ->
  limit_is_exceeded limit (sp_len p) (sp_size p) = false ->
  limit_is_exceeded limit (sp_len p') (sp_size p') = false.
Proof.
  intros Hp Hp' Hsub [Hpos Htot]. rewrite !sp_len_ok, !sp_size_ok by done.
  pose proof (total_size_subset _ _ Hsub Hpos). pose proof (map_subseteq_size _ _ Hsub).
  rewrite !wrap_u64_small by (unfold is_u64; lia). unfold limit_is_exceeded. intros Hex. bools.
  apply orb_false_iff. split; apply Z.ltb_ge; lia.
Qed.

Lemma subset_subpool self self' n n' q :
  pool_ok self n -> pool_ok self' n' -> subset self self' -> subpool_txs self' q ⊆ subpool_txs self q.
Proof.
  intros [_ [_ _ Hp] _] [_ [_ _ Hp'] _] [_ Hsub]. apply map_subseteq_spec. intros i v Hi.
  apply Hp. apply Hp' in Hi. simpl in *. apply locs_Some in Hi as (t & Ht & ? & ?).
  apply locs_Some. exists t. split_and!; [|done|done]. by eapply lookup_weaken.
Qed.

Lemma sizes_subset m m' : m' ⊆ m -> sizes_ok m -> sizes_ok m'.
Proof.
  intros Hsub [Hpos Htot]. split; [|pose proof (total_size_subset _ _ Hsub Hpos); lia].
  intros i v Hi. apply (Hpos i). by eapply lookup_weaken.
Qed.

Lemma within_subset self self' n n' :
  pool_ok self n -> pool_ok self' n' -> subset self self' -> sizes_ok (AllTxs.pool_txs (all_txs self)) ->
  (pending_exceeds self = false -> pending_exceeds self' = false) /\
  (basefee_exceeds self = false -> basefee_exceeds self' = false) /\
  (blob_exceeds self = false -> blob_exceeds self' = false).
Proof.
  intros Hinv Hinv' Hsub Hsz. pose proof Hsub as [(_ & Hc & _) _].
  assert (Hq : forall q, subpool_txs self' q ⊆ subpool_txs self q /\ sizes_ok (subpool_txs self q)).
  { intros q. split; [by eapply subset_subpool|]. eapply sizes_subset; [by eapply subpool_subset|done]. }
  unfold pending_exceeds, basefee_exceeds, blob_exceeds. rewrite Hc. split_and!.
  - pose proof (exceeds_mono (pending_pool self) (pending_pool self') (pending_limit (config self))) as Hm.
    apply Hm; [apply Hinv|apply Hinv'|apply (Hq TxState.Pending)..].
  - pose proof (exceeds_mono (basefee_pool self) (basefee_pool self') (basefee_limit (config self))) as Hm.
    apply Hm; [apply Hinv|apply Hinv'|apply (Hq BaseFee)..].
  - pose proof (exceeds_mono (blob_pool self) (blob_pool self') (blob_limit (config self))) as Hm.
    apply Hm; [apply Hinv|apply Hinv'|apply (Hq Blob)..].
Qed.

(** ** The limits in numbers *)

Definition limit_of (c : PoolConfig) (q : SubPool) : SubPoolLimit :=
  match q with
  | Queued => queued_limit c
  | TxState.Pending => pending_limit c
  | BaseFee => basefee_limit c
  | Blob => blob_limit c
  end.

(** Every sub-pool has at most as many transactions as its limit says, of at most that size together. *)
Definition within_limits self : Prop := forall q,
  Z.of_nat (size (subpool_txs self q)) <= max_txs (limit_of (config self) q) /\
  total_size (subpool_txs self q) <= max_size (limit_of (config self) q).

Lemma exceeds_spec `{SubPoolImpl P} (p : P) limit : sp_ok p -> sizes_ok (sp_txs p) ->
  limit_is_exceeded limit (sp_len p) (sp_size p) = false <->
  Z.of_nat (size (sp_txs p)) <= max_txs limit /\ total_size (sp_txs p) <= max_size limit.
Proof.
  intros Hp [Hpos Htot]. rewrite sp_len_ok, sp_size_ok by done. pose proof (total_size_subset (sp_txs p) (sp_txs p) ltac:(done) Hpos).
  rewrite wrap_u64_small by (unfold is_u64; lia). unfold limit_is_exceeded. rewrite orb_false_iff, !Z.ltb_ge. done.
Qed.

Lemma within_limits_spec self n : pool_ok self n -> sizes_ok (AllTxs.pool_txs (all_txs self)) ->
  within_limits self <->
  pending_exceeds self = false /\ basefee_exceeds self = false /\ blob_exceeds self = false /\ queued_exceeds self = false.
Proof.
  intros Hinv Hsz. assert (Hq : forall q, sizes_ok (subpool_txs self q)).
  { intros q. eapply sizes_subset; [by eapply subpool_subset|done]. }
  pose proof Hinv as [_ [[P1 P2 P3 P4] _ _] _].
  pose proof (exceeds_spec _ (queued_limit (config self)) P1 (Hq Queued)) as E1.
  pose proof (exceeds_spec _ (basefee_limit (config self)) P2 (Hq BaseFee)) as E2.
  pose proof (exceeds_spec _ (blob_limit (config self)) P3 (Hq Blob)) as E3.
  pose proof (exceeds_spec _ (pending_limit (config self)) P4 (Hq TxState.Pending)) as E4.
  unfold pending_exceeds, basefee_exceeds, blob_exceeds, queued_exceeds. split.
  - intros Hw. split_and!; [apply E4, (Hw TxState.Pending)|apply E2, (Hw BaseFee)|apply E3, (Hw Blob)|apply E1, (Hw Queued)].
  - intros (X4 & X2 & X3 & X1) []; first [by apply E1|by apply E2|by apply E3|by apply E4].
Qed.

(** ** All limits *)

Lemma discard_worst_inv fuel self n :
  pool_ok self n -> Pending.exact (pending_pool self) -> limits_ok (config self) ->
  sizes_ok (AllTxs.pool_txs (all_txs self)) -> (size (all_txs self) < fuel)%nat ->
  exists self' removed, discard_worst fuel self = Some (self', removed) /\ pool_ok self' n /\
    subset self self' /\ within_limits self'.
Proof.
  intros Hinv Hexact Hlim Hsz Hfuel. unfold discard_worst.
  assert (Hstep : forall s s', subset s s' -> (size (all_txs s) < fuel)%nat -> (size (all_txs s') < fuel)%nat).
  { intros s s' [_ Hsub%map_subseteq_size] Hlt. lia. }
  assert (Hsizes : forall s s', subset s s' -> sizes_ok (AllTxs.pool_txs (all_txs s)) -> sizes_ok (AllTxs.pool_txs (all_txs s'))).
  { intros s s' [_ Hsub]. apply sizes_subset. by apply map_fmap_mono. }
  destruct (discard_loop_inv TxState.Pending pending_exceeds truncate_pending pending_good pending_truncates
    pending_good_kept fuel self n [] Hinv (conj Hexact Hlim) Hfuel) as (s1 & r1 & -> & Hinv1 & [_ Hl1] & X1 & Hsub1).
  cbn. destruct (discard_loop_inv BaseFee basefee_exceeds truncate_basefee (fun s => limits_ok (config s))
    basefee_truncates (fun s k s1' r a s2 a' Hi Hg Ht Hd => limits_kept _ _ _ s k s1' r a s2 a'
      (basefee_truncates s k Hi Hg) Hi Ht Hd Hg) fuel s1 n r1 Hinv1 Hl1) as (s2 & r2 & -> & Hinv2 & Hl2 & X2 & Hsub2);
    [eauto|].
  cbn. destruct (discard_loop_inv Blob blob_exceeds truncate_blob (fun s => limits_ok (config s))
    blob_truncates (fun s k s1' r a s2 a' Hi Hg Ht Hd => limits_kept _ _ _ s k s1' r a s2 a'
      (blob_truncates s k Hi Hg) Hi Ht Hd Hg) fuel s2 n (r1 ++ r2) Hinv2 Hl2) as (s3 & r3 & -> & Hinv3 & Hl3 & X3 & Hsub3);
    [eauto|].
  cbn. destruct (discard_loop_inv Queued queued_exceeds truncate_queued (fun s => limits_ok (config s))
    queued_truncates (fun s k s1' r a s2 a' Hi Hg Ht Hd => limits_kept _ _ _ s k s1' r a s2 a'
      (queued_truncates s k Hi Hg) Hi Ht Hd Hg) fuel s3 n ((r1 ++ r2) ++ r3) Hinv3 Hl3) as (s4 & r4 & -> & Hinv4 & Hl4 & X4 & Hsub4);
    [eauto|].
  eexists _, _. split_and!; [done|done|by do 3 (etrans; [done|])|].
  assert (Z1 : sizes_ok (AllTxs.pool_txs (all_txs s1))) by eauto.
  assert (Z2 : sizes_ok (AllTxs.pool_txs (all_txs s2))) by eauto.
  assert (Z3 : sizes_ok (AllTxs.pool_txs (all_txs s3))) by eauto.
  destruct (within_subset s1 s4 n n Hinv1 Hinv4) as (W1 & _); [by do 2 (etrans; [done|])|done|].
  destruct (within_subset s2 s4 n n Hinv2 Hinv4) as (_ & W2 & _); [by etrans|done|].
  destruct (within_subset s3 s4 n n Hinv3 Hinv4 Hsub4 Z3) as (_ & _ & W3).
  apply (within_limits_spec s4 n Hinv4); [by eauto|]. auto.
Qed.

(** There is nothing to do. *)
Lemma discard_worst_within fuel self n :
  pool_ok self n -> sizes_ok (AllTxs.pool_txs (all_txs self)) -> within_limits self -> discard_worst (S fuel) self = Some (self, []).
Proof.
  intros Hinv Hsz (E1 & E2 & E3 & E4)%(within_limits_spec self n Hinv Hsz).
  unfold discard_worst. cbn [discard_loop]. rewrite E1. cbn. rewrite E2. cbn. rewrite E3. cbn. by rewrite E4.
Qed.

End limits.

End PoolLimits.
