(* ===== verification/TxPoolProps.v ===== *)
(** * Properties of the transaction pool

    What [TxPool] promises to its users, proved from the invariant: no
    operation panics, every transaction is in the sub-pool recorded for it, and
    each operation changes the set of transactions exactly as documented. *)

From S2P Require Import Prelude Ordered TxErrors TxIdentifier TxState TxTypes SubPoolSpec.
From S2P Require Import ParkedPool PendingPool BlobFee BlobPool AllTransactions.
From S2P Require Import TxPool TxPoolInv TxPoolOps TxPoolLimits.
Import TxErrors Identifier TxState TxTypes SubPoolSpec BlobFee.
Import Pool PoolInv PoolOps PoolLimits.

Module PoolProps.

#[local] Existing Instance Parked.parked_impl.
#[local] Existing Instance BlobTxs.blob_impl.
#[local] Existing Instance Pending.pending_impl.

Section props.
Context `{AlloyConstants} {ordering : TransactionOrdering}.
Implicit Types (self : TxPool) (v : ValidPoolTransaction) (i : TransactionId).

(** ** Operations as steps *)

(** The calls [PoolInner] makes that change the pool. *)
Inductive PoolOp :=
| OpAdd (tx : ValidPoolTransaction) (on_chain_balance on_chain_nonce : Z) (code_hash : option Z)
| OpRemove (hashes : list Z)
| OpRemoveDescendants (hashes : list Z)
| OpRemoveSender (s : SenderId)
| OpAccounts (changed : gmap SenderId SenderInfo)
| OpBlockInfo (info : BlockInfo)
| OpCanonical (info : BlockInfo) (mined : list Z) (changed : gmap SenderId SenderInfo) (kind : PoolUpdateKind).

Definition run_op (op : PoolOp) self : option TxPool :=
  match op with
  | OpAdd tx bal n code => fst <$> add_transaction self tx bal n code
  | OpRemove hs => fst <$> remove_transactions self hs
  | OpRemoveDescendants hs => fst <$> remove_transactions_and_descendants self hs []
  | OpRemoveSender s => fst <$> remove_transactions_by_sender self s
  | OpAccounts changed => fst <$> update_accounts self changed
  | OpBlockInfo info => set_block_info self info
  | OpCanonical info mined changed kind => fst <$> on_canonical_state_change self info mined changed kind
  end.

(** What the caller has to ensure: a validated transaction is not older than
    its sender's account, and fees fit their types. *)
Definition op_ok (op : PoolOp) self : Prop :=
  match op with
  | OpAdd tx _ n _ => AllTxs.tx_ok tx /\ n <= vnonce tx /\ Z.of_nat (size (all_txs self)) + 1 < u64_modulus
  | OpBlockInfo info | OpCanonical info _ _ _ => info_ok info
  | _ => True
  end.

(** The numbers fit their types. *)
Definition op_fits (op : PoolOp) self : Prop :=
  match op with
  | OpAdd tx _ _ _ => AllTxs.tx_ok tx /\ Z.of_nat (size (all_txs self)) + 1 < u64_modulus
  | OpBlockInfo info | OpCanonical info _ _ _ => info_ok info
  | _ => True
  end.

(** A transaction is added that is older than its sender's account, and nothing else is wrong with it. *)
Definition too_old (op : PoolOp) self : Prop :=
  match op with
  | OpAdd tx _ n code => vnonce tx < n /\ get self (vhash tx) = None /\ validate_auth self tx n code = Ok tt
  | _ => False
  end.

(** An upper bound for the number of submission identifiers it draws. *)
Definition op_cost (op : PoolOp) self : Z :=
  let k := Z.of_nat (size (all_txs self)) in
  match op with
  | OpAdd _ _ _ _ => k + 2
  | OpRemove hs | OpRemoveDescendants hs => Z.of_nat (length hs) * k
  | OpRemoveSender _ => 0
  | OpAccounts _ => k
  | OpBlockInfo _ => 2 * k
  | OpCanonical _ _ _ _ => 3 * k
  end.

Lemma run_op_ok op self n :
  pool_ok self (n + op_cost op self) -> 0 <= n -> op_ok op self ->
  exists self', run_op op self = Some self' /\ pool_ok self' n /\ config self' = config self.
Proof.
  intros Hinv Hn Hop. destruct op as [tx bal k code|hs|hs|s|changed|info|info mined changed kind]; simpl in *.
  - destruct Hop as (H1 & H2 & H3).
    destruct (add_transaction_inv self n tx bal k code) as (s' & r & -> & ? & ? & _);
      [by apply (pool_inv_room _ _ _ _ Hinv); lia|done..|]. by exists s'.
  - destruct (remove_transactions_inv hs self n) as (s' & r & -> & ? & (? & ? & ?) & _);
      [by apply (pool_inv_room _ _ _ _ Hinv); lia|done|]. by exists s'.
  - destruct (remove_and_descendants_inv hs self n []) as (s' & r & -> & ? & (? & ? & ?) & _);
      [by apply (pool_inv_room _ _ _ _ Hinv); lia|done|]. by exists s'.
  - destruct (remove_by_sender_inv self n s) as (s' & r & -> & ? & (? & ? & ?) & _);
      [by apply (pool_inv_room _ _ _ _ Hinv); lia|]. by exists s'.
  - destruct (update_accounts_inv self n changed Hinv Hn) as (s' & -> & ? & _ & ? & _). by exists s'.
  - destruct (set_block_info_inv self n info Hinv Hn Hop) as (s' & -> & ? & (_ & ? & _) & _). by exists s'.
  - destruct (canonical_state_inv self n info mined changed kind Hinv Hn Hop) as (s' & r & -> & ? & ? & _).
    by exists s'.
Qed.

(** Adding a transaction that is older than its sender's account: it is refused, or the assertion fails. *)
Lemma add_stale self tx bal k code : vnonce tx < k ->
  ((exists r, add_transaction self tx bal k code = Some (self, r)) /\ ~ too_old (OpAdd tx bal k code) self) \/
  (add_transaction self tx bal k code = None /\ too_old (OpAdd tx bal k code) self).
Proof.
  intros Hlt. unfold add_transaction, too_old, contains, AllTxs.contains, get. destruct (AllTxs.by_hash _ !! vhash tx) as [w|].
  { rewrite bool_decide_eq_true_2 by eauto. left. split; [by eexists|by intros (_ & ? & _)]. }
  rewrite bool_decide_eq_false_2 by (by intros [? ?]). destruct (validate_auth self tx k code) as [[]|e].
  - right. split; [|done]. unfold AllTxs.insert_tx. by rewrite (proj2 (Z.leb_gt _ _) Hlt).
  - left. split; [by eexists|by intros (_ & _ & ?)].
Qed.

(** *** Enforcing the limits, if it returns *)

Definition gives_some (q : SubPool) (truncate : TxPool -> option (TxPool * list ValidPoolTransaction)) : Prop :=
  forall self n, pool_ok self n -> limits_ok (config self) ->
    exists self1 removed, truncate self = Some (self1, removed) /\ gives_up self q removed self1.

Lemma discard_loop_subset q exceeds truncate fuel self n removed self' removed' :
  gives_some q truncate -> pool_ok self n -> limits_ok (config self) ->
  discard_loop fuel exceeds truncate self removed = Some (self', removed') ->
  pool_ok self' n /\ subset self self' /\ exceeds self' = false.
Proof.
  intros Hg. revert self removed. induction fuel as [|fuel IH]; intros self removed Hinv Hlim; simpl; [done|].
  destruct (exceeds self) eqn:Hex; [|by intros [= <- _]].
  destruct (Hg self n Hinv Hlim) as (s1 & r & -> & Hgu). simpl.
  destruct (gives_up_inv _ _ _ _ _ Hinv Hgu) as (Hinv1 & _).
  destruct (gu_frame _ _ _ _ Hgu) as (S1 & Hc1 & Ha1 & K1).
  destruct (drop_truncated_inv r s1 n removed Hinv1) as (s2 & m2 & -> & Hinv2 & (S2 & Hc2 & K2 & F2) & Hm2). simpl.
  intros Hl. destruct (IH s2 _ Hinv2 ltac:(congruence) Hl) as (? & Hsub & ?). split_and!; [done| |done]. etrans; [|exact Hsub].
  assert (fees s1 = fees self) as Hf1 by (unfold fees; by rewrite Ha1). split; [unfold same_settings; split_and!; congruence|].
  apply map_subseteq_spec. intros i t [Hi _]%Hm2. by rewrite Ha1 in Hi.
Qed.

Lemma discard_loop_partial q exceeds truncate fuel self n removed self' removed' :
  gives_some q truncate -> pool_ok self n -> limits_ok (config self) ->
  discard_loop fuel exceeds truncate self removed = Some (self', removed') ->
  pool_ok self' n /\ config self' = config self.
Proof. intros Hg Hinv Hlim Hd. by destruct (discard_loop_subset _ _ _ _ _ _ _ _ _ Hg Hinv Hlim Hd) as (? & [(_ & ? & _) _] & _). Qed.

Lemma pending_gives_some : gives_some TxState.Pending truncate_pending.
Proof.
  intros self n Hinv _. unfold truncate_pending.
  destruct (Pending.pending_truncate_pool_ok (pending_pool self) (pending_limit (config self)))
    as (p' & r & -> & Hok & E & S & _); [apply Hinv|].
  simpl. eexists _, _. split; [done|]. by eapply with_pending_gives_up.
Qed.

Lemma truncates_gives_some q exceeds truncate :
  (forall self n, pool_ok self n -> limits_ok (config self) -> truncates q exceeds truncate self) ->
  gives_some q truncate.
Proof. intros Ht self n Hinv Hlim. destruct (Ht self n Hinv Hlim) as (s1 & r & ? & ? & _). by exists s1, r. Qed.

(** What is left is part of what there was, and within the limits. *)
Lemma discard_worst_limits fuel self n self' removed :
  pool_ok self n -> limits_ok (config self) -> discard_worst fuel self = Some (self', removed) ->
  pool_ok self' n /\ subset self self' /\ (sizes_ok (AllTxs.pool_txs (all_txs self)) -> within_limits self').
Proof.
  intros Hinv Hlim. unfold discard_worst. rewrite !bind_Some. intros ([s1 r1] & H1 & H2).
  rewrite bind_Some in H2. destruct H2 as ([s2 r2] & H2 & H3). rewrite bind_Some in H3. destruct H3 as ([s3 r3] & H3 & H4). simpl in *.
  assert (Hkeep : forall s s', subset s s' -> limits_ok (config s) -> limits_ok (config s')) by (by intros s s' [(_ & -> & _) _]).
  destruct (discard_loop_subset _ _ _ _ _ _ _ _ _ pending_gives_some Hinv Hlim H1) as (I1 & S1 & X1).
  destruct (discard_loop_subset _ _ _ _ _ _ _ _ _ (truncates_gives_some _ _ _ basefee_truncates) I1 ltac:(eauto) H2) as (I2 & S2 & X2).
  destruct (discard_loop_subset _ _ _ _ _ _ _ _ _ (truncates_gives_some _ _ _ blob_truncates) I2 ltac:(eauto) H3) as (I3 & S3 & X3).
  destruct (discard_loop_subset _ _ _ _ _ _ _ _ _ (truncates_gives_some _ _ _ queued_truncates) I3 ltac:(eauto) H4) as (I4 & S4 & X4).
  split_and!; [done|by do 3 (etrans; [done|])|]. intros Hsz.
  assert (Hsizes : forall s s', subset s s' -> sizes_ok (AllTxs.pool_txs (all_txs s)) -> sizes_ok (AllTxs.pool_txs (all_txs s'))).
  { intros s s' [_ Hsub]. apply sizes_subset. by apply map_fmap_mono. }
  destruct (within_subset s1 self' n n I1 I4) as (W1 & _); [by do 2 (etrans; [done|])|by eauto|].
  destruct (within_subset s2 self' n n I2 I4) as (_ & W2 & _); [by etrans|by eauto|].
  destruct (within_subset s3 self' n n I3 I4 S4) as (_ & _ & W3); [by eauto 6|].
  apply (within_limits_spec self' n I4); [by eauto 7|]. auto.
Qed.

Lemma discard_worst_partial fuel self n self' removed :
  pool_ok self n -> limits_ok (config self) -> discard_worst fuel self = Some (self', removed) ->
  pool_ok self' n /\ config self' = config self.
Proof. intros Hinv Hlim Hd. by destruct (discard_worst_limits _ _ _ _ _ Hinv Hlim Hd) as (? & [(_ & ? & _) _] & _). Qed.

(** *** Reachable pools *)

Inductive pool_step : TxPool -> TxPool -> Prop :=
| step_op op self self' :
    op_ok op self -> has_room self (op_cost op self) -> run_op op self = Some self' -> pool_step self self'
| step_discard fuel self self' removed :
    discard_worst fuel self = Some (self', removed) -> pool_step self self'.

Lemma pool_ok_with_room self n n' : pool_ok self n -> has_room self n' -> pool_ok self n'.
Proof. intros [A [B1 B2 B3] C] Hr. by split. Qed.

Lemma op_cost_nonneg op self : 0 <= op_cost op self.
Proof. destruct op; simpl; lia. Qed.

Lemma pool_steps_ok self self' :
  rtc pool_step self self' -> pool_ok self 0 -> limits_ok (config self) ->
  pool_ok self' 0 /\ config self' = config self.
Proof.
  induction 1 as [|s1 s2 s3 Hs _ IH]; intros Hinv Hlim; [done|].
  assert (Hmid : pool_ok s2 0 /\ config s2 = config s1).
  { destruct Hs as [op s1 s2 Hop Hr Hrun|fuel s1 s2 r Hd].
    - destruct (run_op_ok op s1 0) as (s' & Hrun' & ? & ?);
        [by apply (pool_ok_with_room _ _ _ Hinv)|done|done|]. assert (s' = s2) as -> by congruence. done.
    - by eapply discard_worst_partial. }
  destruct Hmid as [Hinv2 Hc2]. destruct (IH Hinv2) as [? ?]; [congruence|]. split; [done|congruence].
Qed.

(** *** Sizes add up *)

Definition in_subpool (q : SubPool) (m : gmap TransactionId AllTxs.PoolInternalTransaction) :=
  filter (fun e => AllTxs.it_subpool e.2 = q) m.

Lemma subpool_filter self n q :
  pool_ok self n -> subpool_txs self q = AllTxs.pool_txs (in_subpool q (all_txs self)).
Proof.
  intros [_ [_ _ Hp] _]. apply map_eq. intros i. apply option_eq. intros v. rewrite Hp. simpl.
  rewrite locs_Some. unfold AllTxs.pool_txs, in_subpool. rewrite lookup_fmap, fmap_Some.
  setoid_rewrite map_lookup_filter_Some. naive_solver.
Qed.

Lemma in_subpool_insert q i t m :
  m !! i = None -> size (in_subpool q (<[i := t]> m)) =
  ((if decide (AllTxs.it_subpool t = q) then 1 else 0) + size (in_subpool q m))%nat.
Proof.
  intros Hi. unfold in_subpool. destruct (decide (AllTxs.it_subpool t = q)); simpl.
  - rewrite map_filter_insert_True, map_size_insert_None; [done| |done].
    apply map_lookup_filter_None. by left.
  - by rewrite map_filter_insert_False, delete_id.
Qed.

Lemma sizes_by_subpool m :
  size m = (size (in_subpool TxState.Pending m) + size (in_subpool BaseFee m) +
            size (in_subpool Queued m) + size (in_subpool Blob m))%nat.
Proof.
  induction m as [|i t m Hi IH] using map_ind; [done|].
  rewrite map_size_insert_None, !in_subpool_insert, IH by done.
  destruct (AllTxs.it_subpool t); simpl; lia.
Qed.

Lemma pool_size_sum self n :
  pool_ok self n ->
  size_total (pool_size self) = size_pending (pool_size self) + size_basefee (pool_size self) +
    size_queued (pool_size self) + size_blob (pool_size self).
Proof.
  intros Hinv. simpl. unfold AllTxs.len. rewrite sizes_by_subpool.
  assert (Hq : forall q, size (in_subpool q (all_txs self)) = size (subpool_txs self q)).
  { intros q. by rewrite (subpool_filter self n q Hinv), AllTxs.pool_txs_size. }
  rewrite !Hq. simpl. unfold Pending.len, Parked.len, BlobTxs.len, Pending.txs, Parked.txs, BlobTxs.txs.
  rewrite !map_size_fmap. lia.
Qed.

(** *** Where transactions are after a base-fee change *)

Lemma pending_iff self n i :
  pool_ok self n ->
  is_Some (subpool_txs self TxState.Pending !! i) <->
  exists t, all_txs self !! i = Some t /\ AllTxs.it_subpool t = TxState.Pending.
Proof.
  intros [_ [_ _ Hp] _]. split.
  - intros [v Hv]. apply Hp, locs_Some in Hv as (t & ? & _ & ?). by exists t.
  - intros (t & Ht & Hq). exists (AllTxs.it_transaction t). apply Hp, locs_Some. by exists t.
Qed.

Lemma restated_lookup f ids m i :
  restated f ids m !! i = (fun t => if bool_decide (i ∈ ids) then AllTxs.set_subpool (f t) else t) <$> m !! i.
Proof. unfold restated. rewrite map_lookup_imap. by destruct (m !! i). Qed.

Lemma no_fee_not_pending s : is_u8 s -> into_subpool (remove s ENOUGH_FEE_CAP_BLOCK) <> TxState.Pending.
Proof.
  intros Hs. rewrite into_subpool_flags by (apply remove_u8; [done|flag_in]).
  rewrite (contains_remove s ENOUGH_FEE_CAP_BLOCK ENOUGH_FEE_CAP_BLOCK) by (done || flag_in).
  rewrite bool_decide_eq_true_2, andb_false_r by done. by repeat case_match.
Qed.

(** The pending pool after its fees were raised. *)
Lemma raised_pending p bf i :
  Pending.pending_ok p ->
  let r := Pending.update_base_fee p bf in
  (is_Some (Pending.txs p !! i) /\ i ∉ transaction_id <$> r.2) <->
  is_Some (Pending.txs p !! i) /\
  (forall j w, Pending.txs p !! j = Some w -> sender j = sender i -> nonce j <= nonce i -> bf <= vmax_fee_per_gas w).
Proof.
  intros Hok r. destruct (Pending.update_base_fee_ok p bf Hok) as (_ & _ & _ & Hev & Hk). fold r in Hev, Hk.
  transitivity (is_Some (Pending.txs r.1 !! i)).
  - rewrite (ev_rest _ _ _ Hev), lookup_delete_txs. case_bool_decide; [|tauto].
    split; [tauto|by intros [? ?]].
  - unfold Pending.txs. rewrite !lookup_fmap, !fmap_is_Some. split.
    + intros [t' (t & Ht & _ & Hall)%Hk]. split; [eauto|]. intros j w Hj Hs Hn.
      rewrite lookup_fmap in Hj. apply fmap_Some in Hj as (b & Hb & ->).
      specialize (Hall j b Hb Hs Hn). unfold Pending.base_fee_unmet in Hall. by bools.
    + intros [[t Ht] Hall]. eexists. apply Hk. exists t. split_and!; [done|done|]. intros j b Hb Hs Hn.
      apply Z.ltb_ge, (Hall j); [|done|done]. by rewrite lookup_fmap, Hb.
Qed.

(** *** Replacements *)

(** [new] is at least [bump] per cent more than [old], computed in 128 bits. *)
Definition raised_by (bump old new : Z) : Prop := (old * (100 + bump)) mod 2 ^ 128 / 100 <= new.

(** What a transaction has to offer to take the place of another. *)
Definition outbids (bumps : PriceBumpConfig) (old new : ValidPoolTransaction) : Prop :=
  let bump := if decide (ty (transaction old) = EIP4844_TX_TYPE_ID) then replace_blob_tx_price_bump bumps else default_price_bump bumps in
  raised_by bump (max_fee_per_gas (transaction old)) (max_fee_per_gas (transaction new)) /\
  (forall p q, max_priority_fee_per_gas (transaction old) = Some p -> max_priority_fee_per_gas (transaction new) = Some q ->
     p <> 0 -> q <> 0 -> raised_by bump p q) /\
  (forall p, max_fee_per_blob_gas (transaction old) = Some p ->
     raised_by bump p (default 0 (max_fee_per_blob_gas (transaction new)))).

Lemma bumped_spec bump old new : bumped old bump <= new <-> raised_by bump old new.
Proof. unfold bumped, raised_by, wrap_u128. by rewrite Zmult_mod_idemp_r. Qed.

Lemma underpriced_outbids bumps old new : is_underpriced old new bumps = false <-> outbids bumps old new.
Proof.
  unfold is_underpriced, outbids, price_bump. set (bump := if _ =? _ then _ else _).
  replace (if decide _ then _ else _) with bump by (subst bump; case_decide; [rewrite (proj2 (Z.eqb_eq _ _))|rewrite (proj2 (Z.eqb_neq _ _))]; done).
  setoid_rewrite <- bumped_spec. unfold vmax_fee_per_gas.
  destruct (Z.ltb_spec (max_fee_per_gas (transaction new)) (bumped (max_fee_per_gas (transaction old)) bump)) as [Hf|Hf];
    [split; [done|intros []; lia]|].
  assert (forall p q, negb (p =? 0) && negb (q =? 0) && (q <? bumped p bump) = false <-> (p <> 0 -> q <> 0 -> bumped p bump <= q))%bool as Hp.
  { intros p q. destruct (Z.eqb_spec p 0), (Z.eqb_spec q 0); simpl; rewrite ?Z.ltb_ge; naive_solver. }
  specialize (Hp (default 0 (max_priority_fee_per_gas (transaction old))) (default 0 (max_priority_fee_per_gas (transaction new)))).
  cbv zeta. destruct (_ && _ && _)%bool.
  - split; [done|]. intros (_ & Hq & _). apply Hp.
    destruct (max_priority_fee_per_gas (transaction old)), (max_priority_fee_per_gas (transaction new)); naive_solver.
  - apply proj1 in Hp. specialize (Hp eq_refl).
    assert (forall p q, max_priority_fee_per_gas (transaction old) = Some p -> max_priority_fee_per_gas (transaction new) = Some q ->
      p <> 0 -> q <> 0 -> bumped p bump <= q) as Hq by (intros p q Ep Eq; by rewrite Ep, Eq in Hp).
    destruct (max_fee_per_blob_gas (transaction old)) as [o|]; [|split; [|done]; intros _; split_and!; [done..|by intros]].
    destruct (Z.ltb_spec (default 0 (max_fee_per_blob_gas (transaction new))) (bumped o bump)).
    + split; [done|]. intros (_ & _ & Hb). specialize (Hb o eq_refl). lia.
    + split; [|done]. intros _. split_and!; [done..|]. by intros p [= <-].
Qed.

Lemma local_spec c o s : config_is_local c o s = true <-> no_exemptions c = false /\ (o = Local \/ s ∈ local_addresses c).
Proof.
  unfold config_is_local, origin_is_local. destruct (no_exemptions c); [split; [done|by intros [? _]]|].
  rewrite orb_true_iff, bool_decide_eq_true. destruct o; naive_solver.
Qed.

(** ** Claims *)

(** C1: in every pool reached from a new one by adding, removing, account
    changes, block updates and limit enforcement, the four sub-pools hold
    exactly the transactions of the set of all, each in the one sub-pool
    recorded for it, which is the one its state flags call for; look-ups by hash
    and by identifier agree; and the reported sizes add up to the total. *)
Theorem pool_reachable_ok conf self :
  BlobTxs.fees_ok pending_fees_default -> limits_ok conf -> rtc pool_step (pool_new conf) self ->
  (forall q i v, subpool_txs self q !! i = Some v <->
     exists t, all_txs self !! i = Some t /\ AllTxs.it_transaction t = v /\ AllTxs.it_subpool t = q) /\
  (forall i t, all_txs self !! i = Some t -> AllTxs.it_subpool t = into_subpool (AllTxs.it_state t)) /\
  (forall h v, get self h = Some v <-> vhash v = h /\
     exists t, all_txs self !! transaction_id v = Some t /\ AllTxs.it_transaction t = v) /\
  size_total (pool_size self) = size_pending (pool_size self) + size_basefee (pool_size self) +
    size_queued (pool_size self) + size_blob (pool_size self).
Proof.
  intros Hf Hlim Hsteps.
  destruct (pool_steps_ok _ _ Hsteps) as [Hinv _]; [by apply pool_ok_new|done|].
  pose proof Hinv as [Hok [_ _ Hp] _]. split_and!.
  - intros q i v. rewrite Hp. apply locs_Some.
  - intros i t Ht. by apply (AllTxs.ao_settled _ Hok i).
  - intros h v. rewrite (get_spec _ _ _ _ _ Hinv). unfold AllTxs.pool_txs. rewrite lookup_fmap, fmap_Some. naive_solver.
  - by eapply pool_size_sum.
Qed.

(** C2: when an operation on a consistent pool panics: the only one that does is
    adding a transaction with a nonce below the given one of its account, if the pool does not know the transaction and its authorizations pass (an
    assertion of [insert_tx]).  Every other call of an operation returns and leaves the
    pool consistent.  It is assumed that the submission counters do not wrap around, that numbers fit their types, and that
    counters of transactions do.  The operations are those of [PoolOp]: enforcing the limits,
    which may not end, is not one of them. *)
Theorem pool_ops_return op self n :
  pool_ok self (n + op_cost op self) -> 0 <= n -> op_fits op self ->
  (run_op op self = None <-> too_old op self) /\
  (forall self', run_op op self = Some self' -> pool_ok self' n /\ config self' = config self).
Proof.
  intros Hinv Hn Hop. pose proof (run_op_ok op self n Hinv Hn) as Hrun.
  assert (op_ok op self -> ~ too_old op self -> (run_op op self = None <-> too_old op self) /\
    (forall self', run_op op self = Some self' -> pool_ok self' n /\ config self' = config self)) as Hgood.
  { intros Ho Hno. destruct (Hrun Ho) as (s & -> & ? & ?). split; [by split|]. by intros ? [= <-]. }
  destruct op as [tx bal k code|hs|hs|s|changed|info|info mined changed kind]; simpl in Hop, Hgood; try by apply Hgood; [|auto].
  destruct (Z.le_gt_cases k (vnonce tx)) as [Hle|Hlt]; [apply Hgood; [naive_solver|]; intros [? _]; lia|].
  clear Hgood Hrun. simpl. destruct (add_stale self tx bal k code Hlt) as [[(r & ->) Hno]|[-> Hold]]; simpl.
  - split; [split; [done|intros Ho; by destruct (Hno Ho)]|]. intros ? [= <-]. split; [|done]. apply (pool_inv_room _ _ _ _ Hinv). simpl. lia.
  - by split; [split|].
Qed.

(** C3: adding a validated transaction returns.  On success the transaction
    was not known, it is now the one with its identifier, all others are kept,
    the transaction it replaced is reported, and it is in the sub-pool that is
    reported; the cached account of its sender is the given one, and those of all
    other senders stay.  On an error the pool is as it was, except that the
    account of the sender of a transaction that was not known may be cached;
    a transaction that is known is always refused as already imported. *)
Theorem add_transaction_effect self n v bal ocn code :
  pool_ok self (n + Z.of_nat (size (all_txs self)) + 2) -> 0 <= n -> AllTxs.tx_ok v -> ocn <= vnonce v ->
  Z.of_nat (size (all_txs self)) + 1 < u64_modulus ->
  exists self' r, add_transaction self v bal ocn code = Some (self', r) /\ pool_ok self' n /\
    match r with
    | Ok a => get self (vhash v) = None /\
        AllTxs.pool_txs (all_txs self') = <[transaction_id v := v]> (AllTxs.pool_txs (all_txs self)) /\
        added_transaction a = v /\ added_replaced a = AllTxs.pool_txs (all_txs self) !! transaction_id v /\
        subpool_txs self' (added_subpool a) !! transaction_id v = Some v /\
        sender_info self' = <[vsender_id v := mkSenderInfo ocn bal]> (sender_info self)
    | Err e => (self' = self /\ (get self (vhash v) <> None -> e = mkPoolError (vhash v) AlreadyImported)) \/
        (get self (vhash v) = None /\
         self' = with_senders self (<[vsender_id v := mkSenderInfo ocn bal]> (sender_info self)))
    end.
Proof.
  intros Hinv Hn Hv Hnonce Hsz.
  destruct (add_transaction_inv self n v bal ocn code Hinv Hn Hv Hnonce Hsz) as (s' & r & ? & ? & _ & _ & Ho).
  exists s', r. split_and!; [done|done|]. destruct r; [|done]. by destruct Ho as (? & ? & ? & ? & ? & _ & ?).
Qed.

(** C4: what an accepted transaction satisfies: it pays at least the
    configured minimal fee, it fits into a block, its sender has a free slot
    (unless it is local or executes next), it is not older than the account,
    and a transaction it replaces is outbid: its maximal fee per gas is at least the
    one it replaces plus the configured percentage (the one for blob transactions
    if the replaced one has blobs), so is its priority fee if neither is zero, and
    so is its fee per blob gas if the replaced one has blobs.  The raised fees are computed modulo 2^128 and
    rounded down. *)
Theorem add_transaction_admission self v bal ocn code self' a :
  add_transaction self v bal ocn code = Some (self', Ok a) ->
  let all := all_transactions self in
  AllTxs.a_minimal_protocol_basefee all <= vmax_fee_per_gas v /\
  gas_limit (transaction v) <= AllTxs.block_gas_limit all /\
  (default 0 (AllTxs.tx_counter all !! vsender_id v) < AllTxs.a_max_account_slots all \/
   vnonce v = ocn \/
   (no_exemptions (AllTxs.a_local_config all) = false /\
    (origin v = Local \/ tx_sender (transaction v) ∈ local_addresses (AllTxs.a_local_config all)))) /\
  ocn <= vnonce v /\
  (forall e, AllTxs.txs all !! transaction_id v = Some e -> outbids (AllTxs.a_price_bumps all) (AllTxs.it_transaction e) v).
Proof.
  unfold add_transaction. destruct (contains self (vhash v)); [done|].
  destruct (validate_auth self v ocn code); [|done]. simpl.
  destruct (AllTxs.insert_tx (all_transactions self) v bal ocn) as [[[a' r]|e]|] eqn:Hins; [|done|done].
  intros _. apply AllTxs.insert_tx_inv in Hins. cbv zeta in Hins |- *.
  destruct Hins as (Hn & Hval & Hfee & Hrep & _). unfold AllTxs.ensure_valid in Hval.
  destruct (_ && _ && _)%bool eqn:Ecap in Hval; [done|]. destruct (_ <? _) eqn:Egas in Hval; [done|].
  bools. split_and!; [done|done| |done|by intros e He; apply underpriced_outbids, Hrep].
  apply andb_false_iff in Ecap as [Ecap|Ecap]; [apply andb_false_iff in Ecap as [Ecap|Ecap]|]; bools; [|auto|right; left; lia].
  right. right. by apply local_spec.
Qed.

(** C5: a new canonical block leaves exactly the transactions that were not
    mined and whose nonce is not below the changed account of their sender; the
    accounts, the base fee and the blob fee are those of the block. *)
Theorem canonical_state_change_exact self n info mined changed kind :
  pool_ok self (n + 3 * Z.of_nat (size (all_txs self))) -> 0 <= n -> info_ok info ->
  exists self' outcome, on_canonical_state_change self info mined changed kind = Some (self', outcome) /\
    pool_ok self' n /\
    (forall i v, AllTxs.pool_txs (all_txs self') !! i = Some v <->
       AllTxs.pool_txs (all_txs self) !! i = Some v /\ vhash v ∉ mined /\
       forall account, changed !! sender i = Some account -> state_nonce account <= nonce i) /\
    sender_info self' = changed ∪ sender_info self /\
    base_fee (fees self') = pending_basefee info /\
    blob_fee (fees self') = default (blob_fee (fees self)) (pending_blob_fee info).
Proof.
  intros Hinv Hn Hi.
  destruct (canonical_state_inv self n info mined changed kind Hinv Hn Hi)
    as (s' & o & ? & ? & _ & ? & Hf & _ & _ & Hp).
  exists s', o. split_and!; [done|done| |done|by rewrite Hf|by rewrite Hf].
  intros i v. rewrite Hp. unfold without_hashes. rewrite !map_lookup_filter_Some. unfold stale. simpl.
  split.
  - intros [[Hv Hm] Hs]. split_and!; [done|done|]. intros acc Hacc. rewrite Hacc in Hs. lia.
  - intros (Hv & Hm & Hs). split_and!; [done|done|]. destruct (changed !! sender i) as [acc|]; [|tauto].
    specialize (Hs acc eq_refl). lia.
Qed.

(** Removing transactions with their descendants leaves exactly the
    transactions that have no named transaction of the same sender with the
    same or a lower nonce. *)
Theorem remove_descendants_exact self n hs :
  pool_ok self (n + Z.of_nat (length hs * size (all_txs self))) -> 0 <= n ->
  exists self' removed, remove_transactions_and_descendants self hs [] = Some (self', removed) /\
    pool_ok self' n /\
    (forall i v, AllTxs.pool_txs (all_txs self') !! i = Some v <->
       AllTxs.pool_txs (all_txs self) !! i = Some v /\
       forall h w, h ∈ hs -> get self h = Some w ->
         ~ (sender i = vsender_id w /\ nonce (transaction_id w) <= nonce i)).
Proof.
  intros Hinv Hn. destruct (remove_and_descendants_inv hs self n [] Hinv Hn) as (s' & r & ? & ? & _ & ?).
  by exists s', r.
Qed.

(** C7: when the base fee rises, the pending transactions that stay pending
    are exactly those that pay it and have no pending predecessor that does not;
    the others move to another sub-pool, none is lost. *)
Theorem basefee_raise_exact self n bf :
  pool_ok self (n + Z.of_nat (size (all_txs self))) -> 0 <= n -> is_u128 bf -> base_fee (fees self) < bf ->
  exists self', update_basefee self bf = Some (self', Gt, []) /\ pool_ok self' n /\
    AllTxs.pool_txs (all_txs self') = AllTxs.pool_txs (all_txs self) /\
    forall i, is_Some (subpool_txs self' TxState.Pending !! i) <->
      is_Some (subpool_txs self TxState.Pending !! i) /\
      (forall j w, subpool_txs self TxState.Pending !! j = Some w ->
         sender j = sender i -> nonce j <= nonce i -> bf <= vmax_fee_per_gas w).
Proof.
  intros Hinv Hn Hbf Hlt. pose proof (pi_all _ _ _ Hinv) as Hok.
  destruct (update_basefee_raise_inv self n bf Hinv Hn Hbf Hlt) as (s' & Heq & Hinv' & (_ & _ & _ & Hp) & _ & Hm).
  exists s'. split_and!; [done|done|done|]. intros i.
  pose proof (raised_pending (pending_pool self) bf i ltac:(apply Hinv)) as Hr. simpl in Hr |- *. rewrite <- Hr.
  pose proof (pending_iff s' n i Hinv') as Hs'. pose proof (pending_iff self _ i Hinv) as Hs. simpl in Hs, Hs'.
  rewrite Hs', Hs, Hm, restated_lookup. destruct (all_txs self !! i) as [t|] eqn:Ht; simpl; [|naive_solver].
  pose proof (AllTxs.ao_settled _ Hok i t Ht) as [(Hu & _) _]. case_bool_decide as Hin.
  - split; [|tauto]. intros (t' & [= <-] & Hq). by apply no_fee_not_pending in Hq.
  - naive_solver.
Qed.

(** When the base fee falls, exactly those transactions of the base-fee
    pool become pending that pay the new fee and have no predecessor in the
    base-fee pool that does not; they are reported as promoted, and whatever was
    pending stays pending. *)
Theorem basefee_lower_exact self n bf :
  pool_ok self (n + Z.of_nat (size (all_txs self))) -> 0 <= n -> is_u128 bf -> bf < base_fee (fees self) ->
  exists self' promoted, update_basefee self bf = Some (self', Lt, promoted) /\ pool_ok self' n /\
    AllTxs.pool_txs (all_txs self') = AllTxs.pool_txs (all_txs self) /\
    (forall v, v ∈ promoted <-> subpool_txs self BaseFee !! transaction_id v = Some v /\
       forall j w, subpool_txs self BaseFee !! j = Some w -> sender j = vsender_id v ->
         nonce j <= nonce (transaction_id v) -> bf <= vmax_fee_per_gas w) /\
    (forall i, is_Some (subpool_txs self' TxState.Pending !! i) <->
       is_Some (subpool_txs self TxState.Pending !! i) \/ i ∈ transaction_id <$> promoted).
Proof.
  intros Hinv Hn Hbf Hlt. pose proof (pi_all _ _ _ Hinv) as Hok.
  destruct (update_basefee_lower_inv self n bf Hinv Hn Hbf Hlt)
    as (s' & pr & Heq & Hinv' & (_ & _ & _ & Hp) & _ & Hm & Hpr).
  exists s', pr. split_and!; [done|done|done| |].
  - intros v. rewrite Hpr, Parked.satisfy_base_fee_ids_spec. simpl. unfold vsender_id. naive_solver.
  - assert (Hids : forall i, i ∈ transaction_id <$> pr <-> i ∈ Parked.satisfy_base_fee_ids (basefee_pool self) bf).
    { intros i. rewrite list_elem_of_fmap. split.
      - intros (v & -> & [_ ?]%Hpr). done.
      - intros Hi. pose proof Hi as [[v Hv] _]%Parked.satisfy_base_fee_ids_spec. exists v.
        pose proof (Parked.parked_txs_key (basefee_pool self) _ _ ltac:(apply Hinv) Hv) as Hid. split; [done|]. apply Hpr. by rewrite Hid. }
    intros i. rewrite Hids, (pending_iff s' n i Hinv'), (pending_iff self _ i Hinv), Hm, restated_lookup.
    case_bool_decide as Hin; [|destruct (all_txs self !! i); naive_solver].
    split; [by right|]. intros _. pose proof Hin as [[v Hv] _]%Parked.satisfy_base_fee_ids_spec.
    apply (al_placed _ _ _ (pi_locs _ _ _ Hinv) BaseFee), locs_Some in Hv as (t & Ht & _ & Hq). rewrite Ht. simpl.
    eexists. split; [done|]. apply basefee_promotes; [by apply (AllTxs.ao_settled _ Hok i)|done].
Qed.

(** C8: enforcing the limits ends (as many rounds as there are transactions
    are enough for each sub-pool) and only removes transactions; afterwards every
    sub-pool has at most as many transactions as configured, and the sum of their
    sizes is at most the configured one.  If that was so before, nothing is
    removed.  It is provided that the pending pool knows the highest nonce of each of
    its senders (without that the loop may never end), and that the sum of all
    sizes fits into its type. *)
Theorem discard_worst_within_limits fuel self n :
  pool_ok self n -> Pending.exact (pending_pool self) -> limits_ok (config self) ->
  sizes_ok (AllTxs.pool_txs (all_txs self)) -> (size (all_txs self) < fuel)%nat ->
  exists self' removed, discard_worst fuel self = Some (self', removed) /\ pool_ok self' n /\
    all_txs self' ⊆ all_txs self /\ config self' = config self /\
    (forall q, Z.of_nat (size (subpool_txs self' q)) <= max_txs (limit_of (config self) q) /\
       total_size (subpool_txs self' q) <= max_size (limit_of (config self) q)) /\
    (within_limits self -> self' = self /\ removed = []).
Proof.
  intros Hinv Hex Hlim Hsz Hfuel.
  destruct (discard_worst_inv fuel self n Hinv Hex Hlim Hsz Hfuel) as (s' & r & Hd & ? & [(_ & Hc & _) ?] & Hw).
  exists s', r. split_and!; [done..|intros q; rewrite <- Hc; apply Hw|].
  intros Hwi. destruct fuel as [|fuel]; [lia|]. rewrite (discard_worst_within fuel self n) in Hd by done. by injection Hd as <- <-.
Qed.

End props.

(** ** Sequences of operations, and examples *)

Section runs.
Context `{AlloyConstants} {ordering : TransactionOrdering}.
Implicit Types (self : TxPool).

Fixpoint run_ops (ops : list PoolOp) self : option TxPool :=
  match ops with
  | [] => Some self
  | op :: ops => self ← run_op op self; run_ops ops self
  end.

Definition u64b (z : Z) : bool := ((0 <=? z) && (z <? u64_modulus))%bool.
Definition u128b (z : Z) : bool := ((0 <=? z) && (z <? 2 ^ 128))%bool.

Lemma u128b_ok z : u128b z = true -> is_u128 z.
Proof. unfold u128b. intros Hz. by bools. Qed.

Definition infob (info : BlockInfo) : bool :=
  (u128b (pending_basefee info) &&
   match pending_blob_fee info with Some f => u128b f | None => true end)%bool.

Definition opb (op : PoolOp) self : bool :=
  match op with
  | OpAdd tx _ n _ =>
      (vnonce tx =? nonce (transaction_id tx)) && u64b (nonce (transaction_id tx)) &&
      u128b (vmax_fee_per_gas tx) && u128b (default 0 (vmax_fee_per_blob_gas tx)) &&
      (n <=? vnonce tx) && (Z.of_nat (size (all_txs self)) + 1 <? u64_modulus)
  | OpBlockInfo info | OpCanonical info _ _ _ => infob info
  | _ => true
  end%bool.

Definition roomb self (n : Z) : bool :=
  ((n <=? sp_room (queued_pool self)) && (n <=? sp_room (basefee_pool self)) &&
   (n <=? sp_room (blob_pool self)) && (n <=? sp_room (pending_pool self)))%bool.

Lemma infob_ok info : infob info = true -> info_ok info.
Proof.
  unfold infob. intros Hi. bools. split; [by apply u128b_ok|]. intros f Hf. rewrite Hf in *. by apply u128b_ok.
Qed.

Lemma opb_ok op self : opb op self = true -> op_ok op self.
Proof.
  destruct op; simpl; intros Hop; bools; try done; try by apply infob_ok.
  unfold AllTxs.tx_ok, u64b in *. bools. split_and!; [done|by split|by apply u128b_ok|by apply u128b_ok|done|done].
Qed.

Lemma roomb_ok self n : roomb self n = true -> has_room self n.
Proof. unfold roomb. intros Hr. bools. by split. Qed.

(** All operations of the sequence are within their preconditions. *)
Fixpoint checked (ops : list PoolOp) self : bool :=
  match ops with
  | [] => true
  | op :: ops =>
      (opb op self && roomb self (op_cost op self) &&
       match run_op op self with Some self => checked ops self | None => false end)%bool
  end.

Lemma checked_reachable ops self self' :
  checked ops self = true -> run_ops ops self = Some self' -> rtc pool_step self self'.
Proof.
  revert self. induction ops as [|op ops IH]; intros self Hc Hr; simpl in *; [by simplify_eq|].
  destruct (run_op op self) as [s1|] eqn:Hs; [|done]. bools. simpl in Hr.
  eapply rtc_l; [|by apply (IH s1)]. apply (step_op op); [by apply opb_ok|by apply roomb_ok|done].
Qed.

End runs.

Section examples.
#[local] Existing Instance mainnet_constants.
#[local] Instance example_ordering : TransactionOrdering := CoinbaseTipOrdering example_tip.

Definition example_info (fee : Z) : BlockInfo :=
  {| info_last_seen_block_hash := 1; info_last_seen_block_number := 1; info_block_gas_limit := 30000000;
     pending_basefee := fee; pending_blob_fee := Some 1 |}.

Definition add_op (h s n fee on_chain : Z) : PoolOp := OpAdd (example_tx h s n fee 1) 1000 on_chain None.

(** Base fee 10; sender 7 has three executable transactions, sender 8 one that
    cannot pay the base fee, sender 9 one behind a nonce gap. *)
Definition example_ops : list PoolOp :=
  [OpBlockInfo (example_info 10); add_op 1 7 0 100 0; add_op 2 7 1 90 0; add_op 3 7 2 15 0;
   add_op 4 8 0 8 0; add_op 5 9 5 50 3].

Definition example_pool : TxPool := default (pool_new pool_config_default) (run_ops example_ops (pool_new pool_config_default)).

Lemma example_runs : run_ops example_ops (pool_new pool_config_default) = Some example_pool.
Proof. vm_compute. reflexivity. Qed.

Lemma example_reachable : rtc pool_step (pool_new pool_config_default) example_pool.
Proof. apply (checked_reachable example_ops); [vm_compute; reflexivity|apply example_runs]. Qed.

Lemma default_fees_ok : BlobTxs.fees_ok pending_fees_default.
Proof. split; vm_compute; split; congruence. Qed.

Lemma default_limits_ok : limits_ok pool_config_default.
Proof. repeat split; vm_compute; congruence. Qed.

Lemma reached_ok conf self n :
  limits_ok conf -> rtc pool_step (pool_new conf) self -> roomb self n = true -> pool_ok self n.
Proof.
  intros Hl Hs Hr. destruct (pool_steps_ok _ _ Hs) as [Hinv _]; [|done|].
  - by apply pool_ok_new; [apply default_fees_ok|].
  - by apply (pool_ok_with_room _ _ _ Hinv), roomb_ok.
Qed.

Lemma example_ok : pool_ok example_pool 1000.
Proof. apply (reached_ok pool_config_default); [apply default_limits_ok|apply example_reachable|vm_compute; reflexivity]. Qed.

Lemma pool_reachable_ok_witness :
  is_Some (subpool_txs example_pool BaseFee !! mkTransactionId 8 0) /\
  size_total (pool_size example_pool) = 5 /\ size_pending (pool_size example_pool) = 3.
Proof.
  destruct (pool_reachable_ok pool_config_default example_pool default_fees_ok default_limits_ok example_reachable)
    as (Hplaced & _ & _ & Hsum).
  split; [|split; [rewrite Hsum|]; vm_compute; reflexivity].
  eexists. apply Hplaced. eexists. split_and!; vm_compute; reflexivity.
Defined.

Definition example_changed : gmap SenderId SenderInfo := {[ 7 := mkSenderInfo 1 1000 ]}.

(** Accounts change; and a transaction is added whose nonce is below the one of its account. *)
Lemma pool_ops_return_witness :
  (exists self', run_op (OpAccounts example_changed) example_pool = Some self' /\ pool_ok self' 10) /\
  run_op (OpAdd (example_tx 6 7 1 120 1) 1000 5 None) example_pool = None.
Proof.
  split.
  - destruct (pool_ops_return (OpAccounts example_changed) example_pool 10) as (Hnone & Hsome);
      [apply (pool_inv_room _ _ 1000); [apply example_ok|vm_compute; congruence]|done|done|].
    destruct (run_op (OpAccounts example_changed) example_pool) as [s|] eqn:E; [|by destruct (proj1 Hnone eq_refl)].
    exists s. split; [reflexivity|]. by apply Hsome.
  - apply (pool_ops_return (OpAdd (example_tx 6 7 1 120 1) 1000 5 None) example_pool 10).
    + apply (pool_inv_room _ _ 1000); [apply example_ok|vm_compute; congruence].
    + done.
    + split; [split_and!; vm_compute; try split; congruence|vm_compute; reflexivity].
    + split_and!; vm_compute; reflexivity.
Defined.

(** The second transaction of sender 7 is replaced. *)
Lemma add_transaction_effect_witness :
  exists self' a, add_transaction example_pool (example_tx 6 7 1 120 1) 1000 0 None = Some (self', Ok a) /\
    added_replaced a = Some (example_tx 2 7 1 90 1).
Proof.
  destruct (add_transaction_effect example_pool 10 (example_tx 6 7 1 120 1) 1000 0 None)
    as (s & r & Heq & _ & Hr).
  - apply (pool_inv_room _ _ 1000); [apply example_ok|vm_compute; congruence].
  - done.
  - split_and!; vm_compute; try split; congruence.
  - done.
  - vm_compute. reflexivity.
  - assert (Hok : match add_transaction example_pool (example_tx 6 7 1 120 1) 1000 0 None with
                  | Some (_, Ok _) => true | _ => false end = true) by (vm_compute; reflexivity).
    rewrite Heq in Hok. destruct r as [a|e]; [|discriminate Hok]. exists s, a. split; [exact Heq|].
    destruct Hr as (_ & _ & _ & -> & _). vm_compute. reflexivity.
Defined.

Lemma add_transaction_admission_witness :
  7 <= vmax_fee_per_gas (example_tx 6 7 1 120 1) /\
  outbids price_bumps_default (example_tx 2 7 1 90 1) (example_tx 6 7 1 120 1).
Proof.
  destruct (add_transaction example_pool (example_tx 6 7 1 120 1) 1000 0 None) as [[s [a|e]]|] eqn:Heq;
    [|vm_compute in Heq; discriminate Heq..].
  destruct (add_transaction_admission _ _ _ _ _ _ _ Heq) as (Hfee & _ & _ & _ & Hrep).
  split; [exact Hfee|]. refine (Hrep (AllTxs.mkInternal (example_tx 2 7 1 90 1) TxState.Pending 252 1) _).
  vm_compute. reflexivity.
Defined.

(** A block mines the first transaction of sender 7, whose account moves on;
    the second one was overtaken by a transaction the pool has not seen. *)
Lemma canonical_state_change_exact_witness :
  exists self' outcome,
    on_canonical_state_change example_pool (example_info 9) [1] {[ 7 := mkSenderInfo 2 1000 ]} Commit
      = Some (self', outcome) /\
    AllTxs.pool_txs (all_txs self') !! mkTransactionId 7 1 = None /\
    is_Some (AllTxs.pool_txs (all_txs self') !! mkTransactionId 7 2).
Proof.
  destruct (canonical_state_change_exact example_pool 10 (example_info 9) [1] {[ 7 := mkSenderInfo 2 1000 ]} Commit)
    as (s & o & Heq & _ & Hiff & _).
  - apply (pool_inv_room _ _ 1000); [apply example_ok|vm_compute; congruence].
  - done.
  - apply infob_ok. vm_compute. reflexivity.
  - exists s, o. split; [exact Heq|]. split.
    + destruct (_ !! mkTransactionId 7 1) as [v|] eqn:E; [|reflexivity]. apply Hiff in E as (_ & _ & Hs).
      specialize (Hs (mkSenderInfo 2 1000) (lookup_singleton_eq _ _)). simpl in Hs. lia.
    + exists (example_tx 3 7 2 15 1). apply Hiff.
      split; [vm_compute; reflexivity|]. split; [apply not_elem_of_cons; split; [vm_compute; congruence|apply not_elem_of_nil]|].
      intros acc Hacc. simpl in Hacc. rewrite lookup_singleton_eq in Hacc. injection Hacc as <-. simpl. lia.
Defined.

Lemma remove_descendants_exact_witness :
  exists self' removed, remove_transactions_and_descendants example_pool [2] [] = Some (self', removed) /\
    AllTxs.pool_txs (all_txs self') !! mkTransactionId 7 2 = None.
Proof.
  destruct (remove_descendants_exact example_pool 10 [2]) as (s & r & Heq & _ & Hiff).
  - apply (pool_inv_room _ _ 1000); [apply example_ok|vm_compute; congruence].
  - done.
  - exists s, r. split; [exact Heq|].
    destruct (_ !! mkTransactionId 7 2) as [v|] eqn:E; [|reflexivity]. apply Hiff in E as (_ & Hs).
    destruct (Hs 2 (example_tx 2 7 1 90 1)); [apply list_elem_of_here|vm_compute; reflexivity|]. split; vm_compute; congruence.
Defined.

(** The third transaction of sender 7 pays at most 15. *)
Lemma basefee_raise_exact_witness :
  exists self', update_basefee example_pool 20 = Some (self', Gt, []) /\
    is_Some (subpool_txs self' TxState.Pending !! mkTransactionId 7 0) /\
    ~ is_Some (subpool_txs self' TxState.Pending !! mkTransactionId 7 2).
Proof.
  destruct (basefee_raise_exact example_pool 10 20) as (s & Heq & _ & _ & Hiff).
  - apply (pool_inv_room _ _ 1000); [apply example_ok|vm_compute; congruence].
  - done.
  - apply u128b_ok. reflexivity.
  - vm_compute. reflexivity.
  - exists s. split; [exact Heq|]. split.
    + apply Hiff. split; [vm_compute; eauto|]. intros j w Hj Hs Hn.
      assert (j = mkTransactionId 7 0) as ->.
      { assert (0 <= nonce j) as Hnn.
        { pose proof example_ok as [Hok Hal _]. apply (al_placed _ _ _ Hal), locs_Some in Hj as (t & Ht & _).
          apply AllTxs.pool_txs_lookup, (AllTxs.ao_tx _ Hok) in Ht as [<- (_ & [? _] & _)]. done. }
        destruct j; simpl in *. f_equal; [done|lia]. }
      vm_compute in Hj. injection Hj as <-. vm_compute. congruence.
    + intros [_ Hs]%Hiff.
      specialize (Hs (mkTransactionId 7 2) (example_tx 3 7 2 15 1) ltac:(vm_compute; reflexivity) eq_refl ltac:(lia)).
      vm_compute in Hs. congruence.
Defined.

(** Sender 8 can pay a base fee of 8. *)
Lemma basefee_lower_exact_witness :
  exists self' promoted, update_basefee example_pool 8 = Some (self', Lt, promoted) /\
    example_tx 4 8 0 8 1 ∈ promoted.
Proof.
  destruct (basefee_lower_exact example_pool 10 8) as (s & pr & Heq & _ & _ & Hiff & _).
  - apply (pool_inv_room _ _ 1000); [apply example_ok|vm_compute; congruence].
  - done.
  - apply u128b_ok. reflexivity.
  - vm_compute. reflexivity.
  - exists s, pr. split; [exact Heq|]. apply Hiff. split; [vm_compute; reflexivity|].
    intros j w Hj Hs Hn.
    assert (Hall : forallb (fun e => 8 <=? vmax_fee_per_gas e.2) (map_to_list (subpool_txs example_pool BaseFee)) = true)
      by (vm_compute; reflexivity).
    rewrite forallb_forall in Hall. apply Z.leb_le. apply (Hall (j, w)).
    apply list_elem_of_In, elem_of_map_to_list, Hj.
Defined.

(** *** The limits *)

(** The indices of the pending pool, checked entry by entry. *)
Definition exactb (p : Pending.PendingPool) : bool :=
  let l := map_to_list (Pending.by_id p) in
  (forallb (fun e => forallb (fun e' =>
     if decide (sender e.1 = sender e'.1 /\ nonce e.1 < nonce e'.1)
     then bool_decide (is_Some (Pending.by_id p !! mkTransactionId (sender e.1) (nonce e.1 + 1))) else true) l) l &&
   forallb (fun e => match Pending.independent_transactions p !! sender e.1 with
     | Some lo => vnonce (Pending.pd_transaction lo) <=? nonce e.1 | None => false end) l &&
   forallb (fun e => match Pending.highest_nonces p !! sender e.1 with
     | Some hi => nonce e.1 <=? vnonce (Pending.pd_transaction hi) | None => false end) l)%bool.

Lemma exactb_ok p : exactb p = true -> Pending.exact p.
Proof.
  unfold exactb. intros Hb. apply andb_true_iff in Hb as [Hb H3]. apply andb_true_iff in Hb as [H1 H2].
  rewrite forallb_forall in H1, H2, H3.
  assert (Hin : forall i t, Pending.by_id p !! i = Some t -> List.In (i, t) (map_to_list (Pending.by_id p))).
  { intros i t Hi. by apply list_elem_of_In, elem_of_map_to_list. }
  split_and!.
  - intros i j [ti Hi] [tj Hj] Hs Hn. specialize (H1 _ (Hin i ti Hi)). rewrite forallb_forall in H1.
    specialize (H1 _ (Hin j tj Hj)). simpl in H1. rewrite decide_True in H1 by done. by bools.
  - intros i t Hi. specialize (H2 _ (Hin i t Hi)). simpl in H2.
    destruct (Pending.independent_transactions p !! sender i) as [lo|]; [|done]. exists lo. by bools.
  - intros i t Hi. specialize (H3 _ (Hin i t Hi)). simpl in H3.
    destruct (Pending.highest_nonces p !! sender i) as [hi|]; [|done]. exists hi. by bools.
Qed.

Definition small_config : PoolConfig :=
  {| pending_limit := mkSubPoolLimit 2 100000; basefee_limit := limit_default; queued_limit := limit_default;
     blob_limit := limit_default; blob_cache_size := None;
     max_account_slots := TXPOOL_MAX_ACCOUNT_SLOTS_PER_SENDER;
     price_bumps := price_bumps_default; minimal_protocol_basefee := MIN_PROTOCOL_BASE_FEE;
     config_minimum_priority_fee := None; config_gas_limit := ETHEREUM_BLOCK_GAS_LIMIT_30M;
     local_transactions_config := local_config_default;
     pending_tx_listener_buffer_size := PENDING_TX_LISTENER_BUFFER_SIZE;
     new_tx_listener_buffer_size := NEW_TX_LISTENER_BUFFER_SIZE;
     max_new_pending_txs_notifications := MAX_NEW_PENDING_TXS_NOTIFICATIONS;
     max_queued_lifetime := MAX_QUEUED_TRANSACTION_LIFETIME;
     max_inflight_delegated_slot_limit := DEFAULT_MAX_INFLIGHT_DELEGATED_SLOTS |}.

Lemma small_limits_ok : limits_ok small_config.
Proof. repeat split; vm_compute; congruence. Qed.

Definition small_pool : TxPool := default (pool_new small_config) (run_ops example_ops (pool_new small_config)).

Lemma small_reachable : rtc pool_step (pool_new small_config) small_pool.
Proof. apply (checked_reachable example_ops); vm_compute; reflexivity. Qed.

Definition sizesb (m : gmap TransactionId ValidPoolTransaction) : bool :=
  (forallb (fun e => 0 <=? vsize e.2) (map_to_list m) && (total_size m <? u64_modulus))%bool.

Lemma sizesb_ok m : sizesb m = true -> sizes_ok m.
Proof.
  unfold sizesb. intros Hb. bools. split; [|done]. rewrite forallb_forall in *. intros i v Hv.
  apply Z.leb_le. apply (H (i, v)), list_elem_of_In, elem_of_map_to_list, Hv.
Qed.

Lemma discard_worst_within_limits_witness :
  is_exceeded small_pool = true /\
  exists self' removed, discard_worst 10 small_pool = Some (self', removed) /\ within_limits self'.
Proof.
  split; [vm_compute; reflexivity|].
  destruct (discard_worst_within_limits 10 small_pool 0) as (s & r & Heq & _ & _ & Hc & Hx & _).
  - apply (reached_ok small_config); [apply small_limits_ok|apply small_reachable|vm_compute; reflexivity].
  - apply exactb_ok. vm_compute. reflexivity.
  - apply small_limits_ok.
  - apply sizesb_ok. vm_compute. reflexivity.
  - apply Nat.ltb_lt. vm_compute. reflexivity.
  - exists s, r. split; [exact Heq|]. intros q. rewrite Hc. apply Hx.
Defined.

(** ** Where the code does not do what it means to *)

(** Five transactions of sender 7 wait for the base fee to fall, which it does
    in the next block. *)
Definition waiting_ops : list PoolOp :=
  [OpBlockInfo (example_info 100); add_op 1 7 0 50 0; add_op 2 7 1 50 0; add_op 3 7 2 50 0;
   add_op 4 7 3 50 0; add_op 5 7 4 50 0; OpCanonical (example_info 10) [] ∅ Commit].

(** One more empty block, then one that contains the second transaction and,
    at the first nonce, a transaction the pool does not know. *)
Definition stuck_ops : list PoolOp :=
  waiting_ops ++ [OpCanonical (example_info 10) [] ∅ Commit;
   OpCanonical (example_info 10) [2] {[ 7 := mkSenderInfo 2 1000 ]} Commit].

Definition run_small (ops : list PoolOp) : TxPool :=
  default (pool_new small_config) (run_ops ops (pool_new small_config)).

Lemma run_small_reachable ops :
  checked ops (pool_new small_config) = true ->
  match run_ops ops (pool_new small_config) with Some _ => true | None => false end = true ->
  rtc pool_step (pool_new small_config) (run_small ops).
Proof.
  intros Hc Hr. apply (checked_reachable ops); [done|]. unfold run_small.
  destruct (run_ops ops (pool_new small_config)); [done|discriminate Hr].
Qed.

(** Enforcing the limits can run forever.  After [stuck_ops] the pending
    pool holds three transactions, one more than its limit, of a sender whose
    entry in the index of highest nonces is lost; truncation finds nothing to
    remove, so no number of rounds ends the loop. *)
Theorem discard_worst_diverges :
  rtc pool_step (pool_new small_config) (run_small stuck_ops) /\
  forall fuel, discard_worst fuel (run_small stuck_ops) = None.
Proof.
  split; [apply run_small_reachable; vm_compute; reflexivity|].
  assert (Hx : pending_exceeds (run_small stuck_ops) = true) by (vm_compute; reflexivity).
  assert (Ht : truncate_pending (run_small stuck_ops) = Some (run_small stuck_ops, [])) by (vm_compute; reflexivity).
  revert Hx Ht. generalize (run_small stuck_ops) as self. intros self Hx Ht.
  assert (Hloop : forall fuel acc, discard_loop fuel pending_exceeds truncate_pending self acc = None).
  { intros fuel. induction fuel as [|fuel IH]; intros acc; simpl; [reflexivity|].
    rewrite Hx, Ht. simpl. apply IH. }
  intros fuel. unfold discard_worst. rewrite Hloop. reflexivity.
Qed.

(** When the base fee falls with a block, only the first two of five
    consecutive executable transactions become pending, the others are queued as
    if an ancestor were parked: the flag for the next transaction is computed
    before the fee of the current one is rechecked.  The next block repairs it. *)
Theorem stale_parked_ancestor :
  let self := run_small waiting_ops in
  rtc pool_step (pool_new small_config) self /\
  forallb (fun e => base_fee (fees self) <=? vmax_fee_per_gas (AllTxs.it_transaction e.2))
    (map_to_list (all_txs self)) = true /\
  nonce <$> (bt_entries (all_txs self)).*1 = [0; 1; 2; 3; 4] /\
  size_pending (pool_size self) = 2 /\ size_queued (pool_size self) = 3 /\
  size_pending (pool_size (run_small (waiting_ops ++ [OpCanonical (example_info 10) [] ∅ Commit]))) = 5.
Proof.
  split_and!; [apply run_small_reachable; vm_compute; reflexivity|vm_compute; reflexivity..].
Qed.

(** The second transaction arrives first, while the base fee is low; then the
    base fee rises, then the first transaction arrives. *)
Definition below_ops : list PoolOp :=
  [OpBlockInfo (example_info 8); add_op 1 9 1 12 0; OpCanonical (example_info 20) [] ∅ Commit; add_op 2 9 0 50 0].

(** A transaction that cannot pay the base fee can become pending.  While
    it waits behind a nonce gap a rising base fee does not clear its fee flag,
    and closing the gap does not recheck it. *)
Theorem pending_below_base_fee :
  let self := run_small below_ops in
  rtc pool_step (pool_new small_config) self /\
  base_fee (fees self) = 20 /\
  vmax_fee_per_gas <$> subpool_txs self TxState.Pending !! mkTransactionId 9 1 = Some 12.
Proof.
  split_and!; [apply run_small_reachable; vm_compute; reflexivity|vm_compute; reflexivity..].
Qed.

End examples.

End PoolProps.
