(* ===== verification/TxPoolBest.v ===== *)
(** * Read access to the transaction pool

    The queries of [TxPool] in [crates/transaction-pool/src/pool/txpool.rs]: the
    iterators over the best transactions for the next block, also for fees other
    than the tracked ones, and the views by sub-pool and sender. *)

From S2P Require Import Prelude Ordered TxErrors TxIdentifier TxState TxTypes SubPoolSpec.
From S2P Require Import ParkedPool PendingPool BlobFee BlobPool AllTransactions.
From S2P Require Import BestTxs BestProps BestWrap TxPool TxPoolInv TxPoolOps TxPoolLimits TxPoolProps.
Import TxErrors Identifier TxState TxTypes SubPoolSpec BlobFee.
Import Pool PoolInv.

Module PoolBest.
Import BestTxs.Best BestProps.BestProps BestWrap.BestWrap.

Section queries.
Context `{AlloyConstants} {ordering : TransactionOrdering}.
Implicit Types self : TxPool.

(** ** Iterators *)

(** [Box<dyn BestTransactions>]. *)
Inductive BoxedBest :=
| BoxBest (b : BestTransactions)
| BoxFees (w : BestTransactionsWithFees).

#[export] Instance BoxedBest_trait : BestTransactionsTrait BoxedBest := {
  bi_next it :=
    match it with
    | BoxBest b => r ← bi_next b; Some (BoxBest r.1, r.2)
    | BoxFees w => r ← bi_next w; Some (BoxFees r.1, r.2)
    end;
  bi_mark_invalid it tx kind :=
    match it with
    | BoxBest b => BoxBest (bi_mark_invalid b tx kind)
    | BoxFees w => BoxFees (bi_mark_invalid w tx kind)
    end;
  bi_no_updates it :=
    match it with
    | BoxBest b => BoxBest (bi_no_updates b)
    | BoxFees w => BoxFees (bi_no_updates w)
    end;
  bi_set_skip_blobs it skip :=
    match it with
    | BoxBest b => BoxBest (bi_set_skip_blobs b skip)
    | BoxFees w => BoxFees (bi_set_skip_blobs w skip)
    end;
  bi_fuel it := match it with BoxBest b => bi_fuel b | BoxFees w => bi_fuel w end;
}.

Definition best_transactions self : BestTransactions := best (pending_pool self).

Definition best_transactions_with_attributes self (attributes : BestTransactionsAttributes)
  : option BoxedBest :=
  let new_blob_fee := default 0 (attr_blob_fee attributes) in
  match Z.compare (attr_basefee attributes) (base_fee (fees self)) with
  | Eq =>
      match Z.compare new_blob_fee (wrap_u64 (blob_fee (fees self))) with
      | Lt =>
          let unlocked := BlobTxs.satisfy_attributes (blob_pool self) attributes in
          Some (BoxFees (best_with_unlocked_and_attributes (pending_pool self) unlocked
                  (attr_basefee attributes) new_blob_fee))
      | Eq => Some (BoxBest (best (pending_pool self)))
      | Gt =>
          Some (BoxFees (best_with_basefee_and_blobfee (pending_pool self)
                  (attr_basefee attributes) (default 0 (attr_blob_fee attributes))))
      end
  | Gt =>
      match Z.compare new_blob_fee (wrap_u64 (blob_fee (fees self))) with
      | Lt =>
          let unlocked := BlobTxs.satisfy_attributes (blob_pool self) attributes in
          Some (BoxFees (best_with_unlocked_and_attributes (pending_pool self) unlocked
                  (attr_basefee attributes) new_blob_fee))
      | Eq | Gt =>
          Some (BoxFees (best_with_basefee_and_blobfee (pending_pool self)
                  (attr_basefee attributes) new_blob_fee))
      end
  | Lt =>
      unlocked ← Parked.satisfy_base_fee_transactions (basefee_pool self) (attr_basefee attributes);
      let unlocked := unlocked ++ BlobTxs.satisfy_attributes (blob_pool self) attributes in
      Some (BoxFees (best_with_unlocked_and_attributes (pending_pool self) unlocked
              (attr_basefee attributes) (default 0 (attr_blob_fee attributes))))
  end.

(** ** Views *)

Definition pending_transactions self : list ValidPoolTransaction :=
  Pending.all (pending_pool self).

Definition pending_transactions_count self : Z := Pending.len (pending_pool self).

Definition pending_transactions_with_predicate self (predicate : ValidPoolTransaction -> bool)
  : list ValidPoolTransaction := List.filter predicate (pending_transactions self).

Definition pending_txs_by_sender self (s : SenderId) : list ValidPoolTransaction :=
  List.filter (fun tx => vsender_id tx =? s) (pending_transactions self).

Definition queued_transactions self : list ValidPoolTransaction :=
  Parked.all (basefee_pool self) ++ Parked.all (queued_pool self).

Definition queued_transactions_count self : Z :=
  wrap_u64 (Parked.len (basefee_pool self) + Parked.len (queued_pool self)).

Definition queued_and_pending_txs_by_sender self (s : SenderId)
  : list TransactionId * list TransactionId :=
  (Parked.get_txs_by_sender (queued_pool self) s, Pending.get_txs_by_sender (pending_pool self) s).

Definition queued_txs_by_sender self (s : SenderId) : list ValidPoolTransaction :=
  List.filter (fun tx => vsender_id tx =? s) (queued_transactions self).

Definition get_all self (hashes : list Z) : list ValidPoolTransaction := omap (get self) hashes.

Definition unique_senders self : gset Z :=
  list_to_set ((fun e => tx_sender (transaction (AllTxs.it_transaction e.2))) <$>
                 map_to_list (AllTxs.txs (all_transactions self))).

Definition is_empty self : bool := bool_decide (AllTxs.txs (all_transactions self) = ∅).

(** ** What the iterators return *)

(** [k] calls of [next], and what they return. *)
Fixpoint bi_calls {I : Type} `{!BestTransactionsTrait I} (k : nat) (it : I)
  : option (I * list ValidPoolTransaction) :=
  match k with
  | O => Some (it, [])
  | S k => r ← bi_next it; rest ← bi_calls k r.1; Some (rest.1, option_list r.2 ++ rest.2)
  end.

Implicit Types (b : BestTransactions) (P : ValidPoolTransaction -> Prop).

(** All transactions an iterator holds satisfy [P], and no others will arrive. *)
Record only P b : Prop := {
  only_ind t : t ∈ independent b -> P (Pending.pd_transaction t);
  only_all i t : best_all b !! i = Some t -> P (Pending.pd_transaction t);
  only_quiet : queue_length b = O;
}.

Lemma only_pop P b b' t : only P b -> pop_best b = (b', Some t) -> only P b' /\ P (Pending.pd_transaction t).
Proof.
  intros [Hi Ha Hq] Hpop. apply pop_best_Some in Hpop as (_ & Happ & Hall & _ & Hr & _).
  split; [split|].
  - intros x Hx. apply Hi. rewrite Happ. apply elem_of_app. by left.
  - intros i x. rewrite Hall, lookup_delete_Some. intros [_ Hx]. by eapply Ha.
  - unfold queue_length. by rewrite Hr.
  - apply Hi. rewrite Happ. apply elem_of_app. right. apply list_elem_of_here.
Qed.

Lemma only_unlock P b t : only P b -> only P (unlock_next b t).
Proof.
  intros [Hi Ha Hq]. unfold unlock_next. destruct (best_all b !! _) as [u|] eqn:E; [|by split].
  split; simpl; [|done|done]. intros x Hx.
  apply (bset_insert_incl Pending.pending_cmp) in Hx as [->|Hx]; [by eapply Ha|auto].
Qed.

Lemma only_next fuel P b b' r :
  only P b -> next_loop fuel b = Some (b', r) -> only P b' /\ forall v, r = Some v -> P v.
Proof.
  revert b. induction fuel as [|fuel IH]; intros b Ho; [done|]. simpl.
  rewrite quiet_receive by apply (only_quiet _ _ Ho). simpl.
  destruct (pop_best b) as [b1 [t|]] eqn:Ep.
  2:{ unfold pop_best in Ep. destruct (last _); [done|]. simplify_eq. by intros [= <- <-]. }
  destruct (only_pop P b b1 t Ho Ep) as [Ho1 Ht]. case_bool_decide; [by apply IH|].
  pose proof (only_unlock P b1 t Ho1) as Ho2. destruct (_ && _)%bool.
  - apply IH. destruct Ho2. by split.
  - intros [= <- <-]. split; [|by intros v [= <-]]. unfold record_priority.
    destruct (new_transaction_receiver _) as [q|] eqn:E; [|done]. destruct Ho2 as [H1 H2 H3].
    split; [done|done|]. unfold queue_length in *. simpl. by rewrite E in H3.
Qed.

Lemma only_fees_next fuel P (w w' : BestTransactionsWithFees) r :
  only P (fees_best w) -> fees_next_loop fuel w = Some (w', r) ->
  only P (fees_best w') /\ forall v, r = Some v -> P v.
Proof.
  revert w. induction fuel as [|fuel IH]; intros w Ho; [done|]. simpl.
  destruct (next_total (fees_best w)) as (b & r0 & Hn). rewrite Hn. simpl.
  destruct (only_next _ P _ _ _ Ho Hn) as [Ho' Hv]. destruct r0 as [v|]; [|by intros [= <- <-]].
  destruct (satisfies_fees _ _ _); [intros [= <- <-]; split; [done|by intros v' [= <-]; apply Hv]|].
  apply IH. destruct Ho'. by split.
Qed.

Lemma only_best P (p : Pending.PendingPool) :
  Pending.pending_ok p -> (forall i v, Pending.txs p !! i = Some v -> P v) -> only P (best p).
Proof.
  intros Hok Hp.
  assert (Ha : forall i t, Pending.by_id p !! i = Some t -> P (Pending.pd_transaction t)).
  { intros i t Ht. apply (Hp i). unfold Pending.txs. by rewrite lookup_fmap, Ht. }
  split; [|exact Ha|done]. intros t Ht%independent_lookup; [|done].
  destruct (Pending.ok_ind p Hok _ _ Ht) as [_ Hby]. by eapply Ha.
Qed.

Lemma only_add_pending P b t : only P b -> P (Pending.pd_transaction t) -> only P (add_pending b t).
Proof.
  intros [Hi Ha Hq] Ht. split; simpl; [| |done].
  - intros x. destruct (best_ancestor b _); [apply Hi|]. intros Hx.
    apply (bset_insert_incl Pending.pending_cmp) in Hx as [->|Hx]; auto.
  - intros i x. rewrite lookup_insert_Some. intros [[_ <-]|[_ Hx]]; [done|]. by eapply Ha.
Qed.

Lemma only_unlocked P bf b sub vs : only P b -> Forall P vs -> only P (add_unlocked bf b sub vs).
Proof.
  intros Hb Hvs. revert b sub Hb. induction Hvs as [|v vs Hv Hvs IH]; intros b sub Hb; simpl; [done|].
  apply IH. by apply only_add_pending.
Qed.

(** What a boxed iterator will return satisfies [P], and the fees if it has
    any. *)
Definition only_boxed P (it : BoxedBest) : Prop :=
  match it with
  | BoxBest b => only P b
  | BoxFees w => only P (fees_best w)
  end.

Definition boxed_fees (it : BoxedBest) (v : ValidPoolTransaction) : bool :=
  match it with
  | BoxBest _ => true
  | BoxFees w => satisfies_fees (wf_base_fee w) (wf_base_fee_per_blob_gas w) v
  end.

Lemma boxed_calls k P it :
  only_boxed P it ->
  exists it' l, bi_calls k it = Some (it', l) /\
    forall v, v ∈ l -> P v /\ boxed_fees it v = true.
Proof.
  revert it. induction k as [|k IH]; intros it Ho; simpl.
  { eexists _, _. split; [done|]. intros v Hv. by apply not_elem_of_nil in Hv. }
  assert (exists it1 r, bi_next it = Some (it1, r) /\ only_boxed P it1 /\
    (forall v, boxed_fees it1 v = boxed_fees it v) /\
    forall v, r = Some v -> P v /\ boxed_fees it v = true) as (it1 & r & Hn & Ho1 & Hf & Hv).
  { destruct it as [b|w]; simpl in *.
    - destruct (next_total b) as (b' & r & Hn). rewrite Hn. simpl. eexists _, _. split; [done|].
      destruct (only_next _ P _ _ _ Ho Hn) as [Ho' Hv]. split_and!; [done|done|]. intros v Hr. auto.
    - destruct (fees_next_total w) as (w' & r & Hn & E1 & E2 & Hfee). rewrite Hn. simpl.
      eexists _, _. split; [done|]. destruct (only_fees_next _ P _ _ _ Ho Hn) as [Ho' Hv].
      split_and!; [done|intros v; simpl; by rewrite E1, E2|]. intros v Hr. auto. }
  change (match it with BoxBest b => _ | BoxFees w => _ end) with (bi_next it). rewrite Hn. simpl.
  destruct (IH it1 Ho1) as (it2 & l & -> & Hl). simpl. eexists _, _. split; [done|].
  intros v [Hr|Hr]%elem_of_app; [|rewrite <- Hf; auto].
  destruct r as [v'|]; simpl in Hr; [|by apply not_elem_of_nil in Hr].
  apply list_elem_of_singleton in Hr as ->. auto.
Qed.

(** ** The iterator for given fees *)

(** A transaction of the pool that is not queued. *)
Definition in_block_pool self (v : ValidPoolTransaction) : Prop :=
  exists p, p <> Queued /\ subpool_txs self p !! transaction_id v = Some v.

Lemma satisfy_attributes_from (p : BlobTxs.BlobTransactions) attributes v :
  v ∈ BlobTxs.satisfy_attributes p attributes -> exists i, BlobTxs.txs p !! i = Some v.
Proof.
  unfold BlobTxs.satisfy_attributes. destruct (attr_blob_fee attributes) as [fee|].
  2:{ intros Hv. by apply not_elem_of_nil in Hv. }
  intros ([i t] & -> & Hin)%list_elem_of_fmap. exists i. unfold BlobTxs.txs.
  apply scan_kept_elem, elem_of_bt_entries in Hin. by rewrite lookup_fmap, Hin.
Qed.

Lemma satisfy_base_fee_from (p : Parked.ParkedPool) bf :
  exists vs, Parked.satisfy_base_fee_transactions p bf = Some vs /\
    forall v, v ∈ vs -> exists i, Parked.txs p !! i = Some v.
Proof.
  unfold Parked.satisfy_base_fee_transactions.
  assert (Hget : forall i, Parked.pt_transaction <$> Parked.get p i = Parked.txs p !! i)
    by (intros i; unfold Parked.txs; by rewrite lookup_fmap).
  destruct (mapM_is_Some_2 (fun i => Parked.pt_transaction <$> Parked.get p i)
    (Parked.satisfy_base_fee_ids p bf)) as [vs Hvs].
  { apply Forall_forall. intros i Hi. cbv beta. unfold compose. rewrite Hget.
    by apply Parked.satisfy_base_fee_ids_spec in Hi as [? _]. }
  exists vs. split; [exact Hvs|]. apply mapM_Some_1 in Hvs.
  intros v [k Hk]%list_elem_of_lookup. destruct (Forall2_lookup_r _ _ _ _ _ Hvs Hk) as (i & _ & Hi).
  exists i. by rewrite <- Hget.
Qed.

Lemma in_pool_at self p i v :
  pools_ok self -> p <> Queued -> subpool_txs self p !! i = Some v -> in_block_pool self v.
Proof.
  intros [O1 O2 O3 O4] Hq Hi. exists p. split; [done|].
  assert (transaction_id v = i) as ->; [|done].
  destruct p; [done| | |].
  - exact (Parked.parked_txs_key _ _ _ O2 Hi).
  - exact (BlobTxs.blob_txs_key _ _ _ O3 Hi).
  - exact (Pending.pending_txs_key _ _ _ O4 Hi).
Qed.

Lemma unlocked_only self (attributes : BestTransactionsAttributes) bf :
  pools_ok self ->
  only (in_block_pool self) (best (pending_pool self)) /\
  Forall (in_block_pool self) (BlobTxs.satisfy_attributes (blob_pool self) attributes) /\
  exists vs, Parked.satisfy_base_fee_transactions (basefee_pool self) bf = Some vs /\
    Forall (in_block_pool self) vs.
Proof.
  intros Hok. split_and!.
  - apply only_best; [apply (po_pending _ Hok)|]. intros i v. by apply (in_pool_at self TxState.Pending).
  - apply Forall_forall. intros v [i Hi]%satisfy_attributes_from. by apply (in_pool_at self Blob i).
  - destruct (satisfy_base_fee_from (basefee_pool self) bf) as (vs & -> & Hvs). exists vs.
    split; [done|]. apply Forall_forall. intros v [i Hi]%Hvs. by apply (in_pool_at self BaseFee i).
Qed.

(** The iterator for given fees.  For every consistent pool and all
    attributes the request returns an iterator; every call of [next] returns;
    what is returned are transactions of the pending, the base-fee or the blob
    pool; and unless the attributes are the fees the pool tracks, each of them
    pays the given base fee and, if it carries blobs, the given blob fee. *)
Theorem best_with_attributes_sound self n attributes :
  pool_ok self n ->
  exists it, best_transactions_with_attributes self attributes = Some it /\
    forall k, exists it' l, bi_calls k it = Some (it', l) /\
      forall v, v ∈ l ->
        in_block_pool self v /\
        ((attr_basefee attributes, default 0 (attr_blob_fee attributes)) <>
           (base_fee (fees self), wrap_u64 (blob_fee (fees self))) ->
         pays_fees (attr_basefee attributes) (default 0 (attr_blob_fee attributes)) v).
Proof.
  intros [_ [Hok _ _] _].
  destruct (unlocked_only self attributes (attr_basefee attributes) Hok) as (Hbest & Hblob & vs & Hvs & Hbase).
  enough (exists it, best_transactions_with_attributes self attributes = Some it /\
    only_boxed (in_block_pool self) it /\
    ((attr_basefee attributes, default 0 (attr_blob_fee attributes)) <>
       (base_fee (fees self), wrap_u64 (blob_fee (fees self))) ->
     boxed_fees it = satisfies_fees (attr_basefee attributes) (default 0 (attr_blob_fee attributes))))
    as (it & Hit & Ho & Hf).
  { exists it. split; [done|]. intros k. destruct (boxed_calls k _ it Ho) as (it' & l & Hc & Hl).
    exists it', l. split; [done|]. intros v Hv. destruct (Hl v Hv) as [Hp Hfee]. split; [done|].
    intros Hne. apply satisfies_fees_spec. by rewrite <- Hf. }
  unfold best_transactions_with_attributes. rewrite Hvs. cbn [mbind option_bind].
  destruct (Z.compare_spec (attr_basefee attributes) (base_fee (fees self))) as [E1|E1|E1];
    destruct (Z.compare_spec (default 0 (attr_blob_fee attributes)) (wrap_u64 (blob_fee (fees self))))
      as [E2|E2|E2]; eexists; (split; [reflexivity|]); (split; [|try done]).
  all: try exact Hbest.
  all: try (apply only_unlocked; [exact Hbest|]; first [exact Hblob|by apply Forall_app]).
  intros Hne. destruct Hne. by rewrite E1, E2.
Qed.

End queries.

(** ** Witnesses *)

Section examples.
#[local] Existing Instance mainnet_constants.
#[local] Existing Instance PoolProps.example_ordering.

(** The hashes returned by six calls. *)
Definition six_calls (o : option BoxedBest) : list Z :=
  match o with
  | Some it => match bi_calls 6 it with Some (_, l) => vhash <$> l | None => [] end
  | None => []
  end.

(** A lower base fee lets a transaction of the base-fee pool in. *)
Lemma best_with_attributes_sound_witness :
  exists it it' l,
    best_transactions_with_attributes PoolProps.example_pool (mkBestAttributes 8 None) = Some it /\
    bi_calls 6 it = Some (it', l) /\ vhash <$> l = [1; 2; 3; 4].
Proof.
  destruct (best_with_attributes_sound PoolProps.example_pool 1000 (mkBestAttributes 8 None)
    PoolProps.example_ok) as (it & Hit & Hcalls).
  destruct (Hcalls 6%nat) as (it' & l & Hl & _). exists it, it', l. split; [exact Hit|].
  split; [exact Hl|].
  assert (Hr : six_calls (best_transactions_with_attributes PoolProps.example_pool
    (mkBestAttributes 8 None)) = [1; 2; 3; 4]) by (vm_compute; reflexivity).
  rewrite Hit in Hr. unfold six_calls in Hr. rewrite Hl in Hr. exact Hr.
Defined.

End examples.

End PoolBest.
