(* ===== verification/TxPoolRemoved.v ===== *)
(** * What the pool reports as removed

    The operations of [TxPool] that remove transactions return what they
    removed; the pool around it deletes blobs and notifies listeners from these
    lists.  They are exact: each transaction that left the pool is listed once
    ([evicts]). *)

From S2P Require Import Prelude Ordered TxErrors TxIdentifier TxState TxTypes SubPoolSpec.
From S2P Require Import ParkedPool PendingPool BlobFee BlobPool AllTransactions.
From S2P Require Import TxPool TxPoolInv TxPoolOps TxPoolLimits TxPoolProps.
Import TxErrors Identifier TxState TxTypes SubPoolSpec BlobFee.
Import Pool PoolInv PoolOps PoolLimits PoolProps.

Module PoolRemoved.

#[local] Existing Instance Parked.parked_impl.
#[local] Existing Instance BlobTxs.blob_impl.
#[local] Existing Instance Pending.pending_impl.

Section removed.
Context `{AlloyConstants} {ordering : TransactionOrdering}.
Implicit Types (self : TxPool) (v : ValidPoolTransaction) (i : TransactionId).

(** All transactions of the pool. *)
Definition txs_of self : TxMap := AllTxs.pool_txs (all_txs self).

(** Those that are not on their way from one sub-pool to another. *)
Definition live self (T : list TransactionId) : TxMap := delete_ids (txs_of self) T.

Lemma txs_keyed self T n i v : pool_inv self T n -> txs_of self !! i = Some v -> transaction_id v = i.
Proof. intros [Hok _ _] Hv. by apply (AllTxs.ao_tx _ Hok) in Hv as [? _]. Qed.

(** ** Evictions *)

Lemma live_minus self self' T i :
  txs_of self' = delete i (txs_of self) -> live self' T = delete i (live self T).
Proof.
  intros E. unfold live. rewrite E. apply map_eq. intros j.
  destruct (decide (i = j)) as [->|Hne].
  - rewrite lookup_delete_eq, lookup_delete_ids. case_bool_decide; [done|]. apply lookup_delete_eq.
  - rewrite lookup_delete_ne, !lookup_delete_ids by done. by rewrite lookup_delete_ne.
Qed.

(** ** One transaction and its descendants *)

Lemma remove_transaction_evicts self T n i :
  pool_inv self T n ->
  exists self' r, remove_transaction self i = Some (self', r) /\ pool_inv self' T n /\
    evicts (live self T) (option_list r) (live self' T).
Proof.
  intros Hinv.
  destruct (remove_transaction_inv self T n i Hinv) as (s1 & r & Hr & Hinv1 & _ & Hm & Hin & Hout).
  exists s1, r. split_and!; [done|done|].
  assert (E : txs_of s1 = delete i (txs_of self)) by (unfold txs_of, AllTxs.pool_txs; by rewrite Hm, fmap_delete).
  rewrite (live_minus _ _ _ _ E). destruct (decide (i ∈ T)) as [HT|HT].
  - rewrite (Hout HT). simpl. rewrite delete_id; [apply evicts_nil|].
    unfold live. by rewrite lookup_delete_ids, bool_decide_eq_true_2.
  - rewrite (Hin HT). destruct (all_txs self !! i) as [t|] eqn:Ht; simpl.
    + pose proof (AllTxs.pool_txs_lookup _ _ _ Ht) as Hv.
      assert (Hid := txs_keyed self T n i _ Hinv Hv). rewrite <- Hid at 1. apply evicts_one.
      unfold live. rewrite Hid, lookup_delete_ids, bool_decide_eq_false_2 by done. done.
    + rewrite delete_id; [apply evicts_nil|]. unfold live. rewrite lookup_delete_ids.
      case_bool_decide; [done|]. unfold txs_of, AllTxs.pool_txs. by rewrite lookup_fmap, Ht.
Qed.

Lemma remove_descendants_evicts fuel self T n i acc self' acc' :
  pool_inv self T n -> remove_descendants fuel self i acc = Some (self', acc') ->
  exists removed, acc' = acc ++ removed /\ pool_inv self' T n /\ evicts (live self T) removed (live self' T).
Proof.
  revert self i acc. induction fuel as [|fuel IH]; intros self i acc Hinv; simpl; [done|].
  destruct (AllTxs.descendant_txs_exclusive _ i) as [|[d t] l].
  - intros [= <- <-]. exists []. rewrite app_nil_r. split_and!; [done|done|apply evicts_nil].
  - destruct (remove_transaction_evicts self T n d Hinv) as (s1 & r & -> & Hinv1 & Hev). simpl.
    intros Hrec. destruct (IH _ _ _ Hinv1 Hrec) as (more & -> & Hinv' & Hev').
    exists (option_list r ++ more). split_and!; [|done|by eapply evicts_app].
    destruct r; simpl; by rewrite <- ?app_assoc.
Qed.

(** ** Limits *)

#[local] Arguments remove_descendants : simpl never.
#[local] Arguments AllTxs.remove_transaction : simpl never.

Lemma drop_truncated_evicts truncated self n acc self' acc' :
  pool_inv self (transaction_id <$> truncated) n ->
  drop_truncated self truncated acc = Some (self', acc') ->
  exists more rest, acc' = acc ++ more /\ more ≡ₚ truncated ++ rest /\
    evicts (live self (transaction_id <$> truncated)) rest (txs_of self').
Proof.
  revert self acc. induction truncated as [|v truncated IH]; intros self acc Hinv; csimpl.
  { intros [= <- <-]. exists [], []. rewrite app_nil_r. split_and!; [done|done|apply evicts_nil]. }
  destruct (drop_one_inv self v _ n Hinv) as (Hinv1 & _ & Hm1). cbv zeta.
  set (s1 := with_all self _) in *.
  destruct (remove_descendants _ s1 _ _) as [[s2 a2]|] eqn:Hd; simpl; [|done]. intros Hrec.
  destruct (remove_descendants_evicts _ _ _ _ _ _ _ _ Hinv1 Hd) as (r2 & -> & Hinv2 & Hev2).
  destruct (IH _ _ Hinv2 Hrec) as (more & rest & -> & Hperm & Hev).
  exists (v :: r2 ++ more), (r2 ++ rest). split_and!.
  - by rewrite <- !app_assoc.
  - rewrite Hperm. simpl. constructor. rewrite !app_assoc. by rewrite (Permutation_app_comm r2 truncated).
  - eapply evicts_app; [|exact Hev].
    assert (E : live s1 (transaction_id <$> truncated) = live self (transaction_id v :: (transaction_id <$> truncated))).
    { unfold live, txs_of, AllTxs.pool_txs. rewrite Hm1, fmap_delete. done. }
    by rewrite <- E.
Qed.

(** Giving up transactions of a sub-pool leaves the set of all as it is. *)
Lemma gives_up_evicts self q removed self1 n :
  pool_ok self n -> gives_up self q removed self1 ->
  evicts (txs_of self) removed (live self1 (transaction_id <$> removed)).
Proof.
  intros Hinv Hg. destruct (gu_evicts _ _ _ _ Hg) as [_ Hnd Hfrom].
  assert (E : txs_of self1 = txs_of self).
  { unfold txs_of. by destruct (gu_frame _ _ _ _ Hg) as (_ & _ & -> & _). }
  apply evicts_intro; [done| |].
  - intros v Hv. apply (lookup_weaken _ _ _ _ (Hfrom v Hv)). by eapply subpool_subset.
  - intros i. unfold live. by rewrite lookup_delete_ids, E.
Qed.

Lemma discard_loop_evicts q exceeds truncate fuel self n acc self' acc' :
  gives_some q truncate -> pool_ok self n -> limits_ok (config self) ->
  discard_loop fuel exceeds truncate self acc = Some (self', acc') ->
  exists more, acc' = acc ++ more /\ evicts (txs_of self) more (txs_of self').
Proof.
  intros Hg. revert self acc. induction fuel as [|fuel IH]; intros self acc Hinv Hlim; simpl; [done|].
  destruct (exceeds self); [|intros [= <- <-]; exists []; rewrite app_nil_r; split; [done|apply evicts_nil]].
  destruct (Hg self n Hinv Hlim) as (s1 & r & -> & Hgu). simpl.
  destruct (gives_up_inv _ _ _ _ _ Hinv Hgu) as (Hinv1 & _).
  destruct (gu_frame _ _ _ _ Hgu) as (_ & Hc1 & _).
  destruct (drop_truncated_inv r s1 n acc Hinv1) as (s2 & m2 & Hd & Hinv2 & (_ & Hc2 & _) & _).
  rewrite Hd. simpl. intros Hrec.
  destruct (drop_truncated_evicts _ _ _ _ _ _ Hinv1 Hd) as (more & rest & Hacc & Hperm & Hev).
  apply app_inv_head in Hacc as <-.
  assert (Hc : config s2 = config self) by congruence. rewrite <- Hc in Hlim.
  destruct (IH s2 _ Hinv2 Hlim Hrec) as (more' & -> & Hev').
  exists (m2 ++ more'). split; [by rewrite app_assoc|]. eapply evicts_app; [|exact Hev'].
  apply (evicts_perm _ (r ++ rest)); [done|]. eapply evicts_app; [by eapply gives_up_evicts|done].
Qed.

Lemma discard_worst_evicts fuel self n self' removed :
  pool_ok self n -> limits_ok (config self) -> discard_worst fuel self = Some (self', removed) ->
  evicts (txs_of self) removed (txs_of self').
Proof.
  intros Hinv Hlim. unfold discard_worst. rewrite !bind_Some. intros ([s1 r1] & H1 & H2).
  rewrite bind_Some in H2. destruct H2 as ([s2 r2] & H2 & H3).
  rewrite bind_Some in H3. destruct H3 as ([s3 r3] & H3 & H4). simpl in *.
  assert (G1 := pending_gives_some). assert (G2 := truncates_gives_some _ _ _ basefee_truncates).
  assert (G3 := truncates_gives_some _ _ _ blob_truncates). assert (G4 := truncates_gives_some _ _ _ queued_truncates).
  destruct (discard_loop_partial _ _ _ _ _ _ _ _ _ G1 Hinv Hlim H1) as [I1 C1].
  assert (L1 : limits_ok (config s1)) by congruence.
  destruct (discard_loop_partial _ _ _ _ _ _ _ _ _ G2 I1 L1 H2) as [I2 C2].
  assert (L2 : limits_ok (config s2)) by congruence.
  destruct (discard_loop_partial _ _ _ _ _ _ _ _ _ G3 I2 L2 H3) as [I3 C3].
  assert (L3 : limits_ok (config s3)) by congruence.
  destruct (discard_loop_evicts _ _ _ _ _ _ _ _ _ G1 Hinv Hlim H1) as (m1 & -> & E1).
  destruct (discard_loop_evicts _ _ _ _ _ _ _ _ _ G2 I1 L1 H2) as (m2 & -> & E2).
  destruct (discard_loop_evicts _ _ _ _ _ _ _ _ _ G3 I2 L2 H3) as (m3 & -> & E3).
  destruct (discard_loop_evicts _ _ _ _ _ _ _ _ _ G4 I3 L3 H4) as (m4 & -> & E4).
  simpl. repeat (eapply evicts_app; [|eassumption]). done.
Qed.

(** ** Removal by hash *)

Lemma remove_by_hash_evicts self n h :
  pool_ok self (n + Z.of_nat (size (all_txs self))) -> 0 <= n ->
  exists self', remove_transaction_by_hash self h = Some (self', get self h) /\ pool_ok self' n /\
    (size (all_txs self') <= size (all_txs self))%nat /\
    evicts (txs_of self) (option_list (get self h)) (txs_of self').
Proof.
  intros Hinv Hn. destruct (remove_by_hash_inv self n h Hinv Hn) as (s1 & Hr & Hinv1 & _ & Hp).
  exists s1. split_and!; [done|done| |].
  - apply pool_txs_le. rewrite Hp, without_hash_txs by apply Hinv. apply map_filter_subseteq.
  - unfold txs_of. rewrite Hp. unfold without_hash. destruct (get self h) as [v|] eqn:Hv; simpl; [|apply evicts_nil].
    apply (get_spec _ _ _ _ _ Hinv) in Hv as [_ Hv]. unfold AllTxs.pool_txs in *. rewrite fmap_delete.
    by apply evicts_one.
Qed.

Lemma remove_transactions_evicts hs self n :
  pool_ok self (n + Z.of_nat (length hs * size (all_txs self))) -> 0 <= n ->
  exists self' removed, remove_transactions self hs = Some (self', removed) /\ pool_ok self' n /\
    evicts (txs_of self) removed (txs_of self').
Proof.
  revert self. induction hs as [|h hs IH]; intros self Hinv Hn; simpl.
  { exists self, []. split_and!; [done| |apply evicts_nil]. apply (pool_inv_room _ _ _ _ Hinv). simpl. lia. }
  destruct (remove_by_hash_evicts self (n + Z.of_nat (length hs * size (all_txs self))) h)
    as (s1 & -> & Hinv1 & Hk & Hev1); [apply (pool_inv_room _ _ _ _ Hinv); simpl; lia|lia|].
  destruct (IH s1) as (s2 & r2 & Heq & Hinv2 & Hev2); [apply (pool_inv_room _ _ _ _ Hinv1); nia|done|].
  exists s2, (option_list (get self h) ++ r2). cbn. rewrite Heq. split_and!; [|done|by eapply evicts_app].
  by destruct (get self h).
Qed.

Lemma remove_and_descendants_evicts hs self n acc :
  pool_ok self (n + Z.of_nat (length hs * size (all_txs self))) -> 0 <= n ->
  exists self' removed, remove_transactions_and_descendants self hs acc = Some (self', acc ++ removed) /\
    pool_ok self' n /\ evicts (txs_of self) removed (txs_of self').
Proof.
  revert self acc. induction hs as [|h hs IH]; intros self acc Hinv Hn; simpl.
  { exists self, []. rewrite app_nil_r. split_and!; [done| |apply evicts_nil].
    apply (pool_inv_room _ _ _ _ Hinv). simpl. lia. }
  destruct (remove_by_hash_evicts self (n + Z.of_nat (length hs * size (all_txs self))) h)
    as (s1 & -> & Hinv1 & Hk & Hev1); [apply (pool_inv_room _ _ _ _ Hinv); simpl; lia|lia|].
  cbn. destruct (get self h) as [w|]; simpl in Hev1.
  - destruct (remove_descendants_inv (descendants_fuel s1) s1 [] _ (transaction_id w) (acc ++ [w]) Hinv1)
      as (s2 & r2 & Hd & Hinv2 & _ & Hm2); [unfold descendants_fuel; lia|].
    destruct (remove_descendants_evicts _ _ _ _ _ _ _ _ Hinv1 Hd) as (r2' & Heq & _ & Hev2).
    apply app_inv_head in Heq as <-. rewrite Hd. cbn.
    assert (Hk2 : (size (all_txs s2) <= size (all_txs s1))%nat)
      by (rewrite Hm2; apply map_subseteq_size, map_filter_subseteq).
    destruct (IH s2 ((acc ++ [w]) ++ r2)) as (s3 & r3 & -> & Hinv3 & Hev3);
      [apply (pool_inv_room _ _ _ _ Hinv2); nia|done|].
    exists s3, ([w] ++ r2 ++ r3). split_and!; [by rewrite <- !app_assoc|done|].
    eapply evicts_app; [exact Hev1|]. eapply evicts_app; [exact Hev2|done].
  - destruct (IH s1 acc) as (s3 & r3 & -> & Hinv3 & Hev3); [apply (pool_inv_room _ _ _ _ Hinv1); nia|done|].
    exists s3, r3. split_and!; [done|done|]. by apply (evicts_app _ [] _ _ _ Hev1).
Qed.

Lemma remove_by_sender_evicts self n s :
  pool_ok self n ->
  exists self' removed, remove_transactions_by_sender self s = Some (self', removed) /\ pool_ok self' n /\
    evicts (txs_of self) removed (txs_of self').
Proof.
  intros Hinv. unfold remove_transactions_by_sender.
  assert (Hgen : forall ids self, pool_ok self n -> exists self' removed,
    remove_all self ids = Some (self', removed) /\ pool_ok self' n /\ evicts (txs_of self) removed (txs_of self')).
  { clear. induction ids as [|i ids IH]; intros self Hinv; simpl.
    { exists self, []. split_and!; [done|done|apply evicts_nil]. }
    destruct (remove_transaction_evicts self [] n i Hinv) as (s1 & r & -> & Hinv1 & Hev1).
    destruct (IH s1 Hinv1) as (s2 & r2 & Heq & Hinv2 & Hev2). cbn. rewrite Heq. simpl.
    exists s2, (option_list r ++ r2). split_and!; [by destruct r|done|by eapply evicts_app]. }
  by apply Hgen.
Qed.

(** ** Claims *)

(** What the removing operations report.  Removing by hash, with or without
    descendants, and by sender return; and they, and enforcing the limits when
    that returns, report exactly what they removed: each transaction reported
    was in the pool, none is reported twice, and the pool has lost these and no
    others. *)
Theorem removals_reported self n hs s fuel :
  pool_ok self (n + Z.of_nat (length hs * size (all_txs self))) -> 0 <= n -> limits_ok (config self) ->
  (exists self' removed, remove_transactions self hs = Some (self', removed) /\
     evicts (txs_of self) removed (txs_of self')) /\
  (exists self' removed, remove_transactions_and_descendants self hs [] = Some (self', removed) /\
     evicts (txs_of self) removed (txs_of self')) /\
  (exists self' removed, remove_transactions_by_sender self s = Some (self', removed) /\
     evicts (txs_of self) removed (txs_of self')) /\
  (forall self' removed, discard_worst fuel self = Some (self', removed) ->
     evicts (txs_of self) removed (txs_of self')).
Proof.
  intros Hinv Hn Hlim. split_and!.
  - destruct (remove_transactions_evicts hs self n Hinv Hn) as (s' & r & ? & _ & ?). eauto.
  - destruct (remove_and_descendants_evicts hs self n [] Hinv Hn) as (s' & r & ? & _ & ?). eauto.
  - destruct (remove_by_sender_evicts self _ s Hinv) as (s' & r & ? & _ & ?). eauto.
  - intros s' r. by eapply discard_worst_evicts.
Qed.

End removed.

(** ** Witness *)

Section examples.
#[local] Existing Instance mainnet_constants.
#[local] Existing Instance PoolProps.example_ordering.

Definition removed_hashes (o : option (TxPool * list ValidPoolTransaction)) : list Z :=
  match o with Some (_, l) => vhash <$> l | None => [] end.

Lemma removals_reported_witness :
  exists self' removed, remove_transactions_and_descendants example_pool [2] [] = Some (self', removed) /\
    vhash <$> removed = [2; 3] /\ evicts (txs_of example_pool) removed (txs_of self').
Proof.
  destruct (removals_reported example_pool 900 [2] 7 10) as (_ & (s' & r & Hr & Hev) & _).
  - apply (pool_inv_room _ _ 1000); [exact example_ok|]. vm_compute. discriminate.
  - lia.
  - exact default_limits_ok.
  - exists s', r. split; [exact Hr|]. split; [|exact Hev].
    assert (Hc : removed_hashes (remove_transactions_and_descendants example_pool [2] []) = [2; 3])
      by (vm_compute; reflexivity).
    rewrite Hr in Hc. exact Hc.
Defined.

End examples.

End PoolRemoved.
