(* ===== verification/PoolInner.v ===== *)
(** * The pool with its validator, blob store and listeners

    [PoolInner] of [crates/transaction-pool/src/pool/mod.rs] and the entry
    points of [Pool] in [lib.rs].  What is behind locks is state; every method
    returns the changed state, and the order of the calls is the order in which
    the locks are taken.  Validation is asynchronous in the code; here a method of [Pool] is
    validation followed by insertion.  [None] is a panic, or limit enforcement
    that has not ended within its fuel.  The time of arrival is an argument. *)

From S2P Require Import Prelude Ordered TxErrors TxIdentifier TxState TxTypes SubPoolSpec.
From S2P Require Import EthTransaction EthValidator BlobStore PoolEvents.
From S2P Require Import ParkedPool PendingPool BlobFee BlobPool AllTransactions TxPool TxPoolBest.
Import TxErrors Identifier TxState TxTypes EthTx Validator BlobStore PoolEvents.

Module Inner.

Section inner.
Context `{AlloyConstants} `{AlloyTypes} `{ValidatorConstants} {ordering : TransactionOrdering}.
Context {S : Type} `{!BlobStoreTrait S}.
Abbreviation Sidecar := BlobTransactionSidecarVariant.

(** ** Data *)

Record PoolInner := mkInner {
  identifiers : SenderIdentifiers;
  validator : EthTransactionValidator;
  blob_store : S;
  pool : Pool.TxPool;
  inner_config : PoolConfig;
  event_listener : PoolEventBroadcast;
  pending_transaction_listener : Listeners Z;
  transaction_listener : Listeners NewTransactionEvent;
  blob_transaction_sidecar_listener : list Z * Channels NewBlobSidecar;
}.

Definition BLOB_SIDECAR_LISTENER_BUFFER_SIZE : Z := 512.

Definition inner_new (v : EthTransactionValidator) (store : S) (config : PoolConfig) : PoolInner :=
  mkInner empty_identifiers v store (Pool.pool_new config) config broadcast_default
    (mkListeners [] no_channels) (mkListeners [] no_channels) ([], no_channels).

Implicit Types self : PoolInner.

(** Field updates. *)
Definition with_identifiers self (ids : SenderIdentifiers) : PoolInner :=
  mkInner ids (validator self) (blob_store self) (pool self) (inner_config self) (event_listener self)
    (pending_transaction_listener self) (transaction_listener self) (blob_transaction_sidecar_listener self).
Definition with_validator self (v : EthTransactionValidator) : PoolInner :=
  mkInner (identifiers self) v (blob_store self) (pool self) (inner_config self) (event_listener self)
    (pending_transaction_listener self) (transaction_listener self) (blob_transaction_sidecar_listener self).
Definition with_store self (s : S) : PoolInner :=
  mkInner (identifiers self) (validator self) s (pool self) (inner_config self) (event_listener self)
    (pending_transaction_listener self) (transaction_listener self) (blob_transaction_sidecar_listener self).
Definition with_pool self (p : Pool.TxPool) : PoolInner :=
  mkInner (identifiers self) (validator self) (blob_store self) p (inner_config self) (event_listener self)
    (pending_transaction_listener self) (transaction_listener self) (blob_transaction_sidecar_listener self).
Definition with_events self (e : PoolEventBroadcast) : PoolInner :=
  mkInner (identifiers self) (validator self) (blob_store self) (pool self) (inner_config self) e
    (pending_transaction_listener self) (transaction_listener self) (blob_transaction_sidecar_listener self).
Definition with_pending_listeners self (l : Listeners Z) : PoolInner :=
  mkInner (identifiers self) (validator self) (blob_store self) (pool self) (inner_config self)
    (event_listener self) l (transaction_listener self) (blob_transaction_sidecar_listener self).
Definition with_tx_listeners self (l : Listeners NewTransactionEvent) : PoolInner :=
  mkInner (identifiers self) (validator self) (blob_store self) (pool self) (inner_config self)
    (event_listener self) (pending_transaction_listener self) l (blob_transaction_sidecar_listener self).
Definition with_blob_listeners self (l : list Z * Channels NewBlobSidecar) : PoolInner :=
  mkInner (identifiers self) (validator self) (blob_store self) (pool self) (inner_config self)
    (event_listener self) (pending_transaction_listener self) (transaction_listener self) l.

(** ** Senders *)

Definition get_sender_id self (addr : Z) : PoolInner * SenderId :=
  let '(ids, i) := sender_id_or_create (identifiers self) addr in (with_identifiers self ids, i).

Definition get_sender_ids self (addrs : list Z) : PoolInner * list SenderId :=
  let '(ids, sids) := sender_ids_or_create (identifiers self) addrs in (with_identifiers self ids, sids).

Record ChangedAccount := mkChangedAccount { ca_address : Z; ca_nonce : Z; ca_balance : Z }.

(** Collected into a map: of two entries for an account the last one counts. *)
Fixpoint changed_senders self (accs : list ChangedAccount) (acc : gmap SenderId SenderInfo)
  : PoolInner * gmap SenderId SenderInfo :=
  match accs with
  | [] => (self, acc)
  | a :: accs =>
      let '(self, sender_id) := get_sender_id self (ca_address a) in
      changed_senders self accs (<[sender_id := mkSenderInfo (ca_nonce a) (ca_balance a)]> acc)
  end.

(** ** Listeners *)

(** [mpsc::channel] panics for a buffer of size 0. *)
Definition add_pending_listener self (kind : TransactionListenerKind) : option (PoolInner * Z) :=
  if pending_tx_listener_buffer_size (inner_config self) =? 0 then None
  else
    let ls := pending_transaction_listener self in
    let '(cs, tx) := new_channel (listener_chans ls) (Some (pending_tx_listener_buffer_size (inner_config self))) in
    Some (with_pending_listeners self (mkListeners (listeners ls ++ [mkListener tx kind]) cs), tx).

Definition add_new_transaction_listener self (kind : TransactionListenerKind) : option (PoolInner * Z) :=
  if new_tx_listener_buffer_size (inner_config self) =? 0 then None
  else
    let ls := transaction_listener self in
    let '(cs, tx) := new_channel (listener_chans ls) (Some (new_tx_listener_buffer_size (inner_config self))) in
    Some (with_tx_listeners self (mkListeners (listeners ls ++ [mkListener tx kind]) cs), tx).

Definition add_blob_sidecar_listener self : PoolInner * Z :=
  let '(senders, cs) := blob_transaction_sidecar_listener self in
  let '(cs, tx) := new_channel cs (Some BLOB_SIDECAR_LISTENER_BUFFER_SIZE) in
  (with_blob_listeners self (senders ++ [tx], cs), tx).

Definition add_transaction_event_listener self (tx_hash : Z) : PoolInner * option Z :=
  if Pool.contains (pool self) tx_hash
  then let '(e, rx) := subscribe (event_listener self) tx_hash in (with_events self e, Some rx)
  else (self, None).

Definition add_all_transactions_event_listener self : PoolInner * Z :=
  let '(e, rx) := subscribe_all (event_listener self) in (with_events self e, rx).

(** Tell the listeners for new pending transactions, and those for new transactions. *)
Definition notify_hashes self (f : Channels Z -> Listener -> Channels Z * bool) : PoolInner :=
  let ls := pending_transaction_listener self in
  let '(cs, kept) := retain_listeners f (listener_chans ls) (listeners ls) in
  with_pending_listeners self (mkListeners kept cs).

Definition notify_txs self
  (f : Channels NewTransactionEvent -> Listener -> Channels NewTransactionEvent * bool) : PoolInner :=
  let ls := transaction_listener self in
  let '(cs, kept) := retain_listeners f (listener_chans ls) (listeners ls) in
  with_tx_listeners self (mkListeners kept cs).

(** [pending.pending_transactions(kind)] are the transaction and what it promoted. *)
Definition on_new_pending_transaction self (tx : ValidPoolTransaction)
  (promoted : list ValidPoolTransaction) : PoolInner :=
  notify_hashes self (fun cs l =>
    if (is_propagate_only (listener_kind l) && negb (propagate tx))%bool
    then (cs, negb (sender_is_closed cs (listener_sender l)))
    else send_all cs (listener_sender l) (vhash <$> listener_txs (listener_kind l) (tx :: promoted))).

Definition on_new_transaction self (event : NewTransactionEvent) : PoolInner :=
  notify_txs self (fun cs l =>
    if (is_propagate_only (listener_kind l) && negb (propagate (event_transaction event)))%bool
    then (cs, negb (sender_is_closed cs (listener_sender l)))
    else send_all cs (listener_sender l) [event]).

Definition on_new_blob_sidecar self (tx_hash : Z) (sidecar : Sidecar) : PoolInner :=
  match blob_transaction_sidecar_listener self with
  | ([], _) => self
  | (senders, cs) =>
      let '(cs, kept) := retain_send keep_unless_closed cs senders (mkNewBlobSidecar tx_hash sidecar) in
      with_blob_listeners self (kept, cs)
  end.

(** Promoted transactions, as hashes and in full. *)
Definition notify_promoted self (promoted : list ValidPoolTransaction) : PoolInner :=
  let self := notify_hashes self (fun cs l =>
    send_all cs (listener_sender l) (vhash <$> listener_txs (listener_kind l) promoted)) in
  notify_txs self (fun cs l =>
    send_all cs (listener_sender l) (event_pending <$> listener_txs (listener_kind l) promoted)).

Definition notify_on_new_state self (outcome : Pool.OnNewCanonicalStateOutcome) : PoolInner :=
  let self := notify_promoted self (Pool.oc_promoted outcome) in
  if broadcast_is_empty (event_listener self) then self
  else
    let e := foldl (fun e tx => mined e tx (Pool.oc_block_hash outcome)) (event_listener self)
               (Pool.oc_mined outcome) in
    let e := foldl (fun e tx => pending e (vhash tx) None) e (Pool.oc_promoted outcome) in
    with_events self (foldl (fun e tx => discarded e (vhash tx)) e (Pool.oc_discarded outcome)).

Definition notify_event_listeners self (tx : Pool.AddedTransaction) : PoolInner :=
  if broadcast_is_empty (event_listener self) then self
  else
    match tx with
    | Pool.AddedPending transaction replaced_tx promoted discarded_txs =>
        let e := pending (event_listener self) (vhash transaction) replaced_tx in
        let e := foldl (fun e tx => pending e (vhash tx) None) e promoted in
        with_events self (foldl (fun e tx => discarded e (vhash tx)) e discarded_txs)
    | Pool.AddedParked transaction replaced_tx _ _ =>
        let e := queued (event_listener self) (vhash transaction) in
        with_events self
          (match replaced_tx with
           | Some replaced_tx => replaced e replaced_tx (vhash transaction)
           | None => e
           end)
    end.

(** ** Blobs *)

Definition insert_blob self (hash : Z) (blob : Sidecar) : PoolInner :=
  with_store self (bs_insert (blob_store self) hash blob).1.
Definition delete_blob self (blob : Z) : PoolInner := with_store self (bs_delete (blob_store self) blob).1.
Definition delete_blobs self (txs : list Z) : PoolInner := with_store self (bs_delete_all (blob_store self) txs).1.
Definition cleanup_blobs self : PoolInner := with_store self (bs_cleanup (blob_store self)).1.
Definition delete_discarded_blobs self (transactions : list ValidPoolTransaction) : PoolInner :=
  delete_blobs self (vhash <$> List.filter vis_eip4844 transactions).

(** ** Added transactions *)

Inductive AddedTransactionState := StatePending | StateQueued (reason : QueuedReason).

Record AddedTransactionOutcome := mkAddedOutcome { added_hash : Z; added_state : AddedTransactionState }.

Definition added_tx (a : Pool.AddedTransaction) : ValidPoolTransaction :=
  match a with Pool.AddedPending tx _ _ _ | Pool.AddedParked tx _ _ _ => tx end.
Definition added_replaced_tx (a : Pool.AddedTransaction) : option ValidPoolTransaction :=
  match a with Pool.AddedPending _ r _ _ | Pool.AddedParked _ r _ _ => r end.
Definition discarded_transactions (a : Pool.AddedTransaction) : option (list ValidPoolTransaction) :=
  match a with Pool.AddedPending _ _ _ d => Some d | Pool.AddedParked _ _ _ _ => None end.
Definition replaced_blob_transaction (a : Pool.AddedTransaction) : option Z :=
  match added_replaced_tx a with
  | Some tx => if vis_eip4844 tx then Some (vhash tx) else None
  | None => None
  end.
Definition added_in (a : Pool.AddedTransaction) : SubPool :=
  match a with Pool.AddedPending _ _ _ _ => TxState.Pending | Pool.AddedParked _ _ p _ => p end.
Definition added_queued_reason (a : Pool.AddedTransaction) : option QueuedReason :=
  match a with Pool.AddedPending _ _ _ _ => None | Pool.AddedParked _ _ _ r => r end.
Definition transaction_state (a : Pool.AddedTransaction) : AddedTransactionState :=
  match added_in a with
  | TxState.Pending => StatePending
  | _ => StateQueued (default NonceGap (added_queued_reason a))
  end.
Definition into_new_transaction_event (a : Pool.AddedTransaction) : NewTransactionEvent :=
  mkNewTransactionEvent (added_in a) (added_tx a).

Definition pool_error_new (hash : Z) (err : InvalidPoolTransactionError) : PoolError :=
  mkPoolError hash (InvalidTransaction err).
Definition pool_error_other (hash : Z) (err : string) : PoolError := mkPoolError hash (OtherError err).

(** What follows a successful insertion. *)
Definition after_insert self (added : Pool.AddedTransaction) (maybe_sidecar : option Sidecar) : PoolInner :=
  let hash := vhash (added_tx added) in
  let self := match maybe_sidecar with
              | Some sidecar => insert_blob (on_new_blob_sidecar self hash sidecar) hash sidecar
              | None => self
              end in
  let self := match replaced_blob_transaction added with
              | Some replaced => delete_blob self replaced
              | None => self
              end in
  let self := match added with
              | Pool.AddedPending tx _ promoted _ => on_new_pending_transaction self tx promoted
              | Pool.AddedParked _ _ _ _ => self
              end in
  let self := notify_event_listeners self added in
  let self := match discarded_transactions added with
              | Some discarded => delete_discarded_blobs self discarded
              | None => self
              end in
  on_new_transaction self (into_new_transaction_event added).

(** The transaction given to the pool. *)
Definition pool_tx (transaction : EthPooledTransaction) (sender_id : SenderId) (propagate : bool)
  (now : Z) (origin : TransactionOrigin) (authority_ids : option (list SenderId)) : ValidPoolTransaction :=
  {| TxTypes.transaction := pool_transaction transaction;
     transaction_id := mkTransactionId sender_id (s_nonce (signed transaction));
     TxTypes.propagate := propagate; timestamp := now; TxTypes.origin := origin;
     TxTypes.authority_ids := authority_ids |}.

Definition add_transaction self (now : Z) (origin : TransactionOrigin) (tx : TransactionValidationOutcome)
  : option (PoolInner * result AddedTransactionOutcome PoolError) :=
  match tx with
  | OutcomeValid balance state_nonce bytecode_hash transaction propagate authorities =>
      let '(self, sender_id) := get_sender_id self (s_signer (signed (valid_transaction transaction))) in
      let '(transaction, maybe_sidecar) :=
        match transaction with
        | ValidTx tx => (tx, None)
        | ValidWithSidecar transaction sidecar => (transaction, Some sidecar)
        end in
      let '(self, authority_ids) :=
        match authorities with
        | Some auths => let '(self, ids) := get_sender_ids self auths in (self, Some ids)
        | None => (self, None)
        end in
      let tx := pool_tx transaction sender_id propagate now origin authority_ids in
      r ← Pool.add_transaction (pool self) tx balance state_nonce bytecode_hash;
      let '(p, r) := r in
      let self := with_pool self p in
      match r with
      | Err e => Some (self, Err e)
      | Ok added =>
          Some (after_insert self added maybe_sidecar,
                Ok (mkAddedOutcome (vhash (added_tx added)) (transaction_state added)))
      end
  | OutcomeInvalid tx err =>
      let hash := s_hash (signed tx) in
      Some (with_events self (invalid (event_listener self) hash), Err (pool_error_new hash err))
  | OutcomeError tx_hash err =>
      Some (with_events self (discarded (event_listener self) tx_hash), Err (pool_error_other tx_hash err))
  end.

(** The transactions of a batch, in order. *)
Fixpoint add_each self (now : Z) (transactions : list (TransactionOrigin * TransactionValidationOutcome))
  : option (PoolInner * list (result AddedTransactionOutcome PoolError)) :=
  match transactions with
  | [] => Some (self, [])
  | (origin, tx) :: transactions =>
      r ← add_transaction self now origin tx;
      rest ← add_each r.1 now transactions;
      Some (rest.1, r.2 :: rest.2)
  end.

Definition is_ok {T E} (r : result T E) : bool := match r with Ok _ => true | Err _ => false end.

(** A newly added transaction may be discarded at once. *)
Definition adjust_result (discarded_hashes : list Z) (r : result AddedTransactionOutcome PoolError)
  : result AddedTransactionOutcome PoolError :=
  match r with
  | Ok o => if bool_decide (added_hash o ∈ discarded_hashes)
            then Err (mkPoolError (added_hash o) DiscardedOnInsert) else r
  | Err _ => r
  end.

Definition add_transactions_with_origins (fuel : nat) self (now : Z)
  (transactions : list (TransactionOrigin * TransactionValidationOutcome))
  : option (PoolInner * list (result AddedTransactionOutcome PoolError)) :=
  r ← add_each self now transactions;
  let '(self, added) := r in
  d ← (if existsb is_ok added then Pool.discard_worst fuel (pool self) else Some (pool self, []));
  let '(p, discarded) := d in
  let self := with_pool self p in
  match discarded with
  | [] => Some (self, added)
  | _ =>
      let self := delete_discarded_blobs self discarded in
      let self := with_events self (discarded_many (event_listener self) discarded) in
      Some (self, adjust_result (vhash <$> discarded) <$> added)
  end.

Definition add_transactions (fuel : nat) self (now : Z) (origin : TransactionOrigin)
  (transactions : list TransactionValidationOutcome) :=
  add_transactions_with_origins fuel self now (pair origin <$> transactions).

(** The subscription is made before the insertion; its receiver is dropped on an
    error. *)
Definition add_transaction_and_subscribe (fuel : nat) self (now : Z) (origin : TransactionOrigin)
  (tx : TransactionValidationOutcome) : option (PoolInner * result Z PoolError) :=
  let '(e, listener) := subscribe (event_listener self) (outcome_tx_hash tx) in
  r ← add_transactions fuel (with_events self e) now origin [tx];
  let '(self, results) := r in
  result ← last results;
  match result with
  | Ok _ => Some (self, Ok listener)
  | Err err =>
      let e := event_listener self in
      Some (with_events self (mkBroadcast (all_events_broadcaster e) (broadcasters_by_hash e)
              (all_events e) (drop_receiver (tx_events e) listener)), Err err)
  end.

(** ** Blocks and accounts *)

(** The new tip is given by its hash, number, timestamp and gas limit. *)
Record CanonicalStateUpdate := mkCanonicalUpdate {
  tip_hash : Z;
  tip_number : Z;
  tip_timestamp : Z;
  tip_gas_limit : Z;
  pending_block_base_fee : Z;
  pending_block_blob_fee : option Z;
  changed_accounts : list ChangedAccount;
  mined_transactions : list Z;
  update_kind : PoolUpdateKind;
}.

Definition update_block_info (u : CanonicalStateUpdate) : BlockInfo :=
  {| info_block_gas_limit := tip_gas_limit u; info_last_seen_block_hash := tip_hash u;
     info_last_seen_block_number := tip_number u; pending_basefee := pending_block_base_fee u;
     pending_blob_fee := pending_block_blob_fee u |}.

Definition on_canonical_state_change self (update : CanonicalStateUpdate) : option PoolInner :=
  let self := with_validator self
    (on_new_head_block (validator self) (tip_timestamp update) (tip_gas_limit update)) in
  let '(self, changed) := changed_senders self (changed_accounts update) ∅ in
  r ← Pool.on_canonical_state_change (pool self) (update_block_info update) (mined_transactions update)
        changed (update_kind update);
  let '(p, outcome) := r in
  let self := delete_discarded_blobs (with_pool self p) (Pool.oc_discarded outcome) in
  Some (notify_on_new_state self outcome).

Definition update_accounts self (accounts : list ChangedAccount) : option PoolInner :=
  let '(self, changed) := changed_senders self accounts ∅ in
  r ← Pool.update_accounts (pool self) changed;
  let '(p, outcome) := r in
  let self := with_pool self p in
  let self := match promoted outcome with [] => self | promoted => notify_promoted self promoted end in
  let self :=
    if broadcast_is_empty (event_listener self) then self
    else
      let e := foldl (fun e tx => pending e (vhash tx) None) (event_listener self) (promoted outcome) in
      with_events self (foldl (fun e tx => discarded e (vhash tx)) e (TxTypes.discarded outcome)) in
  Some (delete_discarded_blobs self (TxTypes.discarded outcome)).

Definition set_block_info self (info : BlockInfo) : option PoolInner :=
  p ← Pool.set_block_info (pool self) info; Some (with_pool self p).

(** ** Removal *)

Definition remove_transactions self (hashes : list Z) : option (PoolInner * list ValidPoolTransaction) :=
  match hashes with
  | [] => Some (self, [])
  | _ =>
      r ← Pool.remove_transactions (pool self) hashes;
      let self := with_pool self r.1 in
      Some (with_events self (discarded_many (event_listener self) r.2), r.2)
  end.

Definition remove_transactions_and_descendants self (hashes : list Z)
  : option (PoolInner * list ValidPoolTransaction) :=
  match hashes with
  | [] => Some (self, [])
  | _ =>
      r ← Pool.remove_transactions_and_descendants (pool self) hashes [];
      let self := with_pool self r.1 in
      Some (with_events self (foldl (fun e tx => discarded e (vhash tx)) (event_listener self) r.2), r.2)
  end.

Definition remove_transactions_by_sender self (sender : Z)
  : option (PoolInner * list ValidPoolTransaction) :=
  let '(self, sender_id) := get_sender_id self sender in
  r ← Pool.remove_transactions_by_sender (pool self) sender_id;
  let self := with_pool self r.1 in
  Some (with_events self (discarded_many (event_listener self) r.2), r.2).

(** The peers each hash was propagated to. *)
Definition on_propagated self (txs : list (Z * list PropagateKind)) : PoolInner :=
  if broadcast_is_empty (event_listener self) then self
  else with_events self (foldl (fun e p => propagated e p.1 p.2) (event_listener self) txs).

(** ** Queries *)

(** Iteration over the transactions by hash; the order is unspecified. *)
Definition transactions_iter self : list ValidPoolTransaction :=
  (map_to_list (AllTxs.by_hash (Pool.all_transactions (pool self)))).*2.

Definition pooled_transactions self : list ValidPoolTransaction :=
  List.filter propagate (transactions_iter self).
Definition pooled_transactions_hashes self : list Z := vhash <$> pooled_transactions self.
Definition pooled_transactions_max self (max : nat) : list ValidPoolTransaction :=
  take max (pooled_transactions self).
Definition all_transaction_hashes self : list Z := vhash <$> transactions_iter self.
Definition get_transactions_by_origin self (o : TransactionOrigin) : list ValidPoolTransaction :=
  List.filter (fun tx => bool_decide (origin tx = o)) (transactions_iter self).
Definition get_pending_transactions_by_origin self (o : TransactionOrigin) : list ValidPoolTransaction :=
  List.filter (fun tx => bool_decide (origin tx = o)) (PoolBest.pending_transactions (pool self)).
Definition retain_unknown self (announcement : list Z) : list Z :=
  List.filter (fun h => negb (Pool.contains (pool self) h)) announcement.
Definition inner_get_all self (txs : list Z) : list ValidPoolTransaction := PoolBest.get_all (pool self) txs.
Definition get_all_propagatable self (txs : list Z) : list ValidPoolTransaction :=
  List.filter propagate (PoolBest.get_all (pool self) txs).

(** Looking an account up creates its identifier. *)
Definition inner_get_transactions_by_sender self (sender : Z) : PoolInner * list ValidPoolTransaction :=
  let '(self, i) := get_sender_id self sender in (self, Pool.get_transactions_by_sender (pool self) i).
Definition get_queued_transactions_by_sender self (sender : Z) : PoolInner * list ValidPoolTransaction :=
  let '(self, i) := get_sender_id self sender in (self, PoolBest.queued_txs_by_sender (pool self) i).
Definition get_pending_transactions_by_sender self (sender : Z) : PoolInner * list ValidPoolTransaction :=
  let '(self, i) := get_sender_id self sender in (self, PoolBest.pending_txs_by_sender (pool self) i).
Definition inner_get_highest_transaction_by_sender self (sender : Z) : PoolInner * option ValidPoolTransaction :=
  let '(self, i) := get_sender_id self sender in (self, Pool.get_highest_transaction_by_sender (pool self) i).
Definition inner_get_highest_consecutive self (sender on_chain_nonce : Z) : PoolInner * option ValidPoolTransaction :=
  let '(self, i) := get_sender_id self sender in
  (self, Pool.get_highest_consecutive_transaction_by_sender (pool self) (into_transaction_id i on_chain_nonce)).
Definition get_transaction_by_sender_and_nonce self (sender n : Z) : PoolInner * option ValidPoolTransaction :=
  let '(self, i) := get_sender_id self sender in
  (self, AllTxs.it_transaction <$> AllTxs.txs (Pool.all_transactions (pool self)) !! mkTransactionId i n).

(** ** Transactions for peers *)

Inductive GetPooledTransactionLimit := LimitNone | ResponseSizeSoftLimit (size : Z).

Definition limit_exceeds (self : GetPooledTransactionLimit) (size : Z) : bool :=
  match self with
  | LimitNone => false
  | ResponseSizeSoftLimit limit => limit <? size
  end.

Section pooled.
(** The conversions to the network format and the encoded length of a transaction
    are those of the [alloy] types. *)
Context {Pooled : Type} (try_into_pooled : PoolTransaction -> option Pooled)
  (try_into_pooled_eip4844 : PoolTransaction -> Sidecar -> option Pooled)
  (encoded_length : PoolTransaction -> Z).

Definition to_pooled_transaction self (tx : ValidPoolTransaction) : option Pooled :=
  if vis_eip4844 tx then
    match bs_get (blob_store self) (vhash tx) with
    | Ok (Some sidecar) => try_into_pooled_eip4844 (transaction tx) sidecar
    | _ => None
    end
  else try_into_pooled (transaction tx).

Fixpoint pooled_elements self (limit : GetPooledTransactionLimit) (transactions : list ValidPoolTransaction)
  (size : Z) : list Pooled :=
  match transactions with
  | [] => []
  | tx :: transactions =>
      let encoded_len := encoded_length (transaction tx) in
      match to_pooled_transaction self tx with
      | None => pooled_elements self limit transactions size
      | Some pooled =>
          let size := wrapping_add_u64 size encoded_len in
          pooled :: (if limit_exceeds limit size then [] else pooled_elements self limit transactions size)
      end
  end.

Definition get_pooled_transaction_elements self (tx_hashes : list Z) (limit : GetPooledTransactionLimit)
  : list Pooled := pooled_elements self limit (get_all_propagatable self tx_hashes) 0.

Definition get_pooled_transaction_element self (tx_hash : Z) : option Pooled :=
  tx ← Pool.get (pool self) tx_hash; to_pooled_transaction self tx.

End pooled.

(** ** [Pool]: validation and insertion *)

(** The validator holds a handle of the same blob store. *)
Definition current_validator self : EthTransactionValidator :=
  let v := validator self in
  mkValidator (client v)
    (fun h => match bs_contains (blob_store self) h with Ok b => Ok b | Err _ => Err EmptyString end)
    (fork_tracker v) (eip2718 v) (eip1559 v) (eip4844 v) (eip7702 v) (block_gas_limit v) (tx_fee_cap v)
    (minimum_priority_fee v) (validate_blob v) (Validator.local_transactions_config v)
    (max_tx_input_bytes v) (max_tx_gas_limit v) (disable_balance_check v) (other_tx_types v).

Definition validate self (origin : TransactionOrigin) (tx : EthPooledTransaction)
  : option TransactionValidationOutcome := validate_one (current_validator self) origin tx.

Definition validate_all self (origin : TransactionOrigin) (txs : list EthPooledTransaction)
  : option (list TransactionValidationOutcome) :=
  validate_batch_with_origin (current_validator self) origin txs.

Definition validate_all_with_origins self (txs : list (TransactionOrigin * EthPooledTransaction))
  : option (list (TransactionOrigin * TransactionValidationOutcome)) :=
  match txs with
  | [(origin, tx)] => o ← validate self origin tx; Some [(origin, o)]
  | _ => os ← validate_batch (current_validator self) txs; Some (zip txs.*1 os)
  end.

Definition pool_add_transaction (fuel : nat) self (now : Z) (origin : TransactionOrigin)
  (tx : EthPooledTransaction) : option (PoolInner * result AddedTransactionOutcome PoolError) :=
  o ← validate self origin tx;
  r ← add_transactions fuel self now origin [o];
  res ← last r.2;
  Some (r.1, res).

Definition pool_add_transactions (fuel : nat) self (now : Z) (origin : TransactionOrigin)
  (txs : list EthPooledTransaction) : option (PoolInner * list (result AddedTransactionOutcome PoolError)) :=
  match txs with
  | [] => Some (self, [])
  | _ => os ← validate_all self origin txs; add_transactions fuel self now origin os
  end.

Definition pool_add_transactions_with_origins (fuel : nat) self (now : Z)
  (txs : list (TransactionOrigin * EthPooledTransaction))
  : option (PoolInner * list (result AddedTransactionOutcome PoolError)) :=
  match txs with
  | [] => Some (self, [])
  | _ => os ← validate_all_with_origins self txs; add_transactions_with_origins fuel self now os
  end.

Definition pool_add_transaction_and_subscribe (fuel : nat) self (now : Z) (origin : TransactionOrigin)
  (tx : EthPooledTransaction) : option (PoolInner * result Z PoolError) :=
  o ← validate self origin tx; add_transaction_and_subscribe fuel self now origin o.

End inner.

End Inner.
