(* ===== verification/PoolInnerProps.v ===== *)
(** * Properties of the pool with its validator, blob store and listeners *)

From S2P Require Import Prelude Ordered TxErrors TxIdentifier TxState TxTypes SubPoolSpec.
From S2P Require Import EthTransaction EthValidator EthValidatorProps BlobStore PoolEvents.
From S2P Require Import ParkedPool PendingPool BlobFee BlobPool AllTransactions.
From S2P Require Import TxPool TxPoolInv TxPoolOps TxPoolLimits TxPoolProps TxPoolBest TxPoolRemoved PoolInner.
Import TxErrors Identifier TxState TxTypes SubPoolSpec EthTx Validator ValidatorProps BlobStore PoolEvents.
Import BlobFee PoolInv PoolOps PoolLimits PoolProps PoolRemoved Inner.

Module InnerProps.

#[local] Existing Instance Parked.parked_impl.
#[local] Existing Instance BlobTxs.blob_impl.
#[local] Existing Instance Pending.pending_impl.

(** The hashes of which the sidecars may be deleted on request while their transactions are in the pool.  The results hold whatever it is: if it is empty,
    no sidecar of a transaction of the pool is ever missing. *)
Class LostBlobs := lost : Z -> Prop.

Section props.
Context `{AlloyConstants} `{AlloyTypes} `{ValidatorConstants} {ordering : TransactionOrdering}.
Context {S : Type} `{!BlobStoreTrait S} `{!BlobStoreLaws S} {lost_blobs : LostBlobs}.
Implicit Types (self : PoolInner (S := S)) (v w : ValidPoolTransaction) (i : TransactionId).

(** ** Notifications only reach listeners *)

Definition same_core self self' : Prop :=
  identifiers self' = identifiers self /\ validator self' = validator self /\
  blob_store self' = blob_store self /\ pool self' = pool self /\ inner_config self' = inner_config self.

#[export] Instance same_core_preorder : PreOrder same_core.
Proof. split; unfold same_core; [done|]. intros a b c. naive_solver congruence. Qed.

Lemma notify_hashes_core self f : same_core self (notify_hashes self f).
Proof. unfold notify_hashes. by destruct (retain_listeners _ _ _). Qed.

Lemma notify_txs_core self f : same_core self (notify_txs self f).
Proof. unfold notify_txs. by destruct (retain_listeners _ _ _). Qed.

Lemma on_new_blob_sidecar_core self h s : same_core self (on_new_blob_sidecar self h s).
Proof.
  unfold on_new_blob_sidecar. destruct (blob_transaction_sidecar_listener self) as [[|k l] cs]; [done|].
  by destruct (retain_send _ _ _ _).
Qed.

Lemma notify_promoted_core self l : same_core self (notify_promoted self l).
Proof. unfold notify_promoted. etrans; [apply notify_hashes_core|apply notify_txs_core]. Qed.

Lemma notify_on_new_state_core self o : same_core self (notify_on_new_state self o).
Proof.
  unfold notify_on_new_state. etrans; [apply (notify_promoted_core self (Pool.oc_promoted o))|].
  by destruct (broadcast_is_empty _).
Qed.

Lemma notify_event_listeners_core self a : same_core self (notify_event_listeners self a).
Proof. unfold notify_event_listeners. destruct (broadcast_is_empty _); [done|]. by destruct a. Qed.

(** ** The invariant *)

(** The pool is consistent, identifiers and addresses are in bijection, each
    transaction is filed under the identifier of its sender, and the sidecar of
    each blob transaction is in the store, unless it may be lost. *)
Record inner_ok self (n : Z) : Prop := {
  in_pool : pool_ok (pool self) n;
  in_limits : limits_ok (Pool.config (pool self));
  in_ids : ids_ok (identifiers self);
  in_senders i v : txs_of (pool self) !! i = Some v ->
    address_to_id (identifiers self) !! tx_sender (transaction v) = Some (sender i);
  in_blobs i v : txs_of (pool self) !! i = Some v -> vis_eip4844 v = true -> ~ lost (vhash v) ->
    is_Some (bs_view (blob_store self) !! vhash v);
}.

Lemma inner_ok_core self self' n : same_core self self' -> inner_ok self n -> inner_ok self' n.
Proof. intros (E1 & E2 & E3 & E4 & _) [A B C D F]. split; rewrite ?E1, ?E3, ?E4; done. Qed.

Lemma inner_ok_room self n n' : inner_ok self n -> n' <= n -> inner_ok self n'.
Proof. intros [A B C D F] Hle. split; try done. by apply (pool_inv_room _ _ n). Qed.

(** A hash belongs to one transaction. *)
Lemma hash_unique p n i j v w :
  pool_ok p n -> txs_of p !! i = Some v -> txs_of p !! j = Some w -> vhash v = vhash w -> v = w.
Proof.
  intros Hp Hv Hw Hh. pose proof (txs_keyed p [] n i v Hp Hv) as <-. pose proof (txs_keyed p [] n j w Hp Hw) as <-.
  assert (E1 : Pool.get p (vhash v) = Some v) by (by apply (get_spec _ _ _ _ _ Hp)).
  assert (E2 : Pool.get p (vhash v) = Some w) by (rewrite Hh; by apply (get_spec _ _ _ _ _ Hp)).
  congruence.
Qed.

(** ** Senders *)

Definition ids_grow self self' : Prop :=
  address_to_id (identifiers self) ⊆ address_to_id (identifiers self').

Lemma sender_ids_bound s addrs :
  ids_ok s -> id s + Z.of_nat (length addrs) < u64_modulus ->
  id (sender_ids_or_create s addrs).1 <= id s + Z.of_nat (length addrs).
Proof.
  revert s. induction addrs as [|a addrs IH]; intros s Hok Hr; csimpl; [lia|]. simpl in Hr.
  pose proof (sender_id_or_create_ok s a Hok ltac:(lia)) as H1'.
  destruct (sender_id_or_create s a) as [s1 k]. destruct H1' as (Hok1 & _ & Hle & _).
  specialize (IH s1 Hok1 ltac:(lia)). destruct (sender_ids_or_create s1 addrs) as [s2 ks]. simpl in *. lia.
Qed.

(** Creating identifiers keeps the invariant. *)
Lemma inner_ok_ids self n ids :
  inner_ok self n -> ids_ok ids -> address_to_id (identifiers self) ⊆ address_to_id ids ->
  inner_ok (with_identifiers self ids) n.
Proof.
  intros [A B C D F] Hok Hsub. split; try done. simpl. intros i v Hv. by apply (lookup_weaken _ _ _ _ (D i v Hv)).
Qed.

Lemma get_sender_id_ok self n a :
  inner_ok self n -> id (identifiers self) + 1 < u64_modulus ->
  let r := get_sender_id self a in
  inner_ok r.1 n /\ address_to_id (identifiers r.1) !! a = Some r.2 /\
  id (identifiers r.1) <= id (identifiers self) + 1 /\ ids_grow self r.1 /\
  pool r.1 = pool self /\ blob_store r.1 = blob_store self /\ validator r.1 = validator self.
Proof.
  intros Hok Hr. unfold get_sender_id.
  pose proof (sender_id_or_create_ok (identifiers self) a (in_ids _ _ Hok) Hr) as Hid.
  destruct (sender_id_or_create _ a) as [ids k]. destruct Hid as (Hok' & Hk & Hle & Hsub). simpl.
  split_and!; try done. by apply inner_ok_ids.
Qed.

Lemma changed_senders_ok accs self n acc :
  inner_ok self n -> id (identifiers self) + Z.of_nat (length accs) < u64_modulus ->
  let r := changed_senders self accs acc in
  inner_ok r.1 n /\ pool r.1 = pool self /\ blob_store r.1 = blob_store self /\
  ids_grow self r.1 /\ id (identifiers r.1) <= id (identifiers self) + Z.of_nat (length accs).
Proof.
  revert self acc. induction accs as [|a accs IH]; intros self acc Hok Hr; simpl in *.
  { unfold ids_grow. split_and!; try done. lia. }
  destruct (get_sender_id_ok self n (ca_address a) Hok ltac:(lia)) as (Hok1 & _ & Hle & Hg & Ep & Es & _).
  destruct (get_sender_id self (ca_address a)) as [s1 k]. simpl in *.
  destruct (IH s1 (<[k := mkSenderInfo (ca_nonce a) (ca_balance a)]> acc) Hok1 ltac:(lia)) as (Hok2 & Ep2 & Es2 & Hg2 & Hle2).
  destruct (changed_senders s1 accs _) as [s2 m]. simpl in *.
  split_and!; [done|congruence|congruence|unfold ids_grow in *; by etrans|lia].
Qed.

(** *** The accounts the pool goes by *)

(** The account of an address, as the pool knows it. *)
Definition pool_account self (a : Z) : option SenderInfo :=
  k ← address_to_id (identifiers self) !! a; Pool.sender_info (pool self) !! k.

Definition account_info (c : ChangedAccount) : SenderInfo := mkSenderInfo (ca_nonce c) (ca_balance c).

(** No address has two values. *)
Definition one_each (accs : list ChangedAccount) : Prop :=
  forall c c', c ∈ accs -> c' ∈ accs -> ca_address c = ca_address c' -> c = c'.

(** The pool goes by the accounts [accs], by what it knew for all others, and has no transaction that these accounts are past. *)
Definition accounts_given self (accs : list ChangedAccount) self' : Prop :=
  (forall c, c ∈ accs -> pool_account self' (ca_address c) = Some (account_info c) /\
     forall i v, txs_of (pool self') !! i = Some v -> tx_sender (transaction v) = ca_address c -> ca_nonce c <= nonce i) /\
  (forall b, b ∉ ca_address <$> accs -> pool_account self' b = pool_account self b).

Lemma one_each_NoDup accs : NoDup (ca_address <$> accs) -> one_each accs.
Proof.
  intros Hnd c c' (i & Hi)%list_elem_of_lookup (j & Hj)%list_elem_of_lookup E.
  assert (i = j) as <-; [|congruence]. eapply NoDup_lookup; [exact Hnd|..]; rewrite list_lookup_fmap, ?Hi, ?Hj; simpl; [done|by rewrite E].
Qed.

Lemma get_sender_id_other self a b : b <> a ->
  address_to_id (identifiers (get_sender_id self a).1) !! b = address_to_id (identifiers self) !! b.
Proof.
  intros Hne. unfold get_sender_id, sender_id_or_create, sender_id. destruct (address_to_id (identifiers self) !! a); [done|].
  simpl. by rewrite lookup_insert_ne.
Qed.

Lemma changed_senders_map accs self n acc :
  inner_ok self n -> id (identifiers self) + Z.of_nat (length accs) < u64_modulus -> one_each accs ->
  let r := changed_senders self accs acc in
  (forall c, c ∈ accs -> exists k, address_to_id (identifiers r.1) !! ca_address c = Some k /\ r.2 !! k = Some (account_info c)) /\
  (forall b, b ∉ ca_address <$> accs -> address_to_id (identifiers r.1) !! b = address_to_id (identifiers self) !! b /\
     forall k, address_to_id (identifiers self) !! b = Some k -> r.2 !! k = acc !! k).
Proof.
  revert self acc. induction accs as [|a accs IH]; intros self acc Hok Hr Hone; cbn [changed_senders].
  { split; [by intros c ?%elem_of_nil|done]. }
  cbn [length] in Hr. destruct (get_sender_id_ok self n (ca_address a) Hok ltac:(lia)) as (Hok1 & Ha & Hle & _).
  pose proof (fun b => get_sender_id_other self (ca_address a) b) as Hother.
  destruct (get_sender_id self (ca_address a)) as [s1 k]. cbn [fst snd] in *.
  destruct (IH s1 (<[k := account_info a]> acc) Hok1 ltac:(lia)) as [I1 I2]; [intros c c' ? ?; apply Hone; by right|].
  change (mkSenderInfo (ca_nonce a) (ca_balance a)) with (account_info a). split.
  - intros c [->|Hc]%elem_of_cons; [|by apply I1]. destruct (decide (ca_address a ∈ ca_address <$> accs)) as [Hin|Hout].
    + apply list_elem_of_fmap in Hin as (c' & E & Hc'). assert (a = c') as -> by (apply Hone; [by left|by right|done]). by apply I1.
    + destruct (I2 _ Hout) as [E1 E2]. exists k. rewrite E1, (E2 k Ha). split; [done|apply lookup_insert_eq].
  - intros b [Hne Hb]%not_elem_of_cons. destruct (I2 b Hb) as [E1 E2]. rewrite E1, Hother by done. split; [done|].
    intros kb Hkb. rewrite E2 by (by rewrite Hother). apply lookup_insert_ne. intros <-. apply Hne.
    rewrite <- (Hother b Hne) in Hkb. apply (ids_inverse _ (in_ids _ _ Hok1)) in Hkb, Ha. congruence.
Qed.

(** What the pool knows once it was given the senders of [accs]. *)
Lemma accounts_given_intro self n accs self' :
  inner_ok self n -> id (identifiers self) + Z.of_nat (length accs) < u64_modulus -> one_each accs ->
  let r := changed_senders self accs ∅ in
  identifiers self' = identifiers r.1 -> Pool.sender_info (pool self') = r.2 ∪ Pool.sender_info (pool self) ->
  (forall i v, txs_of (pool self') !! i = Some v -> txs_of (pool self) !! i = Some v /\ ~ stale r.2 i) ->
  accounts_given self accs self'.
Proof.
  intros Hok Hr Hone r Ei Es Ht. destruct (changed_senders_map accs self n ∅ Hok Hr Hone) as [M1 M2].
  destruct (changed_senders_ok accs self n ∅ Hok Hr) as (_ & _ & _ & Hg & _). fold r in M1, M2, Hg. split.
  - intros c Hc. destruct (M1 c Hc) as (k & Hk & Hi). unfold pool_account. rewrite Ei, Hk. simpl. rewrite Es.
    split; [by apply lookup_union_Some_l|]. intros i v Hv Hs. apply Ht in Hv as [Hv Hst].
    pose proof (lookup_weaken _ _ _ _ (in_senders _ _ Hok i v Hv) Hg) as Hsi. rewrite Hs, Hk in Hsi. injection Hsi as E.
    unfold stale in Hst. rewrite <- E, Hi in Hst. simpl in Hst. lia.
  - intros b Hb. destruct (M2 b Hb) as [E1 E2]. unfold pool_account. rewrite Ei, E1.
    destruct (address_to_id (identifiers self) !! b) as [k|]; [|done]. simpl. rewrite Es.
    apply lookup_union_r. by rewrite (E2 k eq_refl), lookup_empty.
Qed.

(** ** Blobs *)

(** Deleting the blobs of transactions that are not in the pool keeps the invariant. *)
Lemma inner_ok_delete_blobs self n hs :
  inner_ok self n -> (forall i v, txs_of (pool self) !! i = Some v -> ~ lost (vhash v) -> vhash v ∉ hs) ->
  inner_ok (delete_blobs self hs) n.
Proof.
  intros [A B C D F] Hout. split; try done. simpl. intros i v Hv Hb Hl. rewrite bsl_delete_all.
  rewrite bool_decide_eq_false_2 by eauto. eauto.
Qed.

(** Transactions evicted from the pool can lose their blobs. *)
Lemma evicted_hashes p p' n m removed :
  pool_ok p n -> m ⊆ txs_of p -> evicts m removed (txs_of p') ->
  forall i v, txs_of p' !! i = Some v -> vhash v ∉ vhash <$> removed.
Proof.
  intros Hp Hsub Hev i v Hv (w & Hh & Hw)%list_elem_of_fmap.
  pose proof (ev_from _ _ _ Hev w Hw) as Hmw.
  pose proof (evicts_lookup _ _ _ _ _ Hev Hv) as Hmv.
  assert (v = w) as -> by (eapply hash_unique; [exact Hp|by eapply lookup_weaken|by eapply lookup_weaken|done]).
  pose proof (txs_keyed p [] n i w Hp ltac:(by eapply lookup_weaken)) as <-.
  rewrite (ev_rest _ _ _ Hev), lookup_delete_txs, bool_decide_eq_true_2 in Hv; [done|].
  by apply list_elem_of_fmap_2.
Qed.

(** ** One transaction *)

Definition outcome_authorities (o : TransactionValidationOutcome) : list Z :=
  match o with OutcomeValid _ _ _ _ _ (Some auths) => auths | _ => [] end.

(** At most so many identifiers are created for it. *)
Definition ids_cost (o : TransactionValidationOutcome) : Z := 1 + Z.of_nat (length (outcome_authorities o)).

(** The fields are of their types and the nonce is not used up. *)
Definition outcome_ok (o : TransactionValidationOutcome) : Prop :=
  match o with
  | OutcomeValid _ state_nonce _ vt _ _ =>
      let tx := signed (valid_transaction vt) in
      is_u64 (s_nonce tx) /\ is_u128 (s_max_fee_per_gas tx) /\
      is_u128 (default 0 (s_max_fee_per_blob_gas tx)) /\ state_nonce <= s_nonce tx
  | _ => True
  end.

Definition outcome_is_blob (o : TransactionValidationOutcome) : bool :=
  match o with OutcomeValid _ _ _ vt _ _ => is_eip4844 (pool_transaction (valid_transaction vt)) | _ => false end.

Definition outcome_sidecar (o : TransactionValidationOutcome) : option BlobTransactionSidecarVariant :=
  match o with OutcomeValid _ _ _ (ValidWithSidecar _ s) _ _ => Some s | _ => None end.

(** A blob transaction comes with its sidecar, or the store has it. *)
Definition blob_ready self (o : TransactionValidationOutcome) : Prop :=
  outcome_is_blob o = true -> outcome_sidecar o = None -> is_Some (bs_view (blob_store self) !! outcome_tx_hash o).

(** The transaction [v] the pool makes of an outcome, with the identifiers of
    its accounts. *)
Definition made_from (ids : SenderIdentifiers) (now : Z) (origin : TransactionOrigin)
  (o : TransactionValidationOutcome) v : Prop :=
  match o with
  | OutcomeValid _ _ _ vt propagate authorities =>
      let tx := valid_transaction vt in
      exists s auth_ids, v = pool_tx tx s propagate now origin auth_ids /\
        address_to_id ids !! s_signer (signed tx) = Some s /\
        match authorities, auth_ids with
        | Some auths, Some l => Forall2 (fun (a : Z) (k : SenderId) => address_to_id ids !! a = Some k) auths l
        | None, None => True
        | _, _ => False
        end
  | _ => False
  end.

(** Identifiers for the sender and the authorities of a transaction. *)
Definition authority_senders self (authorities : option (list Z)) : PoolInner * option (list SenderId) :=
  match authorities with
  | Some auths => let '(self, ids) := get_sender_ids self auths in (self, Some ids)
  | None => (self, None)
  end.

Lemma authority_senders_ok self n authorities :
  inner_ok self n -> id (identifiers self) + Z.of_nat (length (default [] authorities)) < u64_modulus ->
  let r := authority_senders self authorities in
  inner_ok r.1 n /\ ids_grow self r.1 /\
  id (identifiers r.1) <= id (identifiers self) + Z.of_nat (length (default [] authorities)) /\
  pool r.1 = pool self /\ blob_store r.1 = blob_store self /\
  match authorities, r.2 with
  | Some auths, Some l => Forall2 (fun (a : Z) (k : SenderId) => address_to_id (identifiers r.1) !! a = Some k) auths l
  | None, None => True
  | _, _ => False
  end.
Proof.
  intros Hok Hr. unfold authority_senders, get_sender_ids, ids_grow. destruct authorities as [auths|]; simpl in *.
  2:{ split_and!; try done. lia. }
  pose proof (sender_ids_or_create_ok _ auths (in_ids _ _ Hok) Hr) as H1'.
  pose proof (sender_ids_bound _ auths (in_ids _ _ Hok) Hr) as H2'.
  destruct (sender_ids_or_create _ auths) as [ids l]. destruct H1' as (Hok' & Hall & Hsub). simpl in *.
  split_and!; try done. by apply inner_ok_ids.
Qed.

(** ** What follows the insertion *)

(** The sidecars after the insertion of [v] with sidecar [sc] in place of [rep]. *)
Definition blobs_after (m : gmap Z BlobTransactionSidecarVariant) v
  (sc : option BlobTransactionSidecarVariant) (rep : option ValidPoolTransaction) :=
  let m := match sc with Some s => <[vhash v := s]> m | None => m end in
  match rep with
  | Some w => if vis_eip4844 w then delete (vhash w) m else m
  | None => m
  end.

Definition upto_blobs self self' : Prop :=
  identifiers self' = identifiers self /\ validator self' = validator self /\
  pool self' = pool self /\ inner_config self' = inner_config self.

Lemma after_insert_core self added sc :
  discarded_transactions added = None \/ discarded_transactions added = Some [] ->
  let self' := after_insert self added sc in
  upto_blobs self self' /\
  bs_view (blob_store self') = blobs_after (bs_view (blob_store self)) (added_tx added) sc (added_replaced_tx added).
Proof.
  intros Hd. unfold after_insert. cbv zeta.
  set (s1 := match sc with Some _ => _ | None => _ end).
  set (s2 := match replaced_blob_transaction added with Some _ => _ | None => _ end).
  set (s3 := match added with Pool.AddedPending _ _ _ _ => _ | _ => _ end).
  set (s4 := match discarded_transactions added with Some _ => _ | None => _ end).
  assert (C1 : upto_blobs self s1 /\ bs_view (blob_store s1) =
    match sc with Some s => <[vhash (added_tx added) := s]> (bs_view (blob_store self)) | None => bs_view (blob_store self) end).
  { unfold s1. destruct sc as [s|]; [|done]. simpl.
    destruct (on_new_blob_sidecar_core self (vhash (added_tx added)) s) as (? & ? & E & ? & ?).
    split; [done|]. by rewrite bsl_insert, E. }
  assert (C2 : upto_blobs s1 s2 /\ bs_view (blob_store s2) =
    match added_replaced_tx added with
    | Some w => if vis_eip4844 w then delete (vhash w) (bs_view (blob_store s1)) else bs_view (blob_store s1)
    | None => bs_view (blob_store s1) end).
  { unfold s2, replaced_blob_transaction. destruct (added_replaced_tx added) as [w|]; [|done].
    destruct (vis_eip4844 w); [|done]. split; [done|]. simpl. apply bsl_delete. }
  assert (C3 : same_core s2 s3) by (unfold s3; destruct added; [apply notify_hashes_core|done]).
  pose proof (notify_event_listeners_core s3 added) as C4.
  assert (C5 : upto_blobs (notify_event_listeners s3 added) s4 /\
    bs_view (blob_store s4) = bs_view (blob_store (notify_event_listeners s3 added))).
  { unfold s4. destruct Hd as [-> | ->]; [done|]. split; [done|]. simpl. apply map_eq. intros h.
    rewrite bsl_delete_all. by rewrite bool_decide_eq_false_2 by (by intros ?%elem_of_nil). }
  pose proof (notify_txs_core s4) as C6. unfold same_core, upto_blobs, on_new_transaction, blobs_after in *.
  destruct C1 as ((?&?&?&?) & B1), C2 as ((?&?&?&?) & B2), C3 as (?&?&E3&?&?), C4 as (?&?&E4&?&?), C5 as ((?&?&?&?) & B5).
  match goal with |- context [notify_txs s4 ?f] => destruct (C6 f) as (?&?&E6&?&?) end. split; [split_and!; congruence|]. by rewrite E6, B5, E4, E3, B2, B1.
Qed.

(** ** Adding one transaction *)

Abbreviation pool_size self := (Z.of_nat (size (all_txs (pool self)))).

(** The signer of a transaction that was found valid. *)
Definition outcome_signer (o : TransactionValidationOutcome) : list Z :=
  match o with OutcomeValid _ _ _ vt _ _ => [s_signer (signed (valid_transaction vt))] | _ => [] end.

(** The accounts that the pool knows stay as they are, but for those of [signers]. *)
Definition accounts_kept self (signers : list Z) self' : Prop :=
  forall a x, a ∉ signers -> pool_account self a = Some x -> pool_account self' a = Some x.

Lemma accounts_kept_trans self l self1 l' self' : accounts_kept self l self1 -> accounts_kept self1 l' self' -> accounts_kept self (l ++ l') self'.
Proof. intros K1 K2 a x Ha Hx. rewrite elem_of_app in Ha. apply K2; [tauto|]. apply K1; [tauto|done]. Qed.

(** What the addition of one transaction does to the pool and to the sidecars. *)
Definition added_effect self (now : Z) (origin : TransactionOrigin) (o : TransactionValidationOutcome) self'
  (r : result AddedTransactionOutcome PoolError) : Prop :=
  match r with
  | Ok out => exists v, made_from (identifiers self') now origin o v /\ added_hash out = vhash v /\
      Pool.get (pool self) (vhash v) = None /\
      txs_of (pool self') = <[transaction_id v := v]> (txs_of (pool self))
  | Err _ => txs_of (pool self') = txs_of (pool self)
  end /\
  (forall h, is_Some (bs_view (blob_store self) !! h) -> Pool.get (pool self) h = None ->
     is_Some (bs_view (blob_store self') !! h)).

Lemma add_valid_eq self now origin b sn code vt pr auths :
  add_transaction self now origin (OutcomeValid b sn code vt pr auths) =
  (let '(s1, k) := get_sender_id self (s_signer (signed (valid_transaction vt))) in
   let '(s2, aids) := authority_senders s1 auths in
   r ← Pool.add_transaction (pool s2) (pool_tx (valid_transaction vt) k pr now origin aids) b sn code;
   match r.2 with
   | Err e => Some (with_pool s2 r.1, Err e)
   | Ok added => Some (after_insert (with_pool s2 r.1) added (outcome_sidecar (OutcomeValid b sn code vt pr auths)),
                       Ok (mkAddedOutcome (vhash (added_tx added)) (transaction_state added)))
   end).
Proof.
  unfold add_transaction, authority_senders. destruct (get_sender_id _ _) as [s1 k].
  destruct vt as [tx|tx sc]; simpl; (destruct auths as [auths|]; [destruct (get_sender_ids s1 auths)|]);
    simpl; destruct (Pool.add_transaction _ _ _ _ _) as [[? [?|?]]|]; done.
Qed.

(** A sidecar that is in the store stays there unless its transaction is replaced. *)
Lemma blobs_after_keep m v sc rep h :
  is_Some (m !! h) -> (forall w, rep = Some w -> vhash w <> h) -> is_Some (blobs_after m v sc rep !! h).
Proof.
  intros Hm Hrep. unfold blobs_after.
  assert (H' : is_Some (match sc with Some s => <[vhash v := s]> m | None => m end !! h)).
  { destruct sc as [s|]; [|done]. destruct (decide (vhash v = h)) as [<-|Hne];
      [rewrite lookup_insert_eq; eauto|by rewrite lookup_insert_ne]. }
  destruct rep as [w|]; [|done]. destruct (vis_eip4844 w); [|done]. by rewrite lookup_delete_ne by auto.
Qed.

Lemma blobs_after_own m v s rep :
  (forall w, rep = Some w -> vhash w <> vhash v) -> is_Some (blobs_after m v (Some s) rep !! vhash v).
Proof.
  intros Hrep. unfold blobs_after. destruct rep as [w|]; [|rewrite lookup_insert_eq; eauto].
  destruct (vis_eip4844 w); rewrite ?lookup_delete_ne by auto; rewrite lookup_insert_eq; eauto.
Qed.

(** The invariant after the insertion of [v] into the pool. *)
Lemma inner_ok_inserted self self' n m v sc :
  inner_ok self m -> pool_ok (pool self') n -> limits_ok (Pool.config (pool self')) ->
  identifiers self' = identifiers self ->
  Pool.get (pool self) (vhash v) = None ->
  txs_of (pool self') = <[transaction_id v := v]> (txs_of (pool self)) ->
  address_to_id (identifiers self) !! tx_sender (transaction v) = Some (sender (transaction_id v)) ->
  bs_view (blob_store self') =
    blobs_after (bs_view (blob_store self)) v sc (txs_of (pool self) !! transaction_id v) ->
  (vis_eip4844 v = true -> sc = None -> is_Some (bs_view (blob_store self) !! vhash v)) ->
  inner_ok self' n.
Proof.
  intros [A B C D F] Hp Hl Hi Hg Ht Hs Hb Hr.
  assert (Hnew : forall i w, txs_of (pool self) !! i = Some w -> vhash w <> vhash v).
  { intros i w Hw Hh. pose proof (txs_keyed _ _ _ _ _ A Hw) as <-.
    assert (E : Pool.get (pool self) (vhash v) = Some w) by (by apply (get_spec _ _ _ _ _ A)). congruence. }
  split; [done|done|by rewrite Hi| |].
  - intros i w. rewrite Ht, lookup_insert_Some. intros [[<- <-]|[_ Hw]]; rewrite Hi; auto.
  - intros i w Hw Hbl Hlo. rewrite Hb. rewrite Ht, lookup_insert_Some in Hw. destruct Hw as [[<- <-]|[Hne Hw]].
    + destruct sc as [s|]; [apply blobs_after_own; intros w E; by apply (Hnew _ _ E)|].
      apply blobs_after_keep; [auto|]. intros w E. by apply (Hnew _ _ E).
    + apply blobs_after_keep; [by eapply F|]. intros w' E Hh. apply Hne.
      assert (w' = w) as -> by (eapply hash_unique; [exact A|exact E|exact Hw|done]).
      pose proof (txs_keyed _ _ _ _ _ A Hw) as <-. by pose proof (txs_keyed _ _ _ _ _ A E) as <-.
Qed.

Lemma add_transaction_ok self n now origin o :
  inner_ok self (n + pool_size self + 2) -> 0 <= n -> outcome_ok o -> blob_ready self o ->
  id (identifiers self) + ids_cost o < u64_modulus -> pool_size self + 1 < u64_modulus ->
  exists self' r, add_transaction self now origin o = Some (self', r) /\ inner_ok self' n /\
    ids_grow self self' /\ id (identifiers self') <= id (identifiers self) + ids_cost o /\
    Pool.config (pool self') = Pool.config (pool self) /\ added_effect self now origin o self' r /\
    accounts_kept self (outcome_signer o) self'.
Proof.
  intros Hok Hn Ho Hb Hid Hsz. destruct o as [b sn code vt pr auths|tx err|h err].
  2,3: eexists _, _; split; [reflexivity|]; unfold ids_grow, ids_cost;
    (split_and!; [apply (inner_ok_room _ (n + pool_size self + 2)); [by apply (inner_ok_core self)|lia]
                 |done|simpl; lia|done|done|by intros a x]).
  rewrite add_valid_eq. unfold ids_cost, blob_ready in *. set (sc := outcome_sidecar _) in *. simpl in Hid, Ho, Hb.
  assert (Hlen : length (default [] auths) = length (outcome_authorities (OutcomeValid b sn code vt pr auths)))
    by (by destruct auths). simpl in Hlen |- *. rewrite <- Hlen in Hid |- *. clear Hlen.
  destruct (get_sender_id_ok self _ (s_signer (signed (valid_transaction vt))) Hok ltac:(lia))
    as (Hok1 & Hk & Hle1 & Hg1 & Ep1 & Es1 & _).
  destruct (get_sender_id self _) as [s1 k]. simpl in *.
  destruct (authority_senders_ok s1 _ auths Hok1 ltac:(lia)) as (Hok2 & Hg2 & Hle2 & Ep2 & Es2 & Hall).
  destruct (authority_senders s1 auths) as [s2 aids]. simpl in *.
  set (v := pool_tx _ _ _ _ _ _). rewrite Ep1 in Ep2. rewrite Es1 in Es2.
  destruct Ho as (N1 & N2 & N3 & N4).
  destruct (add_transaction_inv (pool s2) n v b sn code) as (p & r & Hadd & Hp & Hc & _ & Hout);
    [rewrite Ep2 at 2; exact (in_pool _ _ Hok2)|done|by split_and!|done|by rewrite Ep2|].
  rewrite Hadd. simpl. assert (Hg : ids_grow self s2) by (unfold ids_grow in *; by etrans).
  assert (Hkeep : forall self', identifiers self' = identifiers s2 -> pool self' = p ->
    accounts_kept self [s_signer (signed (valid_transaction vt))] self').
  { intros self' E1 E2 a x Ha Hx. unfold pool_account in *. apply bind_Some in Hx as (ka & Hka & Hx). rewrite E1, E2.
    pose proof (lookup_weaken _ _ _ _ Hka Hg) as Hka2. rewrite Hka2. simpl. rewrite (add_outcome_senders _ _ _ _ _ _ ka Hout); [by rewrite Ep2|].
    change (vsender_id v) with k. intros ->. apply Ha, list_elem_of_singleton. pose proof (lookup_weaken _ _ _ _ Hk Hg2) as Hk2.
    apply (ids_inverse _ (in_ids _ _ Hok2)) in Hka2, Hk2. congruence. }
  destruct r as [added|e].
  - destruct Hout as (Hget & Htx & Hat & Har & _ & Had & _). rewrite Ep2 in Hget.
    destruct (after_insert_core (with_pool s2 p) added sc)
      as ((U1 & U2 & U3 & U4) & Hbv); [destruct added; simpl in *; subst; auto|].
    set (s3 := after_insert _ _ _) in *. simpl in U1, U2, U3, U4, Hbv.
    assert (Hav : added_tx added = v) by (by destruct added).
    assert (Hrv : added_replaced_tx added = txs_of (pool s2) !! transaction_id v) by (by destruct added).
    rewrite Hav, Hrv in Hbv. eexists _, _. split; [reflexivity|].
    assert (Htx' : txs_of (pool s3) = <[transaction_id v := v]> (txs_of (pool s2))) by (by rewrite U3).
    split_and!.
    + apply (inner_ok_inserted s2 s3 n _ v sc Hok2); rewrite ?U3; try done.
      * rewrite Hc. apply (in_limits _ _ Hok2).
      * by rewrite Ep2.
      * simpl. by apply (lookup_weaken _ _ _ _ Hk).
      * rewrite Es2. exact Hb.
    + unfold ids_grow. by rewrite U1.
    + rewrite U1. lia.
    + by rewrite U3, Hc, Ep2.
    + split.
      { simpl. exists v. rewrite Hav. split_and!; [|done|done|by rewrite Htx', Ep2].
        rewrite U1. exists k, aids. split_and!; [done|by apply (lookup_weaken _ _ _ _ Hk)|done]. }
      intros h Hh Hgh. rewrite Hbv, Es2, Ep2. apply blobs_after_keep; [done|]. intros w Hw <-.
      pose proof (txs_keyed _ _ _ _ _ (in_pool _ _ Hok) Hw) as Hkey.
      rewrite <- Hkey in Hw. apply (conj (eq_refl (vhash w))), (get_spec _ _ _ _ _ (in_pool _ _ Hok)) in Hw. congruence.
    + by apply Hkeep.
  - apply add_outcome_err in Hout as [sd ->]. eexists _, _. split; [reflexivity|]. simpl. unfold added_effect. simpl. rewrite Es2, Ep2.
    split_and!; try done; [|lia|apply Hkeep; [done|simpl; by rewrite Ep2]]. destruct Hok2 as [A2 B2 C2 D2 F2]. split; try done; simpl; by rewrite Ep2 in *.
Qed.

(** ** Adding a batch *)

Abbreviation Batch := (list (TransactionOrigin * TransactionValidationOutcome)).

Definition needs_store (o : TransactionValidationOutcome) : bool :=
  (outcome_is_blob o && match outcome_sidecar o with None => true | Some _ => false end)%bool.

Definition batch_signers (os : Batch) : list Z := os ≫= fun x => outcome_signer x.2.

Definition batch_hashes (os : Batch) : list Z := (fun x => outcome_tx_hash x.2) <$> os.

(** A blob transaction without sidecar: the store has it, and no transaction
    before it in the batch can make the pool give it up. *)
Definition batch_ready self (os : Batch) : Prop :=
  forall l1 x l2, os = l1 ++ x :: l2 -> needs_store x.2 = true ->
    is_Some (bs_view (blob_store self) !! outcome_tx_hash x.2) /\
    (l1 <> [] -> Pool.get (pool self) (outcome_tx_hash x.2) = None /\ outcome_tx_hash x.2 ∉ batch_hashes l1).

Definition batch_ids (os : Batch) : Z := foldr (fun x acc => ids_cost x.2 + acc) 0 os.

(** The transactions accepted from a batch, before the limits are enforced. *)
Definition accepts (ids : SenderIdentifiers) (now : Z) (x : TransactionOrigin * TransactionValidationOutcome)
  (ov : option ValidPoolTransaction) : Prop :=
  match ov with Some v => made_from ids now x.1 x.2 v | None => True end.

Definition insert_txs (m : TxMap) (vs : list ValidPoolTransaction) : TxMap :=
  foldl (fun m v => <[transaction_id v := v]> m) m vs.

Definition answers (ov : option ValidPoolTransaction) (r : result AddedTransactionOutcome PoolError) : Prop :=
  match ov, r with
  | Some v, Ok out => added_hash out = vhash v
  | None, Err _ => True
  | _, _ => False
  end.

Lemma made_from_hash ids now origin o v : made_from ids now origin o v -> vhash v = outcome_tx_hash o.
Proof. destruct o; simpl; [|done..]. by intros (s & l & -> & _). Qed.

Lemma made_from_grow ids ids' now origin o v :
  address_to_id ids ⊆ address_to_id ids' -> made_from ids now origin o v -> made_from ids' now origin o v.
Proof.
  intros Hsub. destruct o as [b sn code vt pr auths| |]; simpl; [|done..].
  intros (s & l & -> & Hs & Hl). exists s, l. split_and!; [done|by eapply lookup_weaken|].
  destruct auths as [auths|], l as [l|]; try done. eapply Forall2_impl; [exact Hl|]. intros a k Ha. by apply (lookup_weaken _ _ _ _ Ha).
Qed.

Lemma batch_ready_head self x os : batch_ready self (x :: os) -> blob_ready self x.2.
Proof.
  intros Hb Hbl Hsc. destruct (Hb [] x os eq_refl) as [? _]; [|done].
  unfold needs_store. by rewrite Hbl, Hsc.
Qed.

Lemma batch_ready_tail self self' n now x os r :
  (exists m, inner_ok self m) -> inner_ok self' n -> batch_ready self (x :: os) -> added_effect self now x.1 x.2 self' r ->
  batch_ready self' os.
Proof.
  intros [m Hok] Hok' Hb [He Hkeep] l1 y l2 -> Hy.
  destruct (Hb (x :: l1) y l2 eq_refl Hy) as [Hv Hg]. destruct Hg as [Hg Hh]; [done|].
  split; [by apply Hkeep|]. intros _. csimpl in Hh. apply not_elem_of_cons in Hh as [Hx Hh]. split; [|done].
  destruct (Pool.get (pool self') _) as [w|] eqn:Hw; [exfalso|done].
  apply (get_spec _ _ _ _ _ (in_pool _ _ Hok')) in Hw as [Hwh Hw].
  change (txs_of (pool self') !! transaction_id w = Some w) in Hw.
  assert (Hno : txs_of (pool self) !! transaction_id w <> Some w).
  { intros E. apply (conj Hwh), (get_spec _ _ _ _ _ (in_pool _ _ Hok)) in E. congruence. }
  destruct r as [out|e]; [|by rewrite He in Hw].
  destruct He as (v & Hm & _ & _ & Ht). rewrite Ht, lookup_insert_Some in Hw.
  destruct Hw as [[_ ->]|[_ Hw]]; [|done]. apply made_from_hash in Hm. congruence.
Qed.

Lemma add_each_ok os self n now :
  inner_ok self (n + Z.of_nat (length os) * (pool_size self + Z.of_nat (length os) + 2)) -> 0 <= n ->
  Forall (fun x => outcome_ok x.2) os -> batch_ready self os ->
  id (identifiers self) + batch_ids os < u64_modulus -> pool_size self + Z.of_nat (length os) < u64_modulus ->
  exists self' rs vs, add_each self now os = Some (self', rs) /\ inner_ok self' n /\ ids_grow self self' /\
    Pool.config (pool self') = Pool.config (pool self) /\
    Forall2 (accepts (identifiers self') now) os vs /\ Forall2 answers vs rs /\
    txs_of (pool self') = insert_txs (txs_of (pool self)) (omap Datatypes.id vs) /\
    accounts_kept self (batch_signers os) self'.
Proof.
  revert self n. induction os as [|[origin o] os IH]; intros self n Hok Hn Ho Hb Hid Hsz; simpl in *.
  { exists self, [], []. unfold ids_grow. split_and!; try done; [by rewrite Z.mul_0_l, Z.add_0_r in Hok|]. by intros a x. }
  apply Forall_cons in Ho as [Ho Hos]. simpl in Ho.
  assert (Hids : 0 <= batch_ids os) by (clear; induction os as [|x os]; simpl; unfold ids_cost in *; lia).
  set (k := Z.of_nat (length os)) in *. assert (Hk : Z.of_nat (Datatypes.S (length os)) = k + 1) by lia. rewrite Hk in *.
  destruct (add_transaction_ok self (n + k * (pool_size self + 1 + k + 2)) now origin o)
    as (s1 & r & -> & Hok1 & Hg1 & Hle1 & Hc1 & He & Hk1);
    [apply (inner_ok_room _ _ _ Hok); nia|nia|done|by apply (batch_ready_head _ _ _ Hb)|lia|lia|].
  assert (Hsz1 : pool_size s1 <= pool_size self + 1).
  { rewrite <- !AllTxs.pool_txs_size. change (Z.of_nat (size (txs_of (pool s1))) <= Z.of_nat (size (txs_of (pool self))) + 1).
    destruct r; [|rewrite (proj1 He); lia]. destruct (proj1 He) as (v & _ & _ & _ & ->).
    pose proof (AllTxs.map_size_insert_le (txs_of (pool self)) (transaction_id v) v). lia. }
  destruct (IH s1 n) as (s2 & rs & vs & Heq & Hok2 & Hg2 & Hc2 & Hacc & Hans & Htx & Hk2);
    [apply (inner_ok_room _ _ _ Hok1); nia|done|done|exact (batch_ready_tail self s1 _ now (origin, o) os r (ex_intro _ _ Hok) Hok1 Hb He)|lia|lia|].
  cbn. rewrite Heq. cbn. unfold ids_grow in *.
  destruct r as [out|e]; destruct He as [He _].
  - destruct He as (v & Hm & Hh & _ & Ht).
    exists s2, (Ok out :: rs), (Some v :: vs). split_and!; try done; [by etrans|congruence| | | |].
    + constructor; [|done]. by apply (made_from_grow _ _ _ _ _ _ Hg2).
    + by constructor.
    + simpl. by rewrite Htx, Ht.
    + by eapply accounts_kept_trans.
  - exists s2, (Err e :: rs), (None :: vs). split_and!; try done; [by etrans|congruence| | | |].
    + by constructor.
    + by constructor.
    + simpl. by rewrite Htx, He.
    + by eapply accounts_kept_trans.
Qed.

(** The answer to a transaction: accepted transactions that enforcing the limits
    discarded again are reported as such. *)
Definition answered (discarded : list ValidPoolTransaction) (ov : option ValidPoolTransaction)
  (r : result AddedTransactionOutcome PoolError) : Prop :=
  match ov with
  | Some v => if bool_decide (vhash v ∈ vhash <$> discarded)
              then r = Err (mkPoolError (vhash v) DiscardedOnInsert)
              else exists st, r = Ok (mkAddedOutcome (vhash v) st)
  | None => exists e, r = Err e
  end.

Lemma adjusted_answers discarded vs rs :
  Forall2 answers vs rs -> Forall2 (answered discarded) vs (adjust_result (vhash <$> discarded) <$> rs).
Proof.
  intros Hall. apply Forall2_fmap_r. eapply Forall2_impl; [exact Hall|].
  intros [v|] [[h st]|e]; simpl; try done; [|by eauto]. intros ->. case_bool_decide; eauto.
Qed.

Lemma answers_any vs (rs : list (result AddedTransactionOutcome PoolError)) :
  Forall2 answers vs rs -> existsb is_ok rs = bool_decide (omap Datatypes.id vs <> []).
Proof. induction 1 as [|[v|] [o|e] vs rs Ha _ IH]; try done. Qed.

Lemma adjust_nothing (rs : list (result AddedTransactionOutcome PoolError)) : adjust_result [] <$> rs = rs.
Proof.
  rewrite <- (list_fmap_id rs) at 2. apply list_fmap_ext. by intros _ [[h st]|e] _.
Qed.

Lemma inner_ok_discarded self n m p removed :
  inner_ok self m -> pool_ok p n -> Pool.config p = Pool.config (pool self) ->
  (exists t, t ⊆ txs_of (pool self) /\ evicts t removed (txs_of p)) ->
  inner_ok (delete_discarded_blobs (with_pool self p) removed) n.
Proof.
  intros Hok Hp Hc (t & Hsub & Hev). apply inner_ok_delete_blobs.
  - destruct Hok as [A B C D F]. split; simpl; [done|by rewrite Hc|done| |].
    + intros i v Hv. eapply D, lookup_weaken; [by eapply evicts_lookup|done].
    + intros i v Hv. eapply F, lookup_weaken; [by eapply evicts_lookup|done].
  - intros i v Hv _ Hin. eapply (evicted_hashes (pool self) p); [apply Hok|done|done|done|].
    apply list_elem_of_fmap in Hin as (w & -> & Hw). apply list_elem_of_fmap_2.
    apply list_elem_of_In, filter_In in Hw as [Hw _]. by apply list_elem_of_In.
Qed.

(** Replacing the pool by one with fewer transactions. *)
Lemma inner_ok_subset self n m p :
  inner_ok self m -> pool_ok p n -> Pool.config p = Pool.config (pool self) -> txs_of p ⊆ txs_of (pool self) ->
  inner_ok (with_pool self p) n.
Proof.
  intros [A B C D F] Hp Hc Hsub. split; simpl; [done|by rewrite Hc|done| |].
  - intros i v Hv. eapply D, lookup_weaken; [exact Hv|done].
  - intros i v Hv. eapply F, lookup_weaken; [exact Hv|done].
Qed.

Lemma inner_ok_events self n e : inner_ok self n -> inner_ok (with_events self e) n.
Proof. by apply inner_ok_core. Qed.

(** The limits are enforced if something was added. *)
Definition enforced (fuel : nat) (added : bool) (p : Pool.TxPool) (discarded : list ValidPoolTransaction) (p' : Pool.TxPool) : Prop :=
  if added then Pool.discard_worst fuel p = Some (p', discarded) else p' = p /\ discarded = [].

(** Then they hold; and nothing is discarded if they do already. *)
Lemma enforced_limits fuel p n discarded p' :
  pool_ok p n -> limits_ok (Pool.config p) -> sizes_ok (txs_of p) -> enforced fuel true p discarded p' ->
  within_limits p' /\ (within_limits p -> discarded = []).
Proof.
  intros Hp Hl Hs Hd. destruct (discard_worst_limits _ _ _ _ _ Hp Hl Hd) as (_ & _ & Hw). split; [by apply Hw|].
  intros Hin. destruct fuel as [|fuel]; [done|]. unfold enforced in Hd. rewrite (discard_worst_within fuel p n) in Hd by done. by injection Hd.
Qed.

(** Enforcing the limits after the insertions. *)
Lemma enforce_ok fuel mid n added :
  inner_ok mid n ->
  match (d ← (if existsb is_ok added then Pool.discard_worst fuel (pool mid) else Some (pool mid, []));
         let '(p, discarded) := d in
         let self := with_pool mid p in
         match discarded with
         | [] => Some (self, added)
         | _ => let self := delete_discarded_blobs self discarded in
                let self := with_events self (discarded_many (event_listener self) discarded) in
                Some (self, adjust_result (vhash <$> discarded) <$> added)
         end) with
  | None => existsb is_ok added = true /\ Pool.discard_worst fuel (pool mid) = None
  | Some (self', rs) => inner_ok self' n /\ identifiers self' = identifiers mid /\
      Pool.config (pool self') = Pool.config (pool mid) /\
      exists discarded, evicts (txs_of (pool mid)) discarded (txs_of (pool self')) /\
        (forall i v, txs_of (pool self') !! i = Some v -> vhash v ∉ vhash <$> discarded) /\
        rs = adjust_result (vhash <$> discarded) <$> added /\
        enforced fuel (existsb is_ok added) (pool mid) discarded (pool self') /\
        Pool.sender_info (pool self') = Pool.sender_info (pool mid)
  end.
Proof.
  intros Hok.
  destruct (if existsb is_ok added then _ else _) as [[p removed]|] eqn:Hd; simpl.
  2:{ by destruct (existsb is_ok added). }
  assert (Hen : enforced fuel (existsb is_ok added) (pool mid) removed p).
  { unfold enforced. destruct (existsb is_ok added); [done|]. by injection Hd as <- <-. }
  assert (Hfacts : pool_ok p n /\ Pool.config p = Pool.config (pool mid) /\ Pool.sender_info p = Pool.sender_info (pool mid) /\
    evicts (txs_of (pool mid)) removed (txs_of p)).
  { destruct (existsb is_ok added).
    - destruct (discard_worst_limits _ _ _ _ _ (in_pool _ _ Hok) (in_limits _ _ Hok) Hd) as (? & [(? & ? & _) _] & _).
      split_and!; try done. eapply discard_worst_evicts; [apply Hok|apply Hok|done].
    - injection Hd as <- <-. split_and!; [apply Hok|done|done|apply evicts_nil]. }
  destruct Hfacts as (Hp & Hc & Hsi & Hev).
  assert (Hsub : exists t, t ⊆ txs_of (pool mid) /\ evicts t removed (txs_of p)) by (by exists (txs_of (pool mid))).
  destruct removed as [|w removed].
  - split_and!; [|done|done|].
    + apply (inner_ok_subset mid n n p); try done. apply map_subseteq_spec. intros i v Hv. by eapply evicts_lookup.
    + exists []. rewrite adjust_nothing. split_and!; [done|by intros i v _ ?%elem_of_nil|done..].
  - split_and!; [|done|done|].
    2:{ exists (w :: removed). split_and!; [done| |done..]. eapply evicted_hashes; [apply Hok| |exact Hev]. done. }
    apply inner_ok_events. by apply (inner_ok_discarded mid n n).
Qed.

(** ** The operations as steps *)

(** The methods of [PoolInner] that change its state. *)
Inductive InnerOp :=
| IAdd (fuel : nat) (now : Z) (batch : Batch)
| IRemove (hashes : list Z)
| IRemoveDescendants (hashes : list Z)
| IRemoveSender (addr : Z)
| ICanonical (update : CanonicalStateUpdate)
| IAccounts (accounts : list ChangedAccount)
| IBlockInfo (info : BlockInfo)
| IDeleteBlobs (hashes : list Z)
| ICleanupBlobs
| IPropagated (txs : list (Z * list PropagateKind))
| ILookupSender (addr : Z)
| IListenHash (hash : Z)
| IListenAll
| IListenPending (kind : TransactionListenerKind)
| IListenNew (kind : TransactionListenerKind)
| IListenBlobs.

Definition run_inner (op : InnerOp) self : option PoolInner :=
  match op with
  | IAdd fuel now batch => fst <$> add_transactions_with_origins fuel self now batch
  | IRemove hs => fst <$> remove_transactions self hs
  | IRemoveDescendants hs => fst <$> remove_transactions_and_descendants self hs
  | IRemoveSender a => fst <$> remove_transactions_by_sender self a
  | ICanonical u => on_canonical_state_change self u
  | IAccounts accs => update_accounts self accs
  | IBlockInfo info => set_block_info self info
  | IDeleteBlobs hs => Some (delete_blobs self hs)
  | ICleanupBlobs => Some (cleanup_blobs self)
  | IPropagated txs => Some (on_propagated self txs)
  | ILookupSender a => Some (get_sender_id self a).1
  | IListenHash h => Some (add_transaction_event_listener self h).1
  | IListenAll => Some (add_all_transactions_event_listener self).1
  | IListenPending kind => fst <$> add_pending_listener self kind
  | IListenNew kind => fst <$> add_new_transaction_listener self kind
  | IListenBlobs => Some (add_blob_sidecar_listener self).1
  end.

(** What the callers ensure: a batch comes from validation, fees fit their
    types, the blobs of a transaction of the pool are deleted only if they may be lost, channels have a
    buffer, and the counters for identifiers do not wrap. *)
Definition inner_op_ok (op : InnerOp) self : Prop :=
  match op with
  | IAdd _ _ batch => Forall (fun x => outcome_ok x.2) batch /\ batch_ready self batch /\
      id (identifiers self) + batch_ids batch < u64_modulus /\
      pool_size self + Z.of_nat (length batch) < u64_modulus
  | IRemoveSender _ | ILookupSender _ => id (identifiers self) + 1 < u64_modulus
  | ICanonical u => info_ok (update_block_info u) /\
      id (identifiers self) + Z.of_nat (length (changed_accounts u)) < u64_modulus
  | IAccounts accs => id (identifiers self) + Z.of_nat (length accs) < u64_modulus
  | IBlockInfo info => info_ok info
  | IDeleteBlobs hs => forall h, h ∈ hs -> Pool.get (pool self) h = None \/ lost h
  | IListenPending _ => pending_tx_listener_buffer_size (inner_config self) <> 0
  | IListenNew _ => new_tx_listener_buffer_size (inner_config self) <> 0
  | _ => True
  end.

(** An upper bound for the submission identifiers it draws. *)
Definition inner_cost (op : InnerOp) self : Z :=
  let k := pool_size self in
  match op with
  | IAdd _ _ batch => Z.of_nat (length batch) * (k + Z.of_nat (length batch) + 2)
  | IRemove hs | IRemoveDescendants hs => Z.of_nat (length hs) * k
  | ICanonical _ => 3 * k
  | IAccounts _ => k
  | IBlockInfo _ => 2 * k
  | _ => 0
  end.

Inductive inner_step : PoolInner -> PoolInner -> Prop :=
| inner_step_op op self self' :
    inner_op_ok op self -> has_room (pool self) (inner_cost op self) -> run_inner op self = Some self' ->
    inner_step self self'.

Lemma evicts_subset m r m' : evicts m r m' -> m' ⊆ m.
Proof. intros Hev. apply map_subseteq_spec. intros i v. by apply (evicts_lookup _ _ _ _ _ Hev). Qed.

Lemma pool_op_config op p p' n : pool_ok p (n + op_cost op p) -> 0 <= n -> op_ok op p ->
  run_op op p = Some p' -> Pool.config p' = Pool.config p.
Proof. intros Hp Hn Ho Hr. destruct (run_op_ok op p n Hp Hn Ho) as (p2 & Hr2 & _ & Hc). congruence. Qed.

(** *** Each operation keeps the invariant *)

Lemma remove_inner_ok self n hs :
  inner_ok self (n + Z.of_nat (length hs) * pool_size self) -> 0 <= n ->
  exists self' r, remove_transactions self hs = Some (self', r) /\ inner_ok self' n.
Proof.
  intros Hok Hn. unfold remove_transactions. destruct hs as [|h hs].
  { eexists _, _. split; [done|]. by rewrite Z.mul_0_l, Z.add_0_r in Hok. }
  rewrite <- Nat2Z.inj_mul in Hok.
  destruct (remove_transactions_evicts (h :: hs) (pool self) n (in_pool _ _ Hok) Hn) as (p & r & Hr & Hp & Hev).
  rewrite Hr. eexists _, _. split; [done|]. apply inner_ok_events, (inner_ok_subset _ _ _ _ Hok Hp);
    [|by eapply evicts_subset].
  apply (pool_op_config (OpRemove (h :: hs)) _ _ n); [|done|done|unfold run_op; by rewrite Hr].
  simpl. rewrite <- Nat2Z.inj_mul. apply Hok.
Qed.

Lemma remove_descendants_inner_ok self n hs :
  inner_ok self (n + Z.of_nat (length hs) * pool_size self) -> 0 <= n ->
  exists self' r, remove_transactions_and_descendants self hs = Some (self', r) /\ inner_ok self' n.
Proof.
  intros Hok Hn. unfold remove_transactions_and_descendants. destruct hs as [|h hs].
  { eexists _, _. split; [done|]. by rewrite Z.mul_0_l, Z.add_0_r in Hok. }
  rewrite <- Nat2Z.inj_mul in Hok.
  destruct (remove_and_descendants_evicts (h :: hs) (pool self) n [] (in_pool _ _ Hok) Hn) as (p & r & Hr & Hp & Hev).
  rewrite Hr. eexists _, _. split; [done|]. apply inner_ok_events, (inner_ok_subset _ _ _ _ Hok Hp);
    [|by eapply evicts_subset].
  apply (pool_op_config (OpRemoveDescendants (h :: hs)) _ _ n); [|done|done|unfold run_op; by rewrite Hr].
  simpl. rewrite <- Nat2Z.inj_mul. apply Hok.
Qed.

Lemma remove_sender_inner_ok self n a :
  inner_ok self n -> 0 <= n -> id (identifiers self) + 1 < u64_modulus ->
  exists self' r, remove_transactions_by_sender self a = Some (self', r) /\ inner_ok self' n.
Proof.
  intros Hok Hn Hid. unfold remove_transactions_by_sender.
  destruct (get_sender_id_ok self n a Hok Hid) as (Hok1 & _ & _ & _ & Ep & _).
  destruct (get_sender_id self a) as [s1 k]. simpl in *.
  destruct (remove_by_sender_evicts (pool s1) n k (in_pool _ _ Hok1)) as (p & r & Hr & Hp & Hev).
  rewrite Hr. eexists _, _. split; [done|]. apply inner_ok_events, (inner_ok_subset _ _ _ _ Hok1 Hp);
    [|by eapply evicts_subset].
  apply (pool_op_config (OpRemoveSender k) _ _ n); [|done|done|unfold run_op; by rewrite Hr].
  simpl. rewrite Z.add_0_r. apply Hok1.
Qed.

Lemma inner_ok_validator self n wv : inner_ok self n -> inner_ok (with_validator self wv) n.
Proof. intros [A B C D F]. by split. Qed.

Lemma canonical_inner_ok self n u :
  inner_ok self (n + 3 * pool_size self) -> 0 <= n -> info_ok (update_block_info u) ->
  id (identifiers self) + Z.of_nat (length (changed_accounts u)) < u64_modulus ->
  exists self', on_canonical_state_change self u = Some self' /\ inner_ok self' n /\
    id (identifiers self') <= id (identifiers self) + Z.of_nat (length (changed_accounts u)) /\
    (forall i v, txs_of (pool self') !! i = Some v ->
       txs_of (pool self) !! i = Some v /\ vhash v ∉ mined_transactions u) /\
    (one_each (changed_accounts u) -> accounts_given self (changed_accounts u) self').
Proof.
  intros Hok Hn Hi Hid. unfold on_canonical_state_change. set (s0 := with_validator self _).
  pose proof (inner_ok_validator _ _ (on_new_head_block (validator self) (tip_timestamp u) (tip_gas_limit u)) Hok) as Hok0.
  destruct (changed_senders_ok (changed_accounts u) s0 _ ∅ Hok0 Hid) as (Hok1 & Ep & _ & _ & Hle).
  pose proof (fun self' => accounts_given_intro s0 _ (changed_accounts u) self' Hok0 Hid) as Hgive.
  destruct (changed_senders s0 _ _) as [s1 changed]. simpl in *.
  destruct (canonical_state_inv (pool s1) n (update_block_info u) (mined_transactions u) changed (update_kind u))
    as (p & o & -> & Hp & Hc & Hsi & _ & _ & Hev & Hf); [rewrite Ep at 2; apply Hok1|done|done|].
  simpl. eexists. split; [done|]. set (s2 := delete_discarded_blobs _ _).
  destruct (notify_on_new_state_core s2 o) as (Ei & Ev & Eb & Epp & Ec). split_and!.
  - eapply inner_ok_core; [apply notify_on_new_state_core|].
    eapply inner_ok_discarded; [exact Hok1|done|done|]. eexists. split; [|exact Hev]. apply map_filter_subseteq.
  - rewrite Ei. exact Hle.
  - rewrite Epp. intros i v Hv. apply (evicts_lookup _ _ _ _ _ Hev) in Hv.
    apply map_lookup_filter_Some in Hv as [Hv Hh]. by rewrite Ep in Hv.
  - intros Hone. apply (Hgive _ Hone); rewrite ?Ei, ?Epp; simpl; [done|by rewrite Hsi, Ep|].
    intros i v Hv. change (txs_of p) with (AllTxs.pool_txs (all_txs p)) in Hv. rewrite Hf in Hv.
    apply map_lookup_filter_Some in Hv as [Hv Hst]. apply map_lookup_filter_Some in Hv as [Hv _]. by rewrite Ep in Hv.
Qed.

Lemma accounts_inner_ok self n accs :
  inner_ok self (n + pool_size self) -> 0 <= n ->
  id (identifiers self) + Z.of_nat (length accs) < u64_modulus ->
  exists self', update_accounts self accs = Some self' /\ inner_ok self' n /\
    txs_of (pool self') ⊆ txs_of (pool self) /\
    id (identifiers self') <= id (identifiers self) + Z.of_nat (length accs) /\
    (one_each accs -> accounts_given self accs self').
Proof.
  intros Hok Hn Hid. unfold update_accounts.
  destruct (changed_senders_ok accs self _ ∅ Hok Hid) as (Hok1 & Ep & _ & _ & Hle).
  pose proof (fun self' => accounts_given_intro self _ accs self' Hok Hid) as Hgive.
  destruct (changed_senders self accs ∅) as [s1 changed]. simpl in *.
  destruct (update_accounts_inv (pool s1) n changed) as (p & -> & Hp & Hsi & Hc & _ & _ & Hf & Hev);
    [rewrite Ep at 2; apply Hok1|done|].
  set (o := reported _ _ _). change (txs_at _ _) with (TxTypes.discarded o) in Hev. clearbody o.
  simpl. eexists. split; [done|].
  set (s2 := match promoted o with [] => _ | _ => _ end).
  assert (H2 : same_core (with_pool s1 p) s2) by (unfold s2; destruct (promoted o); [done|apply notify_promoted_core]).
  set (s3 := if broadcast_is_empty _ then s2 else _).
  assert (H3 : same_core (with_pool s1 p) s3) by (unfold s3; by destruct (broadcast_is_empty _)).
  destruct H3 as (E1 & E2 & E3 & E4 & E5). simpl in *. split_and!.
  - eapply (inner_ok_core (delete_discarded_blobs (with_pool s1 p) (TxTypes.discarded o))).
    + unfold same_core, delete_discarded_blobs, delete_blobs. simpl. by rewrite E1, E2, E3, E4, E5.
    + eapply inner_ok_discarded; [exact Hok1|done|done|]. by exists (txs_of (pool s1)).
  - rewrite E4, <- Ep. by eapply evicts_subset.
  - by rewrite E1.
  - intros Hone. apply (Hgive _ Hone); simpl; rewrite ?E1, ?E4; [done|by rewrite Hsi, Ep|].
    intros i v Hv. change (txs_of p) with (AllTxs.pool_txs (all_txs p)) in Hv. rewrite Hf in Hv.
    apply map_lookup_filter_Some in Hv as [Hv Hst]. by rewrite Ep in Hv.
Qed.

(** Changed accounts do not change the block that was seen last. *)
Lemma process_updates_seen us : forall p o p' o', Pool.process_updates p us o = Some (p', o') ->
  AllTxs.last_seen_block_hash (Pool.all_transactions p') = AllTxs.last_seen_block_hash (Pool.all_transactions p).
Proof.
  assert (Hrm : forall q p i p' r, Pool.remove_from_subpool p q i = Some (p', r) -> Pool.all_transactions p' = Pool.all_transactions p).
  { intros q p i p' r. unfold Pool.remove_from_subpool. destruct q; first [by intros (? & _ & [= <- _])%bind_Some|by intros [= <- _]]. }
  assert (Hadd : forall q p v p', Pool.add_transaction_to_subpool p q v = Some p' -> Pool.all_transactions p' = Pool.all_transactions p).
  { intros q p v p'. unfold Pool.add_transaction_to_subpool. destruct q; first [by intros [= <-]|by intros (? & _ & [= <-])%bind_Some]. }
  induction us as [|[i cur dest] us IH]; intros p o p' o' Hu; [by injection Hu as <- _|]. cbn in Hu. destruct dest as [|q].
  - apply bind_Some in Hu as ([p1 tx] & H1' & Hu). rewrite (IH _ _ _ _ Hu). unfold Pool.prune_transaction_by_id in H1'.
    unfold AllTxs.remove_transaction_by_id in H1'. repeat case_match; simplify_eq; try done; by rewrite (Hrm _ _ _ _ _ H1').
  - apply bind_Some in Hu as ([p1 tx] & H1' & Hu). rewrite (IH _ _ _ _ Hu). apply bind_Some in H1' as ([p2 tx2] & H2' & H1').
    apply Hrm in H2' as <-. destruct tx2 as [v|]; [|by injection H1' as <- _].
    apply bind_Some in H1' as (p3 & H3'%Hadd & [= <- _]). by rewrite H3'.
Qed.

Lemma update_accounts_seen self accs self' : update_accounts self accs = Some self' ->
  info_last_seen_block_hash (Pool.block_info (pool self')) = info_last_seen_block_hash (Pool.block_info (pool self)).
Proof.
  unfold update_accounts. assert (Hcs : forall accs self acc, pool (changed_senders self accs acc).1 = pool self).
  { clear. intros accs. induction accs as [|a accs IH]; intros self acc; [done|]. cbn. unfold get_sender_id.
    destruct (sender_id_or_create _ _). by rewrite IH. }
  specialize (Hcs accs self ∅). destruct (changed_senders self accs ∅) as [s1 changed]. simpl in Hcs.
  intros ([p o] & Hp & Hs)%bind_Some. injection Hs as <-. simpl.
  set (s2 := match promoted o with [] => _ | _ => _ end).
  assert (E2 : pool s2 = p) by (unfold s2; destruct (promoted o) as [|v l]; [done|]; apply (notify_promoted_core (with_pool s1 p) (v :: l))).
  assert (E3 : forall e, pool (if broadcast_is_empty (event_listener s2) then s2 else with_events s2 e) = p) by (intros e; by destruct (broadcast_is_empty _)).
  rewrite E3, <- Hcs. unfold Pool.update_accounts in Hp. destruct (AllTxs.update _ _) as [a us] eqn:Eu.
  apply process_updates_seen in Hp. rewrite Hp. simpl. unfold AllTxs.update in Eu. destruct (AllTxs.update_loop _ _ _ _). by injection Eu as <- _.
Qed.

Lemma block_info_inner_ok self n info :
  inner_ok self (n + 2 * pool_size self) -> 0 <= n -> info_ok info ->
  exists self', set_block_info self info = Some self' /\ inner_ok self' n /\
    txs_of (pool self') = txs_of (pool self).
Proof.
  intros Hok Hn Hi. unfold set_block_info.
  destruct (set_block_info_inv (pool self) n info (in_pool _ _ Hok) Hn Hi) as (p & -> & Hp & (_ & Hc & _ & Hst) & _).
  simpl. eexists. split; [done|]. split; [|exact Hst]. apply (inner_ok_subset _ _ _ _ Hok Hp Hc). unfold txs_of. by rewrite Hst.
Qed.

Lemma add_batch_ok fuel self n now os :
  inner_ok self (n + Z.of_nat (length os) * (pool_size self + Z.of_nat (length os) + 2)) -> 0 <= n ->
  inner_op_ok (IAdd fuel now os) self ->
  exists mid added, add_each self now os = Some (mid, added) /\
  match add_transactions_with_origins fuel self now os with
  | None => existsb is_ok added = true /\ Pool.discard_worst fuel (pool mid) = None
  | Some (self', rs) => inner_ok self' n /\ Pool.config (pool self') = Pool.config (pool self) /\
      exists vs discarded, Forall2 (accepts (identifiers self') now) os vs /\
        evicts (insert_txs (txs_of (pool self)) (omap Datatypes.id vs)) discarded (txs_of (pool self')) /\
        (forall i v, txs_of (pool self') !! i = Some v -> vhash v ∉ vhash <$> discarded) /\
        Forall2 (answered discarded) vs rs /\
        inner_ok mid n /\ txs_of (pool mid) = insert_txs (txs_of (pool self)) (omap Datatypes.id vs) /\
        enforced fuel (bool_decide (omap Datatypes.id vs <> [])) (pool mid) discarded (pool self') /\
        accounts_kept self (batch_signers os) self'
  end.
Proof.
  intros Hok Hn (Ho & Hb & Hid & Hsz).
  destruct (add_each_ok os self n now Hok Hn Ho Hb Hid Hsz) as (mid & added & vs & Heq & Hok1 & _ & Hc & Hacc & Hans & Htx & Hkeep).
  exists mid, added. split; [done|]. unfold add_transactions_with_origins. rewrite Heq. simpl.
  pose proof (enforce_ok fuel mid n added Hok1) as He.
  destruct (mbind _ _) as [[self' rs]|]; [|done]. destruct He as (Hok' & Ei & Ec & discarded & Hev & Hout & -> & Hen & Hsi).
  split_and!; [done|congruence|]. exists vs, discarded. rewrite Ei, <- Htx, <- (answers_any vs added Hans).
  split_and!; [done|done|done|by apply adjusted_answers|done..|].
  intros a x Ha Hx. unfold pool_account. rewrite Ei, Hsi. by apply Hkeep.
Qed.

Lemma run_inner_ok op self n :
  inner_ok self (n + inner_cost op self) -> 0 <= n -> inner_op_ok op self ->
  match run_inner op self with
  | Some self' => inner_ok self' n
  | None => exists fuel now batch mid added, op = IAdd fuel now batch /\
      add_each self now batch = Some (mid, added) /\ Pool.discard_worst fuel (pool mid) = None
  end.
Proof.
  intros Hok Hn Hop. destruct op; simpl in Hok; rewrite ?Z.add_0_r in Hok.
  - destruct (add_batch_ok fuel self n now batch Hok Hn Hop) as (mid & added & Heq & Hm). unfold run_inner.
    destruct (add_transactions_with_origins _ _ _ _) as [[self' rs]|]; simpl; [by destruct Hm|].
    destruct Hm as [_ Hd]. by exists fuel, now, batch, mid, added.
  - destruct (remove_inner_ok self n hashes Hok Hn) as (s' & r & Hr & ?). unfold run_inner. by rewrite Hr.
  - destruct (remove_descendants_inner_ok self n hashes Hok Hn) as (s' & r & Hr & ?). unfold run_inner. by rewrite Hr.
  - destruct (remove_sender_inner_ok self n addr Hok Hn Hop) as (s' & r & Hr & ?). unfold run_inner. by rewrite Hr.
  - destruct Hop as [Hi Hid]. destruct (canonical_inner_ok self n update Hok Hn Hi Hid) as (s' & Hr & ? & _).
    unfold run_inner. by rewrite Hr.
  - destruct (accounts_inner_ok self n accounts Hok Hn Hop) as (s' & Hr & ? & _). unfold run_inner. by rewrite Hr.
  - destruct (block_info_inner_ok self n info Hok Hn Hop) as (s' & Hr & ? & _). unfold run_inner. by rewrite Hr.
  - simpl. apply inner_ok_delete_blobs; [done|]. intros i v Hv Hlo Hin. apply Hop in Hin as [Hin|?]; [|done].
    pose proof (txs_keyed _ _ _ _ _ (in_pool _ _ Hok) Hv) as <-.
    apply (conj (eq_refl (vhash v))), (get_spec _ _ _ _ _ (in_pool _ _ Hok)) in Hv. congruence.
  - simpl. destruct Hok as [A B C D F]. split; try done. simpl. intros i v. rewrite bsl_cleanup. apply F.
  - simpl. unfold on_propagated. by destruct (broadcast_is_empty _); [|apply inner_ok_events].
  - simpl. by apply get_sender_id_ok.
  - simpl. unfold add_transaction_event_listener. destruct (Pool.contains _ _); [|done].
    destruct (subscribe _ _). by apply inner_ok_events.
  - simpl. unfold add_all_transactions_event_listener. destruct (subscribe_all (event_listener self)). by apply inner_ok_events.
  - simpl. unfold add_pending_listener. rewrite (proj2 (Z.eqb_neq _ _) Hop).
    destruct new_channel. by apply (inner_ok_core self).
  - simpl. unfold add_new_transaction_listener. rewrite (proj2 (Z.eqb_neq _ _) Hop).
    destruct new_channel. by apply (inner_ok_core self).
  - simpl. unfold add_blob_sidecar_listener. destruct (blob_transaction_sidecar_listener self).
    destruct new_channel. by apply (inner_ok_core self).
Qed.

Lemma inner_ok_new (val : EthTransactionValidator) (store : S) conf n :
  BlobTxs.fees_ok pending_fees_default -> n <= u64_modulus - 1 -> limits_ok conf ->
  inner_ok (inner_new val store conf) n.
Proof.
  intros Hf Hn Hl. split; [by apply pool_ok_new|done|apply ids_ok_empty| |]; intros i v Hv;
    unfold txs_of, AllTxs.pool_txs in Hv; rewrite lookup_fmap in Hv; by vm_compute in Hv.
Qed.

Lemma inner_ok_with_room self n n' : inner_ok self n -> has_room (pool self) n' -> inner_ok self n'.
Proof. intros [A B C D F] Hr. split; try done. by apply (pool_ok_with_room _ n). Qed.

Lemma inner_steps_ok self self' : rtc inner_step self self' -> inner_ok self 0 -> inner_ok self' 0.
Proof.
  induction 1 as [|s1 s2 s3 Hs _ IH]; intros Hok; [done|]. apply IH. destruct Hs as [op s1 s2 Ho Hr Hrun].
  pose proof (run_inner_ok op s1 0 ltac:(by apply (inner_ok_with_room _ 0)) ltac:(done) Ho) as Hm. by rewrite Hrun in Hm.
Qed.

End props.

End InnerProps.
