(* ===== verification/PoolFacade.v ===== *)
(** * What the pool promises to its users

    The guarantees of [PoolInner] and [Pool], composed from those of the
    validator, the blob store and [TxPool]: the state that can be reached, what a
    batch of validated transactions does, that only validated transactions
    enter, and what peers are sent. *)

From S2P Require Import Prelude Ordered TxErrors TxIdentifier TxState TxTypes SubPoolSpec.
From S2P Require Import EthTransaction EthValidator EthValidatorProps BlobStore PoolEvents.
From S2P Require Import ParkedPool PendingPool BlobFee BlobPool AllTransactions.
From S2P Require Import TxPool TxPoolInv TxPoolOps TxPoolLimits TxPoolProps TxPoolBest TxPoolRemoved.
From S2P Require Import PoolInner PoolInnerProps.
Import TxErrors Identifier TxState TxTypes SubPoolSpec EthTx Validator ValidatorProps BlobStore PoolEvents.
Import BlobFee PoolInv PoolOps PoolLimits PoolProps PoolRemoved Inner InnerProps.

Module Facade.

#[local] Existing Instance Parked.parked_impl.
#[local] Existing Instance BlobTxs.blob_impl.
#[local] Existing Instance Pending.pending_impl.

Section facade.
Context `{AlloyConstants} `{AlloyTypes} `{ValidatorConstants} {ordering : TransactionOrdering}.
Context {S : Type} `{!BlobStoreTrait S} `{!BlobStoreLaws S} {lost_blobs : LostBlobs}.
Implicit Types (self : PoolInner (S := S)) (v w : ValidPoolTransaction) (i : TransactionId).

Abbreviation pool_size self := (Z.of_nat (size (all_txs (pool self)))).

(** ** From validation to the pool *)

(** The fields of a transaction are of their types. *)
Definition fields_ok (tx : EthPooledTransaction) : Prop :=
  is_u64 (s_nonce (signed tx)) /\ is_u128 (s_max_fee_per_gas (signed tx)) /\
  is_u128 (default 0 (s_max_fee_per_blob_gas (signed tx))).

Definition tx_ids_cost (tx : EthPooledTransaction) : Z :=
  1 + Z.of_nat (length (default [] (s_authorization_list (signed tx)))).

Lemma omap_length_le {A B} (f : A -> option B) (l : list A) : (length (omap f l) <= length l)%nat.
Proof. induction l as [|a l IH]; csimpl; [done|]. destruct (f a); csimpl; lia. Qed.

(** A validated transaction meets what the pool relies on. *)
Lemma validated_outcome_ok self origin tx state acc o :
  fields_ok tx -> stateful_ok (current_validator self) tx state acc ->
  reports (current_validator self) origin tx acc o -> is_valid o = true ->
  outcome_ok o /\ blob_ready self o /\ ids_cost o <= tx_ids_cost tx.
Proof.
  intros (F1 & F2 & F3) Hst Hrep Hval. destruct o as [b sn code vt pr auths| |]; try done.
  destruct (Hrep _ _ _ _ _ _ eq_refl) as (_ & Hn & _ & Hpt & _ & Ha & Hsc).
  pose proof (f_equal tx_nonce Hpt) as E1. pose proof (f_equal max_fee_per_gas Hpt) as E2.
  pose proof (f_equal max_fee_per_blob_gas Hpt) as E3. pose proof (f_equal tx_hash Hpt) as E4. simpl in E1, E2, E3, E4.
  split_and!.
  - simpl. rewrite E1, E2, E3. split_and!; try done. rewrite Hn. by apply (st_nonce _ _ _ _ Hst).
  - intros Hb Hs. simpl in Hb, Hs |- *. rewrite E4. destruct vt as [t|t sc]; [|done].
    simpl in Hsc, Hb, Hpt. rewrite Hpt in Hb. destruct (Hsc Hb) as [_ Hc]. clear Hsc. rename Hc into Hsc. rewrite bsl_contains in Hsc.
    injection Hsc as Hsc. by apply bool_decide_eq_true in Hsc.
  - unfold ids_cost, tx_ids_cost, outcome_authorities. rewrite Ha. unfold recover_authorities.
    destruct (s_authorization_list (signed tx)) as [l|]; simpl; [|lia].
    pose proof (omap_length_le recover_authority l). lia.
Qed.

Lemma invalid_outcome_ok self o : is_valid o = false -> outcome_ok o /\ blob_ready self o /\ ids_cost o = 1.
Proof. by destruct o. Qed.

(** ** Claims *)






(** C15: what a batch does.  The transactions the pool accepts are inserted in the
    order of the batch, each in place of the one with the same sender and nonce;
    then, if there are any, the limits are enforced: what [discard_worst] discards from the pool with all insertions is gone, and nothing else changes.  Afterwards every
    sub-pool is within its limits, in number and in size, and nothing was discarded if that was so already (if the sizes of all transactions add up to less than
    2^64).  There is one answer
    for each transaction of the batch, in order: its hash if it was accepted, an
    error if it was not, and a different one if it was accepted but discarded
    again, in which case it is not in the pool.  Every accepted transaction is
    the valid one of the batch, under the identifier of its signer. *)
Theorem add_transactions_exact fuel self n now os self' rs :
  inner_ok self (n + Z.of_nat (length os) * (pool_size self + Z.of_nat (length os) + 2)) -> 0 <= n ->
  inner_op_ok (IAdd fuel now os) self ->
  add_transactions_with_origins fuel self now os = Some (self', rs) ->
  exists accepted discarded inserted, Forall2 (accepts (identifiers self') now) os accepted /\
    let new := omap Datatypes.id accepted in
    txs_of inserted = insert_txs (txs_of (pool self)) new /\ pool_ok inserted n /\
    (new = [] -> discarded = []) /\
    (new <> [] -> Pool.discard_worst fuel inserted = Some (pool self', discarded)) /\
    (new <> [] -> sizes_ok (txs_of inserted) -> within_limits (pool self') /\ (within_limits inserted -> discarded = [])) /\
    evicts (txs_of inserted) discarded (txs_of (pool self')) /\
    (forall i v, txs_of (pool self') !! i = Some v -> vhash v ∉ vhash <$> discarded) /\
    Forall2 (answered discarded) accepted rs.
Proof.
  intros Hok Hn Hop Heq. destruct (add_batch_ok fuel self n now os Hok Hn Hop) as (mid & added & _ & Hm).
  rewrite Heq in Hm. destruct Hm as (_ & _ & vs & d & Hacc & Hev & Hout & Hans & Hmid & Htx & Hen & _).
  exists vs, d, (pool mid). split; [done|]. cbv zeta. rewrite Htx. split_and!; try done; [apply Hmid|..]; case_bool_decide as Hne.
  - done.
  - intros _. by destruct Hen.
  - done.
  - done.
  - intros _ Hs. eapply enforced_limits; [apply Hmid|apply (in_limits _ _ Hmid)|by rewrite Htx|done].
  - done.
Qed.

Lemma batch_ready_one self (origin : TransactionOrigin) o : blob_ready self o -> batch_ready self [(origin, o)].
Proof.
  intros Hb [|y l1] x l2 Heq Hn; [|by destruct l1]. injection Heq as <- _. simpl in *.
  split; [|done]. unfold needs_store in Hn. apply andb_prop in Hn as [? ?]. apply Hb; [done|].
  by destruct (outcome_sidecar o).
Qed.

Lemma batch_ready_sidecars self os : forallb (fun x => negb (needs_store x.2)) os = true -> batch_ready self os.
Proof.
  intros Hall l1 x l2 -> Hn. rewrite forallb_app in Hall. simpl in Hall. rewrite Hn in Hall.
  by destruct (forallb _ l1).
Qed.

(** C16: only validated transactions enter.  A transaction that is given to the pool
    is accepted only if it meets every stateless condition and every condition
    on its sender's account at the state the validator reads; then it is in the
    pool under the identifier of its signer, as given, and propagated as its
    origin says.  If it is rejected, the pool has gained nothing. *)
Theorem pool_add_validated fuel self n now origin tx state oacc self' r :
  inner_ok self (n + pool_size self + 3) -> 0 <= n -> fields_ok tx -> NoDup tx_types ->
  latest (client (validator self)) = Ok state ->
  basic_account state (s_signer (signed tx)) = Ok oacc ->
  id (identifiers self) + tx_ids_cost tx < u64_modulus -> pool_size self + 1 < u64_modulus ->
  pool_add_transaction fuel self now origin tx = Some (self', r) ->
  inner_ok self' n /\
  match r with
  | Ok out => added_hash out = s_hash (signed tx) /\
      stateless_ok (current_validator self) origin tx /\
      stateful_ok (current_validator self) tx state (default account_default oacc) /\
      exists s v, address_to_id (identifiers self') !! s_signer (signed tx) = Some s /\
        txs_of (pool self') !! mkTransactionId s (s_nonce (signed tx)) = Some v /\
        transaction v = pool_transaction tx /\ TxTypes.origin v = origin /\
        propagate v = origin_propagates (validator self) origin
  | Err _ => txs_of (pool self') ⊆ txs_of (pool self)
  end.
Proof.
  intros Hok Hn Hf Hnd Hlat Hacc Hid Hsz. unfold pool_add_transaction, validate.
  destruct (validate_one_ok (current_validator self) origin tx state oacc Hnd Hlat Hacc) as (o & -> & Hh & Hv & Hrep).
  simpl. assert (Hpre : outcome_ok o /\ blob_ready self o /\ ids_cost o <= tx_ids_cost tx).
  { destruct (is_valid o) eqn:Eo; [|destruct (invalid_outcome_ok self o Eo) as (? & ? & ?); unfold tx_ids_cost; split_and!; [done|done|lia]].
    destruct (proj1 Hv eq_refl) as [_ Hst]. by eapply validated_outcome_ok. }
  destruct Hpre as (Ho & Hb & Hc). unfold add_transactions. simpl.
  destruct (add_batch_ok fuel self n now [(origin, o)]) as (mid & added & _ & Hm);
    [simpl; apply (inner_ok_room _ _ _ Hok); lia|done| |].
  { simpl. split_and!; [by constructor|by apply batch_ready_one|lia|lia]. }
  destruct (add_transactions_with_origins _ _ _ _) as [[s1 rs]|]; simpl; [|done].
  destruct Hm as (Hok' & _ & vs & d & Hacpt & Hev & Hout & Hans & _).
  apply Forall2_cons_inv_l in Hacpt as (ov & vs' & Hov & ->%Forall2_nil_inv_l & ->).
  apply Forall2_cons_inv_l in Hans as (r' & rs' & Hr' & ->%Forall2_nil_inv_l & ->). simpl.
  intros [= <- <-]. split; [done|]. destruct ov as [v|]; simpl in *.
  2:{ destruct Hr' as [e ->]. by eapply evicts_subset. }
  case_bool_decide as Hin.
  - subst r'. apply map_subseteq_spec. intros i w Hw.
    pose proof (evicts_lookup _ _ _ _ _ Hev Hw) as Hi. rewrite lookup_insert_Some in Hi.
    destruct Hi as [[_ <-]|[_ ?]]; [|done]. by apply Hout in Hw.
  - destruct Hr' as [st ->]. destruct o as [b sn code vt pr auths| |]; [|done..].
    destruct (proj1 Hv eq_refl) as [Hs1 Hs2]. destruct Hov as (s & l & -> & Hs & _).
    destruct (Hrep _ _ _ _ _ _ eq_refl) as (_ & _ & _ & Hpt & Hpr & _).
    pose proof (f_equal tx_nonce Hpt) as E1. pose proof (f_equal tx_sender Hpt) as E2. simpl in E1, E2, Hh.
    split_and!; [done|done|done|]. exists s, (pool_tx (valid_transaction vt) s pr now origin l).
    rewrite <- E1, <- E2. split_and!; [done| |done|done|done].
    destruct (txs_of (pool s1) !! _) as [w|] eqn:Hw.
    + pose proof (evicts_lookup _ _ _ _ _ Hev Hw) as Hi. by rewrite lookup_insert_eq in Hi.
    + exfalso. apply Hin, list_elem_of_fmap_2. eapply evicts_removed; [exact Hev|apply lookup_insert_eq|exact Hw].
Qed.

(** ** What peers are sent *)

Section pooled.
Context {Pooled : Type} (try_into_pooled : PoolTransaction -> option Pooled)
  (try_into_pooled_eip4844 : PoolTransaction -> BlobTransactionSidecarVariant -> option Pooled)
  (encoded_length : PoolTransaction -> Z).

Abbreviation to_pooled := (to_pooled_transaction try_into_pooled try_into_pooled_eip4844).
Abbreviation elements := (pooled_elements try_into_pooled try_into_pooled_eip4844 encoded_length).

(** The size of those that can be sent. *)
Definition sent_size self (l : list ValidPoolTransaction) : Z :=
  foldr (fun tx acc => match to_pooled self tx with Some _ => encoded_length (transaction tx) + acc | None => acc end) 0 l.

Lemma sent_size_nonneg self l :
  (forall t, 0 <= encoded_length t) -> 0 <= sent_size self l.
Proof.
  intros Hl. induction l as [|tx l IH]; simpl; [lia|]. destruct (to_pooled self tx); [|done].
  specialize (Hl (transaction tx)). lia.
Qed.

Lemma pooled_elements_spec self limit l size :
  (forall t, 0 <= encoded_length t) -> 0 <= size -> size + sent_size self l < u64_modulus ->
  limit_exceeds limit size = false ->
  exists sent rest, l = sent ++ rest /\ elements self limit l size = omap (to_pooled self) sent /\
    (rest <> [] -> limit_exceeds limit (size + sent_size self sent) = true) /\
    (forall a tx b, sent = a ++ tx :: b -> limit_exceeds limit (size + sent_size self a) = false).
Proof.
  intros Hl. revert size. induction l as [|tx l IH]; intros size Hs Hr Hlim; simpl.
  { exists [], []. split_and!; [done|done|done|]. by intros [|? ?] ? ?. }
  simpl in Hr. pose proof (sent_size_nonneg self l Hl) as Hnn. pose proof (Hl (transaction tx)) as Hx.
  destruct (to_pooled self tx) as [p|] eqn:Hp.
  2:{ destruct (IH size Hs Hr Hlim) as (sent & rest & -> & -> & H1' & H2').
      exists (tx :: sent), rest. csimpl. rewrite Hp. split_and!; [done|done|done|].
      intros [|x a] y b [= -> Hb]; simpl; [by rewrite Z.add_0_r|]. rewrite Hp. by eapply H2'. }
  assert (Hw : wrapping_add_u64 size (encoded_length (transaction tx)) = size + encoded_length (transaction tx)).
  { apply wrap_u64_small. unfold is_u64. lia. }
  rewrite Hw. destruct (limit_exceeds limit (size + _)) eqn:He.
  - exists [tx], l. csimpl. rewrite Hp. split_and!; [done|done|by rewrite Z.add_0_r|].
    intros [|x a] y b Heq; [by rewrite Z.add_0_r|]. by destruct a.
  - destruct (IH (size + encoded_length (transaction tx)) ltac:(lia) ltac:(lia) He) as (sent & rest & -> & -> & H1' & H2').
    exists (tx :: sent), rest. csimpl. rewrite Hp. split_and!; [done|done| |].
    + intros Hne. rewrite Z.add_assoc. auto.
    + intros [|x a] y b [= -> Hb]; simpl; [by rewrite Z.add_0_r|]. rewrite Hp, Z.add_assoc. by eapply H2'.
Qed.

(** What a peer that asks for transactions is sent.  The answer converts the
    transactions it asked for that are in the pool and may be propagated, in the
    order asked, up to the first that takes the size over the limit: all before it
    stay within, and nothing is left out unless the limit was passed.  A blob
    transaction is sent with its sidecar. *)
Theorem pooled_response_exact self n hashes limit :
  inner_ok self n -> (forall t, 0 <= encoded_length t) ->
  sent_size self (get_all_propagatable self hashes) < u64_modulus -> limit_exceeds limit 0 = false ->
  (exists sent rest, get_all_propagatable self hashes = sent ++ rest /\
     get_pooled_transaction_elements try_into_pooled try_into_pooled_eip4844 encoded_length self hashes limit =
       omap (to_pooled self) sent /\
     (rest <> [] -> limit_exceeds limit (sent_size self sent) = true) /\
     (forall a tx b, sent = a ++ tx :: b -> limit_exceeds limit (sent_size self a) = false)) /\
  (forall h v, Pool.get (pool self) h = Some v -> vis_eip4844 v = true -> ~ lost h ->
     exists sidecar, bs_get (blob_store self) h = Ok (Some sidecar) /\
       to_pooled self v = try_into_pooled_eip4844 (transaction v) sidecar).
Proof.
  intros Hok Hl Hs Hlim. split.
  - exact (pooled_elements_spec self limit _ 0 Hl ltac:(lia) Hs Hlim).
  - intros h v Hg Hb Hlo. apply (get_spec _ _ _ _ _ (in_pool _ _ Hok)) in Hg as [<- Hv].
    destruct (in_blobs _ _ Hok _ v Hv Hb Hlo) as [sc Hsc]. exists sc.
    unfold to_pooled_transaction. by rewrite Hb, bsl_get, Hsc.
Qed.

End pooled.

End facade.

(** ** Witnesses *)

Section examples.
#[local] Existing Instance mainnet_constants.
#[local] Existing Instance example_alloy.
#[local] Existing Instance ValidatorProps.example_validator_constants.
#[local] Existing Instance BlobStore.example_sidecars.
#[local] Existing Instance PoolProps.example_ordering.

(** No sidecar is deleted before its transaction has left the pool. *)
#[local] Instance none_lost : LostBlobs := fun _ => False.

Definition facade_signed (h signer ty nonce fee : Z) : SignedTransaction :=
  {| s_hash := h; s_signer := signer; s_ty := ty; s_chain_id := Some 2024; s_nonce := nonce;
     s_gas_limit := 30000; s_max_fee_per_gas := fee; s_max_priority_fee_per_gas := Some 2;
     s_max_fee_per_blob_gas := if ty =? 3 then Some 5 else None; s_is_dynamic_fee := true;
     s_is_create := false; s_value := 1000; s_input := [1; 2]; s_access_list := None;
     s_blob_versioned_hashes := if ty =? 3 then Some [11; 12] else None;
     s_blob_gas_used := if ty =? 3 then Some 262144 else None; s_authorization_list := None;
     s_size := 120 |}.

Definition facade_tx (h signer ty nonce fee : Z) : EthPooledTransaction :=
  pooled_new (facade_signed h signer ty nonce fee) 110.

Definition new_inner : PoolInner (S := InMemoryBlobStore) :=
  inner_new example_validator mem_default pool_config_default.

(** A blob transaction with its sidecar, two of another sender for the same
    nonce, the second with a higher fee, and one that was found invalid. *)
Definition example_batch : list (TransactionOrigin * TransactionValidationOutcome) :=
  let valid vt := OutcomeValid (10 ^ 18) 3 None vt true None in
  [(External, valid (ValidWithSidecar (facade_tx 50 7 3 3 100) (example_sidecar false)));
   (Local, valid (ValidTx (facade_tx 51 8 2 3 100)));
   (Local, valid (ValidTx (facade_tx 52 8 2 3 200)));
   (External, OutcomeInvalid (facade_tx 53 9 2 3 1) (Consensus TxTypeNotSupported))].

Definition inner_result {A} (d : PoolInner (S := InMemoryBlobStore)) (o : option (PoolInner * A)) : PoolInner :=
  match o with Some (s, _) => s | None => d end.

Definition batch_added := add_transactions_with_origins 10 new_inner 0 example_batch.
Definition batched_inner : PoolInner := inner_result new_inner batch_added.

Definition answer_hash (r : result AddedTransactionOutcome PoolError) : option Z :=
  match r with Ok o => Some (added_hash o) | Err _ => None end.

Lemma batched_runs : exists rs, batch_added = Some (batched_inner, rs) /\
  answer_hash <$> rs = [Some 50; Some 51; Some 52; None].
Proof.
  assert (E : (fun o => match o with Some (_, rs) => answer_hash <$> rs | None => [] end) batch_added =
              [Some 50; Some 51; Some 52; None]) by (vm_compute; reflexivity).
  unfold batched_inner. destruct batch_added as [[s rs]|]; [|discriminate E]. exists rs. split; [reflexivity|exact E].
Qed.

Lemma example_batch_ok : inner_op_ok (IAdd 10 0 example_batch) new_inner.
Proof.
  split_and!; [|apply batch_ready_sidecars; vm_compute; reflexivity|vm_compute; reflexivity..].
  repeat (apply List.Forall_cons; [try split_and!; vm_compute; try split; congruence|]). apply List.Forall_nil.
Qed.

Lemma new_inner_ok n : n <= u64_modulus - 1 -> inner_ok new_inner n.
Proof. intros Hn. apply inner_ok_new; [exact default_fees_ok|exact Hn|exact default_limits_ok]. Qed.

Lemma batched_inner_ok n : n <= 1000 -> inner_ok batched_inner n.
Proof.
  intros Hn. destruct batched_runs as (rs & Hr & _). apply (inner_ok_room _ 1000); [|exact Hn].
  pose proof (run_inner_ok (IAdd 10 0 example_batch) new_inner 1000) as Hm. unfold run_inner in Hm.
  fold batch_added in Hm. rewrite Hr in Hm. apply Hm; [|lia|exact example_batch_ok].
  apply new_inner_ok. vm_compute. discriminate.
Qed.




Lemma answered_hash d ov r h : answered d ov r -> answer_hash r = Some h -> exists v, ov = Some v /\ vhash v = h.
Proof.
  destruct ov as [v|]; simpl; [|by intros [e ->]]. case_bool_decide; [by intros ->|].
  intros [st ->] [= <-]. by exists v.
Qed.

(** The transaction with hash 51 is accepted and replaced within the batch. *)
Lemma add_transactions_exact_witness :
  exists accepted discarded inserted, txs_of inserted = insert_txs ∅ (omap Datatypes.id accepted) /\
    evicts (txs_of inserted) discarded (txs_of (pool batched_inner)) /\
    (exists v, accepted !! 1%nat = Some (Some v) /\ vhash v = 51) /\
    vhash <$> txs_of (pool batched_inner) !! mkTransactionId 1 3 = Some 52 /\
    (sizes_ok (txs_of inserted) -> within_limits (pool batched_inner)).
Proof.
  destruct batched_runs as (rs & Hr & Hh).
  destruct (add_transactions_exact 10 new_inner 10 0 example_batch batched_inner rs)
    as (acc & d & ins & Ha & Hin & _ & _ & _ & Hlim & Hev & _ & Hans);
    [apply new_inner_ok; vm_compute; discriminate|lia|exact example_batch_ok|exact Hr|].
  exists acc, d, ins. split; [exact Hin|]. split; [exact Hev|].
  assert (Hv : exists v, acc !! 1%nat = Some (Some v) /\ vhash v = 51).
  { assert (H1' : (answer_hash <$> rs) !! 1%nat = Some (Some 51)) by (rewrite Hh; reflexivity).
    rewrite list_lookup_fmap in H1'. destruct (rs !! 1%nat) as [r|] eqn:Hr1; [|discriminate H1']. injection H1' as H1'.
    destruct (Forall2_lookup_r _ _ _ _ _ Hans Hr1) as (ov & Hov & Han).
    destruct (answered_hash _ _ _ _ Han H1') as (v & -> & Hv). exists v. split; [exact Hov|exact Hv]. }
  split; [exact Hv|]. split; [vm_compute; reflexivity|]. intros Hs. apply Hlim; [|exact Hs].
  destruct Hv as (v & Hv & _). assert (v ∈ omap Datatypes.id acc) as Hin'.
  { apply list_elem_of_omap. exists (Some v). split; [by eapply list_elem_of_lookup_2|done]. }
  intros E. rewrite E in Hin'. by apply elem_of_nil in Hin'.
Defined.

Definition added_one := pool_add_transaction 10 batched_inner 1 External (facade_tx 60 7 2 4 100).
Definition added_answer (o : option (PoolInner (S := InMemoryBlobStore) * result AddedTransactionOutcome PoolError))
  : option (option Z) := match o with Some (_, r) => Some (answer_hash r) | None => None end.

(** A transaction of the sender of the blob transaction is rejected: the two
    kinds exclude each other. One of another sender enters. *)
Lemma pool_add_validated_witness :
  added_answer added_one = Some None /\
  (exists self' out, pool_add_transaction 10 new_inner 1 External (facade_tx 60 7 2 4 100) = Some (self', Ok out) /\
     exists s v, txs_of (pool self') !! mkTransactionId s 4 = Some v /\ vhash v = 60).
Proof.
  split; [vm_compute; reflexivity|].
  assert (Hc : added_answer (pool_add_transaction 10 new_inner 1 External (facade_tx 60 7 2 4 100)) = Some (Some 60))
    by (vm_compute; reflexivity).
  destruct (pool_add_transaction 10 new_inner 1 External (facade_tx 60 7 2 4 100)) as [[s' [out|e]]|] eqn:E;
    [|discriminate Hc..].
  destruct (pool_add_validated 10 new_inner 10 1 External (facade_tx 60 7 2 4 100) example_state
              (Some (mkAccount 3 (10 ^ 18) None)) s' (Ok out)) as (_ & _ & _ & _ & s & v & _ & Hv & Ht & _).
  - apply new_inner_ok. vm_compute. discriminate.
  - lia.
  - split_and!; vm_compute; split; congruence.
  - apply (bool_decide_unpack _). vm_compute. exact I.
  - reflexivity.
  - reflexivity.
  - vm_compute. reflexivity.
  - vm_compute. reflexivity.
  - exact E.
  - exists s', out. split; [reflexivity|]. exists s, v. split; [exact Hv|]. unfold vhash. rewrite Ht. reflexivity.
Defined.

(** Transactions are sent as their hash and whether a sidecar comes with it, and
    take 110 bytes each. *)
Definition example_pooled_tx (t : PoolTransaction) : option (Z * bool) := Some (tx_hash t, false).
Definition example_pooled_blob (t : PoolTransaction) (_ : @BlobTransactionSidecarVariant example_alloy)
  : option (Z * bool) := Some (tx_hash t, true).
Definition example_length (_ : PoolTransaction) : Z := 110.
Definition example_response (limit : Z) : list (Z * bool) :=
  get_pooled_transaction_elements example_pooled_tx example_pooled_blob example_length
    batched_inner [50; 77; 52] (ResponseSizeSoftLimit limit).

Lemma pooled_response_exact_witness :
  example_response 1000 = [(50, true); (52, false)] /\ example_response 100 = [(50, true)] /\
  exists sent rest, get_all_propagatable batched_inner [50; 77; 52] = sent ++ rest /\
    example_response 100 = omap (to_pooled_transaction example_pooled_tx example_pooled_blob batched_inner) sent.
Proof.
  split; [vm_compute; reflexivity|]. split; [vm_compute; reflexivity|].
  destruct (pooled_response_exact example_pooled_tx example_pooled_blob example_length batched_inner 10
              [50; 77; 52] (ResponseSizeSoftLimit 100)) as [(sent & rest & H1' & H2' & _) _].
  - apply batched_inner_ok. lia.
  - intros t. unfold example_length. lia.
  - vm_compute. reflexivity.
  - reflexivity.
  - exists sent, rest. split; [exact H1'|exact H2'].
Defined.

End examples.

End Facade.
