(* ===== verification/Maintain.v ===== *)
(** * Maintenance of the pool

    [crates/transaction-pool/src/maintain.rs]: the loop that feeds new blocks and
    reorgs to the pool, reloads accounts that may be out of date, deletes the blobs
    of finalised blocks and evicts stale transactions; and what it reads of
    [Chain] ([crates/evm/execution-types]) and [CanonStateNotification]
    ([crates/chain-state]).

    The variables of the loop are a record.  A round is [prepare], up to the
    [select!], followed by the branch that was ready.  [pool_info] is [Some] while
    the loop waits, so that other users of the pool may run in between.  [None] of an option is a
    panic, or limit enforcement that has not ended. *)

From S2P Require Import Prelude Ordered TxErrors TxIdentifier TxState TxTypes.
From S2P Require Import EthTransaction EthValidator BlobStore PoolEvents.
From S2P Require Import ParkedPool PendingPool BlobFee BlobPool AllTransactions TxPool TxPoolBest PoolInner.
Import TxErrors Identifier TxState TxTypes EthTx Validator BlobStore PoolEvents Inner.

Module Maintain.

Section maintain.
Context `{AlloyConstants} `{AlloyTypes} `{ValidatorConstants} {ordering : TransactionOrdering}.
Context {S : Type} `{!BlobStoreTrait S}.
Abbreviation Sidecar := BlobTransactionSidecarVariant.

(** ** Chains *)

(** A recovered block: what the pool reads of its header, and its transactions
    with their signers. *)
Record Block := mkBlock {
  b_number : Z;
  b_hash : Z;
  b_parent_hash : Z;
  b_timestamp : Z;
  b_gas_limit : Z;
  b_transactions : list SignedTransaction;
}.

(** The blocks by number and, for each account the execution touched, its state
    afterwards: [None] if it was destroyed. *)
Record Chain := mkChain { blocks : gmap Z Block; bundle_state : gmap Z (option Account) }.

Definition tip (c : Chain) : option Block := snd <$> last (bt_entries (blocks c)).
Definition first (c : Chain) : option Block := snd <$> head (bt_entries (blocks c)).

Definition transactions_ecrecovered (c : Chain) : list SignedTransaction :=
  concat (b_transactions <$> (bt_entries (blocks c)).*2).
Definition transaction_hashes (c : Chain) : list Z := s_hash <$> transactions_ecrecovered c.

Definition accounts_iter (c : Chain) : list (Z * option Account) := map_to_list (bundle_state c).
Definition changed_accounts (c : Chain) : list ChangedAccount :=
  omap (fun e => (fun acc => mkChangedAccount e.1 (acc_nonce acc) (acc_balance acc)) <$> e.2) (accounts_iter c).
Definition changed_account_empty (addr : Z) : ChangedAccount := mkChangedAccount addr 0 0.

Inductive CanonStateNotification :=
| Commit (new : Chain)
| Reorg (old new : Chain).

(** What the tracker of blobs reads. *)
Definition chain_blocks (c : Chain) : list (Z * list (Z * Z)) :=
  (fun e => (e.1, (fun tx => (s_ty tx, s_hash tx)) <$> b_transactions e.2)) <$> bt_entries (blocks c).

(** ** Configuration *)

Record MaintainPoolConfig := mkMaintainConfig {
  max_update_depth : Z;
  max_reload_accounts : Z;
  max_tx_lifetime : Z;
  no_local_exemptions : bool;
}.

Definition maintain_config_default : MaintainPoolConfig :=
  mkMaintainConfig 64 100 MAX_QUEUED_TRANSACTION_LIFETIME false.

(** ** The client *)

(** The reads of the node's database and chain specification; a [Result] whose
    error is not looked at is an option. *)
Record MaintainClient := mkMaintainClient {
  latest_header : option Block;
  finalized_block_number : option Z;
  next_block_base_fee : Block -> Z -> option Z;
  next_block_blob_fee : Block -> option Z;
  history_by_block_hash : Z -> result StateProvider string;
}.

Record LoadedAccounts := mkLoaded { accounts : list ChangedAccount; failed_to_load : list Z }.

Fixpoint load_loop (state : StateProvider) (addresses : list Z) : LoadedAccounts :=
  match addresses with
  | [] => mkLoaded [] []
  | addr :: addresses =>
      let rest := load_loop state addresses in
      match basic_account state addr with
      | Ok (Some acc) =>
          mkLoaded (mkChangedAccount addr (acc_nonce acc) (acc_balance acc) :: accounts rest) (failed_to_load rest)
      | Ok None => mkLoaded (changed_account_empty addr :: accounts rest) (failed_to_load rest)
      | Err _ => mkLoaded (accounts rest) (addr :: failed_to_load rest)
      end
  end.

Definition load_accounts (client : MaintainClient) (at_ : Z) (addresses : list Z)
  : result LoadedAccounts (list Z * string) :=
  match history_by_block_hash client at_ with
  | Ok state => Ok (load_loop state addresses)
  | Err err => Err (addresses, err)
  end.

(** ** State *)

(** [FinalizedBlockTracker::update]: the new value, and the block if it advanced. *)
Definition finalized_update (last_finalized_block finalized_block : option Z) : option Z * option Z :=
  match finalized_block with
  | None => (last_finalized_block, None)
  | Some finalized =>
      (Some finalized,
       if match last_finalized_block with None => true | Some last => last <? finalized end
       then Some finalized else None)
  end.

Inductive MaintainedPoolState := InSync | Drifted.

Definition is_drifted (s : MaintainedPoolState) : bool := match s with Drifted => true | InSync => false end.

(** [reload_accounts_fut] is the request that is being worked on. *)
Record MaintainState := mkMaintain {
  m_pool : PoolInner (S := S);
  blob_store_tracker : BlobStoreCanonTracker;
  last_finalized_block : option Z;
  dirty_addresses : gset Z;
  maintained_state : MaintainedPoolState;
  reload_accounts_fut : option (Z * list Z);
  first_event : bool;
  pool_info : option BlockInfo;
}.

Implicit Types self : MaintainState.

Definition with_m_pool self p := mkMaintain p (blob_store_tracker self) (last_finalized_block self)
  (dirty_addresses self) (maintained_state self) (reload_accounts_fut self) (first_event self) (pool_info self).
Definition with_tracker self t := mkMaintain (m_pool self) t (last_finalized_block self)
  (dirty_addresses self) (maintained_state self) (reload_accounts_fut self) (first_event self) (pool_info self).
Definition with_finalized self f := mkMaintain (m_pool self) (blob_store_tracker self) f
  (dirty_addresses self) (maintained_state self) (reload_accounts_fut self) (first_event self) (pool_info self).
Definition with_dirty self d := mkMaintain (m_pool self) (blob_store_tracker self) (last_finalized_block self)
  d (maintained_state self) (reload_accounts_fut self) (first_event self) (pool_info self).
Definition with_state self s := mkMaintain (m_pool self) (blob_store_tracker self) (last_finalized_block self)
  (dirty_addresses self) s (reload_accounts_fut self) (first_event self) (pool_info self).
Definition with_reload self r := mkMaintain (m_pool self) (blob_store_tracker self) (last_finalized_block self)
  (dirty_addresses self) (maintained_state self) r (first_event self) (pool_info self).
Definition with_first self b := mkMaintain (m_pool self) (blob_store_tracker self) (last_finalized_block self)
  (dirty_addresses self) (maintained_state self) (reload_accounts_fut self) b (pool_info self).
Definition with_info self i := mkMaintain (m_pool self) (blob_store_tracker self) (last_finalized_block self)
  (dirty_addresses self) (maintained_state self) (reload_accounts_fut self) (first_event self) i.

(** ** The loop *)

(** The block after [header]. *)
Definition pending_info (client : MaintainClient) (header : Block) : BlockInfo :=
  {| info_block_gas_limit := b_gas_limit header; info_last_seen_block_hash := b_hash header;
     info_last_seen_block_number := b_number header;
     pending_basefee := default 0 (next_block_base_fee client header (b_timestamp header));
     pending_blob_fee := next_block_blob_fee client header |}.

Definition maintain_start (client : MaintainClient) (p : PoolInner (S := S)) : option MaintainState :=
  p ← match latest_header client with
      | Some latest => set_block_info p (pending_info client latest)
      | None => Some p
      end;
  Some (mkMaintain p tracker_default (finalized_block_number client) ∅ InSync None true None).

(** Every sender may be out of date. *)
Definition sync_dirty self : MaintainState :=
  if is_drifted (maintained_state self)
  then with_state (with_dirty self (PoolBest.unique_senders (pool (m_pool self)))) InSync
  else self.

(** Accounts are reloaded in chunks, one request at a time.  The order in which
    the set is iterated is unspecified. *)
Definition start_reload (config : MaintainPoolConfig) self : MaintainState :=
  match reload_accounts_fut self with
  | Some _ => self
  | None =>
      if bool_decide (dirty_addresses self = ∅) then self
      else
        let at_ := info_last_seen_block_hash (Pool.block_info (pool (m_pool self))) in
        if max_reload_accounts config <? Z.of_nat (size (dirty_addresses self))
        then
          let accs := take (Z.to_nat (max_reload_accounts config)) (elements (dirty_addresses self)) in
          with_reload (with_dirty self (dirty_addresses self ∖ list_to_set accs)) (Some (at_, accs))
        else with_reload (with_dirty self ∅) (Some (at_, elements (dirty_addresses self)))
  end.

Definition on_finalized (client : MaintainClient) self : option MaintainState :=
  let '(last, finalized) := finalized_update (last_finalized_block self) (finalized_block_number client) in
  let self := with_finalized self last in
  match finalized with
  | None => Some self
  | Some finalized =>
      r ← on_finalized_block (blob_store_tracker self) finalized;
      let '(tracker, updates) := r in
      let self := with_tracker self tracker in
      match updates with
      | NoUpdates => Some self
      | Finalized blobs => Some (with_m_pool self (cleanup_blobs (delete_blobs (m_pool self) blobs)))
      end
  end.

Definition prepare (config : MaintainPoolConfig) (client : MaintainClient) self : option MaintainState :=
  let info := Pool.block_info (pool (m_pool self)) in
  let self := start_reload config (sync_dirty self) in
  self ← on_finalized client self;
  Some (with_info self (Some info)).

(** *** Reloaded accounts *)

Definition on_reloaded (client : MaintainClient) self : option MaintainState :=
  match reload_accounts_fut self with
  | None => None
  | Some (at_, accs) =>
      let self := with_reload self None in
      match load_accounts client at_ accs with
      | Ok loaded =>
          let self := with_dirty self (dirty_addresses self ∪ list_to_set (failed_to_load loaded)) in
          p ← update_accounts (m_pool self) (accounts loaded);
          Some (with_m_pool self p)
      | Err (accs, _) => Some (with_dirty self (dirty_addresses self ∪ list_to_set accs))
      end
  end.

(** The task that loads the accounts panicked. *)
Definition on_reload_lost self : MaintainState := with_state (with_reload self None) Drifted.

(** *** Stale transactions *)

(** [Instant::elapsed] saturates. *)
Definition elapsed (now timestamp : Z) : Z := Z.max 0 (now - timestamp).

Definition is_stale (config : MaintainPoolConfig) (now : Z) (tx : ValidPoolTransaction) : bool :=
  ((bool_decide (origin tx = External) || no_local_exemptions config) &&
   (max_tx_lifetime config <? elapsed now (timestamp tx)))%bool.

Definition stale_txs (config : MaintainPoolConfig) (now : Z) self : list Z :=
  vhash <$> List.filter (is_stale config now) (PoolBest.queued_transactions (pool (m_pool self))).

Definition on_stale_tick (config : MaintainPoolConfig) (now : Z) self : option MaintainState :=
  r ← remove_transactions (m_pool self) (stale_txs config now self);
  Some (with_m_pool self r.1).

(** *** New blocks *)

Definition canonical_update (client : MaintainClient) (new_tip : Block) (changed : list ChangedAccount)
  (mined : list Z) (kind : PoolUpdateKind) : CanonicalStateUpdate :=
  {| tip_hash := b_hash new_tip; tip_number := b_number new_tip; tip_timestamp := b_timestamp new_tip;
     tip_gas_limit := b_gas_limit new_tip;
     pending_block_base_fee := default 0 (next_block_base_fee client new_tip (b_timestamp new_tip));
     pending_block_blob_fee := next_block_blob_fee client new_tip;
     Inner.changed_accounts := changed; mined_transactions := mined; update_kind := kind |}.

Definition on_commit (config : MaintainPoolConfig) (client : MaintainClient) (info : BlockInfo) (new : Chain) self
  : option MaintainState :=
  new_tip ← tip new;
  first_block ← first new;
  let depth := Z.abs (b_number new_tip - info_last_seen_block_number info) in
  if max_update_depth config <? depth then
    p ← set_block_info (m_pool self) (pending_info client new_tip);
    let self := with_m_pool (with_state self Drifted) p in
    Some (with_tracker self (add_new_chain_blocks (blob_store_tracker self) (chain_blocks new)))
  else
    let changed := changed_accounts new in
    let self := with_dirty self (dirty_addresses self ∖ list_to_set (ca_address <$> changed)) in
    let self := if b_parent_hash first_block =? info_last_seen_block_hash info then self
                else with_state self Drifted in
    p ← on_canonical_state_change (m_pool self)
          (canonical_update client new_tip changed (transaction_hashes new) TxTypes.Commit);
    let self := with_m_pool self p in
    Some (with_tracker self (add_new_chain_blocks (blob_store_tracker self) (chain_blocks new))).

Section reorg.
(** The conversions of a mined transaction are those of the [alloy] types. *)
Context (try_from_eip4844 : SignedTransaction -> Sidecar -> option EthPooledTransaction)
  (try_from_consensus : SignedTransaction -> option EthPooledTransaction).

(** Accounts changed in the old chain and not in the new one. *)
Definition missing_changed_acc (old : Chain) (new_changed : list ChangedAccount) : list Z :=
  List.filter (fun addr => negb (bool_decide (addr ∈ ca_address <$> new_changed))) (accounts_iter old).*1.

(** The accounts that could not be loaded, and all changed accounts at the new
    tip. *)
Definition load_missing (client : MaintainClient) (new_tip : Block) (old new : Chain)
  : list Z * list ChangedAccount :=
  let new_changed := changed_accounts new in
  match load_accounts client (b_hash new_tip) (missing_changed_acc old new_changed) with
  | Ok loaded => (failed_to_load loaded, accounts loaded ++ new_changed)
  | Err (addresses, _) => (addresses, [] ++ new_changed)
  end.

(** Transactions mined in the old chain and not in the new one; a blob
    transaction needs its blob. *)
Definition reinjected (p : PoolInner (S := S)) (tx : SignedTransaction) : option EthPooledTransaction :=
  if s_ty tx =? EIP4844_TX_TYPE_ID then
    match bs_get (blob_store p) (s_hash tx) with
    | Ok (Some sidecar) => try_from_eip4844 tx sidecar
    | _ => None
    end
  else try_from_consensus tx.

Definition pruned_old_transactions (p : PoolInner (S := S)) (old new : Chain) : list EthPooledTransaction :=
  omap (reinjected p)
    (List.filter (fun tx => negb (bool_decide (s_hash tx ∈ transaction_hashes new))) (transactions_ecrecovered old)).

Definition on_reorg (fuel : nat) (now : Z) (client : MaintainClient) (info : BlockInfo) (old new : Chain) self
  : option MaintainState :=
  new_tip ← tip new;
  new_first ← first new;
  old_first ← first old;
  let self :=
    if ((b_parent_hash old_first =? info_last_seen_block_hash info) ||
        (b_parent_hash new_first =? info_last_seen_block_hash info))%bool
    then self else with_state self Drifted in
  let '(failed, changed) := load_missing client new_tip old new in
  let self := with_dirty self (dirty_addresses self ∪ list_to_set failed) in
  let pruned := pruned_old_transactions (m_pool self) old new in
  p ← on_canonical_state_change (m_pool self)
        (canonical_update client new_tip changed (transaction_hashes new) TxTypes.Reorg);
  r ← pool_add_transactions fuel p now External pruned;
  let self := with_m_pool self r.1 in
  Some (with_tracker self (add_new_chain_blocks (blob_store_tracker self) (chain_blocks new))).

(** The first event marks the pool as drifted. *)
Definition on_event (config : MaintainPoolConfig) (fuel : nat) (now : Z) (client : MaintainClient)
  (event : CanonStateNotification) self : option MaintainState :=
  info ← pool_info self;
  let self := if first_event self then with_first (with_state self Drifted) false else self in
  match event with
  | Reorg old new => on_reorg fuel now client info old new self
  | Commit new => on_commit config client info new self
  end.

(** ** Rounds *)

Inductive Ready :=
| ReadyReload
| ReadyReloadLost
| ReadyEvent (event : CanonStateNotification)
| ReadyStale.

(** The branch of the [select!] that was ready, and what follows. *)
Definition select (config : MaintainPoolConfig) (fuel : nat) (now : Z) (client : MaintainClient)
  (ready : Ready) self : option MaintainState :=
  self ← match ready with
         | ReadyReload => on_reloaded client self
         | ReadyReloadLost => Some (on_reload_lost self)
         | ReadyEvent event => on_event config fuel now client event self
         | ReadyStale => on_stale_tick config now self
         end;
  Some (with_info self None).

End reorg.

End maintain.

End Maintain.
