(* ===== verification/MaintainProps.v ===== *)
(** * Properties of the maintenance of the pool

    The loop of [maintain.rs] keeps the pool consistent whatever it is told and
    whoever else uses the pool in between; a reorg leaves no mined transaction
    and forgets no changed account; accounts that may be out of date are all
    reloaded. *)

From S2P Require Import Prelude Ordered TxErrors TxIdentifier TxState TxTypes SubPoolSpec.
From S2P Require Import EthTransaction EthValidator EthValidatorProps BlobStore PoolEvents.
From S2P Require Import ParkedPool PendingPool BlobFee BlobPool AllTransactions.
From S2P Require Import TxPool TxPoolInv TxPoolOps TxPoolLimits TxPoolProps TxPoolBest TxPoolRemoved.
From S2P Require Import PoolInner PoolInnerProps PoolFacade Maintain.
Import TxErrors Identifier TxState TxTypes SubPoolSpec EthTx Validator ValidatorProps BlobStore PoolEvents.
Import BlobFee PoolInv PoolOps PoolLimits PoolProps PoolRemoved Inner InnerProps Facade Maintain.

Module MaintainProps.

#[local] Existing Instance Parked.parked_impl.
#[local] Existing Instance BlobTxs.blob_impl.
#[local] Existing Instance Pending.pending_impl.

Section props.
Context `{AlloyConstants} `{AlloyTypes} `{ValidatorConstants} {ordering : TransactionOrdering}.
Context {S : Type} `{!BlobStoreTrait S} `{!BlobStoreLaws S} {lost_blobs : LostBlobs}.
Implicit Types (self : MaintainState (S := S)) (p : PoolInner (S := S)).

Abbreviation pool_size p := (Z.of_nat (size (all_txs (pool p)))).

(** ** Adding transactions that come with their sidecars *)

(** A blob transaction has its sidecar. *)
Definition has_sidecar (tx : EthPooledTransaction) : Prop :=
  pooled_is_eip4844 tx = true -> exists s, blob_sidecar tx = SidecarPresent s.

Definition txs_ids_cost (txs : list EthPooledTransaction) : Z :=
  foldr (fun tx acc => tx_ids_cost tx + acc) 0 txs.

Lemma settled_outcome p origin tx o :
  fields_ok tx -> has_sidecar tx -> validate p origin tx = Some o ->
  outcome_ok o /\ needs_store o = false /\ ids_cost o <= tx_ids_cost tx /\ outcome_tx_hash o = s_hash (signed tx) /\
  (forall a, a ∈ outcome_signer o -> a = s_signer (signed tx)).
Proof.
  intros (F1 & F2 & F3) Hsc Hv. unfold validate in Hv.
  destruct (validate_one_settles (current_validator p) origin tx) as (o' & Ho & Hh & Hval).
  assert (o' = o) as -> by congruence. clear Ho Hv. destruct o as [b sn code vt pr auths| |].
  2,3: by unfold ids_cost, tx_ids_cost, needs_store; simpl; split_and!; try done; [lia|by intros a ?%elem_of_nil].
  destruct (Hval eq_refl) as (acc & Hn & Hrep).
  destruct (Hrep _ _ _ _ _ _ eq_refl) as (_ & -> & _ & Hpt & _ & Ha & Hs).
  pose proof (f_equal tx_nonce Hpt) as E1. pose proof (f_equal max_fee_per_gas Hpt) as E2.
  pose proof (f_equal max_fee_per_blob_gas Hpt) as E3. pose proof (f_equal tx_sender Hpt) as E4. simpl in E1, E2, E3, E4.
  split_and!; [| | |done|by intros a ->%list_elem_of_singleton].
  - simpl. by rewrite E1, E2, E3.
  - unfold needs_store. simpl. rewrite Hpt. destruct vt as [t|t s]; simpl; [|by rewrite andb_false_r].
    destruct (is_eip4844 (pool_transaction tx)) eqn:Eb; [|done]. exfalso.
    destruct (Hs Eb) as [Hm _]. destruct (Hsc Eb) as [s Hp]. congruence.
  - unfold ids_cost, tx_ids_cost, outcome_authorities. rewrite Ha. unfold recover_authorities.
    destruct (s_authorization_list (signed tx)) as [l|]; simpl; [|lia].
    pose proof (omap_length_le recover_authority l). lia.
Qed.

Lemma settled_outcomes p origin txs os :
  Forall fields_ok txs -> Forall has_sidecar txs -> validate_all p origin txs = Some os ->
  Forall2 (fun tx o => outcome_ok o /\ needs_store o = false /\ ids_cost o <= tx_ids_cost tx /\
             outcome_tx_hash o = s_hash (signed tx) /\
             (forall a, a ∈ outcome_signer o -> a = s_signer (signed tx))) txs os.
Proof.
  unfold validate_all, validate_batch_with_origin. rewrite validate_batch_from_one by done.
  rewrite mapM_Some, Forall2_fmap_l. intros Hf Hs Hall.
  induction Hall as [|tx o txs os Ho Hall IH]; [constructor|].
  apply Forall_cons in Hf as [Hf Hfs]. apply Forall_cons in Hs as [Hs Hss].
  constructor; [by apply (settled_outcome p origin)|by apply IH].
Qed.

Lemma validate_all_some p origin txs : exists os, validate_all p origin txs = Some os.
Proof.
  unfold validate_all, validate_batch_with_origin. rewrite validate_batch_from_one by done.
  apply mapM_is_Some, Forall_fmap, Forall_true. intros tx. simpl.
  destruct (validate_one_settles (current_validator p) origin tx) as (o & -> & _). eauto.
Qed.

(** What a batch of such transactions does: the pool gains only their hashes. *)
Lemma add_txs_ok fuel p n now origin txs :
  inner_ok p (n + Z.of_nat (length txs) * (pool_size p + Z.of_nat (length txs) + 2)) -> 0 <= n ->
  Forall fields_ok txs -> Forall has_sidecar txs ->
  id (identifiers p) + txs_ids_cost txs < u64_modulus -> pool_size p + Z.of_nat (length txs) < u64_modulus ->
  match pool_add_transactions fuel p now origin txs with
  | Some (p', _) => inner_ok p' n /\
      (forall i v, txs_of (pool p') !! i = Some v ->
        txs_of (pool p) !! i = Some v \/ vhash v ∈ (fun tx => s_hash (signed tx)) <$> txs) /\
      accounts_kept p ((fun tx => s_signer (signed tx)) <$> txs) p'
  | None => exists os mid added, add_each p now (pair origin <$> os) = Some (mid, added) /\
      Pool.discard_worst fuel (pool mid) = None
  end.
Proof.
  intros Hok Hn Hf Hs Hid Hsz. unfold pool_add_transactions.
  destruct (decide (txs = [])) as [->|Hne].
  { split; [by rewrite Z.mul_0_l, Z.add_0_r in Hok|]. split; [auto|by intros a x]. }
  destruct (validate_all_some p origin txs) as [os Hos]. replace (match txs with [] => _ | _ => _ end) with
    (add_transactions fuel p now origin os); [|by destruct txs; [|rewrite Hos]].
  pose proof (settled_outcomes p origin txs os Hf Hs Hos) as Hall. unfold add_transactions.
  assert (Hlen : length (pair origin <$> os) = length txs).
  { rewrite length_fmap. symmetry. by apply (Forall2_length _ _ _ Hall). }
  destruct (add_batch_ok fuel p n now (pair origin <$> os)) as (mid & added & Heach & Hm).
  { by rewrite Hlen. }
  { done. }
  { simpl. rewrite Hlen. split_and!; [| | |done].
    - apply Forall_fmap. eapply Forall2_Forall_r; [exact Hall|]. apply Forall_true. naive_solver.
    - apply batch_ready_sidecars. clear -Hall. induction Hall as [|tx o txs os (_ & Hn & _)]; simpl; [done|].
      by rewrite Hn.
    - enough (batch_ids (pair origin <$> os) <= txs_ids_cost txs) by lia. clear -Hall.
      induction Hall as [|tx o txs os (_ & _ & Hc & _)]; csimpl; lia. }
  destruct (add_transactions_with_origins _ _ _ _) as [[p' rs]|]; [|destruct Hm as [_ Hd]; by exists os, mid, added].
  destruct Hm as (Hok' & _ & vs & d & Hacc & Hev & _ & _ & _ & _ & _ & Hkeep). split; [done|]. split.
  2:{ intros a x Ha. apply Hkeep. intros Hin. apply Ha. clear -Hall Hin. unfold batch_signers in Hin.
      induction Hall as [|tx o txs os (_ & _ & _ & _ & Hs)]; csimpl in *; [by apply elem_of_nil in Hin|].
      rewrite elem_of_app in Hin. destruct Hin as [Hin|Hin]; [rewrite (Hs _ Hin); by left|right; auto]. }
  intros i v Hv%(evicts_lookup _ _ _ _ _ Hev).
  assert (Hgen : forall vs os m, Forall2 (accepts (identifiers p') now) (pair origin <$> os) vs ->
    insert_txs m (omap Datatypes.id vs) !! i = Some v -> m !! i = Some v \/ vhash v ∈ outcome_tx_hash <$> os).
  { clear. intros vs. induction vs as [|ov vs IH]; intros os m Hacc Hv; [by left|].
    apply Forall2_cons_inv_r in Hacc as (x & xs & Hx & Hxs & Heq). destruct os as [|o os]; [done|].
    rewrite fmap_cons in Heq. injection Heq as Ex Exs. subst x xs. destruct ov as [w|]; csimpl in *.
    - destruct (IH os _ Hxs Hv) as [Hi|Hi]; [|right; by right].
      rewrite lookup_insert_Some in Hi. destruct Hi as [[_ <-]|[_ ?]]; [|by left].
      right. rewrite (made_from_hash _ _ _ _ _ Hx). by left.
    - destruct (IH os m Hxs Hv) as [Hi|Hi]; [by left|right; by right]. }
  destruct (Hgen vs os _ Hacc Hv) as [?|Hin]; [by left|right].
  replace ((fun tx => s_hash (signed tx)) <$> txs) with (outcome_tx_hash <$> os); [done|]. clear -Hall.
  induction Hall as [|tx o txs os (_ & _ & _ & Hh & _)]; csimpl; [done|]. by rewrite Hh, IHHall.
Qed.

(** ** Chains *)

Lemma tip_some c : blocks c <> ∅ -> exists b, tip c = Some b.
Proof.
  intros Hne. unfold tip. destruct (last (bt_entries (blocks c))) as [e|] eqn:E; [by exists e.2|].
  apply last_None in E. exfalso. apply Hne, map_empty. intros i.
  destruct (blocks c !! i) as [b|] eqn:Hb; [|done]. apply elem_of_bt_entries in Hb. rewrite E in Hb. by apply elem_of_nil in Hb.
Qed.

Lemma first_some c : blocks c <> ∅ -> exists b, first c = Some b.
Proof.
  intros Hne. unfold first. destruct (bt_entries (blocks c)) as [|e l] eqn:E; [|by exists e.2].
  exfalso. apply Hne, map_empty. intros i.
  destruct (blocks c !! i) as [b|] eqn:Hb; [|done]. apply elem_of_bt_entries in Hb. rewrite E in Hb. by apply elem_of_nil in Hb.
Qed.

Lemma load_loop_bound state l :
  (length (accounts (load_loop state l)) <= length l)%nat.
Proof.
  induction l as [|a l IH]; simpl; [done|]. destruct (basic_account state a) as [[acc|]|e]; simpl; lia.
Qed.

Lemma load_missing_bound client b old new :
  (length (load_missing client b old new).2 <= size (bundle_state old) + length (changed_accounts new))%nat.
Proof.
  unfold load_missing, load_accounts.
  assert (Hf : (length (missing_changed_acc old (changed_accounts new)) <= size (bundle_state old))%nat).
  { unfold missing_changed_acc. etrans; [apply List.filter_length_le|].
    unfold accounts_iter. by rewrite length_fmap, length_map_to_list. }
  destruct (history_by_block_hash client (b_hash b)) as [state|e]; simpl; [|lia].
  rewrite length_app. pose proof (load_loop_bound state (missing_changed_acc old (changed_accounts new))). lia.
Qed.

(** ** Loading accounts *)

(** The account as a state has it. *)
Definition account_at (state : StateProvider) (a : ChangedAccount) : Prop :=
  exists oacc, basic_account state (ca_address a) = Ok oacc /\
    ca_nonce a = acc_nonce (default account_default oacc) /\ ca_balance a = acc_balance (default account_default oacc).

(** Each address is loaded or reported as failed. *)
Lemma load_loop_spec state l :
  (ca_address <$> accounts (load_loop state l)) ++ failed_to_load (load_loop state l) ≡ₚ l /\
  Forall (account_at state) (accounts (load_loop state l)).
Proof.
  induction l as [|a l [IH1 IH2]]; simpl; [done|].
  destruct (basic_account state a) as [oacc|e] eqn:Ha.
  - assert (Hat : forall n b, (n, b) = (acc_nonce (default account_default oacc), acc_balance (default account_default oacc)) ->
      account_at state (mkChangedAccount a n b)) by (intros n b [= -> ->]; by exists oacc).
    destruct oacc as [acc|]; csimpl; (split; [by constructor|]); (constructor; [by apply Hat|done]).
  - simpl. split; [|done]. by rewrite <- Permutation_middle, IH1.
Qed.

Lemma changed_accounts_elem c a : a ∈ changed_accounts c <->
  exists acc, bundle_state c !! ca_address a = Some (Some acc) /\ ca_nonce a = acc_nonce acc /\ ca_balance a = acc_balance acc.
Proof.
  unfold changed_accounts, accounts_iter. rewrite list_elem_of_omap. split.
  - intros ([k oacc] & Hin & Ha). apply elem_of_map_to_list in Hin. destruct oacc as [acc|]; [|done].
    injection Ha as <-. by exists acc.
  - intros (acc & Hl & Hn & Hb). exists (ca_address a, Some acc). split; [by apply elem_of_map_to_list|].
    simpl. rewrite <- Hn, <- Hb. by destruct a.
Qed.

Lemma changed_accounts_unique c : NoDup (ca_address <$> changed_accounts c).
Proof.
  unfold changed_accounts, accounts_iter. pose proof (NoDup_fst_map_to_list (bundle_state c)) as Hnd.
  induction (map_to_list (bundle_state c)) as [|[k [acc|]] l IH]; csimpl in *; [constructor| |].
  - apply NoDup_cons in Hnd as [Hk Hnd]. constructor; [|auto]. intros Hin. apply Hk.
    apply list_elem_of_fmap in Hin as (a & -> & Ha). apply list_elem_of_omap in Ha as ([k' oacc] & Hin & Ha).
    destruct oacc; [|done]. injection Ha as <-. by apply (list_elem_of_fmap_2 fst) in Hin.
  - apply NoDup_cons in Hnd as [_ Hnd]. auto.
Qed.

(** After a reorg every account either chain changed is known or out of date. *)
Lemma load_missing_spec client t old new :
  let '(failed, changed) := load_missing client t old new in
  NoDup (ca_address <$> changed) /\
  (forall a, is_Some (bundle_state old !! a) -> a ∈ ca_address <$> changed \/ a ∈ failed) /\
  (forall a acc, bundle_state new !! a = Some (Some acc) ->
     mkChangedAccount a (acc_nonce acc) (acc_balance acc) ∈ changed) /\
  (forall a, a ∈ changed -> a ∈ changed_accounts new \/
     exists state, history_by_block_hash client (b_hash t) = Ok state /\ account_at state a) /\
  (forall a, a ∈ changed -> a ∈ changed_accounts new \/ is_Some (bundle_state old !! ca_address a)).
Proof.
  unfold load_missing, load_accounts. set (missing := missing_changed_acc old (changed_accounts new)).
  assert (Hmiss : forall a, a ∈ missing <-> is_Some (bundle_state old !! a) /\ a ∉ ca_address <$> changed_accounts new).
  { intros a. unfold missing, missing_changed_acc. rewrite list_elem_of_In, filter_In, <- list_elem_of_In, negb_true_iff, bool_decide_eq_false.
    unfold accounts_iter. rewrite list_elem_of_fmap. split.
    - intros [([k o] & -> & Hin%elem_of_map_to_list) ?]. eauto.
    - intros [[o Ho] ?]. split; [|done]. exists (a, o). split; [done|]. by apply elem_of_map_to_list. }
  assert (Hnd : NoDup missing).
  { apply NoDup_ListNoDup, List.NoDup_filter, NoDup_ListNoDup, NoDup_fst_map_to_list. }
  assert (Hnew : forall a acc, bundle_state new !! a = Some (Some acc) ->
    mkChangedAccount a (acc_nonce acc) (acc_balance acc) ∈ changed_accounts new).
  { intros a acc Ha. apply changed_accounts_elem. by exists acc. }
  pose proof (changed_accounts_unique new) as Hun.
  destruct (history_by_block_hash client (b_hash t)) as [state|e]; simpl.
  - destruct (load_loop_spec state missing) as [Hp Hat]. split_and!.
    + rewrite fmap_app, NoDup_app. rewrite <- Hp, NoDup_app in Hnd. split_and!; [apply Hnd| |done].
      intros a Ha Hin. assert (a ∈ missing) as [_ ?]%Hmiss; [|done]. rewrite <- Hp. apply elem_of_app. by left.
    + intros a Ha. rewrite fmap_app, elem_of_app.
      destruct (decide (a ∈ ca_address <$> changed_accounts new)) as [|Hn]; [auto|].
      assert (Hin : a ∈ missing) by (by apply Hmiss). rewrite <- Hp, elem_of_app in Hin. tauto.
    + intros a acc Ha. apply elem_of_app. right. by apply Hnew.
    + intros a [Ha|Ha]%elem_of_app; [right|by left]. rewrite Forall_forall in Hat. eauto.
    + intros a [Ha|Ha]%elem_of_app; [right|by left]. apply Hmiss. rewrite <- Hp. apply elem_of_app. left. by apply list_elem_of_fmap_2.
  - split_and!; [done| |done|by left|by left]. intros a Ha.
    destruct (decide (a ∈ ca_address <$> changed_accounts new)) as [|Hn]; [auto|right]. by apply Hmiss.
Qed.

(** The pool goes by the account [acc] of [a], and has no transaction that it is past. *)
Definition account_known (p : PoolInner (S := S)) (a : Z) (acc : Account) : Prop :=
  pool_account p a = Some (mkSenderInfo (acc_nonce acc) (acc_balance acc)) /\
  forall i v, txs_of (pool p) !! i = Some v -> tx_sender (transaction v) = a -> acc_nonce acc <= nonce i.

(** The pool goes by the account of [a] as of the block [at_]. *)
Definition up_to_date (client : MaintainClient) (at_ : Z) (p : PoolInner (S := S)) (a : Z) : Prop :=
  exists state oacc, history_by_block_hash client at_ = Ok state /\ basic_account state a = Ok oacc /\
    account_known p a (default account_default oacc).

Lemma given_known (p p' : PoolInner (S := S)) accs c acc : accounts_given p accs p' -> c ∈ accs ->
  ca_nonce c = acc_nonce acc -> ca_balance c = acc_balance acc -> account_known p' (ca_address c) acc.
Proof. intros [Hg _] Hc En Eb. destruct (Hg c Hc) as [Ha Ht]. unfold account_known, account_info in *. by rewrite <- En, <- Eb. Qed.

Lemma load_loop_one state l : one_each (accounts (load_loop state l)).
Proof.
  destruct (load_loop_spec state l) as [_ Hat]. rewrite Forall_forall in Hat.
  intros [a n b] [a' n' b'] (o & Ho & Hn & Hb)%Hat (o' & Ho' & Hn' & Hb')%Hat Ha. simpl in *. congruence.
Qed.

(** A chain that is not empty, whose next block has fees of their types. *)
Definition chain_ok (client : MaintainClient) (c : Chain) : Prop :=
  blocks c <> ∅ /\ forall b, tip c = Some b -> info_ok (pending_info client b).

(** ** Each branch keeps the pool consistent *)

Lemma on_reloaded_ok client self n at_ accs :
  inner_ok (m_pool self) (n + pool_size (m_pool self)) -> 0 <= n ->
  reload_accounts_fut self = Some (at_, accs) ->
  id (identifiers (m_pool self)) + Z.of_nat (length accs) < u64_modulus ->
  exists self', on_reloaded client self = Some self' /\ inner_ok (m_pool self') n /\
    txs_of (pool (m_pool self')) ⊆ txs_of (pool (m_pool self)) /\
    id (identifiers (m_pool self')) <= id (identifiers (m_pool self)) + Z.of_nat (length accs) /\
    info_last_seen_block_hash (Pool.block_info (pool (m_pool self'))) =
      info_last_seen_block_hash (Pool.block_info (pool (m_pool self))) /\
    (forall state, history_by_block_hash client at_ = Ok state ->
       accounts_given (m_pool self) (accounts (load_loop state accs)) (m_pool self')).
Proof.
  intros Hok Hn Hr Hid. unfold on_reloaded, load_accounts. rewrite Hr.
  destruct (history_by_block_hash client at_) as [state|e].
  - pose proof (load_loop_bound state accs) as Hl.
    destruct (accounts_inner_ok (m_pool self) n (accounts (load_loop state accs)) Hok Hn ltac:(lia))
      as (p & Hp & Hok' & Hsub & Hle & Hg).
    simpl. rewrite Hp. simpl. eexists. split_and!; [done|done|done|simpl; lia|by eapply update_accounts_seen|].
    intros ? [= <-]. apply Hg, load_loop_one.
  - eexists. split; [done|]. split_and!; [|done|simpl; lia|done|done]. apply (inner_ok_room _ _ _ Hok). lia.
Qed.

Lemma on_stale_ok config now self n :
  inner_ok (m_pool self) (n + Z.of_nat (length (stale_txs config now self)) * pool_size (m_pool self)) -> 0 <= n ->
  exists self', on_stale_tick config now self = Some self' /\ inner_ok (m_pool self') n.
Proof.
  intros Hok Hn. unfold on_stale_tick.
  destruct (remove_inner_ok (m_pool self) n (stale_txs config now self) Hok Hn) as (p & r & Hr & Hok').
  rewrite Hr. simpl. eauto.
Qed.

Lemma on_commit_ok config client info new self n :
  inner_ok (m_pool self) (n + 3 * pool_size (m_pool self)) -> 0 <= n -> chain_ok client new ->
  id (identifiers (m_pool self)) + Z.of_nat (length (changed_accounts new)) < u64_modulus ->
  exists self', on_commit config client info new self = Some self' /\ inner_ok (m_pool self') n /\
    (forall i v, txs_of (pool (m_pool self')) !! i = Some v -> txs_of (pool (m_pool self)) !! i = Some v /\
      (Z.abs (default 0 (b_number <$> tip new) - info_last_seen_block_number info) <= max_update_depth config ->
       vhash v ∉ transaction_hashes new)) /\
    (maintained_state self' = Drifted \/ accounts_given (m_pool self) (changed_accounts new) (m_pool self')).
Proof.
  intros Hok Hn [Hne Hfees] Hid. unfold on_commit.
  destruct (tip_some new Hne) as [t Ht]. destruct (first_some new Hne) as [f Hf]. rewrite Ht, Hf. simpl.
  specialize (Hfees t Ht). destruct (max_update_depth config <? _) eqn:Hd; bools.
  - destruct (block_info_inner_ok (m_pool self) n (pending_info client t)) as (p & Hp & Hok' & Htx);
      [apply (inner_ok_room _ _ _ Hok); lia|done|done|].
    rewrite Hp. eexists. split; [done|]. split; [done|]. simpl. rewrite Htx. split; [|by left]. intros i v Hv. split; [done|lia].
  - set (s1 := if b_parent_hash f =? _ then _ else _).
    assert (Es : m_pool s1 = m_pool self) by (unfold s1; by destruct (_ =? _)).
    destruct (canonical_inner_ok (m_pool self) n
      (canonical_update client t (changed_accounts new) (transaction_hashes new) TxTypes.Commit))
      as (p & Hp & Hok' & _ & Htx & Hg); [done|done|exact Hfees|done|].
    rewrite Es, Hp. eexists. split; [done|]. split; [done|]. simpl. split.
    + intros i v Hv. destruct (Htx i v Hv) as [? ?]. by split.
    + right. apply Hg, one_each_NoDup, changed_accounts_unique.
Qed.

Lemma pool_size_subset p p' : txs_of (pool p') ⊆ txs_of (pool p) -> pool_size p' <= pool_size p.
Proof. intros Hsub. apply inj_le, pool_txs_le. exact Hsub. Qed.

(** ** The preparation of a round *)

(** The blob transactions of finalised blocks have left the pool, unless their sidecars may be lost. *)
Definition finalize_ok (client : MaintainClient) self : Prop :=
  forall f number bs h, finalized_block_number client = Some f ->
    blob_txs_in_blocks (blob_store_tracker self) !! number = Some bs -> number <= f -> h ∈ bs ->
    Pool.get (pool (m_pool self)) h = None \/ lost h.

(** Accounts that may be out of date: known as such, or being reloaded. *)
Definition requested self : list Z := match reload_accounts_fut self with Some (_, accs) => accs | None => [] end.
Definition outdated self : gset Z := dirty_addresses self ∪ list_to_set (requested self).

Definition pool_senders self : gset Z := PoolBest.unique_senders (pool (m_pool self)).

Lemma on_finalized_ok client self n :
  inner_ok (m_pool self) n -> 0 <= n -> finalize_ok client self ->
  exists self', on_finalized client self = Some self' /\ inner_ok (m_pool self') n /\
    pool (m_pool self') = pool (m_pool self) /\ identifiers (m_pool self') = identifiers (m_pool self) /\
    dirty_addresses self' = dirty_addresses self /\ reload_accounts_fut self' = reload_accounts_fut self /\
    maintained_state self' = maintained_state self /\
    blob_txs_in_blocks (blob_store_tracker self') ⊆ blob_txs_in_blocks (blob_store_tracker self).
Proof.
  intros Hok Hn0 Hfin. unfold on_finalized. destruct (finalized_update _ _) as [last fin] eqn:Hu.
  destruct fin as [f|]; [|by eexists]. simpl.
  assert (Hf : finalized_block_number client = Some f).
  { unfold finalized_update in Hu. destruct (finalized_block_number client) as [g|]; [|done].
    destruct (last_finalized_block self) as [l|]; [destruct (l <? g)|]; congruence. }
  unfold on_finalized_block. rewrite finalize_loop_exact by lia. simpl.
  assert (Hbl : forall h, h ∈ blobs_up_to (blob_txs_in_blocks (blob_store_tracker self)) f ->
    Pool.get (pool (m_pool self)) h = None \/ lost h).
  { intros h (number & bs & Hn & Hle & Hh)%elem_of_blobs_up_to. by apply (Hfin f number bs h). }
  destruct (blobs_up_to _ f) as [|b bs]; eexists; (split; [done|]); simpl;
    (split_and!; [|done..|apply map_filter_subseteq]); [done|].
  pose proof (run_inner_ok (IDeleteBlobs (b :: bs)) (m_pool self) n) as H1'.
  specialize (H1' ltac:(simpl; by rewrite Z.add_0_r)). simpl in H1'.
  pose proof (run_inner_ok ICleanupBlobs (delete_blobs (m_pool self) (b :: bs)) n) as H2'. simpl in H2'.
  apply H2'; [rewrite Z.add_0_r; by apply H1'|done|done].
Qed.

Lemma start_reload_spec config self :
  let self' := start_reload config self in
  m_pool self' = m_pool self /\ blob_store_tracker self' = blob_store_tracker self /\
  last_finalized_block self' = last_finalized_block self /\ maintained_state self' = maintained_state self /\
  outdated self' = outdated self.
Proof.
  unfold start_reload, outdated, requested. destruct (reload_accounts_fut self) as [[at_ accs]|] eqn:Hr; simpl; [by rewrite Hr|].
  case_bool_decide as Hd; [by rewrite Hr|].
  destruct (max_reload_accounts config <? _); simpl; split_and!; try done.
  - apply set_eq. intros a. rewrite !elem_of_union, elem_of_difference, elem_of_list_to_set, elem_of_empty.
    split; [|destruct (decide (a ∈ take (Z.to_nat (max_reload_accounts config)) (elements (dirty_addresses self)))); tauto].
    intros [[? _]|(i & Hi)%list_elem_of_lookup]; [by left|left]. apply elem_of_elements, list_elem_of_lookup.
    rewrite lookup_take_Some in Hi. naive_solver.
  - apply set_eq. intros a. rewrite !elem_of_union, elem_of_list_to_set, elem_of_elements, elem_of_empty. simpl. set_solver.
Qed.

Lemma sync_dirty_spec self :
  let self' := sync_dirty self in
  m_pool self' = m_pool self /\ blob_store_tracker self' = blob_store_tracker self /\
  reload_accounts_fut self' = reload_accounts_fut self /\ maintained_state self' = InSync /\
  (if is_drifted (maintained_state self) then pool_senders self ⊆ outdated self' else outdated self' = outdated self).
Proof.
  unfold sync_dirty, outdated, requested, pool_senders. destruct (maintained_state self) eqn:Em; simpl; [by rewrite ?Em|].
  split_and!; try done. set_solver.
Qed.

Lemma prepare_ok config client self n :
  inner_ok (m_pool self) n -> 0 <= n -> finalize_ok client self ->
  exists self', prepare config client self = Some self' /\ inner_ok (m_pool self') n /\
    pool (m_pool self') = pool (m_pool self) /\ identifiers (m_pool self') = identifiers (m_pool self) /\
    maintained_state self' = InSync /\
    blob_txs_in_blocks (blob_store_tracker self') ⊆ blob_txs_in_blocks (blob_store_tracker self) /\
    dirty_addresses self' = dirty_addresses (start_reload config (sync_dirty self)) /\
    reload_accounts_fut self' = reload_accounts_fut (start_reload config (sync_dirty self)) /\
    (if is_drifted (maintained_state self) then pool_senders self ⊆ outdated self' else outdated self' = outdated self).
Proof.
  intros Hok Hn Hfin. unfold prepare.
  destruct (sync_dirty_spec self) as (S1 & S2 & S3 & S4 & S5). set (s1 := sync_dirty self) in *.
  destruct (start_reload_spec config s1) as (R1 & R2 & R3 & R4 & R5). set (s2 := start_reload config s1) in *.
  destruct (on_finalized_ok client s2 n) as (s3 & Hs3 & Hok3 & Ep & Ei & Ed & Er & Em & Et); [congruence|done| |].
  { unfold finalize_ok. rewrite R1, R2, S1, S2. exact Hfin. }
  rewrite Hs3. simpl. eexists. split; [done|]. simpl.
  assert (Eo : outdated (with_info s3 (Some (Pool.block_info (pool (m_pool self))))) = outdated s1).
  { rewrite <- R5. unfold outdated, requested. simpl. by rewrite Ed, Er. }
  rewrite Eo. split_and!; try congruence; try done. by rewrite <- S2, <- R2.
Qed.

(** ** Draining the accounts that are out of date *)

(** The client can load every account. *)
Definition loads_all (client : MaintainClient) : Prop :=
  forall at_, exists state, history_by_block_hash client at_ = Ok state /\
    forall a, exists oacc, basic_account state a = Ok oacc.

(** A round in which the reload is the first to be ready. *)
Definition reload_round (config : MaintainPoolConfig) (client : MaintainClient) self : option (MaintainState (S := S)) :=
  self ← prepare config client self;
  match reload_accounts_fut self with
  | Some _ => on_reloaded client self
  | None => Some self
  end.

Fixpoint reload_rounds (n : nat) (config : MaintainPoolConfig) (client : MaintainClient) self
  : option (MaintainState (S := S)) :=
  match n with
  | O => Some self
  | Datatypes.S n => self ← reload_round config client self; reload_rounds n config client self
  end.

Lemma load_all_loaded state l : (forall a, exists oacc, basic_account state a = Ok oacc) ->
  failed_to_load (load_loop state l) = [].
Proof.
  intros Hall. induction l as [|a l IH]; simpl; [done|]. destruct (Hall a) as [[acc|] ->]; done.
Qed.

Lemma finalize_ok_subset client self self' n :
  pool_ok (pool (m_pool self')) n -> (exists m, pool_ok (pool (m_pool self)) m) ->
  txs_of (pool (m_pool self')) ⊆ txs_of (pool (m_pool self)) ->
  blob_txs_in_blocks (blob_store_tracker self') ⊆ blob_txs_in_blocks (blob_store_tracker self) ->
  finalize_ok client self -> finalize_ok client self'.
Proof.
  intros Hp' [m Hp] Hsub Ht Hf f number bs h Hfin Hn Hle Hh.
  destruct (Hf f number bs h Hfin (lookup_weaken _ _ _ _ Hn Ht) Hle Hh) as [Hg|?]; [left|by right].
  destruct (Pool.get (pool (m_pool self')) h) as [v|] eqn:Hv; [exfalso|done].
  apply (get_spec _ _ _ _ _ Hp') in Hv as [Hh' Hv].
  assert (E : Pool.get (pool (m_pool self)) h = Some v); [|congruence].
  apply (get_spec _ _ _ _ _ Hp). split; [done|]. by apply (lookup_weaken _ _ _ _ Hv Hsub).
Qed.

(** The chunk that is requested and what stays behind. *)
Lemma start_reload_chunk config self : reload_accounts_fut self = None -> 1 <= max_reload_accounts config ->
  let self' := start_reload config self in
  if bool_decide (dirty_addresses self = ∅) then self' = self
  else exists accs,
    reload_accounts_fut self' = Some (info_last_seen_block_hash (Pool.block_info (pool (m_pool self))), accs) /\
    (forall a, a ∈ dirty_addresses self <-> a ∈ dirty_addresses self' \/ a ∈ accs) /\
    (size (dirty_addresses self') + length accs = size (dirty_addresses self))%nat /\
    (size (dirty_addresses self') <= size (dirty_addresses self) - Z.to_nat (max_reload_accounts config))%nat.
Proof.
  intros Hr Hm. unfold start_reload. rewrite Hr. case_bool_decide as Hd; [done|].
  set (m := Z.to_nat (max_reload_accounts config)).
  destruct (max_reload_accounts config <? _) eqn:Hlt; bools; simpl; eexists; (split; [done|]).
  - set (accs := take m (elements (dirty_addresses self))).
    assert (Hlen : length accs = m).
    { unfold accs. rewrite length_take. change (length (elements (dirty_addresses self))) with (size (dirty_addresses self)). lia. }
    assert (Hsub : list_to_set accs ⊆ dirty_addresses self).
    { intros a. rewrite elem_of_list_to_set, list_elem_of_lookup. intros [i Hi]. unfold accs in Hi.
      rewrite lookup_take_Some in Hi. apply elem_of_elements, list_elem_of_lookup. naive_solver. }
    assert (Hnd : NoDup accs) by (eapply sublist_NoDup; [apply (NoDup_elements (dirty_addresses self))|apply sublist_take]).
    pose proof (size_difference (dirty_addresses self) (list_to_set accs) Hsub) as Hsz.
    rewrite size_list_to_set, Hlen in Hsz by done. rewrite Hsz, Hlen. split; [|lia].
    intros a. rewrite elem_of_difference, elem_of_list_to_set. destruct (decide (a ∈ accs)) as [Ha|]; [|tauto].
    split; [by right|]. intros _. apply Hsub. by apply elem_of_list_to_set.
  - split; [intros a; rewrite elem_of_elements; set_solver|]. change (set_size _) with (size (∅ : gset Z)). rewrite size_empty.
    change (length (elements (dirty_addresses self))) with (size (dirty_addresses self)). lia.
Qed.

(** The block the pool has seen last. *)
Abbreviation seen self := (info_last_seen_block_hash (Pool.block_info (pool (m_pool self)))).

(** From [self] to [self'], each account that is out of date still is or is up to date now; for the others the pool goes by what it knew. *)
Definition round_done (client : MaintainClient) self self' : Prop :=
  seen self' = seen self /\ dirty_addresses self' ⊆ dirty_addresses self /\
  (forall a, a ∈ dirty_addresses self -> a ∈ dirty_addresses self' \/ up_to_date client (seen self) (m_pool self') a) /\
  (forall a, a ∉ dirty_addresses self -> pool_account (m_pool self') a = pool_account (m_pool self) a).

(** What is up to date stays so if the pool only loses transactions. *)
Lemma up_to_date_kept client at_ (p p' : PoolInner (S := S)) a : pool_account p' a = pool_account p a ->
  txs_of (pool p') ⊆ txs_of (pool p) -> up_to_date client at_ p a -> up_to_date client at_ p' a.
Proof.
  intros Ea Hsub (state & oacc & Hs & Ho & Hk & Ht). exists state, oacc. split_and!; [done|done|]. split; [by rewrite Ea|].
  intros i v Hv. apply Ht. by eapply lookup_weaken.
Qed.

(** The accounts of a chunk are up to date once they were given to the pool. *)
Lemma reloaded_up_to_date client at_ state (p p' : PoolInner (S := S)) accs a :
  history_by_block_hash client at_ = Ok state -> (forall b, exists oacc, basic_account state b = Ok oacc) ->
  accounts_given p (accounts (load_loop state accs)) p' ->
  (a ∈ accs -> up_to_date client at_ p' a) /\ (a ∉ accs -> pool_account p' a = pool_account p a).
Proof.
  intros Hst Hall Hg. destruct (load_loop_spec state accs) as [Hp Hat]. rewrite (load_all_loaded _ _ Hall), app_nil_r in Hp.
  rewrite Forall_forall in Hat. split; intros Ha; rewrite <- Hp in Ha; [|by apply Hg].
  apply list_elem_of_fmap in Ha as (c & -> & Hc). destruct (Hat c Hc) as (oacc & Ho & Hn & Hb).
  exists state, oacc. split_and!; [done|done|]. by eapply given_known.
Qed.

Lemma reload_round_ok config client self n :
  inner_ok (m_pool self) (n + pool_size (m_pool self)) -> 0 <= n -> finalize_ok client self -> loads_all client ->
  maintained_state self = InSync -> reload_accounts_fut self = None -> 1 <= max_reload_accounts config ->
  id (identifiers (m_pool self)) + Z.of_nat (size (dirty_addresses self)) < u64_modulus ->
  exists self', reload_round config client self = Some self' /\ inner_ok (m_pool self') n /\
    txs_of (pool (m_pool self')) ⊆ txs_of (pool (m_pool self)) /\ finalize_ok client self' /\
    maintained_state self' = InSync /\ reload_accounts_fut self' = None /\
    id (identifiers (m_pool self')) + Z.of_nat (size (dirty_addresses self')) < u64_modulus /\
    (size (dirty_addresses self') <= size (dirty_addresses self) - Z.to_nat (max_reload_accounts config))%nat /\
    round_done client self self'.
Proof.
  intros Hok Hn Hfin Hall Hm Hr Hmax Hid. unfold reload_round.
  destruct (prepare_ok config client self _ Hok ltac:(lia) Hfin)
    as (s1 & -> & Hok1 & Ep & Ei & Em1 & Et & Ed & Er & _). simpl.
  assert (Es : sync_dirty self = self) by (unfold sync_dirty; by rewrite Hm). rewrite Es in Ed, Er.
  pose proof (start_reload_chunk config self Hr Hmax) as Hch. cbv zeta in Hch.
  assert (Hfin' : forall s, inner_ok (m_pool s) n -> txs_of (pool (m_pool s)) ⊆ txs_of (pool (m_pool self)) ->
    blob_store_tracker s = blob_store_tracker s1 -> finalize_ok client s).
  { intros s Hs Hsub Htr. eapply (finalize_ok_subset client self s n); [apply Hs|eexists; apply Hok|done|by rewrite Htr|done]. }
  case_bool_decide as Hd.
  - rewrite Hch in Ed, Er. rewrite Er, Hr. exists s1.
    assert (Hok1' : inner_ok (m_pool s1) n) by (apply (inner_ok_room _ _ _ Hok1); lia).
    split_and!; [done|done|by rewrite Ep|apply Hfin'; [done|by rewrite Ep|done]|done|by rewrite Er| | |].
    + by rewrite Ei, Ed.
    + rewrite Ed, Hd, size_empty. lia.
    + unfold round_done, pool_account. rewrite Ed, Hd, Ei, Ep. set_solver.
  - destruct Hch as (accs & Hreq & Hpart & Hsz & Hle). rewrite <- Ed in Hsz, Hle, Hpart. rewrite <- Er in Hreq.
    rewrite Hreq. destruct (on_reloaded_ok client s1 n (seen self) accs) as (s2 & Hs2 & Hok2 & Hsub & Hid2 & Hseen & Hgiv);
      [by rewrite Ep|done|done|rewrite Ei; lia|].
    assert (Hkeep : dirty_addresses s2 = dirty_addresses s1 /\ reload_accounts_fut s2 = None /\
      maintained_state s2 = maintained_state s1 /\ blob_store_tracker s2 = blob_store_tracker s1).
    { unfold on_reloaded, load_accounts in Hs2. rewrite Hreq in Hs2. destruct (Hall (seen self)) as (state & Hst & Hacc).
      rewrite Hst in Hs2. rewrite (load_all_loaded _ _ Hacc) in Hs2. apply bind_Some in Hs2 as (p & _ & [= <-]). simpl.
      split_and!; try done. set_solver. }
    destruct Hkeep as (K1 & K2 & K3 & K4). rewrite Ep in Hsub. rewrite Ei in Hid2.
    exists s2. split_and!; [done|done|done|by apply Hfin'|congruence|done|rewrite K1; lia|by rewrite K1|].
    destruct (Hall (seen self)) as (state & Hst & Hacc). specialize (Hgiv state Hst).
    assert (forall a, pool_account (m_pool s1) a = pool_account (m_pool self) a) as Epa by (intros a; unfold pool_account; by rewrite Ei, Ep).
    unfold round_done. rewrite K1, Hseen, Ep. split_and!; [done|intros a Ha; apply Hpart; by left|..]; intros a Ha;
      destruct (reloaded_up_to_date client (seen self) state _ _ accs a Hst Hacc Hgiv) as [U1 U2].
    + apply Hpart in Ha as [?|?]; auto.
    + rewrite U2, Epa; [done|]. intros Hin. apply Ha, Hpart. by right.
Qed.

Lemma reload_rounds_ok N config client self n :
  inner_ok (m_pool self) (n + Z.of_nat N * pool_size (m_pool self)) -> 0 <= n -> finalize_ok client self -> loads_all client ->
  maintained_state self = InSync -> reload_accounts_fut self = None -> 1 <= max_reload_accounts config ->
  id (identifiers (m_pool self)) + Z.of_nat (size (dirty_addresses self)) < u64_modulus ->
  (size (dirty_addresses self) <= N * Z.to_nat (max_reload_accounts config))%nat ->
  exists self', reload_rounds N config client self = Some self' /\ inner_ok (m_pool self') n /\ outdated self' = ∅ /\
    txs_of (pool (m_pool self')) ⊆ txs_of (pool (m_pool self)) /\
    (forall a, a ∈ dirty_addresses self -> up_to_date client (seen self) (m_pool self') a) /\
    (forall a, a ∉ dirty_addresses self -> pool_account (m_pool self') a = pool_account (m_pool self) a).
Proof.
  revert self. induction N as [|N IH]; intros self Hok Hn Hfin Hall Hm Hr Hmax Hid Hsz.
  - exists self. simpl in *. assert (dirty_addresses self = ∅) as Hd by (apply leibniz_equiv, size_empty_inv; lia).
    split_and!; [done|by rewrite Z.mul_0_l, Z.add_0_r in Hok| |done|rewrite Hd; set_solver|done].
    unfold outdated, requested. rewrite Hr, Hd. set_solver.
  - destruct (reload_round_ok config client self (n + Z.of_nat N * pool_size (m_pool self)))
      as (s1 & Hs1 & Hok1 & Hsub & Hfin1 & Hm1 & Hr1 & Hid1 & Hle & Eseen & Hdsub & Hdone & Hother); try done;
      [apply (inner_ok_room _ _ _ Hok); lia|lia|].
    cbn [reload_rounds]. rewrite Hs1. simpl. pose proof (pool_size_subset _ _ Hsub) as Hsz1.
    destruct (IH s1) as (s2 & Hs2 & Hok2 & Ho2 & Hsub2 & Hup2 & Hk2); try done; [apply (inner_ok_room _ _ _ Hok1); nia|lia|].
    rewrite Eseen in Hup2. exists s2. split_and!; [done|done|done|by etrans| |].
    + intros a Ha. destruct (decide (a ∈ dirty_addresses s1)) as [|Hn1]; [auto|]. destruct (Hdone a Ha) as [?|Hup]; [done|].
      eapply up_to_date_kept; [by apply Hk2|done|done].
    + intros a Ha. rewrite Hk2 by set_solver. by apply Hother.
Qed.

(** ** What may happen *)

Section steps.
Context (try_from_eip4844 : SignedTransaction -> BlobTransactionSidecarVariant -> option EthPooledTransaction)
  (try_from_consensus : SignedTransaction -> option EthPooledTransaction).
(** A conversion keeps the transaction, and attaches the sidecar it is given. *)
Hypothesis eip4844_keeps : forall tx s t, try_from_eip4844 tx s = Some t ->
  signed t = tx /\ blob_sidecar t = SidecarPresent s.
Hypothesis consensus_keeps : forall tx t, try_from_consensus tx = Some t -> signed t = tx.

Abbreviation pruned p old new := (pruned_old_transactions try_from_eip4844 try_from_consensus p old new).
Abbreviation do_select := (select try_from_eip4844 try_from_consensus).

Lemma reinjected_keeps p tx t : reinjected try_from_eip4844 try_from_consensus p tx = Some t ->
  signed t = tx /\ has_sidecar t.
Proof.
  unfold reinjected, has_sidecar, pooled_is_eip4844. destruct (s_ty tx =? EIP4844_TX_TYPE_ID) eqn:Et.
  - destruct (bs_get (blob_store p) (s_hash tx)) as [[sc|]|e]; [|done..].
    intros Hc. apply eip4844_keeps in Hc as [<- Hs]. split; [done|]. eauto.
  - intros Hc. apply consensus_keeps in Hc as <-. split; [done|]. by rewrite Et.
Qed.

Lemma pruned_elem p old new t : t ∈ pruned p old new ->
  has_sidecar t /\ signed t ∈ transactions_ecrecovered old /\ s_hash (signed t) ∉ transaction_hashes new.
Proof.
  intros (tx & Htx & Ht)%list_elem_of_omap. apply reinjected_keeps in Ht as [-> Hs].
  apply list_elem_of_In, filter_In in Htx as [Hin Hn]. split_and!; [done|by apply list_elem_of_In|].
  apply negb_true_iff, bool_decide_eq_false in Hn. done.
Qed.

(** The fields of mined transactions are of their types. *)
Definition chain_fields_ok (c : Chain) : Prop :=
  Forall (fun tx => is_u64 (s_nonce tx) /\ is_u128 (s_max_fee_per_gas tx) /\
            is_u128 (default 0 (s_max_fee_per_blob_gas tx))) (transactions_ecrecovered c).

Lemma pruned_ok p old new : chain_fields_ok old ->
  Forall fields_ok (pruned p old new) /\ Forall has_sidecar (pruned p old new).
Proof.
  intros Hf. unfold chain_fields_ok in Hf. rewrite Forall_forall in Hf.
  split; apply Forall_forall; intros t (? & Hin & _)%pruned_elem; [|done]. by apply Hf in Hin.
Qed.

Definition ready_ok (client : MaintainClient) (ready : Ready) self : Prop :=
  let p : PoolInner := m_pool self in
  match ready with
  | ReadyReload => exists at_ accs, reload_accounts_fut self = Some (at_, accs) /\
      id (identifiers p) + Z.of_nat (length accs) < u64_modulus
  | ReadyEvent (Commit new) => is_Some (pool_info self) /\ chain_ok client new /\
      id (identifiers p) + Z.of_nat (length (changed_accounts new)) < u64_modulus
  | ReadyEvent (Reorg old new) => is_Some (pool_info self) /\ chain_ok client new /\ blocks old <> ∅ /\
      chain_fields_ok old /\
      id (identifiers p) + Z.of_nat (size (bundle_state old) + length (changed_accounts new)) +
        txs_ids_cost (pruned p old new) < u64_modulus /\
      pool_size p + Z.of_nat (length (pruned p old new)) < u64_modulus
  | _ => True
  end.

Definition ready_cost (config : MaintainPoolConfig) (now : Z) (ready : Ready) self : Z :=
  let k := pool_size (m_pool self) in
  match ready with
  | ReadyReload => k
  | ReadyReloadLost => 0
  | ReadyEvent (Commit _) => 3 * k
  | ReadyEvent (Reorg old new) =>
      let l := Z.of_nat (length (pruned (m_pool self) old new)) in 3 * k + l * (k + l + 2)
  | ReadyStale => Z.of_nat (length (stale_txs config now self)) * k
  end.

(** ** A reorg *)

(** The pool [p'] goes by the accounts [accs], and for others by what [p] knew, but for the accounts of [signers]; of a sender among [accs] it has no transaction
    that the account is past, but for those with [hashes]. *)
Definition accounts_settled (p : PoolInner (S := S)) (accs : list ChangedAccount) (signers hashes : list Z) (p' : PoolInner (S := S)) : Prop :=
  (forall c, c ∈ accs -> ca_address c ∉ signers -> pool_account p' (ca_address c) = Some (account_info c)) /\
  (forall c i v, c ∈ accs -> txs_of (pool p') !! i = Some v -> tx_sender (transaction v) = ca_address c ->
     ca_nonce c <= nonce i \/ vhash v ∈ hashes) /\
  (forall b x, b ∉ ca_address <$> accs -> b ∉ signers -> pool_account p b = Some x -> pool_account p' b = Some x).

Lemma given_settled p accs p1 signers hashes p' : accounts_given p accs p1 -> accounts_kept p1 signers p' ->
  (forall i v, txs_of (pool p') !! i = Some v -> txs_of (pool p1) !! i = Some v \/ vhash v ∈ hashes) ->
  accounts_settled p accs signers hashes p'.
Proof.
  intros [G1 G2] Hk Ht. split_and!.
  - intros c Hc Hs. apply Hk; [done|]. by apply G1.
  - intros c i v Hc Hv Hs. apply Ht in Hv as [Hv|]; [left|by right]. by apply (proj2 (G1 c Hc) i v).
  - intros b x Hb Hs Hx. apply Hk; [done|]. by rewrite G2.
Qed.

Lemma on_reorg_ok fuel now client info old new self n :
  inner_ok (m_pool self) (n + ready_cost maintain_config_default now (ReadyEvent (Reorg old new)) self) -> 0 <= n ->
  ready_ok client (ReadyEvent (Reorg old new)) self ->
  match on_reorg try_from_eip4844 try_from_consensus fuel now client info old new self with
  | Some self' => inner_ok (m_pool self') n /\
      (forall i v, txs_of (pool (m_pool self')) !! i = Some v -> vhash v ∉ transaction_hashes new /\
        (txs_of (pool (m_pool self)) !! i = Some v \/
         vhash v ∈ (fun tx => s_hash (signed tx)) <$> pruned (m_pool self) old new)) /\
      forall t, tip new = Some t -> accounts_settled (m_pool self) (load_missing client t old new).2
        ((fun tx => s_signer (signed tx)) <$> pruned (m_pool self) old new)
        ((fun tx => s_hash (signed tx)) <$> pruned (m_pool self) old new) (m_pool self')
  | None => exists p os mid added, add_each p now (pair External <$> os) = Some (mid, added) /\
      Pool.discard_worst fuel (pool mid) = None
  end.
Proof.
  intros Hok Hn (_ & [Hne Hfees] & Hold & Hcf & Hid & Hsz). unfold on_reorg. simpl in Hok.
  destruct (tip_some new Hne) as [t Ht]. destruct (first_some new Hne) as [f Hf]. destruct (first_some old Hold) as [g Hg].
  rewrite Ht, Hf, Hg. simpl. specialize (Hfees t Ht).
  set (s1 := if (_ || _)%bool then self else _).
  assert (Es : m_pool s1 = m_pool self) by (unfold s1; by destruct (_ || _)%bool).
  pose proof (load_missing_bound client t old new) as Hb. pose proof (load_missing_spec client t old new) as Hl.
  destruct (load_missing client t old new) as [failed changed] eqn:El. simpl in *. rewrite Es. destruct Hl as [Hnd _].
  set (l := Z.of_nat (length (pruned (m_pool self) old new))) in *. set (k := pool_size (m_pool self)) in *.
  assert (0 <= txs_ids_cost (pruned (m_pool self) old new)) as Hids.
  { clear. induction (pruned (m_pool self) old new) as [|x xs IH]; simpl; unfold tx_ids_cost in *; lia. }
  destruct (canonical_inner_ok (m_pool self) (n + l * (k + l + 2))
    (canonical_update client t changed (transaction_hashes new) TxTypes.Reorg)) as (p & Hp & Hok1 & Hle & Htx & Hgiv);
    [apply (inner_ok_room _ _ _ Hok); lia|lia|exact Hfees|simpl; lia|].
  specialize (Hgiv (one_each_NoDup _ Hnd)). rewrite Hp. simpl in Hle, Htx, Hgiv |- *.
  assert (Hk : pool_size p <= k).
  { apply pool_size_subset, map_subseteq_spec. intros i v Hv. by apply Htx. }
  destruct (pruned_ok (m_pool self) old new Hcf) as [Hf1 Hf2].
  pose proof (add_txs_ok fuel p n now External (pruned (m_pool self) old new)) as Hadd.
  fold l in Hadd. specialize (Hadd ltac:(apply (inner_ok_room _ _ _ Hok1); nia) Hn Hf1 Hf2 ltac:(lia) ltac:(lia)).
  destruct (pool_add_transactions _ _ _ _ _) as [[p' rs]|]; simpl; [|by exists p].
  destruct Hadd as (Hok' & Hgain & Hkeep). split; [done|]. split.
  2:{ intros ? [= <-]. rewrite El. by eapply given_settled. }
  intros i v Hv. destruct (Hgain i v Hv) as [Hi|Hi]; [destruct (Htx i v Hi); auto|].
  split; [|by right]. apply list_elem_of_fmap in Hi as (x & -> & Hx). by apply pruned_elem in Hx as (_ & _ & ?).
Qed.

(** ** Runs *)

Lemma select_ok config fuel now client ready self n :
  inner_ok (m_pool self) (n + ready_cost config now ready self) -> 0 <= n -> ready_ok client ready self ->
  match do_select config fuel now client ready self with
  | Some self' => inner_ok (m_pool self') n
  | None => exists p os mid added, add_each p now (pair External <$> os) = Some (mid, added) /\
      Pool.discard_worst fuel (pool mid) = None
  end.
Proof.
  intros Hok Hn Hr. unfold select. destruct ready as [| |[new|old new]|].
  - destruct Hr as (at_ & accs & Hf & Hid). destruct (on_reloaded_ok client self n at_ accs Hok Hn Hf Hid) as (s' & -> & ? & _).
    done.
  - simpl in *. by rewrite Z.add_0_r in Hok.
  - destruct Hr as ([info Hi] & Hc & Hid). simpl. unfold on_event. rewrite Hi. simpl.
    set (s1 := if first_event self then _ else self).
    assert (Es : m_pool s1 = m_pool self) by (unfold s1; by destruct (first_event self)).
    destruct (on_commit_ok config client info new s1 n) as (s' & -> & ? & _); [by rewrite Es|done|done|by rewrite Es|done].
  - pose proof Hr as ([info Hi] & _). simpl. unfold on_event. rewrite Hi. simpl.
    set (s1 := if first_event self then _ else self).
    assert (Es : m_pool s1 = m_pool self) by (unfold s1; by destruct (first_event self)).
    pose proof (on_reorg_ok fuel now client info old new s1 n) as Hm. unfold ready_ok, ready_cost in Hm, Hok, Hr.
    rewrite Es in Hm. specialize (Hm Hok Hn). unfold s1 in Hm at 1.
    destruct (on_reorg _ _ _ _ _ _ _ _ s1) as [s'|]; simpl; apply Hm; split_and!; try apply Hr;
      by destruct (first_event self); apply Hr.
  - destruct (on_stale_ok config now self n Hok Hn) as (s' & -> & ?). done.
Qed.

(** The chains of an event have blocks; otherwise handling it panics. *)
Definition has_blocks (ready : Ready) : Prop :=
  match ready with
  | ReadyEvent (Commit new) => blocks new <> ∅
  | ReadyEvent (Reorg old new) => blocks new <> ∅ /\ blocks old <> ∅
  | _ => True
  end.

Lemma first_none c : blocks c = ∅ -> first c = None.
Proof. unfold first. intros ->. by rewrite map_to_list_empty || done. Qed.

Lemma select_has_blocks config fuel now client ready self self' : do_select config fuel now client ready self = Some self' -> has_blocks ready.
Proof.
  intros (s & Hs & _)%bind_Some. destruct ready as [| |[new|old new]|]; try done; simpl in *; apply bind_Some in Hs as (info & _ & Hs).
  - apply bind_Some in Hs as (t & _ & Hs). apply bind_Some in Hs as (f & Hf & _). intros E. by rewrite (first_none _ E) in Hf.
  - apply bind_Some in Hs as (t & _ & Hs). apply bind_Some in Hs as (f & Hf & Hs). apply bind_Some in Hs as (g & Hg & _).
    split; intros E; [by rewrite (first_none _ E) in Hf|by rewrite (first_none _ E) in Hg].
Qed.

(** The loop, and what others do to the pool while it waits: any operation of
    the pool, and the state the validator reads moving on. *)
Inductive maintain_step (config : MaintainPoolConfig) : MaintainState (S := S) -> MaintainState (S := S) -> Prop :=
| maintain_prepare client self self' :
    finalize_ok client self -> prepare config client self = Some self' -> maintain_step config self self'
| maintain_select fuel now client ready self self' :
    (has_blocks ready -> ready_ok client ready self) -> has_room (pool (m_pool self)) (ready_cost config now ready self) ->
    do_select config fuel now client ready self = Some self' -> maintain_step config self self'
| maintain_other op self p :
    inner_op_ok op (m_pool self) -> has_room (pool (m_pool self)) (inner_cost op (m_pool self)) ->
    run_inner op (m_pool self) = Some p -> maintain_step config self (with_m_pool self p)
| maintain_moves val self :
    maintain_step config self (with_m_pool self (with_validator (m_pool self) val)).

Lemma maintain_step_ok config self self' :
  maintain_step config self self' -> inner_ok (m_pool self) 0 -> inner_ok (m_pool self') 0.
Proof.
  intros Hs Hok. destruct Hs as [client self self' Hf Hp|fuel now client ready self self' Hr Hroom Hsel
    |op self p Ho Hroom Hrun|val self].
  - destruct (prepare_ok config client self 0 Hok ltac:(done) Hf) as (s' & Hp' & Hok' & _). by simplify_eq.
  - pose proof (select_ok config fuel now client ready self 0) as Hm. rewrite Hsel in Hm.
    apply Hm; [by apply (inner_ok_with_room _ 0)|done|by eapply Hr, select_has_blocks].
  - pose proof (run_inner_ok op (m_pool self) 0) as Hm. rewrite Hrun in Hm.
    apply Hm; [by apply (inner_ok_with_room _ 0)|done|done].
  - by apply inner_ok_validator.
Qed.

End steps.

End props.

End MaintainProps.
