(* ===== verification/MaintainClaims.v ===== *)
(** * What the maintenance of the pool guarantees

    The properties of the loop of [maintain.rs], their witnesses, and three runs in
    which it does not do what it means to. *)

From S2P Require Import Prelude Ordered TxErrors TxIdentifier TxState TxTypes SubPoolSpec.
From S2P Require Import EthTransaction EthValidator EthValidatorProps BlobStore PoolEvents.
From S2P Require Import ParkedPool PendingPool BlobFee BlobPool AllTransactions.
From S2P Require Import TxPool TxPoolInv TxPoolOps TxPoolLimits TxPoolProps TxPoolBest TxPoolRemoved.
From S2P Require Import PoolInner PoolInnerProps PoolFacade Maintain MaintainProps.
Import TxErrors Identifier TxState TxTypes SubPoolSpec EthTx Validator ValidatorProps BlobStore PoolEvents.
Import BlobFee PoolInv PoolOps PoolLimits PoolProps PoolRemoved Inner InnerProps Facade Maintain MaintainProps.

Module MaintainClaims.

#[local] Existing Instance Parked.parked_impl.
#[local] Existing Instance BlobTxs.blob_impl.
#[local] Existing Instance Pending.pending_impl.

Section claims.
Context `{AlloyConstants} `{AlloyTypes} `{ValidatorConstants} {ordering : TransactionOrdering}.
Context {S : Type} `{!BlobStoreTrait S} `{!BlobStoreLaws S} {lost_blobs : LostBlobs}.
Context (try_from_eip4844 : SignedTransaction -> BlobTransactionSidecarVariant -> option EthPooledTransaction)
  (try_from_consensus : SignedTransaction -> option EthPooledTransaction).
Implicit Types (self : MaintainState (S := S)).

Abbreviation steps := (maintain_step try_from_eip4844 try_from_consensus).
Abbreviation do_select := (select try_from_eip4844 try_from_consensus).


(** ** Accounts that are out of date *)

(** The pool was given the account by what was ready: as of the block a reload asked for, or as the new block has it. *)
Definition refreshed (client : MaintainClient) (ready : Ready) self self' (a : Z) : Prop :=
  match ready with
  | ReadyReload => exists at_ accs, reload_accounts_fut self = Some (at_, accs) /\ a ∈ accs /\ up_to_date client at_ (m_pool self') a
  | ReadyEvent (Commit new) => exists acc, bundle_state new !! a = Some (Some acc) /\ account_known (m_pool self') a acc
  | _ => False
  end.

Lemma reloaded_outdated client self self' n a :
  inner_ok (m_pool self) (n + Z.of_nat (size (all_txs (pool (m_pool self))))) -> 0 <= n ->
  (forall at_ accs, reload_accounts_fut self = Some (at_, accs) -> id (identifiers (m_pool self)) + Z.of_nat (length accs) < u64_modulus) ->
  on_reloaded client self = Some self' -> a ∈ outdated self ->
  a ∈ outdated self' \/ refreshed client ReadyReload self self' a.
Proof.
  intros Hok Hn Hid Hs. destruct (reload_accounts_fut self) as [[at_ accs]|] eqn:Hr; [|unfold on_reloaded in Hs; by rewrite Hr in Hs].
  destruct (on_reloaded_ok client self n at_ accs Hok Hn Hr (Hid _ _ eq_refl)) as (s & Hs' & _ & _ & _ & _ & Hgiv).
  assert (s = self') as -> by congruence. clear Hs'. unfold on_reloaded, outdated, requested, refreshed in *. rewrite Hr in Hs |- *.
  unfold load_accounts in Hs. destruct (history_by_block_hash client at_) as [state|e] eqn:Hst.
  - apply bind_Some in Hs as (p & _ & [= <-]). simpl in *. rewrite elem_of_union, elem_of_list_to_set.
    destruct (load_loop_spec state accs) as [Hp Hat]. intros [Ha|Ha]; [left; set_solver|]. pose proof Ha as Hin.
    rewrite <- Hp, elem_of_app in Ha. destruct Ha as [(c & -> & Hc)%list_elem_of_fmap|Ha].
    + right. rewrite Forall_forall in Hat. destruct (Hat c Hc) as (oacc & Ho & Hnc & Hbc). exists at_, accs. split_and!; [done|done|].
      exists state, oacc. split_and!; [done|done|]. eapply given_known; [by apply Hgiv|done..].
    + left. rewrite !elem_of_union, !elem_of_list_to_set. auto.
  - injection Hs as <-. simpl. set_solver.
Qed.

Lemma commit_outdated config client info new self self' n a :
  inner_ok (m_pool self) (n + 3 * Z.of_nat (size (all_txs (pool (m_pool self))))) -> 0 <= n -> chain_ok client new ->
  id (identifiers (m_pool self)) + Z.of_nat (length (changed_accounts new)) < u64_modulus ->
  on_commit config client info new self = Some self' -> a ∈ outdated self ->
  a ∈ outdated self' \/ maintained_state self' = Drifted \/ refreshed client (ReadyEvent (Commit new)) self self' a.
Proof.
  intros Hok Hn Hc Hid Hs Ha. destruct (on_commit_ok config client info new self n Hok Hn Hc Hid) as (s & Hs' & _ & _ & Hgiv).
  assert (s = self') as -> by congruence. clear Hs'. destruct Hgiv as [?|Hgiv]; [auto|].
  destruct (decide (a ∈ ca_address <$> changed_accounts new)) as [Hin|Hout].
  { right. right. apply list_elem_of_fmap in Hin as (c & -> & Hin). pose proof Hin as (acc & Hb & Hnc & Hbc)%changed_accounts_elem.
    exists acc. split; [done|]. by eapply given_known. }
  unfold on_commit, outdated, requested in *. apply bind_Some in Hs as (t & _ & Hs). apply bind_Some in Hs as (f & _ & Hs).
  destruct (max_update_depth config <? _); apply bind_Some in Hs as (p & _ & [= <-]); [auto|]. simpl.
  destruct (b_parent_hash f =? _); simpl; [|auto]. left. rewrite elem_of_union in *. rewrite elem_of_difference, elem_of_list_to_set. tauto.
Qed.

Lemma reorg_outdated fuel now client info old new self self' :
  on_reorg try_from_eip4844 try_from_consensus fuel now client info old new self = Some self' ->
  outdated self ⊆ outdated self' /\
  exists t, tip new = Some t /\ list_to_set (load_missing client t old new).1 ⊆ dirty_addresses self'.
Proof.
  unfold on_reorg, outdated, requested. intros (t & Ht & Hr)%bind_Some. apply bind_Some in Hr as (f & _ & Hr).
  apply bind_Some in Hr as (g & _ & Hr). set (s1 := if (_ || _)%bool then self else _) in Hr.
  assert (Es : dirty_addresses s1 = dirty_addresses self /\
    reload_accounts_fut s1 = reload_accounts_fut self) by (unfold s1; by destruct (_ || _)%bool).
  destruct Es as (E2 & E3). destruct (load_missing client t old new) as [failed changed] eqn:Hl.
  apply bind_Some in Hr as (p & Hp & Hr). apply bind_Some in Hr as (r & _ & [= <-]). simpl in *.
  rewrite E2, E3. split; [set_solver|]. exists t. rewrite Hl. split; [done|set_solver].
Qed.

(** C20: accounts that are out of date are not forgotten, in a consistent pool.  When the pool has
    drifted, preparing the next round marks the account of every sender in the pool;
    otherwise what is marked or being reloaded stays so.  Whatever is ready
    then, an account that was marked or being reloaded still is, or the pool
    is marked as drifted, or the pool now goes by the account as of the block for which the reload
    asked, or as the new block has it, and has no transaction left that this account is past. *)
Theorem outdated_not_forgotten config client self n :
  (forall self', inner_ok (m_pool self) n -> 0 <= n -> finalize_ok client self ->
     prepare config client self = Some self' ->
     maintained_state self' = InSync /\
     (if is_drifted (maintained_state self) then pool_senders self ⊆ outdated self'
      else outdated self' = outdated self)) /\
  (forall fuel now ready self' a,
     inner_ok (m_pool self) (n + ready_cost try_from_eip4844 try_from_consensus config now ready self) -> 0 <= n ->
     ready_ok try_from_eip4844 try_from_consensus client ready self ->
     do_select config fuel now client ready self = Some self' ->
     a ∈ outdated self ->
     a ∈ outdated self' \/ maintained_state self' = Drifted \/ refreshed client ready self self' a).
Proof.
  split.
  - intros self' Hok Hn Hf Hp. destruct (prepare_ok config client self n Hok Hn Hf) as (s & Hs & _ & _ & _ & Hm & _ & _ & _ & Ho).
    by simplify_eq.
  - intros fuel now ready self' a Hok Hn Hr (s & Hs & [= <-])%bind_Some Ha.
    change (a ∈ outdated s \/ maintained_state s = Drifted \/ refreshed client ready self s a).
    destruct ready as [| |[new|old new]|].
    + destruct Hr as (at_ & accs & Hf & Hid). destruct (reloaded_outdated client self s n a Hok Hn); auto.
      intros ? ? E. rewrite Hf in E. by injection E as <- <-.
    + injection Hs as <-. auto.
    + unfold on_event in Hs. apply bind_Some in Hs as (info & _ & Hs). destruct Hr as (_ & Hc & Hid).
      set (s1 := if first_event self then _ else self) in Hs.
      assert (Ha' : m_pool s1 = m_pool self /\ a ∈ outdated s1) by (unfold s1; by destruct (first_event self)). destruct Ha' as [Es Ha'].
      destruct (commit_outdated config client info new s1 s n a) as [?|[?|?]]; rewrite ?Es; auto.
    + unfold on_event in Hs. apply bind_Some in Hs as (info & _ & Hs). apply reorg_outdated in Hs as [Hsub _].
      left. apply Hsub. by destruct (first_event self).
    + apply bind_Some in Hs as (r & _ & [= <-]). by left.
Qed.






End claims.

(** ** Witnesses *)

Section examples.
#[local] Existing Instance mainnet_constants.
#[local] Existing Instance example_alloy.
#[local] Existing Instance ValidatorProps.example_validator_constants.
#[local] Existing Instance BlobStore.example_sidecars.
#[local] Existing Instance PoolProps.example_ordering.
#[local] Existing Instance Facade.none_lost.

Abbreviation MState := (MaintainState (S := InMemoryBlobStore)).
Abbreviation ESidecar := (@BlobTransactionSidecarVariant example_alloy).

Definition from_eip4844 (tx : SignedTransaction) (s : ESidecar) : option EthPooledTransaction :=
  Some (mkPooled tx (pooled_cost (pooled_new tx 110)) 110 (SidecarPresent s)).
Definition from_consensus (tx : SignedTransaction) : option EthPooledTransaction := Some (pooled_new tx 110).


(** Every account is rich and has nonce 3 at block 100, and one more for each
    block after it. *)
Definition state_at (block_hash : Z) : StateProvider :=
  mkState (fun _ => Ok (Some (mkAccount (block_hash - 97) (10 ^ 18) None))) (fun _ => Ok None).

Definition rich_client : Client :=
  mkClient 2024 (Z.leb 10) (Z.leb 20) (Z.leb 30) (fun _ => false) (fun _ => Some 6) (Ok (state_at 100)).
Definition rich_validator : EthTransactionValidator :=
  build (with_head_timestamp (builder_new rich_client) 25) (fun _ => Ok false) (fun _ _ => Ok tt).

Definition example_block (number hash parent : Z) (txs : list SignedTransaction) : Block :=
  mkBlock number hash parent 25 30000000 txs.

Definition example_client (finalized : option Z) : MaintainClient :=
  mkMaintainClient (Some (example_block 0 100 99 [])) finalized (fun _ _ => Some 7) (fun _ => Some 1)
    (fun h => Ok (state_at h)).

Definition or_self (d : MState) (o : option MState) : MState := match o with Some s => s | None => d end.

Definition is_some_state (o : option MState) : bool := match o with Some _ => true | None => false end.

Lemma or_self_eq d o : is_some_state o = true -> o = Some (or_self d o).
Proof. by destruct o. Qed.

(** The pool of the example, maintained from block 100 on. *)
Definition rich_inner : PoolInner := with_validator batched_inner rich_validator.
Definition none_state : MState := mkMaintain rich_inner tracker_default None ∅ InSync None true None.
Definition started : MState := or_self none_state (maintain_start (example_client None) rich_inner).

Definition prepared (client : MaintainClient) (s : MState) : MState :=
  or_self s (prepare maintain_config_default client s).
Definition selected (client : MaintainClient) (ready : Ready) (s : MState) : MState :=
  or_self s (select from_eip4844 from_consensus maintain_config_default 20 0 client ready s).



Definition reorg_start : MState := with_first (prepared (example_client None) started) false.

Lemma none_finalize_ok (s : MState) : finalize_ok (example_client None) s.
Proof. intros f number bs h Hf. discriminate Hf. Qed.


Lemma started_ok : inner_ok (m_pool reorg_start) 500.
Proof.
  assert (Hr : inner_ok rich_inner 600) by (apply inner_ok_validator, batched_inner_ok; lia).
  assert (H0' : inner_ok (m_pool started) 500).
  { unfold started, maintain_start. simpl latest_header.
    destruct (block_info_inner_ok rich_inner 500 (pending_info (example_client None) (example_block 0 100 99 [])))
      as (p & -> & Hp & _); [apply (inner_ok_room _ _ _ Hr); vm_compute; discriminate|lia| |exact Hp].
    split; [vm_compute; split; congruence|]. intros f [= <-]. vm_compute. split; congruence. }
  destruct (prepare_ok maintain_config_default (example_client None) started 500) as (s & Hs & Hok & _);
    [exact H0'|lia| |].
  - apply none_finalize_ok.
  - unfold reorg_start, prepared. rewrite Hs. exact Hok.
Qed.







(** The pool has drifted after the first block; then both senders are reloaded. *)
Definition drifted_state : MState := with_state reorg_start Drifted.
Definition synced_state : MState := prepared (example_client None) drifted_state.

Lemma with_state_ok (s : MState) d n : inner_ok (m_pool s) n -> inner_ok (m_pool (with_state s d)) n.
Proof. done. Qed.

(** The reload that follows gives both accounts to the pool. *)
Definition reloaded_state : MState := selected (example_client None) ReadyReload synced_state.

Lemma synced_ok : inner_ok (m_pool synced_state) 500.
Proof.
  destruct (prepare_ok maintain_config_default (example_client None) drifted_state 500) as (s & Hs & Hok & _);
    [apply with_state_ok; exact started_ok|lia|apply none_finalize_ok|].
  unfold synced_state, prepared. rewrite Hs. exact Hok.
Qed.

Lemma outdated_not_forgotten_witness :
  bool_decide (pool_senders drifted_state = {[ 7; 8 ]}) = true /\ pool_senders drifted_state ⊆ outdated synced_state /\
  refreshed (example_client None) ReadyReload synced_state reloaded_state 7.
Proof.
  split; [vm_compute; reflexivity|]. split.
  - destruct (outdated_not_forgotten from_eip4844 from_consensus maintain_config_default (example_client None) drifted_state 500)
      as [Hp _].
    destruct (Hp synced_state) as [_ Ho]; [apply with_state_ok; exact started_ok|lia|apply none_finalize_ok| |exact Ho].
    apply or_self_eq. vm_compute. reflexivity.
  - destruct (outdated_not_forgotten from_eip4844 from_consensus maintain_config_default (example_client None) synced_state 10)
      as [_ Hs].
    destruct (Hs 20%nat 0 ReadyReload reloaded_state 7) as [Ho|[Ho|Ho]].
    + apply (inner_ok_room _ _ _ synced_ok). vm_compute. discriminate.
    + lia.
    + destruct (reload_accounts_fut synced_state) as [[at_ accs]|] eqn:E; [|vm_compute in E; discriminate E].
      exists at_, accs. split; [exact E|]. vm_compute in E. injection E as <- <-. vm_compute. reflexivity.
    + apply or_self_eq. vm_compute. reflexivity.
    + apply (bool_decide_unpack _). vm_compute. exact I.
    + exfalso. revert Ho. apply (bool_decide_unpack _). vm_compute. exact I.
    + exfalso. vm_compute in Ho. discriminate Ho.
    + exact Ho.
Defined.

(** ** What the loop does not do *)

(** A revert is announced as a reorg whose new chain is empty; handling it
    panics. *)
Theorem revert_panics fuel now config client old st (self : MState) :
  select from_eip4844 from_consensus config fuel now client (ReadyEvent (Reorg old (mkChain ∅ st))) self = None.
Proof. unfold select, on_event. by destruct (pool_info self). Qed.

(** Account 8 is poor at block 100.  Its reload is under way when block 101
    arrives, which pays it. *)
Definition poor_client : MaintainClient :=
  mkMaintainClient (Some (example_block 0 100 99 [])) None (fun _ _ => Some 7) (fun _ => Some 1)
    (fun h => Ok (mkState (fun _ => Ok (Some (mkAccount 3 1000 None))) (fun _ => Ok None))).
Definition pay_chain : Chain :=
  mkChain {[ 11 := example_block 11 101 100 [] ]} {[ 8 := Some (mkAccount 3 (10 ^ 18) None) ]}.
Definition reload_state1 : MState := prepared poor_client (with_dirty reorg_start {[ 8 ]}).
Definition reload_state2 : MState :=
  prepared poor_client (selected poor_client (ReadyEvent (Commit pay_chain)) reload_state1).
Definition reload_state3 : MState := selected poor_client ReadyReload reload_state2.

Definition subpool_of (s : MState) (h : Z) : option SubPool :=
  tx ← Pool.get (pool (m_pool s)) h;
  AllTxs.it_subpool <$> AllTxs.txs (Pool.all_transactions (pool (m_pool s))) !! transaction_id tx.

(** The account as of the older block overwrites the newer one: a transaction
    that can be executed after block 101 is parked for lack of funds, and nothing
    is left to be reloaded. *)
Theorem reload_overwrites_newer :
  reload_accounts_fut reload_state2 = Some (100, [8]) /\
  subpool_of reload_state2 52 = Some TxState.Pending /\ subpool_of reload_state3 52 = Some TxState.Queued /\
  outdated reload_state3 = ∅ /\ maintained_state reload_state3 = InSync.
Proof. split_and!; vm_compute; reflexivity. Qed.

(** A chain that is too deep to be applied mines the blob transaction of the pool. *)
Definition deep_chain : Chain :=
  mkChain {[ 100 := example_block 100 200 199 [facade_signed 50 7 3 3 100] ]} ∅.
Definition deep_state1 : MState := selected (example_client None) (ReadyEvent (Commit deep_chain)) reorg_start.
Definition deep_state2 : MState := prepared (example_client (Some 100)) deep_state1.

(** Once the block is finalised its blobs are deleted, also if the transaction
    is still in the pool. *)
Theorem finalized_blob_of_pooled_tx :
  vhash <$> Pool.get (pool (m_pool deep_state2)) 50 = Some 50 /\
  bs_get (blob_store (m_pool deep_state1)) 50 = Ok (Some (example_sidecar false)) /\
  bs_get (blob_store (m_pool deep_state2)) 50 = Ok None.
Proof. split_and!; vm_compute; reflexivity. Qed.

End examples.

End MaintainClaims.
